(* ===== verification/_CoqProject ===== *)
-Q . S2P
Prelude.v
Values.v
Rows.v
Schema.v
BTree.v
BTreeFacts.v
BTreeCursor.v
Change.v
BTreeDiff.v
BTreeDiffFacts.v
Predicate.v
OrdMap.v
Storage.v
Partition.v
PushIndex.v
Connections.v
Overlay.v
Errors.v
Merge.v
Push.v
MemorySource.v
MemorySourceFacts.v
SourcePush.v
SourceFetch.v
Optimistic.v
OptimisticFacts.v
Flat.v
FlatFacts.v
View.v
ViewFacts.v
ViewStable.v
FlatProtocol.v
ProtocolFacts.v
Take.v
TakeFacts.v
TakeSpec.v
Skip.v
PkCodec.v
Cap.v
CapFacts.v
Chain.v
ChainFacts.v
JoinUtil.v
Join.v
JoinFacts.v
NodeMerge.v
FlippedJoin.v
FlippedFacts.v
Union.v
UnionFacts.v
F64.v
Reduce.v
ReduceFacts.v
Ast.v
Builder.v
BuilderFacts.v
Lowering.v
LoweringFacts.v
