(* ===== verification/Prelude.v ===== *)
(** * Rindle: an incremental query engine, verified

    Rindle keeps the results of live queries up to date.  Rows enter through
    sources; a source answers fetches from sorted indexes and pushes every
    change to the queries connected to it, which may fetch from the source again
    while the push is under way.  A materialised view folds the changes of a
    query into a tree, and a subscription protocol sends them, flattened, to
    remote copies of that tree.  Optimistic writes run ahead of the server and
    are rewound by diffing trees.  This library models these layers of
    [src/rust/src] and proves that they mean what they should.

    ** Parts, files and how they interact

    - [Prelude]: three-way comparators and their laws ([TotalCmp]), fallible
      tests, association lists.
    - [Values] ([value.rs], [predicate.rs]): cell values at machine width and
      the three comparators: sort order, join equality, predicate identity.
    - [Rows] ([value.rs]): the flat byte buffer of a row, its writer and readers,
      and the row comparator with its raw fast paths.
    - [Schema] ([value.rs], [wire_schema.rs]): schemas of levels and
      relationships, their wire form and their fingerprint.
    - [BTree], [BTreeFacts], [BTreeCursor] ([btree.rs]): the copy-on-write
      B+tree behind every index, its seek bounds and its cursors.
    - [BTreeDiff], [BTreeDiffFacts] ([btree.rs]): the structural diff of two
      trees, over oracles for pointer equality.
    - [Change] ([change.rs]): changes, constraints and fetch requests, and the
      materialisation of lazy changes.
    - [Predicate] ([predicate.rs]): compiled predicates, value sets, LIKE.
    - [OrdMap], [PushIndex] ([push_index.rs]): the reverse index from guard
      values to connection slots that prunes the fan-out of a push.
    - [Connections] ([source_common.rs]): connection slots with generations and
      a free list, kept in step with the push index.
    - [Overlay] ([source_common.rs]): the change in flight spliced into a scan,
      and the start, constraint and filter stages of a fetch.
    - [Merge] ([source_common.rs]): the k-way heap merge of sorted streams.
    - [Errors] ([error.rs]), [Push] ([source_common.rs]): the push of a change:
      fan-out, epoch gate, edit split, consistency check, write after the drain,
      against the class [SourceBackend] of what a backend supplies.
    - [MemorySource] ([memory_source.rs]): the in-memory table, an instance of
      [SourceBackend]; [MemorySourceFacts], [SourcePush] and [SourceFetch] hold
      its theorems.
    - [Optimistic], [OptimisticFacts] ([optimistic.rs]): the tracked tables and
      the rewind, against the class [RewindGraph] of what it uses of the graph.
    - [Flat], [FlatFacts] ([changes.rs], [flat.rs], [flat_receiver.rs]): changes
      drained and flattened, and the reference receiver that applies them.
    - [View], [ViewFacts], [ViewStable] ([view.rs]): the materialised view, its
      copy-on-write differ with transaction stamps, and the view shell.
    - [FlatProtocol], [ProtocolFacts] ([flat_protocol.rs]): publisher and
      subscriber as state machines over a network that delivers anything.
    - [Storage] ([storage.rs]), [Partition] ([op/partition.rs]): the storage an
      operator keeps its state in, as a class with laws and an in-memory
      instance, and the state keys of partitions.
    - [Take], [TakeFacts], [TakeSpec] ([op/take.rs]): the first rows of every
      partition; [Skip] ([op/skip.rs]): the rows past a bound, and a take above it.
    - [PkCodec], [Cap], [CapFacts] ([op/cap.rs]): the text of a tracked key, and
      the unordered limit that tracks rows by it.
    - [Chain], [ChainFacts] ([graph.rs], [op/exists.rs]): the filter chain of a
      condition: leaf predicates, [EXISTS] gates and [OR] fans.
    - [JoinUtil] ([op/join_util.rs]), [Join], [JoinFacts] ([graph.rs]): the
      hierarchical join, whose children hang below each parent.
    - [NodeMerge] ([op/merge.rs]), [FlippedJoin], [FlippedFacts]
      ([op/flipped_join.rs]): the join driven by its children, which answers the
      parents that have one.
    - [Union], [UnionFacts] ([op/union.rs]): the fan of the branches of an [OR]
      between joins, merged by row on fetch and on push.
    - [F64]: the arithmetic of floats, by the Standard Library's; [Reduce],
      [ReduceFacts] ([op/reduce.rs]): [count], [sum] and [avg], of everything or
      by group, from an accumulator per group.

    A fetch runs [MemorySource.fetch]: it finds or builds an index ([BTree]),
    seeks a cursor ([BTreeCursor]), splices the overlay and filters ([Overlay]),
    and for multi-constraints merges sub-fetches ([Merge]).  A push runs
    [Push.gen_push_and_write_with_split_edit] with the memory source's callbacks:
    [PushIndex] names the candidate slots of [Connections], each receives the
    change [filter_push] leaves of it, and the change is then written to every
    index.  A rewind ([Optimistic.rewind]) forks the [sync] tree, applies the
    server's delta, diffs the live tree against the result ([BTreeDiff]) and
    pushes the differences into the source.  A view ([View.push_change]) and a
    receiver ([Flat.receiver_apply]) consume the same changes, the second one
    through [Flat.flatten_all] and the frames of [FlatProtocol].

    ** How the code is read

    Functions are functions; loops are recursive functions, structural or with
    fuel.  Mutable state ([RefCell], [Cell], [&mut self]) is passed explicitly.
    A panic ([unwrap], an index out of range, [expect]) is [None]; a [Result] is
    a sum.  The build is a release build: [debug_assert!] does nothing and [u32]
    counters wrap.  An [Rc] or [Arc] shared by value is the value.  A lazy stream
    is the list it yields; the stateful iterators (cursors, splices, merge) are
    modelled as such and then drained.

    Text is its bytes.  A row is the list of its cells outside [Rows], where its
    byte buffer is modelled and proved to hold that list.  The sort comparator
    panics on cells of different types: [Rows.row_cmp] extends it to a total
    order, [Rows.row_typed_compare] shows that on rows of one schema the source
    does not panic and agrees with it, and likewise [Overlay.cmatch] and
    [BTreeCursor.bound_cmp] for constraints and seek bounds.  A [HashMap] is a
    [gmap]; a [BTreeMap] over a comparator is a sorted association list.

    ** What is shown

    - Values and rows: the comparators are total orders where they do not
      panic, integers and floats compare exactly, identity is the tie of the
      predicate order, a written row reads back, buffers compare as their cells.
    - B+tree: any sequence of operations behaves as on a strictly sorted list,
      without a panic; scans yield exactly the rows on the far side of a bound.
    - Predicates: a row is kept exactly when three-valued logic says TRUE; LIKE
      accepts exactly the texts its pattern denotes.
    - Changes: join constraints match exactly the joining rows; merged
      constraints are conjunctions; materialised changes round-trip.
    - Fan-out: the push index never misses a connection and its split keys are
      exact; handles of destroyed connections never reach a recycled slot.
    - Overlays and merge: the splice applies the change in flight; the merge is
      a sorted permutation of its inputs.
    - Push: what a connection receives, applied to the rows it showed, gives the
      rows its predicate accepts, for a whole push through the memory source;
      pruning is invisible; during a push exactly the connections already pushed
      to see the change; strict pushes fail before they change anything.
    - Fetch: a fetch returns, in order and without duplicates, exactly the rows
      of the table, with the visible change applied, that the request asks for;
      [SourceFetch.fetch_ready] lists what it relies on, and
      [SourceFetch.fetch_conditions_needed] shows what happens without two of
      these conditions.
    - Structural diff: it terminates and equals the linear merge of the two
      sorted lists whatever is shared, and applying it gives the other tree.
    - Optimistic writes: a rewind leaves every live table at its confirmed rows
      with the server's delta, and [sync] equal to it; a delta for an untracked
      table changes nothing.
    - Schemas: the wire form loses nothing a receiver uses; the fingerprint is a
      hash of a byte stream that determines the schema.
    - Flat changes and views: what each operation leaves under each key; a view
      and a receiver fed with the same changes hold the same tree; well-formed
      levels stay so; a push keeps every object it does not touch.  The edit that
      moves an entry onto the key of the next one duplicates the key
      ([FlatFacts.edit_onto_next_entry]).
    - Operators: a take holds the first rows of its partition and a cap as many
      rows as fit, through any pushes, with each emitted change valid for what the
      consumer holds and the stored state right for a fetch made meanwhile; a take
      above a skip holds the first rows past the bound; state keys and key texts
      lose nothing.
    - Filter chains: a push comes out as what the change is for the rows that
      satisfy the condition, once; a fetch keeps exactly the nodes that satisfy
      it and leaves no cached count behind.
    - Joins: a change of a child reaches every parent that has it, once and in
      order, and the consumer goes from the tree of the old rows to that of the new
      ones; a parent met before its turn shows its old children.  A flipped join
      answers exactly the parents that have a child, and a change of either side
      makes the parents appear, change or disappear as their children do.  The
      theorems take the child in the order of its table.
    - Unions: a fetch yields once and in order the rows some branch keeps; a push
      comes out once, as what the change is for the rows some branch lets through.
    - Aggregates: a fetch is [SELECT ... GROUP BY], one row per group; every push
      takes the consumer from the aggregates of the old rows to those of the new
      ones; the counter of sums out of range is exact.  This is about columns
      without floats: the running sum of floats drifts
      ([ReduceFacts.float_sum_drifts]).
    - Protocol: a subscriber always holds the tree of a prefix of the published
      frames, refuses gaps, drops repeats, and catches up once the frames have
      come in order.

    ** Fuel

    Fuel is used where recursion is not structural, and each use is proved
    sufficient by the lemma that computes the result: binary searches get the
    length of the slice plus one, node merges the height plus one, bulk loads the
    number of leaves, moving a cursor to a row the number of leaves plus two,
    LIKE matching about the product of the text and pattern lengths, a pull of
    the splice two rounds (it suppresses at most one row), heap sifts the size
    of the heap, draining a stream one pull more than it has rows, the binary
    search of a level the length of its slice, and the walk of the structural
    diff the number of nodes and rows of the two trees.

    ** What is not modelled

    Node sharing of the B+tree is invisible to its operations and left out; the
    structural diff observes it through oracles.  Of the view, stable ids, listeners
    that call back into it and the dump helpers are left out.  Of the graph,
    [try_source_push] is modelled for connections that end in collectors, the
    filter chain and the hierarchical join; its arena and dispatch are not.
    Operators see their input as a function from requests to lists.

    The AST and pipeline builder, the dispatch of the graph, journal frames and the
    planner are planned extensions, in that order of interest: the builder's guard
    and key extraction would discharge the hypotheses on guards and primary-key
    constraints.  SQLite, the wasm
    bindings, metrics, tracing and the TypeScript packages are outside this
    library. *)

From stdpp Require Import base list numbers option sorting.
From Stdlib Require Import ZArith Lia.

(** ** Comparisons

    Rust's [Ordering] is [comparison]; [Ordering::reverse] is [CompOpp]. *)

(** [Ordering] results chained the way [compare_rows] chains its columns: the
    first non-[Eq] one decides. *)
Definition then_cmp (c d : comparison) : comparison :=
  match c with Eq => d | _ => c end.

Definition is_lt (c : comparison) : bool := match c with Lt => true | _ => false end.
Definition is_gt (c : comparison) : bool := match c with Gt => true | _ => false end.
Definition is_eq (c : comparison) : bool := match c with Eq => true | _ => false end.

#[export] Instance comparison_eq_dec : EqDecision comparison.
Proof. solve_decision. Defined.

(** The laws every comparator of the engine must obey for the ordered
    structures above it to work: a total preorder presented as a three-way
    comparison.  [cmp x y = Eq] does not imply [x = y]: rows carry columns the
    sort does not mention. *)
Class TotalCmp {A : Type} (cmp : A → A → comparison) : Prop := {
  cmp_refl x : cmp x x = Eq;
  cmp_opp x y : cmp y x = CompOpp (cmp x y);
  cmp_eq_l x y z : cmp x y = Eq → cmp x z = cmp y z;
  cmp_lt_trans x y z : cmp x y = Lt → cmp y z = Lt → cmp x z = Lt
}.

Create HintDb rindle.

Section total_cmp.
Context {A : Type} (cmp : A → A → comparison) `{!TotalCmp cmp}.

Lemma cmp_eq_sym x y : cmp x y = Eq → cmp y x = Eq.
Proof. intros H. rewrite cmp_opp, H. done. Qed.

Lemma cmp_gt_lt x y : cmp x y = Gt → cmp y x = Lt.
Proof. intros H. rewrite cmp_opp, H. done. Qed.

Lemma cmp_lt_gt x y : cmp x y = Lt → cmp y x = Gt.
Proof. intros H. rewrite cmp_opp, H. done. Qed.

Lemma cmp_eq_r x y z : cmp y z = Eq → cmp x y = cmp x z.
Proof.
  intros H. rewrite (cmp_opp y x), (cmp_opp z x).
  f_equal. by apply cmp_eq_l.
Qed.

Lemma cmp_lt_eq_trans x y z : cmp x y = Lt → cmp y z = Eq → cmp x z = Lt.
Proof. intros H1 H2. by rewrite <-(cmp_eq_r x y z). Qed.

Lemma cmp_eq_lt_trans x y z : cmp x y = Eq → cmp y z = Lt → cmp x z = Lt.
Proof. intros H1 H2. by rewrite (cmp_eq_l x y z). Qed.

Lemma cmp_eq_trans x y z : cmp x y = Eq → cmp y z = Eq → cmp x z = Eq.
Proof. intros H1 H2. by rewrite (cmp_eq_l x y z). Qed.

Lemma cmp_gt_trans x y z : cmp x y = Gt → cmp y z = Gt → cmp x z = Gt.
Proof.
  intros H1%cmp_gt_lt H2%cmp_gt_lt. apply cmp_lt_gt. by eapply cmp_lt_trans.
Qed.

Lemma cmp_nlt_trans x y z : cmp x y ≠ Lt → cmp y z ≠ Lt → cmp x z ≠ Lt.
Proof.
  intros H1 H2 H3. destruct (cmp x y) eqn:E1; [|done|].
  - rewrite (cmp_eq_l x y z) in H3 by done. done.
  - apply H2. apply cmp_gt_lt in E1. by apply (cmp_lt_trans y x z).
Qed.

Lemma cmp_ngt_trans x y z : cmp x y ≠ Gt → cmp y z ≠ Gt → cmp x z ≠ Gt.
Proof.
  intros H1 H2 H3%cmp_gt_lt. revert H3. apply cmp_nlt_trans with y.
  - intros H%cmp_lt_gt. done.
  - intros H%cmp_lt_gt. done.
Qed.

Lemma cmp_lt_ngt_trans x y z : cmp x y = Lt → cmp y z ≠ Gt → cmp x z = Lt.
Proof.
  intros H1 H2. destruct (cmp y z) eqn:E; [|by eapply cmp_lt_trans|done].
  by eapply cmp_lt_eq_trans.
Qed.

Lemma cmp_ngt_lt_trans x y z : cmp x y ≠ Gt → cmp y z = Lt → cmp x z = Lt.
Proof.
  intros H1 H2. destruct (cmp x y) eqn:E; [|by eapply cmp_lt_trans|done].
  by eapply cmp_eq_lt_trans.
Qed.

(** The reversed comparator obeys the same laws. *)
Lemma flip_total : TotalCmp (λ x y, CompOpp (cmp x y)).
Proof.
  split; intros.
  - by rewrite cmp_refl.
  - by rewrite (cmp_opp x y).
  - f_equal. apply cmp_eq_l. by destruct (cmp x y).
  - destruct (cmp x y) eqn:E1, (cmp y z) eqn:E2; try done.
    by rewrite (cmp_gt_trans x y z).
Qed.
End total_cmp.

#[export] Hint Resolve cmp_refl : rindle.

(** A comparator that factors through a key into a lawful one is lawful. *)
Lemma total_cmp_key {A B} (f : A → B) (cmp : B → B → comparison) `{!TotalCmp cmp} :
  TotalCmp (λ x y, cmp (f x) (f y)).
Proof.
  split; intros.
  - apply cmp_refl.
  - apply cmp_opp.
  - by apply cmp_eq_l.
  - by eapply cmp_lt_trans.
Qed.

(** Lexicographic pairing of two lawful comparators over the same carrier. *)
Lemma total_cmp_then {A} (c1 c2 : A → A → comparison) `{!TotalCmp c1, !TotalCmp c2} :
  TotalCmp (λ x y, then_cmp (c1 x y) (c2 x y)).
Proof.
  split; intros; unfold then_cmp in *.
  - rewrite cmp_refl. apply cmp_refl.
  - rewrite (cmp_opp x y). destruct (c1 x y); simpl; try done. apply cmp_opp.
  - destruct (c1 x y) eqn:E; try done. rewrite (cmp_eq_l x y z) by done.
    destruct (c1 y z); try done. by apply cmp_eq_l.
  - destruct (c1 x y) eqn:E1; try done.
    + rewrite (cmp_eq_l x y z) by done. destruct (c1 y z); try done.
      by eapply cmp_lt_trans.
    + destruct (c1 y z) eqn:E2; try done.
      * by rewrite (cmp_lt_eq_trans c1 x y z).
      * by rewrite (cmp_lt_trans x y z).
Qed.

#[export] Instance Z_compare_total : TotalCmp Z.compare.
Proof.
  split.
  - apply Z.compare_refl.
  - intros. apply Z.compare_antisym.
  - intros x y z ->%Z.compare_eq. done.
  - intros x y z. rewrite !Z.compare_lt_iff. lia.
Qed.

(** Lexicographic comparison of slices ([<[T] as Ord>::cmp]): element by
    element, a proper prefix is smaller. *)
Section lex.
Context {A : Type} (cmp : A → A → comparison).

Fixpoint lex_cmp (x y : list A) : comparison :=
  match x, y with
  | [], [] => Eq
  | [], _ :: _ => Lt
  | _ :: _, [] => Gt
  | a :: x', b :: y' => then_cmp (cmp a b) (lex_cmp x' y')
  end.

Context `{!TotalCmp cmp}.

#[export] Instance lex_cmp_total : TotalCmp lex_cmp.
Proof.
  split.
  - induction x as [|a x IH]; simpl; [done|]. by rewrite cmp_refl.
  - induction x as [|a x IH]; destruct y as [|b y]; simpl; try done.
    rewrite (cmp_opp a b), IH. by destruct (cmp a b).
  - induction x as [|a x IH]; intros [|b y] [|c z]; simpl; try done.
    destruct (cmp a b) eqn:E; simpl; try done. intros H.
    rewrite (cmp_eq_l a b c) by done. by rewrite (IH y z).
  - induction x as [|a x IH]; intros [|b y] [|c z]; simpl; try done.
    destruct (cmp a b) eqn:E1; simpl; try done.
    + rewrite (cmp_eq_l (cmp:=cmp) a b c) by done. destruct (cmp b c); simpl; try done.
      apply IH.
    + intros _. destruct (cmp b c) eqn:E2; simpl; try done; intros _.
      * by rewrite (cmp_lt_eq_trans cmp a b c).
      * by rewrite (cmp_lt_trans a b c).
Qed.
End lex.

Lemma lex_cmp_eq {A} (cmp : A → A → comparison) x y :
  (∀ a b, cmp a b = Eq → a = b) → lex_cmp cmp x y = Eq → x = y.
Proof.
  intros Hc. revert y. induction x as [|a x IH]; intros [|b y]; simpl; try done.
  destruct (cmp a b) eqn:E; simpl; try done. intros H. f_equal; auto.
Qed.

(** ** Fallible tests

    [Iterator::all] over a test that can panic: it stops at the first [false],
    so a later element's panic is not reached. *)
Fixpoint try_all {A} (f : A → option bool) (l : list A) : option bool :=
  match l with
  | [] => Some true
  | x :: l' =>
      match f x with
      | None => None
      | Some false => Some false
      | Some true => try_all f l'
      end
  end.

Lemma try_all_true {A} (f : A → option bool) l :
  try_all f l = Some true ↔ Forall (λ x, f x = Some true) l.
Proof.
  induction l as [|x l IH]; simpl; [done|]. rewrite Forall_cons.
  destruct (f x) as [[]|]; rewrite ?IH; naive_solver.
Qed.

Lemma try_all_total {A} (f : A → option bool) (g : A → bool) l :
  (∀ x, x ∈ l → f x = Some (g x)) → try_all f l = Some (forallb g l).
Proof.
  induction l as [|x l IH]; intros H; simpl; [done|].
  rewrite (H x) by (by left). destruct (g x); [|done].
  apply IH. intros y Hy. apply H. by right.
Qed.

(** A loop over a list whose body can panic. *)
Definition try_foldl {A B} (f : B → A → option B) : B → list A → option B :=
  fix go b l {struct l} := match l with [] => Some b | x :: l' => b' ← f b x; go b' l' end.

Lemma try_foldl_cons {A B} (f : B → A → option B) b x l :
  try_foldl f b (x :: l) = b' ← f b x; try_foldl f b' l.
Proof. done. Qed.

Lemma try_foldl_app {A B} (f : B → A → option B) b l1 l2 :
  try_foldl f b (l1 ++ l2) = b' ← try_foldl f b l1; try_foldl f b' l2.
Proof.
  revert b. induction l1 as [|x l1 IH]; intros b; [done|].
  cbn [app]. rewrite !try_foldl_cons. destruct (f b x) as [b'|]; cbn [mbind option_bind]; auto.
Qed.

(** Loops related step by step. *)
Lemma try_foldl_sim {A A' B B'} (R : B → B' → Prop) (f : B → A → option B) (g : B' → A' → option B')
    (l : list A) (l' : list A') b b' :
  Forall2 (λ x x', ∀ b b', R b b' → option_Forall2 R (f b x) (g b' x')) l l' →
  R b b' → option_Forall2 R (try_foldl f b l) (try_foldl g b' l').
Proof.
  intros Hl. revert b b'. induction Hl as [|x x' l l' Hx _ IH]; intros b b' Hb; [by constructor|].
  rewrite !try_foldl_cons. specialize (Hx _ _ Hb).
  destruct Hx as [c c' Hc|]; cbn [mbind option_bind]; [by apply IH|constructor].
Qed.

(** The first entry of an association list with a key. *)
Fixpoint assoc {K V} `{EqDecision K} (l : list (K * V)) (k : K) : option V :=
  match l with
  | [] => None
  | (k', v) :: l' => if decide (k' = k) then Some v else assoc l' k
  end.

Lemma assoc_Some_elem {K V} `{EqDecision K} (l : list (K * V)) k v :
  assoc l k = Some v → (k, v) ∈ l.
Proof.
  induction l as [|[k' v'] l IH]; simpl; [done|]. case_decide as Hd.
  - intros [= <-]. subst. by left.
  - intros H. right. auto.
Qed.

Lemma assoc_None {K V} `{EqDecision K} (l : list (K * V)) k :
  assoc l k = None ↔ k ∉ l.*1.
Proof.
  induction l as [|[k' v'] l IH]; simpl.
  - split; [intros _ H%elem_of_nil|]; done.
  - rewrite not_elem_of_cons. case_decide; naive_solver.
Qed.

Lemma assoc_NoDup {K V} `{EqDecision K} (l : list (K * V)) k v :
  NoDup l.*1 → (k, v) ∈ l → assoc l k = Some v.
Proof.
  induction l as [|[k' v'] l IH]; simpl; [by intros _ ?%elem_of_nil|].
  intros [Hk Hl]%NoDup_cons [?|Hin]%elem_of_cons; simplify_eq/=; [by rewrite decide_True|].
  rewrite decide_False; [by apply IH|]. intros ->. apply Hk.
  by apply (list_elem_of_fmap_2 fst l (k, v)).
Qed.

Lemma filter_ext_elem {A} (P Q : A → Prop) `{!∀ x, Decision (P x), !∀ x, Decision (Q x)} (l : list A) :
  (∀ x, x ∈ l → (P x ↔ Q x)) → filter P l = filter Q l.
Proof.
  induction l as [|x l IH]; intros Hpq; [done|].
  rewrite !filter_cons, IH by (intros y Hy; apply Hpq; by right).
  pose proof (Hpq x ltac:(by left)). repeat case_decide; tauto.
Qed.
