(* ===== verification/Values.v ===== *)
(** * Cell values and their three comparators ([rust/src/value.rs])

    Values are kept at machine width: an [Int] is an [i64] held in [Z], a
    [Float] is the 64 bits of an [f64] held in [Z], text is a list of bytes.
    The file models the IEEE-754 operations the source uses (sign, NaN test,
    exact comparison, [trunc], [as i64], [total_cmp]), the exact
    integer/float comparator [compare_int_f64], and the comparators
    [compare_values] (sort), [values_equal] (join) and [values_identical]
    (predicate). *)

From stdpp Require Import base list numbers.
From Stdlib Require Import ZArith Lia Strings.Byte.
From S2P Require Import Prelude.

#[local] Open Scope Z_scope.

(** ** Machine integers and bytes *)

Definition i64_min : Z := -2 ^ 63.
Definition i64_max : Z := 2 ^ 63 - 1.
Definition i64_wf (x : Z) : Prop := i64_min ≤ x ≤ i64_max.

(** The width is part of the type: an [i64] is an integer with the (boolean,
    hence irrelevant) evidence that it is in range.  [i64_of_Z] wraps around,
    as [as i64] and [from_le_bytes] do. *)
Definition i64_inb (x : Z) : bool := (i64_min <=? x) && (x <=? i64_max).

Record i64 := I64 { i64_Z :> Z; i64_in : Is_true (i64_inb i64_Z) }.

Definition checked {T : Type} (b : bool) (f : Is_true b → T) (d : T) : T :=
  match b as b' return (Is_true b' → T) → T with
  | true => λ f, f I
  | false => λ _, d
  end f.

Definition i64_wrap (x : Z) : Z := (x + 2 ^ 63) mod 2 ^ 64 - 2 ^ 63.

Definition i64_of_Z (x : Z) : i64 :=
  checked (i64_inb (i64_wrap x)) (I64 (i64_wrap x)) (I64 0 I).

(** [u8::cmp]; a slice of bytes is compared with [lex_cmp byte_cmp]. *)
Definition byte_cmp (a b : byte) : comparison :=
  Z.compare (Z.of_N (Byte.to_N a)) (Z.of_N (Byte.to_N b)).

#[export] Instance byte_cmp_total : TotalCmp byte_cmp :=
  total_cmp_key (λ b, Z.of_N (Byte.to_N b)) Z.compare.

Lemma byte_cmp_eq a b : byte_cmp a b = Eq → a = b.
Proof.
  unfold byte_cmp. intros H%Z.compare_eq. apply N2Z.inj in H.
  assert (Byte.of_N (Byte.to_N a) = Byte.of_N (Byte.to_N b)) as E by by rewrite H.
  rewrite !Byte.of_to_N in E. congruence.
Qed.

Definition bytes_cmp : list byte → list byte → comparison := lex_cmp byte_cmp.

#[export] Instance bytes_cmp_total : TotalCmp bytes_cmp := lex_cmp_total byte_cmp.

(** ** [f64], by its bits

    A non-NaN float is an integer multiple of [2^-1074], the smallest
    subnormal, so its exact value is kept as that multiple ([f64_val]).
    Infinity has the value the formula gives for exponent 2047 and a zero
    fraction, [2^1024], which is above every finite one: comparing values is
    then comparing integers. *)

Definition f64_wf (b : Z) : Prop := 0 ≤ b < 2 ^ 64.

(** The number of [f64_val] units in one: [1.0 = 2^1074 * 2^-1074]. *)
Definition f64_unit : Z := 2 ^ 1074.

Definition f64_bits (b : Z) : Z := b mod 2 ^ 63.
Definition f64_exp (b : Z) : Z := f64_bits b / 2 ^ 52.
Definition f64_frac (b : Z) : Z := b mod 2 ^ 52.

(** [f64::is_sign_negative], [f64::is_nan], [f64::is_finite]. *)
Definition f64_is_sign_negative (b : Z) : bool := 2 ^ 63 <=? b.
Definition f64_is_nan (b : Z) : bool := (f64_exp b =? 2047) && negb (f64_frac b =? 0).
Definition f64_is_finite (b : Z) : bool := negb (f64_exp b =? 2047).

Definition f64_mag (b : Z) : Z :=
  if f64_exp b =? 0 then f64_frac b
  else (f64_frac b + 2 ^ 52) * 2 ^ (f64_exp b - 1).

Definition f64_val (b : Z) : Z :=
  if f64_is_sign_negative b then - f64_mag b else f64_mag b.

(** The exact value of [y.trunc()], again in units. *)
Definition f64_trunc_val (b : Z) : Z := f64_unit * (f64_val b `quot` f64_unit).

(** [t as i64] of a value given in units: towards zero, saturating. *)
Definition f64_val_as_i64 (v : Z) : Z :=
  Z.max i64_min (Z.min i64_max (v `quot` f64_unit)).

(** [f64::total_cmp]: the sign-magnitude bits mapped to two's complement and
    compared as integers. *)
Definition f64_total_key (b : Z) : Z :=
  if f64_is_sign_negative b then - f64_bits b - 1 else f64_bits b.

Definition f64_total_cmp (a b : Z) : comparison :=
  Z.compare (f64_total_key a) (f64_total_key b).

Definition f64_inb (x : Z) : bool := (0 <=? x) && (x <? 2 ^ 64).

Record f64 := F64 { f64_Z :> Z; f64_in : Is_true (f64_inb f64_Z) }.

Definition f64_of_bits (x : Z) : f64 :=
  checked (f64_inb (x mod 2 ^ 64)) (F64 (x mod 2 ^ 64)) (F64 0 I).

Lemma i64_eq (x y : i64) : i64_Z x = i64_Z y → x = y.
Proof. destruct x, y; simpl. intros ->. f_equal. apply Is_true_pi. Qed.

Lemma f64_eq (x y : f64) : f64_Z x = f64_Z y → x = y.
Proof. destruct x, y; simpl. intros ->. f_equal. apply Is_true_pi. Qed.

#[export] Instance i64_eq_dec : EqDecision i64.
Proof.
  intros x y. destruct (decide (i64_Z x = i64_Z y)) as [E|E].
  - left. by apply i64_eq.
  - right. by intros ->.
Defined.

#[export] Instance f64_eq_dec : EqDecision f64.
Proof.
  intros x y. destruct (decide (f64_Z x = f64_Z y)) as [E|E].
  - left. by apply f64_eq.
  - right. by intros ->.
Defined.

Lemma i64_is_wf (x : i64) : i64_wf x.
Proof.
  destruct x as [x Hx]. simpl. apply Is_true_true in Hx. unfold i64_inb in Hx.
  apply andb_true_iff in Hx as [?%Z.leb_le ?%Z.leb_le]. done.
Qed.

Lemma f64_is_wf (x : f64) : f64_wf x.
Proof.
  destruct x as [x Hx]. simpl. apply Is_true_true in Hx. unfold f64_inb in Hx.
  apply andb_true_iff in Hx as [?%Z.leb_le ?%Z.ltb_lt]. done.
Qed.

Lemma checked_true {T} (b : bool) (f : Is_true b → T) d (H : Is_true b) :
  checked b f d = f H.
Proof. destruct b; simpl; [|done]. f_equal. apply Is_true_pi. Qed.

Lemma i64_wrap_id x : i64_wf x → i64_wrap x = x.
Proof.
  unfold i64_wf, i64_min, i64_max, i64_wrap. intros. rewrite Z.mod_small; lia.
Qed.

Lemma i64_of_Z_Z (x : i64) : i64_of_Z x = x.
Proof.
  apply i64_eq. unfold i64_of_Z. rewrite i64_wrap_id by apply i64_is_wf.
  by rewrite (checked_true _ _ _ (i64_in x)).
Qed.

Lemma f64_of_bits_bits (x : f64) : f64_of_bits x = x.
Proof.
  apply f64_eq. unfold f64_of_bits. rewrite Z.mod_small by apply f64_is_wf.
  by rewrite (checked_true _ _ _ (f64_in x)).
Qed.

(** ** The values *)

(** Rust has a borrowed [Value<'a>] and an owned [OwnedValue] with the same
    variants; [as_ref]/[to_owned] are the identity on the model.  (The owned
    form additionally promises valid UTF-8 in [Str]/[Json].) *)
Inductive value : Type :=
  | Absent
  | Null
  | Bool (b : bool)
  | Int (i : i64)
  | Float (f : f64)
  | Str (s : list byte)
  | Json (s : list byte).

#[export] Instance byte_eq_dec : EqDecision byte.
Proof. intros a b. destruct (Byte.byte_eq_dec a b); [by left|by right]. Defined.

#[export] Instance value_eq_dec : EqDecision value.
Proof. solve_decision. Defined.

#[export] Instance value_inhabited : Inhabited value := populate Absent.

Definition is_null (v : value) : bool := match v with Null => true | _ => false end.
Definition is_absent (v : value) : bool := match v with Absent => true | _ => false end.

Definition bool_cmp (x y : bool) : comparison :=
  match x, y with
  | false, true => Lt
  | true, false => Gt
  | _, _ => Eq
  end.

(** ** The exact [Int]/[Float] comparison *)

(** [TWO_POW_63], in units. *)
Definition two_pow_63 : Z := 2 ^ 63 * f64_unit.

Definition compare_int_f64 (x y : Z) : comparison :=
  if f64_is_nan y then
    if negb (f64_is_sign_negative y) then Lt else Gt
  else if two_pow_63 <=? f64_val y then Lt
  else if f64_val y <? - two_pow_63 then Gt
  else
    let t := f64_trunc_val y in
    let ty := f64_val_as_i64 t in
    match Z.compare x ty with
    | Eq =>
        if t <? f64_val y then Lt
        else if (f64_val y <? t) || ((x =? 0) && f64_is_sign_negative y) then Gt
        else Eq
    | ord => ord
    end.

(** [float_int_class]: [Some i] iff the float equals [Int i] exactly. *)
Definition float_int_class (f : Z) : option Z :=
  if negb (f64_is_finite f) || negb (f64_trunc_val f =? f64_val f) then None
  else if f64_val f =? 0 then
    if f64_is_sign_negative f then None else Some 0
  else if negb ((- two_pow_63 <=? f64_val f) && (f64_val f <? two_pow_63)) then None
  else Some (f64_val_as_i64 (f64_val f)).

(** ** The three comparators *)

(** [compare_values]: the sort order.  [None] is the [panic!] of the last
    arm, reached on two values of different JS types. *)
Definition compare_values (a b : value) : option comparison :=
  match a, b with
  | Absent, Absent => Some Eq
  | Absent, _ => Some Lt
  | _, Absent => Some Gt
  | Null, Null => Some Eq
  | Null, _ => Some Lt
  | _, Null => Some Gt
  | Bool x, Bool y => Some (bool_cmp x y)
  | Int x, Int y => Some (Z.compare x y)
  | Float x, Float y => Some (f64_total_cmp x y)
  | Int x, Float y => Some (compare_int_f64 x y)
  | Float x, Int y => Some (CompOpp (compare_int_f64 y x))
  | Str x, Str y => Some (bytes_cmp x y)
  | Json x, Json y => Some (bytes_cmp x y)
  | _, _ => None
  end.

(** [values_equal]: join equality, null and absent match nothing. *)
Definition values_equal (a b : value) : option bool :=
  match a, b with
  | Absent, _ | _, Absent => Some false
  | Null, _ | _, Null => Some false
  | _, _ => is_eq <$> compare_values a b
  end.

(** [values_identical]: predicate identity, total and null-identical. *)
Definition values_identical (a b : value) : bool :=
  match a, b with
  | Absent, Absent => true
  | Absent, _ | _, Absent => false
  | Null, Null => true
  | Null, _ | _, Null => false
  | Bool x, Bool y => Bool.eqb x y
  | Int x, Int y => x =? y
  | Float x, Float y => is_eq (f64_total_cmp x y)
  | Int x, Float y => is_eq (compare_int_f64 x y)
  | Float x, Int y => is_eq (compare_int_f64 y x)
  | Str x, Str y => bool_decide (x = y)
  | Json x, Json y => bool_decide (x = y)
  | _, _ => false
  end.

(** ** The numeric key

    Integers and floats form one ordered domain.  [num_key] embeds it in [Z]:
    twice the exact value in units, with [-0.0] just below [0] and the NaNs
    outside the infinities by payload. *)

Definition f64_inf_key : Z := 2 * (2 ^ 52 * 2 ^ 2046).

Definition f64_ukey (b : Z) : Z :=
  if f64_is_nan b then f64_inf_key + f64_frac b else 2 * f64_mag b.

Definition f64_key (b : Z) : Z :=
  if f64_is_sign_negative b then
    if f64_ukey b =? 0 then -1 else - f64_ukey b
  else f64_ukey b.

Definition int_key (x : Z) : Z := 2 * (x * f64_unit).

Section f64_order.

Lemma f64_unit_pos : 0 < f64_unit.
Proof. apply Z.pow_pos_nonneg; lia. Qed.

Lemma f64_bits_bound b : 0 ≤ f64_bits b < 2 ^ 63.
Proof. apply Z.mod_pos_bound. lia. Qed.

Lemma f64_frac_bound b : 0 ≤ f64_frac b < 2 ^ 52.
Proof. apply Z.mod_pos_bound. lia. Qed.

Lemma f64_bits_split b : f64_bits b = f64_exp b * 2 ^ 52 + f64_frac b.
Proof.
  unfold f64_exp, f64_frac, f64_bits.
  replace (b mod 2 ^ 52) with ((b mod 2 ^ 63) mod 2 ^ 52).
  - rewrite (Z.div_mod (b mod 2 ^ 63) (2 ^ 52)) at 1 by lia. lia.
  - replace (2 ^ 63) with (2 ^ 52 * 2 ^ 11) by done.
    rewrite Z.rem_mul_r by lia.
    rewrite (Z.mul_comm (2 ^ 52)), Z.mod_add by lia. by apply Z.mod_mod.
Qed.

Lemma f64_exp_bound b : 0 ≤ f64_exp b ≤ 2047.
Proof.
  pose proof (f64_bits_bound b). pose proof (f64_frac_bound b).
  rewrite f64_bits_split in *. lia.
Qed.

Lemma f64_mag_nonneg b : 0 ≤ f64_mag b.
Proof.
  unfold f64_mag. pose proof (f64_frac_bound b).
  case_match; [lia|]. apply Z.mul_nonneg_nonneg; [lia|]. apply Z.pow_nonneg. lia.
Qed.

(** Scaling by a power of two, the only fact about [2^e] the order needs. *)
Lemma mag_scale_lt m m' e e' :
  0 ≤ m < 2 ^ 52 → 0 ≤ m' → 1 ≤ e → e < e' →
  (m + 2 ^ 52) * 2 ^ (e - 1) < (m' + 2 ^ 52) * 2 ^ (e' - 1).
Proof.
  intros Hm Hm' He Hlt.
  assert (2 ^ (e' - 1) = 2 ^ (e - 1) * 2 ^ (e' - e)) as ->.
  { rewrite <-Z.pow_add_r by lia. f_equal. lia. }
  assert (2 ≤ 2 ^ (e' - e)).
  { replace 2 with (2 ^ 1) at 1 by done. apply Z.pow_le_mono_r; lia. }
  pose proof (Z.pow_pos_nonneg 2 (e - 1) ltac:(lia) ltac:(lia)). nia.
Qed.

Lemma f64_mag_lt a b : f64_bits a < f64_bits b → f64_mag a < f64_mag b.
Proof.
  rewrite !f64_bits_split. unfold f64_mag.
  pose proof (f64_frac_bound a). pose proof (f64_frac_bound b).
  pose proof (f64_exp_bound a). pose proof (f64_exp_bound b).
  intros Hlt. destruct (decide (f64_exp a = f64_exp b)) as [Heq|Hne].
  - rewrite Heq. case_match; [lia|].
    apply Z.mul_lt_mono_pos_r; [apply Z.pow_pos_nonneg|]; lia.
  - assert (f64_exp a < f64_exp b) by lia.
    replace (f64_exp b =? 0) with false by (symmetry; apply Z.eqb_neq; lia).
    destruct (Z.eqb_spec (f64_exp a) 0).
    + pose proof (Z.pow_pos_nonneg 2 (f64_exp b - 1) ltac:(lia) ltac:(lia)). nia.
    + apply mag_scale_lt; lia.
Qed.

Lemma f64_mag_inf b : f64_is_nan b = false → 2 * f64_mag b ≤ f64_inf_key.
Proof.
  unfold f64_is_nan. intros Hn.
  pose proof (f64_frac_bound b). pose proof (f64_exp_bound b).
  apply Z.mul_le_mono_nonneg_l; [lia|]. unfold f64_mag.
  destruct (Z.eqb_spec (f64_exp b) 2047) as [E|E].
  - simpl in Hn. apply negb_false_iff, Z.eqb_eq in Hn. rewrite Hn, E. done.
  - destruct (Z.eqb_spec (f64_exp b) 0).
    + pose proof (Z.pow_pos_nonneg 2 2046 ltac:(lia) ltac:(lia)). nia.
    + apply Z.lt_le_incl, (mag_scale_lt _ 0 _ 2047); lia.
Qed.

Lemma f64_ukey_nonneg b : 0 ≤ f64_ukey b.
Proof.
  unfold f64_ukey. pose proof (f64_mag_nonneg b). pose proof (f64_frac_bound b).
  case_match; [|lia]. assert (0 ≤ f64_inf_key) by done. lia.
Qed.

Lemma f64_ukey_one b : f64_ukey b ≠ 1.
Proof.
  unfold f64_ukey. pose proof (f64_frac_bound b). case_match; [|lia].
  assert (1 < f64_inf_key) by done. lia.
Qed.

Lemma f64_nan_bits b : f64_is_nan b = true ↔ 2047 * 2 ^ 52 < f64_bits b.
Proof.
  rewrite f64_bits_split. unfold f64_is_nan.
  pose proof (f64_frac_bound b). pose proof (f64_exp_bound b).
  rewrite andb_true_iff, Z.eqb_eq, negb_true_iff, Z.eqb_neq. lia.
Qed.

Lemma f64_ukey_lt a b : f64_bits a < f64_bits b → f64_ukey a < f64_ukey b.
Proof.
  intros Hlt. unfold f64_ukey.
  destruct (f64_is_nan a) eqn:Ha, (f64_is_nan b) eqn:Hb.
  - apply f64_nan_bits in Ha, Hb. rewrite !f64_bits_split in *.
    pose proof (f64_frac_bound a). pose proof (f64_frac_bound b).
    pose proof (f64_exp_bound a). pose proof (f64_exp_bound b). lia.
  - apply f64_nan_bits in Ha. assert (f64_is_nan b = true); [|congruence].
    apply f64_nan_bits. lia.
  - pose proof (f64_mag_inf a Ha). unfold f64_is_nan in Hb.
    pose proof (f64_frac_bound b).
    rewrite andb_true_iff, Z.eqb_eq, negb_true_iff, Z.eqb_neq in Hb. lia.
  - pose proof (f64_mag_lt a b Hlt). lia.
Qed.

Lemma f64_key_lt a b : f64_total_key a < f64_total_key b → f64_key a < f64_key b.
Proof.
  unfold f64_total_key, f64_key.
  pose proof (f64_bits_bound a). pose proof (f64_bits_bound b).
  pose proof (f64_ukey_nonneg a). pose proof (f64_ukey_nonneg b).
  pose proof (f64_ukey_one a). pose proof (f64_ukey_one b).
  pose proof (f64_ukey_lt a b). pose proof (f64_ukey_lt b a).
  do 2 case_match; repeat case_match; rewrite ?Z.eqb_eq, ?Z.eqb_neq in *; lia.
Qed.

Lemma f64_total_key_inj a b :
  f64_wf a → f64_wf b → f64_total_key a = f64_total_key b → a = b.
Proof.
  unfold f64_wf, f64_total_key, f64_is_sign_negative, f64_bits. intros Ha Hb.
  destruct (Z.leb_spec (2 ^ 63) a), (Z.leb_spec (2 ^ 63) b).
  - rewrite !(Z.mod_eq _ (2 ^ 63)) by lia.
    assert (a / 2 ^ 63 = 1) as -> by (symmetry; apply Z.div_unique with (a - 2^63); lia).
    assert (b / 2 ^ 63 = 1) as -> by (symmetry; apply Z.div_unique with (b - 2^63); lia).
    lia.
  - pose proof (Z.mod_pos_bound a (2 ^ 63)). pose proof (Z.mod_pos_bound b (2 ^ 63)). lia.
  - pose proof (Z.mod_pos_bound a (2 ^ 63)). pose proof (Z.mod_pos_bound b (2 ^ 63)). lia.
  - rewrite !Z.mod_small by lia. done.
Qed.

(** [total_cmp] is the order of the keys. *)
Lemma f64_total_cmp_key a b :
  f64_wf a → f64_wf b → f64_total_cmp a b = Z.compare (f64_key a) (f64_key b).
Proof.
  intros Ha Hb. unfold f64_total_cmp.
  destruct (Z.compare_spec (f64_total_key a) (f64_total_key b)) as [E|E|E].
  - apply f64_total_key_inj in E as ->; [|done..]. by rewrite Z.compare_refl.
  - symmetry. by apply Z.compare_lt_iff, f64_key_lt.
  - symmetry. by apply Z.compare_gt_iff, f64_key_lt.
Qed.
End f64_order.

Section int_float.

Lemma rem_neg_bound v U : v ≤ 0 → 0 < U → - U < Z.rem v U ≤ 0.
Proof.
  intros Hv HU. pose proof (Z.rem_bound_pos (- v) U ltac:(lia) HU) as Hb.
  rewrite Z.rem_opp_l in Hb by lia. lia.
Qed.

(** Truncated division against an integer candidate: the quotient decides,
    and on a tie the remainder does. *)
Lemma quot_compare U v x :
  0 < U →
  Z.compare (x * U) v =
    match Z.compare x (v `quot` U) with
    | Eq => Z.compare (U * (v `quot` U)) v
    | ord => ord
    end.
Proof.
  intros HU. pose proof (Z.quot_rem' v U) as Hq.
  destruct (Z.compare_spec x (v `quot` U)) as [->|Hlt|Hgt].
  - f_equal. lia.
  - apply Z.compare_lt_iff. destruct (Z.le_gt_cases 0 v).
    + pose proof (Z.rem_bound_pos v U ltac:(lia) ltac:(lia)). nia.
    + pose proof (rem_neg_bound v U ltac:(lia) ltac:(lia)). nia.
  - apply Z.compare_gt_iff. destruct (Z.le_gt_cases 0 v).
    + pose proof (Z.rem_bound_pos v U ltac:(lia) ltac:(lia)). nia.
    + pose proof (rem_neg_bound v U ltac:(lia) ltac:(lia)). nia.
Qed.

Lemma quot_in_range U v K :
  0 < U → 0 < K → - (K * U) ≤ v < K * U → - K ≤ v `quot` U ≤ K - 1.
Proof.
  intros HU HK Hv. pose proof (Z.quot_rem' v U) as Hq.
  destruct (Z.le_gt_cases 0 v).
  - pose proof (Z.rem_bound_pos v U ltac:(lia) ltac:(lia)). nia.
  - pose proof (rem_neg_bound v U ltac:(lia) ltac:(lia)). nia.
Qed.

Lemma f64_val_key y :
  f64_is_nan y = false →
  f64_key y = 2 * f64_val y - (if (f64_val y =? 0) && f64_is_sign_negative y then 1 else 0).
Proof.
  intros Hn. unfold f64_key, f64_ukey, f64_val. rewrite Hn.
  pose proof (f64_mag_nonneg y).
  destruct (f64_is_sign_negative y); rewrite ?andb_true_r, ?andb_false_r; [|lia].
  destruct (Z.eqb_spec (2 * f64_mag y) 0), (Z.eqb_spec (- f64_mag y) 0); lia.
Qed.

Lemma int_key_bound x :
  i64_wf x → - f64_inf_key < int_key x < f64_inf_key.
Proof.
  unfold i64_wf, i64_min, i64_max, int_key, f64_inf_key. intros Hx.
  pose proof f64_unit_pos. assert (2 ^ 64 * f64_unit < 2 ^ 52 * 2 ^ 2046) by done. nia.
Qed.

Lemma f64_nan_key y :
  f64_is_nan y = true →
  if f64_is_sign_negative y then f64_key y < - f64_inf_key else f64_inf_key < f64_key y.
Proof.
  intros Hn. unfold f64_key, f64_ukey. rewrite Hn.
  unfold f64_is_nan in Hn. rewrite andb_true_iff, negb_true_iff, Z.eqb_neq in Hn.
  pose proof (f64_frac_bound y). assert (0 < f64_inf_key) by done.
  case_match; [case_match|]; rewrite ?Z.eqb_eq in *; lia.
Qed.

(** The comparison of [x] with the doubled value of [y], once [y] is known to
    be in the range of [i64]. *)
Lemma compare_int_f64_finite x y :
  f64_is_nan y = false → - two_pow_63 ≤ f64_val y < two_pow_63 →
  compare_int_f64 x y = Z.compare (int_key x) (f64_key y).
Proof.
  intros Hn Hv. unfold compare_int_f64. rewrite Hn.
  destruct (Z.leb_spec two_pow_63 (f64_val y)); [lia|].
  destruct (Z.ltb_spec (f64_val y) (- two_pow_63)); [lia|].
  pose proof f64_unit_pos as HU.
  assert (f64_val_as_i64 (f64_trunc_val y) = f64_val y `quot` f64_unit) as ->.
  { unfold f64_val_as_i64, f64_trunc_val. rewrite Z.mul_comm, Z.quot_mul by lia.
    pose proof (quot_in_range f64_unit (f64_val y) (2 ^ 63)) as Hr.
    unfold two_pow_63 in Hv. specialize (Hr HU eq_refl ltac:(lia)).
    unfold i64_min, i64_max. lia. }
  rewrite f64_val_key by done. unfold int_key.
  pose proof (quot_compare f64_unit (f64_val y) x HU) as Hq.
  unfold f64_trunc_val. set (q := f64_val y `quot` f64_unit) in *.
  assert (q = 0 → f64_val y = f64_unit * q → f64_val y = 0) by lia.
  assert (f64_val y = 0 → q = 0) as Hz.
  { intros E. unfold q. rewrite E. by apply Z.quot_0_l; lia. }
  destruct (Z.compare_spec x q) as [->|Hlt|Hgt].
  - destruct (Z.ltb_spec (f64_unit * q) (f64_val y)).
    { symmetry. apply Z.compare_lt_iff. destruct (Z.eqb_spec (f64_val y) 0); simpl; [|lia].
      rewrite Hz in * by done. lia. }
    destruct (Z.ltb_spec (f64_val y) (f64_unit * q)); simpl.
    { symmetry. apply Z.compare_gt_iff. case_match; lia. }
    assert (f64_val y = f64_unit * q) as E by lia.
    destruct (Z.eqb_spec q 0) as [Eq0|Ne].
    + rewrite E, Eq0, Z.mul_0_r. simpl. by destruct (f64_is_sign_negative y).
    + destruct (Z.eqb_spec (f64_val y) 0); [nia|]. simpl. symmetry.
      apply Z.compare_eq_iff. lia.
  - symmetry. rewrite Z.compare_lt_iff in Hq. apply Z.compare_lt_iff. case_match; lia.
  - symmetry. rewrite Z.compare_gt_iff in Hq. apply Z.compare_gt_iff. case_match; lia.
Qed.

Lemma compare_int_f64_key x y :
  i64_wf x → compare_int_f64 x y = Z.compare (int_key x) (f64_key y).
Proof.
  intros Hx. pose proof (int_key_bound x Hx) as Hb.
  destruct (f64_is_nan y) eqn:Hn.
  { unfold compare_int_f64. rewrite Hn. pose proof (f64_nan_key y Hn).
    destruct (f64_is_sign_negative y); simpl; symmetry;
      [apply Z.compare_gt_iff|apply Z.compare_lt_iff]; lia. }
  destruct (Z.le_gt_cases two_pow_63 (f64_val y)) as [Hge|Hlt].
  { unfold compare_int_f64. rewrite Hn. destruct (Z.leb_spec two_pow_63 (f64_val y)); [|lia].
    symmetry. apply Z.compare_lt_iff. rewrite f64_val_key by done.
    unfold int_key, two_pow_63, i64_wf, i64_max in *. pose proof f64_unit_pos.
    case_match; nia. }
  destruct (Z.lt_ge_cases (f64_val y) (- two_pow_63)) as [Hl|Hge].
  { unfold compare_int_f64. rewrite Hn. destruct (Z.leb_spec two_pow_63 (f64_val y)); [lia|].
    destruct (Z.ltb_spec (f64_val y) (- two_pow_63)); [|lia].
    symmetry. apply Z.compare_gt_iff. rewrite f64_val_key by done.
    unfold int_key, two_pow_63, i64_wf, i64_min in *. pose proof f64_unit_pos.
    case_match; nia. }
  by apply compare_int_f64_finite.
Qed.
End int_float.

(** ** The total predicate order ([rust/src/predicate.rs])

    [compare_predicate_values] never panics: a pair [compare_values] rejects is
    ordered by a rank of its types. *)

Definition predicate_type_rank (v : value) : Z :=
  match v with
  | Absent => 0
  | Null => 1
  | Bool _ => 2
  | Int _ | Float _ => 3
  | Str _ => 4
  | Json _ => 5
  end.

Definition compare_predicate_values (a b : value) : comparison :=
  match a, b with
  | Absent, Absent => Eq
  | Absent, _ => Lt
  | _, Absent => Gt
  | Null, Null => Eq
  | Null, _ => Lt
  | _, Null => Gt
  | Int x, Float y => compare_int_f64 x y
  | Float x, Int y => CompOpp (compare_int_f64 y x)
  | Bool x, Bool y => bool_cmp x y
  | Int x, Int y => Z.compare x y
  | Float x, Float y => f64_total_cmp x y
  | Str x, Str y => bytes_cmp x y
  | Json x, Json y => bytes_cmp x y
  | _, _ => Z.compare (predicate_type_rank a) (predicate_type_rank b)
  end.

(** The key of a value in one ordered domain: the rank of its type, then its
    number, then its text. *)
Definition value_num (v : value) : Z :=
  match v with
  | Bool b => if b then 1 else 0
  | Int x => int_key x
  | Float y => f64_key y
  | _ => 0
  end.

Definition value_text (v : value) : list byte :=
  match v with Str s | Json s => s | _ => [] end.

Definition key_cmp (a b : value) : comparison :=
  then_cmp (Z.compare (predicate_type_rank a) (predicate_type_rank b))
    (then_cmp (Z.compare (value_num a) (value_num b))
       (bytes_cmp (value_text a) (value_text b))).

#[export] Instance key_cmp_total : TotalCmp key_cmp.
Proof.
  apply (total_cmp_then (λ a b, Z.compare (predicate_type_rank a) (predicate_type_rank b))).
  - apply total_cmp_key, _.
  - apply (total_cmp_then (λ a b, Z.compare (value_num a) (value_num b))).
    + apply total_cmp_key, _.
    + apply total_cmp_key, _.
Qed.

Lemma int_key_compare x y : Z.compare (int_key x) (int_key y) = Z.compare x y.
Proof.
  unfold int_key. pose proof f64_unit_pos.
  destruct (Z.compare_spec x y) as [->|?|?].
  - apply Z.compare_refl.
  - apply Z.compare_lt_iff. nia.
  - apply Z.compare_gt_iff. nia.
Qed.

Lemma then_cmp_Eq_r c : then_cmp c Eq = c.
Proof. by destruct c. Qed.

Lemma compare_predicate_values_key a b : compare_predicate_values a b = key_cmp a b.
Proof.
  destruct a, b; try done; unfold key_cmp; simpl; rewrite ?then_cmp_Eq_r.
  - by destruct b, b0.
  - by rewrite int_key_compare.
  - apply compare_int_f64_key, i64_is_wf.
  - rewrite compare_int_f64_key by apply i64_is_wf. by rewrite <-Z.compare_antisym.
  - apply f64_total_cmp_key; apply f64_is_wf.
Qed.

#[export] Instance compare_predicate_values_total : TotalCmp compare_predicate_values.
Proof.
  split; intros *; rewrite !compare_predicate_values_key.
  - apply cmp_refl.
  - apply cmp_opp.
  - apply cmp_eq_l.
  - apply cmp_lt_trans.
Qed.

(** Where [compare_values] returns, it is the predicate order. *)
Lemma compare_values_Some a b c :
  compare_values a b = Some c → compare_predicate_values a b = c.
Proof. destruct a, b; simpl; congruence. Qed.

Lemma bytes_cmp_eq x y : bytes_cmp x y = Eq ↔ x = y.
Proof.
  split; [apply lex_cmp_eq, byte_cmp_eq|]. intros ->. apply cmp_refl.
Qed.

Lemma is_eq_true c : is_eq c = true ↔ c = Eq.
Proof. by destruct c. Qed.

(** The same JS type, or one of the two below every present value: the pairs
    [compare_values] accepts. *)
Definition comparable (a b : value) : bool :=
  is_absent a || is_absent b || is_null a || is_null b ||
  (predicate_type_rank a =? predicate_type_rank b).

Lemma compare_values_comparable a b :
  compare_values a b = if comparable a b then Some (compare_predicate_values a b) else None.
Proof. by destruct a, b. Qed.

(** ** What the comparators guarantee *)

Lemma comparable_true a b :
  comparable a b = true ↔
  a = Absent ∨ b = Absent ∨ a = Null ∨ b = Null ∨ predicate_type_rank a = predicate_type_rank b.
Proof. destruct a, b; simpl; split; naive_solver. Qed.

(** [compare_values] is a total preorder on the values it accepts: it is
    reflexive, antisymmetric under reversal (panics included), transitive, and
    its ties are interchangeable. Mixed [Int]/[Float] triples are covered, so
    no two distinct integers collapse onto a float. *)
Theorem compare_values_total_order (a b c : value) :
  compare_values a a = Some Eq ∧
  compare_values b a = CompOpp <$> compare_values a b ∧
  (compare_values a b = Some Lt → compare_values b c = Some Lt →
   compare_values a c = Some Lt) ∧
  (compare_values a b = Some Eq → compare_values a c = compare_values b c).
Proof.
  split_and!.
  - rewrite compare_values_comparable.
    replace (comparable a a) with true by (symmetry; apply comparable_true; auto).
    by rewrite cmp_refl.
  - rewrite !compare_values_comparable, (cmp_opp a b).
    replace (comparable b a) with (comparable a b) by (destruct a, b; done).
    by destruct (comparable a b).
  - rewrite !compare_values_comparable.
    destruct (comparable a b) eqn:Hab; [|done].
    destruct (comparable b c) eqn:Hbc; [|done]. intros H1 H2.
    replace (comparable a c) with true; [f_equal; simplify_eq; by eapply cmp_lt_trans|].
    clear -H1 H2 Hab Hbc. destruct a, b, c; done.
  - rewrite !compare_values_comparable.
    destruct (comparable a b) eqn:Hab; [|done]. intros [= H].
    replace (comparable a c) with (comparable b c).
    { by rewrite (cmp_eq_l a b c). }
    clear -H Hab. destruct a, b; done.
Qed.

Lemma compare_values_total_order_witness :
  let a := Int (I64 9007199254740992 I) in
  let b := Float (F64 0x4340000000000000 I) in
  let c := Int (I64 9007199254740993 I) in
  compare_values a b = Some Eq ∧ compare_values b c = Some Lt ∧
  compare_values a c = compare_values b c.
Proof.
  split_and!; [done..|].
  apply (compare_values_total_order (Int (I64 9007199254740992 I))
           (Float (F64 0x4340000000000000 I)) (Int (I64 9007199254740993 I))).
  vm_compute. reflexivity.
Defined.

(** [compare_int_f64] compares exact mathematical values: outside the
    NaNs it is the order of [x] and [y] as real numbers (here as multiples of
    [2^-1074]), except that [0] is above [-0.0]; NaNs lie outside every
    integer, on the side of their sign. *)
Theorem compare_int_f64_exact (x : i64) (y : f64) :
  compare_int_f64 x y =
    if f64_is_nan y then (if f64_is_sign_negative y then Gt else Lt)
    else then_cmp (Z.compare (x * f64_unit) (f64_val y))
           (if (f64_val y =? 0) && f64_is_sign_negative y then Gt else Eq).
Proof.
  rewrite compare_int_f64_key by apply i64_is_wf.
  destruct (f64_is_nan y) eqn:Hn.
  - pose proof (f64_nan_key y Hn). pose proof (int_key_bound x (i64_is_wf x)).
    destruct (f64_is_sign_negative y); [apply Z.compare_gt_iff|apply Z.compare_lt_iff]; lia.
  - rewrite f64_val_key by done. unfold int_key.
    destruct (Z.compare_spec (x * f64_unit) (f64_val y)) as [->|?|?]; simpl.
    + case_match; [apply Z.compare_gt_iff|apply Z.compare_eq_iff]; lia.
    + apply Z.compare_lt_iff. case_match; lia.
    + apply Z.compare_gt_iff. case_match; lia.
Qed.

(** [float_int_class] finds the integer a float equals, when there is one:
    it returns [i] exactly when [i] is an [i64] that [compare_int_f64] ties
    with the float. *)
Theorem float_int_class_spec (f : f64) (i : Z) :
  float_int_class f = Some i ↔ i64_wf i ∧ compare_int_f64 i f = Eq.
Proof.
  pose proof f64_unit_pos as HU.
  assert (Hkey : i64_wf i → compare_int_f64 i f = Eq ↔ int_key i = f64_key f).
  { intros Hi. rewrite compare_int_f64_key by done. apply Z.compare_eq_iff. }
  unfold float_int_class. destruct (f64_is_finite f) eqn:Hfin; simpl.
  2:{ split; [done|]. intros [Hi Hc%Hkey]; [|done]. exfalso.
      pose proof (int_key_bound i Hi) as Hb. destruct (f64_is_nan f) eqn:Hn.
      - pose proof (f64_nan_key f Hn). destruct (f64_is_sign_negative f); lia.
      - assert (f64_mag f = 2 ^ 52 * 2 ^ 2046) as Hm.
        { unfold f64_is_finite, f64_is_nan in *. apply negb_false_iff, Z.eqb_eq in Hfin.
          rewrite Hfin in Hn. simpl in Hn. apply negb_false_iff, Z.eqb_eq in Hn.
          unfold f64_mag. rewrite Hfin, Hn. done. }
        rewrite f64_val_key in Hc by done. unfold f64_val in Hc. rewrite Hm in Hc.
        unfold f64_inf_key in Hb. repeat case_match; lia. }
  assert (f64_is_nan f = false) as Hn.
  { unfold f64_is_finite, f64_is_nan in *. apply negb_true_iff in Hfin. by rewrite Hfin. }
  assert (f64_is_nan f = false → i64_wf i → compare_int_f64 i f = Eq ↔
          i * f64_unit = f64_val f ∧ ¬ (f64_val f = 0 ∧ f64_is_sign_negative f = true)) as Hc.
  { intros _ Hi. rewrite Hkey, f64_val_key by done. unfold int_key.
    destruct (f64_is_sign_negative f); rewrite ?andb_true_r, ?andb_false_r;
      [destruct (Z.eqb_spec (f64_val f) 0)|]; intuition lia. }
  specialize (Hc Hn). unfold f64_trunc_val.
  destruct (Z.eqb_spec (f64_unit * (f64_val f `quot` f64_unit)) (f64_val f)) as [Ht|Ht]; simpl.
  2:{ split; [done|]. intros [Hi [E _]%Hc]; [|done]. destruct Ht. rewrite <-E.
      rewrite Z.quot_mul by lia. lia. }
  set (q := f64_val f `quot` f64_unit) in *.
  destruct (Z.eqb_spec (f64_val f) 0) as [E0|E0].
  { assert (q = 0) as -> by nia. destruct (f64_is_sign_negative f) eqn:Hs.
    - split; [done|]. intros [Hi [_ H]%Hc]; tauto.
    - split; [intros [= <-]|intros [Hi [E _]%Hc]; [|done]].
      + assert (i64_wf 0) by done. split; [done|]. apply Hc; [done|]. split; [lia|naive_solver].
      + f_equal. nia. }
  unfold f64_val_as_i64. fold q.
  destruct (Z.leb_spec (- two_pow_63) (f64_val f)), (Z.ltb_spec (f64_val f) two_pow_63); simpl.
  1: { pose proof (quot_in_range f64_unit (f64_val f) (2 ^ 63) HU eq_refl) as Hr.
       unfold two_pow_63 in *. fold q in Hr. specialize (Hr ltac:(lia)).
       replace (Z.max i64_min (Z.min i64_max q)) with q by (unfold i64_min, i64_max; lia).
       split; [intros [= <-]|intros [Hi [E _]%Hc]; [|done]].
       - assert (i64_wf q) by (unfold i64_wf, i64_min, i64_max; lia).
         split; [done|]. apply Hc; [done|]. split; [lia|naive_solver].
       - f_equal. nia. }
  all: split; [done|]; intros [Hi [E _]%Hc]; [|done]; exfalso;
    unfold i64_wf, i64_min, i64_max, two_pow_63 in *; nia.
Qed.

Lemma values_identical_eq a b : values_identical a b = is_eq (compare_predicate_values a b).
Proof.
  assert (∀ x y : list byte, bool_decide (x = y) = is_eq (bytes_cmp x y)) as Hb.
  { intros x y. case_bool_decide as Hxy; rewrite <-bytes_cmp_eq in Hxy; [by rewrite Hxy|].
    by destruct (bytes_cmp x y). }
  destruct a as [| |x|x|x|x|x], b as [| |y|y|y|y|y]; simpl; try done.
  - by destruct x, y.
  - destruct (Z.compare_spec x y), (Z.eqb_spec x y); done || lia.
  - by destruct (compare_int_f64 y x).
Qed.

(** Predicate identity is the tie relation of the total predicate order,
    on every pair of values: the order keyed by [compare_predicate_values]
    neither separates nor merges values the [=]/[IN] predicates see otherwise. *)
Theorem values_identical_iff (a b : value) :
  values_identical a b = true ↔ compare_predicate_values a b = Eq.
Proof. by rewrite values_identical_eq, is_eq_true. Qed.
