(* ===== verification/Rows.v ===== *)
(** * Rows ([rust/src/value.rs]): the flat row buffer and the row comparator

    [OwnedRow] stores all cells of a row in one byte buffer: a 4-byte count, a
    9-byte directory entry per cell, then the text of the string cells.  The
    file models the writer ([RowWriter]), the readers ([col], [cell_raw],
    [decode_cell]) and the sort comparator over the buffer, with every panic as
    [None].  The theorems show that a written buffer reads back the cells it was
    written from and that comparing buffers is comparing cells, so that the
    rest of the development uses the cells themselves as rows. *)

From stdpp Require Import base list numbers option.
From Stdlib Require Import ZArith Lia Strings.Byte.
From S2P Require Import Prelude Values.

(** ** Bytes and slices *)

Definition byte_Z (b : byte) : Z := Z.of_N (Byte.to_N b).

Definition byte_of_Z (z : Z) : byte :=
  default x00 (Byte.of_N (Z.to_N (z mod 256))).

(** [to_le_bytes] at [n] bytes, and [from_le_bytes]. *)
Fixpoint to_le_bytes (n : nat) (z : Z) : list byte :=
  match n with
  | O => []
  | S n' => byte_of_Z z :: to_le_bytes n' (z / 256)
  end.

Fixpoint from_le_bytes (l : list byte) : Z :=
  match l with
  | [] => 0
  | b :: l' => byte_Z b + 256 * from_le_bytes l'
  end.

(** [&s[at..at + len]]; [None] is the out-of-range panic. *)
Definition slice {A} (at_ len : nat) (l : list A) : option (list A) :=
  if decide (at_ + len ≤ length l)%nat then Some (take len (drop at_ l)) else None.

(** ** Owned rows *)

Record owned_row := OwnedRow { buf : list byte }.

Definition ROW_HDR : nat := 4.
Definition CELL_STRIDE : nat := 9.

Definition TAG_ABSENT : Z := 0.
Definition TAG_NULL : Z := 1.
Definition TAG_BOOL : Z := 2.
Definition TAG_INT : Z := 3.
Definition TAG_FLOAT : Z := 4.
Definition TAG_STR : Z := 5.
Definition TAG_JSON : Z := 6.

(** [OwnedRow::len]. *)
Definition row_len (r : owned_row) : option nat :=
  hdr ← slice 0 4 (buf r); Some (Z.to_nat (from_le_bytes hdr)).

(** [OwnedRow::cell_raw]: the tag and the 8 payload bytes of cell [c]. *)
Definition cell_raw (r : owned_row) (c : nat) : option (Z * list byte) :=
  n ← row_len r;
  if decide (n ≤ c)%nat then None
  else
    cell ← slice (ROW_HDR + c * CELL_STRIDE) CELL_STRIDE (buf r);
    match cell with
    | tag :: payload => Some (byte_Z tag, payload)
    | [] => None
    end.

(** [OwnedRow::decode_cell]; an unknown tag is the [unreachable!]. *)
Definition decode_cell (r : owned_row) (tag : Z) (payload : list byte) : option value :=
  if decide (tag = TAG_ABSENT) then Some Absent
  else if decide (tag = TAG_NULL) then Some Null
  else if decide (tag = TAG_BOOL) then
    b0 ← payload !! 0; Some (Bool (negb (Z.eqb (byte_Z b0) 0)))
  else if decide (tag = TAG_INT) then Some (Int (i64_of_Z (from_le_bytes payload)))
  else if decide (tag = TAG_FLOAT) then Some (Float (f64_of_bits (from_le_bytes payload)))
  else if decide (tag = TAG_STR ∨ tag = TAG_JSON) then
    off ← slice 0 4 payload;
    len ← slice 4 4 payload;
    bytes ← slice (Z.to_nat (from_le_bytes off)) (Z.to_nat (from_le_bytes len)) (buf r);
    if decide (tag = TAG_STR) then Some (Str bytes) else Some (Json bytes)
  else None.

(** [OwnedRow::col] panics out of range; [OwnedRow::get] answers [None]. *)
Definition col (r : owned_row) (c : nat) : option value :=
  '(tag, payload) ← cell_raw r c; decode_cell r tag payload.

Definition get (r : owned_row) (c : nat) : option (option value) :=
  n ← row_len r;
  if decide (c < n)%nat then v ← col r c; Some (Some v) else Some None.

(** [OwnedRow::cells]. *)
Definition cells (r : owned_row) : option (list value) :=
  n ← row_len r; mapM (col r) (seq 0 n).

(** ** The writer

    The buffer starts uninitialised ([None] bytes) and [finish] hands it out as
    initialised memory, which is undefined behaviour unless every byte was
    written: the model's [finish] returns [None] in that case. *)
Record row_writer := RowWriter {
  w_buf : list (option byte);
  w_cell : nat;
  w_n : nat;
  w_text_at : nat
}.

(** [RowWriter::write_at]. *)
Definition write_at (w : row_writer) (at_ : nat) (bytes : list byte) : option row_writer :=
  if decide (at_ + length bytes ≤ length (w_buf w))%nat then
    Some (RowWriter
            (take at_ (w_buf w) ++ (Some <$> bytes) ++ drop (at_ + length bytes) (w_buf w))
            (w_cell w) (w_n w) (w_text_at w))
  else None.

(** The header count is compared in [Z]: the layout bound is [u32::MAX]. *)
Definition row_writer_new (n text_bytes : nat) : option row_writer :=
  let dir_end := (ROW_HDR + n * CELL_STRIDE)%nat in
  let size := (dir_end + text_bytes)%nat in
  if decide ((Z.of_nat n < 2 ^ 32)%Z ∧ (Z.of_nat size < 2 ^ 32)%Z) then
    write_at (RowWriter (replicate size None) 0 n dir_end) 0 (to_le_bytes 4 (Z.of_nat n))
  else None.

(** [RowWriter::push]. *)
Definition row_writer_push (w : row_writer) (v : value) : option row_writer :=
  let base := (ROW_HDR + w_cell w * CELL_STRIDE)%nat in
  let w := RowWriter (w_buf w) (S (w_cell w)) (w_n w) (w_text_at w) in
  '(w, tag, payload) ←
    match v with
    | Absent => Some (w, TAG_ABSENT, replicate 8 x00)
    | Null => Some (w, TAG_NULL, replicate 8 x00)
    | Bool b => Some (w, TAG_BOOL, (if b then x01 else x00) :: replicate 7 x00)
    | Int i => Some (w, TAG_INT, to_le_bytes 8 i)
    | Float f => Some (w, TAG_FLOAT, to_le_bytes 8 f)
    | Str b | Json b =>
        let off := to_le_bytes 4 (Z.of_nat (w_text_at w)) in
        let len := to_le_bytes 4 (Z.of_nat (length b)) in
        w ← write_at w (w_text_at w) b;
        let w := RowWriter (w_buf w) (w_cell w) (w_n w) (w_text_at w + length b) in
        Some (w, (match v with Str _ => TAG_STR | _ => TAG_JSON end), off ++ len)
    end;
  w ← write_at w base [byte_of_Z tag];
  write_at w (base + 1) payload.

(** [RowWriter::finish]: both asserts, then [assume_init]. *)
Definition row_writer_finish (w : row_writer) : option owned_row :=
  if decide (w_cell w = w_n w ∧ w_text_at w = length (w_buf w)) then
    OwnedRow <$> mapM id (w_buf w)
  else None.

Fixpoint push_all (w : row_writer) (vs : list value) : option row_writer :=
  match vs with
  | [] => Some w
  | v :: vs' => w ← row_writer_push w v; push_all w vs'
  end.

Definition text_len (v : value) : nat :=
  match v with Str s | Json s => length s | _ => 0 end.

(** [OwnedRow::from_owned_cells] (and [owned_row]). *)
Definition from_owned_cells (vs : list value) : option owned_row :=
  w ← row_writer_new (length vs) (sum_list_with text_len vs);
  w ← push_all w vs;
  row_writer_finish w.

(** [std::str::from_utf8]: the well-formed byte sequences of Unicode
    (table 3-7), no surrogates and no overlong forms. *)
Fixpoint from_utf8 (l : list byte) : bool :=
  let between (lo hi z : Z) := ((lo <=? z)%Z && (z <=? hi)%Z)%bool in
  let cont (lo hi : Z) (b : byte) := between lo hi (byte_Z b) in
  match l with
  | [] => true
  | b0 :: l1 =>
      let z := byte_Z b0 in
      if (z <=? 0x7F)%Z then from_utf8 l1
      else if between 0xC2%Z 0xDF%Z z then
        match l1 with
        | b1 :: l2 => cont 0x80%Z 0xBF%Z b1 && from_utf8 l2
        | _ => false
        end
      else if between 0xE0%Z 0xEF%Z z then
        match l1 with
        | b1 :: b2 :: l3 =>
            cont (if (z =? 0xE0)%Z then 0xA0%Z else 0x80%Z)
                 (if (z =? 0xED)%Z then 0x9F%Z else 0xBF%Z) b1
            && cont 0x80%Z 0xBF%Z b2 && from_utf8 l3
        | _ => false
        end
      else if between 0xF0%Z 0xF4%Z z then
        match l1 with
        | b1 :: b2 :: b3 :: l4 =>
            cont (if (z =? 0xF0)%Z then 0x90%Z else 0x80%Z)
                 (if (z =? 0xF4)%Z then 0x8F%Z else 0xBF%Z) b1
            && cont 0x80%Z 0xBF%Z b2 && cont 0x80%Z 0xBF%Z b3 && from_utf8 l4
        | _ => false
        end
      else false
  end.

(** [RindleError::InvalidUtf8]'s [value_type]. *)
Inductive utf8_error := InvalidText | InvalidJson.

(** Pass 1 of [OwnedRow::try_from_row_ref]: validate and size. *)
Fixpoint validate_cells (vs : list value) (text : nat) : utf8_error + nat :=
  match vs with
  | [] => inr text
  | Str b :: vs' =>
      if from_utf8 b then validate_cells vs' (text + length b) else inl InvalidText
  | Json b :: vs' =>
      if from_utf8 b then validate_cells vs' (text + length b) else inl InvalidJson
  | _ :: vs' => validate_cells vs' text
  end.

(** [OwnedRow::try_from_row_ref] on a borrowed row, given by its cells. *)
Definition try_from_row_ref (vs : list value) : option (utf8_error + owned_row) :=
  match validate_cells vs 0 with
  | inl e => Some (inl e)
  | inr text =>
      w ← row_writer_new (length vs) text;
      w ← push_all w vs;
      r ← row_writer_finish w;
      Some (inr r)
  end.

(** ** Comparing rows *)

(** [Sort]: columns with their direction ([true] is ascending). *)
Abbreviation Sort := (list (nat * bool)).

Definition apply_dir (c : comparison) (asc : bool) : comparison :=
  if asc then c else CompOpp c.

(** [compare_cell]: raw fast paths, then the full comparator. *)
Definition compare_cell (a b : owned_row) (c : nat) : option comparison :=
  '(ta, pa) ← cell_raw a c;
  '(tb, pb) ← cell_raw b c;
  if decide (ta = tb ∧ ta = TAG_INT) then
    Some (Z.compare (i64_of_Z (from_le_bytes pa)) (i64_of_Z (from_le_bytes pb)))
  else if decide (ta = tb ∧ ta = TAG_FLOAT) then
    Some (f64_total_cmp (f64_of_bits (from_le_bytes pa)) (f64_of_bits (from_le_bytes pb)))
  else
    va ← decode_cell a ta pa;
    vb ← decode_cell b tb pb;
    compare_values va vb.

Fixpoint compare_rows_loop (sort : Sort) (a b : owned_row) : option comparison :=
  match sort with
  | [] => Some Eq
  | (c, asc) :: sort' =>
      r ← compare_cell a b c;
      let d := apply_dir r asc in
      if decide (d = Eq) then compare_rows_loop sort' a b else Some d
  end.

(** [compare_rows], with its unrolled one- and two-column cases. *)
Definition compare_rows (sort : Sort) (a b : owned_row) : option comparison :=
  match sort with
  | [] => Some Eq
  | [(c0, asc0)] => r ← compare_cell a b c0; Some (apply_dir r asc0)
  | [(c0, asc0); (c1, asc1)] =>
      r0 ← compare_cell a b c0;
      let r := apply_dir r0 asc0 in
      if decide (r = Eq) then
        r1 ← compare_cell a b c1; Some (apply_dir r1 asc1)
      else Some r
  | _ => compare_rows_loop sort a b
  end.

(** ** Bytes: lemmas *)

Section bytes.
#[local] Open Scope Z_scope.

Lemma byte_Z_bound b : 0 ≤ byte_Z b < 256.
Proof.
  unfold byte_Z. pose proof (Byte.to_N_bounded b) as H. lia.
Qed.

Lemma byte_Z_of_Z z : byte_Z (byte_of_Z z) = z mod 256.
Proof.
  unfold byte_of_Z, byte_Z. pose proof (Z.mod_pos_bound z 256 ltac:(lia)).
  destruct (Byte.of_N (Z.to_N (z mod 256))) as [b|] eqn:E; simpl.
  - apply Byte.to_of_N in E. rewrite E. lia.
  - apply Byte.of_N_None_iff in E. lia.
Qed.

Lemma length_to_le_bytes n z : length (to_le_bytes n z) = n.
Proof. revert z. induction n as [|n IH]; intros z; simpl; auto. Qed.

Lemma from_to_le_bytes n z :
  from_le_bytes (to_le_bytes n z) = z mod 256 ^ Z.of_nat n.
Proof.
  revert z. induction n as [|n IH]; intros z.
  - by rewrite Z.mod_1_r.
  - cbn [to_le_bytes from_le_bytes]. rewrite IH, byte_Z_of_Z, Nat2Z.inj_succ, Z.pow_succ_r by lia.
    rewrite Z.rem_mul_r by lia. lia.
Qed.

Lemma i64_le_roundtrip (x : i64) : i64_of_Z (from_le_bytes (to_le_bytes 8 x)) = x.
Proof.
  rewrite from_to_le_bytes. rewrite <-(i64_of_Z_Z x) at 2.
  apply i64_eq. unfold i64_of_Z.
  replace (i64_wrap (x mod 256 ^ Z.of_nat 8)) with (i64_wrap x); [done|].
  unfold i64_wrap. change (256 ^ Z.of_nat 8) with (2 ^ 64). f_equal.
  by rewrite Zplus_mod_idemp_l.
Qed.

Lemma f64_le_roundtrip (x : f64) : f64_of_bits (from_le_bytes (to_le_bytes 8 x)) = x.
Proof.
  rewrite from_to_le_bytes. pose proof (f64_is_wf x) as Hx. unfold f64_wf in Hx.
  change (256 ^ Z.of_nat 8) with (2 ^ 64). rewrite Z.mod_small by lia.
  apply f64_of_bits_bits.
Qed.

Lemma u32_le_roundtrip (n : nat) :
  Z.of_nat n < 2 ^ 32 → Z.to_nat (from_le_bytes (to_le_bytes 4 (Z.of_nat n))) = n.
Proof.
  intros. rewrite from_to_le_bytes. change (256 ^ Z.of_nat 4) with (2 ^ 32).
  rewrite Z.mod_small by lia. lia.
Qed.
End bytes.

Arguments to_le_bytes : simpl never.
Arguments from_le_bytes : simpl never.

Lemma slice_app {A} (l1 l2 l3 : list A) n m :
  n = length l1 → m = length l2 → slice n m (l1 ++ l2 ++ l3) = Some l2.
Proof.
  intros -> ->. unfold slice. rewrite decide_True by (rewrite !length_app; lia).
  by rewrite drop_app_length, take_app_length.
Qed.

Lemma slice_prefix {A} (l2 l3 : list A) m : m = length l2 → slice 0 m (l2 ++ l3) = Some l2.
Proof. by apply (slice_app []). Qed.

(** A slice taken inside a known prefix or past it. *)
Lemma slice_shift {A} (l1 l2 : list A) n m :
  slice (length l1 + n) m (l1 ++ l2) = slice n m l2.
Proof.
  unfold slice. rewrite length_app.
  destruct (decide (n + m ≤ length l2)%nat).
  - rewrite decide_True by lia. by rewrite drop_app_add.
  - by rewrite decide_False by lia.
Qed.

(** ** The layout of a written row *)

Definition cell_entry (text_at : nat) (v : value) : list byte :=
  match v with
  | Absent => byte_of_Z TAG_ABSENT :: replicate 8 x00
  | Null => byte_of_Z TAG_NULL :: replicate 8 x00
  | Bool b => byte_of_Z TAG_BOOL :: (if b then x01 else x00) :: replicate 7 x00
  | Int i => byte_of_Z TAG_INT :: to_le_bytes 8 i
  | Float f => byte_of_Z TAG_FLOAT :: to_le_bytes 8 f
  | Str s => byte_of_Z TAG_STR :: to_le_bytes 4 (Z.of_nat text_at) ++ to_le_bytes 4 (Z.of_nat (length s))
  | Json s => byte_of_Z TAG_JSON :: to_le_bytes 4 (Z.of_nat text_at) ++ to_le_bytes 4 (Z.of_nat (length s))
  end.

Fixpoint row_dir (text_at : nat) (vs : list value) : list byte :=
  match vs with
  | [] => []
  | v :: vs' => cell_entry text_at v ++ row_dir (text_at + text_len v) vs'
  end.

Definition row_text (vs : list value) : list byte := vs ≫= value_text.

Definition row_layout (vs : list value) : list byte :=
  to_le_bytes 4 (Z.of_nat (length vs))
  ++ row_dir (ROW_HDR + length vs * CELL_STRIDE) vs ++ row_text vs.

Definition row_size (vs : list value) : nat :=
  ROW_HDR + length vs * CELL_STRIDE + sum_list_with text_len vs.

(** The row fits the [u32] layout bounds asserted by [RowWriter::new]. *)
Definition row_fits (vs : list value) : Prop := (Z.of_nat (row_size vs) < 2 ^ 32)%Z.

Lemma length_cell_entry n v : length (cell_entry n v) = 9.
Proof.
  destruct v; cbn [cell_entry length];
    rewrite ?length_app, ?length_to_le_bytes, ?length_replicate; done.
Qed.

Lemma length_value_text v : length (value_text v) = text_len v.
Proof. by destruct v. Qed.

Lemma length_row_dir n vs : length (row_dir n vs) = length vs * 9.
Proof.
  revert n. induction vs as [|v vs IH]; intros n; simpl; [done|].
  rewrite length_app, length_cell_entry, IH. lia.
Qed.

Lemma row_text_cons v vs : row_text (v :: vs) = value_text v ++ row_text vs.
Proof. done. Qed.

Lemma length_row_text vs : length (row_text vs) = sum_list_with text_len vs.
Proof.
  induction vs as [|v vs IH]; [done|]. rewrite row_text_cons. simpl.
  by rewrite length_app, length_value_text, IH.
Qed.

Section writer.
Implicit Types A B C : list (option byte).

Lemma write_at_mid A B C c n t (bs : list byte) at_ :
  at_ = length A → length B = length bs →
  write_at (RowWriter (A ++ B ++ C) c n t) at_ bs
  = Some (RowWriter (A ++ (Some <$> bs) ++ C) c n t).
Proof.
  intros -> HB. unfold write_at; cbn [w_buf w_cell w_n w_text_at].
  rewrite decide_True by (rewrite !length_app; lia).
  rewrite take_app_length. do 4 f_equal.
  rewrite drop_app_add. by rewrite <-HB, drop_app_length.
Qed.

Definition w_state (D T : list byte) (rest : list value) (k n : nat) (text_at : nat) :=
  RowWriter ((Some <$> D) ++ replicate (length rest * 9) None
             ++ (Some <$> T) ++ replicate (sum_list_with text_len rest) None)
    k n text_at.

Lemma push_text D T v rest k n b :
  text_len v = length b → length D = 4 + k * 9 → k + S (length rest) = n →
  write_at (RowWriter ((Some <$> D) ++ replicate (S (length rest) * 9) None
             ++ (Some <$> T) ++ replicate (text_len v + sum_list_with text_len rest) None)
             (S k) n (4 + n * 9 + length T)) (4 + n * 9 + length T) b
  = Some (RowWriter ((Some <$> D) ++ replicate (S (length rest) * 9) None
             ++ (Some <$> T ++ b) ++ replicate (sum_list_with text_len rest) None)
             (S k) n (4 + n * 9 + length T)).
Proof.
  intros Hv HD Hk. rewrite replicate_add.
  replace ((Some <$> D) ++ replicate (S (length rest) * 9) None ++ (Some <$> T) ++
           replicate (text_len v) None ++ replicate (sum_list_with text_len rest) None)
    with (((Some <$> D) ++ replicate (S (length rest) * 9) None ++ (Some <$> T)) ++
           replicate (text_len v) None ++ replicate (sum_list_with text_len rest) None)
    by by rewrite <-!(assoc_L (++)).
  rewrite write_at_mid.
  - f_equal. f_equal. by rewrite fmap_app, <-!(assoc_L (++)).
  - rewrite !length_app, !length_fmap, length_replicate. lia.
  - by rewrite length_replicate.
Qed.

(** The directory entry: the tag, then the payload. *)
Lemma push_entry D X (rest : list value) k n t tag payload :
  length D = 4 + k * 9 → length payload = 8 →
  (w ← write_at (RowWriter ((Some <$> D) ++ replicate (S (length rest) * 9) None ++ X) (S k) n t)
         (4 + k * 9) [byte_of_Z tag];
   write_at w (4 + k * 9 + 1) payload)
  = Some (RowWriter ((Some <$> D ++ byte_of_Z tag :: payload)
            ++ replicate (length rest * 9) None ++ X) (S k) n t).
Proof.
  intros HD Hp.
  replace (S (length rest) * 9) with (1 + (8 + length rest * 9)) by lia.
  rewrite replicate_add, <-!(assoc_L (++)).
  rewrite write_at_mid by (rewrite ?length_fmap; done). cbn [mbind option_bind].
  rewrite replicate_add, <-!(assoc_L (++)).
  rewrite (assoc_L (++) (Some <$> D)).
  rewrite write_at_mid.
  - f_equal. f_equal. by rewrite fmap_app, fmap_cons, <-!(assoc_L (++)).
  - rewrite length_app, !length_fmap. simpl. lia.
  - by rewrite length_replicate.
Qed.

Lemma row_writer_push_state D T v rest k n :
  length D = 4 + k * 9 → k + S (length rest) = n →
  row_writer_push (w_state D T (v :: rest) k n (4 + n * 9 + length T)) v
  = Some (w_state (D ++ cell_entry (4 + n * 9 + length T) v) (T ++ value_text v) rest (S k) n
            (4 + n * 9 + length (T ++ value_text v))).
Proof.
  intros HD Hk. unfold row_writer_push, w_state; cbn [w_buf w_cell w_n w_text_at].
  change (ROW_HDR + k * CELL_STRIDE) with (4 + k * 9).
  rewrite length_app, length_value_text.
  destruct v; cbn [mbind option_bind length sum_list_with text_len value_text cell_entry];
    rewrite ?Nat.add_0_r, ?Nat.add_0_l, ?app_nil_r;
    rewrite ?(push_text D T (Str s)), ?(push_text D T (Json s)) by done;
    cbn [mbind option_bind w_buf w_cell w_n w_text_at];
    rewrite push_entry by
      (rewrite ?length_app, ?length_to_le_bytes; cbn [length]; rewrite ?length_replicate; done);
    rewrite ?Nat.add_assoc; done.
Qed.

Lemma push_all_state D T vs k n :
  length D = 4 + k * 9 → k + length vs = n →
  push_all (w_state D T vs k n (4 + n * 9 + length T)) vs
  = Some (w_state (D ++ row_dir (4 + n * 9 + length T) vs) (T ++ row_text vs) [] n n
            (4 + n * 9 + length (T ++ row_text vs))).
Proof.
  revert D T k. induction vs as [|v vs IH]; intros D T k HD Hk; cbn [push_all].
  - simpl in Hk. rewrite Nat.add_0_r in Hk. subst k. cbn [row_dir].
    change (row_text []) with (@nil byte). by rewrite !app_nil_r.
  - simpl in Hk. rewrite row_writer_push_state by lia. cbn [mbind option_bind].
    rewrite IH.
    + cbn [row_dir]. rewrite row_text_cons, !(assoc_L (++)).
      replace (4 + n * 9 + length (T ++ value_text v))
        with (4 + n * 9 + length T + text_len v); [done|].
      rewrite length_app, length_value_text. lia.
    + rewrite length_app, length_cell_entry. lia.
    + lia.
Qed.
End writer.

Lemma mapM_id_Some {A} (l : list A) : mapM id (Some <$> l) = Some l.
Proof. apply mapM_Some. induction l; constructor; done. Qed.

(** The writer produces the layout, and only when it fits. *)
Lemma from_owned_cells_layout vs :
  from_owned_cells vs = if decide (row_fits vs) then Some (OwnedRow (row_layout vs)) else None.
Proof.
  unfold from_owned_cells, row_writer_new.
  destruct (decide (row_fits vs)) as [Hf|Hf]; unfold row_fits, row_size in Hf.
  - rewrite decide_True by (unfold ROW_HDR, CELL_STRIDE in *; split; lia).
    set (rest := row_size vs - 4).
    assert (ROW_HDR + length vs * CELL_STRIDE + sum_list_with text_len vs = 4 + rest) as Hs.
    { unfold rest, row_size, ROW_HDR. lia. }
    rewrite Hs, replicate_add.
    pose proof (write_at_mid [] (replicate 4 None) (replicate rest None) 0 (length vs)
      (ROW_HDR + length vs * CELL_STRIDE) (to_le_bytes 4 (Z.of_nat (length vs))) 0 eq_refl
      ltac:(by rewrite length_to_le_bytes)) as Hw.
    cbn [app] in Hw. rewrite Hw. clear Hw. cbn [mbind option_bind].
    replace (replicate rest None) with
      (replicate (length vs * 9) None ++ (Some <$> []) ++
       replicate (sum_list_with text_len vs) (@None byte)).
    2:{ simpl. rewrite <-replicate_add. f_equal. unfold ROW_HDR, CELL_STRIDE in *. lia. }
    pose proof (push_all_state (to_le_bytes 4 (Z.of_nat (length vs))) [] vs 0 (length vs)
      ltac:(by rewrite length_to_le_bytes) eq_refl) as Hp.
    unfold w_state in Hp. simpl (length []) in Hp. rewrite !Nat.add_0_r in Hp.
    change (ROW_HDR + length vs * CELL_STRIDE) with (4 + length vs * 9).
    rewrite Hp. cbn [mbind option_bind].
    unfold row_writer_finish; cbn [w_buf w_cell w_n w_text_at length sum_list_with].
    rewrite decide_True.
    + simpl. rewrite app_nil_r, <-fmap_app, mapM_id_Some. simpl. unfold row_layout.
      done.
    + split; [done|].
      rewrite !length_app, !length_replicate, !length_fmap, !length_app.
      rewrite length_to_le_bytes, length_row_dir. cbn [length]. lia.
  - rewrite decide_False; [done|]. intros [_ H]. by apply Hf.
Qed.

(** ** Reading a written row *)

Section reading.
Context (vs : list value) (Hfit : row_fits vs).

Lemma fits_bound : (Z.of_nat (length vs) < 2 ^ 32)%Z ∧
  (Z.of_nat (4 + length vs * 9 + sum_list_with text_len vs) < 2 ^ 32)%Z.
Proof using Hfit. unfold row_fits, row_size, ROW_HDR, CELL_STRIDE in Hfit. lia. Qed.

Lemma row_len_layout : row_len (OwnedRow (row_layout vs)) = Some (length vs).
Proof using Hfit.
  unfold row_len, row_layout. cbn [buf].
  rewrite slice_prefix by by rewrite length_to_le_bytes.
  simpl. rewrite u32_le_roundtrip by apply fits_bound. done.
Qed.

Lemma sum_text_take (c : nat) (l : list value) v :
  l !! c = Some v →
  sum_list_with text_len (take c l) + text_len v ≤ sum_list_with text_len l.
Proof.
  intros H. rewrite <-(take_drop_middle l c v H) at 2.
  rewrite sum_list_with_app. simpl. lia.
Qed.

Lemma row_dir_app n l1 l2 :
  row_dir n (l1 ++ l2) = row_dir n l1 ++ row_dir (n + sum_list_with text_len l1) l2.
Proof.
  revert n. induction l1 as [|v l1 IH]; intros n; simpl; [by rewrite Nat.add_0_r|].
  by rewrite IH, (assoc_L (++)), Nat.add_assoc.
Qed.

Lemma cell_raw_layout c v :
  vs !! c = Some v →
  cell_raw (OwnedRow (row_layout vs)) c =
    match cell_entry (4 + length vs * 9 + sum_list_with text_len (take c vs)) v with
    | tag :: payload => Some (byte_Z tag, payload)
    | [] => None
    end.
Proof using Hfit.
  intros Hc. unfold cell_raw. rewrite row_len_layout. cbn [mbind option_bind].
  pose proof (lookup_lt_Some _ _ _ Hc) as Hlt. rewrite decide_False by lia.
  unfold row_layout. cbn [buf].
  replace ROW_HDR with (length (to_le_bytes 4 (Z.of_nat (length vs)))) at 1
    by apply length_to_le_bytes.
  rewrite slice_shift. rewrite <-(take_drop_middle vs c v Hc) at 2.
  change (v :: drop (S c) vs) with ([v] ++ drop (S c) vs).
  rewrite !row_dir_app. rewrite <-!(assoc_L (++)). cbn [row_dir]. rewrite app_nil_r.
  rewrite slice_app.
  - cbn [mbind option_bind]. done.
  - rewrite length_row_dir, length_take. unfold CELL_STRIDE. lia.
  - by rewrite length_cell_entry.
Qed.

Lemma row_text_slice c v :
  vs !! c = Some v →
  slice (4 + length vs * 9 + sum_list_with text_len (take c vs)) (text_len v) (row_layout vs)
  = Some (value_text v).
Proof.
  intros Hc. unfold row_layout.
  replace (row_text vs)
    with (row_text (take c vs) ++ value_text v ++ row_text (drop (S c) vs)).
  2:{ rewrite <-(take_drop_middle vs c v Hc) at 3. unfold row_text. by rewrite bind_app. }
  rewrite (assoc_L (++) (to_le_bytes _ _)), (assoc_L (++) (_ ++ _)). apply slice_app.
  - rewrite !length_app, length_to_le_bytes, length_row_dir. by rewrite length_row_text.
  - by rewrite length_value_text.
Qed.

Lemma col_layout c : col (OwnedRow (row_layout vs)) c = vs !! c.
Proof using Hfit.
  unfold col. destruct (vs !! c) as [v|] eqn:Hc.
  2:{ unfold cell_raw. rewrite row_len_layout. cbn [mbind option_bind].
      apply lookup_ge_None in Hc. by rewrite decide_True by lia. }
  rewrite (cell_raw_layout c v Hc).
  pose proof (row_text_slice c v Hc) as Ht. pose proof (sum_text_take c vs v Hc) as Hs.
  pose proof fits_bound as [_ Hb].
  destruct v; cbn [cell_entry mbind option_bind]; rewrite byte_Z_of_Z;
    unfold decode_cell; simpl decide; cbn match; try done.
  - by destruct b.
  - by rewrite i64_le_roundtrip.
  - by rewrite f64_le_roundtrip.
  - rewrite slice_prefix by by rewrite length_to_le_bytes.
    cbn [mbind option_bind].
    rewrite <-(app_nil_r (to_le_bytes 4 (Z.of_nat (length s)))).
    rewrite slice_app by (rewrite ?length_to_le_bytes; done). cbn [mbind option_bind].
    cbn [text_len value_text] in Hs, Ht.
    rewrite !u32_le_roundtrip by lia. cbn [buf]. by rewrite Ht.
  - rewrite slice_prefix by by rewrite length_to_le_bytes.
    cbn [mbind option_bind].
    rewrite <-(app_nil_r (to_le_bytes 4 (Z.of_nat (length s)))).
    rewrite slice_app by (rewrite ?length_to_le_bytes; done). cbn [mbind option_bind].
    cbn [text_len value_text] in Hs, Ht.
    rewrite !u32_le_roundtrip by lia. cbn [buf]. by rewrite Ht.
Qed.
End reading.

(** ** What rows guarantee *)

(** [C8] A row written from cells that fit the layout reads back exactly those
    cells: [from_owned_cells] succeeds (in particular every byte it hands out
    was initialised), [len] is the number of cells, [col] and [get] return
    the cell at an index and panic or answer [None] past the end, [cells]
    lists them. A row that does not fit is refused by the writer's assert. *)
Theorem row_roundtrip (vs : list value) :
  if decide (row_fits vs) then
    ∃ r, from_owned_cells vs = Some r ∧ row_len r = Some (length vs) ∧
         (∀ c, col r c = vs !! c) ∧ (∀ c, get r c = Some (vs !! c)) ∧
         cells r = Some vs
  else from_owned_cells vs = None.
Proof.
  rewrite from_owned_cells_layout. destruct (decide (row_fits vs)) as [Hf|]; [|done].
  exists (OwnedRow (row_layout vs)). split_and!; [done|by apply row_len_layout|..].
  - intros c. by apply col_layout.
  - intros c. unfold get. rewrite row_len_layout by done. cbn [mbind option_bind].
    rewrite col_layout by done. case_decide as Hc.
    + apply lookup_lt_is_Some in Hc as [v ->]. done.
    + by rewrite (lookup_ge_None_2 vs c) by lia.
  - unfold cells. rewrite row_len_layout by done. cbn [mbind option_bind].
    apply mapM_Some. apply Forall2_same_length_lookup. split; [by rewrite length_seq|].
    intros i c v Hc Hv. apply lookup_seq in Hc as [-> _]. by rewrite col_layout.
Qed.

(** The comparator over cells: what [compare_rows] means once rows are read. *)
Fixpoint row_compare (sort : Sort) (a b : list value) : option comparison :=
  match sort with
  | [] => Some Eq
  | (c, asc) :: sort' =>
      va ← a !! c; vb ← b !! c; r ← compare_values va vb;
      let d := apply_dir r asc in
      if decide (d = Eq) then row_compare sort' a b else Some d
  end.

Lemma compare_rows_unrolled sort a b : compare_rows sort a b = compare_rows_loop sort a b.
Proof.
  destruct sort as [|[c0 a0] [|[c1 a1] [|[c2 a2] sort]]]; try done; simpl.
  - destruct (compare_cell a b c0); simpl; [|done]. case_decide; congruence.
  - destruct (compare_cell a b c0); simpl; [|done]. case_decide; [|done].
    destruct (compare_cell a b c1); simpl; [|done]. case_decide; congruence.
Qed.

Lemma compare_cell_layout va vb c :
  row_fits va → row_fits vb →
  compare_cell (OwnedRow (row_layout va)) (OwnedRow (row_layout vb)) c =
    (x ← va !! c; y ← vb !! c; compare_values x y).
Proof.
  intros Ha Hb. unfold compare_cell.
  pose proof (col_layout va Ha c) as Ca. pose proof (col_layout vb Hb c) as Cb.
  unfold col in Ca, Cb.
  destruct (va !! c) as [x|] eqn:Ea; destruct (cell_raw (OwnedRow (row_layout va)) c)
    as [[ta pa]|] eqn:Ra; cbn [mbind option_bind] in Ca |- *; try done.
  2:{ unfold cell_raw in Ra. rewrite row_len_layout in Ra by done.
      cbn [mbind option_bind] in Ra. apply lookup_ge_None in Ea.
      by rewrite decide_True in Ra by lia. }
  destruct (vb !! c) as [y|] eqn:Eb; destruct (cell_raw (OwnedRow (row_layout vb)) c)
    as [[tb pb]|] eqn:Rb; cbn [mbind option_bind] in Cb |- *; try done.
  2:{ unfold cell_raw in Rb. rewrite row_len_layout in Rb by done.
      cbn [mbind option_bind] in Rb. apply lookup_ge_None in Eb.
      by rewrite decide_True in Rb by lia. }
  unfold decode_cell in *.
  destruct (decide (ta = tb ∧ ta = TAG_INT)) as [[<- ->]|Hni].
  { simpl in Ca, Cb. simplify_eq/=. done. }
  destruct (decide (ta = tb ∧ ta = TAG_FLOAT)) as [[<- ->]|Hnf].
  { simpl in Ca, Cb. simplify_eq/=. done. }
  rewrite Ca, Cb. done.
Qed.

(** [C9] Comparing two written rows, with the raw-cell fast paths and the
    unrolled one- and two-column cases, is comparing their cells column by
    column; it panics exactly when the cell comparison does (a column out of
    range, or two values of different types). *)
Theorem compare_rows_cells (sort : Sort) (va vb : list value) (ra rb : owned_row) :
  from_owned_cells va = Some ra → from_owned_cells vb = Some rb →
  compare_rows sort ra rb = row_compare sort va vb.
Proof.
  rewrite !from_owned_cells_layout. intros Ha Hb. do 2 case_decide; simplify_eq.
  rewrite compare_rows_unrolled.
  induction sort as [|[c asc] sort IH]; [done|]. cbn [compare_rows_loop row_compare].
  rewrite compare_cell_layout by done.
  destruct (va !! c); [|done]. destruct (vb !! c); [|done]. cbn [mbind option_bind].
  destruct (compare_values _ _); [|done]. cbn [mbind option_bind]. by rewrite IH.
Qed.

Lemma compare_rows_cells_witness :
  let va := [Int (I64 1 I); Str [x61]] in
  let vb := [Float (F64 0x3FF0000000000000 I); Str [x62]] in
  ∃ ra rb, from_owned_cells va = Some ra ∧ from_owned_cells vb = Some rb ∧
    compare_rows [(0, true); (1, false)] ra rb = row_compare [(0, true); (1, false)] va vb ∧
    row_compare [(0, true); (1, false)] va vb = Some Gt.
Proof.
  set (va := [Int (I64 1 I); Str [x61]]).
  set (vb := [Float (F64 0x3FF0000000000000 I); Str [x62]]).
  destruct (from_owned_cells va) as [ra|] eqn:Ea; [|vm_compute in Ea; discriminate Ea].
  destruct (from_owned_cells vb) as [rb|] eqn:Eb; [|vm_compute in Eb; discriminate Eb].
  exists ra, rb. split; [done|]. split; [done|]. split.
  - apply (compare_rows_cells [(0, true); (1, false)] va vb ra rb Ea Eb).
  - vm_compute. reflexivity.
Defined.

(** The error the validation pass raises for one cell. *)
Definition cell_utf8_error (v : value) : option utf8_error :=
  match v with
  | Str b => if from_utf8 b then None else Some InvalidText
  | Json b => if from_utf8 b then None else Some InvalidJson
  | _ => None
  end.

(** The first one in a row. *)
Fixpoint first_utf8_error (vs : list value) : option utf8_error :=
  match vs with
  | [] => None
  | v :: vs' =>
      match cell_utf8_error v with
      | Some e => Some e
      | None => first_utf8_error vs'
      end
  end.

Lemma validate_cells_spec vs n :
  validate_cells vs n =
    match first_utf8_error vs with
    | Some e => inl e
    | None => inr (n + sum_list_with text_len vs)
    end.
Proof.
  revert n. induction vs as [|v vs IH]; intros n; simpl; [by rewrite Nat.add_0_r|].
  destruct v; simpl; rewrite ?IH; try done.
  all: destruct (from_utf8 s); [|done]; destruct (first_utf8_error vs); [done|]; f_equal; lia.
Qed.

(** Materialising a borrowed row reports the first cell whose text is not
    UTF-8, with the type of that cell, before anything is written; a row with
    valid text becomes exactly the row [from_owned_cells] builds. *)
Theorem try_from_row_ref_spec (vs : list value) :
  try_from_row_ref vs =
    match first_utf8_error vs with
    | Some e => Some (inl e)
    | None => inr <$> from_owned_cells vs
    end.
Proof.
  unfold try_from_row_ref, from_owned_cells. rewrite validate_cells_spec.
  destruct (first_utf8_error vs); [done|]. rewrite Nat.add_0_l.
  destruct (row_writer_new _ _) as [w|]; [|done]. cbn [mbind option_bind].
  destruct (push_all w vs) as [w'|]; [|done]. cbn [mbind option_bind].
  by destruct (row_writer_finish w').
Qed.

(** ** Rows as their cells

    From here on a row is the list of its cells.  [row_cmp] extends
    [row_compare] to a total comparator, in which a comparison that would panic
    is decided by the predicate order: the ordered structures are verified
    against [row_cmp], and [row_typed_compare] shows that on rows of one schema
    the comparator of the source does not panic and agrees with it. *)

Abbreviation row := (list value).

Definition cell (r : row) (c : nat) : value := default Absent (r !! c).

Fixpoint row_cmp (sort : Sort) (a b : row) : comparison :=
  match sort with
  | [] => Eq
  | (c, asc) :: sort' =>
      then_cmp (apply_dir (compare_predicate_values (cell a c) (cell b c)) asc)
        (row_cmp sort' a b)
  end.

Lemma apply_dir_total {A} (cmp : A → A → comparison) `{!TotalCmp cmp} asc :
  TotalCmp (λ x y, apply_dir (cmp x y) asc).
Proof. destruct asc; simpl; [done|]. by apply flip_total. Qed.

#[export] Instance row_cmp_total sort : TotalCmp (row_cmp sort).
Proof.
  induction sort as [|[c asc] sort IH].
  - by split.
  - apply (total_cmp_then
      (λ a b, apply_dir (compare_predicate_values (cell a c) (cell b c)) asc)); [|done].
    pose proof (total_cmp_key (λ r, cell r c) compare_predicate_values).
    by apply (apply_dir_total (λ a b, compare_predicate_values (cell a c) (cell b c))).
Qed.

Lemma row_compare_cmp sort a b c : row_compare sort a b = Some c → row_cmp sort a b = c.
Proof.
  induction sort as [|[k asc] sort IH]; simpl; [congruence|]. unfold cell.
  destruct (a !! k) as [va|]; [|done]. destruct (b !! k) as [vb|]; [|done]. simpl.
  destruct (compare_values va vb) as [r|] eqn:E; [|done]. simpl.
  apply compare_values_Some in E as ->.
  case_decide as Hd; [rewrite Hd; apply IH|]. intros [= <-].
  by destruct (apply_dir r asc).
Qed.

(** A row of a schema: every cell is absent, null, or of its column's type,
    given by the rank of that type. *)
Definition row_typed (types : list Z) (r : row) : Prop :=
  Forall2 (λ t v, v = Absent ∨ v = Null ∨ predicate_type_rank v = t) types r.

Lemma row_typed_compare types sort a b :
  row_typed types a → row_typed types b →
  Forall (λ s, s.1 < length types) sort →
  row_compare sort a b = Some (row_cmp sort a b).
Proof.
  intros Ha Hb Hs. destruct (row_compare sort a b) eqn:E.
  { apply row_compare_cmp in E. congruence. }
  exfalso. revert E. induction Hs as [|[c asc] sort Hc Hs IH]; [done|].
  cbn [row_compare]. simpl in Hc.
  destruct (lookup_lt_is_Some_2 types c Hc) as [t Ht].
  destruct (Forall2_lookup_l _ _ _ _ _ Ha Ht) as (x & -> & Hx).
  destruct (Forall2_lookup_l _ _ _ _ _ Hb Ht) as (y & -> & Hy). cbn [mbind option_bind].
  rewrite compare_values_comparable.
  replace (comparable x y) with true; cbn [mbind option_bind]; [by case_decide|].
  symmetry. apply comparable_true. naive_solver congruence.
Qed.

(** On rows of one schema the sort comparator never panics, and it is a
    total order on them: comparing is defined for every pair, and the answers
    are reflexive, reversed by swapping, and transitive. *)
Theorem row_compare_total_order (types : list Z) (sort : Sort) (a b c : row) :
  row_typed types a → row_typed types b → row_typed types c →
  Forall (λ s, s.1 < length types) sort →
  row_compare sort a a = Some Eq ∧
  (∃ o, row_compare sort a b = Some o ∧ row_compare sort b a = Some (CompOpp o)) ∧
  (row_compare sort a b = Some Lt → row_compare sort b c = Some Lt →
   row_compare sort a c = Some Lt) ∧
  (row_compare sort a b = Some Eq → row_compare sort a c = row_compare sort b c).
Proof.
  intros Ha Hb Hc Hs. rewrite !(row_typed_compare types sort) by done. split_and!.
  - by rewrite cmp_refl.
  - eexists. split; [done|]. by rewrite (cmp_opp a b).
  - intros [= H1] [= H2]. f_equal. by eapply cmp_lt_trans.
  - intros [= H]. f_equal. by apply cmp_eq_l.
Qed.

Lemma row_compare_total_order_witness :
  let a := [Int (I64 1 I); Null] in
  let b := [Int (I64 1 I); Str [x61]] in
  let c := [Float (F64 0x4000000000000000 I); Str []] in
  row_compare [(0, true); (1, true)] a b = Some Lt ∧
  row_compare [(0, true); (1, true)] b c = Some Lt ∧
  row_compare [(0, true); (1, true)] a c = Some Lt.
Proof.
  intros a b c. split; [reflexivity|]. split; [vm_compute; reflexivity|].
  destruct (row_compare_total_order [3; 4]%Z [(0, true); (1, true)] a b c)
    as (_ & _ & H & _).
  - repeat constructor; naive_solver.
  - repeat constructor; naive_solver.
  - repeat constructor; naive_solver.
  - repeat constructor; simpl; lia.
  - apply H; vm_compute; reflexivity.
Defined.
