(* ===== verification/Schema.v ===== *)
(** * Schemas, on the wire too ([rust/src/value.rs], [rust/src/wire_schema.rs])

    The hierarchical schema of a query's result, its wire form, and the content
    fingerprint stamped on every batch.  Names are their UTF-8 bytes. *)

From stdpp Require Import base list numbers option.
From Stdlib Require Import ZArith Lia Strings.Byte.
From S2P Require Import Prelude Values Rows.

Abbreviation name := (list byte).

Inductive ValueType := VTString | VTNumber | VTBoolean | VTNull | VTJson | VTInt.

Record ScalarProjection := MkProj { proj_col : nat; proj_identity : value }.

(** A level and its outgoing relationships, each with the child level if it is
    in the view. *)
Inductive Schema : Type :=
  | MkSchema (cols : list name) (types : list ValueType) (pk : list nat) (sort : Sort)
      (rels : list RelDef) (one : bool) (proj : option (list nat))
with RelDef : Type :=
  | MkRel (rname : name) (child : option Schema) (project : option ScalarProjection).

Definition columns (s : Schema) : list name := let 'MkSchema c _ _ _ _ _ _ := s in c.
Definition column_types (s : Schema) : list ValueType := let 'MkSchema _ t _ _ _ _ _ := s in t.
Definition schema_pk (s : Schema) : list nat := let 'MkSchema _ _ p _ _ _ _ := s in p.
Definition schema_sort (s : Schema) : Sort := let 'MkSchema _ _ _ o _ _ _ := s in o.
Definition relationships (s : Schema) : list RelDef := let 'MkSchema _ _ _ _ r _ _ := s in r.
Definition singular (s : Schema) : bool := let 'MkSchema _ _ _ _ _ b _ := s in b.
Definition projection (s : Schema) : option (list nat) := let 'MkSchema _ _ _ _ _ _ p := s in p.

Definition rel_name (r : RelDef) : name := let 'MkRel n _ _ := r in n.
Definition rel_schema (r : RelDef) : option Schema := let 'MkRel _ c _ := r in c.
Definition rel_project (r : RelDef) : option ScalarProjection := let 'MkRel _ _ p := r in p.

(** [RelDef::new], [RelDef::related], [RelDef::project_scalar]. *)
Definition rel_new (n : name) : RelDef := MkRel n None None.
Definition rel_related (n : name) (c : Schema) : RelDef := MkRel n (Some c) None.
Definition project_scalar (r : RelDef) (col : nat) (identity : value) : RelDef :=
  MkRel (rel_name r) (rel_schema r) (Some (MkProj col identity)).

Definition schema_new (cols : list name) (pk : list nat) (sort : Sort) : Schema :=
  MkSchema cols (replicate (length cols) VTNumber) pk sort [] false None.

Definition with_relationships (s : Schema) (rels : list RelDef) : Schema :=
  MkSchema (columns s) (column_types s) (schema_pk s) (schema_sort s) rels (singular s) (projection s).

(** [None]: the assertion on the number of types. *)
Definition with_column_types (s : Schema) (types : list ValueType) : option Schema :=
  if decide (length types = length (columns s))
  then Some (MkSchema (columns s) types (schema_pk s) (schema_sort s) (relationships s) (singular s) (projection s))
  else None.

Definition rel_child (s : Schema) (slot : nat) : option Schema :=
  r ← relationships s !! slot; rel_schema r.

Fixpoint position {A} (p : A → bool) (l : list A) : option nat :=
  match l with
  | [] => None
  | x :: l' => if p x then Some 0 else S <$> position p l'
  end.

Definition col_id (s : Schema) (n : name) : option nat :=
  position (λ c, bool_decide (c = n)) (columns s).

Definition rel_slot (s : Schema) (n : name) : option nat :=
  position (λ r, bool_decide (rel_name r = n)) (relationships s).

Record SourceSchema := MkSourceSchema {
  ss_columns : list name;
  ss_column_types : list ValueType;
  ss_primary_key : list nat;
  ss_sort : Sort
}.

Definition into_schema (s : SourceSchema) : Schema :=
  MkSchema (ss_columns s) (ss_column_types s) (ss_primary_key s) (ss_sort s) [] false None.

(** ** The wire form *)

(** [as u32] and [as usize]. *)
Definition as_u32 (n : nat) : Z := Z.of_nat n `mod` 2 ^ 32.

Record WireProjection := MkWireProj { wp_col : Z; wp_identity : value }.

Inductive WireSchema : Type :=
  | MkWire (cols : list name) (pk : list Z) (sort : list (Z * bool)) (one : bool) (rels : list WireRel)
with WireRel : Type :=
  | MkWireRel (rname : name) (slot : Z) (child : option WireSchema) (project : option WireProjection).

Definition ws_columns (w : WireSchema) : list name := let 'MkWire c _ _ _ _ := w in c.

Fixpoint to_wire (s : Schema) : WireSchema :=
  match s with
  | MkSchema cols _ pk sort rels one _ =>
      MkWire cols (as_u32 <$> pk) ((λ e : nat * bool, (as_u32 e.1, e.2)) <$> sort) one
        ((fix go (slot : nat) (l : list RelDef) : list WireRel :=
            match l with
            | [] => []
            | MkRel n child project :: l' =>
                MkWireRel n (as_u32 slot)
                  match child with Some c => Some (to_wire c) | None => None end
                  ((λ p, MkWireProj (as_u32 (proj_col p)) (proj_identity p)) <$> project)
                :: go (S slot) l'
            end) 0 rels)
  end.

Fixpoint to_schema (w : WireSchema) : Schema :=
  match w with
  | MkWire cols pk sort one rels =>
      MkSchema cols (replicate (length cols) VTNumber) (Z.to_nat <$> pk)
        ((λ e : Z * bool, (Z.to_nat e.1, e.2)) <$> sort)
        (map (λ r, match r with
                   | MkWireRel n _ (Some child) project =>
                       let rd := rel_related n (to_schema child) in
                       match project with
                       | Some p => project_scalar rd (Z.to_nat (wp_col p)) (wp_identity p)
                       | None => rd
                       end
                   | MkWireRel n _ None _ => rel_new n
                   end) rels)
        one None
  end.

(** ** The fingerprint *)

Definition COMPARATOR_VERSION : Z := 2.

Definition u64_wrap (x : Z) : Z := x `mod` 2 ^ 64.

Definition fnv_new : Z := 0xcbf29ce484222325.

Definition fnv_byte (h : Z) (b : byte) : Z :=
  u64_wrap (Z.lxor h (byte_Z b) * 0x100000001b3).

Definition fnv_bytes (h : Z) (bs : list byte) : Z := foldl fnv_byte h bs.

Definition fnv_u8 (h : Z) (v : Z) : Z := fnv_byte h (byte_of_Z v).

Definition fnv_u32 (h : Z) (v : Z) : Z := fnv_bytes h (to_le_bytes 4 v).

Definition fnv_s (h : Z) (s : name) : Z := fnv_bytes (fnv_u32 h (as_u32 (length s))) s.

Definition bool_Z (b : bool) : Z := if b then 1 else 0.

Definition column_name (cols : list name) (c : Z) : option name := cols !! Z.to_nat c.

(** The body of the loop over the relationships. *)
Definition hash_rel (hash_level : Z → WireSchema → option Z) (h : Z) (r : WireRel) : option Z :=
  match r with
  | MkWireRel n _ child project =>
      let h := fnv_s h n in
      match child with
      | Some c =>
          let h := fnv_u8 h 1 in
          h ← hash_level h c;
          match project with
          | Some p =>
              let h := fnv_u8 h 1 in
              n ← column_name (ws_columns c) (wp_col p);
              Some (fnv_s h n)
          | None => Some (fnv_u8 h 0)
          end
      | None => Some (fnv_u8 h 0)
      end
  end.

Fixpoint hash_level (h : Z) (w : WireSchema) {struct w} : option Z :=
  match w with
  | MkWire cols pk sort one rels =>
      let h := fnv_u8 h 0x53 in
      let h := fnv_u32 h (as_u32 (length cols)) in
      let h := foldl fnv_s h cols in
      let h := fnv_u32 h (as_u32 (length pk)) in
      h ← try_foldl (λ h p, n ← column_name cols p; Some (fnv_s h n)) h pk;
      let h := fnv_u32 h (as_u32 (length sort)) in
      h ← try_foldl (λ h (e : Z * bool), n ← column_name cols e.1; Some (fnv_u8 (fnv_s h n) (bool_Z e.2))) h sort;
      let h := fnv_u8 h (bool_Z one) in
      let h := fnv_u32 h (as_u32 (length rels)) in
      try_foldl (hash_rel hash_level) h rels
  end.

Definition schema_fp (w : WireSchema) : option Z := hash_level fnv_new w.

(** ** Facts *)

Lemma rel_child_lt s slot cs : rel_child s slot = Some cs → slot < length (relationships s).
Proof. unfold rel_child. destruct (relationships s !! slot) eqn:E; [|done]. by apply lookup_lt_Some in E. Qed.

(** Induction on the levels of a schema. *)
Section schema_induction.
Context (P : Schema → Prop).
Context (step : ∀ cols types pk sort rels one proj,
  Forall (λ r, ∀ c, rel_schema r = Some c → P c) rels → P (MkSchema cols types pk sort rels one proj)).

Fixpoint schema_level_ind (s : Schema) : P s :=
  match s with
  | MkSchema cols types pk sort rels one proj =>
      step cols types pk sort rels one proj
        ((fix go (l : list RelDef) : Forall (λ r, ∀ c, rel_schema r = Some c → P c) l :=
            match l with
            | [] => List.Forall_nil _
            | MkRel n child p :: l' =>
                List.Forall_cons _ (MkRel n child p) l'
                  (match child as o return ∀ c, o = Some c → P c with
                   | Some c0 => λ c E, eq_ind c0 P (schema_level_ind c0) c (f_equal (default c0) E)
                   | None => λ c E, match eq_ind None (λ o, match o with None => True | Some _ => False end) I _ E with end
                   end)
                  (go l')
            end) rels)
  end.
End schema_induction.

Definition fits_u32 (n : nat) : Prop := (Z.of_nat n < 2 ^ 32)%Z.

Global Instance fits_u32_dec n : Decision (fits_u32 n) := _.

Lemma as_u32_fits n : fits_u32 n → Z.to_nat (as_u32 n) = n.
Proof. unfold fits_u32, as_u32. intros. rewrite Z.mod_small by lia. lia. Qed.

(** Every column index of every level fits 32 bits. *)
Fixpoint indices_fit (s : Schema) : bool :=
  match s with
  | MkSchema _ _ pk sort rels _ _ =>
      forallb (λ c, bool_decide (fits_u32 c)) pk
      && forallb (λ e : nat * bool, bool_decide (fits_u32 e.1)) sort
      && forallb (λ r, match r with
                       | MkRel _ child project =>
                           match child with Some c => indices_fit c | None => true end
                           && match project with Some p => bool_decide (fits_u32 (proj_col p)) | None => true end
                       end) rels
  end.

(** What a receiver holds of a schema: declared types and the projection do not
    travel, and a slot without a child level is a bare name. *)
Fixpoint receiver_part (s : Schema) : Schema :=
  match s with
  | MkSchema cols _ pk sort rels one _ =>
      MkSchema cols (replicate (length cols) VTNumber) pk sort
        (map (λ r, match r with
                   | MkRel n (Some c) project => MkRel n (Some (receiver_part c)) project
                   | MkRel n None _ => MkRel n None None
                   end) rels) one None
  end.

Fixpoint wire_rels (slot : nat) (l : list RelDef) : list WireRel :=
  match l with
  | [] => []
  | r :: l' =>
      MkWireRel (rel_name r) (as_u32 slot) (to_wire <$> rel_schema r)
        ((λ p, MkWireProj (as_u32 (proj_col p)) (proj_identity p)) <$> rel_project r)
      :: wire_rels (S slot) l'
  end.

Lemma to_wire_eq cols types pk sort rels one proj :
  to_wire (MkSchema cols types pk sort rels one proj) =
  MkWire cols (as_u32 <$> pk) ((λ e : nat * bool, (as_u32 e.1, e.2)) <$> sort) one (wire_rels 0 rels).
Proof.
  cbn [to_wire]. f_equal. generalize 0%nat.
  induction rels as [|[n [c|] p] rels IH]; intros slot; [done|..]; cbn; by rewrite IH.
Qed.

Lemma map_cancel {A B} (f : A → B) (g : B → A) (l : list A) :
  Forall (λ x, g (f x) = x) l → g <$> (f <$> l) = l.
Proof. induction 1; csimpl; congruence. Qed.

Lemma to_schema_wire (s : Schema) :
  indices_fit s = true → to_schema (to_wire s) = receiver_part s.
Proof.
  induction s as [cols types pk sort rels one proj IH] using schema_level_ind.
  intros Hfit. cbn [indices_fit] in Hfit.
  apply andb_prop in Hfit as [[Hpk Hsort]%andb_prop Hrels].
  rewrite to_wire_eq. cbn [to_schema receiver_part].
  rewrite !map_cancel. 2, 3: apply List.Forall_forall; intros x Hx.
  2: { rewrite List.forallb_forall in Hsort. apply Hsort, bool_decide_eq_true_1 in Hx.
       destruct x; cbn in *. by rewrite as_u32_fits. }
  2: { rewrite List.forallb_forall in Hpk. apply Hpk, bool_decide_eq_true_1 in Hx. by apply as_u32_fits. }
  f_equal. generalize 0%nat. clear Hpk Hsort.
  induction IH as [|[n child p] rels Hr _ IHr]; intros slot; [done|].
  cbn in Hrels. apply andb_prop in Hrels as [[Hc Hp]%andb_prop Hrels].
  cbn [wire_rels map rel_name rel_schema rel_project]. rewrite IHr by done. f_equal.
  destruct child as [c|]; [|done]. cbn in Hr |- *. rewrite (Hr c) by done.
  destruct p as [[pc pi]|]; [|done]. cbn in Hp |- *. apply bool_decide_eq_true_1 in Hp. unfold project_scalar, rel_related. cbn.
  by rewrite as_u32_fits.
Qed.

(** What the receiver rebuilds from the wire form of a schema is the schema
    itself, level by level, in every field a receiver uses: columns, key, sort,
    [.one()] flag, relationship names, child levels and scalar projections.  A
    declared column type, a projection and an annotation on a slot without a
    child level do not travel; the indices must fit the 32 bits of the wire. *)
Theorem to_schema_to_wire (s : Schema) :
  indices_fit s = true → to_schema (to_wire s) = receiver_part s.
Proof. apply to_schema_wire. Qed.

(** ** The fingerprint's byte stream *)

(** The content a fingerprint identifies: keys and sorts by column name. *)
Inductive Sig : Type :=
  | MkSig (cols pk : list name) (sort : list (name * bool)) (one : bool)
      (rels : list (name * option (Sig * option name))).

(** [None]: an index is out of range. *)
Definition resolve_rel (resolve : WireSchema → option Sig) (r : WireRel) : option (name * option (Sig * option name)) :=
  match r with
  | MkWireRel n _ (Some c) project =>
      σ ← resolve c;
      p ← match project with
          | Some p => n ← column_name (ws_columns c) (wp_col p); Some (Some n)
          | None => Some None
          end;
      Some (n, Some (σ, p))
  | MkWireRel n _ None _ => Some (n, None)
  end.

Fixpoint resolve (w : WireSchema) : option Sig :=
  match w with
  | MkWire cols pk sort one rels =>
      pk ← mapM (column_name cols) pk;
      sort ← mapM (λ e : Z * bool, n ← column_name cols e.1; Some (n, e.2)) sort;
      rels ← mapM (resolve_rel resolve) rels;
      Some (MkSig cols pk sort one rels)
  end.

Definition le32 (n : nat) : list byte := to_le_bytes 4 (as_u32 n).

Definition str (n : name) : list byte := le32 (length n) ++ n.

Definition counted {A} (enc : A → list byte) (l : list A) : list byte :=
  le32 (length l) ++ mjoin (map enc l).

Definition flag (b : bool) : list byte := [byte_of_Z (bool_Z b)].

Definition rel_stream (stream : Sig → list byte) (r : name * option (Sig * option name)) : list byte :=
  str r.1 ++ match r.2 with
             | Some (σ', p) =>
                 flag true ++ stream σ'
                 ++ match p with Some n => flag true ++ str n | None => flag false end
             | None => flag false
             end.

Fixpoint stream (σ : Sig) : list byte :=
  match σ with
  | MkSig cols pk sort one rels =>
      byte_of_Z 0x53 :: counted str cols ++ counted str pk
        ++ counted (λ e, str e.1 ++ flag e.2) sort ++ flag one
        ++ counted (rel_stream stream) rels
  end.

Lemma fnv_bytes_app h xs ys : fnv_bytes h (xs ++ ys) = fnv_bytes (fnv_bytes h xs) ys.
Proof. apply foldl_app. Qed.

Lemma fnv_s_str h n : fnv_s h n = fnv_bytes h (str n).
Proof. unfold fnv_s, str. by rewrite fnv_bytes_app. Qed.

Lemma foldl_fnv {A} (enc : A → list byte) (f : Z → A → Z) h l :
  (∀ h x, f h x = fnv_bytes h (enc x)) → foldl f h l = fnv_bytes h (mjoin (map enc l)).
Proof.
  intros Hf. revert h. induction l as [|x l IH]; intros h; [done|].
  cbn [foldl map mjoin list_join]. by rewrite IH, Hf, fnv_bytes_app.
Qed.

Lemma try_foldl_fnv {A B} (enc : B → list byte) (g : A → option B) (f : Z → A → option Z) h l :
  Forall (λ x, ∀ h, f h x = (λ y, fnv_bytes h (enc y)) <$> g x) l →
  try_foldl f h l = (λ ys, fnv_bytes h (mjoin (map enc ys))) <$> mapM g l.
Proof.
  intros Hf. revert h. induction Hf as [|x l Hx _ IH]; intros h; [done|].
  cbn [try_foldl]. rewrite Hx. change (mapM g (x :: l)) with (y ← g x; ys ← mapM g l; Some (y :: ys)).
  destruct (g x) as [y|]; [|done]. cbn [mbind option_bind fmap option_fmap option_map].
  etrans; [apply IH|].
  destruct (mapM g l) as [ys|]; [|done]. cbn. by rewrite fnv_bytes_app.
Qed.

Section wire_induction.
Context (P : WireSchema → Prop).
Context (step : ∀ cols pk sort one rels,
  Forall (λ r, match r with MkWireRel _ _ (Some c) _ => P c | _ => True end) rels → P (MkWire cols pk sort one rels)).

Fixpoint wire_level_ind (w : WireSchema) : P w :=
  match w with
  | MkWire cols pk sort one rels =>
      step cols pk sort one rels
        ((fix go (l : list WireRel) : Forall (λ r, match r with MkWireRel _ _ (Some c) _ => P c | _ => True end) l :=
            match l with
            | [] => List.Forall_nil _
            | MkWireRel n slot child p :: l' =>
                List.Forall_cons _ (MkWireRel n slot child p) l'
                  (match child as o return match o with Some c => P c | _ => True end with
                   | Some c => wire_level_ind c
                   | None => I
                   end)
                  (go l')
            end) rels)
  end.
End wire_induction.

Lemma hash_level_stream w : ∀ h, hash_level h w = (λ σ, fnv_bytes h (stream σ)) <$> resolve w.
Proof.
  induction w as [cols pk sort one rels IH] using wire_level_ind. intros h.
  cbn [hash_level resolve]. rewrite (foldl_fnv str) by exact fnv_s_str.
  rewrite (try_foldl_fnv str (column_name cols))
    by (apply List.Forall_forall; intros x _ ?; destruct (column_name cols x); cbn; by rewrite ?fnv_s_str).
  destruct (mapM (column_name cols) pk) as [pk'|] eqn:Epk; [|done]. cbn [mbind option_bind fmap option_fmap option_map].
  rewrite (try_foldl_fnv (λ e : name * bool, str e.1 ++ flag e.2)
            (λ e : Z * bool, n ← column_name cols e.1; Some (n, e.2)))
    by (apply List.Forall_forall; intros [x b] _ ?; cbn; destruct (column_name cols x); cbn; [|done];
        by rewrite fnv_bytes_app, fnv_s_str).
  destruct (mapM _ sort) as [sort'|] eqn:Esort; [|done]. cbn [mbind option_bind fmap option_fmap option_map].
  rewrite (try_foldl_fnv (rel_stream stream) (resolve_rel resolve)).
  - destruct (mapM _ rels) as [rels'|] eqn:Erels; [|done]. cbn [mbind option_bind fmap option_fmap option_map stream].
    f_equal. unfold counted, flag, le32, fnv_u8, fnv_u32.
    apply length_mapM in Epk, Esort, Erels. rewrite Epk, Esort, Erels.
    cbn [fnv_bytes foldl app]. by rewrite !fnv_bytes_app.
  - eapply List.Forall_impl; [|exact IH]. intros [n slot [c|] p] Hc h'; cbn [hash_rel resolve_rel].
    + rewrite Hc. destruct (resolve c) as [σ|]; [|done]. cbn.
      destruct p as [[pc pi]|]; cbn; [destruct (column_name (ws_columns c) pc); cbn; [|done]|];
        unfold rel_stream; cbn; rewrite ?fnv_bytes_app, ?fnv_s_str; cbn; by rewrite fnv_bytes_app.
    + cbn. unfold rel_stream; cbn. by rewrite fnv_bytes_app, fnv_s_str.
Qed.

(** *** The stream determines the content *)

(** Reading [x] off the front of a stream of values that satisfy [ok]. *)
Definition prefix_inj {A} (ok : A → Prop) (enc : A → list byte) (x : A) : Prop :=
  ok x → ∀ y r1 r2, ok y → enc x ++ r1 = enc y ++ r2 → x = y ∧ r1 = r2.

Definition name_fits (n : name) : Prop := fits_u32 (length n).

Definition list_fits {A} (ok : A → Prop) (l : list A) : Prop := fits_u32 (length l) ∧ Forall ok l.

Lemma le32_inj n m r1 r2 :
  fits_u32 n → fits_u32 m → le32 n ++ r1 = le32 m ++ r2 → n = m ∧ r1 = r2.
Proof.
  intros Hn Hm E. unfold le32 in E. apply app_inj_1 in E as [E ->]; [|by rewrite !length_to_le_bytes].
  apply (f_equal from_le_bytes) in E. rewrite !from_to_le_bytes in E.
  change (256 ^ Z.of_nat 4)%Z with (2 ^ 32)%Z in E. unfold as_u32, fits_u32 in *.
  rewrite !Z.mod_mod, !Z.mod_small in E by lia. split; [lia|done].
Qed.

Lemma str_prefix n : prefix_inj name_fits str n.
Proof.
  intros Hn m r1 r2 Hm E. unfold str in E. rewrite <-!app_assoc in E.
  apply le32_inj in E as [El E]; [|done..]. by apply app_inj_1 in E.
Qed.

Lemma flag_inj b1 b2 r1 r2 : flag b1 ++ r1 = flag b2 ++ r2 → b1 = b2 ∧ r1 = r2.
Proof. destruct b1, b2; cbn; intros [=]; done. Qed.

Lemma counted_prefix {A} (ok : A → Prop) (enc : A → list byte) l :
  Forall (prefix_inj ok enc) l → prefix_inj (list_fits ok) (counted enc) l.
Proof.
  intros Henc [Hl Hok] l2 r1 r2 [Hl2 Hok2] E. unfold counted in E. rewrite <-!app_assoc in E.
  apply le32_inj in E as [El E]; [|done..]. clear Hl Hl2.
  revert l2 El Hok2 E. induction Henc as [|x l Hx _ IH]; intros [|y l2] El Hok2 E; try done.
  cbn [map mjoin list_join] in E. rewrite <-!app_assoc in E.
  inv Hok. inv Hok2. apply Hx in E as [-> E]; [|done..].
  destruct (IH ltac:(done) l2 ltac:(cbn in El; lia) ltac:(done) E) as [-> ->]. done.
Qed.

Section sig_induction.
Context (P : Sig → Prop).
Context (step : ∀ cols pk sort one rels,
  Forall (λ r : name * option (Sig * option name), match r.2 with Some (σ, _) => P σ | None => True end) rels →
  P (MkSig cols pk sort one rels)).

Fixpoint sig_level_ind (σ : Sig) : P σ :=
  match σ with
  | MkSig cols pk sort one rels =>
      step cols pk sort one rels
        ((fix go (l : list (name * option (Sig * option name))) :
             Forall (λ r : name * option (Sig * option name), match r.2 with Some (σ, _) => P σ | None => True end) l :=
            match l with
            | [] => List.Forall_nil _
            | (n, c) :: l' =>
                List.Forall_cons _ (n, c) l'
                  (match c as o return match o with Some (σ, _) => P σ | None => True end with
                   | Some (σ, _) => sig_level_ind σ
                   | None => I
                   end)
                  (go l')
            end) rels)
  end.
End sig_induction.

(** Every count and every name of every level fits the 32-bit length prefix. *)
Inductive sig_fits : Sig → Prop :=
  | sig_fits_level cols pk sort one rels :
      list_fits name_fits cols → list_fits name_fits pk →
      list_fits (λ e : name * bool, name_fits e.1) sort →
      list_fits (λ r : name * option (Sig * option name), name_fits r.1) rels →
      (∀ n σ p, (n, Some (σ, p)) ∈ rels → sig_fits σ ∧ ∀ m, p = Some m → name_fits m) →
      sig_fits (MkSig cols pk sort one rels).

Definition rel_fits (r : name * option (Sig * option name)) : Prop :=
  name_fits r.1 ∧ ∀ σ p, r.2 = Some (σ, p) → sig_fits σ ∧ ∀ m, p = Some m → name_fits m.

Lemma rel_stream_prefix r :
  match r.2 with Some (σ, _) => prefix_inj sig_fits stream σ | None => True end →
  prefix_inj rel_fits (rel_stream stream) r.
Proof.
  intros Hr [Hn Hc] [n2 c2] r1 r2 [Hn2 Hc2] E. destruct r as [n c]. unfold rel_stream in E.
  cbn [fst snd] in *. rewrite <-!app_assoc in E. apply str_prefix in E as [-> E]; [|done..].
  destruct c as [[σ p]|], c2 as [[σ2 p2]|]; rewrite <-?app_assoc in E; apply flag_inj in E as [Eb E];
    try discriminate Eb; [|by subst].
  destruct (Hc σ p eq_refl) as [Hσ Hp], (Hc2 σ2 p2 eq_refl) as [Hσ2 Hp2].
  rewrite <-?app_assoc in E. apply (Hr Hσ) in E as [-> E]; [|done].
  destruct p as [m|], p2 as [m2|]; rewrite <-?app_assoc in E; apply flag_inj in E as [Eb' E];
    try discriminate Eb'; [|by subst].
  apply str_prefix in E as [-> ->]; eauto.
Qed.

Lemma sig_fits_rels rels :
  list_fits (λ r : name * option (Sig * option name), name_fits r.1) rels →
  (∀ n σ p, (n, Some (σ, p)) ∈ rels → sig_fits σ ∧ ∀ m, p = Some m → name_fits m) →
  list_fits rel_fits rels.
Proof.
  intros [Hl Hn] Hc. split; [done|]. apply Forall_forall. intros [n c] Hin. split.
  - by eapply Forall_forall in Hn.
  - cbn. intros σ p ->. apply (Hc n). by apply list_elem_of_In.
Qed.

Lemma stream_prefix σ : prefix_inj sig_fits stream σ.
Proof.
  induction σ as [cols pk sort one rels IH] using sig_level_ind.
  intros Hσ [cols2 pk2 sort2 one2 rels2] r1 r2 Hσ2 E. inversion_clear Hσ. inversion_clear Hσ2.
  apply (f_equal (drop 1)) in E. cbn [stream] in E. cbn [app drop] in E. rewrite <-!app_assoc in E.
  apply (counted_prefix name_fits) in E as [-> E]; [|by apply Forall_true, str_prefix|done..].
  apply (counted_prefix name_fits) in E as [-> E]; [|by apply Forall_true, str_prefix|done..].
  apply (counted_prefix (λ e : name * bool, name_fits e.1)) in E as [-> E]; [|..|done|done].
  2: { apply Forall_true. intros [n b] Hn [n2 b2] ? ? Hn2 E2. cbn in E2. rewrite <-!app_assoc in E2.
       apply str_prefix in E2 as [-> E2]; [|done..]. by apply (flag_inj b b2) in E2 as [-> ->]. }
  apply flag_inj in E as [-> E].
  apply (counted_prefix rel_fits) in E as [-> ->]; [done|..|by apply sig_fits_rels|by apply sig_fits_rels].
  eapply List.Forall_impl; [|exact IH]. exact rel_stream_prefix.
Qed.

(** The fingerprint is FNV-1a over a byte stream that identifies the content
    of the schema, keys and sorts resolved to column names: [schema_fp] hashes
    exactly that stream (and panics exactly when an index is out of range), and
    two contents with the same stream are the same, so only a collision of the
    hash itself can let two schemas that differ pass for one another. *)
Theorem schema_fp_stream :
  (∀ w, schema_fp w = (λ σ, fnv_bytes fnv_new (stream σ)) <$> resolve w) ∧
  (∀ σ1 σ2, sig_fits σ1 → sig_fits σ2 → stream σ1 = stream σ2 → σ1 = σ2).
Proof.
  split; [intros w; apply hash_level_stream|].
  intros σ1 σ2 H1 H2 E. apply (f_equal (.++ [])) in E. by apply stream_prefix in E as [-> _].
Qed.

(** ** Witnesses: an issue with its comments, projected to a count, and a gate *)

Definition ex_comment_schema : Schema := schema_new [[x69]; [x6e]] [0%nat] [(0%nat, true)].

Definition ex_issue_schema : Schema :=
  with_relationships (schema_new [[x69]; [x76]] [0%nat] [(1%nat, false); (0%nat, true)])
    [project_scalar (rel_related [x63] ex_comment_schema) 1 Null; rel_new [x67]].

Lemma to_schema_to_wire_witness :
  to_schema (to_wire ex_issue_schema) = ex_issue_schema ∧ receiver_part ex_issue_schema = ex_issue_schema.
Proof. split; [apply (to_schema_to_wire ex_issue_schema); reflexivity|reflexivity]. Defined.

Definition ex_comment_sig : Sig := MkSig [[x69]; [x6e]] [[x69]] [([x69], true)] false [].

Definition ex_issue_sig : Sig :=
  MkSig [[x69]; [x76]] [[x69]] [([x76], false); ([x69], true)] false
    [([x63], Some (ex_comment_sig, Some [x6e])); ([x67], None)].

Ltac fits := repeat match goal with
  | |- _ ∧ _ => split
  | |- list_fits _ _ => split
  | |- Forall _ _ => constructor
  | |- name_fits _ => reflexivity
  | |- fits_u32 _ => reflexivity
  end.

Lemma ex_comment_sig_fits : sig_fits ex_comment_sig.
Proof. constructor; fits. intros ??? []%elem_of_nil. Qed.

Lemma ex_issue_sig_fits : sig_fits ex_issue_sig.
Proof.
  constructor; fits. intros n σ p [H|[H|[]%elem_of_nil]%elem_of_cons]%elem_of_cons; [|discriminate H].
  injection H as -> -> ->. split; [exact ex_comment_sig_fits|]. intros m [= <-]. reflexivity.
Qed.

Lemma schema_fp_stream_witness :
  resolve (to_wire ex_issue_schema) = Some ex_issue_sig ∧ sig_fits ex_issue_sig ∧
    ∀ σ, sig_fits σ → stream σ = stream ex_issue_sig → σ = ex_issue_sig.
Proof.
  split; [reflexivity|]. split; [exact ex_issue_sig_fits|].
  intros σ Hσ E. apply (proj2 schema_fp_stream); [exact Hσ|exact ex_issue_sig_fits|exact E].
Defined.
