(* ===== verification/BTree.v ===== *)
(** * The copy-on-write B+tree ([rust/src/btree.rs])

    The set of rows behind every index of a memory source.  Nodes are
    immutable values here: [Rc::make_mut] on a path and [fork] (one [Rc] bump)
    are both invisible to a functional update, which is what "copy-on-write"
    promises.  The tree is modelled over any row type with a comparator;
    out-of-range indexing, underflow and [unreachable!] are [None].

    The specification is the in-order list of rows ([elems]): lookup, insert
    and delete are [sl_find], [sl_insert] and [sl_delete] on a strictly sorted
    list. *)

From stdpp Require Import base list numbers option sorting.
From Stdlib Require Import Lia.
From S2P Require Import Prelude.

Definition MAX_NODE_SIZE : nat := 64.

(** ** [Vec] operations, with their panics *)

Definition vec_insert {A} (i : nat) (x : A) (l : list A) : option (list A) :=
  if decide (i ≤ length l) then Some (take i l ++ x :: drop i l) else None.

Definition vec_remove {A} (i : nat) (l : list A) : option (list A) :=
  if decide (i < length l) then Some (take i l ++ drop (S i) l) else None.

Definition vec_set {A} (i : nat) (x : A) (l : list A) : option (list A) :=
  if decide (i < length l) then Some (<[i := x]> l) else None.

(** [Vec::split_off]: the vector keeps [take], the result is [drop]. *)
Definition vec_split_off {A} (i : nat) (l : list A) : option (list A * list A) :=
  if decide (i ≤ length l) then Some (take i l, drop i l) else None.

Section lookup_map.
Context {A B : Type} (f : A → B).

(** [f] at index [i], written so that a recursive call through it is
    structural. *)
Fixpoint lookup_map (l : list A) (i : nat) : option B :=
  match l, i with
  | [], _ => None
  | x :: _, O => Some (f x)
  | _ :: l', S i' => lookup_map l' i'
  end.

Lemma lookup_map_spec l i : lookup_map l i = f <$> l !! i.
Proof. revert i. induction l as [|x l IH]; intros [|i]; simpl; auto. Qed.
End lookup_map.

Section btree.
Context {Row : Type} (cmp : Row → Row → comparison).

(** ** Nodes *)

Inductive bnode : Type :=
  | Leaf (keys : list Row)
  | Internal (keys : list Row) (children : list bnode).

Definition node_keys (n : bnode) : list Row :=
  match n with Leaf ks => ks | Internal ks _ => ks end.

Definition num_children (n : bnode) : nat :=
  match n with Internal _ cs => length cs | Leaf _ => 0 end.

Definition max_key (n : bnode) : option Row := last (node_keys n).

Definition is_empty_node (n : bnode) : bool :=
  match n with
  | Leaf ks => bool_decide (length ks = 0)
  | Internal _ cs => bool_decide (length cs = 0)
  end.

(** ** Binary searches

    All searches share one loop: [p] is the test that moves [lo] past [mid].
    The loop variable [hi - lo] shrinks, so [S (length keys)] rounds suffice. *)
Fixpoint bs_loop (p : Row → bool) (keys : list Row) (fuel lo hi : nat) : option nat :=
  match fuel with
  | O => None
  | S fuel =>
      if decide (lo < hi) then
        let mid := (lo + hi) / 2 in
        k ← keys !! mid;
        if p k then bs_loop p keys fuel (mid + 1) hi
        else bs_loop p keys fuel lo mid
      else Some lo
  end.

Definition bs (p : Row → bool) (keys : list Row) : option nat :=
  bs_loop p keys (S (length keys)) 0 (length keys).

(** [search]: [inl i] is [Ok(i)], [inr i] is [Err(i)]. *)
Fixpoint search_loop (keys : list Row) (key : Row) (fuel lo hi : nat) : option (nat + nat) :=
  match fuel with
  | O => None
  | S fuel =>
      if decide (lo < hi) then
        let mid := (lo + hi) / 2 in
        k ← keys !! mid;
        match cmp k key with
        | Lt => search_loop keys key fuel (mid + 1) hi
        | Gt => search_loop keys key fuel lo mid
        | Eq => Some (inl mid)
        end
      else Some (inr lo)
  end.

Definition search (keys : list Row) (key : Row) : option (nat + nat) :=
  search_loop keys key (S (length keys)) 0 (length keys).

Definition lower_bound (keys : list Row) (key : Row) : option nat :=
  bs (λ k, is_lt (cmp k key)) keys.

(** [keys.len() - 1] underflows on an empty node. *)
Definition clamp_last (keys : list Row) (lo : nat) : option nat :=
  if decide (lo = length keys) then
    if decide (length keys = 0) then None else Some (length keys - 1)
  else Some lo.

Definition child_index (keys : list Row) (key : Row) : option nat :=
  lo ← bs (λ k, is_lt (cmp k key)) keys; clamp_last keys lo.

(** ** Lookup *)

Fixpoint find (n : bnode) (key : Row) : option (option Row) :=
  match n with
  | Leaf ks =>
      r ← search ks key;
      match r with
      | inl i => k ← ks !! i; Some (Some k)
      | inr _ => Some None
      end
  | Internal ks cs =>
      if decide (length cs = 0) then Some None
      else
        i ← child_index ks key;
        r ← lookup_map (λ c, find c key) cs i;
        r
  end.

(** ** Insertion *)

Inductive insert_result : Type :=
  | Existed
  | Inserted
  | Split (rgt : bnode).

Fixpoint node_set (n : bnode) (key : Row) : option (bnode * insert_result) :=
  match n with
  | Leaf ks =>
      r ← search ks key;
      match r with
      | inl i => ks ← vec_set i key ks; Some (Leaf ks, Existed)
      | inr i =>
          ks ← vec_insert i key ks;
          if decide (MAX_NODE_SIZE < length ks) then
            let mid := length ks / 2 in
            '(ks, right_keys) ← vec_split_off mid ks;
            Some (Leaf ks, Split (Leaf right_keys))
          else Some (Leaf ks, Inserted)
      end
  | Internal ks cs =>
      i ← child_index ks key;
      r ← lookup_map (λ c, node_set c key) cs i;
      '(child, res) ← r;
      cs ← vec_set i child cs;
      m ← max_key child;
      ks ← vec_set i m ks;
      match res with
      | Existed => Some (Internal ks cs, Existed)
      | Inserted => Some (Internal ks cs, Inserted)
      | Split rgt =>
          ks ← vec_set i m ks;
          rmax ← max_key rgt;
          cs ← vec_insert (i + 1) rgt cs;
          ks ← vec_insert (i + 1) rmax ks;
          if decide (MAX_NODE_SIZE < length cs) then
            let mid := length cs / 2 in
            '(cs, right_children) ← vec_split_off mid cs;
            '(ks, right_keys) ← vec_split_off mid ks;
            Some (Internal ks cs, Split (Internal right_keys right_children))
          else Some (Internal ks cs, Inserted)
      end
  end.

(** ** Deletion and rebalancing *)

(** [try_merge] over the function that merges two siblings: [try_merge] and
    [merge_into] call each other, one level further down each time. *)
Definition try_merge_with (merge : bnode → bnode → option bnode)
    (ks : list Row) (cs : list bnode) (i : nat) : option (list Row * list bnode * bool) :=
  match cs !! i, cs !! (i + 1) with
  | Some lft, Some rgt =>
      if decide (length (node_keys lft) + length (node_keys rgt) ≤ MAX_NODE_SIZE) then
        cs ← vec_remove (i + 1) cs;
        ks ← vec_remove (i + 1) ks;
        lft ← merge lft rgt;
        cs ← vec_set i lft cs;
        m ← max_key lft;
        ks ← vec_set i m ks;
        Some (ks, cs, true)
      else Some (ks, cs, false)
  | _, _ => Some (ks, cs, false)
  end.

(** The depth of the leftmost path: the recursion of [merge_into] descends one
    level per call, so one more than it is fuel enough. *)
Fixpoint height (n : bnode) : nat :=
  match n with
  | Leaf _ => 0
  | Internal _ [] => 0
  | Internal _ (c :: _) => S (height c)
  end.

Fixpoint merge_into_fuel (fuel : nat) (lft rgt : bnode) : option bnode :=
  match fuel with
  | O => None
  | S fuel =>
      match lft, rgt with
      | Leaf lk, Leaf rk => Some (Leaf (lk ++ rk))
      | Internal lk lc, Internal rk rc =>
          if decide (length lc = 0) then None
          else
            let seam := length lc - 1 in
            '(ks, cs, _) ← try_merge_with (merge_into_fuel fuel) (lk ++ rk) (lc ++ rc) seam;
            Some (Internal ks cs)
      | _, _ => None
      end
  end.

Definition merge_into (lft rgt : bnode) : option bnode :=
  merge_into_fuel (S (height lft)) lft rgt.

Definition try_merge : list Row → list bnode → nat → option (list Row * list bnode * bool) :=
  try_merge_with merge_into.

(** One round of the merge scan of [node_delete], at child [j]. *)
Definition merge_scan (j : nat) (ks : list Row) (cs : list bnode) : option (list Row * list bnode) :=
  match cs !! j with
  | None => Some (ks, cs)
  | Some c =>
      if decide (length (node_keys c) ≤ MAX_NODE_SIZE / 2) then
        if is_empty_node c then
          cs ← vec_remove j cs;
          ks ← vec_remove j ks;
          Some (ks, cs)
        else
          '(ks, cs, _) ← try_merge ks cs j;
          Some (ks, cs)
      else Some (ks, cs)
  end.

Fixpoint node_delete (n : bnode) (key : Row) : option (bnode * bool) :=
  match n with
  | Leaf ks =>
      r ← search ks key;
      match r with
      | inl i => ks ← vec_remove i ks; Some (Leaf ks, true)
      | inr _ => Some (Leaf ks, false)
      end
  | Internal ks cs =>
      i ← lower_bound ks key;
      if decide (length cs ≤ i) then Some (Internal ks cs, false)
      else
        r ← lookup_map (λ c, node_delete c key) cs i;
        '(child, removed) ← r;
        cs ← vec_set i child cs;
        ks ← (if is_empty_node child then Some ks
              else m ← max_key child; vec_set i m ks);
        '(ks, cs) ← merge_scan i ks cs;
        '(ks, cs) ← (if decide (i = 0) then Some (ks, cs) else merge_scan (i - 1) ks cs);
        Some (Internal ks cs, removed)
  end.

(** [collapse_root]: descend through single children; an emptied internal root
    becomes an empty leaf. *)
Fixpoint collapse_singles (n : bnode) : bnode :=
  match n with
  | Internal _ [c] => collapse_singles c
  | _ => n
  end.

Definition collapse_root (n : bnode) : bnode :=
  match collapse_singles n with
  | Internal _ [] => Leaf []
  | n' => n'
  end.

(** ** The tree *)

Record btree := BTree { root : bnode; size : nat }.

Definition btree_new : btree := BTree (Leaf []) 0.

Definition btree_fork (t : btree) : btree := BTree (root t) (size t).

Definition btree_get (t : btree) (key : Row) : option (option Row) := find (root t) key.

Definition btree_has (t : btree) (key : Row) : option bool :=
  r ← find (root t) key; Some (bool_decide (is_Some r)).

Definition btree_add (t : btree) (key : Row) : option (btree * bool) :=
  '(n, res) ← node_set (root t) key;
  match res with
  | Existed => Some (BTree n (size t), false)
  | Inserted => Some (BTree n (size t + 1), true)
  | Split rgt =>
      lk ← max_key n;
      rk ← max_key rgt;
      Some (BTree (Internal [lk; rk] [n; rgt]) (size t + 1), true)
  end.

Definition btree_delete (t : btree) (key : Row) : option (btree * bool) :=
  match node_delete (root t) key with
  | Some (n, true) =>
      if decide (size t = 0) then None
      else Some (BTree (collapse_root n) (size t - 1), true)
  | Some (n, false) => Some (BTree n (size t), false)
  | None => None
  end.

(** ** Bulk load *)

(** [slice::chunks]; every round consumes at least one element. *)
Fixpoint chunks_fuel {A} (fuel n : nat) (l : list A) : list (list A) :=
  match fuel with
  | O => []
  | S fuel =>
      match l with
      | [] => []
      | _ => take n l :: chunks_fuel fuel n (drop n l)
      end
  end.

Definition chunks {A} (n : nat) (l : list A) : list (list A) := chunks_fuel (length l) n l.

Definition build_parent (cs : list bnode) : option bnode :=
  ks ← (mapM max_key cs : option (list Row)); Some (Internal ks cs).

(** The level loop of [from_sorted]: each round divides the number of nodes by
    [MAX_NODE_SIZE], so as many rounds as there are nodes suffice. *)
Fixpoint build_levels (fuel : nat) (level : list bnode) : option bnode :=
  match level with
  | [n] => Some n
  | [] => None
  | _ =>
      match fuel with
      | O => None
      | S fuel =>
          level ← (mapM build_parent (chunks MAX_NODE_SIZE level) : option (list bnode));
          build_levels fuel level
      end
  end.

Definition btree_from_sorted (rows : list Row) : option btree :=
  if decide (length rows = 0) then Some btree_new
  else
    let level := Leaf <$> chunks MAX_NODE_SIZE rows in
    n ← build_levels (length level) level;
    Some (BTree n (length rows)).

(** ** The specification: a strictly sorted list *)

Fixpoint elems (n : bnode) : list Row :=
  match n with
  | Leaf ks => ks
  | Internal _ cs => concat (map elems cs)
  end.

Definition ssorted (l : list Row) : Prop := StronglySorted (λ a b, cmp a b = Lt) l.

Fixpoint sl_insert (k : Row) (l : list Row) : list Row :=
  match l with
  | [] => [k]
  | x :: l' =>
      match cmp x k with
      | Lt => x :: sl_insert k l'
      | Eq => k :: l'
      | Gt => k :: x :: l'
      end
  end.

Fixpoint sl_delete (k : Row) (l : list Row) : list Row :=
  match l with
  | [] => []
  | x :: l' =>
      match cmp x k with
      | Eq => l'
      | _ => x :: sl_delete k l'
      end
  end.

Fixpoint sl_find (k : Row) (l : list Row) : option Row :=
  match l with
  | [] => None
  | x :: l' => if is_eq (cmp x k) then Some x else sl_find k l'
  end.

(** Well-formed nodes of height [h]: balanced, no empty node, at most
    [MAX_NODE_SIZE] entries, and every separator is the maximum of its child. *)
Fixpoint node_ok (h : nat) (n : bnode) : Prop :=
  match h, n with
  | O, Leaf ks => 0 < length ks ≤ MAX_NODE_SIZE
  | S h', Internal ks cs =>
      0 < length cs ≤ MAX_NODE_SIZE ∧
      Forall (node_ok h') cs ∧ max_key <$> cs = Some <$> ks
  | _, _ => False
  end.

Definition btree_ok (t : btree) : Prop :=
  (root t = Leaf [] ∨ ∃ h, node_ok h (root t)) ∧
  ssorted (elems (root t)) ∧ size t = length (elems (root t)).
End btree.

Arguments bnode : clear implicits.
Arguments btree : clear implicits.
Arguments insert_result : clear implicits.
