(* ===== verification/BTreeFacts.v ===== *)
(** * The B+tree refines a strictly sorted list

    Under the invariant [btree_ok] no operation of [BTree] panics, lookup is
    lookup in the in-order list, insertion and deletion are insertion and
    deletion there, and the invariant is kept: balance, occupancy, and the
    cached maxima included. *)

From stdpp Require Import base list numbers option sorting sets.
From Stdlib Require Import Lia.
From S2P Require Import Prelude BTree.

(** ** Vectors *)

Section vec.
Context {A : Type}.
Implicit Types (l : list A) (x : A).

Lemma vec_set_Some i x l : i < length l → vec_set i x l = Some (<[i := x]> l).
Proof. intros. unfold vec_set. by rewrite decide_True. Qed.

Lemma vec_insert_Some i x l : i ≤ length l → vec_insert i x l = Some (take i l ++ x :: drop i l).
Proof. intros. unfold vec_insert. by rewrite decide_True. Qed.

Lemma vec_remove_Some i l : i < length l → vec_remove i l = Some (take i l ++ drop (S i) l).
Proof. intros. unfold vec_remove. by rewrite decide_True. Qed.

Lemma vec_split_off_Some i l : i ≤ length l → vec_split_off i l = Some (take i l, drop i l).
Proof. intros. unfold vec_split_off. by rewrite decide_True. Qed.

Lemma take_insert_succ i x l : i < length l → take (i + 1) (<[i := x]> l) = take i l ++ [x].
Proof.
  intros Hi. rewrite insert_take_drop by done. rewrite cons_middle, (assoc_L (++)).
  apply take_app_length'. rewrite length_app, length_take. simpl. lia.
Qed.

Lemma drop_insert_succ i x l : i < length l → drop (i + 1) (<[i := x]> l) = drop (S i) l.
Proof.
  intros Hi. rewrite insert_take_drop by done. rewrite cons_middle, (assoc_L (++)).
  apply drop_app_length'. rewrite length_app, length_take. simpl. lia.
Qed.

Lemma remove_next l i x y :
  l !! i = Some x → <[i := y]> (take (i + 1) l ++ drop (S (i + 1)) l) = take i l ++ y :: drop (i + 2) l.
Proof.
  intros Hx. pose proof (lookup_lt_Some _ _ _ Hx) as Hlt.
  rewrite Nat.add_1_r at 1. rewrite (take_S_r l i x) by done. rewrite <-(assoc_L (++)). simpl.
  rewrite insert_app_r_alt by (rewrite length_take; lia).
  rewrite length_take, Nat.min_l, Nat.sub_diag by lia. simpl.
  by replace (S (i + 1)) with (i + 2) by lia.
Qed.

Lemma last_take_drop l : l ≠ [] → ∃ l' x, l = l' ++ [x] ∧ last l = Some x.
Proof.
  intros H. destruct l using rev_ind; [done|]. exists l, x. by rewrite last_snoc.
Qed.
End vec.

Section chunks.
Context {A : Type}.

Lemma chunks_fuel_spec fuel n (l : list A) :
  0 < n → length l ≤ fuel →
  concat (chunks_fuel fuel n l) = l ∧
  Forall (λ c, 0 < length c ≤ n) (chunks_fuel fuel n l).
Proof.
  intros Hn. revert l. induction fuel as [|fuel IH]; intros [|x l] Hl; simpl in Hl; try lia;
    try (split; [done|constructor]).
  cbn [chunks_fuel concat]. destruct (IH (drop n (x :: l))) as [Hc Hf].
  { rewrite length_drop. simpl. lia. }
  rewrite Hc, take_drop. split; [done|]. constructor; [|done].
  rewrite length_take. simpl. lia.
Qed.

Lemma chunks_fuel_length fuel n (l : list A) :
  2 ≤ n → 2 * length (chunks_fuel fuel n l) ≤ length l + 1.
Proof.
  intros Hn. revert l. induction fuel as [|fuel IH]; intros [|x l]; simpl; try lia.
  specialize (IH (drop n (x :: l))). rewrite length_drop in IH. simpl in IH. lia.
Qed.

Lemma chunks_concat n (l : list A) : 0 < n → concat (chunks n l) = l.
Proof. intros. by apply chunks_fuel_spec. Qed.

Lemma chunks_sizes n (l : list A) : 0 < n → Forall (λ c, 0 < length c ≤ n) (chunks n l).
Proof. intros. by apply chunks_fuel_spec. Qed.
End chunks.

Section facts.
Context {Row : Type} (cmp : Row → Row → comparison) `{!TotalCmp cmp}.
Implicit Types (n c : bnode Row) (ks : list Row) (cs : list (bnode Row)) (k x y : Row).

#[local] Abbreviation rlt := (λ a b, cmp a b = Lt).
#[local] Abbreviation all_lt k := (Forall (λ x, cmp x k = Lt)).
#[local] Abbreviation all_gt k := (Forall (λ x, cmp x k = Gt)).

(** ** Strictly sorted lists *)

Lemma ssorted_app l1 l2 :
  ssorted cmp (l1 ++ l2) ↔
  ssorted cmp l1 ∧ ssorted cmp l2 ∧ (∀ x y, x ∈ l1 → y ∈ l2 → cmp x y = Lt).
Proof.
  unfold ssorted. induction l1 as [|a l1 IH]; simpl.
  - split; [intros H; split_and!; [constructor|done|set_solver]|tauto].
  - split.
    + intros [H1 H2]%StronglySorted_inv. apply IH in H1 as (S1 & S2 & H).
      apply Forall_app in H2 as [F1 F2]. split_and!; [by constructor|done|].
      intros x y [->|Hx]%elem_of_cons Hy; [|by apply H].
      rewrite Forall_forall in F2. by apply F2.
    + intros ([S1 F1]%StronglySorted_inv & S2 & H). constructor.
      * apply IH. split_and!; [done..|]. set_solver.
      * apply Forall_app. split; [done|]. apply Forall_forall. set_solver.
Qed.

Lemma sl_insert_lt k l1 l2 :
  all_lt k l1 → sl_insert cmp k (l1 ++ l2) = l1 ++ sl_insert cmp k l2.
Proof. induction 1 as [|x l1 Hx _ IH]; simpl; [done|]. by rewrite Hx, IH. Qed.

Lemma sl_insert_gt k l1 l2 :
  all_gt k l2 → sl_insert cmp k (l1 ++ l2) = sl_insert cmp k l1 ++ l2.
Proof.
  intros H2. induction l1 as [|x l1 IH]; simpl.
  - destruct H2 as [|y l2 Hy]; simpl; [done|]. by rewrite Hy.
  - destruct (cmp x k); simpl; by rewrite ?IH.
Qed.

Lemma sl_delete_lt k l1 l2 :
  all_lt k l1 → sl_delete cmp k (l1 ++ l2) = l1 ++ sl_delete cmp k l2.
Proof. induction 1 as [|x l1 Hx _ IH]; simpl; [done|]. by rewrite Hx, IH. Qed.

Lemma sl_delete_id_gt k l : all_gt k l → sl_delete cmp k l = l.
Proof. induction 1 as [|x l Hx _ IH]; simpl; [done|]. by rewrite Hx, IH. Qed.

Lemma sl_delete_id_lt k l : all_lt k l → sl_delete cmp k l = l.
Proof. induction 1 as [|x l Hx _ IH]; simpl; [done|]. by rewrite Hx, IH. Qed.

Lemma sl_delete_gt k l1 l2 :
  all_gt k l2 → sl_delete cmp k (l1 ++ l2) = sl_delete cmp k l1 ++ l2.
Proof.
  intros H2. induction l1 as [|x l1 IH]; simpl.
  - by apply sl_delete_id_gt.
  - destruct (cmp x k); simpl; by rewrite ?IH.
Qed.

Lemma sl_find_lt k l1 l2 : all_lt k l1 → sl_find cmp k (l1 ++ l2) = sl_find cmp k l2.
Proof. induction 1 as [|x l1 Hx _ IH]; simpl; [done|]. by rewrite Hx. Qed.

Lemma sl_find_none_gt k l : all_gt k l → sl_find cmp k l = None.
Proof. induction 1 as [|x l Hx _ IH]; simpl; [done|]. by rewrite Hx. Qed.

Lemma sl_find_none_lt k l : all_lt k l → sl_find cmp k l = None.
Proof. induction 1 as [|x l Hx _ IH]; simpl; [done|]. by rewrite Hx. Qed.

Lemma sl_find_gt k l1 l2 : all_gt k l2 → sl_find cmp k (l1 ++ l2) = sl_find cmp k l1.
Proof.
  intros H2. induction l1 as [|x l1 IH]; simpl; [by apply sl_find_none_gt|].
  by destruct (cmp x k); simpl.
Qed.

Lemma sl_find_Some k l x : sl_find cmp k l = Some x → x ∈ l ∧ cmp x k = Eq.
Proof.
  induction l as [|y l IH]; simpl; [done|].
  destruct (cmp y k) eqn:E; simpl; intros H; [simplify_eq|..]; set_solver.
Qed.

Lemma sl_find_None k l : sl_find cmp k l = None ↔ (∀ x, x ∈ l → cmp x k ≠ Eq).
Proof.
  induction l as [|y l IH]; simpl.
  { split; [intros _ x Hx%elem_of_nil|]; done. }
  setoid_rewrite elem_of_cons. destruct (cmp y k) eqn:E; simpl; naive_solver congruence.
Qed.

Lemma sl_insert_elem k l x :
  x ∈ sl_insert cmp k l → x = k ∨ x ∈ l.
Proof.
  induction l as [|y l IH]; simpl; [set_solver|]. destruct (cmp y k); set_solver.
Qed.

Lemma sl_delete_elem k l x : x ∈ sl_delete cmp k l → x ∈ l.
Proof.
  induction l as [|y l IH]; simpl; [set_solver|]. destruct (cmp y k); set_solver.
Qed.

Lemma sl_insert_sorted k l : ssorted cmp l → ssorted cmp (sl_insert cmp k l).
Proof.
  unfold ssorted. induction 1 as [|x l Hs IH Hx]; simpl.
  { by constructor; constructor. }
  destruct (cmp x k) eqn:E.
  - constructor; [done|]. eapply Forall_impl; [exact Hx|]. intros y Hy.
    by rewrite <-(cmp_eq_l x k y).
  - constructor; [done|]. apply Forall_forall. intros y [->|Hy]%sl_insert_elem; [done|].
    rewrite Forall_forall in Hx. by apply Hx.
  - apply cmp_gt_lt in E; [|done]. constructor; [by constructor|]. constructor; [done|].
    eapply Forall_impl; [exact Hx|]. intros y Hy. by eapply cmp_lt_trans.
Qed.

Lemma sl_delete_sorted k l : ssorted cmp l → ssorted cmp (sl_delete cmp k l).
Proof.
  unfold ssorted. induction 1 as [|x l Hs IH Hx]; simpl; [constructor|].
  destruct (cmp x k); [done|..]; (constructor; [done|]); apply Forall_forall;
    intros y Hy%sl_delete_elem; rewrite Forall_forall in Hx; by apply Hx.
Qed.

Lemma sl_insert_length k l :
  ssorted cmp l →
  length (sl_insert cmp k l) = match sl_find cmp k l with Some _ => length l | None => S (length l) end.
Proof.
  unfold ssorted. induction 1 as [|x l Hs IH Hx]; simpl; [done|].
  destruct (cmp x k) eqn:E; simpl; [done| |].
  - rewrite IH. by destruct (sl_find cmp k l).
  - rewrite sl_find_none_gt; [done|]. eapply Forall_impl; [exact Hx|]. intros y Hy.
    apply cmp_lt_gt; [done|]. apply cmp_gt_lt in E; [|done]. by eapply cmp_lt_trans.
Qed.

Lemma sl_delete_length k l :
  length l =
    match sl_find cmp k l with
    | Some _ => S (length (sl_delete cmp k l))
    | None => length (sl_delete cmp k l)
    end.
Proof.
  induction l as [|x l IH]; simpl; [done|].
  destruct (cmp x k) eqn:E; simpl; [done|..]; rewrite IH; by destruct (sl_find cmp k l).
Qed.

(** ** Binary search *)

(** The point where a monotone test stops holding. *)
Definition partition_point (p : Row → bool) (l : list Row) (i : nat) : Prop :=
  i ≤ length l ∧ ∀ j x, l !! j = Some x → p x = bool_decide (j < i).

Lemma bs_loop_spec p l i fuel lo hi :
  partition_point p l i → hi - lo < fuel → lo ≤ i ≤ hi → hi ≤ length l →
  bs_loop p l fuel lo hi = Some i.
Proof.
  intros [Hl Hp]. revert lo hi. induction fuel as [|fuel IH]; intros lo hi Hf Hi Hh; [lia|].
  cbn [bs_loop]. case_decide as Hlt; [|f_equal; lia].
  pose proof (Nat.div_mod_eq (lo + hi) 2) as Hd.
  pose proof (Nat.mod_upper_bound (lo + hi) 2 ltac:(lia)) as Hm.
  set (mid := (lo + hi) / 2) in *.
  destruct (lookup_lt_is_Some_2 l mid ltac:(lia)) as [x Hx]. rewrite Hx. cbn [mbind option_bind].
  rewrite (Hp _ _ Hx). case_bool_decide; apply IH; lia.
Qed.

Lemma bs_spec p l i : partition_point p l i → bs p l = Some i.
Proof. intros Hp. apply bs_loop_spec; [done|lia|destruct Hp; lia|lia]. Qed.

Lemma partition_point_take p l i x :
  partition_point p l i → x ∈ take i l → p x = true.
Proof.
  intros [_ Hp] [j Hj]%list_elem_of_lookup. apply lookup_take_Some in Hj as [Hj Hlt].
  rewrite (Hp _ _ Hj). by apply bool_decide_eq_true.
Qed.

Lemma partition_point_drop p l i x :
  partition_point p l i → x ∈ drop i l → p x = false.
Proof.
  intros [_ Hp] [j Hj]%list_elem_of_lookup. rewrite lookup_drop in Hj.
  rewrite (Hp _ _ Hj). apply bool_decide_eq_false. lia.
Qed.

(** Any test that is monotone along a list has a partition point. *)
Lemma partition_exists (p : Row → bool) l :
  (∀ i j x y, i < j → l !! i = Some x → l !! j = Some y → p y = true → p x = true) →
  ∃ i, partition_point p l i.
Proof.
  induction l as [|a l IH]; intros Hm.
  { exists 0. by split. }
  destruct (p a) eqn:E.
  - destruct IH as (i & Hi & Hp).
    { intros i j x y Hij Hx Hy. apply (Hm (S i) (S j)); [lia|done..]. }
    exists (S i). split; [simpl; lia|]. intros [|j] x Hx; simpl in Hx.
    + simplify_eq. rewrite E. symmetry. apply bool_decide_eq_true. lia.
    + rewrite (Hp _ _ Hx). apply bool_decide_ext. lia.
  - exists 0. split; [simpl; lia|]. intros j x Hx. rewrite (bool_decide_eq_false_2 (j < 0)) by lia.
    destruct (p x) eqn:Ex; [|done]. rewrite <-E. symmetry.
    destruct j as [|j]; [simpl in Hx; congruence|].
    by apply (Hm 0 (S j) a x ltac:(lia)).
Qed.

Lemma ssorted_lookup l i j x y :
  ssorted cmp l → i < j → l !! i = Some x → l !! j = Some y → cmp x y = Lt.
Proof.
  intros Hs. revert i j. unfold ssorted in Hs. induction Hs as [|a l Hs IH Ha]; [done|].
  intros [|i] [|j] Hij Hx Hy; simpl in *; [lia| |lia|].
  - simplify_eq. rewrite Forall_lookup in Ha. by eapply Ha.
  - apply (IH i j); [lia|done..].
Qed.

(** A sorted list split at a key: what is below it, and what is not. *)
Lemma sorted_partition k l :
  ssorted cmp l → ∃ i, partition_point (λ x, is_lt (cmp x k)) l i.
Proof.
  intros Hs. apply partition_exists. intros i j x y Hij Hx Hy.
  pose proof (ssorted_lookup l i j x y Hs Hij Hx Hy) as Hlt.
  destruct (cmp y k) eqn:E; try done. intros _. by rewrite (cmp_lt_trans x y k).
Qed.

Lemma search_loop_spec k l i fuel lo hi :
  ssorted cmp l → partition_point (λ x, is_lt (cmp x k)) l i →
  hi - lo < fuel → lo ≤ i ≤ hi → hi ≤ length l →
  (∀ x, l !! hi = Some x → cmp x k = Gt) →
  search_loop cmp l k fuel lo hi =
    Some (match l !! i with
          | Some x => if is_eq (cmp x k) then inl i else inr i
          | None => inr i
          end).
Proof.
  intros Hs [Hl Hp]. revert lo hi.
  induction fuel as [|fuel IH]; intros lo hi Hf Hi Hh Hgt; [lia|].
  cbn [search_loop]. case_decide as Hlt.
  2:{ assert (lo = i) as -> by lia. assert (hi = i) as -> by lia.
      destruct (l !! i) as [x|] eqn:Hx; [|done]. by rewrite (Hgt x). }
  pose proof (Nat.div_mod_eq (lo + hi) 2) as Hd.
  pose proof (Nat.mod_upper_bound (lo + hi) 2 ltac:(lia)) as Hm.
  set (mid := (lo + hi) / 2) in *.
  destruct (lookup_lt_is_Some_2 l mid ltac:(lia)) as [x Hx]. rewrite Hx. cbn [mbind option_bind].
  pose proof (Hp _ _ Hx) as Hpx. destruct (cmp x k) eqn:E; simpl in Hpx; symmetry in Hpx.
  - apply bool_decide_eq_false in Hpx. destruct (decide (mid = i)) as [->|Hne].
    { by rewrite Hx, E. }
    destruct (lookup_lt_is_Some_2 l i ltac:(lia)) as [y Hy].
    pose proof (ssorted_lookup l i mid y x Hs ltac:(lia) Hy Hx).
    pose proof (Hp _ _ Hy) as Hpy. rewrite (cmp_lt_eq_trans cmp y x k) in Hpy by done.
    simpl in Hpy. symmetry in Hpy. apply bool_decide_eq_true in Hpy. lia.
  - apply bool_decide_eq_true in Hpx. apply IH; [lia|lia|lia|done].
  - apply bool_decide_eq_false in Hpx. apply IH; [lia|lia|lia|]. intros ? ?. congruence.
Qed.

(** A sorted list around a key: strictly below, the equal row if there is one,
    strictly above. *)
Lemma sorted_split k l i :
  ssorted cmp l → partition_point (λ x, is_lt (cmp x k)) l i →
  all_lt k (take i l) ∧
  match l !! i with
  | Some x => if is_eq (cmp x k) then all_gt k (drop (S i) l) else all_gt k (drop i l)
  | None => drop i l = []
  end.
Proof.
  intros Hs Hp. split.
  { apply Forall_forall. intros x Hx. pose proof (partition_point_take _ _ _ _ Hp Hx) as H.
    simpl in H. by destruct (cmp x k). }
  destruct (l !! i) as [x|] eqn:Hx.
  2:{ apply lookup_ge_None in Hx. by apply drop_ge. }
  assert (all_gt x (drop (S i) l)) as Hgt.
  { apply Forall_forall. intros y [j Hj]%list_elem_of_lookup. rewrite lookup_drop in Hj.
    apply cmp_lt_gt; [done|]. by apply (ssorted_lookup l i (S i + j) x y); [|lia|..]. }
  destruct Hp as [_ Hp]. specialize (Hp i x Hx) as Hpx. rewrite bool_decide_eq_false_2 in Hpx by lia.
  destruct (cmp x k) eqn:E; simpl in *; [|done|].
  - eapply Forall_impl; [exact Hgt|]. intros y Hy. by rewrite <-(cmp_eq_r cmp y x k).
  - rewrite (drop_S l x i) by done. constructor; [done|].
    eapply Forall_impl; [exact Hgt|]. intros y Hy. by apply (cmp_gt_trans cmp y x k).
Qed.

Lemma search_spec k l :
  ssorted cmp l →
  ∃ i, i ≤ length l ∧ all_lt k (take i l) ∧
    ((∃ x, search cmp l k = Some (inl i) ∧ l !! i = Some x ∧ cmp x k = Eq ∧
           all_gt k (drop (S i) l)) ∨
     (search cmp l k = Some (inr i) ∧ all_gt k (drop i l))).
Proof.
  intros Hs. destruct (sorted_partition k l Hs) as [i Hp]. exists i.
  pose proof (sorted_split k l i Hs Hp) as [Hlt Hr]. split; [by destruct Hp|]. split; [done|].
  unfold search. rewrite (search_loop_spec k l i);
    [|done|done|lia|destruct Hp; lia|lia|by rewrite lookup_ge_None_2].
  destruct (l !! i) as [x|] eqn:Hx.
  - destruct (cmp x k) eqn:E; simpl in *; [left; exists x|right..]; done.
  - right. by rewrite Hr.
Qed.

(** ** Nodes *)

(** The rows below a list of children. *)
Definition kids (cs : list (bnode Row)) : list Row := concat (map elems cs).

Definition kids_ok (h : nat) (ks : list Row) (cs : list (bnode Row)) : Prop :=
  Forall (node_ok h) cs ∧ max_key <$> cs = Some <$> ks.

Lemma kids_app cs1 cs2 : kids (cs1 ++ cs2) = kids cs1 ++ kids cs2.
Proof. unfold kids. by rewrite map_app, concat_app. Qed.

Lemma kids_middle cs i c :
  cs !! i = Some c → kids cs = kids (take i cs) ++ elems c ++ kids (drop (S i) cs).
Proof. intros H. rewrite <-(take_drop_middle cs i c H) at 1. by rewrite kids_app. Qed.

Lemma kids_length h ks cs : kids_ok h ks cs → length ks = length cs.
Proof.
  intros [_ H]. apply (f_equal length) in H. by rewrite !length_fmap in H.
Qed.

Lemma kids_lookup h ks cs i c :
  kids_ok h ks cs → cs !! i = Some c →
  node_ok h c ∧ ∃ m, ks !! i = Some m ∧ max_key c = Some m.
Proof.
  intros [Hf He] Hc. split; [by eapply Forall_lookup_1|].
  apply (f_equal (.!! i)) in He. rewrite !list_lookup_fmap, Hc in He. simpl in He.
  destruct (ks !! i) as [m|]; simplify_eq/=. eauto.
Qed.

Lemma node_ok_internal h ks cs :
  node_ok (S h) (Internal ks cs) ↔ kids_ok h ks cs ∧ 0 < length cs ≤ MAX_NODE_SIZE.
Proof. unfold kids_ok. simpl. tauto. Qed.

Lemma node_ok_nonempty h n : node_ok h n → elems n ≠ [].
Proof.
  revert n. induction h as [|h IH]; intros [ks|ks cs]; try done.
  - simpl. intros H. destruct ks; simpl in *; [lia|done].
  - intros [[Hf _] Hl]%node_ok_internal. destruct cs as [|c cs]; simpl in *; [lia|].
    apply Forall_cons in Hf as [Hc _]. apply IH in Hc. by destruct (elems c).
Qed.

Lemma max_key_last h n : node_ok h n → max_key n = last (elems n).
Proof.
  revert n. induction h as [|h IH]; intros [ks|ks cs]; try done.
  intros [Hk Hl]%node_ok_internal.
  destruct (last_take_drop cs) as (cs' & c & -> & _); [by destruct cs; simpl in *; [lia|]|].
  pose proof Hk as [Hf He]. apply Forall_app in Hf as [_ Hc]. rewrite Forall_singleton in Hc.
  unfold max_key at 1. simpl. rewrite map_app, concat_app. simpl. rewrite app_nil_r.
  rewrite last_app. rewrite <-(IH c Hc).
  apply (f_equal last) in He. rewrite !fmap_last, last_snoc in He.
  destruct (last ks) as [m|]; simplify_eq/=. by rewrite He.
Qed.

Lemma elem_of_kids x cs : x ∈ kids cs → ∃ i c, cs !! i = Some c ∧ x ∈ elems c.
Proof.
  unfold kids. induction cs as [|c cs IH]; simpl; [by intros ?%elem_of_nil|].
  intros [H|H]%elem_of_app; [by exists 0, c|].
  destruct (IH H) as (i & d & Hd & Hx). by exists (S i), d.
Qed.

Lemma ssorted_last l x m :
  ssorted cmp l → last l = Some m → x ∈ l → cmp x m ≠ Gt.
Proof.
  intros Hs Hm Hx. apply last_Some in Hm as [l' ->].
  apply ssorted_app in Hs as (_ & _ & H). apply elem_of_app in Hx as [Hx|Hx].
  - rewrite (H x m) by set_solver. done.
  - apply list_elem_of_singleton in Hx as ->. by rewrite cmp_refl.
Qed.

Lemma kids_sorted_at cs i c :
  ssorted cmp (kids cs) → cs !! i = Some c →
  ssorted cmp (elems c) ∧ (∀ x y, x ∈ elems c → y ∈ kids (drop (S i) cs) → cmp x y = Lt) ∧
  (∀ x y, x ∈ kids (take i cs) → y ∈ elems c → cmp x y = Lt).
Proof.
  intros Hs Hc. rewrite (kids_middle cs i c Hc) in Hs.
  apply ssorted_app in Hs as (_ & Hs & H1). apply ssorted_app in Hs as (Hs & _ & H2).
  split_and!; [done|done|]. intros x y Hx Hy. apply H1; set_solver.
Qed.

Lemma kids_max_elem h ks cs i m :
  kids_ok h ks cs → ks !! i = Some m →
  ∃ c, cs !! i = Some c ∧ node_ok h c ∧ last (elems c) = Some m.
Proof.
  intros Hk Hm. pose proof (lookup_lt_Some _ _ _ Hm) as Hlt.
  rewrite (kids_length _ _ _ Hk) in Hlt. apply lookup_lt_is_Some in Hlt as [c Hc].
  destruct (kids_lookup _ _ _ _ _ Hk Hc) as (Hok & m' & Hm' & Hx). simplify_eq.
  exists c. by rewrite <-(max_key_last h).
Qed.

Lemma last_elem (l : list Row) m : last l = Some m → m ∈ l.
Proof. intros [l' ->]%last_Some. set_solver. Qed.

(** The separators of a sorted node are strictly increasing. *)
Lemma kids_keys_sorted h ks cs :
  kids_ok h ks cs → ssorted cmp (kids cs) →
  ∀ i j x y, i < j → ks !! i = Some x → ks !! j = Some y → cmp x y = Lt.
Proof.
  intros Hk Hs i j x y Hij Hx Hy.
  destruct (kids_max_elem _ _ _ _ _ Hk Hx) as (c & Hc & _ & Hlc).
  destruct (kids_max_elem _ _ _ _ _ Hk Hy) as (d & Hd & _ & Hld).
  destruct (kids_sorted_at cs i c Hs Hc) as (_ & H & _).
  apply H; [by apply last_elem|].
  rewrite (kids_middle (drop (S i) cs) (j - S i) d).
  2:{ rewrite lookup_drop. by replace (S i + (j - S i)) with j by lia. }
  apply last_elem in Hld. set_solver.
Qed.

Lemma kids_take_lt h ks cs i k :
  kids_ok h ks cs → ssorted cmp (kids cs) →
  (∀ j m, j < i → ks !! j = Some m → cmp m k = Lt) → all_lt k (kids (take i cs)).
Proof.
  intros Hk Hs Hlt. apply Forall_forall. intros x (j & c & Hc & Hx)%elem_of_kids.
  apply lookup_take_Some in Hc as [Hc Hj].
  destruct (kids_lookup _ _ _ _ _ Hk Hc) as (Hok & m & Hm & Hmax).
  rewrite (max_key_last h) in Hmax by done.
  destruct (kids_sorted_at cs j c Hs Hc) as (Hsc & _ & _).
  eapply (cmp_ngt_lt_trans cmp x m k); [by eapply ssorted_last|by eapply Hlt].
Qed.

Lemma kids_drop_gt h ks cs i m k :
  kids_ok h ks cs → ssorted cmp (kids cs) → ks !! i = Some m → cmp m k ≠ Lt →
  all_gt k (kids (drop (S i) cs)).
Proof.
  intros Hk Hs Hm Hge. apply Forall_forall. intros y Hy.
  destruct (kids_max_elem _ _ _ _ _ Hk Hm) as (c & Hc & _ & Hl).
  destruct (kids_sorted_at cs i c Hs Hc) as (_ & H & _).
  specialize (H m y (last_elem _ _ Hl) Hy). apply cmp_lt_gt; [done|].
  destruct (cmp m k) eqn:E; [|done|].
  - apply cmp_eq_sym in E; [|done]. by eapply cmp_eq_lt_trans.
  - apply cmp_gt_lt in E; [|done]. by eapply cmp_lt_trans.
Qed.

(** The child a key belongs to: everything to its left is below the key,
    everything to its right above it. *)
Lemma child_index_spec h ks cs k :
  kids_ok h ks cs → ssorted cmp (kids cs) → 0 < length cs →
  ∃ i c, child_index cmp ks k = Some i ∧ cs !! i = Some c ∧ node_ok h c ∧
    all_lt k (kids (take i cs)) ∧ all_gt k (kids (drop (S i) cs)).
Proof.
  intros Hk Hs Hpos. pose proof (kids_length _ _ _ Hk) as Hlen.
  destruct (partition_exists (λ x, is_lt (cmp x k)) ks) as [j Hp].
  { intros i j x y Hij Hx Hy. pose proof (kids_keys_sorted h ks cs Hk Hs i j x y Hij Hx Hy).
    destruct (cmp y k) eqn:E; try done. intros _. by rewrite (cmp_lt_trans x y k). }
  unfold child_index. rewrite (bs_spec _ _ _ Hp). cbn [mbind option_bind]. unfold clamp_last.
  destruct Hp as [Hj Hp]. assert (∀ i m, i < j → ks !! i = Some m → cmp m k = Lt) as Hlt.
  { intros i m Hi Hm. specialize (Hp i m Hm). rewrite bool_decide_eq_true_2 in Hp by done.
    by destruct (cmp m k). }
  case_decide as Hjl; [rewrite decide_False by lia|].
  - subst j. destruct (lookup_lt_is_Some_2 cs (length ks - 1) ltac:(lia)) as [c Hc].
    exists (length ks - 1), c. split_and!; [done|done|by eapply kids_lookup|..].
    + eapply kids_take_lt; [done..|]. intros. eapply Hlt; [|done]. lia.
    + rewrite drop_ge by lia. constructor.
  - destruct (lookup_lt_is_Some_2 ks j ltac:(lia)) as [m Hm].
    destruct (lookup_lt_is_Some_2 cs j ltac:(lia)) as [c Hc].
    exists j, c. split_and!; [done|done|by eapply kids_lookup|by eapply kids_take_lt|].
    eapply kids_drop_gt; [done..|]. specialize (Hp j m Hm).
    rewrite bool_decide_eq_false_2 in Hp by lia. by destruct (cmp m k).
Qed.

(** ** Lookup *)

Lemma find_leaf ks k :
  ssorted cmp ks → find cmp (Leaf ks) k = Some (sl_find cmp k ks).
Proof.
  intros Hs. simpl. destruct (search_spec k ks Hs) as (i & Hi & Hlt & [(x & -> & Hx & He & Hgt)|[-> Hgt]]);
    cbn [mbind option_bind].
  - rewrite Hx. cbn [mbind option_bind]. rewrite <-(take_drop_middle ks i x Hx).
    rewrite sl_find_lt by done. simpl. by rewrite He.
  - rewrite <-(take_drop i ks). by rewrite sl_find_lt, sl_find_none_gt.
Qed.

Lemma find_spec h n k :
  node_ok h n → ssorted cmp (elems n) → find cmp n k = Some (sl_find cmp k (elems n)).
Proof.
  revert n. induction h as [|h IH]; intros [ks|ks cs] Hok Hs; try done.
  { by apply find_leaf. }
  apply node_ok_internal in Hok as [Hk Hl]. change (elems (Internal ks cs)) with (kids cs) in *.
  cbn [find]. rewrite decide_False by lia.
  destruct (child_index_spec h ks cs k Hk Hs) as (i & c & -> & Hc & Hok & Hlt & Hgt); [lia|].
  cbn [mbind option_bind]. rewrite lookup_map_spec, Hc. simpl.
  destruct (kids_sorted_at cs i c Hs Hc) as (Hsc & _).
  rewrite (IH c) by done. rewrite (kids_middle cs i c Hc).
  by rewrite sl_find_lt, sl_find_gt.
Qed.

(** ** Insertion *)

Lemma kids_ok_set h ks cs i c m :
  kids_ok h ks cs → node_ok h c → max_key c = Some m →
  kids_ok h (<[i := m]> ks) (<[i := c]> cs).
Proof.
  intros [Hf He] Hc Hm. split; [by apply Forall_insert|].
  by rewrite !list_fmap_insert, He, Hm.
Qed.

Lemma kids_set cs i c :
  i < length cs → kids (<[i := c]> cs) = kids (take i cs) ++ elems c ++ kids (drop (S i) cs).
Proof. intros Hi. rewrite insert_take_drop by done. by rewrite kids_app. Qed.

Lemma kids_ok_app h ks1 ks2 cs1 cs2 :
  kids_ok h ks1 cs1 → kids_ok h ks2 cs2 → kids_ok h (ks1 ++ ks2) (cs1 ++ cs2).
Proof.
  intros [Hf1 He1] [Hf2 He2]. split; [by apply Forall_app|].
  by rewrite !fmap_app, He1, He2.
Qed.

Lemma kids_ok_take h ks cs i : kids_ok h ks cs → kids_ok h (take i ks) (take i cs).
Proof.
  intros [Hf He]. split; [by apply Forall_take|]. by rewrite !fmap_take, He.
Qed.

Lemma kids_ok_drop h ks cs i : kids_ok h ks cs → kids_ok h (drop i ks) (drop i cs).
Proof.
  intros [Hf He]. split; [by apply Forall_drop|]. by rewrite !fmap_drop, He.
Qed.

Lemma kids_ok_one h c m : node_ok h c → max_key c = Some m → kids_ok h [m] [c].
Proof. intros Hc Hm. split; [by apply Forall_singleton|]. simpl. by rewrite Hm. Qed.

Lemma kids_ok_insert h ks cs i c m :
  kids_ok h ks cs → node_ok h c → max_key c = Some m →
  kids_ok h (take i ks ++ m :: drop i ks) (take i cs ++ c :: drop i cs).
Proof.
  intros Hk Hc Hm. apply kids_ok_app; [by apply kids_ok_take|].
  apply (kids_ok_app h [m] _ [c]); [by apply kids_ok_one|by apply kids_ok_drop].
Qed.

Lemma max_key_Some h c : node_ok h c → ∃ m, max_key c = Some m.
Proof.
  intros Hc. rewrite (max_key_last h) by done. apply node_ok_nonempty in Hc.
  destruct (last_take_drop (elems c) Hc) as (l' & x & _ & ->). eauto.
Qed.

(** What an insertion into a subtree of height [h] delivers. *)
Definition set_post (h : nat) (old : list Row) (k : Row) (res : bnode Row * insert_result Row) : Prop :=
  match res with
  | (n', Existed) =>
      node_ok h n' ∧ elems n' = sl_insert cmp k old ∧ is_Some (sl_find cmp k old)
  | (n', Inserted) =>
      node_ok h n' ∧ elems n' = sl_insert cmp k old ∧ sl_find cmp k old = None
  | (n', Split r) =>
      node_ok h n' ∧ node_ok h r ∧ elems n' ++ elems r = sl_insert cmp k old ∧
      sl_find cmp k old = None
  end.

Lemma half_bounds l : MAX_NODE_SIZE < l → l ≤ S MAX_NODE_SIZE → 0 < l / 2 < l ∧ l / 2 ≤ MAX_NODE_SIZE ∧ l - l / 2 ≤ MAX_NODE_SIZE.
Proof.
  unfold MAX_NODE_SIZE. intros H1 H2. assert (l = 65) as -> by lia. vm_compute. lia.
Qed.

Lemma leaf_set_spec ks k :
  length ks ≤ MAX_NODE_SIZE → ssorted cmp ks →
  ∃ res, node_set cmp (Leaf ks) k = Some res ∧ set_post 0 ks k res.
Proof.
  intros Hl Hs. cbn [node_set].
  destruct (search_spec k ks Hs) as (i & Hi & Hlt & [(x & -> & Hx & He & Hgt)|[-> Hgt]]);
    cbn [mbind option_bind].
  - pose proof (lookup_lt_Some _ _ _ Hx) as Hlt'. rewrite vec_set_Some by done.
    cbn [mbind option_bind]. eexists. split; [done|]. cbn [set_post node_ok elems].
    assert (sl_insert cmp k ks = <[i := k]> ks) as ->.
    { rewrite insert_take_drop by done. rewrite <-(take_drop_middle ks i x Hx) at 1.
      rewrite sl_insert_lt by done. simpl. by rewrite He. }
    assert (sl_find cmp k ks = Some x) as ->.
    { rewrite <-(take_drop_middle ks i x Hx) at 1. rewrite sl_find_lt by done. simpl. by rewrite He. }
    rewrite length_insert. split_and!; [lia..|done|eauto].
  - rewrite vec_insert_Some by done. cbn [mbind option_bind].
    assert (sl_insert cmp k ks = take i ks ++ k :: drop i ks) as Hins.
    { rewrite <-(take_drop i ks) at 1. rewrite sl_insert_lt by done. f_equal.
      rewrite <-(app_nil_l (drop i ks)) at 1. by rewrite sl_insert_gt. }
    assert (sl_find cmp k ks = None) as Hnone.
    { rewrite <-(take_drop i ks). by rewrite sl_find_lt, sl_find_none_gt. }
    rewrite <-Hins. set (new := sl_insert cmp k ks) in *.
    assert (length new = S (length ks)) as Hnew.
    { rewrite Hins, length_app. simpl. rewrite length_take, length_drop. lia. }
    case_decide as Hbig.
    + destruct (half_bounds (length new)) as (? & ? & ?); [done|lia|].
      rewrite vec_split_off_Some by lia. cbn [mbind option_bind]. eexists. split; [done|].
      cbn [set_post node_ok elems]. rewrite length_take, length_drop, take_drop.
      split_and!; [lia..|done|done].
    + eexists. split; [done|]. cbn [set_post node_ok elems]. split_and!; [lia..|done|done].
Qed.

Lemma kids_insert_after cs i c r :
  i < length cs →
  kids (take (i + 1) (<[i := c]> cs) ++ r :: drop (i + 1) (<[i := c]> cs)) =
  kids (take i cs) ++ (elems c ++ elems r) ++ kids (drop (S i) cs).
Proof.
  intros Hi. rewrite take_insert_succ, drop_insert_succ by done.
  rewrite !kids_app. unfold kids. simpl. by rewrite app_nil_r, <-!(assoc_L (++)).
Qed.

(** A full node splits in two halves that are both well formed. *)
Lemma internal_split_ok h ks cs :
  kids_ok h ks cs → MAX_NODE_SIZE < length cs → length cs ≤ S MAX_NODE_SIZE →
  node_ok (S h) (Internal (take (length cs / 2) ks) (take (length cs / 2) cs)) ∧
  node_ok (S h) (Internal (drop (length cs / 2) ks) (drop (length cs / 2) cs)).
Proof.
  intros Hk H1 H2. destruct (half_bounds (length cs)) as (? & ? & ?); [done..|].
  rewrite !node_ok_internal, length_take, length_drop.
  split; (split; [|lia]); [by apply kids_ok_take|by apply kids_ok_drop].
Qed.

(** The update of an internal node once its child has been updated. *)
Lemma internal_set_spec h ks cs i c k child res :
  kids_ok h ks cs → 0 < length cs ≤ MAX_NODE_SIZE → cs !! i = Some c →
  all_lt k (kids (take i cs)) → all_gt k (kids (drop (S i) cs)) →
  child_index cmp ks k = Some i → node_set cmp c k = Some (child, res) →
  set_post h (elems c) k (child, res) →
  ∃ res', node_set cmp (Internal ks cs) k = Some res' ∧ set_post (S h) (kids cs) k res'.
Proof.
  intros Hk Hl Hc Hlt Hgt Hi Hset Hpost. pose proof (lookup_lt_Some _ _ _ Hc) as Hic.
  pose proof (kids_length _ _ _ Hk) as Hlen.
  assert (node_ok h child) as Hchild by (destruct res; apply Hpost).
  destruct (max_key_Some h child Hchild) as [m Hm].
  cbn [node_set]. rewrite Hi. cbn [mbind option_bind]. rewrite lookup_map_spec, Hc. cbn [fmap option_fmap option_map mbind option_bind].
  rewrite Hset. cbn [mbind option_bind]. rewrite vec_set_Some by done.
  cbn [mbind option_bind]. rewrite Hm. cbn [mbind option_bind]. rewrite vec_set_Some by lia.
  cbn [mbind option_bind].
  assert (kids_ok h (<[i:=m]> ks) (<[i:=child]> cs)) as Hk1 by by apply kids_ok_set.
  rewrite (kids_middle cs i c Hc).
  assert (sl_insert cmp k (kids (take i cs) ++ elems c ++ kids (drop (S i) cs))
          = kids (take i cs) ++ sl_insert cmp k (elems c) ++ kids (drop (S i) cs)) as Hins
    by by rewrite sl_insert_lt, sl_insert_gt.
  assert (sl_find cmp k (kids (take i cs) ++ elems c ++ kids (drop (S i) cs))
          = sl_find cmp k (elems c)) as Hfind by by rewrite sl_find_lt, sl_find_gt.
  assert (∀ n', elems n' = sl_insert cmp k (elems c) → kids (<[i:=n']> cs) =
            kids (take i cs) ++ sl_insert cmp k (elems c) ++ kids (drop (S i) cs)) as Hset1.
  { intros n' E. by rewrite kids_set, E. }
  destruct res as [| |r]; unfold set_post in Hpost.
  - destruct Hpost as (_ & He & Hf). eexists. split; [done|]. unfold set_post.
    rewrite node_ok_internal, length_insert, Hins, Hfind. split_and!; [done|lia|lia|by apply Hset1|done].
  - destruct Hpost as (_ & He & Hf). eexists. split; [done|]. unfold set_post.
    rewrite node_ok_internal, length_insert, Hins, Hfind. split_and!; [done|lia|lia|by apply Hset1|done].
  - destruct Hpost as (_ & Hr & He & Hf). destruct (max_key_Some h r Hr) as [rm Hrm].
    rewrite vec_set_Some by (rewrite length_insert; lia). cbn [mbind option_bind].
    rewrite Hrm. cbn [mbind option_bind]. rewrite list_insert_insert_eq.
    rewrite !vec_insert_Some by (rewrite length_insert; lia). cbn [mbind option_bind].
    pose proof (kids_ok_insert h _ _ (i + 1) r rm Hk1 Hr Hrm) as Hk2.
    pose proof (kids_insert_after cs i child r Hic) as Hkids. rewrite He in Hkids.
    set (cs2 := take (i + 1) (<[i:=child]> cs) ++ r :: drop (i + 1) (<[i:=child]> cs)) in *.
    set (ks2 := take (i + 1) (<[i:=m]> ks) ++ rm :: drop (i + 1) (<[i:=m]> ks)) in *.
    assert (length cs2 = S (length cs)) as Hl2.
    { unfold cs2. rewrite length_app. simpl. rewrite length_take, length_drop, length_insert. lia. }
    pose proof (kids_length _ _ _ Hk2) as Hlen2.
    case_decide as Hbig.
    + assert (length cs2 / 2 ≤ length cs2) as Hhalf by (apply Nat.Div0.div_le_upper_bound; lia).
      rewrite (vec_split_off_Some _ cs2) by done. cbn [mbind option_bind].
      rewrite (vec_split_off_Some _ ks2) by lia. cbn [mbind option_bind]. eexists. split; [done|]. unfold set_post.
      destruct (internal_split_ok h ks2 cs2 Hk2 Hbig) as [? ?]; [lia|].
      split_and!; [done..| |by rewrite Hfind]. rewrite Hins, <-Hkids.
      change (kids (take (length cs2 / 2) cs2) ++ kids (drop (length cs2 / 2) cs2) = kids cs2).
      by rewrite <-kids_app, take_drop.
    + eexists. split; [done|]. unfold set_post. rewrite node_ok_internal, Hins, Hfind.
      split_and!; [done|lia|lia|exact Hkids|done].
Qed.

Lemma node_set_spec h n k :
  node_ok h n → ssorted cmp (elems n) →
  ∃ res, node_set cmp n k = Some res ∧ set_post h (elems n) k res.
Proof.
  revert n. induction h as [|h IH]; intros [ks|ks cs] Hok Hs; try done.
  { apply leaf_set_spec; [apply Hok|done]. }
  apply node_ok_internal in Hok as [Hk Hl]. change (elems (Internal ks cs)) with (kids cs) in *.
  destruct (child_index_spec h ks cs k Hk Hs) as (i & c & Hi & Hc & Hok & Hlt & Hgt); [lia|].
  destruct (kids_sorted_at cs i c Hs Hc) as (Hsc & _).
  destruct (IH c Hok Hsc) as ([child res] & Hset & Hpost).
  by eapply internal_set_spec.
Qed.

(** ** Merging siblings *)

Lemma height_ok h n : node_ok h n → height n = h.
Proof.
  revert n. induction h as [|h IH]; intros [ks|ks cs]; try done.
  intros [[Hf _] Hl]%node_ok_internal. destruct cs as [|c cs]; simpl in *; [lia|].
  apply Forall_cons in Hf as [Hc _]. by rewrite (IH c).
Qed.

(** A merge function that is right on two siblings of height [h]. *)
Definition merges (h : nat) (merge : bnode Row → bnode Row → option (bnode Row)) : Prop :=
  ∀ l r, node_ok h l → node_ok h r → length (node_keys l) + length (node_keys r) ≤ MAX_NODE_SIZE →
  ∃ n, merge l r = Some n ∧ node_ok h n ∧ elems n = elems l ++ elems r.

(** Rearranging children without changing the rows below them. *)
Definition same_kids (h : nat) (cs : list (bnode Row)) (ks' : list Row) (cs' : list (bnode Row)) : Prop :=
  kids_ok h ks' cs' ∧ kids cs' = kids cs ∧ length cs' ≤ length cs ∧ (0 < length cs → 0 < length cs').

Lemma kids_two cs i l r :
  cs !! i = Some l → cs !! (i + 1) = Some r →
  cs = take i cs ++ l :: r :: drop (i + 2) cs.
Proof.
  intros Hl Hr. rewrite <-(take_drop_middle cs i l Hl) at 1. f_equal. f_equal.
  rewrite (drop_S cs r (S i)) by by rewrite <-Nat.add_1_r. by rewrite Nat.add_comm.
Qed.

Lemma try_merge_with_spec h merge ks cs i :
  merges h merge → kids_ok h ks cs →
  ∃ ks' cs' b, try_merge_with merge ks cs i = Some (ks', cs', b) ∧ same_kids h cs ks' cs'.
Proof.
  intros Hmerge Hk. unfold try_merge_with.
  destruct (cs !! i) as [l|] eqn:Hl; [|by exists ks, cs, false].
  destruct (cs !! (i + 1)) as [r|] eqn:Hr; [|by exists ks, cs, false].
  case_decide as Hfit; [|by exists ks, cs, false].
  pose proof (lookup_lt_Some _ _ _ Hr) as Hir. pose proof (kids_length _ _ _ Hk) as Hlen.
  destruct (kids_lookup _ _ _ _ _ Hk Hl) as (Hokl & ml & Hml & _).
  destruct (kids_lookup _ _ _ _ _ Hk Hr) as (Hokr & mr & Hmr & _).
  destruct (Hmerge l r) as (n & Hn & Hokn & Hen); [done..|].
  destruct (max_key_Some h n Hokn) as [m Hm].
  rewrite !vec_remove_Some by lia. cbn [mbind option_bind]. rewrite Hn. cbn [mbind option_bind].
  rewrite vec_set_Some by (rewrite length_app, length_take, length_drop; lia).
  cbn [mbind option_bind]. rewrite Hm. cbn [mbind option_bind].
  rewrite vec_set_Some by (rewrite length_app, length_take, length_drop; lia).
  cbn [mbind option_bind]. rewrite (remove_next cs i l n Hl), (remove_next ks i ml m Hml).
  eexists _, _, _. split; [done|]. split_and!.
  - apply kids_ok_app; [by apply kids_ok_take|].
    apply (kids_ok_app h [m] _ [n]); [by apply kids_ok_one|by apply kids_ok_drop].
  - rewrite (kids_two cs i l r Hl Hr) at 3. rewrite !kids_app. f_equal.
    unfold kids. simpl. by rewrite Hen, <-(assoc_L (++)).
  - rewrite length_app. simpl. rewrite length_take, length_drop. lia.
  - rewrite length_app. simpl. lia.
Qed.

Lemma same_kids_refl h ks cs : kids_ok h ks cs → same_kids h cs ks cs.
Proof. intros. unfold same_kids. by split_and!. Qed.

Lemma same_kids_trans h ks1 cs0 cs1 ks2 cs2 :
  same_kids h cs0 ks1 cs1 → same_kids h cs1 ks2 cs2 → same_kids h cs0 ks2 cs2.
Proof.
  intros (_ & E1 & L1 & P1) (Hk & E2 & L2 & P2). unfold same_kids. split_and!; [done|congruence|lia|tauto].
Qed.

Lemma merge_into_fuel_spec h fuel : h < fuel → merges h (merge_into_fuel fuel).
Proof.
  revert fuel. induction h as [|h IH]; intros [|fuel] Hf; try lia;
    intros [lk|lk lc] [rk|rk rc]; try done; intros Hl Hr Hfit; cbn [merge_into_fuel].
  - eexists. split; [done|]. simpl in *. rewrite length_app. split; [lia|done].
  - apply node_ok_internal in Hl as [Hkl Hll], Hr as [Hkr Hlr]. rewrite decide_False by lia.
    simpl in Hfit. rewrite (kids_length _ _ _ Hkl), (kids_length _ _ _ Hkr) in Hfit.
    destruct (try_merge_with_spec h (merge_into_fuel fuel) (lk ++ rk) (lc ++ rc) (length lc - 1))
      as (ks' & cs' & b & -> & Hk' & He & Hle & Hpos); [apply IH; lia|by apply kids_ok_app|].
    cbn [mbind option_bind]. rewrite length_app in Hle, Hpos. eexists. split; [done|].
    rewrite node_ok_internal. split; [split; [done|lia]|].
    change (kids cs' = kids lc ++ kids rc). by rewrite He, kids_app.
Qed.

Lemma merge_into_spec h : merges h merge_into.
Proof.
  intros l r Hl Hr Hfit. unfold merge_into. rewrite (height_ok h l Hl).
  apply merge_into_fuel_spec; [lia|done..].
Qed.

Lemma node_ok_not_empty h n : node_ok h n → is_empty_node n = false.
Proof.
  destruct h, n as [ks|ks cs]; try done; simpl; intros; apply bool_decide_eq_false; lia.
Qed.

Lemma merge_scan_spec h j ks cs :
  kids_ok h ks cs → ∃ ks' cs', merge_scan j ks cs = Some (ks', cs') ∧ same_kids h cs ks' cs'.
Proof.
  intros Hk. unfold merge_scan.
  destruct (cs !! j) as [c|] eqn:Hc; [|eexists _, _; split; [done|by apply same_kids_refl]].
  case_decide; [|eexists _, _; split; [done|by apply same_kids_refl]].
  rewrite (node_ok_not_empty h c) by by apply (kids_lookup h ks cs j c).
  destruct (try_merge_with_spec h merge_into ks cs j (merge_into_spec h) Hk)
    as (ks' & cs' & b & H1 & H2). unfold try_merge. rewrite H1. cbn [mbind option_bind]. eauto.
Qed.

(** ** Deletion *)

(** A subtree from which the last row was deleted. *)
Definition emptied (n : bnode Row) : Prop := n = Leaf [] ∨ n = Internal [] [].

Definition del_post (h : nat) (old : list Row) (k : Row) (res : bnode Row * bool) : Prop :=
  res.2 = bool_decide (is_Some (sl_find cmp k old)) ∧ elems res.1 = sl_delete cmp k old ∧
  (node_ok h res.1 ∨ emptied res.1).

Lemma emptied_elems n : emptied n → elems n = [] ∧ is_empty_node n = true ∧ node_keys n = [].
Proof. by intros [->| ->]. Qed.

Lemma leaf_delete_spec ks k :
  length ks ≤ MAX_NODE_SIZE → ssorted cmp ks →
  ∃ res, node_delete cmp (Leaf ks) k = Some res ∧ del_post 0 ks k res.
Proof.
  intros Hl Hs. cbn [node_delete].
  destruct (search_spec k ks Hs) as (i & Hi & Hlt & [(x & -> & Hx & He & Hgt)|[-> Hgt]]);
    cbn [mbind option_bind].
  - pose proof (lookup_lt_Some _ _ _ Hx) as Hix. rewrite vec_remove_Some by done.
    cbn [mbind option_bind]. eexists. split; [done|]. unfold del_post; cbn [fst snd elems].
    assert (sl_find cmp k ks = Some x) as ->.
    { rewrite <-(take_drop_middle ks i x Hx) at 1. rewrite sl_find_lt by done. simpl. by rewrite He. }
    split; [done|]. split.
    { rewrite <-(take_drop_middle ks i x Hx) at 3. rewrite sl_delete_lt by done. simpl. by rewrite He. }
    destruct (take i ks ++ drop (S i) ks) eqn:E; [right; by left|left]. rewrite <-E.
    cbn [node_ok]. rewrite length_app, length_take, length_drop.
    apply (f_equal length) in E. rewrite length_app, length_take, length_drop in E. simpl in E. lia.
  - eexists. split; [done|]. unfold del_post; cbn [fst snd elems].
    assert (sl_find cmp k ks = None) as ->.
    { rewrite <-(take_drop i ks). by rewrite sl_find_lt, sl_find_none_gt. }
    split; [done|]. split.
    { rewrite <-(take_drop i ks). by rewrite sl_delete_lt, sl_delete_id_gt. }
    destruct ks; [right; by left|left]. simpl in *. lia.
Qed.

(** Where a deletion looks: past every row, or in a child with everything to
    its left below the key and everything to its right above it. *)
Lemma lower_bound_spec h ks cs k :
  kids_ok h ks cs → ssorted cmp (kids cs) →
  ∃ i, lower_bound cmp ks k = Some i ∧ all_lt k (kids (take i cs)) ∧
    ((i = length cs) ∨
     (∃ c, cs !! i = Some c ∧ node_ok h c ∧ all_gt k (kids (drop (S i) cs)))).
Proof.
  intros Hk Hs. pose proof (kids_length _ _ _ Hk) as Hlen.
  destruct (partition_exists (λ x, is_lt (cmp x k)) ks) as [j Hp].
  { intros i j x y Hij Hx Hy. pose proof (kids_keys_sorted h ks cs Hk Hs i j x y Hij Hx Hy).
    destruct (cmp y k) eqn:E; try done. intros _. by rewrite (cmp_lt_trans x y k). }
  exists j. unfold lower_bound. rewrite (bs_spec _ _ _ Hp). destruct Hp as [Hj Hp].
  split_and!; [done|..].
  { eapply kids_take_lt; [done..|]. intros i m Hi Hm. specialize (Hp i m Hm).
    rewrite bool_decide_eq_true_2 in Hp by done. by destruct (cmp m k). }
  destruct (decide (j = length cs)) as [|Hne]; [by left|right].
  destruct (lookup_lt_is_Some_2 ks j ltac:(lia)) as [m Hm].
  destruct (lookup_lt_is_Some_2 cs j ltac:(lia)) as [c Hc].
  exists c. split_and!; [done|by eapply kids_lookup|].
  eapply kids_drop_gt; [done..|]. specialize (Hp j m Hm).
  rewrite bool_decide_eq_false_2 in Hp by lia. by destruct (cmp m k).
Qed.

(** The rebalancing that follows the deletion from child [i]. *)
Lemma delete_rebalance h ks cs i child :
  kids_ok h ks cs → i < length cs → node_ok h child ∨ emptied child →
  ∃ ks' cs' ks2,
    (if is_empty_node child then Some ks else m ← max_key child; vec_set i m ks) = Some ks2 ∧
    ('(ks, cs) ← merge_scan i ks2 (<[i := child]> cs);
     '(ks, cs) ← (if decide (i = 0) then Some (ks, cs) else merge_scan (i - 1) ks cs);
     Some (ks, cs)) = Some (ks', cs') ∧
    kids_ok h ks' cs' ∧ length cs' ≤ length cs ∧
    kids cs' = kids (take i cs) ++ elems child ++ kids (drop (S i) cs).
Proof.
  intros Hk Hi Hchild. pose proof (kids_length _ _ _ Hk) as Hlen.
  assert (∃ ks2 ks3 cs3,
    (if is_empty_node child then Some ks else m ← max_key child; vec_set i m ks) = Some ks2 ∧
    merge_scan i ks2 (<[i := child]> cs) = Some (ks3, cs3) ∧
    kids_ok h ks3 cs3 ∧ length cs3 ≤ length cs ∧
    kids cs3 = kids (take i cs) ++ elems child ++ kids (drop (S i) cs))
    as (ks2 & ks3 & cs3 & H1 & H2 & Hk3 & Hl3 & He3).
  { destruct Hchild as [Hok|Hem].
    - destruct (max_key_Some h child Hok) as [m Hm]. rewrite (node_ok_not_empty h) by done.
      rewrite Hm. cbn [mbind option_bind]. rewrite vec_set_Some by lia.
      destruct (merge_scan_spec h i (<[i := m]> ks) (<[i := child]> cs)) as (ks3 & cs3 & E & S);
        [by apply kids_ok_set|].
      destruct S as (Hk3 & He3 & Hl3 & _). rewrite length_insert in Hl3.
      rewrite kids_set in He3 by done. eexists _, ks3, cs3. by split_and!.
    - destruct (emptied_elems child Hem) as (He & -> & Hks). exists ks.
      unfold merge_scan. rewrite list_lookup_insert_eq by done. rewrite Hks. cbn [length].
      rewrite decide_True by lia. destruct (emptied_elems child Hem) as (_ & -> & _).
      rewrite !vec_remove_Some by (rewrite ?length_insert; lia). cbn [mbind option_bind].
      eexists _, _. split_and!; [done|done|..].
      + rewrite <-Nat.add_1_r, drop_insert_succ by done. rewrite take_insert, decide_False by lia.
        rewrite Nat.add_1_r. apply kids_ok_app; [by apply kids_ok_take|by apply kids_ok_drop].
      + rewrite length_app, length_take, length_drop, length_insert. lia.
      + rewrite <-(Nat.add_1_r i), drop_insert_succ by done. rewrite take_insert, decide_False by lia.
        by rewrite kids_app, He, Nat.add_1_r. }
  assert (∃ ks4 cs4,
    (if decide (i = 0) then Some (ks3, cs3) else merge_scan (i - 1) ks3 cs3) = Some (ks4, cs4) ∧
    same_kids h cs3 ks4 cs4) as (ks4 & cs4 & H4 & Hk4 & He4 & Hl4 & _).
  { case_decide; [|by apply merge_scan_spec].
    eexists _, _. split; [done|by apply same_kids_refl]. }
  exists ks4, cs4, ks2. rewrite H1, H2. cbn [mbind option_bind]. rewrite H4.
  cbn [mbind option_bind]. split_and!; [done..|lia|congruence].
Qed.

Lemma node_delete_spec h n k :
  node_ok h n → ssorted cmp (elems n) →
  ∃ res, node_delete cmp n k = Some res ∧ del_post h (elems n) k res.
Proof.
  revert n. induction h as [|h IH]; intros [ks|ks cs] Hok Hs; try done.
  { apply leaf_delete_spec; [apply Hok|done]. }
  pose proof Hok as [Hk Hl]%node_ok_internal. change (elems (Internal ks cs)) with (kids cs) in *.
  destruct (lower_bound_spec h ks cs k Hk Hs) as (i & Hi & Hlt & [->|(c & Hc & Hokc & Hgt)]);
    cbn [node_delete]; rewrite Hi; cbn [mbind option_bind].
  { rewrite decide_True by lia. eexists. split; [done|]. unfold del_post; cbn [fst snd].
    rewrite take_ge in Hlt by lia. rewrite sl_find_none_lt by done.
    split_and!; [done| |by left]. by rewrite sl_delete_id_lt. }
  pose proof (lookup_lt_Some _ _ _ Hc) as Hic. rewrite decide_False by lia.
  rewrite lookup_map_spec, Hc. cbn [fmap option_fmap option_map mbind option_bind].
  destruct (kids_sorted_at cs i c Hs Hc) as (Hsc & _).
  destruct (IH c Hokc Hsc) as ([child removed] & -> & Hr & He & Hch). cbn [fst snd] in *.
  cbn [mbind option_bind]. rewrite vec_set_Some by done. cbn [mbind option_bind].
  destruct (delete_rebalance h ks cs i child Hk Hic Hch)
    as (ks' & cs' & ks2 & -> & Hscan & Hk' & Hl' & Hkids). cbn [mbind option_bind].
  destruct (merge_scan i ks2 (<[i := child]> cs)) as [[ks3 cs3]|]; [|done].
  cbn [mbind option_bind] in *.
  destruct (if decide (i = 0) then Some (ks3, cs3) else merge_scan (i - 1) ks3 cs3) as [[ks4 cs4]|];
    [|done]. cbn [mbind option_bind] in *. simplify_eq.
  eexists. split; [done|]. unfold del_post; cbn [fst snd].
  change (elems (Internal ks' cs')) with (kids cs'). rewrite Hkids, (kids_middle cs i c Hc).
  rewrite sl_find_lt, sl_find_gt, sl_delete_lt, sl_delete_gt, He by done. split_and!; [done..|].
  destruct cs' as [|c' cs'].
  - right. right. f_equal. pose proof (kids_length _ _ _ Hk') as E. by destruct ks'.
  - left. apply node_ok_internal. split; [done|]. simpl in *. lia.
Qed.

Lemma collapse_singles_ok h n :
  node_ok h n → elems (collapse_singles n) = elems n ∧ ∃ h', node_ok h' (collapse_singles n).
Proof.
  revert n. induction h as [|h IH]; intros [ks|ks cs] Hok; try done.
  { simpl. eauto. }
  destruct cs as [|c [|c' cs]].
  - apply node_ok_internal in Hok as [_ Hl]. simpl in Hl. lia.
  - apply node_ok_internal in Hok as [[Hf _] _]. apply Forall_cons in Hf as [Hc _].
    simpl. rewrite app_nil_r. by apply IH.
  - split; [done|]. by exists (S h).
Qed.

Lemma collapse_root_ok h n :
  node_ok h n ∨ emptied n →
  elems (collapse_root n) = elems n ∧ (collapse_root n = Leaf [] ∨ ∃ h', node_ok h' (collapse_root n)).
Proof.
  unfold collapse_root. intros [Hok|[->| ->]]; [|by split; [|left]..].
  destruct (collapse_singles_ok h n Hok) as (He & h' & Hok').
  destruct (collapse_singles n) as [ks|ks [|c cs]]; [eauto| |eauto].
  destruct h'; [done|]. apply node_ok_internal in Hok' as [_ Hl]. simpl in Hl. lia.
Qed.

(** ** The tree *)

Lemma btree_get_spec t k :
  btree_ok cmp t → btree_get cmp t k = Some (sl_find cmp k (elems (root t))).
Proof.
  intros ([Hr|[h Hr]] & Hs & _); unfold btree_get; [rewrite Hr in *; by apply find_leaf|].
  by apply (find_spec h).
Qed.

Lemma btree_add_spec t k :
  btree_ok cmp t →
  ∃ t', btree_add cmp t k = Some (t', bool_decide (sl_find cmp k (elems (root t)) = None)) ∧
    btree_ok cmp t' ∧ elems (root t') = sl_insert cmp k (elems (root t)).
Proof.
  intros (Hr & Hs & Hz). unfold btree_add.
  assert (∃ h res, node_set cmp (root t) k = Some res ∧ set_post h (elems (root t)) k res)
    as (h & [n res] & -> & Hpost).
  { destruct Hr as [Hr|[h Hr]]; [exists 0|exists h; by apply node_set_spec].
    rewrite Hr in *. apply leaf_set_spec; [simpl; unfold MAX_NODE_SIZE; lia|done]. }
  cbn [mbind option_bind]. pose proof (sl_insert_length k _ Hs) as Hlen.
  pose proof (sl_insert_sorted k _ Hs) as Hs'.
  destruct res as [| |r]; unfold set_post in Hpost.
  - destruct Hpost as (Hn & He & [x Hf]). rewrite Hf in *. eexists. split; [done|].
    unfold btree_ok; cbn [root size]. rewrite He. split_and!; [eauto|done|congruence|done].
  - destruct Hpost as (Hn & He & Hf). rewrite Hf in *. eexists. split; [done|].
    unfold btree_ok; cbn [root size]. rewrite He. split_and!; [eauto|done|lia|done].
  - destruct Hpost as (Hn & Hr' & He & Hf). rewrite Hf in *.
    destruct (max_key_Some h n Hn) as [lk Hlk]. destruct (max_key_Some h r Hr') as [rk Hrk].
    rewrite Hlk, Hrk. cbn [mbind option_bind]. eexists. split; [done|].
    unfold btree_ok; cbn [root size]. simpl elems. rewrite app_nil_r, He.
    split_and!; [|done|lia|done]. right. exists (S h). apply node_ok_internal. split.
    + apply (kids_ok_app h [lk] [rk] [n] [r]); by apply kids_ok_one.
    + simpl. unfold MAX_NODE_SIZE. lia.
Qed.

Lemma btree_delete_spec t k :
  btree_ok cmp t →
  ∃ t', btree_delete cmp t k = Some (t', bool_decide (is_Some (sl_find cmp k (elems (root t))))) ∧
    btree_ok cmp t' ∧ elems (root t') = sl_delete cmp k (elems (root t)).
Proof.
  intros (Hr & Hs & Hz). unfold btree_delete. destruct Hr as [Hr|[h Hr]].
  { rewrite Hr in *. eexists. split; [done|]. unfold btree_ok. split_and!; [by left|done..]. }
  destruct (node_delete_spec h (root t) k Hr Hs) as ([n removed] & -> & Hrem & He & Hok).
  cbn [fst snd] in *. pose proof (sl_delete_length k (elems (root t))) as Hlen.
  pose proof (sl_delete_sorted k _ Hs) as Hs'.
  destruct (collapse_root_ok h n Hok) as [Hce Hcr].
  destruct (sl_find cmp k (elems (root t))) as [x|] eqn:Hf; simpl in Hrem; subst removed.
  - rewrite decide_False by lia. eexists. split; [done|]. unfold btree_ok; cbn [root size].
    rewrite Hce, He. split_and!; [done|done|lia|done].
  - eexists. split; [done|]. unfold btree_ok; cbn [root size]. rewrite He.
    split_and!; [|done|congruence|done]. right. exists h.
    destruct Hok as [Hn|Hn]; [done|]. exfalso. apply node_ok_nonempty in Hr.
    apply emptied_elems in Hn as (Hn & _). rewrite <-He, Hn in Hlen. by destruct (elems (root t)).
Qed.

(** ** Bulk load *)

Lemma build_parent_ok h cs :
  0 < length cs ≤ MAX_NODE_SIZE → Forall (node_ok h) cs →
  ∃ n, build_parent cs = Some n ∧ node_ok (S h) n ∧ elems n = kids cs.
Proof.
  intros Hl Hf. unfold build_parent.
  assert (∃ ks, mapM max_key cs = Some ks ∧ max_key <$> cs = Some <$> ks) as (ks & -> & He).
  { clear Hl. induction Hf as [|c cs Hc _ (ks & IH1 & IH2)]; [by exists []|].
    destruct (max_key_Some h c Hc) as [m Hm]. exists (m :: ks).
    split; [cbn; by rewrite Hm, IH1|by rewrite !fmap_cons, Hm, IH2]. }
  cbn [mbind option_bind]. eexists. split; [done|]. split; [|done]. simpl. tauto.
Qed.

Lemma build_parents_ok h (chs : list (list (bnode Row))) :
  Forall (λ c : list (bnode Row), 0 < length c ≤ MAX_NODE_SIZE) chs → Forall (node_ok h) (concat chs) →
  ∃ ps, mapM build_parent chs = Some ps ∧ Forall (node_ok (S h)) ps ∧
    kids ps = kids (concat chs) ∧ length ps = length chs.
Proof.
  induction 1 as [|c chs Hc _ IH]; simpl; intros Hf; [by exists []|].
  apply Forall_app in Hf as [Hfc Hf]. destruct (IH Hf) as (ps & -> & Hp & He & Hl).
  destruct (build_parent_ok h c Hc Hfc) as (n & -> & Hn & Hen). simpl.
  eexists. split; [done|]. split; [by constructor|]. split; [|simpl; congruence].
  rewrite kids_app, <-He. unfold kids at 1. simpl. by rewrite Hen.
Qed.

Lemma build_levels_ok h fuel level :
  0 < length level ≤ S fuel → Forall (node_ok h) level →
  ∃ n h', build_levels fuel level = Some n ∧ node_ok h' n ∧ elems n = kids level.
Proof.
  revert h level. induction fuel as [|fuel IH]; intros h level Hl Hf;
    destruct level as [|n [|n' level]]; try (simpl in Hl; lia).
  1, 2: apply Forall_cons in Hf as [Hn _]; exists n, h; split_and!; [done..|];
    unfold kids; simpl; by rewrite app_nil_r.
  cbn [build_levels]. set (lv := n :: n' :: level) in *.
  destruct (build_parents_ok h (chunks MAX_NODE_SIZE lv)) as (ps & -> & Hp & He & Hlen).
  { apply chunks_sizes. unfold MAX_NODE_SIZE. lia. }
  { rewrite chunks_concat; [done|]. unfold MAX_NODE_SIZE. lia. }
  rewrite chunks_concat in He by (unfold MAX_NODE_SIZE; lia). cbn [mbind option_bind].
  pose proof (chunks_fuel_length (length lv) MAX_NODE_SIZE lv ltac:(unfold MAX_NODE_SIZE; lia)) as H2.
  fold (chunks MAX_NODE_SIZE lv) in H2. rewrite <-Hlen in H2.
  assert (2 ≤ length lv) by (unfold lv; simpl; lia).
  destruct (IH (S h) ps) as (m & h' & Hm & Hok & Hem); [|done|].
  { split; [|lia]. destruct ps; [|simpl; lia]. exfalso. unfold kids in He at 1. simpl in He.
    apply Forall_cons in Hf as [Hn%node_ok_nonempty _]. unfold kids, lv in He. simpl in He.
    by destruct (elems n). }
  exists m, h'. by rewrite Hem.
Qed.

Lemma btree_from_sorted_spec rows :
  ssorted cmp rows →
  ∃ t, btree_from_sorted rows = Some t ∧ btree_ok cmp t ∧ elems (root t) = rows.
Proof.
  intros Hs. unfold btree_from_sorted. case_decide as Hl.
  { exists btree_new. destruct rows; [|done]. unfold btree_ok. split_and!; [done|by left|done..]. }
  assert (0 < MAX_NODE_SIZE) as Hmax by (unfold MAX_NODE_SIZE; lia).
  pose proof (chunks_sizes MAX_NODE_SIZE rows Hmax) as Hc.
  pose proof (chunks_concat MAX_NODE_SIZE rows Hmax) as He.
  set (chs := chunks MAX_NODE_SIZE rows) in *.
  destruct (build_levels_ok 0 (length (Leaf <$> chs)) (Leaf <$> chs)) as (n & h & -> & Hn & Hen).
  { rewrite length_fmap. split; [|lia]. destruct chs; [|simpl; lia]. simpl in He. by subst. }
  { apply Forall_fmap. eapply Forall_impl; [exact Hc|]. done. }
  assert (kids (Leaf <$> chs) = rows) as Hk.
  { unfold kids. rewrite <-He. f_equal. clear. induction chs; simpl; by f_equal. }
  eexists. split; [done|]. unfold btree_ok; cbn [root size]. rewrite Hen, Hk. split_and!; eauto.
Qed.

(** ** Point lookups after an update *)

Lemma sl_find_insert k k' l :
  ssorted cmp l →
  sl_find cmp k' (sl_insert cmp k l) =
    if is_eq (cmp k k') then Some k else sl_find cmp k' l.
Proof.
  intros Hs. induction Hs as [|x l Hs IH Hx]; simpl; [done|].
  destruct (cmp x k) eqn:E; simpl.
  - rewrite (cmp_eq_l x k k') by done. by destruct (cmp k k').
  - rewrite IH. destruct (cmp x k') eqn:E'; simpl; try done.
    by rewrite (cmp_opp k' k), <-(cmp_eq_l x k' k), E.
  - done.
Qed.

Lemma sl_find_delete k k' l :
  ssorted cmp l →
  sl_find cmp k' (sl_delete cmp k l) =
    if is_eq (cmp k k') then None else sl_find cmp k' l.
Proof.
  intros Hs. induction Hs as [|x l Hs IH Hx]; simpl; [by destruct (is_eq _)|].
  destruct (cmp x k) eqn:E; simpl.
  - rewrite (cmp_eq_l x k k') by done. destruct (cmp k k') eqn:E'; simpl; try done.
    apply sl_find_None. intros y Hy Heq. rewrite Forall_forall in Hx.
    specialize (Hx y Hy). rewrite (cmp_eq_r cmp x y k'), (cmp_eq_l x k k'), E' in Hx; done.
  - rewrite IH. destruct (cmp x k') eqn:E'; simpl; try done.
    by rewrite (cmp_opp k' k), <-(cmp_eq_l x k' k), E.
  - rewrite IH. destruct (cmp x k') eqn:E'; simpl; try done.
    by rewrite (cmp_opp k' k), <-(cmp_eq_l x k' k), E.
Qed.

Lemma btree_has_spec t k :
  btree_ok cmp t →
  btree_has cmp t k = Some (bool_decide (is_Some (sl_find cmp k (elems (root t))))).
Proof.
  intros Hok. unfold btree_has. change (find cmp (root t) k) with (btree_get cmp t k).
  by rewrite btree_get_spec.
Qed.
End facts.

(** ** Traces: the tree against its specification *)

Inductive tree_op {Row : Type} : Type :=
  | OpAdd (key : Row)
  | OpDelete (key : Row)
  | OpGet (key : Row)
  | OpHas (key : Row)
  | OpFork.
Arguments tree_op : clear implicits.

Inductive tree_res {Row : Type} : Type :=
  | ResBool (b : bool)
  | ResRow (r : option Row)
  | ResUnit.
Arguments tree_res : clear implicits.

Section traces.
Context {Row : Type} (cmp : Row → Row → comparison).

Definition tree_step (t : btree Row) (o : tree_op Row) : option (btree Row * tree_res Row) :=
  match o with
  | OpAdd k => '(t, b) ← btree_add cmp t k; Some (t, ResBool b)
  | OpDelete k => '(t, b) ← btree_delete cmp t k; Some (t, ResBool b)
  | OpGet k => r ← btree_get cmp t k; Some (t, ResRow r)
  | OpHas k => b ← btree_has cmp t k; Some (t, ResBool b)
  | OpFork => Some (btree_fork t, ResUnit)
  end.

Fixpoint tree_run (t : btree Row) (os : list (tree_op Row)) : option (btree Row * list (tree_res Row)) :=
  match os with
  | [] => Some (t, [])
  | o :: os => '(t, r) ← tree_step t o; '(t, rs) ← tree_run t os; Some (t, r :: rs)
  end.

Definition spec_step (l : list Row) (o : tree_op Row) : list Row * tree_res Row :=
  match o with
  | OpAdd k => (sl_insert cmp k l, ResBool (bool_decide (sl_find cmp k l = None)))
  | OpDelete k => (sl_delete cmp k l, ResBool (bool_decide (is_Some (sl_find cmp k l))))
  | OpGet k => (l, ResRow (sl_find cmp k l))
  | OpHas k => (l, ResBool (bool_decide (is_Some (sl_find cmp k l))))
  | OpFork => (l, ResUnit)
  end.

Fixpoint spec_run (l : list Row) (os : list (tree_op Row)) : list Row * list (tree_res Row) :=
  match os with
  | [] => (l, [])
  | o :: os =>
      let '(l, r) := spec_step l o in
      let '(l, rs) := spec_run l os in (l, r :: rs)
  end.

Context `{!TotalCmp cmp}.

Lemma tree_step_spec t o :
  btree_ok cmp t →
  ∃ t', tree_step t o = Some (t', (spec_step (elems (root t)) o).2) ∧
    btree_ok cmp t' ∧ elems (root t') = (spec_step (elems (root t)) o).1.
Proof.
  intros Hok. destruct o as [k|k|k|k|]; simpl.
  - destruct (btree_add_spec cmp t k Hok) as (t' & -> & ? & ?). eauto.
  - destruct (btree_delete_spec cmp t k Hok) as (t' & -> & ? & ?). eauto.
  - rewrite btree_get_spec by done. eauto.
  - rewrite btree_has_spec by done. eauto.
  - exists (btree_fork t). by destruct t.
Qed.

Lemma tree_run_spec t os :
  btree_ok cmp t →
  ∃ t', tree_run t os = Some (t', (spec_run (elems (root t)) os).2) ∧
    btree_ok cmp t' ∧ elems (root t') = (spec_run (elems (root t)) os).1.
Proof.
  revert t. induction os as [|o os IH]; simpl; intros t Hok; [by eauto|].
  destruct (tree_step_spec t o Hok) as (t1 & -> & Hok1 & He1). cbn [mbind option_bind].
  destruct (IH t1 Hok1) as (t2 & -> & Hok2 & He2). cbn [mbind option_bind].
  rewrite He1 in *. destruct (spec_step (elems (root t)) o) as [l1 r]; simpl in *.
  destruct (spec_run l1 os) as [l2 rs]. eauto.
Qed.
End traces.

(** [C10] A bulk load of strictly sorted rows followed by any sequence of add,
    delete, get, has and fork never panics, ends in a balanced tree whose nodes
    hold between 1 and 64 entries under exact separators, and returns the same
    answers and holds the same rows as the sorted list that specifies it. *)
Theorem btree_refines_sorted_list {Row} (cmp : Row → Row → comparison)
    (Hcmp : TotalCmp cmp) (rows : list Row) (Hs : ssorted cmp rows) (os : list (tree_op Row)) :
  ∃ t0 t, btree_from_sorted rows = Some t0 ∧
    tree_run cmp t0 os = Some (t, (spec_run cmp rows os).2) ∧
    btree_ok cmp t ∧ elems (root t) = (spec_run cmp rows os).1.
Proof.
  destruct (btree_from_sorted_spec cmp rows Hs) as (t0 & ? & Hok & He).
  destruct (tree_run_spec cmp t0 os Hok) as (t & Ht & ? & ?). rewrite He in *. eauto 10.
Qed.

Lemma btree_refines_sorted_list_witness :
  ∃ t0 t, btree_from_sorted [1; 3]%Z = Some t0 ∧
    tree_run Z.compare t0 [OpAdd 2; OpDelete 1; OpGet 2; OpHas 1]%Z =
      Some (t, [ResBool true; ResBool true; ResRow (Some 2%Z); ResBool false]) ∧
    btree_ok Z.compare t ∧ elems (root t) = [2; 3]%Z.
Proof.
  apply (btree_refines_sorted_list Z.compare Z_compare_total [1; 3]%Z).
  repeat constructor.
Defined.
