(* ===== verification/BTreeCursor.v ===== *)
(** * The lending cursor of the B+tree ([rust/src/btree.rs])

    Seek bounds and the forward and reverse cursors.  The spine is a list whose
    head is the top of the [Vec]; the cursor owns the nodes of its spine, so a
    later write to the tree cannot be seen through it.  Out-of-range indexing
    and underflow are [None].

    A cursor is specified by the list of rows it still has to yield; pulling
    it [n] times returns the first [n] of them and then [None] for ever. *)

From stdpp Require Import base list numbers option sorting sets.
From Stdlib Require Import Lia.
From S2P Require Import Prelude Values Rows BTree BTreeFacts.

(** ** Seek bounds *)

Inductive Bound : Type :=
  | Min
  | Max
  | Val (v : value).

Abbreviation RowBound := (list (nat * Bound)).

Definition row_bound_of (r : row) (sort : Sort) : option RowBound :=
  mapM (λ s, v ← r !! s.1; Some (s.1, Val v)) sort.

(** [bound.iter().find(|(c, _)| *c == col)]. *)
Abbreviation bound_at := assoc.

(** [None] where [compare_values] or [row.col] panics. *)
Fixpoint cmp_bound_row (sort : Sort) (bound : RowBound) (r : row) : option comparison :=
  match sort with
  | [] => Some Eq
  | (c, asc) :: sort' =>
      d ← match bound_at bound c with
          | None | Some Min => Some Lt
          | Some Max => Some Gt
          | Some (Val v) => x ← r !! c; compare_values v x
          end;
      if decide (d = Eq) then cmp_bound_row sort' bound r
      else Some (if (asc : bool) then d else CompOpp d)
  end.

(** Its total extension, as [row_cmp] is of [row_compare]. *)
Definition bound_cell_cmp (b : option Bound) (v : value) : comparison :=
  match b with
  | None | Some Min => Lt
  | Some Max => Gt
  | Some (Val w) => compare_predicate_values w v
  end.

Fixpoint bound_cmp (sort : Sort) (bound : RowBound) (r : row) : comparison :=
  match sort with
  | [] => Eq
  | (c, asc) :: sort' =>
      then_cmp (apply_dir (bound_cell_cmp (bound_at bound c) (cell r c)) asc)
        (bound_cmp sort' bound r)
  end.

(** What a seek needs of a bound: rows above a row the bound does not exceed
    lie strictly above the bound. *)
Class BoundCmp {Row : Type} (cmp : Row → Row → comparison) (bcmp : Row → comparison) : Prop :=
  bound_mono a b : cmp a b = Lt → bcmp a ≠ Gt → bcmp b = Lt.

(** ** The cursor *)

Section cursor.
Context {Row : Type}.

Record cursor := Cursor {
  stk : list (bnode Row * nat);
  leaf : option (bnode Row);
  pos : nat;
  rev_dir : bool;
  started : bool;
  snapshot : bnode Row
}.

Definition cursor_empty (reverse : bool) (n : bnode Row) : cursor :=
  Cursor [] None 0 reverse false n.

Definition with_stk (c : cursor) (s : list (bnode Row * nat)) : cursor :=
  Cursor s (leaf c) (pos c) (rev_dir c) (started c) (snapshot c).
Definition with_leaf (c : cursor) (l : option (bnode Row)) : cursor :=
  Cursor (stk c) l (pos c) (rev_dir c) (started c) (snapshot c).
Definition with_pos (c : cursor) (p : nat) : cursor :=
  Cursor (stk c) (leaf c) p (rev_dir c) (started c) (snapshot c).
Definition with_started (c : cursor) : cursor :=
  Cursor (stk c) (leaf c) (pos c) (rev_dir c) true (snapshot c).

Definition push_frame (c : cursor) (n : bnode Row) (i : nat) : cursor :=
  with_stk c ((n, i) :: stk c).

Definition current (c : cursor) : option Row :=
  match leaf c with
  | None => None
  | Some l =>
      if decide (pos c < length (node_keys l)) then node_keys l !! pos c else None
  end.

(** [BNode::child]. *)
Definition child (n : bnode Row) (i : nat) : option (bnode Row) :=
  match n with Internal _ cs => cs !! i | Leaf _ => None end.

Fixpoint descend_first (n : bnode Row) (c : cursor) : option cursor :=
  match n with
  | Leaf _ => Some (with_pos (with_leaf c (Some n)) 0)
  | Internal _ cs =>
      r ← lookup_map (λ ch, descend_first ch (push_frame c n 0)) cs 0;
      r
  end.

Fixpoint descend_last (n : bnode Row) (c : cursor) : option cursor :=
  match n with
  | Leaf ks => Some (with_pos (with_leaf c (Some n)) (length ks - 1))
  | Internal _ cs =>
      if decide (length cs = 0) then None
      else
        let idx := length cs - 1 in
        r ← lookup_map (λ ch, descend_last ch (push_frame c n idx)) cs idx;
        r
  end.

Fixpoint next_leaf_loop (c : cursor) (s : list (bnode Row * nat)) : option cursor :=
  match s with
  | [] => Some (with_leaf (with_stk c []) None)
  | (n, descended) :: s' =>
      if decide (descended + 1 < num_children n) then
        ch ← child n (descended + 1);
        descend_first ch (push_frame (with_stk c s') n (descended + 1))
      else next_leaf_loop c s'
  end.

Definition next_leaf (c : cursor) : option cursor := next_leaf_loop c (stk c).

Fixpoint prev_leaf_loop (c : cursor) (s : list (bnode Row * nat)) : option cursor :=
  match s with
  | [] => Some (with_leaf (with_stk c []) None)
  | (n, descended) :: s' =>
      if decide (0 < descended) then
        ch ← child n (descended - 1);
        descend_last ch (push_frame (with_stk c s') n (descended - 1))
      else prev_leaf_loop c s'
  end.

Definition prev_leaf (c : cursor) : option cursor := prev_leaf_loop c (stk c).

(** The number of leaves: each round of a [normalize] loop moves to another
    leaf of the snapshot, so one more than it is fuel enough. *)
Fixpoint leaves (n : bnode Row) : nat :=
  match n with
  | Leaf _ => 1
  | Internal _ cs => sum_list (map leaves cs)
  end.

Fixpoint normalize_forward_fuel (fuel : nat) (c : cursor) : option cursor :=
  match fuel with
  | O => None
  | S fuel =>
      match leaf c with
      | None => Some c
      | Some l =>
          if decide (pos c < length (node_keys l)) then Some c
          else c ← next_leaf c; normalize_forward_fuel fuel c
      end
  end.

Definition normalize_forward (c : cursor) : option cursor :=
  normalize_forward_fuel (S (S (leaves (snapshot c)))) c.

Fixpoint normalize_reverse_fuel (fuel : nat) (c : cursor) : option cursor :=
  match fuel with
  | O => None
  | S fuel =>
      match leaf c with
      | None => Some c
      | Some l =>
          if bool_decide (node_keys l ≠ []) && bool_decide (pos c < length (node_keys l))
          then Some c
          else c ← prev_leaf c; normalize_reverse_fuel fuel c
      end
  end.

Definition normalize_reverse (c : cursor) : option cursor :=
  normalize_reverse_fuel (S (S (leaves (snapshot c)))) c.

Definition step (c : cursor) : option cursor :=
  if rev_dir c then
    if decide (pos c = 0) then prev_leaf c else Some (with_pos c (pos c - 1))
  else
    let c := with_pos c (pos c + 1) in
    let in_leaf :=
      match leaf c with
      | Some l => bool_decide (pos c < length (node_keys l))
      | None => false
      end in
    if in_leaf then Some c else next_leaf c.

Definition next_row (c : cursor) : option (cursor * option Row) :=
  c ← (if started c then step c else Some (with_started c));
  Some (c, current c).

(** ** Seeks: [bcmp] compares the bound with a row *)

Context (bcmp : Row → comparison).

Definition child_index_bound (keys : list Row) : option nat :=
  lo ← bs (λ k, is_gt (bcmp k)) keys; clamp_last keys lo.

Definition leaf_lower_bound (keys : list Row) : option nat :=
  bs (λ k, is_gt (bcmp k)) keys.

(** The loop lowers [hi] on [Less] and raises [lo] otherwise. *)
Definition leaf_upper_bound (keys : list Row) : option nat :=
  bs (λ k, negb (is_lt (bcmp k))) keys.

(** The leaf position of [descend_seek]: an exclusive seek skips the one equal
    row. *)
Definition leaf_seek_pos (inclusive : bool) (ks : list Row) : option nat :=
  p ← leaf_lower_bound ks;
  if inclusive then Some p
  else if decide (p < length ks) then
    k ← ks !! p;
    Some (if is_eq (bcmp k) then p + 1 else p)
  else Some p.

Fixpoint descend_seek (inclusive : bool) (n : bnode Row) (c : cursor) : option cursor :=
  match n with
  | Leaf ks =>
      p ← leaf_seek_pos inclusive ks;
      Some (with_leaf (with_pos c p) (Some n))
  | Internal ks cs =>
      idx ← child_index_bound ks;
      r ← lookup_map (λ ch, descend_seek inclusive ch (push_frame c n idx)) cs idx;
      r
  end.

Fixpoint descend_seek_reverse (inclusive : bool) (n : bnode Row) (c : cursor) : option cursor :=
  match n with
  | Leaf ks =>
      j ← (if inclusive then leaf_upper_bound ks else leaf_lower_bound ks);
      let c := with_leaf c (Some n) in
      if decide (j = 0) then prev_leaf c else Some (with_pos c (j - 1))
  | Internal ks cs =>
      idx ← child_index_bound ks;
      r ← lookup_map (λ ch, descend_seek_reverse inclusive ch (push_frame c n idx)) cs idx;
      r
  end.
End cursor.
Arguments cursor : clear implicits.

(** The bound arrives as the comparison it induces. *)
Definition values_from {Row} (t : btree Row) (bound : option (Row → comparison))
    (inclusive : bool) : option (cursor Row) :=
  if decide (size t = 0) then Some (cursor_empty false (root t))
  else
    let c := cursor_empty false (root t) in
    c ← match bound with
        | None => descend_first (root t) c
        | Some b => descend_seek b inclusive (root t) c
        end;
    normalize_forward c.

Definition values_from_reversed {Row} (t : btree Row) (bound : option (Row → comparison))
    (inclusive : bool) : option (cursor Row) :=
  if decide (size t = 0) then Some (cursor_empty true (root t))
  else
    let c := cursor_empty true (root t) in
    c ← match bound with
        | None => descend_last (root t) c
        | Some b => descend_seek_reverse b inclusive (root t) c
        end;
    normalize_reverse c.

(** [n] pulls. *)
Fixpoint pulls {Row} (n : nat) (c : cursor Row) : option (list (option Row)) :=
  match n with
  | O => Some []
  | S n => '(c, r) ← next_row c; rs ← pulls n c; Some (r :: rs)
  end.

(** ** What a cursor still has to yield *)

Section spine.
Context {Row : Type}.
Implicit Types (c : cursor Row) (st : list (bnode Row * nat)).

Definition node_children (n : bnode Row) : list (bnode Row) :=
  match n with Leaf _ => [] | Internal _ cs => cs end.

(** The rows right, and left, of the spine. *)
Fixpoint after st : list Row :=
  match st with
  | [] => []
  | (n, i) :: st => kids (drop (S i) (node_children n)) ++ after st
  end.

Fixpoint before st : list Row :=
  match st with
  | [] => []
  | (n, i) :: st => before st ++ kids (take i (node_children n))
  end.

Definition leaf_keys c : list Row :=
  match leaf c with Some l => node_keys l | None => [] end.

Definition fwd c : list Row := drop (pos c) (leaf_keys c) ++ after (stk c).
Definition bwd c : list Row := before (stk c) ++ take (S (pos c)) (leaf_keys c).

Definition remaining c : list Row := if rev_dir c then reverse (bwd c) else fwd c.

Definition frame_ok (f : bnode Row * nat) : Prop :=
  ∃ h ks cs, f.1 = Internal ks cs ∧ Forall (node_ok h) cs ∧ f.2 < length cs.

(** A cursor on a row, or exhausted. *)
Definition good c : Prop :=
  Forall frame_ok (stk c) ∧
  match leaf c with
  | None => stk c = []
  | Some l => ∃ ks, l = Leaf ks ∧ pos c < length ks
  end.

Definition same_flags c c' : Prop :=
  rev_dir c' = rev_dir c ∧ started c' = started c ∧ snapshot c' = snapshot c.

Lemma node_ok_children h ks (cs : list (bnode Row)) :
  node_ok (S h) (Internal ks cs) → Forall (node_ok h) cs ∧ 0 < length cs.
Proof. intros [[Hf _] Hl]%node_ok_internal. split; [done|lia]. Qed.

Lemma frame_ok_intro h ks (cs : list (bnode Row)) i :
  Forall (node_ok h) cs → i < length cs → frame_ok (Internal ks cs, i).
Proof. intros. by exists h, ks, cs. Qed.

Lemma descend_first_spec h n c :
  node_ok h n → Forall frame_ok (stk c) →
  ∃ c', descend_first n c = Some c' ∧ good c' ∧ same_flags c c' ∧
    fwd c' = elems n ++ after (stk c).
Proof.
  revert n c. induction h as [|h IH]; intros [ks|ks cs] c Hn Hst; try done.
  - eexists. split; [done|]. simpl in Hn. split_and!; [|done|done].
    split; [done|]. exists ks. simpl. split; [done|lia].
  - apply node_ok_children in Hn as [Hf Hl]. cbn [descend_first]. rewrite lookup_map_spec.
    destruct cs as [|ch cs]; [simpl in Hl; lia|]. cbn [lookup list_lookup fmap option_fmap option_map mbind option_bind].
    pose proof Hf as [Hch _]%Forall_cons.
    destruct (IH ch (push_frame c (Internal ks (ch :: cs)) 0) Hch) as (c' & -> & Hg & Hs & He).
    { constructor; [|done]. by apply (frame_ok_intro h). }
    eexists. split; [done|]. split_and!; [done|done|]. rewrite He. cbn. by rewrite app_assoc.
Qed.

Lemma kids_snoc cs (ch : bnode Row) : kids (cs ++ [ch]) = kids cs ++ elems ch.
Proof. rewrite kids_app. unfold kids at 2. simpl. by rewrite app_nil_r. Qed.

Lemma descend_last_spec h n c :
  node_ok h n → Forall frame_ok (stk c) →
  ∃ c', descend_last n c = Some c' ∧ good c' ∧ same_flags c c' ∧
    bwd c' = before (stk c) ++ elems n.
Proof.
  revert n c. induction h as [|h IH]; intros [ks|ks cs] c Hn Hst; try done.
  - eexists. split; [done|]. simpl in Hn. split_and!; [|done|].
    + split; [done|]. exists ks. simpl. split; [done|lia].
    + unfold bwd. simpl. f_equal. apply take_ge. lia.
  - apply node_ok_children in Hn as [Hf Hl]. cbn [descend_last].
    rewrite decide_False by lia. rewrite lookup_map_spec.
    destruct (lookup_lt_is_Some_2 cs (length cs - 1) ltac:(lia)) as [ch Hch].
    rewrite Hch. cbn [fmap option_fmap option_map mbind option_bind].
    assert (node_ok h ch) as Hok by (by eapply Forall_lookup_1).
    destruct (IH ch (push_frame c (Internal ks cs) (length cs - 1)) Hok) as (c' & -> & Hg & Hs & He).
    { constructor; [|done]. apply (frame_ok_intro h); [done|lia]. }
    eexists. split; [done|]. split_and!; [done|done|]. rewrite He.
    cbn [push_frame with_stk stk before node_children fst elems]. rewrite <-app_assoc. f_equal.
    fold (kids cs). rewrite (kids_middle _ _ _ Hch), drop_ge by lia.
    unfold kids at 3. simpl. by rewrite app_nil_r.
Qed.

Lemma next_leaf_loop_spec c st :
  Forall frame_ok st →
  ∃ c', next_leaf_loop c st = Some c' ∧ good c' ∧ same_flags c c' ∧ fwd c' = after st.
Proof.
  induction 1 as [|[n i] st (h & ks & cs & Hn & Hf & Hi) Hst IH]; simpl in *.
  { eexists. split; [done|]. unfold fwd. cbn. by rewrite drop_nil. }
  subst n. cbn [num_children node_children]. case_decide as Hd.
  - simpl. destruct (lookup_lt_is_Some_2 cs (i + 1) Hd) as [ch Hch]. rewrite Hch.
    cbn [mbind option_bind].
    destruct (descend_first_spec h ch (push_frame (with_stk c st) (Internal ks cs) (i + 1)))
      as (c' & -> & Hg & Hs & He); [by eapply Forall_lookup_1|..].
    { constructor; [|done]. by apply (frame_ok_intro h). }
    eexists. split; [done|]. split_and!; [done|done|]. rewrite He.
    cbn [push_frame with_stk stk after node_children]. rewrite app_assoc. f_equal.
    replace (i + 1) with (S i) in * by lia.
    rewrite (drop_S cs ch (S i) Hch). done.
  - destruct IH as (c' & -> & Hg & Hs & He). eexists. split; [done|].
    split_and!; [done|done|]. rewrite He, drop_ge by lia. done.
Qed.

Lemma prev_leaf_loop_spec c st :
  Forall frame_ok st →
  ∃ c', prev_leaf_loop c st = Some c' ∧ good c' ∧ same_flags c c' ∧ bwd c' = before st.
Proof.
  induction 1 as [|[n i] st (h & ks & cs & Hn & Hf & Hi) Hst IH]; simpl in *.
  { eexists. split; [done|]. unfold bwd. cbn. done. }
  subst n. cbn [node_children]. case_decide as Hd.
  - simpl. destruct (lookup_lt_is_Some_2 cs (i - 1) ltac:(lia)) as [ch Hch]. rewrite Hch.
    cbn [mbind option_bind].
    destruct (descend_last_spec h ch (push_frame (with_stk c st) (Internal ks cs) (i - 1)))
      as (c' & -> & Hg & Hs & He); [by eapply Forall_lookup_1|..].
    { constructor; [|done]. apply (frame_ok_intro h); [done|lia]. }
    eexists. split; [done|]. split_and!; [done|done|]. rewrite He.
    cbn [push_frame with_stk stk before node_children]. rewrite <-app_assoc. f_equal.
    rewrite <-kids_snoc. f_equal. replace i with (S (i - 1)) at 2 by lia.
    by rewrite (take_S_r cs (i - 1) ch).
  - destruct IH as (c' & -> & Hg & Hs & He). eexists. split; [done|].
    split_and!; [done|done|]. rewrite He. replace i with 0 by lia.
    simpl. unfold kids. simpl. by rewrite app_nil_r.
Qed.

Lemma good_current c : good c → current c = head (remaining c).
Proof.
  intros [_ Hl]. unfold current, remaining, fwd, bwd, leaf_keys.
  destruct (leaf c) as [l|].
  - destruct Hl as (ks & -> & Hp). simpl. rewrite decide_True by done.
    destruct (lookup_lt_is_Some_2 ks (pos c) Hp) as [x Hx]. rewrite Hx. destruct (rev_dir c).
    + rewrite (take_S_r ks (pos c) x Hx), app_assoc, reverse_app. done.
    + rewrite (drop_S ks x (pos c) Hx). done.
  - rewrite Hl. simpl. rewrite drop_nil. by destruct (rev_dir c).
Qed.

Lemma good_step c :
  good c → ∃ c', step c = Some c' ∧ good c' ∧ same_flags c c' ∧ remaining c' = tail (remaining c).
Proof.
  intros [Hst Hl]. unfold step, remaining. destruct (rev_dir c) eqn:Hr.
  - case_decide as Hp.
    + destruct (prev_leaf_loop_spec c (stk c) Hst) as (c' & He & Hg & Hs & Hb).
      exists c'. unfold prev_leaf. split_and!; [done..|]. destruct Hs as (-> & _). rewrite Hr, Hb.
      unfold bwd, leaf_keys. rewrite Hp. destruct (leaf c) as [l|].
      * destruct Hl as (ks & -> & Hl). destruct ks as [|x ks]; [simpl in Hl; lia|]. simpl.
        by rewrite take_0, reverse_app.
      * rewrite Hl. done.
    + exists (with_pos c (pos c - 1)). split; [done|]. destruct (leaf c) as [l|] eqn:El.
      * destruct Hl as (ks & -> & Hl). split_and!; [|done|].
        -- split; [done|]. simpl. rewrite El. exists ks. split; [done|lia].
        -- cbn [with_pos rev_dir]. rewrite Hr. unfold bwd, leaf_keys; cbn [with_pos leaf pos stk].
           rewrite El. cbn [node_keys]. replace (S (pos c - 1)) with (pos c) by lia.
           destruct (lookup_lt_is_Some_2 ks (pos c) Hl) as [x Hx].
           by rewrite (take_S_r ks (pos c) x Hx), app_assoc, (reverse_app _ [x]).
      * split_and!; [|done|].
        -- split; [done|]. simpl. by rewrite El.
        -- cbn [with_pos rev_dir]. rewrite Hr. unfold bwd, leaf_keys; cbn [with_pos leaf pos stk].
           by rewrite El, Hl.
  - assert (∃ c', next_leaf (with_pos c (pos c + 1)) = Some c' ∧ good c' ∧
      same_flags c c' ∧ fwd c' = after (stk c)) as (c' & He & Hg & Hs & Hb).
    { apply (next_leaf_loop_spec (with_pos c (pos c + 1)) (stk c) Hst). }
    assert (∀ l, fwd c' = l → (if rev_dir c' then reverse (bwd c') else fwd c') = l) as Hc'.
    { destruct Hs as (-> & _). by rewrite Hr. }
    cbn [with_pos leaf pos]. unfold fwd at 2, leaf_keys. destruct (leaf c) as [l|] eqn:El.
    + destruct Hl as (ks & -> & Hl). cbn [node_keys].
      destruct (lookup_lt_is_Some_2 ks (pos c) Hl) as [x Hx].
      rewrite (drop_S ks x (pos c) Hx). simpl. case_bool_decide as Hp.
      * exists (with_pos c (pos c + 1)). split_and!; [done| |done|].
        -- split; [done|]. simpl. rewrite El. by exists ks.
        -- cbn [with_pos rev_dir]. rewrite Hr. unfold fwd, leaf_keys; cbn [with_pos leaf pos stk].
           rewrite El. simpl. by rewrite Nat.add_1_r.
      * exists c'. split_and!; [done..|]. apply Hc'. rewrite Hb, drop_ge by lia. done.
    + exists c'. split_and!; [done..|]. apply Hc'. rewrite Hb, Hl. simpl. by rewrite drop_nil.
Qed.
End spine.

(** ** Seeking *)

Section seek.
Context {Row : Type} (cmp : Row → Row → comparison) `{!TotalCmp cmp}.
Context (bcmp : Row → comparison) `{!BoundCmp cmp bcmp}.
Implicit Types (c : cursor Row).

(** The rows a scan from the bound wants, upwards and downwards. *)
Definition at_or_after (inclusive : bool) (x : Row) : bool :=
  if inclusive then negb (is_gt (bcmp x)) else is_lt (bcmp x).
Definition at_or_before (inclusive : bool) (x : Row) : bool :=
  if inclusive then negb (is_lt (bcmp x)) else is_gt (bcmp x).

Definition keep (p : Row → bool) (l : list Row) : list Row := filter (λ x, Is_true (p x)) l.

Lemma keep_app p l1 l2 : keep p (l1 ++ l2) = keep p l1 ++ keep p l2.
Proof. apply filter_app. Qed.

Lemma keep_all p l : Forall (λ x, p x = true) l → keep p l = l.
Proof.
  unfold keep. induction 1 as [|x l Hx _ IH]; [done|].
  rewrite filter_cons_True by (by rewrite Hx). by rewrite IH.
Qed.

Lemma keep_none p l : Forall (λ x, p x = false) l → keep p l = [].
Proof.
  unfold keep. induction 1 as [|x l Hx _ IH]; [done|].
  rewrite filter_cons_False; [done|]. rewrite Hx. by intros [].
Qed.

(** On a partitioned list the filters are a suffix and a prefix. *)
Lemma keep_drop p l i : partition_point p l i → keep (negb ∘ p) l = drop i l.
Proof.
  intros Hp. rewrite <-(take_drop i l) at 1. rewrite keep_app, keep_none, keep_all; [done|..];
    apply Forall_forall; intros x Hx; simpl.
  - by rewrite (partition_point_drop p l i x).
  - by rewrite (partition_point_take p l i x).
Qed.

Lemma keep_take p l i : partition_point p l i → keep p l = take i l.
Proof.
  intros Hp. rewrite <-(take_drop i l) at 1. rewrite keep_app, keep_all, keep_none, app_nil_r; [done|..];
    apply Forall_forall; intros x Hx; simpl.
  - by apply (partition_point_drop p l i x).
  - by apply (partition_point_take p l i x).
Qed.

Lemma keep_ext p q l : (∀ x, x ∈ l → p x = q x) → keep p l = keep q l.
Proof. intros H. apply filter_ext_elem. intros x Hx. by rewrite (H x Hx). Qed.

Lemma gt_partition l :
  (∀ i j x y, i < j → l !! i = Some x → l !! j = Some y → cmp x y = Lt) →
  ∃ i, partition_point (λ x, is_gt (bcmp x)) l i.
Proof.
  intros Hs. apply partition_exists. intros i j x y Hij Hx Hy Hg.
  destruct (bcmp x) eqn:E; [..|done]; exfalso.
  all: rewrite (bound_mono x y) in Hg; [done|by apply (Hs i j)|by rewrite E].
Qed.

Lemma nlt_partition l :
  ssorted cmp l → ∃ i, partition_point (λ x, negb (is_lt (bcmp x))) l i.
Proof.
  intros Hs. apply partition_exists. intros i j x y Hij Hx Hy Hg.
  destruct (bcmp x) eqn:E; [done| |done]; exfalso.
  rewrite (bound_mono x y) in Hg; [done|by apply (ssorted_lookup cmp l i j)|by rewrite E].
Qed.

Lemma ssorted_last_lt l x m :
  ssorted cmp l → last l = Some m → x ∈ l → x = m ∨ cmp x m = Lt.
Proof.
  intros Hs Hl Hx. destruct (last_take_drop l) as (l' & y & -> & Hy);
    [by intros ->|].
  rewrite last_snoc in Hl. simplify_eq. apply (ssorted_app cmp) in Hs as (_ & _ & Hs).
  set_solver.
Qed.

Lemma child_index_bound_spec h ks cs :
  kids_ok h ks cs → ssorted cmp (kids cs) → 0 < length cs →
  ∃ i ch, child_index_bound bcmp ks = Some i ∧ cs !! i = Some ch ∧ node_ok h ch ∧
    Forall (λ x, bcmp x = Gt) (kids (take i cs)) ∧
    Forall (λ x, bcmp x = Lt) (kids (drop (S i) cs)).
Proof.
  intros Hk Hs Hpos. pose proof (kids_length _ _ _ Hk) as Hlen.
  destruct (gt_partition ks) as [j Hp]; [by apply (kids_keys_sorted cmp h ks cs)|].
  unfold child_index_bound. rewrite (bs_spec _ _ _ Hp). cbn [mbind option_bind].
  destruct Hp as [Hj Hp].
  assert (∀ i, i ≤ j → Forall (λ x, bcmp x = Gt) (kids (take i cs))) as Htake.
  { intros i Hi. apply Forall_forall. intros x (l & ch & Hch & Hx)%elem_of_kids.
    apply lookup_take_Some in Hch as [Hch Hlt].
    destruct (kids_lookup h ks cs l ch Hk Hch) as (Hok & m & Hm & Hmax).
    rewrite (max_key_last h) in Hmax by done. specialize (Hp l m Hm).
    rewrite bool_decide_eq_true_2 in Hp by lia.
    destruct (kids_sorted_at cmp cs l ch Hs Hch) as (Hsc & _).
    destruct (ssorted_last_lt (elems ch) x m Hsc Hmax Hx) as [->|Hxm]; [by destruct (bcmp m)|].
    destruct (bcmp x) eqn:E; [..|done]; 
      by rewrite (bound_mono x m) in Hp by (done || by rewrite E). }
  unfold clamp_last. case_decide as Hjl; [rewrite decide_False by lia|].
  - subst j. destruct (lookup_lt_is_Some_2 cs (length ks - 1) ltac:(lia)) as [ch Hch].
    exists (length ks - 1), ch. split_and!; [done|done|by eapply kids_lookup|..].
    + apply Htake. lia.
    + rewrite drop_ge by lia. constructor.
  - destruct (lookup_lt_is_Some_2 cs j ltac:(lia)) as [ch Hch].
    destruct (kids_lookup h ks cs j ch Hk Hch) as (Hok & m & Hm & Hmax).
    exists j, ch. split_and!; [done|done|done|by apply Htake|].
    specialize (Hp j m Hm). rewrite bool_decide_eq_false_2 in Hp by lia.
    rewrite (max_key_last h) in Hmax by done. apply Forall_forall. intros x Hx.
    destruct (kids_sorted_at cmp cs j ch Hs Hch) as (_ & Hr & _).
    apply (bound_mono m x); [|by destruct (bcmp m)]. apply Hr; [|done].
    by apply (last_elem cmp).
Qed.

(** Below the child the seek descends into nothing is wanted upwards, above it
    everything is; the other way round downwards. *)
Lemma seek_child_after inclusive (cs : list (bnode Row)) i ch :
  cs !! i = Some ch →
  Forall (λ x, bcmp x = Gt) (kids (take i cs)) →
  Forall (λ x, bcmp x = Lt) (kids (drop (S i) cs)) →
  keep (at_or_after inclusive) (kids cs) =
    keep (at_or_after inclusive) (elems ch) ++ kids (drop (S i) cs).
Proof.
  intros Hch Ht Hd. rewrite (kids_middle _ _ _ Hch), !keep_app, (keep_none _ (kids (take i cs))),
    (keep_all _ (kids (drop _ _))); [done|..].
  - eapply Forall_impl; [exact Hd|]. intros x Hx. unfold at_or_after. by rewrite Hx; destruct inclusive.
  - eapply Forall_impl; [exact Ht|]. intros x Hx. unfold at_or_after. by rewrite Hx; destruct inclusive.
Qed.

Lemma seek_child_before inclusive (cs : list (bnode Row)) i ch :
  cs !! i = Some ch →
  Forall (λ x, bcmp x = Gt) (kids (take i cs)) →
  Forall (λ x, bcmp x = Lt) (kids (drop (S i) cs)) →
  keep (at_or_before inclusive) (kids cs) =
    kids (take i cs) ++ keep (at_or_before inclusive) (elems ch).
Proof.
  intros Hch Ht Hd. rewrite (kids_middle _ _ _ Hch), !keep_app, (keep_all _ (kids (take i cs))),
    (keep_none _ (kids (drop _ _))), app_nil_r; [done|..].
  - eapply Forall_impl; [exact Hd|]. intros x Hx. unfold at_or_before. by rewrite Hx; destruct inclusive.
  - eapply Forall_impl; [exact Ht|]. intros x Hx. unfold at_or_before. by rewrite Hx; destruct inclusive.
Qed.

Lemma leaf_seek_spec inclusive ks :
  ssorted cmp ks →
  ∃ p, leaf_seek_pos bcmp inclusive ks = Some p ∧ drop p ks = keep (at_or_after inclusive) ks.
Proof.
  intros Hs. destruct (gt_partition ks) as [p Hp]; [intros i j x y; by apply (ssorted_lookup cmp ks i j)|].
  unfold leaf_seek_pos, leaf_lower_bound. rewrite (bs_spec _ _ _ Hp). cbn [mbind option_bind].
  pose proof (keep_drop _ _ _ Hp) as Hd. destruct inclusive.
  { exists p. split; [done|]. rewrite <-Hd. by apply keep_ext. }
  case_decide as Hlt.
  - destruct (lookup_lt_is_Some_2 ks p Hlt) as [k Hk]. rewrite Hk. cbn [mbind option_bind].
    eexists. split; [done|].
    assert (keep (at_or_after false) ks = keep (at_or_after false) (drop p ks)) as ->.
    { rewrite <-(take_drop p ks) at 1. rewrite keep_app, keep_none; [done|].
      apply Forall_forall. intros x Hx. unfold at_or_after.
      pose proof (partition_point_take _ _ _ x Hp Hx) as H. simpl in H. by destruct (bcmp x). }
    rewrite (drop_S ks k p Hk). unfold keep.
    assert (Forall (λ x, at_or_after false x = true) (drop (S p) ks)) as Hall.
    { apply Forall_forall. intros x [j Hj]%list_elem_of_lookup. rewrite lookup_drop in Hj.
      destruct Hp as [_ Hp]. specialize (Hp p k Hk). rewrite bool_decide_eq_false_2 in Hp by lia.
      unfold at_or_after. rewrite (bound_mono k x); [done| |by destruct (bcmp k)].
      eapply (ssorted_lookup cmp _ p); [done| |done|exact Hj]. lia. }
    destruct Hp as [_ Hp]. specialize (Hp p k Hk). rewrite bool_decide_eq_false_2 in Hp by lia.
    destruct (bcmp k) eqn:E; simpl in *; [|..|done].
    + rewrite filter_cons_False by (unfold at_or_after; rewrite E; by intros []).
      rewrite Nat.add_1_r. symmetry. by apply keep_all.
    + rewrite filter_cons_True by (unfold at_or_after; by rewrite E).
      rewrite (drop_S ks k p Hk). f_equal. symmetry. by apply keep_all.
  - exists p. split; [done|]. rewrite drop_ge by lia. symmetry. apply keep_none.
    apply Forall_forall. intros x Hx. unfold at_or_after.
    rewrite <-(take_ge ks p) in Hx by lia.
    pose proof (partition_point_take _ _ _ x Hp Hx) as H. simpl in H. by destruct (bcmp x).
Qed.

Lemma descend_seek_spec h n c inclusive :
  node_ok h n → ssorted cmp (elems n) → Forall frame_ok (stk c) →
  ∃ c', descend_seek bcmp inclusive n c = Some c' ∧ Forall frame_ok (stk c') ∧
    same_flags c c' ∧ (∃ ks, leaf c' = Some (Leaf ks)) ∧
    fwd c' = keep (at_or_after inclusive) (elems n) ++ after (stk c).
Proof.
  revert n c. induction h as [|h IH]; intros [ks|ks cs] c Hn Hs Hst; try done.
  - destruct (leaf_seek_spec inclusive ks Hs) as (p & Hp & Hd). cbn [descend_seek].
    rewrite Hp. cbn [mbind option_bind]. eexists. split; [done|].
    split_and!; [done|done|by eexists|]. cbn [elems]. by rewrite <-Hd.
  - pose proof Hn as [Hk Hl]%node_ok_internal. cbn [descend_seek].
    destruct (child_index_bound_spec h ks cs) as (i & ch & -> & Hch & Hok & Ht & Hd); [done|done|lia|].
    cbn [mbind option_bind]. rewrite lookup_map_spec, Hch.
    cbn [fmap option_fmap option_map mbind option_bind].
    destruct (IH ch (push_frame c (Internal ks cs) i)) as (c' & -> & Hst' & Hfl & Hlf & He); [done|..].
    { by apply (kids_sorted_at cmp cs i). }
    { constructor; [|done]. apply (frame_ok_intro h); [apply Hk|by eapply lookup_lt_Some]. }
    eexists. split; [done|]. split_and!; [done..|]. rewrite He.
    simpl. fold (kids cs). rewrite (seek_child_after inclusive cs i ch) by done. by rewrite app_assoc.
Qed.

Lemma leaf_seek_reverse_spec (inclusive : bool) ks :
  ssorted cmp ks →
  ∃ j, (if inclusive then leaf_upper_bound bcmp ks else leaf_lower_bound bcmp ks) = Some j ∧
    j ≤ length ks ∧ take j ks = keep (at_or_before inclusive) ks.
Proof.
  intros Hs. destruct inclusive.
  - destruct (nlt_partition ks Hs) as [j Hp]. exists j. unfold leaf_upper_bound.
    rewrite (bs_spec _ _ _ Hp). split_and!; [done|by destruct Hp|].
    by rewrite <-(keep_take _ _ _ Hp).
  - destruct (gt_partition ks) as [j Hp]; [intros i j x y; by apply (ssorted_lookup cmp ks i j)|].
    exists j. unfold leaf_lower_bound. rewrite (bs_spec _ _ _ Hp).
    split_and!; [done|by destruct Hp|]. by rewrite <-(keep_take _ _ _ Hp).
Qed.

Lemma descend_seek_reverse_spec h n c inclusive :
  node_ok h n → ssorted cmp (elems n) → Forall frame_ok (stk c) →
  ∃ c', descend_seek_reverse bcmp inclusive n c = Some c' ∧ good c' ∧ same_flags c c' ∧
    bwd c' = before (stk c) ++ keep (at_or_before inclusive) (elems n).
Proof.
  revert n c. induction h as [|h IH]; intros [ks|ks cs] c Hn Hs Hst; try done.
  - destruct (leaf_seek_reverse_spec inclusive ks Hs) as (j & Hj & Hl & Ht).
    cbn [descend_seek_reverse elems]. rewrite Hj, <-Ht. cbn [mbind option_bind].
    case_decide as Hz.
    + subst j. rewrite take_0, app_nil_r.
      by apply (prev_leaf_loop_spec (with_leaf c (Some (Leaf ks))) (stk c)).
    + eexists. split; [done|]. split_and!; [|done|].
      * split; [done|]. exists ks. simpl. split; [done|lia].
      * unfold bwd. simpl. by replace (S (j - 1)) with j by lia.
  - pose proof Hn as [Hk Hl]%node_ok_internal. cbn [descend_seek_reverse].
    destruct (child_index_bound_spec h ks cs) as (i & ch & -> & Hch & Hok & Ht & Hd); [done|done|lia|].
    cbn [mbind option_bind]. rewrite lookup_map_spec, Hch.
    cbn [fmap option_fmap option_map mbind option_bind].
    destruct (IH ch (push_frame c (Internal ks cs) i)) as (c' & -> & Hg & Hfl & He); [done|..].
    { by apply (kids_sorted_at cmp cs i). }
    { constructor; [|done]. apply (frame_ok_intro h); [apply Hk|by eapply lookup_lt_Some]. }
    eexists. split; [done|]. split_and!; [done..|]. rewrite He.
    simpl. fold (kids cs). rewrite (seek_child_before inclusive cs i ch) by done. by rewrite app_assoc.
Qed.
End seek.

(** ** Whole scans *)

(** What [n] pulls of a cursor with the rows [l] ahead return. *)
Definition yields {Row} (n : nat) (l : list Row) : list (option Row) :=
  (Some <$> take n l) ++ replicate (n - length l) None.

Lemma yields_succ {Row} n (l : list Row) : yields (S n) l = head l :: yields n (tail l).
Proof. destruct l; unfold yields; simpl; [|done]. by rewrite take_nil, Nat.sub_0_r. Qed.

Section scan.
Context {Row : Type}.
Implicit Types (c : cursor Row).

Lemma good_with_started c :
  good c → good (with_started c) ∧ remaining (with_started c) = remaining c.
Proof. by intros Hg. Qed.

Lemma next_row_spec c :
  good c → ∃ c', next_row c = Some (c', head (if started c then tail (remaining c) else remaining c)) ∧
    good c' ∧ started c' = true ∧
    remaining c' = if started c then tail (remaining c) else remaining c.
Proof.
  intros Hg. unfold next_row. destruct (started c) eqn:Hst.
  - destruct (good_step c Hg) as (c' & -> & Hg' & (_ & Hs & _) & Hr). cbn [mbind option_bind].
    exists c'. rewrite (good_current c' Hg'), Hr, Hs. done.
  - cbn [mbind option_bind]. exists (with_started c).
    rewrite (good_current (with_started c)) by done. done.
Qed.

Lemma pulls_spec n c :
  good c →
  pulls n c = Some (yields n (if started c then tail (remaining c) else remaining c)).
Proof.
  revert c. induction n as [|n IH]; intros c Hg; [done|]. cbn [pulls].
  destruct (next_row_spec c Hg) as (c' & -> & Hg' & Hs' & Hr'). cbn [mbind option_bind].
  rewrite (IH c' Hg'), Hs', Hr', yields_succ. done.
Qed.

Lemma normalize_forward_spec c ks :
  Forall frame_ok (stk c) → leaf c = Some (Leaf ks) →
  ∃ c', normalize_forward c = Some c' ∧ good c' ∧ same_flags c c' ∧ fwd c' = fwd c.
Proof.
  intros Hst Hl. unfold normalize_forward. cbn [normalize_forward_fuel]. rewrite Hl.
  cbn [node_keys]. case_decide as Hp.
  - exists c. split_and!; [done| |done|done]. split; [done|]. rewrite Hl. by exists ks.
  - destruct (next_leaf_loop_spec c (stk c) Hst) as (c' & He & Hg & Hs & Hf).
    unfold next_leaf. rewrite He. cbn [mbind option_bind]. exists c'. split_and!; [|done|done|].
    + destruct Hg as [_ Hg]. destruct (leaf c') as [l|]; [|done].
      destruct Hg as (ks' & -> & Hlt). simpl. by rewrite decide_True.
    + rewrite Hf. unfold fwd, leaf_keys. rewrite Hl. simpl. by rewrite drop_ge by lia.
Qed.

Lemma normalize_reverse_good c : good c → normalize_reverse c = Some c.
Proof.
  intros [_ Hg]. unfold normalize_reverse. cbn [normalize_reverse_fuel].
  destruct (leaf c) as [l|]; [|done]. destruct Hg as (ks & -> & Hlt). simpl.
  rewrite (bool_decide_eq_true_2 (pos c < length ks)) by done.
  by destruct ks; [simpl in Hlt; lia|].
Qed.

(** The rows a scan wants, with no bound or with one. *)
Definition wanted (p : (Row → comparison) → Row → bool) (bound : option (Row → comparison))
    (l : list Row) : list Row :=
  match bound with None => l | Some b => keep (p b) l end.

Context (cmp : Row → Row → comparison) `{!TotalCmp cmp}.

Lemma wanted_nil p bound : wanted p bound [] = [].
Proof. by destruct bound. Qed.

Lemma btree_ok_cases (t : btree Row) :
  btree_ok cmp t →
  ssorted cmp (elems (root t)) ∧
  ((size t = 0 ∧ elems (root t) = []) ∨ (size t ≠ 0 ∧ ∃ h, node_ok h (root t))).
Proof.
  intros ([Hr|[h Hr]] & Hs & Hz); split; try done.
  - left. rewrite Hr in *. done.
  - right. split; [|eauto]. apply node_ok_nonempty in Hr. rewrite Hz.
    by destruct (elems (root t)).
Qed.

Lemma values_from_spec t bound inclusive n :
  btree_ok cmp t → (∀ b, bound = Some b → BoundCmp cmp b) →
  ∃ c, values_from t bound inclusive = Some c ∧
    pulls n c = Some (yields n (wanted (λ b, at_or_after b inclusive) bound (elems (root t)))).
Proof.
  intros [Hs [[Hz He]|[Hz [h Hok]]]]%btree_ok_cases Hb; unfold values_from.
  { rewrite decide_True by done. eexists. split; [done|].
    rewrite He, wanted_nil, pulls_spec; done. }
  rewrite decide_False by done. set (c0 := cursor_empty false (root t)).
  assert (∃ c', match bound with
      | None => descend_first (root t) c0
      | Some b => descend_seek b inclusive (root t) c0
      end = Some c' ∧ Forall frame_ok (stk c') ∧ same_flags c0 c' ∧
      (∃ ks, leaf c' = Some (Leaf ks)) ∧
      fwd c' = wanted (λ b, at_or_after b inclusive) bound (elems (root t)))
    as (c1 & -> & Hst & Hfl & [ks Hks] & Hf).
  { destruct bound as [b|]; simpl.
    - specialize (Hb b eq_refl).
      destruct (descend_seek_spec cmp b h (root t) c0 inclusive Hok Hs) as (c' & ? & ? & ? & ? & Hf);
        [done|]. exists c'. rewrite Hf, app_nil_r. done.
    - destruct (descend_first_spec h (root t) c0 Hok) as (c' & ? & [? Hg] & ? & Hf); [done|].
      exists c'. rewrite Hf, app_nil_r. split_and!; [done..| |done].
      apply node_ok_nonempty in Hok. destruct (leaf c') eqn:El; [naive_solver|].
      exfalso. apply Hok. rewrite app_nil_r in Hf. rewrite <-Hf. unfold fwd, leaf_keys.
      by rewrite El, Hg, drop_nil. }
  cbn [mbind option_bind].
  destruct (normalize_forward_spec c1 ks Hst Hks) as (c2 & -> & Hg & (Hr & Hs2 & _) & Hf2).
  exists c2. split; [done|]. destruct Hfl as (Hr1 & Hs1 & _). simpl in *.
  rewrite pulls_spec by done. unfold remaining. by rewrite Hs2, Hs1, Hr, Hr1, Hf2, Hf.
Qed.

Lemma values_from_reversed_spec t bound inclusive n :
  btree_ok cmp t → (∀ b, bound = Some b → BoundCmp cmp b) →
  ∃ c, values_from_reversed t bound inclusive = Some c ∧
    pulls n c =
      Some (yields n (reverse (wanted (λ b, at_or_before b inclusive) bound (elems (root t))))).
Proof.
  intros [Hs [[Hz He]|[Hz [h Hok]]]]%btree_ok_cases Hb; unfold values_from_reversed.
  { rewrite decide_True by done. eexists. split; [done|].
    rewrite He, wanted_nil, pulls_spec; done. }
  rewrite decide_False by done. set (c0 := cursor_empty true (root t)).
  assert (∃ c', match bound with
      | None => descend_last (root t) c0
      | Some b => descend_seek_reverse b inclusive (root t) c0
      end = Some c' ∧ good c' ∧ same_flags c0 c' ∧
      bwd c' = wanted (λ b, at_or_before b inclusive) bound (elems (root t)))
    as (c1 & -> & Hg & (Hr & Hst & _) & Hf).
  { destruct bound as [b|]; simpl.
    - specialize (Hb b eq_refl).
      by apply (descend_seek_reverse_spec cmp b h (root t) c0 inclusive Hok Hs).
    - by apply (descend_last_spec h (root t) c0 Hok). }
  cbn [mbind option_bind]. rewrite normalize_reverse_good by done. exists c1. split; [done|].
  rewrite pulls_spec by done. simpl in *. unfold remaining. by rewrite Hst, Hr, Hf.
Qed.
End scan.

(** ** Row bounds *)

Lemma bound_cmp_first (C : value → value → comparison) `{!TotalCmp C} w a b :
  C a b ≠ Gt → C w a ≠ Gt → (C w b = Eq ∧ C a b = Eq ∧ C w a = Eq) ∨ C w b = Lt.
Proof.
  intros Hab Hwa. destruct (C a b) eqn:E1; [..|done]; destruct (C w a) eqn:E2; try done.
  - left. by rewrite (cmp_eq_trans C w a b).
  - right. by rewrite (cmp_lt_eq_trans C w a b).
  - right. by rewrite (cmp_eq_lt_trans C w a b).
  - right. by rewrite (cmp_lt_trans w a b).
Qed.

#[export] Instance bound_cmp_mono sort bound : BoundCmp (row_cmp sort) (bound_cmp sort bound).
Proof.
  intros a b. induction sort as [|[c asc] sort IH]; [done|]. cbn [row_cmp bound_cmp].
  unfold bound_cell_cmp. destruct (bound_at bound c) as [[| |w]|].
  1, 2, 4: by destruct asc; simpl.
  pose proof (apply_dir_total compare_predicate_values asc) as HC.
  pose proof (bound_cmp_first (λ x y, apply_dir (compare_predicate_values x y) asc)
    w (cell a c) (cell b c)) as H. simpl in H.
  destruct (apply_dir (compare_predicate_values (cell a c) (cell b c)) asc) eqn:E1; [..|done];
    destruct (apply_dir (compare_predicate_values w (cell a c)) asc) eqn:E2; simpl; try done.
  all: specialize (H ltac:(done) ltac:(done)).
  1: by destruct H as [(-> & _)| ->].
  all: by intros; destruct H as [(_ & ? & ?)| ->].
Qed.

Lemma cmp_bound_row_cmp sort bound r d :
  cmp_bound_row sort bound r = Some d → bound_cmp sort bound r = d.
Proof.
  induction sort as [|[c asc] sort IH]; cbn [cmp_bound_row bound_cmp]; [congruence|].
  intros H. assert (∃ e, bound_cell_cmp (bound_at bound c) (cell r c) = e ∧
    (if decide (e = Eq) then cmp_bound_row sort bound r
     else Some (if asc then e else CompOpp e)) = Some d) as (e & -> & He).
  { destruct (bound_at bound c) as [[| |w]|]; simpl in *; try by eexists.
    unfold cell. destruct (r !! c) as [x|]; [|done]. simpl in *.
    destruct (compare_values w x) as [e|] eqn:E; [|done].
    exists e. split; [by apply compare_values_Some|done]. }
  destruct e; simpl in He; [by rewrite (IH He); destruct asc|..];
    injection He as <-; by destruct asc.
Qed.

(** A bound of a schema pins its columns to values of their types. *)
Definition bound_typed (types : list Z) (bound : RowBound) : Prop :=
  ∀ c b t, bound_at bound c = Some b → types !! c = Some t →
    match b with Val v => v = Absent ∨ v = Null ∨ predicate_type_rank v = t | _ => True end.

Lemma bound_cell_defined types bound r c :
  row_typed types r → c < length types → bound_typed types bound →
  ∃ d, match bound_at bound c with
    | None | Some Min => Some Lt
    | Some Max => Some Gt
    | Some (Val v) => x ← r !! c; compare_values v x
    end = Some d.
Proof.
  intros Hr Hc Hb. destruct (lookup_lt_is_Some_2 types c Hc) as [t Ht].
  destruct (bound_at bound c) as [[| |v]|] eqn:E; try by eexists.
  destruct (Forall2_lookup_l _ _ _ _ _ Hr Ht) as (x & -> & Hx). cbn [mbind option_bind].
  specialize (Hb c (Val v) t E Ht). simpl in Hb. rewrite compare_values_comparable.
  replace (comparable v x) with true; [by eexists|].
  symmetry. apply comparable_true. naive_solver congruence.
Qed.

(** A bound made of a row holds that row's cells. *)
Lemma row_bound_of_at b sort bound :
  row_bound_of b sort = Some bound →
  ∀ c asc, (c, asc) ∈ sort → bound_at bound c = Some (Val (cell b c)).
Proof.
  revert bound. induction sort as [|[k asc'] sort IH]; intros bound H c asc Hin; [set_solver|].
  unfold row_bound_of in H. cbn in H.
  destruct (b !! k) as [v|] eqn:Hk; [|done]. cbn in H.
  destruct (mapM _ sort) as [bs|] eqn:Hm; [|done]. injection H as <-. simpl.
  case_decide as Hd; [subst; unfold cell; by rewrite Hk|].
  apply (IH bs Hm c asc). set_solver.
Qed.

(** On rows of one schema the bound comparison never panics; a bound made
    of a row compares like that row; a bound orders with the rows (what lies
    above a row at or above the bound lies strictly above the bound). *)
Theorem cmp_bound_row_spec (types : list Z) (sort : Sort) (bound : RowBound) (r : row) :
  row_typed types r → Forall (λ s, s.1 < length types) sort → bound_typed types bound →
  cmp_bound_row sort bound r = Some (bound_cmp sort bound r) ∧
  (∀ b, row_bound_of b sort = Some bound → bound_cmp sort bound r = row_cmp sort b r) ∧
  BoundCmp (row_cmp sort) (bound_cmp sort bound).
Proof.
  intros Hr Hs Hb. split_and!; [|clear|apply _].
  - destruct (cmp_bound_row sort bound r) eqn:E; [by rewrite (cmp_bound_row_cmp _ _ _ _ E)|].
    exfalso. revert E. induction Hs as [|[c asc] sort Hc Hs IH]; [done|].
    cbn [cmp_bound_row]. simpl in Hc.
    assert (∃ d, match bound_at bound c with
      | None | Some Min => Some Lt | Some Max => Some Gt
      | Some (Val v) => x ← r !! c; compare_values v x end = Some d) as [d ->]
      by (by apply (bound_cell_defined types)).
    cbn [mbind option_bind]. by case_decide.
  - intros b Hb. pose proof (row_bound_of_at b sort bound Hb) as Hat. clear Hb.
    induction sort as [|[c asc] sort IH]; [done|].
    simpl. rewrite (Hat c asc) by set_solver. simpl. f_equal. apply IH. set_solver.
Qed.

Lemma cmp_bound_row_spec_witness :
  let bound := [(0, Val (Int (I64 5 I))); (1, Min)] in
  let r := [Int (I64 5 I); Str []] in
  cmp_bound_row [(0, true); (1, true)] bound r = Some (bound_cmp [(0, true); (1, true)] bound r) ∧
  bound_cmp [(0, true); (1, true)] bound r = Lt.
Proof.
  intros bound r. split; [|reflexivity].
  apply (cmp_bound_row_spec [3; 4]%Z); [repeat constructor; naive_solver..|].
  intros c b t Hb. destruct c as [|[|c]]; simpl in *; simplify_eq; simpl; [|done].
  intros [= <-]. by right; right.
Defined.

(** A forward scan from an optional bound never panics and yields exactly
    the rows at or after the bound (strictly after it when exclusive) in
    ascending order; once exhausted it stays exhausted. *)
Theorem values_from_scan (sort : Sort) (t : btree row) (bound : option RowBound)
    (inclusive : bool) (n : nat) :
  btree_ok (row_cmp sort) t →
  ∃ c, values_from t (bound_cmp sort <$> bound) inclusive = Some c ∧
    pulls n c =
      Some (yields n (wanted (λ b, at_or_after b inclusive) (bound_cmp sort <$> bound) (elems (root t)))).
Proof.
  intros Hok. apply (values_from_spec (row_cmp sort)); [done|].
  intros b Hb. destruct bound; simplify_eq/=. apply _.
Qed.

Lemma values_from_scan_witness :
  let r i := [Int (i64_of_Z i)] in
  let t := BTree (Leaf [r 1; r 3; r 5]%Z) 3 in
  ∃ c, values_from t (bound_cmp [(0, true)] <$> Some [(0, Val (Int (I64 3 I)))]) false = Some c ∧
    pulls 2 c = Some [Some (r 5%Z); None].
Proof.
  intros r t.
  apply (values_from_scan [(0, true)] t (Some [(0, Val (Int (I64 3 I)))]) false 2).
  split; [right; exists 0; simpl; unfold MAX_NODE_SIZE; lia|].
  split; [repeat constructor|done].
Defined.

(** A reverse scan from an optional bound never panics and yields exactly
    the rows at or before the bound (strictly before it when exclusive) in
    descending order; once exhausted it stays exhausted. *)
Theorem values_from_reversed_scan (sort : Sort) (t : btree row) (bound : option RowBound)
    (inclusive : bool) (n : nat) :
  btree_ok (row_cmp sort) t →
  ∃ c, values_from_reversed t (bound_cmp sort <$> bound) inclusive = Some c ∧
    pulls n c =
      Some (yields n (reverse
        (wanted (λ b, at_or_before b inclusive) (bound_cmp sort <$> bound) (elems (root t))))).
Proof.
  intros Hok. apply (values_from_reversed_spec (row_cmp sort)); [done|].
  intros b Hb. destruct bound; simplify_eq/=. apply _.
Qed.

Lemma values_from_reversed_scan_witness :
  let r i := [Int (i64_of_Z i)] in
  let t := BTree (Leaf [r 1; r 3; r 5]%Z) 3 in
  ∃ c, values_from_reversed t (bound_cmp [(0, true)] <$> Some [(0, Val (Int (I64 3 I)))]) true = Some c ∧
    pulls 3 c = Some [Some (r 3%Z); Some (r 1%Z); None].
Proof.
  intros r t.
  apply (values_from_reversed_scan [(0, true)] t (Some [(0, Val (Int (I64 3 I)))]) true 3).
  split; [right; exists 0; simpl; unfold MAX_NODE_SIZE; lia|].
  split; [repeat constructor|done].
Defined.
