(* ===== verification/Change.v ===== *)
(** * Changes, constraints and fetch requests ([rust/src/change.rs])

    The vocabulary sources and operators speak: lazily related nodes and the
    changes that carry them, source changes, equality constraints, and fetch
    requests.  A relationship's thunk is a function of [unit]; calling it again
    yields the same children, which is what the code relies on. *)

From stdpp Require Import base list numbers option sets.
From Stdlib Require Import Lia.
From S2P Require Import Prelude Values Rows.

(** ** Nodes and changes *)

Inductive node : Type :=
  | Node (nrow : row) (rels : list (nat * (unit → list node))).

Definition node_row (n : node) : row := let 'Node r _ := n in r.

Definition leaf_node (r : row) : node := Node r [].

Inductive change : Type :=
  | Add (n : node)
  | Remove (n : node)
  | Edit (n old : node)
  | Child (n : node) (rel : nat) (sub : change).

Inductive change_type := TAdd | TRemove | TEdit | TChild.

Definition change_type_of (c : change) : change_type :=
  match c with
  | Add _ => TAdd
  | Remove _ => TRemove
  | Edit _ _ => TEdit
  | Child _ _ _ => TChild
  end.

Definition primary_row (c : change) : row :=
  match c with
  | Add n | Remove n => node_row n
  | Edit n _ => node_row n
  | Child n _ _ => node_row n
  end.

(** ** Source changes *)

Inductive source_change : Type :=
  | SAdd (r : row)
  | SRemove (r : row)
  | SEdit (r old : row).

Definition source_row (c : source_change) : row :=
  match c with SAdd r | SRemove r => r | SEdit r _ => r end.

(** ** Constraints *)

Abbreviation Constraint := (list (nat * value)).
Abbreviation MultiConstraint := (list Constraint).

(** [row.col] panics out of range, [values_equal] on a type mismatch. *)
Definition constraint_matches (r : row) (c : Constraint) : option bool :=
  try_all (λ e, v ← r !! e.1; values_equal v e.2) c.

Definition constraint_matches_primary_key (c : Constraint) (pk : list nat) : bool :=
  if negb (length c =? length pk)%nat then false
  else forallb (λ p, existsb (λ e : nat * value, (e.1 =? p)%nat) c) pk.

Definition constraints_are_compatible (a b : Constraint) : option bool :=
  try_all (λ e, match assoc b e.1 with
                | None => Some true
                | Some vb => values_equal e.2 vb
                end) a.

Definition merge_constraints (base : option Constraint) (extra : Constraint) : Constraint :=
  match base with
  | None => extra
  | Some base =>
      map (λ e, match assoc extra e.1 with
                | Some ev => (e.1, ev)
                | None => (e.1, e.2)
                end) base ++
      filter (λ e, e.1 ∉ base.*1) extra
  end.

(** The loop over [0..from_key.len()]: the outer [option] is the panic of a key
    index out of range, the inner one the function's own [None]. *)
Fixpoint build_join_constraint (from_row : row) (from_key to_key : list nat) :
    option (option Constraint) :=
  match from_key with
  | [] => Some (Some [])
  | f :: from_key' =>
      v ← from_row !! f;
      if is_null v then Some None
      else
        match to_key with
        | [] => None
        | t :: to_key' =>
            match build_join_constraint from_row from_key' to_key' with
            | None => None
            | Some None => Some None
            | Some (Some rest) => Some (Some ((t, v) :: rest))
            end
        end
  end.

(** ** Fetch requests *)

Inductive Basis := At | After.

Record Start := MkStart { start_row : row; basis : Basis }.

Record FetchRequest := MkFetch {
  req_constraint : option Constraint;
  multi_constraints : list MultiConstraint;
  start : option Start;
  req_reverse : bool
}.

Definition fetch_all : FetchRequest := MkFetch None [] None false.

Definition fetch_with_constraint (c : Constraint) : FetchRequest :=
  MkFetch (Some c) [] None false.

Definition has_multi (r : FetchRequest) : bool :=
  existsb (λ mc : MultiConstraint, negb (bool_decide (mc = []))) (multi_constraints r).

(** ** Join overlays *)

Definition for_child_change (c : change) : option source_change :=
  match c with
  | Add n => Some (SAdd (node_row n))
  | Remove n => Some (SRemove (node_row n))
  | Edit n old => Some (SEdit (node_row n) (node_row old))
  | Child _ _ _ => None
  end.

(** ** Owned changes: what crosses an epoch boundary *)

Inductive owned_node : Type :=
  | ONode (orow : row) (orels : list (nat * list owned_node)).

Inductive owned_change : Type :=
  | OAdd (n : owned_node)
  | ORemove (n : owned_node)
  | OEdit (n old : owned_node)
  | OChild (n : owned_node) (rel : nat) (sub : owned_change).

Fixpoint materialize_node (n : node) : owned_node :=
  match n with
  | Node r rels =>
      ONode r (map (λ rl, match rl with (slot, thunk) => (slot, map materialize_node (thunk tt)) end) rels)
  end.

Fixpoint materialize_change (c : change) : owned_change :=
  match c with
  | Add n => OAdd (materialize_node n)
  | Remove n => ORemove (materialize_node n)
  | Edit n old => OEdit (materialize_node n) (materialize_node old)
  | Child n rel sub => OChild (ONode (node_row n) []) rel (materialize_change sub)
  end.

Definition materialize_change_preserving_node (c : change) : owned_change :=
  match c with
  | Child n rel sub => OChild (materialize_node n) rel (materialize_change sub)
  | other => materialize_change other
  end.

Definition materialize_change_edit_old_row_only (c : change) : owned_change :=
  match c with
  | Edit n old => OEdit (materialize_node n) (ONode (node_row old) [])
  | other => materialize_change other
  end.

Fixpoint rebuild_node (n : owned_node) : node :=
  match n with
  | ONode r rels =>
      Node r (map (λ rl, match rl with (slot, children) => (slot, λ _, map rebuild_node children) end) rels)
  end.

Fixpoint rebuild_change (c : owned_change) : change :=
  match c with
  | OAdd n => Add (rebuild_node n)
  | ORemove n => Remove (rebuild_node n)
  | OEdit n old => Edit (rebuild_node n) (rebuild_node old)
  | OChild n rel sub => Child (rebuild_node n) rel (rebuild_change sub)
  end.

(** ** Join equality *)

Definition present (v : value) : bool := negb (is_null v || is_absent v).

Lemma values_equal_unfold a b :
  values_equal a b =
    if present a && present b then
      if comparable a b then Some (is_eq (compare_predicate_values a b)) else None
    else Some false.
Proof. by destruct a, b. Qed.

Lemma values_equal_true a b :
  values_equal a b = Some true ↔
  present a = true ∧ present b = true ∧ predicate_type_rank a = predicate_type_rank b ∧
  compare_predicate_values a b = Eq.
Proof.
  rewrite values_equal_unfold. destruct (present a) eqn:Ha, (present b) eqn:Hb; simpl;
    [|naive_solver..].
  destruct (comparable a b) eqn:E.
  - apply comparable_true in E. split.
    + intros [= H]. rewrite is_eq_true in H. split_and!; [done..| |done].
      by destruct E as [->|[->|[->|[->|?]]]].
    + intros (_ & _ & _ & ->). done.
  - split; [done|]. intros (_ & _ & Hr & _).
    rewrite (proj2 (comparable_true a b)) in E; [done|]. tauto.
Qed.

Lemma values_equal_sym a b : values_equal a b = values_equal b a.
Proof.
  rewrite !values_equal_unfold, (andb_comm (present b)).
  assert (comparable b a = comparable a b) as ->.
  { apply eq_bool_prop_intro. rewrite !Is_true_true, !comparable_true. naive_solver. }
  rewrite (cmp_opp a b). by destruct (compare_predicate_values a b).
Qed.

(** Join-equal values are interchangeable, panics included. *)
Lemma values_equal_l a b c :
  values_equal a b = Some true → values_equal a c = values_equal b c.
Proof.
  intros (Ha & Hb & Hr & Hc)%values_equal_true. rewrite !values_equal_unfold, Ha, Hb.
  rewrite (cmp_eq_l a b c) by done.
  assert (comparable a c = comparable b c) as ->; [|done].
  unfold comparable. rewrite Hr. by destruct a, b.
Qed.

(** What the join of two rows means: every pair of key cells is join-equal. *)
Definition join_matches (from_row to_row : row) (from_key to_key : list nat) : Prop :=
  Forall2 (λ f t, ∃ v w, from_row !! f = Some v ∧ to_row !! t = Some w ∧
                         values_equal w v = Some true) from_key to_key.

(** Building the constraint of a join never panics on key columns the row
    has; the constraint it returns is matched by exactly the rows that join with
    the row, and it returns none only when no row can join. *)
Theorem build_join_constraint_spec (from_row : row) (from_key to_key : list nat) :
  length from_key = length to_key → Forall (λ f, f < length from_row) from_key →
  ∃ oc, build_join_constraint from_row from_key to_key = Some oc ∧
    ∀ to_row, match oc with Some c => constraint_matches to_row c = Some true | None => False end
      ↔ join_matches from_row to_row from_key to_key.
Proof.
  revert to_key. induction from_key as [|f fk IH]; intros [|t tk] Hl Hf; simplify_eq/=.
  { eexists. split; [done|]. intros r. split; [constructor|done]. }
  apply Forall_cons in Hf as [Hf Hfk].
  destruct (lookup_lt_is_Some_2 from_row f Hf) as [v Hv]. rewrite Hv. cbn [mbind option_bind].
  destruct (is_null v) eqn:Hn.
  { eexists. split; [done|]. intros r. split; [done|].
    intros [(v' & w & Hv' & _ & He) _]%Forall2_cons_1. simplify_eq.
    apply values_equal_true in He as (_ & Hp & _). by destruct v. }
  destruct (IH tk ltac:(lia) Hfk) as (oc & -> & Hoc).
  destruct oc as [c|]; (eexists; split; [done|]); intros r; unfold join_matches.
  - rewrite Forall2_cons. fold (join_matches from_row r fk tk). rewrite <-Hoc.
    unfold constraint_matches. rewrite !try_all_true, Forall_cons. cbn [fst snd].
    rewrite Hv. destruct (r !! t) as [w|]; cbn [mbind option_bind]; naive_solver.
  - split; [done|]. intros [_ H]%Forall2_cons. by apply Hoc in H.
Qed.

Lemma build_join_constraint_spec_witness :
  let from := [Int (I64 7 I); Str []] in
  ∃ oc, build_join_constraint from [0] [1] = Some oc ∧
    ∀ to_row, match oc with Some c => constraint_matches to_row c = Some true | None => False end
      ↔ join_matches from to_row [0] [1].
Proof.
  intros from. apply build_join_constraint_spec; [done|].
  constructor; [simpl; lia|constructor].
Defined.

(** ** Merging constraints *)

Lemma constraint_matches_true r c :
  constraint_matches r c = Some true ↔
  ∀ k v, (k, v) ∈ c → ∃ w, r !! k = Some w ∧ values_equal w v = Some true.
Proof.
  unfold constraint_matches. rewrite try_all_true, Forall_forall. split.
  - intros H k v Hin. specialize (H _ Hin). simpl in H.
    destruct (r !! k) as [w|]; [by exists w|done].
  - intros H [k v] Hin. destruct (H k v Hin) as (w & Hw & He). simpl. by rewrite Hw.
Qed.

Lemma elem_of_merge base extra k v :
  (k, v) ∈ merge_constraints (Some base) extra ↔
  (∃ u, (k, u) ∈ base ∧ v = default u (assoc extra k)) ∨ ((k, v) ∈ extra ∧ k ∉ base.*1).
Proof.
  unfold merge_constraints. rewrite elem_of_app, list_elem_of_filter.
  rewrite (list_elem_of_fmap _ base (k, v)). rewrite (and_comm (k ∉ _)).
  apply or_iff_compat_r. split.
  - intros ([k' u] & Heq & Hin). simpl in *. exists u.
    destruct (assoc extra k') eqn:E; simplify_eq; by rewrite E.
  - intros (u & Hin & ->). exists (k, u). split; [|done]. simpl. by destruct (assoc extra k).
Qed.

Lemma merge_columns base extra :
  (merge_constraints (Some base) extra).*1 = base.*1 ++ filter (λ k, k ∉ base.*1) extra.*1.
Proof.
  unfold merge_constraints. rewrite fmap_app. f_equal.
  - induction base as [|[k u] base IH]; simpl; [done|]. f_equal; [|done].
    by destruct (assoc extra k).
  - generalize (base.*1). intros ks. induction extra as [|[k v] extra IH]; [done|].
    rewrite fmap_cons, !filter_cons. simpl. case_decide; [by rewrite fmap_cons, IH|done].
Qed.

(** Merging keeps the base's columns first with the extra's values where
    both name a column; a row matches the merge of two compatible constraints
    exactly when it matches both. *)
Theorem merge_constraints_spec (base extra : Constraint) (r : row) :
  NoDup extra.*1 → constraints_are_compatible base extra = Some true →
  (constraint_matches r (merge_constraints (Some base) extra) = Some true ↔
   constraint_matches r base = Some true ∧ constraint_matches r extra = Some true) ∧
  (merge_constraints (Some base) extra).*1 = base.*1 ++ filter (λ k, k ∉ base.*1) extra.*1.
Proof.
  intros Hnd Hc. unfold constraints_are_compatible in Hc. rewrite try_all_true, Forall_forall in Hc.
  assert (∀ k u v, (k, u) ∈ base → assoc extra k = Some v → values_equal u v = Some true) as Hcomp.
  { intros k u v Hin He. specialize (Hc _ Hin). simpl in Hc. by rewrite He in Hc. }
  clear Hc. split; [|apply merge_columns].
  rewrite !constraint_matches_true. setoid_rewrite elem_of_merge. split.
  - intros H. split.
    + intros k u Hin. destruct (H k (default u (assoc extra k))) as (w & Hw & He); [by eauto|].
      exists w. split; [done|]. destruct (assoc extra k) as [v|] eqn:E; [|done]. simpl in He.
      rewrite values_equal_sym, (values_equal_l u v) by eauto. by rewrite values_equal_sym.
    + intros k v Hin. destruct (decide (k ∈ base.*1)) as [[[k' u] [-> Hb]]%list_elem_of_fmap|Hk];
        [|apply H; eauto].
      apply H. left. exists u. simpl in *. by rewrite (assoc_NoDup extra k' v).
  - intros [Hb He] k v [(u & Hin & ->)|[Hin _]]; [|by apply He].
    destruct (assoc extra k) as [v|] eqn:E; simpl; [|by apply Hb].
    by apply He, assoc_Some_elem.
Qed.

Lemma merge_constraints_spec_witness :
  let base := [(0, Int (I64 1 I)); (1, Bool true)] in
  let extra := [(2, Str []); (0, Float (F64 0x3ff0000000000000 I))] in
  let r := [Int (I64 1 I); Bool true; Str []] in
  (constraint_matches r (merge_constraints (Some base) extra) = Some true ↔
   constraint_matches r base = Some true ∧ constraint_matches r extra = Some true) ∧
  (merge_constraints (Some base) extra).*1 = [0; 1; 2].
Proof.
  intros base extra r. apply (merge_constraints_spec base extra r).
  - apply (bool_decide_unpack _). vm_compute. done.
  - vm_compute. reflexivity.
Defined.

(** A constraint matches the primary key when it names exactly its columns. *)
Lemma constraint_matches_primary_key_spec c pk :
  NoDup pk → constraint_matches_primary_key c pk = true ↔ pk ≡ₚ c.*1.
Proof.
  intros Hnd. unfold constraint_matches_primary_key.
  assert ((∀ p, p ∈ pk → existsb (λ e : nat * value, (e.1 =? p)%nat) c = true) ↔ pk ⊆ c.*1) as Hsub.
  { split; intros H p Hp; specialize (H p Hp).
    - apply existsb_exists in H as ([k v] & Hin & Heq%Nat.eqb_eq). simpl in Heq. subst.
      apply list_elem_of_fmap. exists (p, v). split; [done|]. by apply list_elem_of_In.
    - apply list_elem_of_fmap in H as ([k v] & -> & Hin). apply existsb_exists.
      exists (k, v). split; [by apply list_elem_of_In|]. apply Nat.eqb_refl. }
  destruct (length c =? length pk)%nat eqn:E; simpl.
  - apply Nat.eqb_eq in E. rewrite forallb_forall. setoid_rewrite <-list_elem_of_In. rewrite Hsub.
    split; [|by intros ->]. intros H. apply submseteq_length_Permutation.
    + by apply NoDup_submseteq.
    + rewrite length_fmap. lia.
  - split; [done|]. intros H%Permutation_length. rewrite length_fmap in H.
    apply Nat.eqb_neq in E. lia.
Qed.

(** ** Materialising changes *)

Section owned_node_ind.
Context (P : owned_node → Prop).
Context (IH : ∀ r rels, Forall (λ rl, Forall P rl.2) rels → P (ONode r rels)).

Fixpoint owned_node_nested_ind (n : owned_node) : P n :=
  match n with
  | ONode r rels =>
      IH r rels
        ((fix go rels : Forall (λ rl : nat * list owned_node, Forall P rl.2) rels :=
            match rels with
            | [] => Forall_nil_2 _
            | (slot, cs) :: rels' =>
                Forall_cons_2 _ (slot, cs) rels'
                  ((fix go2 cs : Forall P cs :=
                      match cs with
                      | [] => Forall_nil_2 _
                      | c :: cs' => Forall_cons_2 _ c cs' (owned_node_nested_ind c) (go2 cs')
                      end) cs)
                  (go rels')
            end) rels)
  end.
End owned_node_ind.

(** The nodes on a child path lose their relationships; the others keep them. *)
Fixpoint trim_path (c : owned_change) : owned_change :=
  match c with
  | OChild (ONode r _) rel sub => OChild (ONode r []) rel (trim_path sub)
  | c => c
  end.

Lemma map_ext_Forall {A B} (f g : A → B) l : Forall (λ x, f x = g x) l → map f l = map g l.
Proof. induction 1; simpl; congruence. Qed.

Lemma materialize_rebuild_node n : materialize_node (rebuild_node n) = n.
Proof.
  induction n as [r rels IH] using owned_node_nested_ind. simpl. f_equal. rewrite map_map.
  rewrite <-(map_id rels) at 2. apply map_ext_Forall.
  eapply Forall_impl; [exact IH|]. intros [slot cs] Hcs. simpl in *. f_equal.
  rewrite map_map. transitivity (map (λ x, x) cs); [by apply map_ext_Forall|apply map_id].
Qed.

(** Rebuilding an owned change and materialising it again returns it, with
    only the nodes of a child path trimmed to their rows: an epoch boundary
    loses nothing an operator above it reads. *)
Theorem materialize_rebuild (c : owned_change) :
  materialize_change (rebuild_change c) = trim_path c ∧
  (∀ n rel sub, c = OChild n rel sub →
     materialize_change_preserving_node (rebuild_change c) = OChild n rel (trim_path sub)) ∧
  for_child_change (rebuild_change c) =
    match c with
    | OAdd (ONode r _) => Some (SAdd r)
    | ORemove (ONode r _) => Some (SRemove r)
    | OEdit (ONode r _) (ONode o _) => Some (SEdit r o)
    | OChild _ _ _ => None
    end.
Proof.
  assert (∀ c, materialize_change (rebuild_change c) = trim_path c) as Hm.
  { clear. induction c as [n|n|n old|[r rels] rel sub IH];
      cbn [rebuild_change materialize_change trim_path];
      by rewrite ?materialize_rebuild_node, ?IH. }
  split_and!; [apply Hm| |].
  - intros n rel sub ->. simpl. by rewrite materialize_rebuild_node, Hm.
  - by destruct c as [[]|[]|[] []|].
Qed.
