(* ===== verification/BTreeDiff.v ===== *)
(** * Structural diff of two B+trees ([rust/src/btree.rs])

    The primitive behind the rewind of optimistic writes: a walk of two trees in
    lockstep, in descending order, that reports the rows by which they differ and
    skips what they share.  Sharing is observed through [Rc::ptr_eq] and
    [Arc::ptr_eq]; the diff is written over two oracles for them, [same_node] and
    [same_row], of which only one thing is ever assumed: what they identify is
    equal.  An oracle that never answers [true] is a walk without the skips.

    The vectors of a cursor are lists whose head is the top; out-of-range
    indexing, underflow and the maximum of an empty node are [None].  The work
    counters ([u64]) are threaded through, as unbounded numbers. *)

From stdpp Require Import base list numbers option sorting.
From Stdlib Require Import Lia.
From S2P Require Import Prelude Values Rows BTree Change.

Record DiffStats := MkStats {
  internal_node_skips : N;
  leaf_row_skips : N;
  internal_nodes_visited : N;
  leaves_visited : N;
  row_value_compares : N;
  cursor_compares : N
}.

Definition stats_default : DiffStats := MkStats 0 0 0 0 0 0.

Definition count_node_skip (s : DiffStats) : DiffStats :=
  MkStats (internal_node_skips s + 1) (leaf_row_skips s) (internal_nodes_visited s)
    (leaves_visited s) (row_value_compares s) (cursor_compares s).
Definition count_row_skip (s : DiffStats) : DiffStats :=
  MkStats (internal_node_skips s) (leaf_row_skips s + 1) (internal_nodes_visited s)
    (leaves_visited s) (row_value_compares s) (cursor_compares s).
Definition count_internal_visit (s : DiffStats) : DiffStats :=
  MkStats (internal_node_skips s) (leaf_row_skips s) (internal_nodes_visited s + 1)
    (leaves_visited s) (row_value_compares s) (cursor_compares s).
Definition count_leaf_visit (s : DiffStats) : DiffStats :=
  MkStats (internal_node_skips s) (leaf_row_skips s) (internal_nodes_visited s)
    (leaves_visited s + 1) (row_value_compares s) (cursor_compares s).
Definition count_value_compare (s : DiffStats) : DiffStats :=
  MkStats (internal_node_skips s) (leaf_row_skips s) (internal_nodes_visited s)
    (leaves_visited s) (row_value_compares s + 1) (cursor_compares s).
Definition count_cursor_compare (s : DiffStats) : DiffStats :=
  MkStats (internal_node_skips s) (leaf_row_skips s) (internal_nodes_visited s)
    (leaves_visited s) (row_value_compares s) (cursor_compares s + 1).

(** The calls a [DiffSink] receives, in order. *)
Inductive diff_event (Row : Type) : Type :=
  | only_this (r : Row)
  | only_other (r : Row)
  | edit_row (this other : Row).

Arguments only_this {_} _.
Arguments only_other {_} _.
Arguments edit_row {_} _ _.

Section diff.
Context {Row : Type} (cmp : Row → Row → comparison).
Context (full_equal : Row → Row → option bool).
Context (same_node : bnode Row → bnode Row → bool) (same_row : Row → Row → bool).

(** [BTree::height]: [children[0]] panics on an internal node without children. *)
Fixpoint tree_height (n : bnode Row) : option nat :=
  match n with
  | Leaf _ => Some 0
  | Internal _ [] => None
  | Internal _ (c :: _) => h ← tree_height c; Some (S h)
  end.

(** ** Cursors *)

Record DiffCursor := MkCursor {
  dc_height : nat;
  spine : list (list (bnode Row));
  indices : list nat;
  dc_leaf : option (bnode Row);
  current_key : Row
}.

Definition diff_cursor_new (t : btree Row) : option DiffCursor :=
  h ← tree_height (root t);
  k ← max_key (root t);
  Some (MkCursor h [[root t]] [0] None k).

Definition current_node (c : DiffCursor) : option (bnode Row) :=
  s ← head (spine c); i ← head (indices c); s !! i.

(** The search for the deepest level with an unvisited left sibling, and the
    move to it: [Some None] is the far-left end. *)
Fixpoint walk_back (sp : list (list (bnode Row))) (ix : list nat) :
    option (option (list (list (bnode Row)) * list nat)) :=
  match sp with
  | [] => Some None
  | s :: sp' =>
      match ix with
      | [] => None
      | O :: ix' => walk_back sp' ix'
      | S i :: ix' => Some (Some (s :: sp', i :: ix'))
      end
  end.

Definition step_previous_node (c : DiffCursor) : option (bool * DiffCursor) :=
  r ← (if decide (length (spine c) = 0) then None
       else walk_back (spine c) (drop (length (indices c) - length (spine c)) (indices c)));
  match r with
  | None => Some (false, c)
  | Some (sp, ix) =>
      s ← head sp; i ← head ix; n ← s !! i; k ← max_key n;
      Some (true, MkCursor (dc_height c) sp ix None k)
  end.

Definition diff_step (step_to_node : bool) (c : DiffCursor) (st : DiffStats) :
    option (bool * DiffCursor * DiffStats) :=
  match step_to_node, dc_leaf c with
  | true, _ => r ← step_previous_node c; Some (r, st)
  | false, Some leaf =>
      match indices c with
      | [] => None
      | O :: _ => r ← step_previous_node c; Some (r, st)
      | S vi :: ix =>
          k ← node_keys leaf !! vi;
          Some (true, MkCursor (dc_height c) (spine c) (vi :: ix) (Some leaf) k, st)
      end
  | false, None =>
      n ← current_node c;
      match n with
      | Leaf ks =>
          if decide (length ks = 0) then None
          else
            k ← ks !! (length ks - 1);
            Some (true, MkCursor (dc_height c) (spine c) (length ks - 1 :: indices c) (Some n) k,
                  count_leaf_visit st)
      | Internal _ cs =>
          if decide (length cs = 0) then None
          else
            ch ← cs !! (length cs - 1); k ← max_key ch;
            Some (true, MkCursor (dc_height c) (cs :: spine c) (length cs - 1 :: indices c) None k,
                  count_internal_visit st)
      end
  end.

(** Equal keys tie-break on the depth below the top of the shorter tree. *)
Definition normalized_depth (hmin : nat) (c : DiffCursor) : Z :=
  Z.of_nat (length (indices c)) - Z.of_nat (dc_height c - hmin).

Definition compare_cursors (a b : DiffCursor) : comparison :=
  match cmp (current_key b) (current_key a) with
  | Eq => let hmin := dc_height a `min` dc_height b in
          Z.compare (normalized_depth hmin a) (normalized_depth hmin b)
  | d => d
  end.

(** ** The walk *)

(** [step_to_end] with the callback [f]; one round per node or row. *)
Fixpoint step_to_end (f : Row → diff_event Row) (fuel : nat) (c : DiffCursor) (st : DiffStats) :
    option (list (diff_event Row) * DiffStats) :=
  match fuel with
  | O => None
  | S fuel =>
      let here := match dc_leaf c with Some _ => [f (current_key c)] | None => [] end in
      '(ok, c, st) ← diff_step false c st;
      if (ok : bool) then '(evs, st) ← step_to_end f fuel c st; Some (here ++ evs, st)
      else Some (here, st)
  end.

Definition finish_walk (f : Row → diff_event Row) (fuel : nat) (c finished : DiffCursor)
    (st : DiffStats) : option (list (diff_event Row) * DiffStats) :=
  let st := count_cursor_compare st in
  match compare_cursors c finished with
  | Eq =>
      '(ok, c, st) ← diff_step false c st;
      if (ok : bool) then step_to_end f fuel c st else Some ([], st)
  | _ => step_to_end f fuel c st
  end.

(** The variables of the loop of [diff_visit]. *)
Record walk := MkWalk {
  tc : DiffCursor;
  oc : DiffCursor;
  tok : bool;
  ook : bool;
  prev : comparison;
  stats : DiffStats;
  events : list (diff_event Row)
}.

Definition on_leaf (c : DiffCursor) : bool :=
  match dc_leaf c with Some _ => true | None => false end.

(** What the [prev]-gated [match] emits. *)
Definition gated_emission (w : walk) (order : comparison) : list (diff_event Row) :=
  if decide (prev w = Eq) then []
  else
    match order with
    | Eq => []
    | Gt => if on_leaf (oc w) then [only_other (current_key (oc w))] else []
    | Lt => if on_leaf (tc w) then [only_this (current_key (tc w))] else []
    end.

(** Both cursors on rows with one key. *)
Definition pair_rows (use_identity : bool) (w : walk) (st : DiffStats) : option walk :=
  let a := current_key (tc w) in
  let b := current_key (oc w) in
  '(st, evs) ← (if use_identity && same_row a b then Some (count_row_skip st, [])
                else
                  eq ← full_equal a b;
                  Some (count_value_compare st, if (eq : bool) then [] else [edit_row a b]));
  '(tok, tc, st) ← diff_step false (tc w) st;
  '(ook, oc, st) ← diff_step false (oc w) st;
  Some (MkWalk tc oc tok ook Lt st (events w ++ evs)).

(** The test of the [else if]: both cursors on one shared internal node. *)
Definition shared_node (use_identity : bool) (w : walk) (order : comparison) : option bool :=
  if is_eq order && use_identity then
    a ← current_node (tc w); b ← current_node (oc w); Some (same_node a b)
  else Some false.

Definition skip_shared (w : walk) (st : DiffStats) : option walk :=
  let st := count_node_skip st in
  '(tok, tc, st) ← diff_step true (tc w) st;
  '(ook, oc, st) ← diff_step true (oc w) st;
  Some (MkWalk tc oc tok ook Eq st (events w)).

Definition advance_cursor (w : walk) (order : comparison) (st : DiffStats) (evs : list (diff_event Row)) :
    option walk :=
  if is_lt order then
    '(tok, tc, st) ← diff_step false (tc w) st;
    Some (MkWalk tc (oc w) tok (ook w) order st (events w ++ evs))
  else
    '(ook, oc, st) ← diff_step false (oc w) st;
    Some (MkWalk (tc w) oc (tok w) ook order st (events w ++ evs)).

(** One round of the loop. *)
Definition diff_round (use_identity : bool) (w : walk) : option walk :=
  let st := count_cursor_compare (stats w) in
  let order := compare_cursors (tc w) (oc w) in
  let tl := on_leaf (tc w) in
  let ol := on_leaf (oc w) in
  if is_eq order && tl && ol then pair_rows use_identity w st
  else if tl || ol then advance_cursor w order st (gated_emission w order)
  else
    shared ← shared_node use_identity w order;
    if (shared : bool) then skip_shared w st else advance_cursor w order st [].

Fixpoint diff_loop (use_identity : bool) (fuel : nat) (w : walk) : option walk :=
  if tok w && ook w then
    match fuel with
    | O => None
    | S fuel => w ← diff_round use_identity w; diff_loop use_identity fuel w
    end
  else Some w.

(** The places a cursor can stop at: every node and every row. *)
Fixpoint positions (n : bnode Row) : nat :=
  match n with
  | Leaf ks => S (length ks)
  | Internal _ cs => S (sum_list_with (λ c, positions c) cs)
  end.

Definition diff_visit (use_identity : bool) (this other : btree Row) (st : DiffStats) :
    option (list (diff_event Row) * DiffStats) :=
  let this_empty := (size this =? 0)%nat in
  let other_empty := (size other =? 0)%nat in
  if this_empty || other_empty then
    if this_empty && other_empty then Some ([], st)
    else if this_empty then
      c ← diff_cursor_new other; step_to_end only_other (positions (root other)) c st
    else
      c ← diff_cursor_new this; step_to_end only_this (positions (root this)) c st
  else
    tc0 ← diff_cursor_new this;
    oc0 ← diff_cursor_new other;
    let st := count_cursor_compare st in
    w ← diff_loop use_identity (positions (root this) + positions (root other))
          (MkWalk tc0 oc0 true true (compare_cursors tc0 oc0) st []);
    '(evs1, st) ← (if tok w then finish_walk only_this (positions (root this)) (tc w) (oc w) (stats w)
                   else Some ([], stats w));
    '(evs2, st) ← (if ook w then finish_walk only_other (positions (root other)) (oc w) (tc w) st
                   else Some ([], st));
    Some (events w ++ evs1 ++ evs2, st).

(** ** The reference: a linear merge of two descending lists *)

Fixpoint merge_diff (this : list Row) : list Row → option (list (diff_event Row)) :=
  fix go (other : list Row) :=
    match this, other with
    | [], _ => Some (only_other <$> other)
    | _, [] => Some (only_this <$> this)
    | a :: this', b :: other' =>
        match cmp a b with
        | Gt => evs ← merge_diff this' other; Some (only_this a :: evs)
        | Lt => evs ← go other'; Some (only_other b :: evs)
        | Eq =>
            eq ← full_equal a b;
            evs ← merge_diff this' other';
            Some (if (eq : bool) then evs else edit_row a b :: evs)
        end
    end.
End diff.

Arguments DiffCursor : clear implicits.
Arguments walk : clear implicits.

(** ** Rows *)

Definition full_row_equal (a b : row) : option bool :=
  if (length a =? length b)%nat then
    try_all (λ p : value * value, is_eq <$> compare_values p.1 p.2) (zip a b)
  else Some false.

(** The sink of [structural_diff]. *)
Definition collect_change (e : diff_event row) : source_change :=
  match e with
  | only_this r => SRemove r
  | only_other r => SAdd r
  | edit_row this other => SEdit other this
  end.

Definition structural_diff (same_node : bnode row → bnode row → bool) (same_row : row → row → bool)
    (this other : btree row) (sort : Sort) : option (list source_change) :=
  r ← diff_visit (row_cmp sort) full_row_equal same_node same_row true this other stats_default;
  Some (map collect_change r.1).

Definition apply_source_change_to_tree (t : btree row) (c : source_change) (sort : Sort) :
    option (btree row) :=
  match c with
  | SAdd r => '(t, _) ← btree_add (row_cmp sort) t r; Some t
  | SRemove r => '(t, _) ← btree_delete (row_cmp sort) t r; Some t
  | SEdit r old =>
      '(t, _) ← btree_delete (row_cmp sort) t old;
      '(t, _) ← btree_add (row_cmp sort) t r;
      Some t
  end.
