(* ===== verification/BTreeDiffFacts.v ===== *)
(** * The structural diff computes the linear merge diff

    A cursor of the diff is a position in one list: the nodes and rows of its
    tree, each node before what is below it, in descending order ([items]).  A
    plain step drops the head of that list, a step past a node drops the node
    with all that is below it.  On top of that view the walk of two trees is a
    merge of two lists, and the skips drop common parts. *)

From stdpp Require Import base list numbers option sorting.
From Stdlib Require Import Lia.
From S2P Require Import Prelude Values Rows BTree BTreeFacts Change BTreeDiff.

Section cursor.
Context {Row : Type} (cmp : Row → Row → comparison) `{!TotalCmp cmp}.
Context (full_equal : Row → Row → option bool).
Context (same_node : bnode Row → bnode Row → bool) (same_row : Row → Row → bool).
Implicit Types (c : DiffCursor Row) (n : bnode Row) (sp : list (list (bnode Row))) (ix : list nat).

(** ** The list a cursor walks *)

Inductive item : Type :=
  | INode (level : nat) (n : bnode Row)
  | IRow (level : nat) (r : Row).

Implicit Types (T O : list item) (X Y : list Row).

Fixpoint items (l : nat) (n : bnode Row) : list item :=
  INode l n ::
  match n with
  | Leaf ks => map (IRow (S l)) (rev ks)
  | Internal _ cs => concat (rev (map (items (S l)) cs))
  end.

Definition item_row (x : item) : option Row :=
  match x with INode _ _ => None | IRow _ r => Some r end.

Definition rows_of (T : list item) : list Row := omap item_row T.

(** The siblings left of a path, from the bottom up. *)
Fixpoint rest (sp : list (list (bnode Row))) (ix : list nat) : list item :=
  match sp, ix with
  | s :: sp', i :: ix' => concat (rev (map (items (length sp')) (take i s))) ++ rest sp' ix'
  | _, _ => []
  end.

Fixpoint levels_ok (h : nat) (sp : list (list (bnode Row))) (ix : list nat) : Prop :=
  match sp, ix with
  | [], [] => True
  | s :: sp', i :: ix' =>
      length sp' ≤ h ∧ i < length s ∧ Forall (node_ok (h - length sp')) s ∧ levels_ok h sp' ix'
  | _, _ => False
  end.

(** [represents h c T]: [T] is what the cursor has still to visit, the place it
    stands on included. *)
Inductive represents (h : nat) : DiffCursor Row → list item → Prop :=
  | represents_node s sp i ix n k :
      levels_ok h (s :: sp) (i :: ix) → s !! i = Some n → max_key n = Some k →
      represents h (MkCursor h (s :: sp) (i :: ix) None k)
        (items (length sp) n ++ rest (s :: sp) (i :: ix))
  | represents_row s sp i ix ks vi k :
      levels_ok h (s :: sp) (i :: ix) → length sp = h → s !! i = Some (Leaf ks) →
      ks !! vi = Some k →
      represents h (MkCursor h (s :: sp) (vi :: i :: ix) (Some (Leaf ks)) k)
        (map (IRow (S h)) (rev (take (S vi) ks)) ++ rest (s :: sp) (i :: ix)).

Lemma levels_ok_node h s sp i ix n :
  levels_ok h (s :: sp) (i :: ix) → s !! i = Some n → length sp ≤ h ∧ node_ok (h - length sp) n.
Proof. intros (Hh & _ & Hf & _) Hn. split; [done|]. by eapply Forall_lookup_1. Qed.

Lemma levels_ok_length h sp ix : levels_ok h sp ix → length sp = length ix.
Proof.
  revert ix. induction sp as [|s sp IH]; intros [|i ix]; try done.
  intros (_ & _ & _ & Hl). cbn [length]. by rewrite (IH ix Hl).
Qed.

Lemma concat_rev_snoc {A} (ls : list (list A)) l : concat (rev (ls ++ [l])) = l ++ concat (rev ls).
Proof. by rewrite rev_app_distr. Qed.

Lemma rest_S s sp i ix n :
  s !! i = Some n → rest (s :: sp) (S i :: ix) = items (length sp) n ++ rest (s :: sp) (i :: ix).
Proof.
  intros Hn. cbn [rest]. rewrite (take_S_r _ _ _ Hn), map_app. cbn [map].
  by rewrite concat_rev_snoc, (assoc_L (++)).
Qed.

(** ** Steps *)

(** A move to [T']: at the end of the list the cursor stays where it is. *)
Definition moved (h : nat) c T' (r : option (bool * DiffCursor Row * DiffStats)) : Prop :=
  ∃ ok c' st', r = Some (ok, c', st') ∧
    (T' = [] ∧ ok = false ∧ c' = c ∨ T' ≠ [] ∧ ok = true ∧ represents h c' T').

Lemma walk_back_spec h sp ix :
  levels_ok h sp ix →
  (walk_back sp ix = Some None ∧ rest sp ix = []) ∨
  ∃ s sp' i ix' n k,
    walk_back sp ix = Some (Some (s :: sp', i :: ix')) ∧ levels_ok h (s :: sp') (i :: ix') ∧
    s !! i = Some n ∧ max_key n = Some k ∧
    rest sp ix = items (length sp') n ++ rest (s :: sp') (i :: ix').
Proof.
  revert ix. induction sp as [|s sp IH]; intros [|i ix]; try done; [by left|].
  intros (Hh & Hi & Hf & Hl). destruct i as [|i]; cbn [walk_back].
  - cbn [rest take map rev concat app]. destruct (IH ix Hl) as [[-> ->]|H]; [by left|by right].
  - right. destruct (lookup_lt_is_Some_2 s i) as [n Hn]; [lia|].
    destruct (max_key_Some (h - length sp) n) as [k Hk]; [by eapply Forall_lookup_1|].
    exists s, sp, i, ix, n, k. split_and!; [done| |done..|by apply rest_S].
    cbn [levels_ok]. split_and!; [done|lia|done..].
Qed.

Lemma step_previous_node_spec h c sp ix st :
  dc_height c = h → spine c = sp → sp ≠ [] →
  drop (length (indices c) - length sp) (indices c) = ix → levels_ok h sp ix →
  moved h c (rest sp ix) (r ← step_previous_node c; Some (r, st)) ∧
  ∀ x T', rest sp ix = x :: T' → item_row x = None.
Proof.
  intros <- <- Hne <- Hl. unfold step_previous_node.
  rewrite decide_False by (by destruct (spine c)).
  destruct (walk_back_spec _ _ _ Hl) as [[-> ->]|(s & sp' & i & ix' & n & k & -> & Hl' & Hn & Hk & ->)];
    cbn [mbind option_bind].
  - split; [|done]. exists false, c, st. split; [done|]. by left.
  - split; [|by destruct n; intros ? ? [= <-]].
    cbn [hd_error mbind option_bind]. rewrite Hn. cbn [mbind option_bind]. rewrite Hk. cbn [mbind option_bind].
    eexists _, _, _. split; [done|]. right. split; [by destruct n|]. split; [done|]. by constructor.
Qed.

Lemma rev_take_S {A} (l : list A) i x : l !! i = Some x → rev (take (S i) l) = x :: rev (take i l).
Proof. intros H. by rewrite (take_S_r _ _ _ H), rev_app_distr. Qed.

Lemma last_index {A} (l : list A) :
  length l ≠ 0 → ∃ x, l !! (length l - 1) = Some x ∧ rev l = rev (take (S (length l - 1)) l) ∧
    take (length l) l = l.
Proof.
  intros H. destruct (lookup_lt_is_Some_2 l (length l - 1)) as [x Hx]; [lia|].
  exists x. split; [done|]. rewrite !take_ge by lia. done.
Qed.

(** A plain step drops the head. *)
Lemma step_spec h c x T' st : represents h c (x :: T') → moved h c T' (diff_step false c st).
Proof.
  intros H. remember (x :: T') as T eqn:HT. destruct H as [s sp i ix n k Hl Hn Hk|s sp i ix ks vi k Hl Hsp Hn Hk].
  - destruct (levels_ok_node _ _ _ _ _ _ Hl Hn) as [Hh Hok].
    unfold diff_step, current_node. cbn [dc_leaf spine indices hd_error mbind option_bind]. rewrite Hn.
    cbn [mbind option_bind].
    destruct (h - length sp) as [|h'] eqn:Eh, n as [ks|ks cs]; try done.
    + cbn [node_ok] in Hok. rewrite decide_False by lia.
      destruct (last_index ks) as (y & Hy & Hr & _); [lia|]. rewrite Hy. cbn [mbind option_bind].
      eexists _, _, _. split; [done|]. right. cbn [items app] in HT. rewrite Hr in HT.
      rewrite (rev_take_S _ _ _ Hy) in HT. injection HT as <- <-. split; [done|]. split; [done|].
      replace (S (length sp)) with (S h) by lia.
      change (IRow (S h) y :: _ ++ ?b) with ((IRow (S h) y :: map (IRow (S h)) (rev (take (length ks - 1) ks))) ++ b).
      change (IRow (S h) y :: map (IRow (S h)) ?l) with (map (IRow (S h)) (y :: l)).
      rewrite <-(rev_take_S _ _ _ Hy). constructor; [done|lia|done..].
    + apply node_ok_internal in Hok as [Hk' Hlen]. rewrite decide_False by lia.
      destruct (last_index cs) as (ch & Hch & _ & Ht); [lia|]. rewrite Hch. cbn [mbind option_bind].
      pose proof Hk' as [Hf _].
      destruct (max_key_Some h' ch) as [m Hm]; [by eapply Forall_lookup_1|]. rewrite Hm.
      cbn [mbind option_bind]. eexists _, _, _. split; [done|]. right.
      assert (T' = items (length (s :: sp)) ch ++ rest (cs :: s :: sp) (length cs - 1 :: i :: ix)) as ->.
      { cbn [items app] in HT. injection HT as _ <-. rewrite <-(rest_S _ (s :: sp) _ (i :: ix)) by done.
        replace (S (length cs - 1)) with (length cs) by lia. cbn [rest]. by rewrite Ht. }
      split; [by destruct ch|]. split; [done|]. constructor; [|done..].
      cbn [levels_ok length dc_height spine indices]. split; [lia|]. split; [lia|].
      by replace (h - S (length sp)) with h' by lia.
  - rewrite (rev_take_S _ _ _ Hk) in HT. cbn [map app] in HT. injection HT as <- <-.
    unfold diff_step. cbn [dc_leaf indices]. destruct vi as [|vi].
    + cbn [take rev map app].
      apply (step_previous_node_spec h (MkCursor h (s :: sp) (0 :: i :: ix) (Some (Leaf ks)) k)
               (s :: sp) (i :: ix)); [done..| |done]. cbn [spine indices length].
      apply levels_ok_length in Hl. cbn [length] in Hl.
      by replace (S (S (length ix)) - S (length sp)) with 1 by lia.
    + pose proof (lookup_lt_Some _ _ _ Hk). destruct (lookup_lt_is_Some_2 ks vi) as [y Hy]; [lia|].
      cbn [node_keys]. rewrite Hy. cbn [mbind option_bind]. eexists _, _, _. split; [done|]. right.
      split; [by rewrite (rev_take_S _ _ _ Hy)|]. split; [done|]. by constructor.
Qed.

(** A step past a node drops the node and what is below it; the cursor then
    stands on a node again. *)
Lemma step_node_spec h c l n T st :
  represents h c (INode l n :: T) →
  ∃ T', INode l n :: T = items l n ++ T' ∧ node_ok (h - l) n ∧ current_node c = Some n ∧
    moved h c T' (diff_step true c st) ∧ (∀ x T'', T' = x :: T'' → item_row x = None).
Proof.
  intros H. remember (INode l n :: T) as T0 eqn:HT.
  destruct H as [s sp i ix n' k Hl Hn Hk|s sp i ix ks vi k Hl Hsp Hn Hk].
  2: { by rewrite (rev_take_S _ _ _ Hk) in HT. }
  exists (rest (s :: sp) (i :: ix)).
  assert (INode (length sp) n' = INode l n) as [= <- <-] by (apply (f_equal hd_error) in HT; destruct n'; cbn in HT; congruence).
  split_and!; [done|by eapply levels_ok_node|done|..];
    apply (step_previous_node_spec h (MkCursor h (s :: sp) (i :: ix) None k) (s :: sp) (i :: ix) st); try done;
    cbn [spine indices]; by rewrite (levels_ok_length _ _ _ Hl), Nat.sub_diag.
Qed.

(** ** What a cursor shows of its list *)

Lemma rows_of_app T1 T2 : rows_of (T1 ++ T2) = rows_of T1 ++ rows_of T2.
Proof. apply omap_app. Qed.

Lemma rows_of_map_row l (rs : list Row) : rows_of (map (IRow l) rs) = rs.
Proof. unfold rows_of. induction rs as [|r rs IH]; [done|]. cbn. by rewrite IH. Qed.

Lemma rev_concat {A} (ls : list (list A)) : rev (concat ls) = concat (rev (map (@rev A) ls)).
Proof.
  induction ls as [|l ls IH]; [done|]. cbn [concat map rev].
  by rewrite rev_app_distr, concat_app, IH, concat_cons, concat_nil, app_nil_r.
Qed.

Lemma rows_items h l n : node_ok h n → rows_of (items l n) = rev (elems n).
Proof.
  revert l n. induction h as [|h IH]; intros l [ks|ks cs] Hok; try done.
  - apply rows_of_map_row.
  - cbn [items elems]. change (rows_of (INode ?l ?n :: ?T)) with (rows_of T). rewrite rev_concat.
    apply node_ok_internal in Hok as [[Hf _] _]. clear -Hf IH.
    induction Hf as [|c cs Hc _ IHcs]; [done|]. cbn [map rev].
    rewrite !concat_app, rows_of_app, IHcs. f_equal. cbn. by rewrite !app_nil_r, IH.
Qed.

Lemma length_items h l n : node_ok h n → length (items l n) = positions n.
Proof.
  revert l n. induction h as [|h IH]; intros l [ks|ks cs] Hok; try done.
  - cbn. by rewrite length_map, length_rev.
  - cbn [items positions length]. f_equal. apply node_ok_internal in Hok as [[Hf _] _]. clear -Hf IH.
    induction Hf as [|c cs Hc _ IHcs]; [done|]. cbn [map rev sum_list_with].
    rewrite concat_app, length_app, IHcs. cbn. rewrite app_nil_r, (IH (S l) c Hc). lia.
Qed.

Lemma items_cons l n : ∃ T, items l n = INode l n :: T.
Proof. destruct n; by eexists. Qed.

Lemma head_rev_elems h n : node_ok h n → hd_error (rev (elems n)) = max_key n.
Proof.
  intros Hok. rewrite (max_key_last h n Hok).
  destruct (last_take_drop (elems n)) as (l & x & -> & ->); [by eapply node_ok_nonempty|].
  by rewrite rev_app_distr.
Qed.

Lemma hd_error_app {A} (l1 l2 : list A) : l1 ≠ [] → hd_error (l1 ++ l2) = hd_error l1.
Proof. by destruct l1. Qed.

Lemma represents_facts h c T :
  represents h c T →
  ∃ x T', T = x :: T' ∧ dc_height c = h ∧ hd_error (rows_of T) = Some (current_key c) ∧
    match x with
    | IRow _ r => on_leaf c = true ∧ r = current_key c ∧ length (indices c) = S (S h)
    | INode _ _ => on_leaf c = false ∧ T' ≠ [] ∧ length (indices c) ≤ S h
    end.
Proof.
  intros [s sp i ix n k Hl Hn Hk|s sp i ix ks vi k Hl Hsp Hn Hk].
  - destruct (levels_ok_node _ _ _ _ _ _ Hl Hn) as [Hh Hok].
    destruct (items_cons (length sp) n) as [T' HT]. pose proof (rows_items _ (length sp) n Hok) as Hr.
    exists (INode (length sp) n), (T' ++ rest (s :: sp) (i :: ix)). rewrite HT.
    split_and!; [done|done| |done| |].
    + rewrite <-HT, rows_of_app, Hr, hd_error_app; [by rewrite (head_rev_elems _ _ Hok)|].
      intros Hnil. apply (node_ok_nonempty _ _ Hok). by rewrite <-(rev_involutive (elems n)), Hnil.
    + intros [-> _]%app_eq_nil. rewrite HT in Hr.
      apply (node_ok_nonempty _ _ Hok). by rewrite <-(rev_involutive (elems n)), <-Hr.
    + apply levels_ok_length in Hl. cbn [length indices] in *. lia.
  - rewrite (rev_take_S _ _ _ Hk). eexists _, _. split; [done|].
    split_and!; [done..|]. apply levels_ok_length in Hl. cbn [length indices] in *. lia.
Qed.

(** ** The reference *)

Definition desc (l : list Row) : Prop := StronglySorted (λ a b, cmp a b = Gt) l.

#[local] Abbreviation merge_diff' := (merge_diff cmp full_equal).

Lemma merge_diff_nil_l Y : merge_diff' [] Y = Some (only_other <$> Y).
Proof. by destruct Y. Qed.

Lemma merge_diff_nil_r X : merge_diff' X [] = Some (only_this <$> X).
Proof. by destruct X. Qed.

Lemma merge_diff_this a X Y b :
  hd_error Y = Some b → cmp a b = Gt →
  merge_diff' (a :: X) Y = evs ← merge_diff' X Y; Some (only_this a :: evs).
Proof. destruct Y as [|b' Y]; [done|]. intros [= ->] Hc. cbn [merge_diff]. by rewrite Hc. Qed.

Lemma merge_diff_other X Y a b :
  hd_error X = Some a → cmp a b = Lt →
  merge_diff' X (b :: Y) = evs ← merge_diff' X Y; Some (only_other b :: evs).
Proof. destruct X as [|a' X]; [done|]. intros [= ->] Hc. cbn [merge_diff]. by rewrite Hc. Qed.

Lemma merge_diff_pair X Y a b :
  cmp a b = Eq →
  merge_diff' (a :: X) (b :: Y) =
    eq ← full_equal a b; evs ← merge_diff' X Y;
    Some (if (eq : bool) then evs else edit_row a b :: evs).
Proof. intros Hc. cbn [merge_diff]. by rewrite Hc. Qed.

(** Common heads leave no event. *)
Lemma merge_diff_common P X Y :
  (∀ a, full_equal a a = Some true) → merge_diff' (P ++ X) (P ++ Y) = merge_diff' X Y.
Proof.
  intros Hrefl. induction P as [|a P IH]; [done|]. cbn [app].
  rewrite merge_diff_pair by apply cmp_refl. rewrite Hrefl. cbn [mbind option_bind]. rewrite IH.
  by destruct (merge_diff' X Y).
Qed.

Lemma desc_tail a l : desc (a :: l) → desc l.
Proof. by intros [? _]%StronglySorted_inv. Qed.

Lemma desc_head a b l : desc (a :: l) → hd_error l = Some b → cmp a b = Gt.
Proof. intros [_ H]%StronglySorted_inv. destruct l; [done|]. intros [= ->]. by apply Forall_inv in H. Qed.

Lemma desc_app l1 l2 : desc (l1 ++ l2) → desc l2 ∧ ∀ a b, a ∈ l1 → b ∈ l2 → cmp a b = Gt.
Proof.
  induction l1 as [|x l1 IH]; cbn [app].
  - intros Hs. split; [done|]. intros a b Ha. by apply elem_of_nil in Ha.
  - intros [Hs Hx]%StronglySorted_inv. destruct (IH Hs) as [H2 Hab]. split; [done|].
    intros a b [->|Ha]%elem_of_cons Hb; [|by apply Hab].
    rewrite Forall_forall in Hx. apply Hx. apply elem_of_app. by right.
Qed.

(** ** One round of the walk *)

Lemma order_cases ht ho a b T O :
  represents ht a T → represents ho b O →
  match compare_cursors cmp a b with
  | Lt => cmp (current_key a) (current_key b) = Gt ∨
          cmp (current_key a) (current_key b) = Eq ∧ on_leaf a = false
  | Gt => cmp (current_key a) (current_key b) = Lt ∨
          cmp (current_key a) (current_key b) = Eq ∧ on_leaf b = false
  | Eq => cmp (current_key a) (current_key b) = Eq ∧ on_leaf a = on_leaf b
  end.
Proof.
  intros Ha Hb. destruct (represents_facts _ _ _ Ha) as (x & T' & _ & Hha & _ & Hx).
  destruct (represents_facts _ _ _ Hb) as (y & O' & _ & Hhb & _ & Hy).
  unfold compare_cursors. rewrite (cmp_opp (current_key a)).
  destruct (cmp (current_key a) (current_key b)); cbn [CompOpp]; [|by left..].
  unfold normalized_depth. rewrite Hha, Hhb.
  destruct (Z.compare_spec (Z.of_nat (length (indices a)) - Z.of_nat (ht - ht `min` ho))
              (Z.of_nat (length (indices b)) - Z.of_nat (ho - ht `min` ho))) as [H|H|H];
    destruct x, y; destruct Hx as (Hla & ? & Hx), Hy as (Hlb & ? & Hy);
    first [split; congruence|right; split; congruence|exfalso; lia].
Qed.

(** What is left of a side of the walk. *)
Definition side h c (ok : bool) T : Prop :=
  T = [] ∧ ok = false ∨ T ≠ [] ∧ ok = true ∧ represents h c T.

(** The [prev] gate holds back no emission that is due. *)
Definition gate (w : walk Row) : Prop :=
  prev w = Eq →
  on_leaf (tc w) = false ∧
  (on_leaf (oc w) = false ∨ cmp (current_key (tc w)) (current_key (oc w)) = Eq).

(** The state of the walk with [T] and [O] to go and [all] the events of the
    whole run. *)
Record walk_inv (ht ho : nat) (all : list (diff_event Row)) (w : walk Row) T O : Prop := {
  inv_this : side ht (tc w) (tok w) T;
  inv_other : side ho (oc w) (ook w) O;
  inv_desc_this : desc (rows_of T);
  inv_desc_other : desc (rows_of O);
  inv_events : (λ evs, events w ++ evs) <$> merge_diff' (rows_of T) (rows_of O) = Some all;
  inv_gate : T ≠ [] → O ≠ [] → gate w;
  inv_only_this : T ≠ [] → O = [] → cmp (current_key (tc w)) (current_key (oc w)) = Lt;
  inv_only_other : T = [] → O ≠ [] → cmp (current_key (tc w)) (current_key (oc w)) = Gt
}.

Lemma moved_side h c T' r :
  moved h c T' r →
  ∃ ok c' st', r = Some (ok, c', st') ∧ side h c' ok T' ∧ (T' = [] → c' = c).
Proof.
  intros (ok & c' & st' & -> & [(-> & -> & ->)|(Hne & -> & Hr)]);
    eexists _, _, _; (split; [done|]); (split; [|done]); [by left|by right].
Qed.

Lemma side_head h c ok T b : side h c ok T → hd_error (rows_of T) = Some b → current_key c = b.
Proof.
  intros [[-> _]|(_ & _ & Hr)] Hb; [done|].
  destruct (represents_facts _ _ _ Hr) as (x & T' & -> & _ & Hk & _). congruence.
Qed.

Lemma side_rows h c ok T : side h c ok T → T ≠ [] → hd_error (rows_of T) = Some (current_key c).
Proof.
  intros [[-> _]|(_ & _ & Hr)] Hb; [done|].
  by destruct (represents_facts _ _ _ Hr) as (x & T' & -> & _ & Hk & _).
Qed.

(** Opening a side that still runs. *)
Lemma side_cons h c ok T :
  side h c ok T → T ≠ [] → ok = true ∧ represents h c T ∧
  ∃ x T', T = x :: T' ∧
    match x with
    | IRow _ r => on_leaf c = true ∧ r = current_key c
    | INode _ _ => on_leaf c = false ∧ T' ≠ []
    end.
Proof.
  intros [[-> _]|(_ & -> & Hr)] Hne; [done|]. split_and!; [done..|].
  destruct (represents_facts _ _ _ Hr) as (x & T' & -> & _ & _ & Hx). exists x, T'.
  split; [done|]. destruct x; naive_solver.
Qed.

Lemma gated_emission_due ht ho all w T O order :
  walk_inv ht ho all w T O → T ≠ [] → O ≠ [] → compare_cursors cmp (tc w) (oc w) = order →
  gated_emission w order =
    match order with
    | Lt => if on_leaf (tc w) then [only_this (current_key (tc w))] else []
    | Gt => if on_leaf (oc w) then [only_other (current_key (oc w))] else []
    | Eq => []
    end.
Proof.
  intros [Ht Ho _ _ _ Hg _ _] HT HO Horder. unfold gated_emission.
  destruct (decide (prev w = Eq)) as [Hp|]; [|done].
  destruct (Hg HT HO Hp) as [Hl Hr].
  destruct (side_cons _ _ _ _ Ht HT) as (_ & Rt & _), (side_cons _ _ _ _ Ho HO) as (_ & Ro & _).
  pose proof (order_cases _ _ _ _ _ _ Rt Ro) as Hc. rewrite Horder in Hc.
  destruct order; [done|by rewrite Hl|]. destruct (on_leaf (oc w)); [|done].
  destruct Hr as [|Hr]; [done|]. destruct Hc as [Hc|[_ Hc]]; congruence.
Qed.

Lemma advance_this_inv ht ho all w T O st evs :
  walk_inv ht ho all w T O → T ≠ [] → O ≠ [] → compare_cursors cmp (tc w) (oc w) = Lt →
  evs = (if on_leaf (tc w) then [only_this (current_key (tc w))] else []) →
  ∃ w' T', advance_cursor w Lt st evs = Some w' ∧ walk_inv ht ho all w' T' O ∧ length T' < length T.
Proof.
  intros [Ht Ho Dt Do Hev _ _ _] HT HO Horder ->.
  destruct (side_cons _ _ _ _ Ht HT) as (_ & Rt & x & T' & -> & Hx).
  destruct (side_cons _ _ _ _ Ho HO) as (_ & Ro & _).
  pose proof (order_cases _ _ _ _ _ _ Rt Ro) as Hc. rewrite Horder in Hc.
  destruct (moved_side _ _ _ _ (step_spec _ _ _ _ st Rt)) as (ok & c' & st' & Hs & Hside & Hstay).
  unfold advance_cursor. cbn [is_lt]. rewrite Hs. cbn [mbind option_bind].
  eexists _, T'. split; [done|]. split; [|cbn [length]; lia].
  destruct x as [l n|l r]; destruct Hx as [Hl Hx]; rewrite Hl in *.
  - rewrite app_nil_r. by split.
  - subst r. destruct Hc as [Hc|[_ ?]]; [|done].
    change (rows_of (IRow l ?r :: ?T)) with (r :: rows_of T) in *.
    rewrite (merge_diff_this _ _ _ _ (side_rows _ _ _ _ Ho HO) Hc) in Hev.
    split; cbn [tc oc tok ook events prev]; try done.
    + by eapply desc_tail.
    + destruct (merge_diff' _ _); [|done]. cbn in *. by rewrite <-(assoc_L (++)).
    + intros HT' _. by rewrite (Hstay HT').
Qed.

Lemma advance_other_inv ht ho all w T O st evs order :
  walk_inv ht ho all w T O → T ≠ [] → O ≠ [] → compare_cursors cmp (tc w) (oc w) = order →
  order ≠ Lt → (order = Eq → on_leaf (oc w) = false) →
  evs = (if on_leaf (oc w) then [only_other (current_key (oc w))] else []) →
  ∃ w' O', advance_cursor w order st evs = Some w' ∧ walk_inv ht ho all w' T O' ∧ length O' < length O.
Proof.
  intros [Ht Ho Dt Do Hev _ _ _] HT HO Horder Hne Heq ->.
  destruct (side_cons _ _ _ _ Ht HT) as (_ & Rt & _).
  destruct (side_cons _ _ _ _ Ho HO) as (_ & Ro & x & O' & -> & Hx).
  pose proof (order_cases _ _ _ _ _ _ Rt Ro) as Hc. rewrite Horder in Hc.
  destruct (moved_side _ _ _ _ (step_spec _ _ _ _ st Ro)) as (ok & c' & st' & Hs & Hside & Hstay).
  unfold advance_cursor. replace (is_lt order) with false by (by destruct order). rewrite Hs.
  cbn [mbind option_bind]. eexists _, O'. split; [done|]. split; [|cbn [length]; lia].
  destruct x as [l n|l r]; destruct Hx as [Hl Hx]; rewrite Hl in *.
  - rewrite app_nil_r. split; cbn [tc oc tok ook events prev]; try done.
    intros _ _ Hp. cbn [tc oc prev] in *. subst order. rewrite Hp in Hc. destruct Hc as [Hc Hl'].
    split; [done|]. right. rewrite <-Hc. f_equal. eapply side_head; [exact Hside|].
    apply (side_rows _ _ _ _ Ho HO).
  - subst r. destruct order; [by discriminate Heq|done|]. destruct Hc as [Hc|[_ ?]]; [|done].
    change (rows_of (IRow l ?r :: ?T)) with (r :: rows_of T) in *.
    rewrite (merge_diff_other _ _ _ _ (side_rows _ _ _ _ Ht HT) Hc) in Hev.
    split; cbn [tc oc tok ook events prev]; try done.
    + by eapply desc_tail.
    + destruct (merge_diff' _ _); [|done]. cbn in *. by rewrite <-(assoc_L (++)).
    + intros _ HO'. by rewrite (Hstay HO').
Qed.

Context (full_equal_refl : ∀ a, full_equal a a = Some true).
Context (same_node_eq : ∀ n m, same_node n m = true → n = m).
Context (same_row_eq : ∀ a b, same_row a b = true → a = b).

(** The boundary after both sides moved off places with one key. *)
Lemma below_key h c ok l a b :
  side h c ok l → l ≠ [] → desc (a :: rows_of l) → cmp a b = Eq →
  cmp (current_key c) b = Lt ∧ cmp b (current_key c) = Gt.
Proof.
  intros Hs Hne Hd Hab. pose proof (desc_head _ _ _ Hd (side_rows _ _ _ _ Hs Hne)) as Hc.
  rewrite <-(cmp_eq_r cmp (current_key c) a b Hab), <-(cmp_eq_l a b (current_key c) Hab).
  split; [by apply cmp_gt_lt|done].
Qed.

Lemma pair_rows_inv ht ho all ui w T O st :
  walk_inv ht ho all w T O → T ≠ [] → O ≠ [] → compare_cursors cmp (tc w) (oc w) = Eq →
  on_leaf (tc w) = true → on_leaf (oc w) = true →
  ∃ w' T' O', pair_rows full_equal same_row ui w st = Some w' ∧ walk_inv ht ho all w' T' O' ∧
    length T' < length T ∧ length O' < length O.
Proof.
  intros [Ht Ho Dt Do Hev _ _ _] HT HO Horder Lt' Lo'.
  destruct (side_cons _ _ _ _ Ht HT) as (_ & Rt & x & T' & -> & Hx).
  destruct (side_cons _ _ _ _ Ho HO) as (_ & Ro & y & O' & -> & Hy).
  pose proof (order_cases _ _ _ _ _ _ Rt Ro) as Hc. rewrite Horder in Hc. destruct Hc as [Hc _].
  destruct x as [|l r]; [by rewrite Lt' in Hx; destruct Hx|]. destruct Hx as [_ ->].
  destruct y as [|l' r']; [by rewrite Lo' in Hy; destruct Hy|]. destruct Hy as [_ ->].
  change (rows_of (IRow ?l ?r :: ?T)) with (r :: rows_of T) in *.
  rewrite (merge_diff_pair _ _ _ _ Hc) in Hev. unfold pair_rows.
  set (a := current_key (tc w)) in *. set (b := current_key (oc w)) in *.
  assert (∃ st' evs', (if ui && same_row a b then Some (count_row_skip st, [])
      else eq ← full_equal a b; Some (count_value_compare st, if (eq : bool) then [] else [edit_row a b]))
      = Some (st', evs') ∧
      (λ evs, (events w ++ evs') ++ evs) <$> merge_diff' (rows_of T') (rows_of O') = Some all)
    as (st1 & evs' & -> & Hev').
  { destruct (ui && same_row a b) eqn:Hsame.
    - apply andb_prop in Hsame as [_ Hab%same_row_eq]. eexists _, _. split; [done|].
      rewrite <-Hab, full_equal_refl in Hev. cbn in Hev. rewrite app_nil_r.
      by destruct (merge_diff' _ _).
    - destruct (full_equal a b) as [eq|]; [|done]. cbn in *. eexists _, _. split; [done|].
      destruct (merge_diff' _ _); [|done]. cbn in *. rewrite <-(assoc_L (++)). by destruct eq. }
  cbn [mbind option_bind].
  destruct (moved_side _ _ _ _ (step_spec _ _ _ _ st1 Rt)) as (ok & c' & st2 & -> & Hs1 & Hst1).
  cbn [mbind option_bind].
  destruct (moved_side _ _ _ _ (step_spec _ _ _ _ st2 Ro)) as (ok' & d' & st3 & -> & Hs2 & Hst2).
  cbn [mbind option_bind]. eexists _, T', O'. split; [done|].
  split; [|cbn [length]; lia]. split; cbn [tc oc tok ook events prev]; try done.
  - by eapply desc_tail.
  - by eapply desc_tail.
  - intros HT' ->. rewrite (Hst2 eq_refl). by eapply below_key.
  - intros -> HO'. rewrite (Hst1 eq_refl). by eapply below_key; [..|apply cmp_eq_sym].
Qed.

Lemma skip_shared_inv ht ho all w T O st :
  walk_inv ht ho all w T O → T ≠ [] → O ≠ [] → compare_cursors cmp (tc w) (oc w) = Eq →
  on_leaf (tc w) = false → on_leaf (oc w) = false →
  (∀ n m, current_node (tc w) = Some n → current_node (oc w) = Some m → n = m) →
  ∃ w' T' O', skip_shared w st = Some w' ∧ walk_inv ht ho all w' T' O' ∧
    length T' < length T ∧ length O' < length O.
Proof.
  intros [Ht Ho Dt Do Hev _ _ _] HT HO Horder Lt' Lo' Hsame.
  destruct (side_cons _ _ _ _ Ht HT) as (_ & Rt & x & T0 & -> & Hx).
  destruct (side_cons _ _ _ _ Ho HO) as (_ & Ro & y & O0 & -> & Hy).
  destruct x as [l n|]; [|by rewrite Lt' in Hx; destruct Hx].
  destruct y as [l' n'|]; [|by rewrite Lo' in Hy; destruct Hy].
  unfold skip_shared.
  destruct (step_node_spec _ _ _ _ _ (count_node_skip st) Rt) as (T' & ET & Hok & Hcn & Hm & Hn1).
  destruct (moved_side _ _ _ _ Hm) as (ok & c' & st2 & -> & Hs1 & Hst1). cbn [mbind option_bind].
  destruct (step_node_spec _ _ _ _ _ st2 Ro) as (O' & EO & Hok' & Hcn' & Hm' & Hn2).
  destruct (moved_side _ _ _ _ Hm') as (ok' & d' & st3 & -> & Hs2 & Hst2). cbn [mbind option_bind].
  rewrite <-(Hsame _ _ Hcn Hcn') in *. clear Hsame Hcn Hcn' n'.
  assert (rows_of (INode l n :: T0) = rev (elems n) ++ rows_of T') as RT
    by (rewrite ET, rows_of_app; by erewrite rows_items).
  assert (rows_of (INode l' n :: O0) = rev (elems n) ++ rows_of O') as RO
    by (rewrite EO, rows_of_app; by erewrite rows_items).
  pose proof (side_rows _ _ _ _ Ht HT) as Kt. pose proof (side_rows _ _ _ _ Ho HO) as Ko.
  rewrite RT in *. rewrite RO in *. rewrite merge_diff_common in Hev by done.
  destruct (rev (elems n)) as [|a P] eqn:Hrev.
  { exfalso. apply (node_ok_nonempty _ _ Hok). by rewrite <-(rev_involutive (elems n)), Hrev. }
  injection Kt as Kt. injection Ko as Ko.
  assert (∀ L, desc (a :: P ++ L) → desc L ∧ desc (a :: L)) as Hcut.
  { intros L Hd. destruct (desc_app [a] (P ++ L)) as [[H1 _]%desc_app Ha]; [done|].
    split; [done|]. constructor; [done|]. apply Forall_forall. intros b Hb.
    apply Ha; [by apply list_elem_of_singleton|apply elem_of_app; by right]. }
  destruct (Hcut _ Dt) as [Dt1 Dt2], (Hcut _ Do) as [Do1 Do2].
  eexists _, T', O'. split; [done|]. split; [split; cbn [tc oc tok ook events prev]|]; try done.
  - intros HT' HO' _. cbn [tc oc].
    destruct (side_cons _ _ _ _ Hs1 HT') as (_ & _ & x & T2 & -> & Hx').
    destruct (side_cons _ _ _ _ Hs2 HO') as (_ & _ & y & O2 & -> & Hy').
    pose proof (Hn1 _ _ eq_refl). pose proof (Hn2 _ _ eq_refl). destruct x, y; naive_solver.
  - intros HT' ->. rewrite (Hst2 eq_refl), <-Ko. by eapply below_key; [..|apply cmp_refl].
  - intros -> HO'. rewrite (Hst1 eq_refl), <-Kt. by eapply below_key; [..|apply cmp_refl].
  - rewrite ET, EO, !length_app. destruct (items_cons l n) as [? ->], (items_cons l' n) as [? ->].
    cbn [length]. lia.
Qed.

(** A round makes progress on one side at least and keeps the invariant. *)
Lemma diff_round_inv ht ho all ui w T O :
  walk_inv ht ho all w T O → T ≠ [] → O ≠ [] →
  ∃ w' T' O', diff_round cmp full_equal same_node same_row ui w = Some w' ∧
    walk_inv ht ho all w' T' O' ∧ length T' ≤ length T ∧ length O' ≤ length O ∧
    length T' + length O' < length T + length O.
Proof.
  intros Hinv HT HO. pose proof Hinv as [Ht Ho _ _ _ _ _ _].
  destruct (side_cons _ _ _ _ Ht HT) as (_ & Rt & _), (side_cons _ _ _ _ Ho HO) as (_ & Ro & _).
  pose proof (order_cases _ _ _ _ _ _ Rt Ro) as Hc. unfold diff_round.
  pose proof (λ o, gated_emission_due _ _ _ _ _ _ o Hinv HT HO) as Hdue.
  destruct (compare_cursors cmp (tc w) (oc w)) eqn:Horder; cbn [is_eq andb].
  - destruct Hc as [_ Hl]. destruct (on_leaf (oc w)) eqn:Lo; rewrite Hl; cbn [andb orb].
    + destruct (pair_rows_inv _ _ _ ui _ _ _ (count_cursor_compare (stats w)) Hinv HT HO Horder Hl Lo)
        as (w' & T' & O' & -> & Hi & ? & ?). exists w', T', O'. split; [done|]. split; [done|]. lia.
    + assert (∃ b, shared_node same_node ui w Eq = Some b ∧
        (b = true → ∀ n m, current_node (tc w) = Some n → current_node (oc w) = Some m → n = m))
        as (b & -> & Hb).
      { unfold shared_node. cbn [is_eq andb]. destruct ui; [|by eexists].
        destruct (side_cons _ _ _ _ Ht HT) as (_ & _ & x & T' & -> & Hx).
        destruct (side_cons _ _ _ _ Ho HO) as (_ & _ & y & O' & -> & Hy).
        destruct x as [l n|]; [|by rewrite Hl in Hx; destruct Hx].
        destruct y as [l' n'|]; [|by rewrite Lo in Hy; destruct Hy].
        destruct (step_node_spec _ _ _ _ _ stats_default Rt) as (_ & _ & _ & -> & _).
        destruct (step_node_spec _ _ _ _ _ stats_default Ro) as (_ & _ & _ & -> & _).
        cbn [mbind option_bind]. eexists. split; [done|]. intros Hb ? ? [= <-] [= <-]. by apply same_node_eq. }
      cbn [mbind option_bind]. destruct b.
      * destruct (skip_shared_inv _ _ _ _ _ _ (count_cursor_compare (stats w)) Hinv HT HO Horder Hl Lo
          (Hb eq_refl)) as (w' & T' & O' & -> & Hi & ? & ?).
        exists w', T', O'. split; [done|]. split; [done|]. lia.
      * destruct (advance_other_inv _ _ _ _ _ _ (count_cursor_compare (stats w)) [] Eq Hinv HT HO Horder)
          as (w' & O' & -> & Hi & ?); [done|done|by rewrite Lo|].
        exists w', T, O'. split; [done|]. split; [done|]. lia.
  - destruct (advance_this_inv _ _ _ _ _ _ (count_cursor_compare (stats w)) _ Hinv HT HO Horder eq_refl)
      as (w' & T' & Ha & Hi & ?). exists w', T', O. split; [|split; [done|lia]].
    destruct (on_leaf (tc w) || on_leaf (oc w)) eqn:Hor.
    + by rewrite (Hdue Lt eq_refl).
    + apply orb_false_iff in Hor as [E _]. by rewrite E in Ha.
  - destruct (advance_other_inv _ _ _ _ _ _ (count_cursor_compare (stats w))
      (if on_leaf (oc w) then [only_other (current_key (oc w))] else []) Gt Hinv HT HO Horder)
      as (w' & O' & Ha & Hi & ?); [done|done|done|]. exists w', T, O'. split; [|split; [done|lia]].
    destruct (on_leaf (tc w) || on_leaf (oc w)) eqn:Hor.
    + by rewrite (Hdue Gt eq_refl).
    + apply orb_false_iff in Hor as [_ E]. by rewrite E in Ha.
Qed.

(** ** The whole walk *)

Lemma diff_loop_inv ht ho all ui fuel w T O :
  walk_inv ht ho all w T O → length T + length O ≤ fuel →
  ∃ w' T' O', diff_loop cmp full_equal same_node same_row ui fuel w = Some w' ∧
    walk_inv ht ho all w' T' O' ∧ (T' = [] ∨ O' = []) ∧ length T' ≤ length T ∧ length O' ≤ length O.
Proof.
  revert w T O. induction fuel as [|fuel IH]; intros w T O Hinv Hlen.
  { exists w, T, O. pose proof Hinv as [Ht _ _ _ _ _ _ _]. destruct T; [|cbn in Hlen; lia].
    destruct Ht as [[_ E]|[? _]]; [|done]. cbn [diff_loop]. rewrite E.
    split_and!; [done|done|by left|lia..]. }
  pose proof Hinv as [Ht Ho _ _ _ _ _ _].
  destruct Ht as [[-> E]|(HT & Et & _)].
  { exists w, [], O. cbn [diff_loop]. rewrite E. split_and!; [done|done|by left|lia..]. }
  destruct Ho as [[-> E]|(HO & Eo & _)].
  { exists w, T, []. cbn [diff_loop]. rewrite E, andb_false_r. split_and!; [done|done|by right|lia..]. }
  destruct (diff_round_inv _ _ _ ui _ _ _ Hinv HT HO) as (w1 & T1 & O1 & Hr & Hinv1 & ? & ? & ?).
  destruct (IH w1 T1 O1 Hinv1) as (w' & T' & O' & Hl & Hinv' & Hor & ? & ?); [lia|].
  exists w', T', O'. cbn [diff_loop]. rewrite Et, Eo. cbn [andb]. rewrite Hr. cbn [mbind option_bind].
  split_and!; [done|done|done|lia..].
Qed.

Lemma step_to_end_spec h c T f fuel st :
  represents h c T → length T ≤ fuel →
  ∃ st', step_to_end f fuel c st = Some (f <$> rows_of T, st').
Proof.
  revert c T st. induction fuel as [|fuel IH]; intros c T st Hr Hlen.
  { destruct (represents_facts _ _ _ Hr) as (x & T' & -> & _). cbn in Hlen. lia. }
  destruct (represents_facts _ _ _ Hr) as (x & T' & -> & _ & _ & Hx).
  assert ((match dc_leaf c with Some _ => [f (current_key c)] | None => [] end) ++ (f <$> rows_of T') =
          f <$> rows_of (x :: T')) as Hhere.
  { unfold on_leaf in Hx. destruct x as [l n|l r], (dc_leaf c); destruct Hx as (? & Hx & _); try done.
    by rewrite Hx. }
  cbn [step_to_end].
  destruct (moved_side _ _ _ _ (step_spec _ _ _ _ st Hr)) as (ok & c' & st' & -> & Hs & _).
  cbn [mbind option_bind]. destruct Hs as [[-> ->]|(Hne & -> & Hr')].
  - exists st'. rewrite <-Hhere. cbn [fmap list_fmap]. by rewrite app_nil_r.
  - destruct (IH c' T' st' Hr') as [st'' ->]; [cbn in Hlen; lia|]. cbn [mbind option_bind].
    exists st''. by rewrite Hhere.
Qed.

(** Once one side has ended, the other starts strictly below it: the other
    branches of [finish_walk] are not reached. *)
Lemma finish_walk_spec h c T f fuel finished st :
  represents h c T → length T ≤ fuel → cmp (current_key finished) (current_key c) = Gt →
  ∃ st', finish_walk cmp f fuel c finished st = Some (f <$> rows_of T, st').
Proof.
  intros Hr Hlen Hc. unfold finish_walk, compare_cursors. rewrite Hc. by eapply step_to_end_spec.
Qed.

Lemma tree_height_ok h n : node_ok h n → tree_height n = Some h.
Proof.
  revert n. induction h as [|h IH]; intros [ks|ks cs]; try done.
  intros [[Hf _] Hl]%node_ok_internal. destruct cs as [|c cs]; simpl in *; [lia|].
  apply Forall_cons in Hf as [Hc _]. by rewrite (IH c).
Qed.

Lemma diff_cursor_new_spec (t : btree Row) :
  btree_ok cmp t → size t ≠ 0 →
  ∃ h c, diff_cursor_new t = Some c ∧ represents h c (items 0 (root t)) ∧
    length (items 0 (root t)) = positions (root t) ∧ rows_of (items 0 (root t)) = rev (elems (root t)) ∧
    on_leaf c = false.
Proof.
  intros ([Hr|[h Hr]] & _ & Hz) Hne; [by rewrite Hr in Hz|].
  destruct (max_key_Some h (root t) Hr) as [k Hk].
  exists h, (MkCursor h [[root t]] [0] None k). unfold diff_cursor_new.
  rewrite (tree_height_ok h), Hk by done. split_and!; [done| |by eapply length_items|by eapply rows_items|done].
  rewrite <-(app_nil_r (items 0 (root t))) at 1.
  apply (represents_node h [root t] [] 0 [] (root t) k); [|done|done].
  cbn [levels_ok length]. rewrite Nat.sub_0_r. split_and!; [lia|lia|by constructor|done].
Qed.

Lemma desc_rev l : ssorted cmp l → desc (rev l).
Proof.
  induction 1 as [|x l Hs IH Hx]; [constructor|]. cbn [rev].
  assert (Forall (λ y, cmp y x = Gt) (rev l)) as Hf.
  { apply Forall_rev. eapply Forall_impl; [exact Hx|]. intros y Hy. by apply cmp_lt_gt. }
  induction IH as [|y m Hm IHm Hy]; cbn [app]; [by constructor; constructor|].
  apply Forall_cons in Hf as [Hyx Hf]. constructor; [by apply IHm|].
  apply Forall_app. split; [done|by constructor].
Qed.

Lemma elems_empty (t : btree Row) : btree_ok cmp t → size t = 0 → elems (root t) = [].
Proof. intros (_ & _ & Hz) H. apply nil_length_inv. congruence. Qed.

(** The walk starts with both trees to go. *)
Lemma diff_start (this other : btree Row) st evs :
  btree_ok cmp this → btree_ok cmp other → size this ≠ 0 → size other ≠ 0 →
  merge_diff' (rev (elems (root this))) (rev (elems (root other))) = Some evs →
  ∃ ht ho c d, diff_cursor_new this = Some c ∧ diff_cursor_new other = Some d ∧
    length (items 0 (root this)) = positions (root this) ∧
    length (items 0 (root other)) = positions (root other) ∧
    walk_inv ht ho evs
      (MkWalk c d true true (compare_cursors cmp c d) (count_cursor_compare st) [])
      (items 0 (root this)) (items 0 (root other)).
Proof.
  intros Ht Ho Zt Zo Hm.
  destruct (diff_cursor_new_spec this Ht Zt) as (ht & c & Hc & Hrt & Hlt & Rt & Lt').
  destruct (diff_cursor_new_spec other Ho Zo) as (ho & d & Hd & Hro & Hlo & Ro & Lo').
  exists ht, ho, c, d. split_and!; [done..|].
  destruct Ht as (_ & Hst & _). destruct Ho as (_ & Hso & _). apply desc_rev in Hst, Hso.
  destruct (items_cons 0 (root this)) as [T0 ET], (items_cons 0 (root other)) as [O0 EO].
  split; rewrite ?Rt, ?Ro; cbn [tc oc tok ook events prev]; try done.
  - right. by rewrite ET in *.
  - right. by rewrite EO in *.
  - by rewrite Hm.
  - intros _ _ _. split; [done|by left].
  - by rewrite EO.
  - by rewrite ET.
Qed.

Lemma diff_visit_spec ui (this other : btree Row) st evs :
  btree_ok cmp this → btree_ok cmp other →
  merge_diff' (rev (elems (root this))) (rev (elems (root other))) = Some evs →
  ∃ st', diff_visit cmp full_equal same_node same_row ui this other st = Some (evs, st').
Proof.
  intros Ht Ho Hm. unfold diff_visit.
  destruct (Nat.eqb_spec (size this) 0) as [Zt|Zt], (Nat.eqb_spec (size other) 0) as [Zo|Zo];
    cbn [andb orb].
  - rewrite (elems_empty _ Ht Zt), (elems_empty _ Ho Zo) in Hm. injection Hm as <-. by eexists.
  - rewrite (elems_empty _ Ht Zt) in Hm. cbn [rev] in Hm. rewrite merge_diff_nil_l in Hm. injection Hm as <-.
    destruct (diff_cursor_new_spec other Ho Zo) as (h & c & -> & Hr & Hl & <- & _).
    cbn [mbind option_bind]. eapply step_to_end_spec; [done|]. by rewrite Hl.
  - rewrite (elems_empty _ Ho Zo) in Hm. cbn [rev] in Hm. rewrite merge_diff_nil_r in Hm. injection Hm as <-.
    destruct (diff_cursor_new_spec this Ht Zt) as (h & c & -> & Hr & Hl & <- & _).
    cbn [mbind option_bind]. eapply step_to_end_spec; [done|]. by rewrite Hl.
  - destruct (diff_start this other st evs Ht Ho Zt Zo Hm) as (ht & ho & c & d & -> & -> & Hlt & Hlo & Hinv).
    cbn [mbind option_bind].
    destruct (diff_loop_inv _ _ _ ui (positions (root this) + positions (root other)) _ _ _ Hinv)
      as (w' & T' & O' & -> & [It Io _ _ Hev _ Hot Hoo] & Hor & Hl1 & Hl2); [lia|].
    cbn [mbind option_bind].
    destruct It as [[-> ->]|(HT & -> & Rt)], Io as [[-> ->]|(HO & -> & Ro)]; cbn [mbind option_bind].
    + eexists. cbn in Hev. by rewrite !app_nil_r in *; injection Hev as <-.
    + change (rows_of []) with (@nil Row) in Hev. rewrite merge_diff_nil_l in Hev.
      destruct (finish_walk_spec _ _ _ only_other (positions (root other)) (tc w') (stats w') Ro) as [st' ->];
        [by rewrite <-Hlo|by apply Hoo|].
      eexists. cbn in Hev. injection Hev as <-. done.
    + change (rows_of []) with (@nil Row) in Hev. rewrite merge_diff_nil_r in Hev.
      destruct (finish_walk_spec _ _ _ only_this (positions (root this)) (oc w') (stats w') Rt) as [st' ->];
        [by rewrite <-Hlt|by apply cmp_lt_gt; [|apply Hot]|].
      eexists. cbn in Hev. injection Hev as <-. cbn [mbind option_bind]. by rewrite app_nil_r.
    + destruct Hor; done.
Qed.
End cursor.

(** ** Applying a diff *)

Section apply.
Context {Row : Type} (cmp : Row → Row → comparison) `{!TotalCmp cmp}.
Context (full_equal : Row → Row → option bool).
Context (full_equal_refl : ∀ a, full_equal a a = Some true).
Implicit Types (X Y U : list Row).

Definition apply_event (l : list Row) (e : diff_event Row) : list Row :=
  match e with
  | only_this r => sl_delete cmp r l
  | only_other r => sl_insert cmp r l
  | edit_row a b => sl_insert cmp b (sl_delete cmp a l)
  end.

Definition event_valid (l : list Row) (e : diff_event Row) : Prop :=
  match e with
  | only_this r => r ∈ l
  | only_other r => sl_find cmp r l = None
  | edit_row a b => a ∈ l ∧ sl_find cmp b (sl_delete cmp a l) = None
  end.

(** [X] is all below [U]. *)
Definition all_below X U : Prop := ∀ x u, x ∈ X → u ∈ U → cmp x u = Lt.

Lemma sl_delete_at X a U :
  desc cmp (a :: X) → sl_delete cmp a (rev (a :: X) ++ U) = rev X ++ U.
Proof.
  intros [_ Ha]%StronglySorted_inv. cbn [rev]. rewrite <-(assoc_L (++)), sl_delete_lt.
  - cbn [app sl_delete]. by rewrite cmp_refl.
  - apply Forall_rev. eapply Forall_impl; [exact Ha|]. intros x Hx. by apply cmp_gt_lt.
Qed.

Lemma sl_insert_at X b U :
  (∀ x, x ∈ X → cmp x b = Lt) → (∀ u, u ∈ U → cmp b u = Lt) →
  sl_insert cmp b (rev X ++ U) = rev X ++ b :: U.
Proof.
  intros Hx Hu. rewrite sl_insert_lt.
  - f_equal. destruct U as [|u U]; [done|]. cbn [sl_insert].
    rewrite (cmp_lt_gt cmp b u); [done|]. apply Hu. by left.
  - apply Forall_rev, Forall_forall. exact Hx.
Qed.

(** The two ways [a] at the head of a descending list bounds the rest. *)
Lemma desc_below X a u : desc cmp (a :: X) → cmp a u ≠ Gt → ∀ x, x ∈ X → cmp x u = Lt.
Proof.
  intros [_ Ha]%StronglySorted_inv Hau x Hx. rewrite Forall_forall in Ha.
  apply (cmp_lt_ngt_trans cmp x a u); [by apply cmp_gt_lt, Ha|done].
Qed.

Lemma all_below_cons X a k U :
  desc cmp (a :: X) → cmp a k ≠ Gt → all_below (a :: X) U → all_below X (k :: U).
Proof.
  intros Hd Hk HU x u Hx [->|Hu]%elem_of_cons; [by eapply desc_below|].
  apply HU; [by right|done].
Qed.

Definition agrees (a b : Row) : Prop := full_equal a b = Some true.

(** Every event finds what it removes and adds at a free key. *)
Fixpoint valid_events (l : list Row) (evs : list (diff_event Row)) : Prop :=
  match evs with
  | [] => True
  | e :: evs' => event_valid l e ∧ valid_events (apply_event l e) evs'
  end.

(** The events turn [X] into [Y] below [U], up to rows the diff calls equal. *)
Definition settles X Y U (evs : list (diff_event Row)) : Prop :=
  valid_events (rev X ++ U) evs ∧
  ∃ R, foldl apply_event (rev X ++ U) evs = R ++ U ∧ Forall2 agrees R (rev Y).

Lemma settles_this a X Y U evs :
  desc cmp (a :: X) → settles X Y U evs → settles (a :: X) Y U (only_this a :: evs).
Proof.
  intros Hd [HV HR]. unfold settles. cbn [foldl apply_event valid_events event_valid].
  rewrite sl_delete_at by done. split; [split; [|done]|done].
  cbn [rev]. rewrite !elem_of_app, list_elem_of_singleton. by left; right.
Qed.

Lemma settles_keep k b X Y U evs :
  agrees k b → settles X Y (k :: U) evs →
  valid_events (rev X ++ k :: U) evs ∧
  ∃ R, foldl apply_event (rev X ++ k :: U) evs = R ++ U ∧ Forall2 agrees R (rev (b :: Y)).
Proof.
  intros Hk (HV & R & -> & HR). split; [done|]. exists (R ++ [k]). rewrite <-(assoc_L (++)).
  split; [done|]. cbn [rev]. apply Forall2_app; [done|]. by repeat constructor.
Qed.

Lemma sl_find_gap b X U :
  (∀ x, x ∈ X → cmp x b = Lt) → (∀ u, u ∈ U → cmp b u = Lt) → sl_find cmp b (rev X ++ U) = None.
Proof.
  intros Hx Hu. apply (sl_find_None cmp). intros y [Hy|Hy]%elem_of_app.
  - by rewrite (Hx y) by (by apply list_elem_of_In, in_rev, list_elem_of_In).
  - by rewrite (cmp_lt_gt cmp b y (Hu y Hy)).
Qed.

Lemma settles_other b X Y U evs :
  (∀ x, x ∈ X → cmp x b = Lt) → (∀ u, u ∈ U → cmp b u = Lt) →
  settles X Y (b :: U) evs → settles X (b :: Y) U (only_other b :: evs).
Proof.
  intros Hx Hu HR. unfold settles. cbn [foldl apply_event valid_events event_valid].
  rewrite sl_insert_at by done.
  destruct (settles_keep b b X Y U evs (full_equal_refl b) HR) as [HV HR'].
  split; [split; [by apply sl_find_gap|done]|done].
Qed.

Lemma settles_pair a b eq X Y U evs :
  desc cmp (a :: X) → cmp a b = Eq → full_equal a b = Some eq → (∀ u, u ∈ U → cmp b u = Lt) →
  settles X Y ((if eq : bool then a else b) :: U) evs →
  settles (a :: X) (b :: Y) U (if eq then evs else edit_row a b :: evs).
Proof.
  intros Hd Hc Hfe Hu HR. unfold settles. destruct eq.
  - cbn [rev]. rewrite <-(assoc_L (++)). by apply (settles_keep a b).
  - assert (∀ x, x ∈ X → cmp x b = Lt) as Hx by (by eapply desc_below; [|rewrite Hc]).
    cbn [foldl apply_event valid_events event_valid]. rewrite sl_delete_at, sl_insert_at by done.
    destruct (settles_keep b b X Y U evs (full_equal_refl b) HR) as [HV HR'].
    split; [split; [split; [|by apply sl_find_gap]|done]|done].
    cbn [rev]. rewrite !elem_of_app, list_elem_of_singleton. by left; right.
Qed.

Lemma apply_merge_diff n X Y U evs :
  length X + length Y ≤ n → desc cmp X → desc cmp Y → all_below X U → all_below Y U →
  merge_diff cmp full_equal X Y = Some evs → settles X Y U evs.
Proof.
  revert X Y U evs. induction n as [|n IH]; intros X Y U evs Hn Dx Dy Bx By Hm.
  { destruct X, Y; cbn in Hn; try lia. injection Hm as <-. by split; [|exists []]. }
  assert (∀ l k, all_below (k :: l) U → all_below l U) as Htail
    by (intros l k Hk x u Hx; apply Hk; by right).
  destruct Y as [|b Y].
  { rewrite merge_diff_nil_r in Hm. injection Hm as <-. destruct X as [|a X]; [by split; [|exists []]|].
    apply settles_this, IH; eauto using desc_tail, merge_diff_nil_r. cbn in *; lia. }
  assert (∀ u, u ∈ U → cmp b u = Lt) as Hbu by (intros u Hu; apply By; [by left|done]).
  assert (all_below Y (b :: U)) as Bb by (eapply all_below_cons; [done|by rewrite cmp_refl|done]).
  destruct X as [|a X].
  { rewrite merge_diff_nil_l in Hm. injection Hm as <-.
    apply settles_other; [intros x Hx; by apply elem_of_nil in Hx|done|].
    apply IH; eauto using desc_tail, merge_diff_nil_l; [cbn in *; lia|].
    intros x u Hx. by apply elem_of_nil in Hx. }
  destruct (cmp a b) eqn:Hc.
  - rewrite merge_diff_pair in Hm by done. destruct (full_equal a b) as [eq|] eqn:Hfe; [|done].
    cbn [mbind option_bind] in Hm. destruct (merge_diff cmp full_equal X Y) as [evs'|] eqn:Hm'; [|done].
    cbn [mbind option_bind] in Hm. injection Hm as <-.
    apply settles_pair; [done..|]. apply IH; eauto using desc_tail; [cbn in *; lia|..].
    + eapply all_below_cons; [exact Dx| |done]. destruct eq; by rewrite ?Hc, ?cmp_refl.
    + eapply all_below_cons; [exact Dy| |done].
      destruct eq; [by rewrite (cmp_eq_sym cmp a b)|by rewrite cmp_refl].
  - rewrite (merge_diff_other _ _ _ _ a b) in Hm by done.
    destruct (merge_diff _ _ _ Y) as [evs'|] eqn:Hm'; [|done]. injection Hm as <-.
    assert (∀ x, x ∈ a :: X → cmp x b = Lt) as Hx.
    { intros x [->|Hx]%elem_of_cons; [done|]. eapply desc_below; [exact Dx|by rewrite Hc|done]. }
    apply settles_other; [done..|]. apply IH; eauto using desc_tail; [cbn in *; lia|].
    intros x u Hx' [->|Hu]%elem_of_cons; [by apply Hx|by apply Bx].
  - rewrite (merge_diff_this _ _ _ _ _ b) in Hm by done.
    destruct (merge_diff _ _ X _) as [evs'|] eqn:Hm'; [|done]. injection Hm as <-.
    apply settles_this; [done|]. apply IH; eauto using desc_tail. cbn in *; lia.
Qed.
End apply.

(** ** Rows *)

Lemma compare_values_refl v : compare_values v v = Some Eq.
Proof.
  rewrite compare_values_comparable.
  replace (comparable v v) with true by (symmetry; apply comparable_true; auto). by rewrite cmp_refl.
Qed.

Lemma full_row_equal_refl (a : row) : full_row_equal a a = Some true.
Proof.
  unfold full_row_equal. rewrite Nat.eqb_refl. apply try_all_true.
  induction a as [|v a IH]; cbn [zip zip_with]; constructor; [|done]. cbn [fst snd].
  by rewrite compare_values_refl.
Qed.

(** Rows of one schema can always be compared in full. *)
Lemma full_row_equal_typed types (a b : row) :
  row_typed types a → row_typed types b → is_Some (full_row_equal a b).
Proof.
  intros Ha Hb. unfold full_row_equal. destruct (length a =? length b)%nat; [|by eexists].
  erewrite try_all_total; [by eexists|].
  instantiate (1 := λ p, is_eq (compare_predicate_values p.1 p.2)). intros [x y] Hp. cbn [fst snd].
  apply list_elem_of_lookup in Hp as [i Hp].
  apply lookup_zip_Some in Hp as [Hx Hy]. cbn [fst snd] in *.
  destruct (Forall2_lookup_r _ _ _ _ _ Ha Hx) as (t & Ht & Hxt).
  destruct (Forall2_lookup_r _ _ _ _ _ Hb Hy) as (t' & Ht' & Hyt). simplify_eq.
  rewrite compare_values_comparable.
  replace (comparable x y) with true; [done|]. symmetry. apply comparable_true. naive_solver congruence.
Qed.

Lemma merge_diff_total {Row} (cmp : Row → Row → comparison) full_equal X Y :
  (∀ a b, a ∈ X → b ∈ Y → is_Some (full_equal a b)) → is_Some (merge_diff cmp full_equal X Y).
Proof.
  revert Y. induction X as [|a X IHX]; intros Y; [by rewrite merge_diff_nil_l|].
  induction Y as [|b Y IHY]; intros H; [by rewrite merge_diff_nil_r|].
  destruct (cmp a b) eqn:Hc.
  - rewrite merge_diff_pair by done. destruct (H a b) as [eq ->]; [by left..|].
    destruct (IHX Y) as [evs ->]; [|by eexists]. intros x y Hx Hy. apply H; by right.
  - rewrite (merge_diff_other _ _ _ _ a b) by done.
    destruct IHY as [evs ->]; [|by eexists]. intros x y Hx Hy. apply H; [done|by right].
  - rewrite (merge_diff_this _ _ _ _ _ b) by done.
    destruct (IHX (b :: Y)) as [evs ->]; [|by eexists]. intros x y Hx Hy. apply H; [by right|done].
Qed.

(** Pointer equality, as far as the diff relies on it. *)
Definition sound_identity (same_node : bnode row → bnode row → bool) (same_row : row → row → bool) : Prop :=
  (∀ n m, same_node n m = true → n = m) ∧ (∀ a b, same_row a b = true → a = b).

(** A tree of a table: in order, and all rows of one schema. *)
Definition table_tree (types : list Z) (sort : Sort) (t : btree row) : Prop :=
  btree_ok (row_cmp sort) t ∧ Forall (row_typed types) (elems (root t)).

(** ** What the diff guarantees *)

Section rows.
Context (types : list Z) (sort : Sort).
Context (same_node : bnode row → bnode row → bool) (same_row : row → row → bool).
Context (Hid : sound_identity same_node same_row).

#[local] Abbreviation merge_rows this other :=
  (merge_diff (row_cmp sort) full_row_equal (rev (elems (root this))) (rev (elems (root other)))).

Lemma merge_rows_total this other :
  table_tree types sort this → table_tree types sort other → is_Some (merge_rows this other).
Proof.
  intros [_ Ht] [_ Ho]. apply merge_diff_total. rewrite Forall_forall in Ht, Ho.
  intros a b Ha%list_elem_of_In%in_rev%list_elem_of_In Hb%list_elem_of_In%in_rev%list_elem_of_In.
  eauto using full_row_equal_typed.
Qed.

Lemma diff_visit_merge ui this other st :
  table_tree types sort this → table_tree types sort other →
  ∃ evs st', merge_rows this other = Some evs ∧
    diff_visit (row_cmp sort) full_row_equal same_node same_row ui this other st = Some (evs, st').
Proof.
  intros Ht Ho. destruct (merge_rows_total _ _ Ht Ho) as [evs Hm].
  destruct Hid as [Hn Hr]. destruct Ht as [Ht _], Ho as [Ho _].
  destruct (diff_visit_spec (row_cmp sort) full_row_equal same_node same_row full_row_equal_refl Hn Hr
              ui this other st evs Ht Ho Hm) as [st' Hd]. eauto.
Qed.

Lemma apply_event_tree t e :
  btree_ok (row_cmp sort) t →
  ∃ t', apply_source_change_to_tree t (collect_change e) sort = Some t' ∧ btree_ok (row_cmp sort) t' ∧
    elems (root t') = apply_event (row_cmp sort) (elems (root t)) e.
Proof.
  intros Ht. destruct e as [r|r|a b]; cbn [collect_change apply_source_change_to_tree apply_event].
  - destruct (btree_delete_spec (row_cmp sort) t r Ht) as (t' & -> & ? & ?). by exists t'.
  - destruct (btree_add_spec (row_cmp sort) t r Ht) as (t' & -> & ? & ?). by exists t'.
  - destruct (btree_delete_spec (row_cmp sort) t a Ht) as (t' & -> & Ht' & <-). cbn [mbind option_bind].
    destruct (btree_add_spec (row_cmp sort) t' b Ht') as (t'' & -> & ? & ?). by exists t''.
Qed.

Definition apply_changes (t : btree row) (cs : list source_change) : option (btree row) :=
  try_foldl (λ t c, apply_source_change_to_tree t c sort) t cs.

Lemma apply_events_tree t evs :
  btree_ok (row_cmp sort) t →
  ∃ t', apply_changes t (map collect_change evs) = Some t' ∧ btree_ok (row_cmp sort) t' ∧
    elems (root t') = foldl (apply_event (row_cmp sort)) (elems (root t)) evs.
Proof.
  revert t. induction evs as [|e evs IH]; intros t Ht; [by exists t|].
  destruct (apply_event_tree t e Ht) as (t1 & H1 & Ht1 & E1). destruct (IH t1 Ht1) as (t' & H2 & Ht' & E2).
  exists t'. unfold apply_changes in *. cbn [map]. rewrite try_foldl_cons, H1. cbn [mbind option_bind foldl].
  by rewrite E2, E1.
Qed.

Lemma structural_diff_spec this other :
  table_tree types sort this → table_tree types sort other →
  ∃ cs t', structural_diff same_node same_row this other sort = Some cs ∧
    apply_changes this cs = Some t' ∧ btree_ok (row_cmp sort) t' ∧
    Forall2 (λ a b, full_row_equal a b = Some true) (elems (root t')) (elems (root other)).
Proof.
  intros Ht Ho. destruct (diff_visit_merge true this other stats_default Ht Ho) as (evs & st & Hm & Hd).
  destruct Ht as [Ht _], Ho as [Ho _].
  destruct (apply_events_tree this evs Ht) as (t' & Ha & Ht' & He).
  exists (map collect_change evs), t'. unfold structural_diff. rewrite Hd. split_and!; [done..|].
  pose proof Ht as (_ & St & _). pose proof Ho as (_ & So & _).
  destruct (apply_merge_diff (row_cmp sort) full_row_equal full_row_equal_refl _ _ _ [] evs
    (Nat.le_refl _) (desc_rev _ _ St) (desc_rev _ _ So)) as (_ & R & HR & Hag); [| |done|].
  - intros x u _ Hu. by apply elem_of_nil in Hu.
  - intros x u _ Hu. by apply elem_of_nil in Hu.
  - rewrite !rev_involutive, !app_nil_r in *. rewrite He, HR. exact Hag.
Qed.
End rows.

(** [C5] The walk of two table trees computes the linear merge diff of their
    rows, in descending order: with or without the pointer skips, and for every
    identity oracle that only identifies equal things.  It returns for every two
    trees, whatever their heights. *)
Theorem diff_visit_is_merge (types : list Z) (sort : Sort)
    (same_node : bnode row → bnode row → bool) (same_row : row → row → bool)
    (use_identity : bool) (this other : btree row) (st : DiffStats) :
  sound_identity same_node same_row → table_tree types sort this → table_tree types sort other →
  ∃ evs st',
    diff_visit (row_cmp sort) full_row_equal same_node same_row use_identity this other st =
      Some (evs, st') ∧
    merge_diff (row_cmp sort) full_row_equal (rev (elems (root this))) (rev (elems (root other))) = Some evs.
Proof.
  intros Hid Ht Ho.
  destruct (diff_visit_merge types sort same_node same_row Hid use_identity this other st Ht Ho)
    as (evs & st' & Hm & Hd). eauto.
Qed.

(** [C15] The loop of the diff ends: from the start of two non-empty trees it
    stops after at most one round per node and row of the two, and it stops
    because one of the cursors has run off its tree. *)
Theorem diff_loop_terminates (types : list Z) (sort : Sort)
    (same_node : bnode row → bnode row → bool) (same_row : row → row → bool)
    (use_identity : bool) (this other : btree row) (st : DiffStats) (rounds : nat) :
  sound_identity same_node same_row → table_tree types sort this → table_tree types sort other →
  size this ≠ 0 → size other ≠ 0 → positions (root this) + positions (root other) ≤ rounds →
  ∃ tc0 oc0 w,
    diff_cursor_new this = Some tc0 ∧ diff_cursor_new other = Some oc0 ∧
    diff_loop (row_cmp sort) full_row_equal same_node same_row use_identity rounds
      (MkWalk tc0 oc0 true true (compare_cursors (row_cmp sort) tc0 oc0) st []) = Some w ∧
    tok w && ook w = false.
Proof.
  intros [Hn Hr] Ht Ho Zt Zo Hf.
  destruct (merge_rows_total types sort this other Ht Ho) as [evs Hm].
  destruct Ht as [Ht _], Ho as [Ho _].
  destruct (diff_start (row_cmp sort) full_row_equal this other st evs Ht Ho Zt Zo Hm)
    as (ht & ho & c & d & Hc & Hd & Hlt & Hlo & Hinv).
  assert (∀ st', walk_inv (row_cmp sort) full_row_equal ht ho evs
    (MkWalk c d true true (compare_cursors (row_cmp sort) c d) st' [])
    (items 0 (root this)) (items 0 (root other))) as Hinv' by (intros st'; destruct Hinv; by split).
  destruct (diff_loop_inv (row_cmp sort) full_row_equal same_node same_row full_row_equal_refl Hn Hr
    _ _ _ use_identity rounds _ _ _ (Hinv' st)) as (w & T & O & Hl & [It Io _ _ _ _ _ _] & Hor & _); [lia|].
  exists c, d, w. split_and!; [done..|].
  destruct Hor as [-> | ->].
  - destruct It as [[_ ->]|[? _]]; done.
  - destruct Io as [[_ ->]|[? _]]; [by apply andb_false_r|done].
Qed.

(** [C14] The rewind primitive: the changes [structural_diff] reports, applied to
    the first tree one by one, turn it into the second one, cell by cell. *)
Theorem structural_diff_apply (types : list Z) (sort : Sort)
    (same_node : bnode row → bnode row → bool) (same_row : row → row → bool) (this other : btree row) :
  sound_identity same_node same_row → table_tree types sort this → table_tree types sort other →
  ∃ cs t', structural_diff same_node same_row this other sort = Some cs ∧
    apply_changes sort this cs = Some t' ∧ btree_ok (row_cmp sort) t' ∧
    Forall2 (λ a b, full_row_equal a b = Some true) (elems (root t')) (elems (root other)).
Proof. intros Hid. by apply structural_diff_spec. Qed.

(** The cost of the common case: against its own fork a tree is skipped at the
    root, without a visit to a node or a comparison of rows. *)
Theorem fork_diff_work (sort : Sort) (same_node : bnode row → bnode row → bool)
    (same_row : row → row → bool) (t : btree row) (st : DiffStats) :
  btree_ok (row_cmp sort) t → size t ≠ 0 → same_node (root t) (root (btree_fork t)) = true →
  diff_visit (row_cmp sort) full_row_equal same_node same_row true t (btree_fork t) st =
    Some ([], count_node_skip (count_cursor_compare (count_cursor_compare st))).
Proof.
  destruct t as [n z]. unfold btree_fork, btree_ok. cbn [root size].
  intros ([Hr|[h Hr]] & _ & Hz) Hne Hid; [by rewrite Hr in Hz|].
  destruct (max_key_Some h n Hr) as [k Hk]. unfold diff_visit, diff_cursor_new. cbn [size root].
  destruct (Nat.eqb_spec z 0); [done|]. cbn [andb orb].
  rewrite (tree_height_ok h), Hk by done. cbn [mbind option_bind].
  destruct (positions n + positions n) as [|fuel] eqn:Hf; [by destruct n|].
  cbn [diff_loop tok ook andb]. unfold diff_round, compare_cursors.
  cbn [tc oc current_key on_leaf dc_leaf stats dc_height].
  rewrite !(cmp_refl (cmp := row_cmp sort) k), !Z.compare_refl.
  cbn [is_eq andb orb]. unfold shared_node, current_node. cbn. rewrite Hid. cbn. by destruct fuel.
Qed.

(** ** Witnesses *)

Definition sample_row (id v : Z) : row := [Int (i64_of_Z id); Int (i64_of_Z v)].

Definition sample_sort : Sort := [(0, true)].

Definition sample_types : list Z := Eval vm_compute in map predicate_type_rank (sample_row 0 0).

(** A tree of two levels, and a leaf that shares three of its keys. *)
Definition sample_this : btree row := Eval vm_compute in
  BTree (Internal [sample_row 2 0; sample_row 5 0]
           [Leaf [sample_row 1 0; sample_row 2 0]; Leaf [sample_row 4 0; sample_row 5 0]]) 4.

Definition sample_other : btree row := Eval vm_compute in
  BTree (Leaf [sample_row 1 0; sample_row 2 7; sample_row 3 0; sample_row 5 0]) 4.

Definition never_same {A} (a b : A) : bool := false.

Ltac solve_table_tree :=
  repeat (first [apply Forall_nil_2|apply Forall_cons_2|apply SSorted_nil|apply SSorted_cons
                |apply Forall2_nil|apply Forall2_cons_2]); try (vm_compute; tauto).

Lemma sample_this_ok : table_tree sample_types sample_sort sample_this.
Proof.
  split; [|solve_table_tree]. split; [right; exists 1|split; [solve_table_tree|done]].
  cbn. unfold MAX_NODE_SIZE. split_and!; [lia|lia| |done]. repeat constructor; cbn; lia.
Qed.

Lemma sample_other_ok : table_tree sample_types sample_sort sample_other.
Proof.
  split; [|solve_table_tree]. split; [right; exists 0|split; [solve_table_tree|done]].
  cbn. unfold MAX_NODE_SIZE. lia.
Qed.

Lemma never_same_sound : sound_identity never_same never_same.
Proof. by split. Qed.

Lemma diff_visit_is_merge_witness :
  ∃ evs st',
    diff_visit (row_cmp sample_sort) full_row_equal never_same never_same true sample_this sample_other
      stats_default = Some (evs, st') ∧
    merge_diff (row_cmp sample_sort) full_row_equal (rev (elems (root sample_this)))
      (rev (elems (root sample_other))) = Some evs ∧
    evs = [only_this (sample_row 4 0); only_other (sample_row 3 0);
           edit_row (sample_row 2 0) (sample_row 2 7)].
Proof.
  destruct (diff_visit_is_merge sample_types sample_sort never_same never_same true sample_this sample_other
    stats_default never_same_sound sample_this_ok sample_other_ok) as (evs & st' & H1 & H2).
  exists evs, st'. split; [exact H1|]. split; [exact H2|].
  revert H2. vm_compute. intros [= <-]. reflexivity.
Defined.

Lemma diff_loop_terminates_witness :
  ∃ tc0 oc0 w,
    diff_cursor_new sample_this = Some tc0 ∧ diff_cursor_new sample_other = Some oc0 ∧
    diff_loop (row_cmp sample_sort) full_row_equal never_same never_same true 12
      (MkWalk tc0 oc0 true true (compare_cursors (row_cmp sample_sort) tc0 oc0) stats_default []) = Some w ∧
    tok w && ook w = false.
Proof.
  apply (diff_loop_terminates sample_types sample_sort never_same never_same true sample_this sample_other
    stats_default 12 never_same_sound sample_this_ok sample_other_ok); vm_compute; lia.
Defined.

Lemma structural_diff_apply_witness :
  ∃ cs t', structural_diff never_same never_same sample_this sample_other sample_sort = Some cs ∧
    apply_changes sample_sort sample_this cs = Some t' ∧ btree_ok (row_cmp sample_sort) t' ∧
    Forall2 (λ a b, full_row_equal a b = Some true) (elems (root t')) (elems (root sample_other)).
Proof.
  apply (structural_diff_apply sample_types sample_sort never_same never_same sample_this sample_other
    never_same_sound sample_this_ok sample_other_ok).
Defined.
