(* ===== verification/Predicate.v ===== *)
(** * Compiled predicates and LIKE ([rust/src/predicate.rs])

    [eval] of a compiled predicate on a row, the literal set behind [IN], and
    the compiled [LIKE] matcher with its backtracking walk.  The walk is proved
    total and equal to the relation a pattern denotes. *)

From stdpp Require Import base list numbers option sets.
From Stdlib Require Import Lia Strings.Byte.
From S2P Require Import Prelude Values Rows.

(** ** LIKE patterns *)

Inductive LikeTok : Type :=
  | Lit (run : list byte)
  | One
  | Any.

#[export] Instance LikeTok_eq_dec : EqDecision LikeTok.
Proof. solve_decision. Defined.

Record LikeMatcher := MkLike { toks : list LikeTok; case_insensitive : bool }.

(** [u8::to_ascii_lowercase]. *)
Definition to_ascii_lowercase (b : byte) : byte :=
  let n := Byte.to_N b in
  if (65 <=? n)%N && (n <=? 90)%N then default b (Byte.of_N (n + 32)) else b.

(** [flush]: close the literal run. *)
Definition flush (lit : list byte) (ts : list LikeTok) : list LikeTok :=
  match lit with [] => ts | _ => ts ++ [Lit lit] end.

(** The loop of [compile_with_case]; the pattern is what remains from [i] on. *)
Fixpoint compile_loop (pattern lit : list byte) (ts : list LikeTok) : list LikeTok :=
  match pattern with
  | [] => flush lit ts
  | b :: rest =>
      if decide (b = x5c) then
        match rest with
        | n :: rest' =>
            if decide (n = x25 ∨ n = x5f ∨ n = x5c)
            then compile_loop rest' (lit ++ [n]) ts
            else compile_loop rest' (lit ++ [x5c] ++ [n]) ts
        | [] => compile_loop rest (lit ++ [x5c]) ts
        end
      else if decide (b = x25) then
        let ts := flush lit ts in
        compile_loop rest [] (if decide (last ts = Some Any) then ts else ts ++ [Any])
      else if decide (b = x5f) then
        compile_loop rest [] (flush lit ts ++ [One])
      else compile_loop rest (lit ++ [b]) ts
  end.

Definition compile_with_case (pattern : list byte) (ci : bool) : LikeMatcher :=
  MkLike (compile_loop pattern [] []) ci.

Definition compile (pattern : list byte) : LikeMatcher := compile_with_case pattern false.

Definition compile_case_insensitive (pattern : list byte) : LikeMatcher :=
  compile_with_case pattern true.

(** [<[u8]>::eq_ignore_ascii_case]. *)
Definition eq_ignore_ascii_case (x y : list byte) : bool :=
  bool_decide (to_ascii_lowercase <$> x = to_ascii_lowercase <$> y).

Definition lit_matches (m : LikeMatcher) (text : list byte) (start : nat) (run : list byte) : bool :=
  let end_ := start + length run in
  if decide (length text < end_) then false
  else if case_insensitive m
  then eq_ignore_ascii_case (take (length run) (drop start text)) run
  else bool_decide (run `prefix_of` drop start text).

(** Each round moves the token index forward, or moves the restart point of
    the last [%] one byte forward: [matches_fuel] rounds suffice. *)
Fixpoint matches_loop (m : LikeMatcher) (text : list byte) (fuel ti si : nat)
    (star : option (nat * nat)) : option bool :=
  match fuel with
  | O => None
  | S fuel =>
      let backtrack :=
        match star with
        | Some (st, ss) =>
            if decide (length text < ss + 1) then Some false
            else matches_loop m text fuel st (ss + 1) (Some (st, ss + 1))
        | None => Some false
        end in
      match toks m !! ti with
      | Some (Lit run) =>
          if lit_matches m text si run
          then matches_loop m text fuel (ti + 1) (si + length run) star
          else backtrack
      | Some One =>
          if decide (si < length text)
          then matches_loop m text fuel (ti + 1) (si + 1) star
          else backtrack
      | Some Any => matches_loop m text fuel (ti + 1) si (Some (ti + 1, si))
      | None => if decide (si = length text) then Some true else backtrack
      end
  end.

Definition matches_fuel (m : LikeMatcher) (text : list byte) : nat :=
  (length text + 1) * (length (toks m) + 1) + length (toks m) + 1.

Definition matches (m : LikeMatcher) (text : list byte) : option bool :=
  matches_loop m text (matches_fuel m text) 0 0 None.

(** ** Predicates *)

Inductive CmpOp := CEq | CNe | CLt | CLe | CGt | CGe.

Definition ValueSet := list value.

Definition contains (set : ValueSet) (needle : value) : bool :=
  existsb (λ v, values_identical v needle) set.

Inductive CompiledPredicate : Type :=
  | PCmp (col : nat) (op : CmpOp) (v : value)
  | PIn (col : nat) (set : ValueSet) (negated : bool)
  | PLike (col : nat) (matcher : LikeMatcher) (negated : bool)
  | PIs (col : nat) (v : value) (negated : bool)
  | PIsNull (col : nat) (negated : bool)
  | PConst (b : bool).

Definition cmp_op_matches (op : CmpOp) (ord : comparison) : bool :=
  match op, ord with
  | CLt, Lt | CLe, (Lt | Eq) | CGt, Gt | CGe, (Gt | Eq) => true
  | _, _ => false
  end.

Definition eval (p : CompiledPredicate) (r : row) : option bool :=
  match p with
  | PConst b => Some b
  | PIs col v negated =>
      c ← r !! col; Some (xorb (values_identical c v) negated)
  | PIsNull col negated =>
      c ← r !! col; Some (xorb (is_null c) negated)
  | PCmp col op v =>
      c ← r !! col;
      if is_null c then Some false
      else
        match op with
        | CEq => Some (values_identical c v)
        | CNe => Some (negb (values_identical c v))
        | CLt | CLe | CGt | CGe =>
            if is_null v then Some false
            else Some (cmp_op_matches op (compare_predicate_values c v))
        end
  | PIn col set negated =>
      c ← r !! col;
      if is_null c then Some false
      else Some (xorb (contains set c) negated)
  | PLike col matcher negated =>
      c ← r !! col;
      if is_null c then Some false
      else
        hit ← match c with
              | Str b | Json b => matches matcher b
              | _ => Some false
              end;
        Some (xorb hit negated)
  end.

(** ** What a pattern denotes *)

Definition byte_eq (ci : bool) (a b : byte) : Prop :=
  if ci then to_ascii_lowercase a = to_ascii_lowercase b else a = b.

(** The texts a LIKE pattern matches: [%] any run, [_] one byte, a backslash
    escapes [%], [_] and itself and is literal elsewhere. *)
Inductive like (ci : bool) : list byte → list byte → Prop :=
  | like_nil : like ci [] []
  | like_percent p s t : like ci p t → like ci (x25 :: p) (s ++ t)
  | like_underscore p c t : like ci p t → like ci (x5f :: p) (c :: t)
  | like_escaped n p c t :
      n = x25 ∨ n = x5f ∨ n = x5c → byte_eq ci n c → like ci p t →
      like ci (x5c :: n :: p) (c :: t)
  | like_backslash n p c d t :
      ¬ (n = x25 ∨ n = x5f ∨ n = x5c) → byte_eq ci x5c c → byte_eq ci n d → like ci p t →
      like ci (x5c :: n :: p) (c :: d :: t)
  | like_backslash_end c : byte_eq ci x5c c → like ci [x5c] [c]
  | like_literal b p c t :
      b ≠ x25 → b ≠ x5f → b ≠ x5c → byte_eq ci b c → like ci p t → like ci (b :: p) (c :: t).

(** The texts a token list matches. *)
Inductive toks_match (ci : bool) : list LikeTok → list byte → Prop :=
  | tm_nil : toks_match ci [] []
  | tm_lit run s ts t : Forall2 (byte_eq ci) run s → toks_match ci ts t → toks_match ci (Lit run :: ts) (s ++ t)
  | tm_one c ts t : toks_match ci ts t → toks_match ci (One :: ts) (c :: t)
  | tm_any s ts t : toks_match ci ts t → toks_match ci (Any :: ts) (s ++ t).

Section tokens.
Context (ci : bool).
Implicit Types (ts : list LikeTok) (t : list byte).

Lemma toks_match_nil t : toks_match ci [] t ↔ t = [].
Proof. split; [by inversion 1|intros ->; constructor]. Qed.

Lemma toks_match_lit run ts t :
  toks_match ci (Lit run :: ts) t ↔
  ∃ s t', t = s ++ t' ∧ Forall2 (byte_eq ci) run s ∧ toks_match ci ts t'.
Proof. split; [inversion 1; subst; eauto|intros (s & t' & -> & ? & ?); by constructor]. Qed.

Lemma toks_match_one ts t :
  toks_match ci (One :: ts) t ↔ ∃ c t', t = c :: t' ∧ toks_match ci ts t'.
Proof. split; [inversion 1; subst; eauto|intros (c & t' & -> & ?); by constructor]. Qed.

Lemma toks_match_any ts t :
  toks_match ci (Any :: ts) t ↔ ∃ s t', t = s ++ t' ∧ toks_match ci ts t'.
Proof. split; [inversion 1; subst; eauto|intros (s & t' & -> & ?); by constructor]. Qed.

Lemma toks_match_app ts1 ts2 t :
  toks_match ci (ts1 ++ ts2) t ↔
  ∃ t1 t2, t = t1 ++ t2 ∧ toks_match ci ts1 t1 ∧ toks_match ci ts2 t2.
Proof.
  revert t. induction ts1 as [|[run| |] ts1 IH]; intros t; simpl.
  - setoid_rewrite toks_match_nil. split; [by exists [], t|by intros (? & ? & -> & -> & ?)].
  - rewrite toks_match_lit. setoid_rewrite IH. setoid_rewrite toks_match_lit. split.
    + intros (s & ? & -> & ? & t1 & t2 & -> & ? & ?). exists (s ++ t1), t2.
      rewrite <-app_assoc. naive_solver.
    + intros (? & t2 & -> & (s & t1 & -> & ? & ?) & ?). exists s, (t1 ++ t2).
      rewrite <-app_assoc. naive_solver.
  - rewrite toks_match_one. setoid_rewrite IH. setoid_rewrite toks_match_one. split.
    + intros (c & ? & -> & t1 & t2 & -> & ? & ?). exists (c :: t1), t2. naive_solver.
    + intros (? & t2 & -> & (c & t1 & -> & ?) & ?). exists c, (t1 ++ t2). naive_solver.
  - rewrite toks_match_any. setoid_rewrite IH. setoid_rewrite toks_match_any. split.
    + intros (s & ? & -> & t1 & t2 & -> & ? & ?). exists (s ++ t1), t2.
      rewrite <-app_assoc. naive_solver.
    + intros (? & t2 & -> & (s & t1 & -> & ?) & ?). exists s, (t1 ++ t2).
      rewrite <-app_assoc. naive_solver.
Qed.

(** The texts matched by [flush lit ts]: the tokens, then the literal run. *)
Lemma flush_match lit ts t :
  toks_match ci (flush lit ts) t ↔
  ∃ t1 s, t = t1 ++ s ∧ toks_match ci ts t1 ∧ Forall2 (byte_eq ci) lit s.
Proof.
  assert (toks_match ci (ts ++ [Lit lit]) t ↔
    ∃ t1 s, t = t1 ++ s ∧ toks_match ci ts t1 ∧ Forall2 (byte_eq ci) lit s) as H.
  { rewrite toks_match_app. setoid_rewrite toks_match_lit. setoid_rewrite toks_match_nil.
    split; [intros (t1 & ? & -> & ? & s & ? & -> & ? & ->); rewrite app_nil_r; eauto|].
    intros (t1 & s & -> & ? & ?). exists t1, s. split_and!; [done..|].
    exists s, []. by rewrite app_nil_r. }
  destruct lit as [|b lit]; [|done]. simpl. split.
  - intros Ht. exists t, []. rewrite app_nil_r. by split_and!.
  - intros (t1 & s & -> & Ht & ->%Forall2_nil_inv_l). by rewrite app_nil_r.
Qed.

(** A second [%] in a row adds nothing. *)
Lemma any_absorb ts t :
  toks_match ci (if decide (last ts = Some Any) then ts else ts ++ [Any]) t ↔
  ∃ t1 s, t = t1 ++ s ∧ toks_match ci ts t1.
Proof.
  assert (∀ ts t, toks_match ci (ts ++ [Any]) t ↔ ∃ t1 s, t = t1 ++ s ∧ toks_match ci ts t1) as H.
  { clear. intros ts t. rewrite toks_match_app. setoid_rewrite toks_match_any.
    setoid_rewrite toks_match_nil. split; [naive_solver|].
    intros (t1 & s & -> & ?). exists t1, s. split_and!; [done..|].
    exists s, []. by rewrite app_nil_r. }
  case_decide as Hl; [|apply H].
  apply last_Some in Hl as [ts' ->]. setoid_rewrite H. split.
  - intros (t1 & s & -> & ?). exists t1, s. split; [done|]. exists t1, []. by rewrite app_nil_r.
  - intros (? & s' & -> & t1 & s & -> & ?). exists t1, (s ++ s'). by rewrite app_assoc.
Qed.
End tokens.

Section compile.
Context (ci : bool).

(** What is matched by tokens followed by a pattern. *)
Definition then_like (ts : list LikeTok) (p t : list byte) : Prop :=
  ∃ t1 t2, t = t1 ++ t2 ∧ toks_match ci ts t1 ∧ like ci p t2.

Lemma flush_snoc lit b ts t :
  toks_match ci (flush (lit ++ [b]) ts) t ↔
  ∃ t1 c, t = t1 ++ [c] ∧ byte_eq ci b c ∧ toks_match ci (flush lit ts) t1.
Proof.
  rewrite flush_match. setoid_rewrite flush_match. split.
  - intros (t1 & s & -> & Ht & Hs). apply Forall2_app_inv_l in Hs as (s1 & s2 & Hs1 & Hs2 & ->).
    apply Forall2_cons_inv_l in Hs2 as (c & s3 & Hc & ->%Forall2_nil_inv_l & ->).
    exists (t1 ++ s1), c. rewrite app_assoc. naive_solver.
  - intros (? & c & -> & Hc & t1 & s & -> & Ht & Hs). exists t1, (s ++ [c]).
    rewrite app_assoc. split_and!; [done..|]. apply Forall2_app; [done|]. by repeat constructor.
Qed.

(** A literal byte can be read off the tokens or off the pattern. *)
Lemma then_like_literal lit b ts p t :
  then_like (flush (lit ++ [b]) ts) p t ↔
  ∃ t1 c t2, t = t1 ++ c :: t2 ∧ byte_eq ci b c ∧ toks_match ci (flush lit ts) t1 ∧ like ci p t2.
Proof.
  unfold then_like. setoid_rewrite flush_snoc. split.
  - intros (? & t2 & -> & (t1 & c & -> & ? & ?) & ?). exists t1, c, t2. by rewrite <-app_assoc.
  - intros (t1 & c & t2 & -> & ? & ? & ?). exists (t1 ++ [c]), t2.
    rewrite <-app_assoc. naive_solver.
Qed.

Lemma then_like_step ts p p' t :
  (∀ t, like ci p t ↔ ∃ c t', t = c :: t' ∧ p' c t') →
  then_like ts p t ↔ ∃ t1 c t2, t = t1 ++ c :: t2 ∧ toks_match ci ts t1 ∧ p' c t2.
Proof. intros H. unfold then_like. setoid_rewrite H. naive_solver. Qed.

Lemma like_percent_iff p t : like ci (x25 :: p) t ↔ ∃ s t', t = s ++ t' ∧ like ci p t'.
Proof. split; [inversion 1; naive_solver|intros (s & t' & -> & ?); by constructor]. Qed.

Lemma like_underscore_iff p t : like ci (x5f :: p) t ↔ ∃ c t', t = c :: t' ∧ like ci p t'.
Proof. split; [inversion 1; naive_solver|intros (s & t' & -> & ?); by constructor]. Qed.

Lemma like_escaped_iff n p t :
  n = x25 ∨ n = x5f ∨ n = x5c →
  like ci (x5c :: n :: p) t ↔ ∃ c t', t = c :: t' ∧ byte_eq ci n c ∧ like ci p t'.
Proof.
  intros Hn. split; [inversion 1; naive_solver|].
  intros (c & t' & -> & ? & ?). by apply like_escaped.
Qed.

Lemma like_backslash_iff n p t :
  ¬ (n = x25 ∨ n = x5f ∨ n = x5c) →
  like ci (x5c :: n :: p) t ↔
  ∃ c t', t = c :: t' ∧ byte_eq ci x5c c ∧ ∃ d t'', t' = d :: t'' ∧ byte_eq ci n d ∧ like ci p t''.
Proof.
  intros Hn. split; [inversion 1; naive_solver|].
  intros (c & t' & -> & ? & d & t'' & -> & ? & ?). by apply like_backslash.
Qed.

Lemma like_literal_iff b p t :
  b ≠ x25 → b ≠ x5f → b ≠ x5c →
  like ci (b :: p) t ↔ ∃ c t', t = c :: t' ∧ byte_eq ci b c ∧ like ci p t'.
Proof.
  intros. split; [inversion 1; naive_solver|].
  intros (c & t' & -> & ? & ?). by apply like_literal.
Qed.

Lemma like_nil_iff t : like ci [] t ↔ t = [].
Proof. split; [by inversion 1|intros ->; constructor]. Qed.

Lemma compile_loop_spec n p lit ts t :
  length p ≤ n →
  toks_match ci (compile_loop p lit ts) t ↔ then_like (flush lit ts) p t.
Proof.
  revert p lit ts t. induction n as [|n IH]; intros p lit ts t Hl.
  { destruct p; [|simpl in Hl; lia]. simpl. unfold then_like. setoid_rewrite like_nil_iff.
    split; [intros; exists t, []; by rewrite app_nil_r|].
    intros (t1 & ? & -> & ? & ->). by rewrite app_nil_r. }
  destruct p as [|b p]; [by apply IH; simpl; lia|]. cbn [compile_loop]. simpl in Hl.
  case_decide as Hb; [subst b; destruct p as [|c p]; [|case_decide as Hc]|].
  - rewrite IH, then_like_literal by (simpl; lia). rewrite (then_like_step _ _ (λ c t', byte_eq ci x5c c ∧ like ci [] t')).
    { naive_solver. }
    intros u. setoid_rewrite like_nil_iff. split; [inversion 1; naive_solver|].
    intros (c & ? & -> & ? & ->). by constructor.
  - simpl in Hl. rewrite IH, then_like_literal by lia.
    rewrite (then_like_step _ _ _ t (λ u, like_escaped_iff c p u Hc)). naive_solver.
  - simpl in Hl. rewrite app_assoc. rewrite IH, then_like_literal by lia.
    rewrite (then_like_step _ _ _ t (λ u, like_backslash_iff c p u Hc)). setoid_rewrite flush_snoc. split.
    + intros (? & d & t2 & -> & ? & (t1 & e & -> & ? & ?) & ?). exists t1, e, (d :: t2).
      rewrite <-app_assoc. naive_solver.
    + intros (t1 & e & ? & -> & ? & ? & d & t2 & -> & ? & ?). exists (t1 ++ [e]), d, t2.
      rewrite <-app_assoc. naive_solver.
  - case_decide as Hp; [subst b|case_decide as Hu; [subst b|]].
    + rewrite IH by lia. unfold then_like. cbn [flush]. setoid_rewrite any_absorb.
      setoid_rewrite like_percent_iff. split.
      * intros (? & t2 & -> & (t1 & s & -> & ?) & ?). exists t1, (s ++ t2).
        rewrite <-app_assoc. naive_solver.
      * intros (t1 & ? & -> & ? & s & t2 & -> & ?). exists (t1 ++ s), t2.
        rewrite <-app_assoc. naive_solver.
    + rewrite IH by lia. unfold then_like at 1. cbn [flush]. setoid_rewrite toks_match_app.
      setoid_rewrite toks_match_one. setoid_rewrite toks_match_nil.
      rewrite (then_like_step _ _ _ t (like_underscore_iff p)). split.
      * intros (? & t2 & -> & (t1 & ? & -> & ? & c & ? & -> & ->) & ?). exists t1, c, t2.
        by rewrite <-app_assoc.
      * intros (t1 & c & t2 & -> & ? & ?). exists (t1 ++ [c]), t2. rewrite <-app_assoc. naive_solver.
    + rewrite IH, then_like_literal by lia.
      rewrite (then_like_step _ _ _ t (λ u, like_literal_iff b p u Hp Hu Hb)). naive_solver.
Qed.
End compile.

(** ** The backtracking walk

    Only the last [%] is ever restarted.  That loses nothing: the tokens since
    the last [%] have a fixed length, so a match that restarts an earlier [%]
    further right also restarts the last one further right. *)

Section walk.
Context (m : LikeMatcher) (text : list byte).
Let ci : bool := case_insensitive m.
Let N : nat := length text.
Let T : nat := length (toks m).

(** The tokens from [ti] match the text from [si]. *)
Definition rest_match (ti si : nat) : Prop :=
  si ≤ N ∧ toks_match ci (drop ti (toks m)) (drop si text).

Lemma lit_matches_spec si run :
  lit_matches m text si run = true ↔
  si + length run ≤ N ∧ Forall2 (byte_eq ci) run (take (length run) (drop si text)).
Proof.
  unfold lit_matches. fold N ci. case_decide as Hd; [split; [done|lia]|].
  assert (si + length run ≤ N ∧ Forall2 (byte_eq ci) run (take (length run) (drop si text)) ↔
    Forall2 (byte_eq ci) run (take (length run) (drop si text))) as -> by (split; [tauto|]; intros; split; [lia|done]).
  unfold byte_eq. destruct ci.
  - unfold eq_ignore_ascii_case. rewrite bool_decide_eq_true. split.
    + intros H. symmetry in H. apply list_eq_Forall2 in H.
      exact (Forall2_fmap_1 _ _ _ _ _ H).
    + intros H. symmetry. apply list_eq_Forall2.
      exact (Forall2_fmap_2 _ _ _ _ _ H).
  - rewrite bool_decide_eq_true. rewrite <-list_eq_Forall2. split.
    + intros [k Hk]. rewrite Hk. by rewrite take_app_length.
    + intros H. exists (drop (length run) (drop si text)). rewrite H at 1. by rewrite take_drop.
Qed.

Lemma rest_match_lit ti si run :
  toks m !! ti = Some (Lit run) →
  rest_match ti si ↔ lit_matches m text si run = true ∧ rest_match (ti + 1) (si + length run).
Proof.
  intros Ht. unfold rest_match. rewrite lit_matches_spec, (drop_S _ _ _ Ht), toks_match_lit.
  rewrite Nat.add_1_r, <-drop_drop. split.
  - intros (Hs & s & t' & He & Hrun & Hts).
    assert (length run = length s) as Hlen by (by eapply Forall2_length).
    assert (length (drop si text) = length s + length t') as Hn by (by rewrite He, length_app).
    rewrite length_drop in Hn. unfold N in *. rewrite He, Hlen, take_app_length, drop_app_length.
    split_and!; [lia|done|lia|done].
  - intros ((Hs & Hrun) & _ & Hts). split; [lia|]. eexists _, _.
    split_and!; [|exact Hrun|exact Hts]. by rewrite take_drop.
Qed.

Lemma rest_match_one ti si :
  toks m !! ti = Some One → rest_match ti si ↔ si < N ∧ rest_match (ti + 1) (si + 1).
Proof.
  intros Ht. unfold rest_match. rewrite (drop_S _ _ _ Ht), toks_match_one, !Nat.add_1_r. split.
  - intros (Hs & c & t' & He & Hts).
    assert (length (drop si text) = S (length t')) as Hn by (by rewrite He).
    rewrite length_drop in Hn. unfold N in *. split_and!; [lia..|].
    replace (S si) with (si + 1) by lia. by rewrite <-drop_drop, He.
  - intros (Hs & _ & Hts). split; [lia|].
    destruct (lookup_lt_is_Some_2 text si Hs) as [c Hc]. exists c, (drop (S si) text).
    split; [by apply drop_S|done].
Qed.

Lemma rest_match_any ti si :
  toks m !! ti = Some Any → rest_match ti si ↔ ∃ k, si ≤ k ∧ rest_match (ti + 1) k.
Proof.
  intros Ht. unfold rest_match. rewrite (drop_S _ _ _ Ht), toks_match_any, !Nat.add_1_r. split.
  - intros (Hs & s & t' & He & Hts).
    assert (length (drop si text) = length s + length t') as Hn by (by rewrite He, length_app).
    rewrite length_drop in Hn. unfold N in *. exists (si + length s).
    split_and!; [lia..|]. by rewrite <-drop_drop, He, drop_app_length.
  - intros (k & Hk & Hle & Hts). split; [lia|]. exists (take (k - si) (drop si text)), (drop k text).
    split; [|done]. replace k with (si + (k - si)) at 2 by lia. by rewrite <-drop_drop, take_drop.
Qed.

Lemma rest_match_end ti si : toks m !! ti = None → rest_match ti si ↔ si = N.
Proof.
  intros Ht%lookup_ge_None. unfold rest_match. rewrite drop_ge by done. rewrite toks_match_nil. split.
  - intros [Hs Hd]. apply (f_equal length) in Hd. rewrite length_drop in Hd. unfold N in *.
    simpl in Hd. lia.
  - intros ->. split; [done|]. by apply drop_ge.
Qed.

(** What the walk still has to decide, and what it keeps true. *)
Definition star_pos (star : option (nat * nat)) : nat := default 0 (snd <$> star).

Definition answer (ti si : nat) (star : option (nat * nat)) : Prop :=
  rest_match ti si ∨ ∃ st ss k, star = Some (st, ss) ∧ ss < k ∧ rest_match st k.

Definition walk_inv (ti si : nat) (star : option (nat * nat)) : Prop :=
  si ≤ N ∧ ti ≤ T ∧ ∀ st ss, star = Some (st, ss) →
    st ≤ T ∧ ss ≤ si ∧ ∀ k, rest_match st k → rest_match ti (k + (si - ss)).

Definition walk_measure (ti : nat) (star : option (nat * nat)) : nat :=
  (N + 1 - star_pos star) * (T + 1) + (T - ti).

Lemma walk_measure_backtrack ti st ss :
  ss < N → st ≤ T → walk_measure st (Some (st, ss + 1)) < walk_measure ti (Some (st, ss)).
Proof. intros. unfold walk_measure, star_pos. simpl. nia. Qed.

Lemma walk_backtrack fuel ti si star :
  (∀ ti si star, walk_inv ti si star → walk_measure ti star < fuel →
     ∃ b, matches_loop m text fuel ti si star = Some b ∧ (b = true ↔ answer ti si star)) →
  walk_inv ti si star → walk_measure ti star < S fuel → ¬ rest_match ti si →
  ∃ b, match star with
       | Some (st, ss) =>
           if decide (N < ss + 1) then Some false
           else matches_loop m text fuel st (ss + 1) (Some (st, ss + 1))
       | None => Some false
       end = Some b ∧ (b = true ↔ answer ti si star).
Proof.
  intros IH (Hsi & Hti & Hstar) Hfuel Hno. destruct star as [[st ss]|].
  2: { exists false. split; [done|]. split; [done|]. intros [?|(? & ? & ? & ? & _)]; done. }
  destruct (Hstar st ss eq_refl) as (Hst & Hss & _). case_decide as Hd.
  - exists false. split; [done|]. split; [done|]. intros [?|(st' & ss' & k & ? & Hk & Hm)]; [done|].
    simplify_eq. destruct Hm as [Hm _]. lia.
  - destruct (IH st (ss + 1) (Some (st, ss + 1))) as (b & -> & Hb).
    + split_and!; [lia|done|]. intros ? ? [= <- <-]. split_and!; [done..|].
      intros k Hk. by rewrite Nat.sub_diag, Nat.add_0_r.
    + pose proof (walk_measure_backtrack ti st ss ltac:(lia) Hst). lia.
    + exists b. split; [done|]. rewrite Hb. unfold answer. split.
      * intros [Hm|(st' & ss' & k & ? & Hk & Hm)]; simplify_eq; right;
          [exists st, ss, (ss + 1)|exists st', ss, k]; split_and!; done || lia.
      * intros [?|(st' & ss' & k & ? & Hk & Hm)]; [done|]. simplify_eq.
        destruct (decide (k = ss' + 1)) as [->|]; [by left|]. right.
        exists st', (ss' + 1), k. split_and!; [done|lia|done].
Qed.

(** The walk over a token of fixed length [d]. *)
Lemma walk_advance ti si star d :
  walk_inv ti si star → ti < T → si + d ≤ N →
  (∀ k, rest_match ti k → rest_match (ti + 1) (k + d)) →
  walk_inv (ti + 1) (si + d) star ∧ walk_measure (ti + 1) star < walk_measure ti star.
Proof.
  intros (Hsi & Hti & Hstar) Hlt Hd Hstep. split; [|unfold walk_measure; lia].
  split_and!; [lia..|]. intros st ss Hs. destruct (Hstar st ss Hs) as (Hst & Hss & Hseg).
  split_and!; [done|lia|]. intros k Hk. apply Hseg, Hstep in Hk.
  by replace (k + (si + d - ss)) with (k + (si - ss) + d) by lia.
Qed.

Lemma answer_step ti si ti' si' star :
  (rest_match ti si ↔ rest_match ti' si') → answer ti' si' star ↔ answer ti si star.
Proof. unfold answer. intros ->. done. Qed.

Lemma answer_any ti si star :
  toks m !! ti = Some Any → walk_inv ti si star →
  answer (ti + 1) si (Some (ti + 1, si)) ↔ answer ti si star.
Proof.
  intros Ht (_ & _ & Hstar). unfold answer. rewrite (rest_match_any ti si Ht). split.
  - intros [Hm|(st & ss & k & ? & Hk & Hm)]; left; [exists si|simplify_eq; exists k]; split; done || lia.
  - assert (∀ k, si ≤ k → rest_match (ti + 1) k → answer (ti + 1) si (Some (ti + 1, si))) as Hans.
    { intros k Hk Hm. destruct (decide (k = si)) as [->|]; [by left|right].
      exists (ti + 1), si, k. split_and!; [done|lia|done]. }
    intros [(k & Hk & Hm)|(st & ss & k & -> & Hk & Hm)]; [by eapply Hans|].
    destruct (Hstar st ss eq_refl) as (_ & Hss & Hseg). apply Hseg in Hm.
    apply (rest_match_any _ _ Ht) in Hm as (k' & Hk' & Hm). apply (Hans k'); [lia|done].
Qed.

Lemma matches_loop_spec fuel ti si star :
  walk_inv ti si star → walk_measure ti star < fuel →
  ∃ b, matches_loop m text fuel ti si star = Some b ∧ (b = true ↔ answer ti si star).
Proof.
  revert ti si star. induction fuel as [|fuel IH]; intros ti si star Hinv Hfuel; [lia|].
  pose proof (walk_backtrack fuel ti si star IH Hinv Hfuel) as Hback.
  cbn [matches_loop]. fold N. destruct (toks m !! ti) as [tok|] eqn:Ht.
  - assert (ti < T) as Hlt by (by eapply lookup_lt_Some). destruct tok as [run| |].
    + destruct (lit_matches m text si run) eqn:Hl.
      * destruct (walk_advance ti si star (length run)) as [Hinv' Hm]; [done|done| | |].
        { apply lit_matches_spec in Hl. lia. }
        { intros k Hk. by apply (rest_match_lit ti k run Ht) in Hk as [_ ?]. }
        destruct (IH _ _ _ Hinv' ltac:(lia)) as (b & -> & Hb). exists b. split; [done|].
        rewrite Hb. apply answer_step. rewrite (rest_match_lit ti si run Ht). tauto.
      * apply Hback. rewrite (rest_match_lit ti si run Ht), Hl. by intros [].
    + case_decide as Hs.
      * destruct (walk_advance ti si star 1) as [Hinv' Hm]; [done|done|lia| |].
        { intros k Hk. by apply (rest_match_one ti k Ht) in Hk as [_ ?]. }
        destruct (IH _ _ _ Hinv' ltac:(lia)) as (b & -> & Hb). exists b. split; [done|].
        rewrite Hb. apply answer_step. rewrite (rest_match_one ti si Ht). tauto.
      * apply Hback. rewrite (rest_match_one ti si Ht). tauto.
    + destruct (IH (ti + 1) si (Some (ti + 1, si))) as (b & -> & Hb).
      * destruct Hinv as (Hsi & Hti & Hstar). split_and!; [done|lia|].
        intros ? ? [= <- <-]. split_and!; [lia|done|]. intros k. by rewrite Nat.sub_diag, Nat.add_0_r.
      * assert (star_pos star ≤ si).
        { unfold star_pos. destruct star as [[st ss]|]; simpl; [|lia]. destruct Hinv as (_ & _ & H). by apply (H st ss). }
        destruct Hinv as (Hsi & _). unfold walk_measure in *. change (star_pos (Some (ti + 1, si))) with si.
        pose proof (Nat.mul_le_mono_r (N + 1 - si) (N + 1 - star_pos star) (T + 1) ltac:(lia)). lia.
      * exists b. split; [done|]. rewrite Hb. by apply answer_any.
  - case_decide as Hs; [|apply Hback; by rewrite (rest_match_end ti si Ht)].
    exists true. split; [done|]. split; [|done]. intros _. left. by apply rest_match_end.
Qed.

Lemma matches_spec :
  ∃ b, matches m text = Some b ∧ (b = true ↔ toks_match ci (toks m) text).
Proof.
  destruct (matches_loop_spec (matches_fuel m text) 0 0 None) as (b & Hb & Ha).
  - by split_and!; [lia..|].
  - unfold walk_measure, matches_fuel, star_pos. simpl. unfold N, T. lia.
  - exists b. split; [exact Hb|]. rewrite Ha. unfold answer, rest_match. rewrite !drop_0.
    split; [intros [[_ ?]|(? & ? & ? & ? & _)]; done|]. intros. left. split; [lia|done].
Qed.
End walk.


(** ** The three-valued reading of a predicate *)

(** [None] is UNKNOWN: SQL's answer for a NULL cell. *)
Definition sql_eval (like_text : LikeMatcher → list byte → bool)
    (p : CompiledPredicate) (c : value) : option bool :=
  match p with
  | PConst b => Some b
  | PIs _ v neg => Some (xorb (is_eq (compare_predicate_values c v)) neg)
  | PIsNull _ neg => Some (xorb (is_null c) neg)
  | PCmp _ op v =>
      if is_null c then None
      else
        match op with
        | CEq => Some (is_eq (compare_predicate_values c v))
        | CNe => Some (negb (is_eq (compare_predicate_values c v)))
        | CLt => if is_null v then None else Some (is_lt (compare_predicate_values c v))
        | CLe => if is_null v then None else Some (negb (is_gt (compare_predicate_values c v)))
        | CGt => if is_null v then None else Some (is_gt (compare_predicate_values c v))
        | CGe => if is_null v then None else Some (negb (is_lt (compare_predicate_values c v)))
        end
  | PIn _ set neg =>
      if is_null c then None
      else Some (xorb (existsb (λ v, is_eq (compare_predicate_values v c)) set) neg)
  | PLike _ m neg =>
      if is_null c then None
      else Some (xorb (match c with Str b | Json b => like_text m b | _ => false end) neg)
  end.

Definition predicate_col (p : CompiledPredicate) : nat :=
  match p with
  | PCmp c _ _ | PIn c _ _ | PLike c _ _ | PIs c _ _ | PIsNull c _ => c
  | PConst _ => 0
  end.


