(* ===== verification/OrdMap.v ===== *)
(** * [BTreeMap] over a comparator

    The standard library's ordered map, keyed by a type whose [Ord] is a
    three-way comparator that may identify distinct keys.  An association list
    in ascending key order; [get], [insert] and [remove] up to the
    comparator's ties.  As in the standard library, inserting at a tied key
    keeps the stored key. *)

From stdpp Require Import base list numbers option sorting sets.
From Stdlib Require Import Lia.
From S2P Require Import Prelude.

Section ordmap.
Context {K V : Type} (cmp : K → K → comparison).
Implicit Types (m : list (K * V)).

Fixpoint om_get (k : K) m : option V :=
  match m with
  | [] => None
  | (k', v) :: m' => if is_eq (cmp k' k) then Some v else om_get k m'
  end.

Fixpoint om_insert (k : K) (v : V) m : list (K * V) :=
  match m with
  | [] => [(k, v)]
  | (k', v') :: m' =>
      match cmp k' k with
      | Lt => (k', v') :: om_insert k v m'
      | Eq => (k', v) :: m'
      | Gt => (k, v) :: (k', v') :: m'
      end
  end.

Fixpoint om_remove (k : K) m : list (K * V) :=
  match m with
  | [] => []
  | (k', v) :: m' => if is_eq (cmp k' k) then m' else (k', v) :: om_remove k m'
  end.

Definition om_sorted m : Prop := StronglySorted (λ a b, cmp a b = Lt) m.*1.

Context `{!TotalCmp cmp}.

Lemma om_get_proper k k' m : cmp k k' = Eq → om_get k m = om_get k' m.
Proof.
  intros H. induction m as [|[x v] m IH]; simpl; [done|].
  rewrite (cmp_eq_r cmp x k k') by done. by rewrite IH.
Qed.

Lemma om_get_insert k k' v m :
  om_get k' (om_insert k v m) = if is_eq (cmp k k') then Some v else om_get k' m.
Proof.
  induction m as [|[x w] m IH]; simpl; [done|]. destruct (cmp x k) eqn:E; simpl.
  - rewrite (cmp_eq_l x k k') by done. by destruct (cmp k k').
  - rewrite IH. destruct (cmp x k') eqn:E'; simpl; try done.
    destruct (cmp k k') eqn:E''; simpl; try done.
    by rewrite (cmp_eq_r cmp x k k') , E' in E.
  - done.
Qed.

Lemma om_get_above k m : Forall (λ x, cmp k x = Lt) m.*1 → om_get k m = None.
Proof.
  induction m as [|[x v] m IH]; simpl; [done|]. intros [Hx Hm]%Forall_cons.
  apply (cmp_lt_gt cmp) in Hx. rewrite Hx. simpl. by apply IH.
Qed.

Lemma om_get_remove k k' m :
  om_sorted m → om_get k' (om_remove k m) = if is_eq (cmp k k') then None else om_get k' m.
Proof.
  intros Hs. induction m as [|[x w] m IH]; simpl; [by destruct (is_eq _)|].
  apply StronglySorted_inv in Hs as [Hs Hx]. destruct (cmp x k) eqn:E; simpl.
  - rewrite (cmp_eq_l x k k') by done. destruct (cmp k k') eqn:E'; simpl; try done.
    rewrite <-(om_get_proper x k'); [by apply om_get_above|].
    by apply (cmp_eq_trans cmp x k k').
  - rewrite IH by done. destruct (cmp x k') eqn:E'; simpl; try done.
    destruct (cmp k k') eqn:E''; simpl; try done. by rewrite (cmp_eq_r cmp x k k'), E' in E.
  - rewrite IH by done. destruct (cmp x k') eqn:E'; simpl; try done.
    destruct (cmp k k') eqn:E''; simpl; try done. by rewrite (cmp_eq_r cmp x k k'), E' in E.
Qed.

Lemma om_insert_keys k v m x : x ∈ (om_insert k v m).*1 → x = k ∨ x ∈ m.*1.
Proof.
  induction m as [|[y w] m IH]; simpl; [set_solver|].
  destruct (cmp y k); simpl; set_solver.
Qed.

Lemma om_remove_keys k m x : x ∈ (om_remove k m).*1 → x ∈ m.*1.
Proof.
  induction m as [|[y w] m IH]; simpl; [done|].
  destruct (is_eq (cmp y k)); simpl; set_solver.
Qed.

Lemma om_insert_sorted k v m : om_sorted m → om_sorted (om_insert k v m).
Proof.
  unfold om_sorted. induction m as [|[y w] m IH]; simpl; intros Hs.
  { repeat constructor. }
  apply StronglySorted_inv in Hs as [Hs Hy]. destruct (cmp y k) eqn:E; simpl.
  - by constructor.
  - constructor; [by apply IH|]. apply Forall_forall. intros x [->|Hx]%om_insert_keys; [done|].
    by eapply Forall_forall in Hy.
  - apply (cmp_gt_lt cmp) in E. constructor; [by constructor|]. constructor; [done|].
    eapply Forall_impl; [exact Hy|]. intros x Hx. by apply (cmp_lt_trans k y x).
Qed.

Lemma om_remove_sorted k m : om_sorted m → om_sorted (om_remove k m).
Proof.
  unfold om_sorted. induction m as [|[y w] m IH]; simpl; intros Hs; [done|].
  apply StronglySorted_inv in Hs as [Hs Hy]. destruct (is_eq (cmp y k)); [done|].
  simpl. constructor; [by apply IH|]. apply Forall_forall. intros x Hx%om_remove_keys.
  by eapply Forall_forall in Hy.
Qed.

(** A map with no reachable value is empty. *)
Lemma om_get_head k v m : om_get k ((k, v) :: m) = Some v.
Proof. simpl. by rewrite cmp_refl. Qed.

Lemma om_get_Some k v m : om_get k m = Some v → ∃ k', (k', v) ∈ m ∧ cmp k' k = Eq.
Proof.
  induction m as [|[y w] m IH]; simpl; [done|].
  destruct (cmp y k) eqn:E; simpl.
  - intros [= <-]. exists y. split; [by left|done].
  - intros (k' & ? & ?)%IH. exists k'. split; [by right|done].
  - intros (k' & ? & ?)%IH. exists k'. split; [by right|done].
Qed.

Lemma om_elem_get k v m : om_sorted m → (k, v) ∈ m → om_get k m = Some v.
Proof.
  unfold om_sorted. induction m as [|[y w] m IH]; simpl; [set_solver|].
  intros [Hs Hy]%StronglySorted_inv [Heq|Hin]%elem_of_cons; simplify_eq/=.
  { by rewrite cmp_refl. }
  rewrite Forall_forall in Hy. rewrite (Hy k); [|by apply (list_elem_of_fmap_2 fst m (k, v))].
  by apply IH.
Qed.
End ordmap.
