(* ===== verification/Storage.v ===== *)
(** * Operator storage ([rust/src/storage.rs])

    The string-keyed scratch state of the stateful operators: the values it may
    hold, the interface operators program against ([Storage], with its laws) and
    the in-memory backend, a [BTreeMap] from the bytes of a key to a value.  The
    trait is infallible; a backend that can fail parks its error elsewhere. *)

From stdpp Require Import base list numbers option sorting sets.
From Stdlib Require Import ZArith Lia Strings.Byte.
From S2P Require Import Prelude Values Rows OrdMap.

#[local] Open Scope Z_scope.

Abbreviation storage_key := (list byte).

(** An [i128] and two [i64] counters are integers here; what adds to them wraps them
    at their width. *)
Record ReduceAcc := MkAcc { int_sum : Z; float_sum : f64; non_null : Z; float_count : Z }.

Inductive StorageValue : Type :=
  | SvTake (size : Z) (bound : option row)
  | SvBound (r : row)
  | SvCap (size : Z) (pks : list (list byte))
  | SvReduce (count : Z) (accs : list ReduceAcc).

(** ** The interface *)

Class Storage (St : Type) := {
  st_set : storage_key → StorageValue → St → St;
  st_get : storage_key → St → option StorageValue;
  st_del : storage_key → St → St;
  st_scan : storage_key → St → list (storage_key * StorageValue)
}.

(** The default method: delete every key of a full scan. *)
Definition st_clear {St} `{!Storage St} (s : St) : St :=
  foldl (λ s k, st_del k s) s (st_scan [] s).*1.

Definition starts_with (p k : storage_key) : bool := bool_decide (p `prefix_of` k).

(** What operators rely on; a store has states it can be in. *)
Class StorageLaws (St : Type) `{!Storage St} (store_ok : St → Prop) : Prop := {
  stl_set_ok k v s : store_ok s → store_ok (st_set k v s);
  stl_del_ok k s : store_ok s → store_ok (st_del k s);
  stl_get_set k k' v s :
    store_ok s → st_get k' (st_set k v s) = if decide (k' = k) then Some v else st_get k' s;
  stl_get_del k k' s :
    store_ok s → st_get k' (st_del k s) = if decide (k' = k) then None else st_get k' s;
  stl_scan p k v s : store_ok s → (k, v) ∈ st_scan p s ↔ starts_with p k = true ∧ st_get k s = Some v
}.

(** ** The in-memory backend *)

Record MemoryStorage := MkStorage { ms_data : list (storage_key * StorageValue) }.

Definition memory_storage_new : MemoryStorage := MkStorage [].

Definition memory_set (k : storage_key) (v : StorageValue) (s : MemoryStorage) : MemoryStorage :=
  MkStorage (om_insert bytes_cmp k v (ms_data s)).

Definition memory_get (k : storage_key) (s : MemoryStorage) : option StorageValue :=
  om_get bytes_cmp k (ms_data s).

Definition memory_del (k : storage_key) (s : MemoryStorage) : MemoryStorage :=
  MkStorage (om_remove bytes_cmp k (ms_data s)).

(** [range(Included(prefix)..)]: the entries from the first key that is not below. *)
Fixpoint range_from (p : storage_key) (m : list (storage_key * StorageValue)) :
    list (storage_key * StorageValue) :=
  match m with
  | [] => []
  | (k, v) :: m' => if is_lt (bytes_cmp k p) then range_from p m' else m
  end.

Fixpoint take_while {A} (f : A → bool) (l : list A) : list A :=
  match l with
  | [] => []
  | x :: l' => if f x then x :: take_while f l' else []
  end.

Definition memory_scan (p : storage_key) (s : MemoryStorage) : list (storage_key * StorageValue) :=
  take_while (λ kv, starts_with p kv.1) (range_from p (ms_data s)).

Definition clone_data (s : MemoryStorage) : list (storage_key * StorageValue) := ms_data s.

#[export] Instance memory_storage : Storage MemoryStorage := {|
  st_set := memory_set;
  st_get := memory_get;
  st_del := memory_del;
  st_scan := memory_scan
|}.

(** ** The scan is the filter

    The keys with a prefix are a run of the byte order that starts where the
    prefix would be. *)

Lemma starts_with_nil p : starts_with p [] = bool_decide (p = []).
Proof.
  unfold starts_with. apply bool_decide_ext. split; [by intros ?%prefix_nil_inv|by intros ->].
Qed.

Lemma starts_with_cons a p b k :
  starts_with (a :: p) (b :: k) = bool_decide (a = b) && starts_with p k.
Proof.
  unfold starts_with. rewrite <-bool_decide_and. apply bool_decide_ext. split.
  - intros H. split; [by eapply prefix_cons_inv_1|by eapply prefix_cons_inv_2].
  - intros [-> H]. by apply prefix_cons.
Qed.

Lemma byte_cmp_refl_iff a b : byte_cmp a b = Eq ↔ a = b.
Proof. split; [apply byte_cmp_eq|intros ->; apply cmp_refl]. Qed.

Lemma starts_with_above p k : starts_with p k = true → bytes_cmp k p ≠ Lt.
Proof.
  revert k. induction p as [|a p IH]; intros [|b k]; try done.
  rewrite starts_with_cons. intros [->%bool_decide_eq_true H]%andb_prop.
  unfold bytes_cmp. cbn [lex_cmp]. rewrite cmp_refl. by apply IH.
Qed.

(** Past the run no key has the prefix. *)
Lemma starts_with_past p k k' :
  starts_with p k = false → bytes_cmp k p ≠ Lt → bytes_cmp k k' = Lt → starts_with p k' = false.
Proof.
  revert k k'. induction p as [|a p IH]; intros [|b k] [|b' k']; try done.
  rewrite !starts_with_cons. unfold bytes_cmp. cbn [lex_cmp].
  destruct (byte_cmp b a) eqn:Eba; cbn [then_cmp].
  - apply byte_cmp_eq in Eba as ->. rewrite bool_decide_true by done. cbn [andb]. intros Hk Hp.
    destruct (byte_cmp a b') eqn:E; cbn [then_cmp]; [| |done].
    + apply byte_cmp_eq in E as ->. rewrite bool_decide_true by done. cbn [andb]. by apply IH.
    + intros _. rewrite bool_decide_false; [done|]. intros <-. by rewrite cmp_refl in E.
  - done.
  - intros _ _ Hlt. rewrite bool_decide_false; [done|]. intros <-. by rewrite Eba in Hlt.
Qed.

Lemma take_while_filter p m :
  om_sorted bytes_cmp m → Forall (λ kv, bytes_cmp kv.1 p ≠ Lt) m →
  take_while (λ kv : storage_key * StorageValue, starts_with p kv.1) m =
    filter (λ kv, starts_with p kv.1 = true) m.
Proof.
  induction m as [|[k v] m IH]; [done|]. unfold om_sorted. cbn [fmap list_fmap].
  intros [Hs Hk]%StronglySorted_inv [Hp Hm]%Forall_cons. cbn [take_while fst] in *.
  rewrite filter_cons. cbn [fst]. destruct (starts_with p k) eqn:E.
  - rewrite decide_True by done. f_equal. by apply IH.
  - rewrite decide_False by done. symmetry.
    clear IH Hs Hm. induction m as [|[k' v'] m IH]; [done|]. apply Forall_cons in Hk as [Hk Hm].
    rewrite filter_cons. cbn [fst] in *. rewrite (starts_with_past p k k') by done.
    rewrite decide_False by done. by apply IH.
Qed.

Lemma om_sorted_inv k v m :
  om_sorted bytes_cmp ((k, v) :: m) →
  om_sorted bytes_cmp m ∧ Forall (λ kv : storage_key * StorageValue, bytes_cmp k kv.1 = Lt) m.
Proof. intros [Hs Hk]%StronglySorted_inv. split; [done|]. by apply Forall_fmap in Hk. Qed.

Lemma range_from_spec p m :
  om_sorted bytes_cmp m →
  om_sorted bytes_cmp (range_from p m) ∧ Forall (λ kv, bytes_cmp kv.1 p ≠ Lt) (range_from p m) ∧
  filter (λ kv, starts_with p kv.1 = true) (range_from p m) =
    filter (λ kv, starts_with p kv.1 = true) m.
Proof.
  induction m as [|[k v] m IH]; [done|]. intros Hs. pose proof (om_sorted_inv _ _ _ Hs) as [Hm Hk].
  cbn [range_from]. destruct (is_lt (bytes_cmp k p)) eqn:E.
  - destruct (IH Hm) as (H1 & H2 & H3). split_and!; [done..|]. rewrite H3, filter_cons. cbn [fst].
    rewrite decide_False; [done|]. intros Hp%starts_with_above. by destruct (bytes_cmp k p).
  - split_and!; [done| |done]. assert (bytes_cmp k p ≠ Lt) as Hkp by (by destruct (bytes_cmp k p)).
    constructor; [done|]. eapply Forall_impl; [exact Hk|]. intros [k' v'] Hlt Hbad. cbn [fst] in *.
    apply Hkp. by eapply cmp_lt_trans.
Qed.

Lemma memory_scan_filter p s :
  om_sorted bytes_cmp (ms_data s) →
  memory_scan p s = filter (λ kv, starts_with p kv.1 = true) (ms_data s).
Proof.
  intros Hs. destruct (range_from_spec p _ Hs) as (H1 & H2 & <-). by apply take_while_filter.
Qed.

(** ** The laws *)

Lemma key_eq_dec_cmp (k k' : storage_key) {A} (x y : A) :
  (if is_eq (bytes_cmp k k') then x else y) = if decide (k' = k) then x else y.
Proof.
  destruct (decide (k' = k)) as [->|Hne]; [by rewrite cmp_refl|].
  destruct (bytes_cmp k k') eqn:E; [|done..]. by apply bytes_cmp_eq in E.
Qed.

#[export] Instance memory_storage_laws : StorageLaws MemoryStorage (λ s, om_sorted bytes_cmp (ms_data s)).
Proof.
  split; cbn [st_set st_get st_del st_scan memory_storage]; intros.
  - by apply (om_insert_sorted bytes_cmp).
  - by apply (om_remove_sorted bytes_cmp).
  - unfold memory_get, memory_set. cbn [ms_data]. rewrite (om_get_insert bytes_cmp). apply key_eq_dec_cmp.
  - unfold memory_get, memory_del. cbn [ms_data]. rewrite (om_get_remove bytes_cmp) by done.
    apply key_eq_dec_cmp.
  - rewrite memory_scan_filter, list_elem_of_filter by done. cbn [fst].
    apply and_iff_compat_l. unfold memory_get. split.
    + by apply (om_elem_get bytes_cmp).
    + intros (k' & Hin & Hk)%(om_get_Some bytes_cmp). by apply bytes_cmp_eq in Hk as ->.
Qed.

(** Clearing leaves an empty store. *)
Lemma clear_empty {St} `{!Storage St} (store_ok : St → Prop) `{!StorageLaws St store_ok} (s : St) k :
  store_ok s → st_get k (st_clear s) = None.
Proof.
  intros Hs. unfold st_clear.
  assert (∀ ks s, store_ok s → (st_get k s = None ∨ k ∈ ks) →
    st_get k (foldl (λ s k, st_del k s) s ks) = None) as Hdel.
  { induction ks as [|k' ks IH]; intros s0 Hs0 [Hk|Hk]; cbn [foldl].
    - done.
    - by apply elem_of_nil in Hk.
    - apply IH; [by apply stl_del_ok|]. left. rewrite stl_get_del by done. by case_decide.
    - apply IH; [by apply stl_del_ok|]. rewrite stl_get_del by done.
      apply elem_of_cons in Hk as [->|Hk]; [left; by rewrite decide_True|by right]. }
  apply Hdel; [done|]. destruct (st_get k s) as [v|] eqn:E; [|by left]. right.
  apply list_elem_of_fmap. exists (k, v). split; [done|]. apply stl_scan; [done|].
  split; [|done]. unfold starts_with. apply bool_decide_eq_true. apply prefix_nil.
Qed.
