(* ===== verification/Partition.v ===== *)
(** * Partition keys ([rust/src/op/partition.rs])

    The limiters keep one state per partition, under a string key made of the
    partition's values.  The key is shown to be exact: two tuples of values have
    the same key exactly when they are identical value by value. *)

From stdpp Require Import base list numbers option sets.
From Stdlib Require Import ZArith Lia Strings.Byte Decimal DecimalPos DecimalZ.
From S2P Require Import Prelude Values Rows Change Storage.

#[local] Open Scope Z_scope.

Definition constraint_matches_partition_key (c : Constraint) (pk : list nat) : bool :=
  (length c =? length pk)%nat &&
  forallb (λ p, existsb (λ e : nat * value, (e.1 =? p)%nat) c) pk.

(** [row.col] and [compare_values] may panic. *)
Definition partition_key_unchanged (old new : row) (pk : list nat) : option bool :=
  try_all (λ c, x ← old !! c; y ← new !! c; is_eq <$> compare_values x y) pk.

(** ** Keys *)

(** [to_string] of an integer: its decimal digits. *)
Fixpoint uint_text (u : Decimal.uint) : list byte :=
  match u with
  | Decimal.Nil => []
  | Decimal.D0 u => x30 :: uint_text u
  | Decimal.D1 u => x31 :: uint_text u
  | Decimal.D2 u => x32 :: uint_text u
  | Decimal.D3 u => x33 :: uint_text u
  | Decimal.D4 u => x34 :: uint_text u
  | Decimal.D5 u => x35 :: uint_text u
  | Decimal.D6 u => x36 :: uint_text u
  | Decimal.D7 u => x37 :: uint_text u
  | Decimal.D8 u => x38 :: uint_text u
  | Decimal.D9 u => x39 :: uint_text u
  end.

Definition integer_text (z : Z) : list byte :=
  match Z.to_int z with
  | Decimal.Pos u => uint_text u
  | Decimal.Neg u => x2d :: uint_text u
  end.

Definition length_text (s : list byte) : list byte := integer_text (Z.of_nat (length s)).

Definition encode_value (v : value) : list byte :=
  match v with
  | Absent => [x61]
  | Null => [x6e]
  | Bool b => [x62; if b then x31 else x30]
  | Int i => x69 :: integer_text i
  | Float f =>
      match float_int_class f with
      | Some i => x69 :: integer_text i
      | None => x66 :: integer_text f
      end
  | Str s => x73 :: length_text s ++ x3a :: s
  | Json s => x6a :: length_text s ++ x3a :: s
  end.

Definition encode_state_key (prefix : list byte) (partition_values : list value) : storage_key :=
  prefix ++ (partition_values ≫= λ v, x1f :: encode_value v).

(** ** Decimal text *)

Definition is_digit (b : byte) : bool :=
  match b with
  | x30 | x31 | x32 | x33 | x34 | x35 | x36 | x37 | x38 | x39 => true
  | _ => false
  end.

(** The text that follows a number does not continue it. *)
Definition ends_number (r : list byte) : Prop :=
  match r with [] => True | b :: _ => is_digit b = false end.

Lemma uint_text_inj u u' r r' :
  ends_number r → ends_number r' → uint_text u ++ r = uint_text u' ++ r' → u = u' ∧ r = r'.
Proof.
  intros Hr Hr'. revert u'. induction u as [|u IH|u IH|u IH|u IH|u IH|u IH|u IH|u IH|u IH|u IH];
    intros [|u'|u'|u'|u'|u'|u'|u'|u'|u'|u']; intros H; cbn in H;
    first [by split|discriminate H|by rewrite H in Hr|by rewrite <-H in Hr'
          |injection H as H; by destruct (IH _ H) as [-> ->]].
Qed.

(** A number that does not start with a sign has a first digit. *)
Lemma to_int_pos_nonnil z u : Z.to_int z = Decimal.Pos u → u ≠ Decimal.Nil.
Proof.
  destruct z as [|p|p]; cbn; intros [= <-]; [done|]. apply DecimalPos.Unsigned.to_uint_nonnil.
Qed.

Lemma uint_text_sign u r t : u ≠ Decimal.Nil → uint_text u ++ r ≠ x2d :: t.
Proof. by destruct u. Qed.

Lemma integer_text_inj z z' r r' :
  ends_number r → ends_number r' → integer_text z ++ r = integer_text z' ++ r' → z = z' ∧ r = r'.
Proof.
  intros Hr Hr'. unfold integer_text.
  destruct (Z.to_int z) as [u|u] eqn:E, (Z.to_int z') as [u'|u'] eqn:E'; intros H; cbn in H.
  - destruct (uint_text_inj _ _ _ _ Hr Hr' H) as [-> ->]. split; [|done]. apply to_int_inj. congruence.
  - by destruct (uint_text_sign u r (uint_text u' ++ r') (to_int_pos_nonnil _ _ E)).
  - by destruct (uint_text_sign u' r' (uint_text u ++ r) (to_int_pos_nonnil _ _ E')).
  - injection H as H. destruct (uint_text_inj _ _ _ _ Hr Hr' H) as [-> ->]. split; [|done].
    apply to_int_inj. congruence.
Qed.

(** ** The key is exact *)

Lemma str_text_inj s s' r r' :
  length_text s ++ x3a :: s ++ r = length_text s' ++ x3a :: s' ++ r' → s = s' ∧ r = r'.
Proof.
  unfold length_text. intros H. apply integer_text_inj in H as [Hlen H]; [|done..].
  injection H as H. apply app_inj_1 in H; [done|]. lia.
Qed.

(** The class of a value that its text is made of. *)
Inductive value_class : Type :=
  | ClAbsent
  | ClNull
  | ClBool (b : bool)
  | ClInt (i : Z)
  | ClFloat (bits : Z)
  | ClStr (s : list byte)
  | ClJson (s : list byte).

Definition class_of (v : value) : value_class :=
  match v with
  | Absent => ClAbsent
  | Null => ClNull
  | Bool b => ClBool b
  | Int i => ClInt i
  | Float f => match float_int_class f with Some i => ClInt i | None => ClFloat f end
  | Str s => ClStr s
  | Json s => ClJson s
  end.

Definition class_text (c : value_class) : list byte :=
  match c with
  | ClAbsent => [x61]
  | ClNull => [x6e]
  | ClBool b => [x62; if b then x31 else x30]
  | ClInt i => x69 :: integer_text i
  | ClFloat f => x66 :: integer_text f
  | ClStr s => x73 :: length_text s ++ x3a :: s
  | ClJson s => x6a :: length_text s ++ x3a :: s
  end.

Lemma encode_value_class v : encode_value v = class_text (class_of v).
Proof. destruct v as [| |b|i|f|s|s]; try done. cbn. by destruct (float_int_class f). Qed.

Lemma class_text_inj c c' r r' :
  ends_number r → ends_number r' → class_text c ++ r = class_text c' ++ r' → c = c' ∧ r = r'.
Proof.
  intros Hr Hr'. destruct c, c'; cbn [class_text app]; intros H; cbn in H; try discriminate H;
    injection H as H.
  - done.
  - done.
  - by destruct b, b0.
  - by destruct (integer_text_inj _ _ _ _ Hr Hr' H) as [-> ->].
  - by destruct (integer_text_inj _ _ _ _ Hr Hr' H) as [-> ->].
  - rewrite <-!(assoc_L (++)) in H. by destruct (str_text_inj _ _ _ _ H) as [-> ->].
  - rewrite <-!(assoc_L (++)) in H. by destruct (str_text_inj _ _ _ _ H) as [-> ->].
Qed.

Lemma f64_total_cmp_bits (x y : f64) : f64_total_cmp x y = Eq → x = y.
Proof.
  intros H%Z.compare_eq. apply f64_eq. pose proof (f64_is_wf x) as Hx. pose proof (f64_is_wf y) as Hy.
  unfold f64_wf in *. revert H. unfold f64_total_key, f64_is_sign_negative, f64_bits.
  assert (∀ z : Z, 0 ≤ z < 2 ^ 64 → 2 ^ 63 ≤ z → z mod 2 ^ 63 = z - 2 ^ 63) as Hmod.
  { intros z Hz Hs. rewrite <-(Z_mod_plus_full z (-1)). rewrite Z.mod_small; lia. }
  destruct (Z.leb_spec (2 ^ 63) x), (Z.leb_spec (2 ^ 63) y).
  - rewrite !Hmod by done. lia.
  - rewrite (Hmod x), (Z.mod_small y) by lia. lia.
  - rewrite (Hmod y), (Z.mod_small x) by lia. lia.
  - rewrite !Z.mod_small by lia. lia.
Qed.

Lemma class_of_identical v w : class_of v = class_of w ↔ values_identical v w = true.
Proof.
  assert (∀ (i : i64) (f : f64), float_int_class f = Some (i64_Z i) ↔ compare_int_f64 i f = Eq) as Hif.
  { intros i f. rewrite float_int_class_spec. pose proof (i64_is_wf i). tauto. }
  assert (∀ (i : i64) (f : f64), match float_int_class f with Some j => ClInt j | None => ClFloat f end
    = ClInt i ↔ compare_int_f64 i f = Eq) as Hcl.
  { intros i f. rewrite <-Hif. destruct (float_int_class f); split; congruence. }
  assert (∀ x y : list byte, bool_decide (x = y) = true ↔ x = y) as Hb by (intros; apply bool_decide_eq_true).
  destruct v as [| |b|i|f|s|s], w as [| |b'|j|g|s'|s']; cbn [class_of values_identical];
    try (split; [try (by destruct (float_int_class _))|]; done).
  - split; [intros [= ->]; by destruct b'|by intros ->%eqb_prop].
  - rewrite Z.eqb_eq. split; [by intros [= ->]|by intros ->].
  - rewrite is_eq_true, <-Hcl. by split; intros ->.
  - rewrite is_eq_true. apply Hcl.
  - rewrite is_eq_true. split; [|by intros ->%f64_total_cmp_bits].
    destruct (float_int_class f) as [i|] eqn:Ef, (float_int_class g) as [j|] eqn:Eg; try done.
    + intros [= ->]. apply float_int_class_spec in Ef as [Hj Ef], Eg as [_ Eg].
      rewrite compare_int_f64_key in Ef, Eg by done. apply Z.compare_eq in Ef, Eg.
      rewrite f64_total_cmp_key by apply f64_is_wf. rewrite <-Ef, <-Eg. apply Z.compare_refl.
    + intros [= H]. rewrite H. apply Z.compare_refl.
  - rewrite Hb. split; congruence.
  - rewrite Hb. split; congruence.
Qed.

Lemma encode_values_inj vs ws :
  (vs ≫= λ v, x1f :: encode_value v) = (ws ≫= λ v, x1f :: encode_value v) ↔
  Forall2 (λ v w, values_identical v w = true) vs ws.
Proof.
  assert (∀ us : list value, ends_number (us ≫= λ v, x1f :: encode_value v)) as Hend by (by intros []).
  split.
  - revert ws. induction vs as [|v vs IH]; intros [|w ws]; cbn; intros H; try done.
    injection H as H. rewrite !encode_value_class in H.
    apply class_text_inj in H as [Hc H]; [|apply Hend..]. constructor; [by apply class_of_identical|].
    by apply IH.
  - induction 1 as [|v w vs ws Hv _ IH]; [done|]. cbn. rewrite IH, !encode_value_class.
    apply class_of_identical in Hv. by rewrite Hv.
Qed.

(** ** The constraint made of a row's partition columns *)

Lemma constraint_for_values (pk : list nat) (r : row) (c : Constraint) :
  mapM (λ col, v ← r !! col; Some (col, v)) pk = Some c →
  mapM (λ col, r !! col) pk = Some (map snd c) ∧ map fst c = pk ∧
  Forall (λ e : nat * value, r !! e.1 = Some e.2) c.
Proof.
  intros H%mapM_Some. induction H as [|col e pk c Hc H IH]; [done|].
  apply bind_Some in Hc as (v & Hv & [= <-]). destruct IH as (IH1 & IH2 & IH3).
  split_and!; [|by rewrite <-IH2|by constructor].
  cbn [mapM map snd]. rewrite Hv. cbn. unfold mbind in IH1. rewrite IH1. done.
Qed.

Lemma assoc_row (r : row) (c : Constraint) col v :
  Forall (λ e : nat * value, r !! e.1 = Some e.2) c → (col, v) ∈ c → assoc c col = Some v.
Proof.
  intros Hr Hin. rewrite Forall_forall in Hr. destruct (assoc c col) as [w|] eqn:E.
  - apply assoc_Some_elem in E. pose proof (Hr _ E). pose proof (Hr _ Hin). cbn in *. congruence.
  - apply assoc_None in E. destruct E. apply list_elem_of_fmap. by exists (col, v).
Qed.

(** A state key is exact: under one prefix two tuples of partition values
    have the same key exactly when they are identical value by value, an integer
    and the float equal to it included, tuples of different length never. *)
Theorem encode_state_key_exact (prefix : list byte) (vs ws : list value) :
  encode_state_key prefix vs = encode_state_key prefix ws ↔
  Forall2 (λ v w, values_identical v w = true) vs ws.
Proof.
  rewrite <-encode_values_inj. unfold encode_state_key. split; [apply app_inv_head|by intros ->].
Qed.
