(* ===== verification/PushIndex.v ===== *)
(** * The guarded push fan-out index ([rust/src/push_index.rs])

    A reverse index from guard values to connection slots.  The index may visit
    a connection whose predicate then rejects the row, and must never miss one
    that accepts it.  Slots are [u32] indices of live connections; reference
    counts are bounded by their number, so no [u32] overflows before memory
    does. *)

From stdpp Require Import base list numbers option sorting gmap sets.
From Stdlib Require Import Lia.
From S2P Require Import Prelude Values Rows OrdMap Change.

Record PushGuard := MkGuard { guard_col : nat; guard_values : list value }.

(** One column's map: guard value to slots, in the order of [GuardKey]. *)
Abbreviation buckets := (list (value * list nat)).

Abbreviation guard_key_cmp := compare_predicate_values.

Record PushIndex := MkIndex {
  eq_index : gmap nat buckets;
  scan : gset nat;
  split_keys : gmap nat nat
}.

Definition push_index_new : PushIndex := MkIndex ∅ ∅ ∅.

(** [*split_keys.entry(k).or_insert(0) += 1]. *)
Definition incr_key (m : gmap nat nat) (k : nat) : gmap nat nat :=
  <[k := default 0 (m !! k) + 1]> m.

(** [None] is the underflow of [*rc -= 1]. *)
Definition decr_key (m : gmap nat nat) (k : nat) : option (gmap nat nat) :=
  match m !! k with
  | None => Some m
  | Some rc =>
      if decide (rc = 0) then None
      else if decide (rc - 1 = 0) then Some (delete k m) else Some (<[k := rc - 1]> m)
  end.

Definition bucket_push (slot : nat) (m : buckets) (v : value) : buckets :=
  om_insert guard_key_cmp v (default [] (om_get guard_key_cmp v m) ++ [slot]) m.

Definition insert (ix : PushIndex) (slot : nat) (guard : option PushGuard)
    (split_edit_keys : list nat) : PushIndex :=
  let '(eq', scan') :=
    match guard with
    | Some g =>
        if decide (guard_values g = []) then (eq_index ix, scan ix)
        else
          let col_map := default [] (eq_index ix !! guard_col g) in
          (<[guard_col g := foldl (bucket_push slot) col_map (guard_values g)]> (eq_index ix), scan ix)
    | None => (eq_index ix, {[slot]} ∪ scan ix)
    end in
  MkIndex eq' scan' (foldl incr_key (split_keys ix) split_edit_keys).

(** [Vec::swap_remove]: the last element takes the removed one's place. *)
Definition swap_remove (pos : nat) (l : list nat) : list nat :=
  match last l with
  | None => l
  | Some x => take (length l - 1) (<[pos := x]> l)
  end.

Fixpoint position (slot : nat) (l : list nat) : option nat :=
  match l with
  | [] => None
  | s :: l' => if decide (s = slot) then Some 0 else S <$> position slot l'
  end.

Definition bucket_drop (slot : nat) (m : buckets) (v : value) : buckets :=
  match om_get guard_key_cmp v m with
  | None => m
  | Some bucket =>
      let bucket :=
        match position slot bucket with
        | Some pos => swap_remove pos bucket
        | None => bucket
        end in
      if decide (bucket = []) then om_remove guard_key_cmp v m
      else om_insert guard_key_cmp v bucket m
  end.

Fixpoint try_fold {A B} (f : A → B → option A) (a : A) (l : list B) : option A :=
  match l with
  | [] => Some a
  | x :: l' => a ← f a x; try_fold f a l'
  end.

Definition remove (ix : PushIndex) (slot : nat) (guard : option PushGuard)
    (split_edit_keys : list nat) : option PushIndex :=
  let '(eq', scan') :=
    match guard with
    | Some g =>
        if decide (guard_values g = []) then (eq_index ix, scan ix)
        else
          match eq_index ix !! guard_col g with
          | Some col_map =>
              let col_map := foldl (bucket_drop slot) col_map (guard_values g) in
              (if decide (col_map = []) then delete (guard_col g) (eq_index ix)
               else <[guard_col g := col_map]> (eq_index ix), scan ix)
          | None => (eq_index ix, scan ix)
          end
    | None => (eq_index ix, scan ix ∖ {[slot]})
    end in
  keys ← try_fold decr_key (split_keys ix) split_edit_keys;
  Some (MkIndex eq' scan' keys).

Definition collect_bucket (m : buckets) (cell : value) (out : list nat) : list nat :=
  match om_get guard_key_cmp cell m with
  | Some slots => out ++ slots
  | None => out
  end.

(** [Vec::dedup]: drop an element equal to its predecessor. *)
Fixpoint dedup (l : list nat) : list nat :=
  match l with
  | [] => []
  | x :: l' =>
      match dedup l' with
      | [] => [x]
      | y :: r => if decide (x = y) then y :: r else x :: y :: r
      end
  end.

(** One column of the fan-out; [None] is [row.col] out of range. *)
Definition collect_column (c : source_change) (out : list nat) (cb : nat * buckets) : option (list nat) :=
  match c with
  | SAdd r | SRemove r =>
      v ← r !! cb.1; Some (collect_bucket cb.2 v out)
  | SEdit r old =>
      v ← r !! cb.1;
      let out := collect_bucket cb.2 v out in
      w ← old !! cb.1;
      Some (collect_bucket cb.2 w out)
  end.

Definition push_candidates (ix : PushIndex) (c : source_change) : option (list nat) :=
  out ← try_fold (collect_column c) (elements (scan ix)) (map_to_list (eq_index ix));
  Some (dedup (merge_sort (≤) out)).

Definition split_key_list (ix : PushIndex) : list nat := (map_to_list (split_keys ix)).*1.

Definition has_split_keys (ix : PushIndex) : bool := bool_decide (split_keys ix ≠ ∅).

(** ** Counting *)

Definition cnt (s : nat) (l : list nat) : nat := length (filter (λ x, x = s) l).

Lemma cnt_nil s : cnt s [] = 0.
Proof. done. Qed.

Lemma cnt_app s l1 l2 : cnt s (l1 ++ l2) = cnt s l1 + cnt s l2.
Proof. unfold cnt. by rewrite filter_app, length_app. Qed.

Lemma cnt_cons s x l : cnt s (x :: l) = (if decide (x = s) then 1 else 0) + cnt s l.
Proof. unfold cnt. rewrite filter_cons. by case_decide. Qed.

Lemma cnt_perm s l l' : l ≡ₚ l' → cnt s l = cnt s l'.
Proof. intros H. unfold cnt. by rewrite H. Qed.

Lemma cnt_pos s l : s ∈ l ↔ cnt s l ≠ 0.
Proof.
  induction l as [|x l IH]; [rewrite elem_of_nil, cnt_nil; lia|].
  rewrite cnt_cons, elem_of_cons, IH. case_decide; naive_solver lia.
Qed.

(** How many of a guard's values share the bucket of [v]. *)
Definition hits (vs : list value) (v : value) : nat :=
  length (filter (λ w, guard_key_cmp w v = Eq) vs).

Lemma hits_cons w vs v :
  hits (w :: vs) v = (if decide (guard_key_cmp w v = Eq) then 1 else 0) + hits vs v.
Proof. unfold hits. rewrite filter_cons. by case_decide. Qed.

Lemma hits_pos vs v : hits vs v ≠ 0 ↔ ∃ w, w ∈ vs ∧ guard_key_cmp w v = Eq.
Proof.
  induction vs as [|w vs IH]; [split; [done|set_solver]|].
  rewrite hits_cons. setoid_rewrite elem_of_cons. case_decide; [naive_solver lia|].
  simpl. rewrite IH. naive_solver.
Qed.

(** ** Buckets *)

Definition slots_at (m : buckets) (v : value) : list nat :=
  default [] (om_get guard_key_cmp v m).

(** A well-formed column map: sorted, and no bucket is empty. *)
Definition buckets_ok (m : buckets) : Prop :=
  om_sorted guard_key_cmp m ∧ ∀ v b, om_get guard_key_cmp v m = Some b → b ≠ [].

Lemma bucket_push_ok slot m v : buckets_ok m → buckets_ok (bucket_push slot m v).
Proof.
  intros [Hs Hb]. unfold bucket_push. split; [by apply (om_insert_sorted _)|]. intros w b.
  rewrite om_get_insert by apply _.
  destruct (is_eq _); [|apply Hb]. intros [= <-]. by intros [_ ?]%app_eq_nil.
Qed.

Lemma bucket_push_slots slot m v w :
  slots_at (bucket_push slot m v) w =
    if is_eq (guard_key_cmp v w) then slots_at m w ++ [slot] else slots_at m w.
Proof.
  unfold slots_at, bucket_push. rewrite om_get_insert by apply _.
  destruct (guard_key_cmp v w) eqn:E; simpl; try done.
  by rewrite (om_get_proper guard_key_cmp v w m E).
Qed.

Lemma push_all_spec slot vs m :
  buckets_ok m →
  buckets_ok (foldl (bucket_push slot) m vs) ∧
  ∀ s v, cnt s (slots_at (foldl (bucket_push slot) m vs) v) =
    cnt s (slots_at m v) + if decide (s = slot) then hits vs v else 0.
Proof.
  revert m. induction vs as [|w vs IH]; simpl; intros m Hm.
  { split; [done|]. intros. case_decide; unfold hits; simpl; lia. }
  destruct (IH (bucket_push slot m w)) as [Hok Hc]; [by apply bucket_push_ok|].
  split; [done|]. intros s v. rewrite Hc, bucket_push_slots, hits_cons.
  destruct (guard_key_cmp w v) eqn:E; simpl.
  - rewrite cnt_app, cnt_cons, cnt_nil. repeat case_decide; simplify_eq; lia.
  - repeat case_decide; simplify_eq; lia.
  - repeat case_decide; simplify_eq; lia.
Qed.

Lemma swap_remove_perm pos l s : l !! pos = Some s → l ≡ₚ s :: swap_remove pos l.
Proof.
  intros Hp. unfold swap_remove. destruct (last l) as [x|] eqn:Hl.
  2: { apply last_None in Hl. by subst. }
  apply last_Some in Hl as [l' ->]. rewrite length_app. simpl. rewrite Nat.add_sub.
  pose proof (lookup_lt_Some _ _ _ Hp) as Hlt. rewrite length_app in Hlt. simpl in Hlt.
  destruct (decide (pos < length l')) as [Hin|Hout].
  - rewrite lookup_app_l in Hp by done. rewrite insert_app_l by done.
    rewrite take_app_le by (rewrite length_insert; lia).
    rewrite take_ge by (rewrite length_insert; lia).
    rewrite insert_take_drop by done. rewrite <-(take_drop_middle l' pos s Hp) at 1.
    rewrite <-app_assoc. simpl. rewrite <-Permutation_middle. constructor.
    f_equiv. by rewrite Permutation_app_comm.
  - assert (pos = length l') as -> by lia. rewrite lookup_app_r, Nat.sub_diag in Hp by lia.
    simpl in Hp. simplify_eq. rewrite insert_app_r_alt, Nat.sub_diag by lia. simpl.
    rewrite take_app_length. by rewrite Permutation_app_comm.
Qed.

Lemma position_Some s l pos : position s l = Some pos → l !! pos = Some s.
Proof.
  revert pos. induction l as [|x l IH]; simpl; intros pos; [done|]. case_decide as Hd.
  - intros [= <-]. by subst.
  - destruct (position s l) as [p|]; [|done]. intros [= <-]. simpl. by apply IH.
Qed.

Lemma position_None s l : position s l = None → cnt s l = 0.
Proof.
  induction l as [|x l IH]; simpl; [done|]. rewrite cnt_cons. case_decide; [done|].
  destruct (position s l); [done|]. auto.
Qed.

(** Dropping a slot removes one occurrence, where there is one. *)
Lemma drop_position_cnt slot l s :
  cnt s (match position slot l with Some pos => swap_remove pos l | None => l end) =
    cnt s l - if decide (s = slot) then 1 else 0.
Proof.
  destruct (position slot l) as [pos|] eqn:Hp.
  - apply position_Some, swap_remove_perm in Hp. rewrite (cnt_perm s _ _ Hp), cnt_cons.
    repeat case_decide; simplify_eq; lia.
  - apply position_None in Hp. case_decide; subst; lia.
Qed.

Lemma bucket_drop_spec slot m v :
  buckets_ok m →
  buckets_ok (bucket_drop slot m v) ∧
  ∀ s w, cnt s (slots_at (bucket_drop slot m v) w) =
    cnt s (slots_at m w) - if decide (s = slot ∧ guard_key_cmp v w = Eq) then 1 else 0.
Proof.
  intros [Hs Hb]. unfold bucket_drop. destruct (om_get _ v m) as [b|] eqn:Hg.
  2: { split; [done|]. intros s w. case_decide as Hd; [|lia]. destruct Hd as [_ Hd].
       unfold slots_at. by rewrite <-(om_get_proper _ v w), Hg. }
  pose proof (drop_position_cnt slot b) as Hc.
  set (b' := match position slot b with Some pos => swap_remove pos b | None => b end) in *.
  assert (∀ s w x, om_get guard_key_cmp w m = x → guard_key_cmp v w = Eq →
    cnt s b' = cnt s (default [] x) - if decide (s = slot ∧ guard_key_cmp v w = Eq) then 1 else 0) as Hcnt.
  { intros s w x Hx E. rewrite <-(om_get_proper _ v w), Hg in Hx by done. subst x. simpl.
    rewrite Hc. repeat case_decide; naive_solver. }
  case_decide as Hemp; [split; [split|]|split; [split|]].
  - by apply (om_remove_sorted _).
  - intros w x. rewrite om_get_remove by (apply _ || done). destruct (is_eq _); [done|apply Hb].
  - intros s w. unfold slots_at. rewrite om_get_remove by (apply _ || done).
    destruct (guard_key_cmp v w) eqn:E; simpl;
      [|rewrite decide_False by naive_solver; lia..].
    specialize (Hcnt s w _ eq_refl E). rewrite Hemp in Hcnt. rewrite E in Hcnt. exact Hcnt.
  - by apply (om_insert_sorted _).
  - intros w x. rewrite om_get_insert by apply _. destruct (is_eq _); [|apply Hb]. by intros [= <-].
  - intros s w. unfold slots_at. rewrite om_get_insert by apply _.
    destruct (guard_key_cmp v w) eqn:E; simpl;
      [|rewrite decide_False by naive_solver; lia..].
    specialize (Hcnt s w _ eq_refl E). rewrite E in Hcnt. exact Hcnt.
Qed.

Lemma drop_all_spec slot vs m :
  buckets_ok m →
  buckets_ok (foldl (bucket_drop slot) m vs) ∧
  ∀ s v, cnt s (slots_at (foldl (bucket_drop slot) m vs) v) =
    cnt s (slots_at m v) - if decide (s = slot) then hits vs v else 0.
Proof.
  revert m. induction vs as [|w vs IH]; simpl; intros m Hm.
  { split; [done|]. intros. case_decide; unfold hits; simpl; lia. }
  destruct (bucket_drop_spec slot m w Hm) as [Hok1 Hc1].
  destruct (IH _ Hok1) as [Hok Hc]. split; [done|]. intros s v.
  rewrite Hc, Hc1, hits_cons. repeat case_decide; naive_solver lia.
Qed.

(** ** Split-key reference counts *)

Definition rc (m : gmap nat nat) (k : nat) : nat := default 0 (m !! k).

Definition no_zero (m : gmap nat nat) : Prop := ∀ k, m !! k ≠ Some 0.

Lemma incr_all_spec ks m :
  no_zero m →
  no_zero (foldl incr_key m ks) ∧ ∀ k, rc (foldl incr_key m ks) k = rc m k + cnt k ks.
Proof.
  revert m. induction ks as [|k0 ks IH]; simpl; intros m Hm.
  { split; [done|]. intros. rewrite cnt_nil. lia. }
  destruct (IH (incr_key m k0)) as [Hz Hc].
  { intros k. unfold incr_key. rewrite lookup_insert. case_decide; [intros [=]; lia|apply Hm]. }
  split; [done|]. intros k. rewrite Hc, cnt_cons. unfold rc, incr_key. rewrite lookup_insert.
  case_decide; subst; simpl; lia.
Qed.

Lemma decr_all_spec ks m :
  no_zero m → (∀ k, cnt k ks ≤ rc m k) →
  ∃ m', try_fold decr_key m ks = Some m' ∧ no_zero m' ∧ ∀ k, rc m' k = rc m k - cnt k ks.
Proof.
  revert m. induction ks as [|k0 ks IH]; simpl; intros m Hm Hle.
  { exists m. split_and!; [done..|]. intros. rewrite cnt_nil. lia. }
  pose proof (Hle k0) as Hk0. rewrite cnt_cons, decide_True in Hk0 by done. unfold rc in Hk0.
  unfold decr_key at 2. destruct (m !! k0) as [n|] eqn:E; [|simpl in Hk0; lia]. simpl in Hk0.
  rewrite decide_False by lia.
  assert (∀ m', (∀ k, rc m' k = rc m k - if decide (k0 = k) then 1 else 0) → no_zero m' →
    ∃ m'', try_fold decr_key m' ks = Some m'' ∧ no_zero m'' ∧
      ∀ k, rc m'' k = rc m k - cnt k (k0 :: ks)) as Hstep.
  { intros m' Hrc Hz. destruct (IH m' Hz) as (m'' & ? & ? & Hc).
    { intros k. specialize (Hle k). rewrite cnt_cons in Hle. rewrite Hrc. lia. }
    exists m''. split_and!; [done..|]. intros k. rewrite Hc, Hrc, cnt_cons. lia. }
  case_decide as Hn; apply Hstep.
  - intros k. unfold rc. rewrite lookup_delete. case_decide; subst; simpl; [rewrite E; simpl; lia|lia].
  - intros k. rewrite lookup_delete. case_decide; [done|apply Hm].
  - intros k. unfold rc. rewrite lookup_insert. case_decide; subst; simpl; [rewrite E; simpl; lia|lia].
  - intros k. rewrite lookup_insert. case_decide; [intros [=]; lia|apply Hm].
Qed.

(** ** The index against its registrations

    The abstract state: which slot is registered with which guard and split
    keys. *)

Abbreviation registration := (option PushGuard * list nat)%type.

Definition guard_hits (g : option PushGuard) (col : nat) (v : value) : nat :=
  match g with
  | Some g => if decide (guard_col g = col) then hits (guard_values g) v else 0
  | None => 0
  end.

Definition slot_hits (regs : gmap nat registration) (s col : nat) (v : value) : nat :=
  match regs !! s with Some (g, _) => guard_hits g col v | None => 0 end.

Definition total_keys (regs : gmap nat registration) (k : nat) : nat :=
  map_fold (λ _ (r : registration) acc, cnt k r.2 + acc) 0 regs.

Definition col_buckets (ix : PushIndex) (col : nat) : buckets := default [] (eq_index ix !! col).

Record index_ok (regs : gmap nat registration) (ix : PushIndex) : Prop := {
  ok_eq s col v : cnt s (slots_at (col_buckets ix col) v) = slot_hits regs s col v;
  ok_buckets col m : eq_index ix !! col = Some m → buckets_ok m ∧ m ≠ [];
  ok_scan s : s ∈ scan ix ↔ ∃ ks, regs !! s = Some (None, ks);
  ok_keys k : rc (split_keys ix) k = total_keys regs k;
  ok_zero : no_zero (split_keys ix)
}.

Lemma total_keys_insert regs s g ks k :
  regs !! s = None → total_keys (<[s := (g, ks)]> regs) k = cnt k ks + total_keys regs k.
Proof. intros Hs. unfold total_keys. rewrite map_fold_insert_L; [done|intros; lia|done]. Qed.

Lemma total_keys_delete regs s g ks k :
  regs !! s = Some (g, ks) → total_keys regs k = cnt k ks + total_keys (delete s regs) k.
Proof. intros Hs. unfold total_keys. rewrite (map_fold_delete_L _ _ s (g, ks)); [done|intros; lia|done]. Qed.

Lemma total_keys_pos regs k :
  total_keys regs k ≠ 0 ↔ ∃ s g ks, regs !! s = Some (g, ks) ∧ k ∈ ks.
Proof.
  induction regs as [|s [g ks] regs Hs IH] using map_ind.
  { split; [done|]. intros (s & g & ks & Hs & _). by rewrite lookup_empty in Hs. }
  rewrite total_keys_insert by done. setoid_rewrite cnt_pos. split.
  - intros Hne. destruct (decide (cnt k ks = 0)) as [Hz|Hz].
    + destruct (proj1 IH ltac:(lia)) as (s' & g' & ks' & Hs' & Hc%cnt_pos).
      exists s', g', ks'. split; [|done]. rewrite lookup_insert_ne; [done|]. congruence.
    + exists s, g, ks. by rewrite lookup_insert_eq.
  - intros (s' & g' & ks' & Hs' & Hc). rewrite lookup_insert in Hs'. case_decide; simplify_eq; [lia|].
    assert (total_keys regs k ≠ 0); [|lia]. apply IH. exists s', g', ks'.
    split; [done|]. by apply cnt_pos.
Qed.

Lemma buckets_ok_nil : buckets_ok [].
Proof. split; [constructor|done]. Qed.

Lemma col_buckets_ok regs ix col : index_ok regs ix → buckets_ok (col_buckets ix col).
Proof.
  intros Hok. unfold col_buckets. destruct (eq_index ix !! col) as [m|] eqn:E; simpl.
  - by apply (ok_buckets _ _ Hok) in E as [? _].
  - apply buckets_ok_nil.
Qed.

Lemma slots_at_nil v : slots_at [] v = [].
Proof. done. Qed.

Lemma slot_hits_insert regs s g ks s' col v :
  regs !! s = None →
  slot_hits (<[s := (g, ks)]> regs) s' col v =
    slot_hits regs s' col v + if decide (s' = s) then guard_hits g col v else 0.
Proof.
  intros Hs. unfold slot_hits. rewrite lookup_insert. destruct (decide (s = s')) as [<-|].
  - rewrite Hs, decide_True by done. lia.
  - rewrite decide_False by done. lia.
Qed.

Lemma slot_hits_delete regs s g ks s' col v :
  regs !! s = Some (g, ks) →
  slot_hits (delete s regs) s' col v =
    slot_hits regs s' col v - if decide (s' = s) then guard_hits g col v else 0.
Proof.
  intros Hs. unfold slot_hits. rewrite lookup_delete. destruct (decide (s = s')) as [<-|].
  - rewrite Hs, decide_True by done. lia.
  - rewrite decide_False by done. lia.
Qed.

(** A registration changes the equality map, the scan set and the counts. *)
Lemma insert_ok_parts regs ix s g ks eq' scan' :
  index_ok regs ix → regs !! s = None →
  (∀ s' col v, cnt s' (slots_at (default [] (eq' !! col)) v) =
     slot_hits regs s' col v + if decide (s' = s) then guard_hits g col v else 0) →
  (∀ col m, eq' !! col = Some m → buckets_ok m ∧ m ≠ []) →
  (∀ s', s' ∈ scan' ↔ (s' = s ∧ g = None) ∨ s' ∈ scan ix) →
  index_ok (<[s := (g, ks)]> regs) (MkIndex eq' scan' (foldl incr_key (split_keys ix) ks)).
Proof.
  intros Hok Hs He Hb Hsc. destruct (incr_all_spec ks _ (ok_zero _ _ Hok)) as [Hz Hrc].
  split; simpl.
  - intros s' col v. rewrite slot_hits_insert by done. apply He.
  - apply Hb.
  - intros s'. rewrite Hsc, lookup_insert, (ok_scan _ _ Hok). case_decide; [subst|naive_solver].
    rewrite Hs. naive_solver.
  - intros k. rewrite Hrc, (ok_keys _ _ Hok), total_keys_insert by done. lia.
  - done.
Qed.

Lemma remove_ok_parts regs ix s g ks eq' scan' :
  index_ok regs ix → regs !! s = Some (g, ks) →
  (∀ s' col v, cnt s' (slots_at (default [] (eq' !! col)) v) =
     slot_hits regs s' col v - if decide (s' = s) then guard_hits g col v else 0) →
  (∀ col m, eq' !! col = Some m → buckets_ok m ∧ m ≠ []) →
  (∀ s', s' ∈ scan' ↔ ¬ (s' = s ∧ g = None) ∧ s' ∈ scan ix) →
  ∃ ix', (keys ← try_fold decr_key (split_keys ix) ks; Some (MkIndex eq' scan' keys)) = Some ix' ∧
    index_ok (delete s regs) ix'.
Proof.
  intros Hok Hs He Hb Hsc.
  destruct (decr_all_spec ks (split_keys ix) (ok_zero _ _ Hok)) as (keys & -> & Hz & Hrc).
  { intros k. rewrite (ok_keys _ _ Hok), (total_keys_delete _ _ _ _ _ Hs). lia. }
  eexists. split; [done|]. split; simpl.
  - intros s' col v. rewrite (slot_hits_delete _ _ g ks) by done. apply He.
  - apply Hb.
  - intros s'. rewrite Hsc, lookup_delete, (ok_scan _ _ Hok). case_decide; [subst|naive_solver].
    rewrite Hs. naive_solver.
  - intros k. rewrite Hrc, (ok_keys _ _ Hok), (total_keys_delete _ _ _ _ _ Hs). lia.
  - done.
Qed.

Lemma insert_ok regs ix s g ks :
  index_ok regs ix → regs !! s = None →
  index_ok (<[s := (g, ks)]> regs) (insert ix s g ks).
Proof.
  intros Hok Hs.
  unfold insert. destruct g as [g|]; [case_decide as Hv|]; apply insert_ok_parts; try done.
  - intros s' col v. fold (col_buckets ix col). rewrite (ok_eq _ _ Hok). unfold guard_hits.
    rewrite Hv. unfold hits. simpl. repeat case_decide; lia.
  - apply (ok_buckets _ _ Hok).
  - naive_solver.
  - destruct (push_all_spec s (guard_values g) _ (col_buckets_ok _ _ (guard_col g) Hok)) as [_ Hc].
    intros s' col v. rewrite lookup_insert. case_decide as Hcol; simpl.
    + subst col. rewrite Hc, (ok_eq _ _ Hok). unfold guard_hits. by rewrite (decide_True (P := guard_col g = _)) by done.
    + fold (col_buckets ix col). rewrite (ok_eq _ _ Hok). unfold guard_hits.
      rewrite (decide_False (P := guard_col g = _)) by done. case_decide; lia.
  - destruct (push_all_spec s (guard_values g) _ (col_buckets_ok _ _ (guard_col g) Hok)) as [Hbo Hc].
    intros col m. rewrite lookup_insert. case_decide; [|apply (ok_buckets _ _ Hok)].
    intros [= <-]. split; [done|]. intros Hemp.
    destruct (guard_values g) as [|v vs]; [done|]. specialize (Hc s v).
    unfold col_buckets in Hc. rewrite Hemp, slots_at_nil, cnt_nil, decide_True, hits_cons in Hc by done.
    rewrite decide_True in Hc by apply cmp_refl. lia.
  - naive_solver.
  - intros s' col v. fold (col_buckets ix col). rewrite (ok_eq _ _ Hok). simpl. case_decide; lia.
  - apply (ok_buckets _ _ Hok).
  - set_solver.
Qed.

Lemma buckets_empty m : buckets_ok m → (∀ s v, cnt s (slots_at m v) = 0) → m = [].
Proof.
  intros [Hs Hb] Hz. destruct m as [|[k b] m]; [done|]. exfalso.
  pose proof (om_get_head guard_key_cmp k b m) as Hg.
  specialize (Hb k b Hg). destruct b as [|s b]; [done|]. specialize (Hz s k).
  unfold slots_at in Hz. rewrite Hg in Hz. simpl in Hz. rewrite cnt_cons, decide_True in Hz; done.
Qed.

Lemma remove_ok regs ix s g ks :
  index_ok regs ix → regs !! s = Some (g, ks) →
  ∃ ix', remove ix s g ks = Some ix' ∧ index_ok (delete s regs) ix'.
Proof.
  intros Hok Hs.
  unfold remove. destruct g as [g|]; [case_decide as Hv; [|destruct (eq_index ix !! guard_col g) as [m|] eqn:Hm]|];
    apply (remove_ok_parts regs _ _ _ _ _ _ Hok Hs).
  - intros s' col v. fold (col_buckets ix col). rewrite (ok_eq _ _ Hok). unfold guard_hits.
    rewrite Hv. unfold hits. simpl. repeat case_decide; lia.
  - apply (ok_buckets _ _ Hok).
  - naive_solver.
  - destruct (ok_buckets _ _ Hok _ _ Hm) as [Hmok _].
    destruct (drop_all_spec s (guard_values g) m Hmok) as [_ Hc].
    assert (col_buckets ix (guard_col g) = m) as Hcb by (unfold col_buckets; by rewrite Hm).
    intros s' col v. set (m' := foldl _ m _) in *.
    assert (default [] ((if decide (m' = []) then delete (guard_col g) (eq_index ix)
      else <[guard_col g:=m']> (eq_index ix)) !! col) =
      if decide (guard_col g = col) then m' else col_buckets ix col) as ->.
    { unfold col_buckets. case_decide as Hm'.
      - rewrite lookup_delete. case_decide; [by rewrite Hm'|done].
      - rewrite lookup_insert. by case_decide. }
    unfold guard_hits. case_decide as Hcol.
    + subst col. by rewrite Hc, <-Hcb, (ok_eq _ _ Hok).
    + rewrite (ok_eq _ _ Hok). case_decide; lia.
  - destruct (ok_buckets _ _ Hok _ _ Hm) as [Hmok _].
    destruct (drop_all_spec s (guard_values g) m Hmok) as [Hbo _]. intros col m'.
    case_decide as Hemp.
    + rewrite lookup_delete. case_decide; [done|apply (ok_buckets _ _ Hok)].
    + rewrite lookup_insert. case_decide; [by intros [= <-]|apply (ok_buckets _ _ Hok)].
  - naive_solver.
  - intros s' col v. fold (col_buckets ix col). rewrite (ok_eq _ _ Hok). unfold guard_hits.
    case_decide; [subst s'|lia]. case_decide; [subst col|lia].
    rewrite <-(ok_eq _ _ Hok s). unfold col_buckets. by rewrite Hm.
  - apply (ok_buckets _ _ Hok).
  - naive_solver.
  - intros s' col v. fold (col_buckets ix col). rewrite (ok_eq _ _ Hok). simpl. case_decide; lia.
  - apply (ok_buckets _ _ Hok).
  - set_solver.
Qed.

(** ** Candidates *)

Definition change_rows (c : source_change) : list row :=
  match c with SAdd r | SRemove r => [r] | SEdit r old => [r; old] end.

Lemma collect_bucket_elem m v out s : s ∈ collect_bucket m v out ↔ s ∈ out ∨ s ∈ slots_at m v.
Proof. unfold collect_bucket, slots_at. destruct (om_get _ _ _); simpl; set_solver. Qed.

Definition collected (c : source_change) (cb : nat * buckets) (s : nat) : Prop :=
  ∃ r v, r ∈ change_rows c ∧ r !! cb.1 = Some v ∧ s ∈ slots_at cb.2 v.

Lemma collect_column_spec c out cb :
  (∀ r, r ∈ change_rows c → cb.1 < length r) →
  ∃ out', collect_column c out cb = Some out' ∧
    ∀ s, s ∈ out' ↔ s ∈ out ∨ collected c cb s.
Proof.
  intros Hw. assert (∀ r, r ∈ change_rows c → ∃ v, r !! cb.1 = Some v) as Hv.
  { intros r Hr. apply lookup_lt_is_Some_2. by apply Hw. }
  unfold collected. destruct c as [r|r|r old]; simpl in *.
  1, 2: destruct (Hv r) as [v Hr]; [set_solver|]; rewrite Hr; eexists; split; [done|]; intros s;
    rewrite collect_bucket_elem; setoid_rewrite list_elem_of_singleton; naive_solver.
  destruct (Hv r) as [v Hr]; [set_solver|]. destruct (Hv old) as [w Ho]; [set_solver|].
  rewrite Hr, Ho. eexists; split; [done|]. intros s. rewrite !collect_bucket_elem.
  setoid_rewrite elem_of_cons. setoid_rewrite list_elem_of_singleton. naive_solver.
Qed.

Lemma collect_all_spec c cols out :
  (∀ r cb, r ∈ change_rows c → cb ∈ cols → cb.1 < length r) →
  ∃ out', try_fold (collect_column c) out cols = Some out' ∧
    ∀ s, s ∈ out' ↔ s ∈ out ∨ ∃ cb, cb ∈ cols ∧ collected c cb s.
Proof.
  revert out. induction cols as [|cb cols IH]; intros out Hw; simpl.
  { exists out. split; [done|]. set_solver. }
  destruct (collect_column_spec c out cb) as (out1 & -> & H1); [set_solver|]. cbn [mbind option_bind].
  destruct (IH out1) as (out2 & -> & H2); [set_solver|]. exists out2. split; [done|].
  intros s. rewrite H2, H1. setoid_rewrite elem_of_cons. naive_solver.
Qed.

Lemma dedup_elem l x : x ∈ dedup l ↔ x ∈ l.
Proof.
  induction l as [|y l IH]; simpl; [done|]. rewrite elem_of_cons, <-IH.
  destruct (dedup l) as [|z r]; [set_solver|]. case_decide; set_solver.
Qed.

Lemma dedup_sorted l : StronglySorted (≤) l → StronglySorted (<) (dedup l).
Proof.
  induction 1 as [|x l Hs IH Hx]; simpl; [constructor|].
  assert (∀ y, y ∈ dedup l → x ≤ y) as Hle.
  { intros y Hy. rewrite dedup_elem in Hy. rewrite Forall_forall in Hx. by apply Hx. }
  destruct (dedup l) as [|z r]; [repeat constructor|]. case_decide as Hd; [done|].
  constructor; [done|]. apply StronglySorted_inv in IH as [_ Hz].
  pose proof (Hle z ltac:(set_solver)). constructor; [lia|].
  eapply Forall_impl; [exact Hz|]. simpl. lia.
Qed.

(** ** What the index promises *)

(** The states of an index: every slot is inserted while unregistered and
    removed with what it was registered with. *)
Inductive index_reach : gmap nat registration → PushIndex → Prop :=
  | reach_new : index_reach ∅ push_index_new
  | reach_insert regs ix s g ks :
      index_reach regs ix → regs !! s = None →
      index_reach (<[s := (g, ks)]> regs) (insert ix s g ks)
  | reach_remove regs ix s g ks ix' :
      index_reach regs ix → regs !! s = Some (g, ks) → remove ix s g ks = Some ix' →
      index_reach (delete s regs) ix'.

Lemma index_new_ok : index_ok ∅ push_index_new.
Proof. split; try done. intros s. simpl. set_solver. Qed.

Lemma index_reach_ok regs ix : index_reach regs ix → index_ok regs ix.
Proof.
  induction 1 as [|regs ix s g ks _ IH Hs|regs ix s g ks ix' _ IH Hs Hr].
  - apply index_new_ok.
  - by apply insert_ok.
  - destruct (remove_ok _ _ _ _ _ IH Hs) as (ix'' & Hr' & ?). congruence.
Qed.

(** A slot the change may concern: unguarded, or guarded by a value identical
    to a cell of the new or the old row. *)
Definition candidate (regs : gmap nat registration) (c : source_change) (s : nat) : Prop :=
  ∃ g ks, regs !! s = Some (g, ks) ∧
    match g with
    | None => True
    | Some g => ∃ r v w, r ∈ change_rows c ∧ r !! guard_col g = Some v ∧
                         w ∈ guard_values g ∧ values_identical w v = true
    end.

(** The rows of the change have the guarded columns. *)
Definition change_wide (ix : PushIndex) (c : source_change) : Prop :=
  ∀ r col, r ∈ change_rows c → col ∈ dom (eq_index ix) → col < length r.

Lemma push_candidates_spec regs ix c :
  index_ok regs ix → change_wide ix c →
  ∃ out, push_candidates ix c = Some out ∧ StronglySorted (<) out ∧
    ∀ s, s ∈ out ↔ candidate regs c s.
Proof.
  intros Hok Hw. unfold push_candidates.
  destruct (collect_all_spec c (map_to_list (eq_index ix)) (elements (scan ix))) as (out & -> & Hout).
  { intros r [col m] Hr Hin%elem_of_map_to_list. simpl. apply Hw; [done|]. by eapply elem_of_dom_2. }
  cbn [mbind option_bind]. eexists. split; [done|]. split.
  { apply dedup_sorted, (StronglySorted_merge_sort _). }
  intros s. rewrite dedup_elem, merge_sort_Permutation, Hout, elem_of_elements, (ok_scan _ _ Hok).
  unfold candidate. split.
  - intros [[ks Hs]|([col m] & Hin & r & v & Hr & Hv & Hs)]; [by exists None, ks|].
    apply elem_of_map_to_list in Hin. simpl in *.
    assert (col_buckets ix col = m) as Hcb by (unfold col_buckets; by rewrite Hin).
    rewrite <-Hcb in Hs. apply cnt_pos in Hs. rewrite (ok_eq _ _ Hok) in Hs. unfold slot_hits in Hs.
    destruct (regs !! s) as [[[g|] ks]|]; [|done..]. exists (Some g), ks. split; [done|].
    simpl in Hs. case_decide as Hcol; [|done]. apply hits_pos in Hs as (w & Hw' & He).
    exists r, v, w. subst col. split_and!; [done..|]. by rewrite values_identical_eq, He.
  - intros ([g|] & ks & Hs & Hc); [right|left; by exists ks].
    destruct Hc as (r & v & w & Hr & Hv & Hin & Hid).
    assert (s ∈ slots_at (col_buckets ix (guard_col g)) v) as Hsl.
    { apply cnt_pos. rewrite (ok_eq _ _ Hok). unfold slot_hits. rewrite Hs. simpl.
      rewrite decide_True by done. apply hits_pos. exists w. split; [done|].
      rewrite values_identical_eq in Hid. by apply is_eq_true. }
    unfold col_buckets in Hsl. destruct (eq_index ix !! guard_col g) as [m|] eqn:Hm.
    + exists (guard_col g, m). split; [by apply elem_of_map_to_list|]. exists r, v. done.
    + simpl in Hsl. rewrite slots_at_nil in Hsl. by apply elem_of_nil in Hsl.
Qed.

(** [C13] However connections came and went, the push candidates of a change are
    exactly the unguarded slots and the slots guarded by a value identical to a
    cell of the new or the old row, each once and in slot order. *)
Theorem push_candidates_exact (regs : gmap nat registration) (ix : PushIndex) (c : source_change) :
  index_reach regs ix → change_wide ix c →
  ∃ out, push_candidates ix c = Some out ∧ StronglySorted (<) out ∧
    ∀ s, s ∈ out ↔ candidate regs c s.
Proof. intros Hr Hw. apply push_candidates_spec; [by apply index_reach_ok|done]. Qed.

Lemma push_candidates_exact_witness :
  let g := MkGuard 0 [Int (I64 1 I); Int (I64 2 I)] in
  let ix := insert (insert push_index_new 7 (Some g) []) 3 None [1] in
  let c := SEdit [Int (I64 5 I)] [Float (F64 0x4000000000000000 I)] in
  push_candidates ix c = Some [3; 7] ∧
  ∃ out, push_candidates ix c = Some out ∧ StronglySorted (<) out ∧
    ∀ s, s ∈ out ↔ candidate (<[3 := (None, [1])]> (<[7 := (Some g, [])]> ∅)) c s.
Proof.
  intros g ix c. split; [vm_compute; reflexivity|].
  apply push_candidates_exact.
  - apply reach_insert; [apply reach_insert; [apply reach_new|done]|done].
  - intros r col Hr Hcol. assert (col = 0) as ->.
    { unfold ix in Hcol. simpl in Hcol. set_solver. }
    unfold c in Hr. simpl in Hr. apply elem_of_cons in Hr as [->|Hr]; [simpl; lia|].
    apply list_elem_of_singleton in Hr as ->. simpl. lia.
Defined.

(** The index never misses: if every connection's predicate implies its
    guard, a connection whose predicate accepts the new or the old row is a
    candidate, so fanning a push out to the candidates alone reaches every
    connection the exact predicates would. *)
Theorem push_candidates_superset (regs : gmap nat registration) (ix : PushIndex)
    (c : source_change) (accepts : nat → row → bool) (out : list nat) (s : nat) (r : row) :
  index_reach regs ix → change_wide ix c →
  (∀ s g ks r, regs !! s = Some (Some g, ks) → accepts s r = true →
     ∃ v w, r !! guard_col g = Some v ∧ w ∈ guard_values g ∧ values_identical w v = true) →
  push_candidates ix c = Some out →
  s ∈ dom regs → r ∈ change_rows c → accepts s r = true → s ∈ out.
Proof.
  intros Hr Hw Hacc Hout [[g ks] Hs]%elem_of_dom Hin Ha.
  destruct (push_candidates_spec regs ix c (index_reach_ok _ _ Hr) Hw) as (out' & Hout' & _ & Hc).
  simplify_eq. apply Hc. exists g, ks. split; [done|]. destruct g as [g|]; [|done].
  destruct (Hacc s g ks r Hs Ha) as (v & w & ? & ? & ?). by exists r, v, w.
Qed.

Lemma push_candidates_superset_witness :
  let g := MkGuard 0 [Int (I64 1 I)] in
  let ix := insert push_index_new 7 (Some g) [] in
  7 ∈ ([7] : list nat).
Proof.
  intros g ix.
  apply (push_candidates_superset (<[7 := (Some g, [])]> ∅) ix (SAdd [Int (I64 1 I)])
    (λ _ r, bool_decide (r = [Int (I64 1 I)])) [7] 7 [Int (I64 1 I)]).
  - apply reach_insert; [apply reach_new|done].
  - intros r col Hr Hcol. simpl in Hcol. assert (col = 0) as -> by set_solver.
    apply list_elem_of_singleton in Hr as ->. simpl. lia.
  - intros s g' ks r Hs Ha%bool_decide_eq_true. rewrite lookup_insert in Hs.
    case_decide; [|done]. simplify_eq. exists (Int (I64 1 I)), (Int (I64 1 I)).
    split_and!; [done|by left|vm_compute; done].
  - vm_compute. reflexivity.
  - apply elem_of_dom. by exists (Some g, []).
  - by left.
  - by apply bool_decide_eq_true.
Defined.

Lemma split_keys_spec regs ix :
  index_ok regs ix →
  (∀ k, k ∈ split_key_list ix ↔ ∃ s g ks, regs !! s = Some (g, ks) ∧ k ∈ ks) ∧
  (has_split_keys ix = true ↔ ∃ s g ks, regs !! s = Some (g, ks) ∧ ks ≠ []).
Proof.
  intros Hok.
  assert (∀ k, split_keys ix !! k ≠ None ↔ ∃ s g ks, regs !! s = Some (g, ks) ∧ k ∈ ks) as Hk.
  { intros k. rewrite <-total_keys_pos, <-(ok_keys _ _ Hok). unfold rc.
    pose proof (ok_zero _ _ Hok k). destruct (split_keys ix !! k) as [[|n]|]; simpl; naive_solver lia. }
  split_and!.
  - intros k. rewrite <-Hk. unfold split_key_list. rewrite list_elem_of_fmap. split.
    + intros ([k' n] & -> & Hin%elem_of_map_to_list). simpl. by rewrite Hin.
    + destruct (split_keys ix !! k) as [n|] eqn:E; [|done]. intros _. exists (k, n).
      split; [done|]. by apply elem_of_map_to_list.
  - unfold has_split_keys. rewrite bool_decide_eq_true. split.
    + intros (k & n & Hn)%map_choose. destruct (proj1 (Hk k)) as (s & g & ks & Hs & Hin); [by rewrite Hn|].
      exists s, g, ks. split; [done|]. intros ->. by apply elem_of_nil in Hin.
    + intros (s & g & [|k ks] & Hs & Hne) He; [done|].
      destruct (proj2 (Hk k)); [|by rewrite He]. exists s, g, (k :: ks). split; [done|by left].
Qed.

(** The split keys of the index are exactly the keys some registered
    connection lists, and un-registering a connection never underflows a count
    and leaves an index that answers as if it had never been registered. *)
Theorem split_keys_exact (regs : gmap nat registration) (ix : PushIndex) :
  index_reach regs ix →
  (∀ k, k ∈ split_key_list ix ↔ ∃ s g ks, regs !! s = Some (g, ks) ∧ k ∈ ks) ∧
  (has_split_keys ix = true ↔ ∃ s g ks, regs !! s = Some (g, ks) ∧ ks ≠ []) ∧
  (∀ s g ks, regs !! s = Some (g, ks) →
     ∃ ix', remove ix s g ks = Some ix' ∧ index_ok (delete s regs) ix').
Proof.
  intros Hok%index_reach_ok. destruct (split_keys_spec regs ix Hok). split_and!; [done..|].
  intros s g ks Hs. by apply remove_ok.
Qed.

Lemma split_keys_exact_witness :
  let ix := insert (insert push_index_new 7 None [2]) 3 None [1; 2] in
  let regs := <[3 := (None, [1; 2])]> (<[7 := (None, [2])]> ∅) in
  (∀ k, k ∈ split_key_list ix ↔ ∃ s g ks, regs !! s = Some (g, ks) ∧ k ∈ ks) ∧
  (has_split_keys ix = true ↔ ∃ s g ks, regs !! s = Some (g, ks) ∧ ks ≠ []) ∧
  (∀ s g ks, regs !! s = Some (g, ks) →
     ∃ ix', remove ix s g ks = Some ix' ∧ index_ok (delete s regs) ix').
Proof.
  intros ix regs. apply split_keys_exact.
  apply reach_insert; [apply reach_insert; [apply reach_new|done]|done].
Defined.
