(* ===== verification/Connections.v ===== *)
(** * The connection table of a source ([rust/src/source_common.rs])

    Connections live in slots; a freed slot is recycled under a new generation,
    so a stale handle is refused.  Interior mutability ([RefCell], [Cell]) is
    explicit state passing; a panic (a stale handle in [live_ix], an index out
    of range) is [None].  Generations are [u32] and wrap around. *)

From stdpp Require Import base list numbers option sorting gmap sets.
From Stdlib Require Import ZArith Lia.
From S2P Require Import Prelude Values Rows Change PushIndex.

(** ** Filters and connections *)

Inductive Operand : Type :=
  | Column (c : nat)
  | Literal (v : value).

Inductive SqlOp :=
  | SqlEq | SqlNe | SqlLt | SqlLe | SqlGt | SqlGe | SqlIs | SqlIsNot
  | SqlIn | SqlNotIn | SqlLike | SqlNotLike | SqlIlike | SqlNotIlike.

Inductive SqlCondition : Type :=
  | SqlSimple (lhs : Operand) (op : SqlOp) (rhs : Operand)
  | SqlAnd (cs : list SqlCondition)
  | SqlOr (cs : list SqlCondition).

(** [Rc<dyn Fn(&Row) -> bool>]. *)
Abbreviation RowPredicate := (row → bool).

Record ConnectionFilters := MkFilters {
  predicate : RowPredicate;
  pk_constraint : option Constraint;
  fully_applied : bool;
  sql_condition : option SqlCondition;
  push_guard : option PushGuard
}.

Inductive Port := Single | JoinParent | JoinChild.

Record OutEdge := MkEdge { edge_node : nat; edge_port : Port }.

Record Connection := MkConn {
  conn_sort : Sort;
  unordered : bool;
  split_edit_keys : list nat;
  filters : option ConnectionFilters;
  last_pushed_epoch : Z;
  output : option OutEdge
}.

Definition with_output (c : Connection) (o : option OutEdge) : Connection :=
  MkConn (conn_sort c) (unordered c) (split_edit_keys c) (filters c) (last_pushed_epoch c) o.

Definition with_epoch (c : Connection) (e : Z) : Connection :=
  MkConn (conn_sort c) (unordered c) (split_edit_keys c) (filters c) e (output c).

(** [conn.filters.as_ref().and_then(|f| f.push_guard.as_ref())]. *)
Definition conn_guard (c : Connection) : option PushGuard := f ← filters c; push_guard f.

(** ** The table *)

Record ConnId := MkConnId { cid_idx : nat; cid_gen : Z }.

#[export] Instance ConnId_eq_dec : EqDecision ConnId.
Proof. solve_decision. Defined.

(** The free-list is a stack; its head is the top of the [Vec]. *)
Record ConnTable := MkTable {
  conns : list Connection;
  gens : list Z;
  free : list nat;
  index : PushIndex
}.

Definition conn_table_new : ConnTable := MkTable [] [] [] push_index_new.

Definition connect (t : ConnTable) (conn : Connection) : option (ConnTable * ConnId) :=
  match free t with
  | idx :: rest =>
      let ix := insert (index t) idx (conn_guard conn) (split_edit_keys conn) in
      if decide (idx < length (conns t)) then
        g ← gens t !! idx;
        Some (MkTable (<[idx := conn]> (conns t)) (gens t) rest ix, MkConnId idx g)
      else None
  | [] =>
      let idx := length (conns t) in
      let ix := insert (index t) idx (conn_guard conn) (split_edit_keys conn) in
      Some (MkTable (conns t ++ [conn]) (gens t ++ [0%Z]) [] ix, MkConnId idx 0)
  end.

Definition u32_wrapping_add1 (x : Z) : Z := (x + 1) `mod` 2 ^ 32.

Definition destroy (t : ConnTable) (id : ConnId) : option ConnTable :=
  let i := cid_idx id in
  if decide (gens t !! i ≠ Some (cid_gen id)) then Some t
  else
    '(cs, ix) ← match conns t !! i with
                | Some c =>
                    ix ← remove (index t) i (conn_guard c) (split_edit_keys c);
                    Some (<[i := with_output c None]> (conns t), ix)
                | None => Some (conns t, index t)
                end;
    g ← gens t !! i;
    Some (MkTable cs (<[i := u32_wrapping_add1 g]> (gens t)) (i :: free t) ix).

Definition live_ix (t : ConnTable) (id : ConnId) : option nat :=
  if decide (gens t !! cid_idx id = Some (cid_gen id)) then Some (cid_idx id) else None.

Definition set_output (t : ConnTable) (id : ConnId) (edge : OutEdge) : option ConnTable :=
  i ← live_ix t id;
  c ← conns t !! i;
  Some (MkTable (<[i := with_output c (Some edge)]> (conns t)) (gens t) (free t) (index t)).

Definition table_sort (t : ConnTable) (id : ConnId) : option Sort :=
  i ← live_ix t id;
  c ← conns t !! i;
  Some (conn_sort c).

Definition table_len (t : ConnTable) : nat := length (conns t).

Definition live_conn_count (t : ConnTable) : nat :=
  length (filter (λ c, is_Some (output c)) (conns t)).

Definition table_push_candidates (t : ConnTable) (c : source_change) : option (list nat) :=
  push_candidates (index t) c.

Definition table_split_edit_keys (t : ConnTable) : list nat := split_key_list (index t).

Definition has_split_edit_keys (t : ConnTable) : bool := has_split_keys (index t).

(** A push records its epoch on the connections it visits. *)
Definition set_epoch (t : ConnTable) (i : nat) (e : Z) : option ConnTable :=
  c ← conns t !! i;
  Some (MkTable (<[i := with_epoch c e]> (conns t)) (gens t) (free t) (index t)).

(** ** Reachable tables

    [conn_reach t live dead]: a table after a history that issued the handles
    [live] and [dead] and destroyed exactly [dead].  A handle may be destroyed
    again.  A slot is freed fewer than [2^32] times: that many frees of one
    slot bring its generation round to a handle issued long before. *)

Inductive conn_reach : ConnTable → list ConnId → list ConnId → Prop :=
  | cr_new : conn_reach conn_table_new [] []
  | cr_connect t live dead conn t' id :
      conn_reach t live dead → connect t conn = Some (t', id) →
      conn_reach t' (id :: live) dead
  | cr_destroy t live dead id t' :
      conn_reach t live dead → id ∈ live ∨ id ∈ dead →
      (∀ g, gens t !! cid_idx id = Some g → (g + 1 < 2 ^ 32)%Z) →
      destroy t id = Some t' →
      conn_reach t' (filter (λ i, i ≠ id) live) (id :: dead)
  | cr_set_output t live dead id edge t' :
      conn_reach t live dead → id ∈ live ∨ id ∈ dead → set_output t id edge = Some t' →
      conn_reach t' live dead
  | cr_set_epoch t live dead i e t' :
      conn_reach t live dead → set_epoch t i e = Some t' →
      conn_reach t' live dead.

Definition conn_reg (c : Connection) : registration := (conn_guard c, split_edit_keys c).

(** What the index must know of a slot. *)
Definition reg_at (t : ConnTable) (s : nat) : option registration :=
  if decide (s ∈ free t) then None else conn_reg <$> conns t !! s.

Record table_ok (t : ConnTable) (live dead : list ConnId) : Prop := {
  to_gens : length (gens t) = length (conns t);
  to_free_nodup : NoDup (free t);
  to_free s : s ∈ free t → ∃ c, conns t !! s = Some c ∧ output c = None;
  to_index : ∃ regs, index_reach regs (index t) ∧ (∀ s, regs !! s = reg_at t s);
  to_live id : id ∈ live → (cid_idx id ∉ free t) ∧ gens t !! cid_idx id = Some (cid_gen id);
  to_live_nodup : NoDup live;
  to_live_all s : s < length (conns t) → s ∉ free t → ∃ id, id ∈ live ∧ cid_idx id = s;
  to_dead id : id ∈ dead → ∃ g, gens t !! cid_idx id = Some g ∧ (cid_gen id < g)%Z;
  to_gens_pos s g : gens t !! s = Some g → (0 ≤ g)%Z
}.

Lemma table_new_ok : table_ok conn_table_new [] [].
Proof.
  split; simpl; try (by constructor); try (intros; set_solver).
  - exists ∅. split; [constructor|]. intros s.
    unfold reg_at. rewrite decide_False by (simpl; set_solver). done.
  - intros. lia.
Qed.

Lemma reach_insert_at regs ix t t' s c :
  index_reach regs ix → (∀ s, regs !! s = reg_at t s) → reg_at t s = None →
  (∀ s', reg_at t' s' = if decide (s' = s) then Some (conn_reg c) else reg_at t s') →
  ∃ regs', index_reach regs' (insert ix s (conn_guard c) (split_edit_keys c)) ∧
    ∀ s', regs' !! s' = reg_at t' s'.
Proof.
  intros Hr Hregs Hn Ht'. exists (<[s := conn_reg c]> regs). split.
  - apply reach_insert; [done|]. by rewrite Hregs.
  - intros s'. rewrite lookup_insert, Ht', Hregs. repeat case_decide; congruence.
Qed.

Lemma connect_grow_ok t live dead conn t' id :
  table_ok t live dead → free t = [] → connect t conn = Some (t', id) →
  table_ok t' (id :: live) dead ∧ (id ∉ live) ∧ (id ∉ dead).
Proof.
  intros Hok Hf. unfold connect. destruct (to_index _ _ _ Hok) as (regs & Hreach & Hregs).
  pose proof (to_gens _ _ _ Hok) as Hlen. rewrite Hf.
  intros [= <- <-]. set (n := length (conns t)) in *.
  assert (∀ g, (MkConnId n g ∉ live) ∧ (MkConnId n g ∉ dead)) as Hfresh.
  { intros g. split; intros Hin.
    - apply (to_live _ _ _ Hok) in Hin as [_ Hin%lookup_lt_Some]. simpl in Hin. lia.
    - apply (to_dead _ _ _ Hok) in Hin as (g' & Hin%lookup_lt_Some & _). simpl in Hin. lia. }
  split; [|apply Hfresh]. split; simpl.
  + rewrite !length_app. simpl. lia.
  + constructor.
  + set_solver.
  + apply (reach_insert_at regs _ t _ n conn); [done|done|..].
    * unfold reg_at. rewrite Hf, decide_False by set_solver. by rewrite lookup_ge_None_2.
    * intros s'. unfold reg_at. simpl. rewrite Hf. repeat case_decide; try set_solver.
      -- subst s'. by rewrite list_lookup_middle.
      -- destruct (decide (s' < n)); [by rewrite lookup_app_l|].
         rewrite !lookup_ge_None_2; [done|lia|rewrite length_app; simpl; lia].
  + intros id [->|Hin]%elem_of_cons; simpl.
    * split; [set_solver|]. rewrite <-Hlen. by rewrite list_lookup_middle.
    * apply (to_live _ _ _ Hok) in Hin as [_ Hg]. split; [set_solver|].
      by apply lookup_app_l_Some.
  + constructor; [apply Hfresh|apply (to_live_nodup _ _ _ Hok)].
  + intros s Hs _. rewrite length_app in Hs. simpl in Hs.
    destruct (decide (s = n)) as [->|]; [eexists; split; [by left|done]|].
    destruct (to_live_all _ _ _ Hok s) as (id & ? & ?); [unfold n in *; lia|rewrite Hf; set_solver|].
    exists id. split; [by right|done].
  + intros id Hin. apply (to_dead _ _ _ Hok) in Hin as (g & Hg & Hlt).
    exists g. split; [by apply lookup_app_l_Some|done].
  + intros s g Hg. apply lookup_app_Some in Hg as [Hg|[_ Hg]]; [by eapply (to_gens_pos _ _ _ Hok)|].
    apply list_lookup_singleton_Some in Hg as [_ <-]. done.
Qed.

Lemma connect_reuse_ok t live dead conn t' id idx rest :
  table_ok t live dead → free t = idx :: rest → connect t conn = Some (t', id) →
  table_ok t' (id :: live) dead ∧ (id ∉ live) ∧ (id ∉ dead).
Proof.
  intros Hok Hf. unfold connect. destruct (to_index _ _ _ Hok) as (regs & Hreach & Hregs).
  pose proof (to_gens _ _ _ Hok) as Hlen. rewrite Hf.
  case_decide as Hlt; [|done]. destruct (gens t !! idx) as [g|] eqn:Hg; [|done].
  intros [= <- <-].
  assert (idx ∈ free t) as Hidx by (rewrite Hf; by left).
  assert (MkConnId idx g ∉ live) as Hnl.
  { intros [Hin _]%(to_live _ _ _ Hok). done. }
  assert (MkConnId idx g ∉ dead) as Hnd.
  { intros (g' & Hg' & Hlt')%(to_dead _ _ _ Hok). simpl in *. simplify_eq. lia. }
  pose proof (to_free_nodup _ _ _ Hok) as Hnd'. rewrite Hf in Hnd'. apply NoDup_cons in Hnd' as [Hni Hnr].
  split; [|done]. split; simpl.
  + by rewrite length_insert.
  + done.
  + intros s Hs. rewrite list_lookup_insert_ne by set_solver. apply (to_free _ _ _ Hok).
    rewrite Hf. by right.
  + apply (reach_insert_at regs _ t _ idx conn); [done|done|..].
    * unfold reg_at. by rewrite decide_True.
    * intros s'. unfold reg_at. simpl. rewrite Hf. destruct (decide (s' = idx)) as [->|Hne].
      -- rewrite decide_False by done. by rewrite list_lookup_insert_eq.
      -- rewrite list_lookup_insert_ne by done.
         by rewrite (decide_ext _ (s' ∈ idx :: rest)) by (rewrite elem_of_cons; naive_solver).
  + intros id [->|Hin]%elem_of_cons; simpl; [done|].
    apply (to_live _ _ _ Hok) in Hin as [Hin ?]. rewrite Hf in Hin. split; [set_solver|done].
  + constructor; [done|apply (to_live_nodup _ _ _ Hok)].
  + intros s Hs Hsf. rewrite length_insert in Hs.
    destruct (decide (s = idx)) as [->|]; [eexists; split; [by left|done]|].
    destruct (to_live_all _ _ _ Hok s) as (id & ? & ?); [done|rewrite Hf; set_solver|].
    exists id. split; [by right|done].
  + apply (to_dead _ _ _ Hok).
  + apply (to_gens_pos _ _ _ Hok).
Qed.

Lemma connect_ok t live dead conn t' id :
  table_ok t live dead → connect t conn = Some (t', id) →
  table_ok t' (id :: live) dead ∧ (id ∉ live) ∧ (id ∉ dead).
Proof.
  intros Hok Hc. destruct (free t) as [|idx rest] eqn:Hf.
  - by apply (connect_grow_ok t live dead conn).
  - by apply (connect_reuse_ok t live dead conn t' id idx rest).
Qed.

Lemma live_not_dead t live dead id : table_ok t live dead → id ∈ live → id ∉ dead.
Proof.
  intros Hok [_ Hl]%(to_live _ _ _ Hok) (g & Hd & Hlt)%(to_dead _ _ _ Hok). simplify_eq. lia.
Qed.

Lemma filter_ne_id (id : ConnId) (l : list ConnId) : id ∉ l → filter (λ i, i ≠ id) l = l.
Proof.
  intros Hn. induction l as [|x l IH]; [done|]. apply not_elem_of_cons in Hn as [? Hn].
  rewrite filter_cons_True by congruence. by rewrite IH.
Qed.

(** A second teardown, or one through a stale handle, does nothing. *)
Lemma destroy_dead t live dead id :
  table_ok t live dead → id ∈ dead → destroy t id = Some t.
Proof.
  intros Hok (g & Hg & Hlt)%(to_dead _ _ _ Hok). unfold destroy.
  rewrite decide_True; [done|]. rewrite Hg. intros [=]. lia.
Qed.

Lemma destroy_live t live dead id :
  table_ok t live dead → id ∈ live → (cid_gen id + 1 < 2 ^ 32)%Z →
  ∃ t' c ix', destroy t id = Some t' ∧ conns t !! cid_idx id = Some c ∧
    t' = MkTable (<[cid_idx id := with_output c None]> (conns t))
           (<[cid_idx id := (cid_gen id + 1)%Z]> (gens t)) (cid_idx id :: free t) ix' ∧
    ∃ regs', index_reach regs' ix' ∧ ∀ s, regs' !! s = reg_at t' s.
Proof.
  intros Hok Hin Hg32. destruct (to_live _ _ _ Hok id Hin) as [Hnf Hg].
  destruct (to_index _ _ _ Hok) as (regs & Hreach & Hregs).
  pose proof (to_gens _ _ _ Hok) as Hlen.
  destruct (lookup_lt_is_Some_2 (conns t) (cid_idx id)) as [c Hc].
  { rewrite <-Hlen. by eapply lookup_lt_Some. }
  assert (regs !! cid_idx id = Some (conn_reg c)) as Hreg.
  { rewrite Hregs. unfold reg_at. rewrite decide_False by done. by rewrite Hc. }
  destruct (remove_ok _ _ _ _ _ (index_reach_ok _ _ Hreach) Hreg) as (ix' & Hrem & _).
  unfold destroy. rewrite decide_False by (intros []; done). rewrite Hc.
  unfold conn_reg in Hrem. rewrite Hrem. cbn [mbind option_bind].
  rewrite Hg. cbn [mbind option_bind]. unfold u32_wrapping_add1.
  pose proof (to_gens_pos _ _ _ Hok _ _ Hg).
  rewrite Z.mod_small by lia.
  eexists _, c, ix'. split_and!; [done..|]. exists (delete (cid_idx id) regs).
  split; [by eapply reach_remove|]. intros s. unfold reg_at; simpl. rewrite lookup_delete, Hregs.
  destruct (decide (cid_idx id = s)) as [<-|Hne].
  - rewrite decide_True; [done|by left].
  - unfold reg_at. rewrite list_lookup_insert_ne by done.
    by rewrite (decide_ext (s ∈ free t) (s ∈ cid_idx id :: free t))
      by (rewrite elem_of_cons; naive_solver).
Qed.

Lemma live_same_idx t live dead id id' :
  table_ok t live dead → id ∈ live → id' ∈ live → cid_idx id = cid_idx id' → id = id'.
Proof.
  intros Hok [_ H1]%(to_live _ _ _ Hok) [_ H2]%(to_live _ _ _ Hok) He.
  destruct id, id'. simpl in *. subst. simplify_eq. done.
Qed.

Lemma destroy_ok t live dead id t' :
  table_ok t live dead → id ∈ live ∨ id ∈ dead →
  (∀ g, gens t !! cid_idx id = Some g → (g + 1 < 2 ^ 32)%Z) →
  destroy t id = Some t' →
  table_ok t' (filter (λ i, i ≠ id) live) (id :: dead).
Proof.
  intros Hok [Hin|Hin] Hg32 Hd.
  2: { rewrite (destroy_dead t live dead id) in Hd by done. simplify_eq.
       rewrite filter_ne_id by (intros ?; by eapply live_not_dead).
       split; try apply Hok. intros id' [->|?]%elem_of_cons; by apply (to_dead _ _ _ Hok). }
  destruct (to_live _ _ _ Hok id Hin) as [Hnf Hg].
  destruct (destroy_live t live dead id Hok Hin (Hg32 _ Hg)) as (t'' & c & ix' & Hd' & Hc & Ht & Hix).
  rewrite Hd in Hd'. simplify_eq. pose proof (lookup_lt_Some _ _ _ Hg) as Hlt. split; simpl.
  - rewrite !length_insert. apply Hok.
  - constructor; [done|apply Hok].
  - intros s [->|Hs]%elem_of_cons.
    + rewrite list_lookup_insert_eq by (by eapply lookup_lt_Some). by eexists.
    + rewrite list_lookup_insert_ne by (intros <-; done). by apply Hok.
  - done.
  - intros id' [Hne Hin']%list_elem_of_filter.
    assert (cid_idx id ≠ cid_idx id') by (intros ?; apply Hne; symmetry; by eapply live_same_idx).
    rewrite list_lookup_insert_ne by done. destruct (to_live _ _ _ Hok id' Hin') as [? ?].
    split; [rewrite not_elem_of_cons; naive_solver|done].
  - apply NoDup_filter, Hok.
  - intros s Hs [Hne Hsf]%not_elem_of_cons. rewrite length_insert in Hs.
    destruct (to_live_all _ _ _ Hok s Hs Hsf) as (id' & Hin' & <-).
    exists id'. split; [|done]. apply list_elem_of_filter. split; [congruence|done].
  - intros id' [->|Hin']%elem_of_cons.
    + rewrite list_lookup_insert_eq by done. eexists. split; [done|]. lia.
    + destruct (to_dead _ _ _ Hok id' Hin') as (g & Hg' & Hlt').
      destruct (decide (cid_idx id = cid_idx id')) as [He|Hne].
      * rewrite <-He in *. rewrite Hg in Hg'. simplify_eq.
        rewrite list_lookup_insert_eq by done. eexists. split; [done|]. lia.
      * rewrite list_lookup_insert_ne by done. by exists g.
  - intros s g Hs. apply list_lookup_insert_Some in Hs as [(<- & <- & _)|[_ Hs]].
    + pose proof (to_gens_pos _ _ _ Hok _ _ Hg). lia.
    + by apply (to_gens_pos _ _ _ Hok s).
Qed.

(** Changing the output or the epoch of a live connection. *)
Lemma update_conn_ok t live dead i c c' :
  table_ok t live dead → conns t !! i = Some c →
  conn_reg c' = conn_reg c → (i ∈ free t → output c' = None) →
  table_ok (MkTable (<[i := c']> (conns t)) (gens t) (free t) (index t)) live dead.
Proof.
  intros Hok Hc Hreg Hfree. pose proof (lookup_lt_Some _ _ _ Hc) as Hlt.
  split; simpl; try apply Hok.
  - rewrite length_insert. apply Hok.
  - intros s Hs. destruct (decide (i = s)) as [<-|Hne].
    + rewrite list_lookup_insert_eq by done. eauto.
    + rewrite list_lookup_insert_ne by done. by apply Hok.
  - destruct (to_index _ _ _ Hok) as (regs & Hreach & Hregs). exists regs. split; [done|].
    intros s. rewrite Hregs. unfold reg_at. simpl. destruct (decide (i = s)) as [<-|Hne].
    + rewrite list_lookup_insert_eq, Hc by done. simpl. by rewrite Hreg.
    + by rewrite list_lookup_insert_ne by done.
  - intros s Hs. rewrite length_insert in Hs. by apply Hok.
Qed.

Lemma live_ix_dead t live dead id : table_ok t live dead → id ∈ dead → live_ix t id = None.
Proof.
  intros Hok (g & Hg & Hlt)%(to_dead _ _ _ Hok). unfold live_ix.
  rewrite decide_False; [done|]. rewrite Hg. intros [=]. lia.
Qed.

Lemma live_ix_live t live dead id :
  table_ok t live dead → id ∈ live → live_ix t id = Some (cid_idx id).
Proof. intros Hok [_ Hg]%(to_live _ _ _ Hok). unfold live_ix. by rewrite decide_True. Qed.

Lemma conn_reach_ok t live dead : conn_reach t live dead → table_ok t live dead.
Proof.
  induction 1 as [|t live dead conn t' id _ IH Hc|t live dead id t' _ IH Hid Hg Hd
    |t live dead id edge t' _ IH Hid Hs|t live dead i e t' _ IH Hs].
  - apply table_new_ok.
  - by eapply connect_ok.
  - by eapply destroy_ok.
  - unfold set_output in Hs. destruct Hid as [Hid|Hid].
    2: { by rewrite (live_ix_dead t live dead) in Hs. }
    rewrite (live_ix_live t live dead) in Hs by done. cbn [mbind option_bind] in Hs.
    destruct (conns t !! cid_idx id) as [c|] eqn:Hc; [|done]. cbn in Hs. simplify_eq.
    apply (update_conn_ok t live dead _ c); [done..|].
    intros Hf. by apply (to_live _ _ _ IH) in Hid as [? _].
  - unfold set_epoch in Hs. destruct (conns t !! i) as [c|] eqn:Hc; [|done]. cbn in Hs. simplify_eq.
    apply (update_conn_ok t live dead _ c); [done..|].
    intros Hf. destruct (to_free _ _ _ IH i Hf) as (c' & ? & ?). by simplify_eq.
Qed.

Lemma live_lt t live dead id : table_ok t live dead → id ∈ live → cid_idx id < length (conns t).
Proof.
  intros Hok [_ Hg]%(to_live _ _ _ Hok). rewrite <-(to_gens _ _ _ Hok).
  by eapply lookup_lt_Some.
Qed.

Lemma connect_slot t live dead conn :
  table_ok t live dead →
  ∃ t' id, connect t conn = Some (t', id) ∧ conns t' !! cid_idx id = Some conn ∧
    ∀ s, s ≠ cid_idx id → s < length (conns t) → conns t' !! s = conns t !! s.
Proof.
  intros Hok. unfold connect. destruct (free t) as [|idx rest] eqn:Hf.
  - eexists _, _. split; [done|]. simpl. split; [by rewrite list_lookup_middle|].
    intros s _ Hs. by rewrite lookup_app_l.
  - destruct (to_free _ _ _ Hok idx) as (c & Hc & _); [rewrite Hf; by left|].
    apply lookup_lt_Some in Hc. rewrite decide_True by done.
    destruct (lookup_lt_is_Some_2 (gens t) idx) as [g Hg]; [by rewrite (to_gens _ _ _ Hok)|].
    rewrite Hg. cbn [mbind option_bind]. eexists _, _. split; [done|]. simpl.
    split; [by rewrite list_lookup_insert_eq|]. intros s Hs _. by rewrite list_lookup_insert_ne.
Qed.

(** Wired connections sit in distinct slots outside the free list. *)
Definition wired_at (cs : list Connection) (i : nat) : Prop :=
  match cs !! i with Some c => is_Some (output c) | None => False end.

#[export] Instance wired_at_dec cs i : Decision (wired_at cs i).
Proof. unfold wired_at. destruct (cs !! i); apply _. Defined.

Lemma wired_slots cs k :
  length (filter (λ c, is_Some (output c)) cs) =
  length (filter (λ i, wired_at cs (i - k)) (seq k (length cs))).
Proof.
  revert k. induction cs as [|c cs IH]; intros k; [done|]. simpl.
  assert (filter (λ i, wired_at (c :: cs) (i - k)) (seq (S k) (length cs)) =
          filter (λ i, wired_at cs (i - S k)) (seq (S k) (length cs))) as Hf.
  { apply filter_ext_elem. intros i Hi%elem_of_seq. unfold wired_at.
    by replace (i - k) with (S (i - S k)) by lia. }
  assert (wired_at (c :: cs) (k - k) ↔ is_Some (output c)) as Hw.
  { unfold wired_at. by rewrite Nat.sub_diag. }
  rewrite !filter_cons, Hf. repeat case_decide; try tauto; simpl; by rewrite <-(IH (S k)).
Qed.

Lemma wired_count cs fr :
  NoDup fr → (∀ s, s ∈ fr → ∃ c, cs !! s = Some c ∧ output c = None) →
  length (filter (λ c, is_Some (output c)) cs) + length fr ≤ length cs.
Proof.
  intros Hnd Hf. rewrite (wired_slots cs 0), <-length_app.
  rewrite <-(length_seq (length cs) 0) at 2. apply submseteq_length, NoDup_submseteq.
  - apply NoDup_app. split_and!; [apply NoDup_filter, NoDup_seq| |done].
    intros s [Hw _]%list_elem_of_filter Hin. rewrite Nat.sub_0_r in Hw.
    destruct (Hf s Hin) as (c & Hc & Ho). unfold wired_at in Hw. rewrite Hc, Ho in Hw.
    by destruct Hw.
  - intros s [[_ Hs]%list_elem_of_filter|Hin]%elem_of_app; [done|].
    destruct (Hf s Hin) as (c & Hc & _). apply elem_of_seq. apply lookup_lt_Some in Hc. lia.
Qed.

(** Handles are sound through any history of connects and teardowns: a
    connect always succeeds with a handle never issued before; a live handle
    finds its own slot; a destroyed one is refused, also after its slot was
    recycled, and destroying it again changes nothing. *)
Theorem conn_handles_sound (t : ConnTable) (live dead : list ConnId) (conn : Connection) :
  conn_reach t live dead →
  (∃ t' id, connect t conn = Some (t', id) ∧ (id ∉ live) ∧ (id ∉ dead) ∧
     conns t' !! cid_idx id = Some conn ∧
     ∀ id', id' ∈ live → conns t' !! cid_idx id' = conns t !! cid_idx id') ∧
  (∀ id, id ∈ live → live_ix t id = Some (cid_idx id) ∧ cid_idx id < length (conns t)) ∧
  (∀ id, id ∈ dead → live_ix t id = None ∧ destroy t id = Some t).
Proof.
  intros Hok%conn_reach_ok. split_and!.
  - assert (∃ t' id, connect t conn = Some (t', id) ∧ conns t' !! cid_idx id = Some conn ∧
      ∀ s, s ≠ cid_idx id → s < length (conns t) → conns t' !! s = conns t !! s)
      as (t' & id & Hc & Hnew & Hold) by (by eapply connect_slot).
    destruct (connect_ok t live dead conn t' id Hok Hc) as (Hok' & Hnl & Hnd).
    exists t', id. split_and!; [done..|]. intros id' Hin.
    apply Hold; [|by eapply live_lt]. intros He. apply Hnl.
    assert (id' = id) as <-; [|done].
    apply (live_same_idx t' (id :: live) dead); [done|by right|by left|done].
  - intros id Hin. split; [by eapply live_ix_live|by eapply live_lt].
  - intros id Hin. split; [by eapply live_ix_dead|by eapply destroy_dead].
Qed.

Definition example_conn : Connection := MkConn [(0, true)] false [1] None 0 None.

Lemma conn_handles_sound_witness :
  let t := MkTable [example_conn] [1%Z] [0] (MkIndex ∅ ∅ ∅) in
  conn_reach t [] [MkConnId 0 0] ∧
  live_ix t (MkConnId 0 0) = None.
Proof.
  intros t. assert (conn_reach t [] [MkConnId 0 0]) as Hr.
  { apply (cr_destroy (MkTable [example_conn] [0%Z] [] (MkIndex ∅ {[0]} {[1 := 1]}))
      [MkConnId 0 0] [] (MkConnId 0 0)).
    - apply (cr_connect conn_table_new [] [] example_conn); [apply cr_new|reflexivity].
    - left. by left.
    - intros g [= <-]. lia.
    - vm_compute. reflexivity. }
  split; [done|].
  destruct (conn_handles_sound t [] [MkConnId 0 0] example_conn Hr) as (_ & _ & H).
  apply H. by left.
Defined.

(** Slots are recycled, not leaked: the table has exactly one slot per live
    connection and one per free-list entry, and freed slots have no output, so
    the number of wired connections never exceeds the live handles. *)
Theorem conn_slots_bounded (t : ConnTable) (live dead : list ConnId) :
  conn_reach t live dead →
  table_len t = length live + length (free t) ∧ live_conn_count t ≤ length live.
Proof.
  intros Hok%conn_reach_ok. assert (seq 0 (length (conns t)) ≡ₚ (cid_idx <$> live) ++ free t) as Hp.
  { apply NoDup_Permutation; [apply NoDup_seq|..].
    - apply NoDup_app. split_and!; [|intros s (id & -> & Hin)%list_elem_of_fmap; by apply Hok|apply Hok].
      apply NoDup_fmap_2_strong; [|apply Hok]. intros x y ? ? ?. by eapply live_same_idx.
    - intros s. rewrite elem_of_seq, elem_of_app, list_elem_of_fmap. split.
      + intros [_ Hs]. destruct (decide (s ∈ free t)); [by right|left].
        destruct (to_live_all _ _ _ Hok s) as (id & ? & ?); [lia|done|]. by exists id.
      + intros [(id & -> & Hin)|Hin]; [split; [lia|]; by eapply live_lt|].
        destruct (to_free _ _ _ Hok s Hin) as (c & Hc & _). apply lookup_lt_Some in Hc. lia. }
  pose proof (Permutation_length Hp) as Hl. rewrite length_seq, length_app, length_fmap in Hl.
  split; [done|]. unfold live_conn_count.
  pose proof (wired_count (conns t) (free t) (to_free_nodup _ _ _ Hok) (to_free _ _ _ Hok)). lia.
Qed.

Lemma conn_slots_bounded_witness :
  let t := MkTable [example_conn] [0%Z] [] (MkIndex ∅ {[0]} {[1 := 1]}) in
  table_len t = 1 ∧ live_conn_count t ≤ 1.
Proof.
  intros t. apply (conn_slots_bounded t [MkConnId 0 0] []).
  apply (cr_connect conn_table_new [] [] example_conn); [apply cr_new|reflexivity].
Defined.
