(* ===== verification/Overlay.v ===== *)
(** * Overlays and the row chain of a fetch ([rust/src/source_common.rs])

    While a change is pushed it is not yet stored: fetches made during the push
    see it through an overlay spliced into the scan.  Row streams are the lists
    of rows they yield; the splices are the iterators of the source, drained.

    The comparators and the constraint test panic on rows of different types;
    their total readings ([compare_rows_rev], [cmatch]) are used here, and
    [row_typed_compare] and [cmatch_typed] say when the source agrees. *)

From stdpp Require Import base list numbers option sorting sets.
From Stdlib Require Import ZArith Lia.
From S2P Require Import Prelude Values Rows BTree BTreeFacts BTreeCursor Change Connections.

(** ** The reverse-aware comparator *)

Definition compare_rows_rev (sort : Sort) (reverse : bool) (a b : row) : comparison :=
  let c := row_cmp sort a b in
  if reverse then CompOpp c else c.

#[export] Instance compare_rows_rev_total sort reverse : TotalCmp (compare_rows_rev sort reverse).
Proof. destruct reverse; [apply (flip_total (row_cmp sort))|apply row_cmp_total]. Qed.

Definition cmatch (r : row) (c : Constraint) : bool :=
  bool_decide (constraint_matches r c = Some true).

Definition same_pk (a b : row) (pk : list nat) : option bool :=
  try_all (λ c, x ← a !! c; y ← b !! c; values_equal x y) pk.

Definition pk_match (a b : row) (pk : list nat) : bool :=
  bool_decide (same_pk a b pk = Some true).

(** ** Overlays and their narrowing *)

Record Overlay := MkOverlay { epoch : Z; overlay_change : source_change }.

Record Overlays := MkOverlays { ov_add : option row; ov_remove : option row }.

Definition overlays_is_empty (o : Overlays) : bool :=
  match ov_add o, ov_remove o with None, None => true | _, _ => false end.

(** [Option::filter]. *)
Definition ofilter {A} (p : A → bool) (o : option A) : option A :=
  match o with Some x => if p x then Some x else None | None => None end.

Definition overlays_from_change (o : option Overlay) : Overlays :=
  match overlay_change <$> o with
  | Some (SAdd r) => MkOverlays (Some r) None
  | Some (SRemove r) => MkOverlays None (Some r)
  | Some (SEdit r old) => MkOverlays (Some r) (Some old)
  | None => MkOverlays None None
  end.

Definition overlays_for_start_at (o : Overlays) (start_at : row) (sort : Sort) (reverse : bool) : Overlays :=
  let before r := is_lt (compare_rows_rev sort reverse r start_at) in
  MkOverlays (ofilter (λ r, negb (before r)) (ov_add o)) (ofilter (λ r, negb (before r)) (ov_remove o)).

Definition overlays_for_constraint (o : Overlays) (c : Constraint) : Overlays :=
  MkOverlays (ofilter (λ r, cmatch r c) (ov_add o)) (ofilter (λ r, cmatch r c) (ov_remove o)).

Definition overlays_for_multi_constraint (o : Overlays) (mc : MultiConstraint) : Overlays :=
  MkOverlays (ofilter (λ r, existsb (cmatch r) mc) (ov_add o))
    (ofilter (λ r, existsb (cmatch r) mc) (ov_remove o)).

Definition overlays_for_filter_predicate (o : Overlays) (p : RowPredicate) : Overlays :=
  MkOverlays (ofilter p (ov_add o)) (ofilter p (ov_remove o)).

(** [for mc in multi_constraints { if !mc.is_empty() { .. } }]. *)
Definition narrow_multi (o : Overlays) (mcs : list MultiConstraint) : Overlays :=
  foldl (λ o mc, if decide (mc = []) then o else overlays_for_multi_constraint o mc) o mcs.

Definition compute_overlays (start_at : option row) (constraint : option Constraint)
    (overlay : option Overlay) (sort : Sort) (reverse : bool)
    (pred : option RowPredicate) (mcs : list MultiConstraint) : Overlays :=
  let o := overlays_from_change overlay in
  let o := match start_at with Some s => overlays_for_start_at o s sort reverse | None => o end in
  let o := match constraint with Some c => overlays_for_constraint o c | None => o end in
  let o := narrow_multi o mcs in
  match pred with Some p => overlays_for_filter_predicate o p | None => o end.

(** ** The ordered splice *)

Record OverlaySplice := MkSplice {
  sp_inner : list row;
  sp_add : option row;
  sp_remove : option row;
  sp_sort : Sort;
  sp_reverse : bool;
  add_yielded : bool;
  remove_skipped : bool;
  buffered : option row
}.

(** The [loop] of [next]: a round consumes a row, or returns.  [None] is out
    of fuel. *)
Fixpoint splice_next_fuel (fuel : nat) (s : OverlaySplice) : option (option row * OverlaySplice) :=
  match fuel with
  | O => None
  | S fuel =>
      let '(pulled, inner) :=
        match buffered s with
        | Some r => (Some r, sp_inner s)
        | None => match sp_inner s with r :: l => (Some r, l) | [] => (None, []) end
        end in
      match pulled with
      | None =>
          match add_yielded s, sp_add s with
          | false, Some a =>
              Some (Some a, MkSplice inner None (sp_remove s) (sp_sort s) (sp_reverse s) true (remove_skipped s) None)
          | _, _ =>
              Some (None, MkSplice inner (sp_add s) (sp_remove s) (sp_sort s) (sp_reverse s)
                            (add_yielded s) (remove_skipped s) None)
          end
      | Some r =>
          let add_first :=
            match add_yielded s, sp_add s with
            | false, Some a => is_lt (compare_rows_rev (sp_sort s) (sp_reverse s) a r)
            | _, _ => false
            end in
          let remove_hit :=
            match remove_skipped s, sp_remove s with
            | false, Some rem => is_eq (compare_rows_rev (sp_sort s) (sp_reverse s) rem r)
            | _, _ => false
            end in
          if add_first then
            Some (sp_add s, MkSplice inner (sp_add s) (sp_remove s) (sp_sort s) (sp_reverse s)
                              true (remove_skipped s) (Some r))
          else if remove_hit then
            splice_next_fuel fuel
              (MkSplice inner (sp_add s) (sp_remove s) (sp_sort s) (sp_reverse s) (add_yielded s) true None)
          else
            Some (Some r, MkSplice inner (sp_add s) (sp_remove s) (sp_sort s) (sp_reverse s)
                            (add_yielded s) (remove_skipped s) None)
      end
  end.

(** At most one row is suppressed, so a pull takes at most two rounds. *)
Definition splice_next (s : OverlaySplice) : option (option row * OverlaySplice) :=
  splice_next_fuel 2 s.

(** Draining an iterator; [None] is out of fuel. *)
Fixpoint drain {S} (next : S → option (option row * S)) (fuel : nat) (s : S) : option (list row) :=
  match fuel with
  | O => None
  | S fuel =>
      '(r, s) ← next s;
      match r with
      | None => Some []
      | Some x => l ← drain next fuel s; Some (x :: l)
      end
  end.

(** Every row of the scan is yielded at most once, then the add: two more
    pulls than rows reach the end. *)
Definition generate_with_overlay_inner (inner : list row) (o : Overlays) (sort : Sort)
    (reverse : bool) : option (list row) :=
  if overlays_is_empty o then Some inner
  else drain splice_next (length inner + 2)
         (MkSplice inner (ov_add o) (ov_remove o) sort reverse false false None).

(** The epoch gate: a connection sees the overlay once it was pushed to. *)
Definition gate (overlay : option Overlay) (last_epoch : Z) : option Overlay :=
  ofilter (λ o, bool_decide (epoch o ≤ last_epoch)%Z) overlay.

Definition generate_with_overlay (start_at : option row) (rows : list row)
    (constraint : option Constraint) (overlay : option Overlay) (last_epoch : Z)
    (sort : Sort) (reverse : bool) (pred : option RowPredicate)
    (mcs : list MultiConstraint) : option (list row) :=
  let o := compute_overlays start_at constraint (gate overlay last_epoch) sort reverse pred mcs in
  generate_with_overlay_inner rows o sort reverse.

(** ** The unordered splice *)

Record OverlayUnordered := MkUnordered {
  un_inner : list row;
  un_add : option row;
  un_remove : option row;
  un_pk : list nat;
  add_emitted : bool;
  un_remove_skipped : bool
}.

Fixpoint unordered_loop (inner : list row) (s : OverlayUnordered) : option row * OverlayUnordered :=
  match inner with
  | [] => (None, MkUnordered [] (un_add s) (un_remove s) (un_pk s) (add_emitted s) (un_remove_skipped s))
  | r :: inner' =>
      let hit :=
        match un_remove_skipped s, un_remove s with
        | false, Some rem => pk_match r rem (un_pk s)
        | _, _ => false
        end in
      if hit then
        unordered_loop inner' (MkUnordered inner' (un_add s) (un_remove s) (un_pk s) (add_emitted s) true)
      else (Some r, MkUnordered inner' (un_add s) (un_remove s) (un_pk s) (add_emitted s) (un_remove_skipped s))
  end.

Definition unordered_next (s : OverlayUnordered) : option (option row * OverlayUnordered) :=
  if negb (add_emitted s) then
    match un_add s with
    | Some a => Some (Some a, MkUnordered (un_inner s) None (un_remove s) (un_pk s) true (un_remove_skipped s))
    | None =>
        Some (unordered_loop (un_inner s)
          (MkUnordered (un_inner s) None (un_remove s) (un_pk s) true (un_remove_skipped s)))
    end
  else Some (unordered_loop (un_inner s) s).

Definition generate_with_overlay_inner_unordered (inner : list row) (o : Overlays)
    (pk : list nat) : option (list row) :=
  if overlays_is_empty o then Some inner
  else drain unordered_next (length inner + 2) (MkUnordered inner (ov_add o) (ov_remove o) pk false false).

Definition generate_with_overlay_unordered (rows : list row) (constraint : option Constraint)
    (overlay : option Overlay) (last_epoch : Z) (pk : list nat) (pred : option RowPredicate)
    (mcs : list MultiConstraint) : option (list row) :=
  let o := overlays_from_change (gate overlay last_epoch) in
  let o := match constraint with Some c => overlays_for_constraint o c | None => o end in
  let o := narrow_multi o mcs in
  let o := match pred with Some p => overlays_for_filter_predicate o p | None => o end in
  generate_with_overlay_inner_unordered rows o pk.

(** ** The post-scan chain *)

(** The closure of [generate_with_start], with its captured [started]. *)
Fixpoint start_filter (start : Start) (sort : Sort) (reverse started : bool) (rows : list row) : list row :=
  match rows with
  | [] => []
  | r :: rows' =>
      let started :=
        if started then true
        else
          let c := compare_rows_rev sort reverse r (start_row start) in
          match basis start with
          | At => negb (is_lt c)
          | After => is_gt c
          end in
      if started then r :: start_filter start sort reverse started rows'
      else start_filter start sort reverse started rows'
  end.

Definition generate_with_start (rows : list row) (start : option Start) (sort : Sort)
    (reverse : bool) : list row :=
  match start with
  | None => rows
  | Some s => start_filter s sort reverse false rows
  end.

Fixpoint take_while (p : row → bool) (rows : list row) : list row :=
  match rows with
  | [] => []
  | r :: rows' => if p r then r :: take_while p rows' else []
  end.

Definition generate_with_constraint (rows : list row) (constraint : option Constraint) : list row :=
  match constraint with
  | None => rows
  | Some c => take_while (λ r, cmatch r c) rows
  end.

Definition generate_with_filter (rows : list row) (p : RowPredicate) : list row := keep p rows.

(** ** The splice, as a list function *)

Section splice_list.
Context (cmp : row → row → comparison).

(** Drop the first row that ties with the removed one. *)
Fixpoint splice_remove (rem : row) (l : list row) : list row :=
  match l with
  | [] => []
  | r :: l' => if is_eq (cmp rem r) then l' else r :: splice_remove rem l'
  end.

Definition opt_remove (rem : option row) (l : list row) : list row :=
  match rem with Some x => splice_remove x l | None => l end.

Fixpoint splice_list (a rem : option row) (l : list row) : list row :=
  match l with
  | [] => match a with Some x => [x] | None => [] end
  | r :: l' =>
      if match a with Some x => is_lt (cmp x r) | None => false end
      then match a with Some x => x :: opt_remove rem l | None => [] end
      else if match rem with Some y => is_eq (cmp y r) | None => false end
      then splice_list a None l'
      else r :: splice_list a rem l'
  end.

Lemma splice_list_no_add rem l : splice_list None rem l = opt_remove rem l.
Proof.
  induction l as [|r l IH] in rem |- *; [by destruct rem|]. cbn [splice_list].
  destruct rem as [y|]; cbn [opt_remove splice_remove].
  - destruct (is_eq (cmp y r)); [by rewrite IH|]. by rewrite IH.
  - by rewrite IH.
Qed.

Context `{!TotalCmp cmp}.

Lemma splice_remove_delete rem l : splice_remove rem l = sl_delete cmp rem l.
Proof.
  induction l as [|r l IH]; simpl; [done|]. rewrite IH, (cmp_opp r rem).
  by destruct (cmp r rem).
Qed.

(** What an overlay means: the removed row is gone, the added row is in its
    place. *)
Definition apply_overlays (a rem : option row) (l : list row) : list row :=
  let l := match rem with Some y => sl_delete cmp y l | None => l end in
  match a with Some x => sl_insert cmp x l | None => l end.

Lemma opt_remove_delete rem l :
  opt_remove rem l = match rem with Some y => sl_delete cmp y l | None => l end.
Proof. destruct rem; [apply splice_remove_delete|done]. Qed.

Lemma sl_insert_below x l : Forall (λ y, cmp x y = Lt) l → sl_insert cmp x l = x :: l.
Proof.
  intros H. destruct l as [|y l]; [done|]. apply Forall_cons in H as [H _]. simpl.
  by rewrite (cmp_lt_gt cmp x y).
Qed.

Lemma opt_remove_elem rem l x : x ∈ opt_remove rem l → x ∈ l.
Proof. rewrite opt_remove_delete. destruct rem as [y|]; [apply (sl_delete_elem cmp y l x)|done]. Qed.

(** On a sorted scan the splice applies the overlay, provided the added row
    ties with no row that stays. *)
Lemma splice_list_spec a rem l :
  ssorted cmp l →
  (∀ x, a = Some x → sl_find cmp x (opt_remove rem l) = None) →
  splice_list a rem l = apply_overlays a rem l.
Proof.
  unfold apply_overlays. rewrite <-opt_remove_delete. intros Hs Ha.
  destruct a as [x|]; [|by rewrite splice_list_no_add]. specialize (Ha x eq_refl).
  revert rem Ha. induction Hs as [|r l Hs IH Hr]; intros rem Ha; [by destruct rem|].
  cbn [splice_list]. destruct (cmp x r) eqn:E; simpl.
  - destruct rem as [y|]; simpl in *.
    + destruct (is_eq (cmp y r)); [by apply (IH None)|].
      simpl in Ha. by rewrite (cmp_eq_sym cmp x r) in Ha.
    + by rewrite (cmp_eq_sym cmp x r) in Ha.
  - symmetry. apply sl_insert_below. apply Forall_forall. intros y [->|Hy]%opt_remove_elem%elem_of_cons;
      [done|]. rewrite Forall_forall in Hr. by apply (cmp_lt_trans x r y); [|apply Hr].
  - apply (cmp_gt_lt cmp) in E. destruct rem as [y|]; simpl in *.
    + destruct (is_eq (cmp y r)); [by apply (IH None)|]. simpl in *. rewrite E in *.
      f_equal. by apply (IH (Some y)).
    + rewrite E in *. f_equal. by apply (IH None).
Qed.
End splice_list.

(** ** The iterator refines the list function *)

Definition eff_add (s : OverlaySplice) : option row := if add_yielded s then None else sp_add s.
Definition eff_remove (s : OverlaySplice) : option row :=
  if remove_skipped s then None else sp_remove s.
Definition ahead (s : OverlaySplice) : list row :=
  match buffered s with Some r => r :: sp_inner s | None => sp_inner s end.
Definition splice_spec (s : OverlaySplice) : list row :=
  splice_list (compare_rows_rev (sp_sort s) (sp_reverse s)) (eff_add s) (eff_remove s) (ahead s).
Definition splice_measure (s : OverlaySplice) : nat :=
  length (ahead s) + match eff_add s with Some _ => 1 | None => 0 end.

(** One pull yields the head of the specification and leaves its tail. *)
Definition pull_post (s : OverlaySplice) (o : option (option row * OverlaySplice)) : Prop :=
  ∃ r s', o = Some (r, s') ∧ r = head (splice_spec s) ∧
    (is_Some r → splice_spec s' = tail (splice_spec s) ∧ splice_measure s' < splice_measure s).

#[local] Ltac splice_cbn :=
  cbn [sp_inner sp_add sp_remove sp_sort sp_reverse add_yielded remove_skipped buffered
       head tail length].

(** A round that does not suppress a row. *)
Lemma splice_round fuel s :
  (∀ r l, ahead s = r :: l →
     match eff_add s with Some a => is_lt (compare_rows_rev (sp_sort s) (sp_reverse s) a r) | None => false end = true ∨
     match eff_remove s with Some y => is_eq (compare_rows_rev (sp_sort s) (sp_reverse s) y r) | None => false end = false) →
  pull_post s (splice_next_fuel (S fuel) s).
Proof.
  destruct s as [inner a rem sort rev ay rs buf].
  unfold pull_post, splice_spec, splice_measure, ahead, eff_add, eff_remove.
  cbn [splice_next_fuel sp_inner sp_add sp_remove sp_sort sp_reverse add_yielded remove_skipped buffered].
  intros Hround.
  assert (match buf with Some r => (Some r, inner) | None =>
      match inner with r :: l => (Some r, l) | [] => (None, []) end end =
    match (match buf with Some r => r :: inner | None => inner end) with
    | r :: l => (Some r, l) | [] => (None, []) end) as -> by (by destruct buf).
  set (rows := match buf with Some r => r :: inner | None => inner end) in *.
  destruct rows as [|r l].
  - destruct ay; [|destruct a as [x|]]; simpl; eexists _, _; (split; [done|]);
      (split; [done|]); try (by intros []).
    intros _. splice_cbn. split; [done|lia].
  - cbn [splice_list]. destruct (if ay then None else a) as [x|] eqn:Ea;
      [assert (ay = false ∧ a = Some x) as [-> ->] by (by destruct ay)|].
    + destruct (is_lt (compare_rows_rev sort rev x r)) eqn:El.
      * eexists _, _. split; [done|]. split; [done|]. intros _. splice_cbn.
        rewrite splice_list_no_add. split; [done|lia].
      * destruct (Hround r l eq_refl) as [Hr|Hr]; simpl in Hr; [congruence|].
        assert (match rs, rem with
          | false, Some rem => is_eq (compare_rows_rev sort rev rem r) | _, _ => false end = false) as ->.
        { by destruct rs, rem. }
        rewrite Hr. eexists _, _. split; [done|]. split; [done|]. intros _. splice_cbn. split; [done|lia].
    + assert (match ay, a with
        | false, Some a => is_lt (compare_rows_rev sort rev a r) | _, _ => false end = false) as ->.
      { by destruct ay, a. }
      destruct (Hround r l eq_refl) as [Hr|Hr]; [by rewrite ?Ea in Hr|].
      assert (match rs, rem with
        | false, Some rem => is_eq (compare_rows_rev sort rev rem r) | _, _ => false end = false) as ->.
      { by destruct rs, rem. }
      rewrite Hr. eexists _, _. split; [done|]. split; [done|]. intros _. splice_cbn. rewrite Ea.
      split; [done|lia].
Qed.

(** A round that suppresses the removed row. *)
Lemma splice_suppress fuel s r l :
  ahead s = r :: l →
  match eff_add s with Some a => is_lt (compare_rows_rev (sp_sort s) (sp_reverse s) a r) | None => false end = false →
  match eff_remove s with Some y => is_eq (compare_rows_rev (sp_sort s) (sp_reverse s) y r) | None => false end = true →
  ∃ s1, splice_next_fuel (S fuel) s = splice_next_fuel fuel s1 ∧ eff_remove s1 = None ∧
    splice_spec s1 = splice_spec s ∧ splice_measure s1 < splice_measure s.
Proof.
  destruct s as [inner a rem sort rev ay rs buf].
  unfold splice_spec, splice_measure. intros Hahead Ha Hr.
  unfold ahead, eff_add, eff_remove in Hahead, Ha, Hr.
  cbn [sp_inner sp_add sp_remove sp_sort sp_reverse add_yielded remove_skipped buffered] in *.
  exists (MkSplice l a rem sort rev ay true None).
  assert (∃ y, rs = false ∧ rem = Some y) as (y & -> & ->).
  { destruct rs, rem; try done. by eexists. }
  split_and!.
  - cbn [splice_next_fuel sp_inner sp_add sp_remove sp_sort sp_reverse add_yielded remove_skipped buffered].
    assert (match ay, a with
      | false, Some a => is_lt (compare_rows_rev sort rev a r) | _, _ => false end = false) as Hadd.
    { by destruct ay, a. }
    destruct buf; simplify_eq; by rewrite Hadd, Hr.
  - done.
  - unfold eff_add, eff_remove, ahead. splice_cbn. rewrite Hahead. cbn [splice_list].
    rewrite Hr, Ha. done.
  - unfold eff_add, ahead. splice_cbn. rewrite Hahead. simpl. lia.
Qed.

Lemma splice_next_spec s : pull_post s (splice_next s).
Proof.
  unfold splice_next. destruct (ahead s) as [|r l] eqn:Hahead.
  { apply splice_round. intros r l. by rewrite Hahead. }
  destruct (match eff_add s with
    | Some a => is_lt (compare_rows_rev (sp_sort s) (sp_reverse s) a r) | None => false end) eqn:Ha.
  { apply splice_round. intros r' l'. rewrite Hahead. intros [= <- <-]. by left. }
  destruct (match eff_remove s with
    | Some y => is_eq (compare_rows_rev (sp_sort s) (sp_reverse s) y r) | None => false end) eqn:Hr.
  2: { apply splice_round. intros r' l'. rewrite Hahead. intros [= <- <-]. by right. }
  destruct (splice_suppress 1 s r l Hahead Ha Hr) as (s1 & -> & Hn & Hspec & Hm).
  destruct (splice_round 0 s1) as (o & s' & Ho & Hhd & Htl).
  { intros. right. by rewrite Hn. }
  exists o, s'. rewrite <-Hspec. split_and!; [done..|]. intros Hs. destruct (Htl Hs). split; [done|lia].
Qed.

Lemma drain_splice fuel s :
  splice_measure s < fuel → drain splice_next fuel s = Some (splice_spec s).
Proof.
  revert s. induction fuel as [|fuel IH]; intros s Hf; [lia|]. cbn [drain].
  destruct (splice_next_spec s) as (o & s' & -> & Ho & Htl). cbn [mbind option_bind].
  destruct (splice_spec s) as [|x l]; subst o; [done|]. cbn [head] in *.
  destruct Htl as [He Hm]; [by eexists|]. rewrite IH by lia. cbn [mbind option_bind].
  by rewrite He.
Qed.

Lemma generate_with_overlay_inner_list inner o sort reverse :
  generate_with_overlay_inner inner o sort reverse =
    Some (splice_list (compare_rows_rev sort reverse) (ov_add o) (ov_remove o) inner).
Proof.
  unfold generate_with_overlay_inner, overlays_is_empty. destruct o as [[a|] [r|]]; simpl.
  4: { by rewrite splice_list_no_add. }
  all: rewrite drain_splice; [done|]; unfold splice_measure, ahead, eff_add; simpl; lia.
Qed.

(** ** Narrowing *)

Definition narrow (q : row → bool) (o : Overlays) : Overlays :=
  MkOverlays (ofilter q (ov_add o)) (ofilter q (ov_remove o)).

Lemma ofilter_ofilter {A} (p q : A → bool) o : ofilter p (ofilter q o) = ofilter (λ x, q x && p x) o.
Proof. destruct o as [x|]; simpl; [|done]. by destruct (q x). Qed.

Lemma narrow_narrow p q o : narrow p (narrow q o) = narrow (λ x, q x && p x) o.
Proof. unfold narrow. simpl. by rewrite !ofilter_ofilter. Qed.

Lemma narrow_ext p q o : (∀ x, p x = q x) → narrow p o = narrow q o.
Proof. intros H. unfold narrow. destruct o as [[a|] [r|]]; simpl; rewrite ?H; done. Qed.

Lemma narrow_true o : narrow (λ _, true) o = o.
Proof. by destruct o as [[a|] [r|]]. Qed.

(** The rows a fetch asks for, apart from its order. *)
Definition multi_match (mcs : list MultiConstraint) (r : row) : bool :=
  forallb (λ mc, if decide (mc = []) then true else existsb (cmatch r) mc) mcs.

Definition req_match (constraint : option Constraint) (pred : option RowPredicate)
    (mcs : list MultiConstraint) (r : row) : bool :=
  match constraint with Some c => cmatch r c | None => true end &&
  (multi_match mcs r && match pred with Some p => p r | None => true end).

Definition start_match (start_at : option row) (sort : Sort) (reverse : bool) (r : row) : bool :=
  match start_at with Some s => negb (is_lt (compare_rows_rev sort reverse r s)) | None => true end.

Lemma narrow_multi_spec o mcs : narrow_multi o mcs = narrow (multi_match mcs) o.
Proof.
  revert o. induction mcs as [|mc mcs IH]; intros o; [symmetry; apply narrow_true|].
  unfold narrow_multi in *. simpl. rewrite IH. case_decide as Hd.
  - apply narrow_ext. intros x. unfold multi_match. simpl. by rewrite decide_True.
  - change (overlays_for_multi_constraint o mc) with (narrow (λ r, existsb (cmatch r) mc) o).
    rewrite narrow_narrow. apply narrow_ext. intros x. unfold multi_match. simpl.
    by rewrite decide_False.
Qed.

(** Narrowing an overlay keeps the rows the request asks for. *)
Lemma compute_overlays_narrow start_at constraint overlay sort reverse pred mcs :
  compute_overlays start_at constraint overlay sort reverse pred mcs =
    narrow (λ r, start_match start_at sort reverse r && req_match constraint pred mcs r)
      (overlays_from_change overlay).
Proof.
  unfold compute_overlays, start_match, req_match.
  set (o := overlays_from_change overlay).
  assert (match start_at with Some s => overlays_for_start_at o s sort reverse | None => o end =
    narrow (start_match start_at sort reverse) o) as ->.
  { destruct start_at; [done|]. symmetry. apply narrow_true. }
  assert (∀ o, match constraint with Some c => overlays_for_constraint o c | None => o end =
    narrow (λ r, match constraint with Some c => cmatch r c | None => true end) o) as ->.
  { intros o'. destruct constraint; [done|]. symmetry. apply narrow_true. }
  rewrite narrow_multi_spec.
  assert (∀ o, match pred with Some p => overlays_for_filter_predicate o p | None => o end =
    narrow (λ r, match pred with Some p => p r | None => true end) o) as ->.
  { intros o'. destruct pred; [done|]. symmetry. apply narrow_true. }
  rewrite !narrow_narrow. apply narrow_ext. intros x. unfold start_match. by rewrite !andb_assoc.
Qed.

(** ** Narrowing commutes with the splice

    A row the request does not ask for may stay in the spliced scan (a removed
    row the request would not return, a dropped add): filtering the result
    gives what filtering the exact splice gives. *)

Section narrow_splice.
Context (cmp : row → row → comparison) (q : row → bool).

Lemma keep_cons (x : row) l : keep q (x :: l) = if q x then x :: keep q l else keep q l.
Proof.
  unfold keep. rewrite filter_cons. by destruct (q x).
Qed.

Lemma keep_splice_remove y l :
  q y = false → (∀ z, z ∈ l → cmp y z = Eq → q z = q y) → keep q (splice_remove cmp y l) = keep q l.
Proof.
  intros Hy. induction l as [|r l IH]; intros Hq; simpl; [done|].
  destruct (cmp y r) eqn:E; simpl.
  - rewrite keep_cons, (Hq r), Hy; [done|by left|done].
  - rewrite !keep_cons, IH; [done|]. intros z Hz. apply Hq. by right.
  - rewrite !keep_cons, IH; [done|]. intros z Hz. apply Hq. by right.
Qed.

Lemma keep_splice_drop_add x rem l :
  q x = false → keep q (splice_list cmp (Some x) rem l) = keep q (opt_remove cmp rem l).
Proof.
  intros Hx. induction l as [|r l IH] in rem |- *.
  { cbn [splice_list]. rewrite keep_cons, Hx. by destruct rem. }
  cbn [splice_list]. destruct (is_lt (cmp x r)); [by rewrite keep_cons, Hx|].
  destruct rem as [y|]; cbn [opt_remove splice_remove].
  - destruct (is_eq (cmp y r)); [apply (IH None)|]. by rewrite !keep_cons, (IH (Some y)).
  - by rewrite !keep_cons, (IH None).
Qed.

Lemma keep_splice_drop_remove a y l :
  q y = false → (∀ z, z ∈ l → cmp y z = Eq → q z = q y) →
  keep q (splice_list cmp a None l) = keep q (splice_list cmp a (Some y) l).
Proof.
  intros Hy. induction l as [|r l IH]; intros Hq; [done|]. cbn [splice_list].
  destruct (match a with Some x => is_lt (cmp x r) | None => false end) eqn:Ea.
  - destruct a as [x|]; [|done]. rewrite !keep_cons. cbn [opt_remove].
    by rewrite (keep_splice_remove y (r :: l)), keep_cons.
  - assert (∀ z, z ∈ l → cmp y z = Eq → q z = q y) by (intros z Hz; apply Hq; by right).
    destruct (is_eq (cmp y r)) eqn:E.
    + apply is_eq_true in E. rewrite keep_cons, (Hq r), Hy; [done|by left|done].
    + by rewrite !keep_cons, IH.
Qed.

Lemma keep_splice_narrow a rem l :
  (∀ y z, rem = Some y → z ∈ l → cmp y z = Eq → q z = q y) →
  keep q (splice_list cmp (ofilter q a) (ofilter q rem) l) = keep q (splice_list cmp a rem l).
Proof.
  intros Hq.
  assert (keep q (splice_list cmp (ofilter q a) rem l) = keep q (splice_list cmp a rem l)) as <-.
  { destruct a as [x|]; simpl; [|done]. destruct (q x) eqn:Hx; [done|].
    by rewrite keep_splice_drop_add, splice_list_no_add. }
  destruct rem as [y|]; simpl; [|done]. destruct (q y) eqn:Hy; [done|].
  apply keep_splice_drop_remove; [done|]. intros z. by apply Hq.
Qed.
End narrow_splice.

(** The overlay of a change in flight, over the rows stored: the removed row
    is stored, the added one ties with no row that stays. *)
Definition overlay_valid (cmp : row → row → comparison) (o : Overlays) (l : list row) : Prop :=
  (∀ y, ov_remove o = Some y → y ∈ l) ∧
  (∀ x, ov_add o = Some x → sl_find cmp x (opt_remove cmp (ov_remove o) l) = None).

Lemma ssorted_tie (cmp : row → row → comparison) `{!TotalCmp cmp} l x y :
  ssorted cmp l → x ∈ l → y ∈ l → cmp x y = Eq → x = y.
Proof.
  intros Hs [i Hi]%list_elem_of_lookup [j Hj]%list_elem_of_lookup He.
  destruct (Nat.lt_trichotomy i j) as [Hij|[->|Hij]].
  - pose proof (ssorted_lookup cmp l i j x y Hs Hij Hi Hj). congruence.
  - by simplify_eq.
  - pose proof (ssorted_lookup cmp l j i y x Hs Hij Hj Hi) as H.
    rewrite (cmp_opp x y), He in H. done.
Qed.

(** A fetch during a push sees the change: on a sorted scan, the spliced
    and narrowed rows the request asks for are exactly those of the rows with
    the change applied, once the connection was pushed to (the epoch gate), and
    of the stored rows before that. *)
Theorem generate_with_overlay_spec (start_at : option row) (rows : list row)
    (constraint : option Constraint) (overlay : option Overlay) (last_epoch : Z)
    (sort : Sort) (reverse : bool) (pred : option RowPredicate) (mcs : list MultiConstraint) :
  let cmp := compare_rows_rev sort reverse in
  let o := overlays_from_change (gate overlay last_epoch) in
  let q r := start_match start_at sort reverse r && req_match constraint pred mcs r in
  ssorted cmp rows → overlay_valid cmp o rows →
  ∃ out, generate_with_overlay start_at rows constraint overlay last_epoch sort reverse pred mcs
           = Some out ∧
    keep q out = keep q (apply_overlays cmp (ov_add o) (ov_remove o) rows).
Proof.
  intros cmp o q Hs [Hrem Hadd]. unfold generate_with_overlay.
  rewrite generate_with_overlay_inner_list, compute_overlays_narrow. eexists. split; [done|].
  fold cmp o. unfold narrow. cbn [ov_add ov_remove]. fold q. rewrite keep_splice_narrow.
  - by rewrite (splice_list_spec cmp).
  - intros y z Hy Hz He. f_equal. symmetry. apply (ssorted_tie cmp rows); auto.
Qed.

Lemma generate_with_overlay_spec_witness :
  let r k v := [Int (i64_of_Z k); Int (i64_of_Z v)] in
  let rows := [r 1 0; r 2 0; r 4 0]%Z in
  let ov := MkOverlay 7 (SEdit (r 3 1) (r 2 0))%Z in
  ∃ out, generate_with_overlay None rows None (Some ov) 7 [(0, true)] false None [] = Some out ∧
    out = [r 1 0; r 3 1; r 4 0]%Z.
Proof.
  intros r rows ov.
  destruct (generate_with_overlay_spec None rows None (Some ov) 7 [(0, true)] false None [])
    as (out & Hout & Hk).
  - repeat constructor.
  - split.
    + intros y Hy. vm_compute in Hy. injection Hy as <-. right. left.
    + intros x Hx. vm_compute in Hx. injection Hx as <-. vm_compute. reflexivity.
  - exists out. split; [exact Hout|]. vm_compute in Hout. injection Hout as <-. vm_compute. reflexivity.
Defined.

(** ** The unordered splice *)

Fixpoint remove_by_pk (pk : list nat) (rem : row) (l : list row) : list row :=
  match l with
  | [] => []
  | r :: l' => if pk_match r rem pk then l' else r :: remove_by_pk pk rem l'
  end.

Definition opt_remove_pk (pk : list nat) (rem : option row) (l : list row) : list row :=
  match rem with Some x => remove_by_pk pk x l | None => l end.

Definition un_spec (s : OverlayUnordered) : list row :=
  opt_remove_pk (un_pk s) (if un_remove_skipped s then None else un_remove s) (un_inner s).

Lemma unordered_loop_spec inner s :
  un_inner s = inner →
  match unordered_loop inner s with
  | (None, _) => un_spec s = []
  | (Some r, s') => un_spec s = r :: un_spec s' ∧ length (un_inner s') < length inner ∧
      add_emitted s' = add_emitted s
  end.
Proof.
  revert s. induction inner as [|r inner IH]; intros s Hs; simpl.
  { unfold un_spec. rewrite Hs. by destruct (if un_remove_skipped s then None else un_remove s). }
  destruct (un_remove_skipped s) eqn:Hsk.
  { unfold un_spec. rewrite Hsk, Hs. simpl. split_and!; [done|lia|done]. }
  destruct (un_remove s) as [rem|] eqn:Hrem.
  2: { unfold un_spec. rewrite Hsk, Hs, Hrem. simpl. split_and!; [done|lia|done]. }
  destruct (pk_match r rem (un_pk s)) eqn:Hm.
  2: { unfold un_spec. rewrite Hsk, Hs, Hrem. simpl. rewrite Hm. split_and!; [done|lia|done]. }
  set (s1 := MkUnordered inner (un_add s) (Some rem) (un_pk s) (add_emitted s) true).
  assert (un_spec s = un_spec s1) as ->.
  { unfold un_spec. rewrite Hsk, Hs, Hrem. simpl. by rewrite Hm. }
  specialize (IH s1 eq_refl). destruct (unordered_loop inner s1) as [[x|] s']; [|done].
  destruct IH as (? & ? & ?). split_and!; [done|lia|done].
Qed.

Lemma drain_unordered_tail fuel s :
  add_emitted s = true → length (un_inner s) < fuel →
  drain unordered_next fuel s = Some (un_spec s).
Proof.
  revert s. induction fuel as [|fuel IH]; intros s Ha Hf; [lia|]. cbn [drain].
  unfold unordered_next. rewrite Ha. cbn [negb mbind option_bind].
  pose proof (unordered_loop_spec (un_inner s) s eq_refl) as H.
  destruct (unordered_loop (un_inner s) s) as [[x|] s']; [|by rewrite H].
  destruct H as (-> & Hl & He). rewrite IH by (congruence || lia). done.
Qed.

Lemma generate_unordered_list inner o pk :
  generate_with_overlay_inner_unordered inner o pk =
    Some (option_list (ov_add o) ++ opt_remove_pk pk (ov_remove o) inner).
Proof.
  unfold generate_with_overlay_inner_unordered. destruct o as [a rem]. simpl.
  destruct (overlays_is_empty _) eqn:He; [by destruct a, rem|].
  replace (length inner + 2) with (S (S (length inner))) by lia.
  destruct a as [a|]; simpl.
  - pose proof (drain_unordered_tail (S (length inner)) (MkUnordered inner None rem pk true false)) as H.
    simpl in H. rewrite H by lia. done.
  - pose proof (drain_unordered_tail (S (S (length inner))) (MkUnordered inner None rem pk true false)) as H.
    etransitivity; [|by apply H; simpl; lia]. done.
Qed.

Lemma keep_remove_by_pk (q : row → bool) pk y l :
  q y = false → (∀ z, z ∈ l → pk_match z y pk = true → q z = q y) →
  keep q (remove_by_pk pk y l) = keep q l.
Proof.
  intros Hy. induction l as [|r l IH]; intros Hq; simpl; [done|].
  destruct (pk_match r y pk) eqn:E.
  - rewrite keep_cons, (Hq r), Hy; [done|by left|done].
  - rewrite !keep_cons, IH; [done|]. intros z Hz. apply Hq. by right.
Qed.

(** The unordered fetch during a push: the rows the request asks for are
    the added row, then the scan without the row that has the removed row's
    primary key. *)
Theorem generate_with_overlay_unordered_spec (rows : list row) (constraint : option Constraint)
    (overlay : option Overlay) (last_epoch : Z) (pk : list nat) (pred : option RowPredicate)
    (mcs : list MultiConstraint) :
  let o := overlays_from_change (gate overlay last_epoch) in
  let q := req_match constraint pred mcs in
  (∀ y z, ov_remove o = Some y → z ∈ rows → pk_match z y pk = true → z = y) →
  ∃ out, generate_with_overlay_unordered rows constraint overlay last_epoch pk pred mcs = Some out ∧
    keep q out = keep q (option_list (ov_add o) ++ opt_remove_pk pk (ov_remove o) rows).
Proof.
  intros o q Hpk. unfold generate_with_overlay_unordered. fold o.
  pose proof (compute_overlays_narrow None constraint (gate overlay last_epoch) [] false pred mcs) as Hn.
  unfold compute_overlays in Hn. fold o in Hn. rewrite Hn, generate_unordered_list.
  eexists. split; [done|]. rewrite (narrow_ext _ q) by done. unfold narrow. cbn [ov_add ov_remove].
  rewrite !keep_app. f_equal.
  - destruct (ov_add o) as [x|]; simpl; [|done]. destruct (q x) eqn:Hx; simpl; [done|].
    by rewrite keep_cons, Hx.
  - destruct (ov_remove o) as [y|]; simpl; [|done]. destruct (q y) eqn:Hy; simpl; [done|].
    symmetry. apply keep_remove_by_pk; [done|]. intros z Hz Hm. by rewrite (Hpk y z).
Qed.

Lemma generate_with_overlay_unordered_spec_witness :
  let r k v := [Int (i64_of_Z k); Int (i64_of_Z v)] in
  let rows := [r 2 0; r 1 0]%Z in
  ∃ out, generate_with_overlay_unordered rows None (Some (MkOverlay 3 (SRemove (r 2 0)%Z))) 3 [0] None []
           = Some out ∧ out = [r 1 0]%Z.
Proof.
  intros r rows.
  destruct (generate_with_overlay_unordered_spec rows None
    (Some (MkOverlay 3 (SRemove (r 2 0)%Z))) 3 [0] None []) as (out & Hout & _).
  - intros y z Hy Hz Hm. vm_compute in Hy. injection Hy as <-.
    apply elem_of_cons in Hz as [->|Hz%list_elem_of_singleton]; [done|]. subst z.
    vm_compute in Hm. done.
  - exists out. split; [exact Hout|]. vm_compute in Hout. injection Hout as <-. vm_compute. reflexivity.
Defined.

(** ** The post-scan chain on sorted rows *)

Lemma start_filter_true start sort reverse rows :
  start_filter start sort reverse true rows = rows.
Proof. induction rows as [|r rows IH]; simpl; [done|]. by rewrite IH. Qed.

(** The rows at or after a start position. *)
Definition start_test (start : Start) (sort : Sort) (reverse : bool) (r : row) : bool :=
  let c := compare_rows_rev sort reverse r (start_row start) in
  match basis start with At => negb (is_lt c) | After => is_gt c end.

Lemma start_filter_keep start sort reverse rows :
  StronglySorted (λ a b, compare_rows_rev sort reverse a b ≠ Gt) rows →
  start_filter start sort reverse false rows = keep (start_test start sort reverse) rows.
Proof.
  induction 1 as [|r rows Hs IH Hr]; [done|]. cbn [start_filter]. rewrite keep_cons.
  fold (start_test start sort reverse r). destruct (start_test start sort reverse r) eqn:E; [|done].
  rewrite start_filter_true. f_equal. symmetry. apply keep_all.
  eapply Forall_impl; [exact Hr|]. intros x Hx. unfold start_test in *.
  set (cmp := compare_rows_rev sort reverse) in *.
  destruct (basis start), (cmp r (start_row start)) eqn:Er; try done.
  - destruct (cmp x (start_row start)) eqn:Ex; try done.
    exfalso. rewrite (cmp_ngt_lt_trans cmp r x (start_row start)) in Er; done.
  - destruct (cmp x (start_row start)) eqn:Ex; try done.
    exfalso. rewrite (cmp_ngt_lt_trans cmp r x (start_row start)) in Er; done.
  - destruct (cmp x (start_row start)) eqn:Ex; try done; exfalso.
    + rewrite (cmp_eq_r cmp r x (start_row start)), Er in Hx; done.
    + rewrite (cmp_ngt_lt_trans cmp r x (start_row start)) in Er; done.
Qed.

Lemma take_while_keep (p : row → bool) rows :
  StronglySorted (λ a b, p b = true → p a = true) rows → take_while p rows = keep p rows.
Proof.
  induction 1 as [|r rows Hs IH Hr]; [done|]. simpl. rewrite keep_cons.
  destruct (p r) eqn:E; [by rewrite IH|]. symmetry. apply keep_none.
  eapply Forall_impl; [exact Hr|]. intros x Hx. simpl in Hx.
  destruct (p x); [|done]. specialize (Hx eq_refl). congruence.
Qed.

Lemma splice_list_elem (cmp : row → row → comparison) `{!TotalCmp cmp} a rem l y :
  y ∈ splice_list cmp a rem l → y ∈ l ∨ a = Some y.
Proof.
  induction l as [|r l IH] in rem |- *; cbn [splice_list].
  { destruct a; [|by intros ?%elem_of_nil]. intros ->%list_elem_of_singleton. by right. }
  destruct (match a with Some x => is_lt (cmp x r) | None => false end) eqn:Ea.
  - destruct a as [x|]; [|done]. intros [->|Hy%(opt_remove_elem cmp)]%elem_of_cons; [by right|by left].
  - destruct (match rem with Some y => is_eq (cmp y r) | None => false end).
    + intros [?|?]%IH; [left; by right|by right].
    + intros [->|[?|?]%IH]%elem_of_cons; [left; by left|left; by right|by right].
Qed.

(** The spliced scan is sorted, up to a tie of an edited row with its old
    version. *)
Lemma splice_list_sorted (cmp : row → row → comparison) `{!TotalCmp cmp} a rem l :
  ssorted cmp l → StronglySorted (λ x y, cmp x y ≠ Gt) (splice_list cmp a rem l).
Proof.
  assert (∀ l : list row, ssorted cmp l → StronglySorted (λ x y, cmp x y ≠ Gt) l) as Hw.
  { induction 1 as [|r l' Hs IH Hr]; constructor; [done|].
    eapply Forall_impl; [exact Hr|]. intros x Hx. by rewrite Hx. }
  intros Hs. induction Hs as [|r l Hs IH Hr] in rem |- *.
  { destruct a; simpl; [repeat constructor|constructor]. }
  assert (ssorted cmp (r :: l)) as Hrl by (by constructor).
  assert (∀ rem l, ssorted cmp l → ssorted cmp (opt_remove cmp rem l)) as Hrem.
  { intros rem' l' Hs'. rewrite (opt_remove_delete cmp rem' l'). destruct rem' as [y|]; [by apply (sl_delete_sorted cmp y l')|done]. }
  cbn [splice_list]. destruct (match a with Some x => is_lt (cmp x r) | None => false end) eqn:Ea.
  - destruct a as [x|]; [|done]. constructor; [by apply Hw, Hrem|].
    apply Forall_forall. intros y Hy. apply (opt_remove_elem cmp rem (r :: l) y) in Hy.
    destruct (cmp x r) eqn:E; try done.
    apply elem_of_cons in Hy as [->|Hy]; [by rewrite E|]. rewrite Forall_forall in Hr.
    rewrite (cmp_lt_trans x r y); auto.
  - destruct (match rem with Some y => is_eq (cmp y r) | None => false end); [apply IH|].
    constructor; [apply IH|]. apply Forall_forall. intros y Hy.
    apply (splice_list_elem cmp a rem l y) in Hy.
    destruct Hy as [Hy|Hy].
    + rewrite Forall_forall in Hr. by rewrite (Hr y).
    + subst a. destruct (cmp y r) eqn:E; try done.
      * by rewrite (cmp_eq_sym cmp y r).
      * by rewrite (cmp_gt_lt cmp y r).
Qed.

(** On rows and constraints of one schema the constraint test does not panic. *)
Definition constraint_typed (types : list Z) (c : Constraint) : Prop :=
  Forall (λ e, ∃ t, types !! e.1 = Some t ∧
    (e.2 = Absent ∨ e.2 = Null ∨ predicate_type_rank e.2 = t)) c.

Lemma cmatch_typed types r c :
  row_typed types r → constraint_typed types c → constraint_matches r c = Some (cmatch r c).
Proof.
  intros Hr Hc. assert (∃ b, constraint_matches r c = Some b) as [b Hb].
  { induction Hc as [|[k v] c (t & Ht & Hv) Hc IH]; [by eexists|].
    destruct (Forall2_lookup_l _ _ _ _ _ Hr Ht) as (x & Hx & Hxt).
    unfold constraint_matches in *. simpl in *. rewrite Hx. cbn [mbind option_bind].
    rewrite values_equal_unfold. destruct (present x && present v); [|by eexists].
    replace (comparable x v) with true; [by destruct (is_eq _); [|eexists]|].
    symmetry. apply comparable_true. naive_solver congruence. }
  unfold cmatch. rewrite Hb. by destruct b.
Qed.
