(* ===== verification/Errors.v ===== *)
(** * Runtime errors ([rust/src/error.rs])

    The error type the fallible operations return; its messages are strings as
    in the source. *)

From stdpp Require Import base strings.

Inductive RindleError : Type :=
  | Sqlite (op source : string)
  | UnsupportedValue (message : string)
  | InvalidUtf8 (value_type : string) (valid_up_to : nat) (error_len : option nat)
  | Storage (message : string)
  | ConsistencyViolation (kind : string)
  | SchemaViolation (message : string)
  | PushDeadlineExceeded (site : string).

Definition schema_violation (message : string) : RindleError := SchemaViolation message.
