(* ===== verification/Merge.v ===== *)
(** * The k-way merge of sorted row streams ([rust/src/source_common.rs])

    A binary min-heap with one owned head row per stream.  Streams are the
    lists of rows they still yield.  Out-of-range indexing is [None]; the sift
    loops get as much fuel as the heap is long, and a drain one more pull than
    there are rows. *)

From stdpp Require Import base list numbers option sorting sets.
From Stdlib Require Import ZArith Lia.
From S2P Require Import Prelude Values Rows Overlay.

Section heap.
Context {Row : Type} (cmp : Row → Row → comparison).

(** [HeapEntry]: the head row of a stream and the stream's index. *)
Record HeapEntry := MkEntry { entry_row : Row; entry_idx : nat }.

Record MergeSorted := MkMerge {
  streams : list (list Row);
  heap : list HeapEntry;
  primed : bool
}.

Definition less (h : list HeapEntry) (a b : nat) : option bool :=
  x ← h !! a; y ← h !! b; Some (is_lt (cmp (entry_row x) (entry_row y))).

Definition swap (h : list HeapEntry) (i j : nat) : option (list HeapEntry) :=
  x ← h !! i; y ← h !! j; Some (<[j := x]> (<[i := y]> h)).

Fixpoint sift_up (fuel : nat) (h : list HeapEntry) (i : nat) : option (list HeapEntry) :=
  match fuel with
  | O => None
  | S fuel =>
      if decide (0 < i) then
        let p := (i - 1) / 2 in
        b ← less h i p;
        if negb b then Some h
        else h ← swap h i p; sift_up fuel h p
      else Some h
  end.

(** [if c < n && self.less(c, smallest) { smallest = c }]. *)
Definition smaller (h : list HeapEntry) (c smallest : nat) : option nat :=
  if decide (c < length h) then
    b ← less h c smallest; Some (if (b : bool) then c else smallest)
  else Some smallest.

Fixpoint sift_down (fuel : nat) (h : list HeapEntry) (i : nat) : option (list HeapEntry) :=
  match fuel with
  | O => None
  | S fuel =>
      let l := i * 2 + 1 in
      let r := l + 1 in
      smallest ← smaller h l i;
      smallest ← smaller h r smallest;
      if decide (smallest = i) then Some h
      else h ← swap h i smallest; sift_down fuel h smallest
  end.

(** [prime] over the streams from index [i] on. *)
Fixpoint prime_loop (i : nat) (todo : list (list Row)) (h : list HeapEntry) :
    option (list (list Row) * list HeapEntry) :=
  match todo with
  | [] => Some ([], h)
  | s :: todo' =>
      match s with
      | [] => '(ss, h) ← prime_loop (S i) todo' h; Some ([] :: ss, h)
      | r :: s' =>
          let h := h ++ [MkEntry r i] in
          h ← sift_up (length h) h (length h - 1);
          '(ss, h) ← prime_loop (S i) todo' h;
          Some (s' :: ss, h)
      end
  end.

Definition prime (m : MergeSorted) : option MergeSorted :=
  '(ss, h) ← prime_loop 0 (streams m) (heap m);
  Some (MkMerge ss h (primed m)).

Definition merge_next (m : MergeSorted) : option (option Row * MergeSorted) :=
  m ← (if primed m then Some m else prime (MkMerge (streams m) (heap m) true));
  match heap m with
  | [] => Some (None, m)
  | e :: h' =>
      s ← streams m !! entry_idx e;
      match s with
      | new_row :: s' =>
          h ← sift_down (S (length (heap m))) (MkEntry new_row (entry_idx e) :: h') 0;
          Some (Some (entry_row e), MkMerge (<[entry_idx e := s']> (streams m)) h (primed m))
      | [] =>
          tail_entry ← last (heap m);
          let h := removelast (heap m) in
          match h with
          | [] => Some (Some (entry_row tail_entry), MkMerge (streams m) [] (primed m))
          | root :: rest =>
              h ← sift_down (S (length h)) (tail_entry :: rest) 0;
              Some (Some (entry_row root), MkMerge (streams m) h (primed m))
          end
      end
  end.

Fixpoint merge_drain (fuel : nat) (m : MergeSorted) : option (list Row) :=
  match fuel with
  | O => None
  | S fuel =>
      '(r, m) ← merge_next m;
      match r with
      | None => Some []
      | Some x => l ← merge_drain fuel m; Some (x :: l)
      end
  end.

Definition merge_streams (ss : list (list Row)) : option (list Row) :=
  merge_drain (S (length (concat ss))) (MkMerge ss [] false).
End heap.
Arguments HeapEntry : clear implicits.
Arguments MergeSorted : clear implicits.

Definition merge_sorted_streams (ss : list (list row)) (sort : Sort) (reverse : bool) :
    option (list row) :=
  merge_streams (compare_rows_rev sort reverse) ss.

(** ** Heap order *)

Section heap_facts.
Context {Row : Type} (cmp : Row → Row → comparison) `{!TotalCmp cmp}.
Implicit Types (h : list (HeapEntry Row)).

Definition rle (x y : Row) : Prop := cmp x y ≠ Gt.
Definition ele (a b : HeapEntry Row) : Prop := rle (entry_row a) (entry_row b).

Lemma rle_refl x : rle x x.
Proof. unfold rle. by rewrite cmp_refl. Qed.

Lemma rle_trans x y z : rle x y → rle y z → rle x z.
Proof. apply (cmp_ngt_trans cmp). Qed.

Lemma lt_rle x y : cmp x y = Lt → rle x y.
Proof. unfold rle. by intros ->. Qed.

Lemma nlt_rle x y : cmp x y ≠ Lt → rle y x.
Proof. unfold rle. intros H. rewrite (cmp_opp x y). by destruct (cmp x y). Qed.

Definition par (j : nat) : nat := (j - 1) / 2.

Lemma par_lt j : 0 < j → par j < j.
Proof. intros Hj. unfold par. pose proof (Nat.div_mod_eq (j - 1) 2). lia. Qed.

Lemma par_children i j : 0 < j → par j = i ↔ j = i * 2 + 1 ∨ j = i * 2 + 2.
Proof.
  intros Hj. unfold par. pose proof (Nat.div_mod_eq (j - 1) 2).
  pose proof (Nat.mod_upper_bound (j - 1) 2 ltac:(lia)). lia.
Qed.

(** Every entry is at or above its parent. *)
Definition heap_ok h : Prop :=
  ∀ j x y, 0 < j → h !! j = Some x → h !! par j = Some y → ele y x.

(** Heap order except between [i] and its parent. *)
Definition heap_up h i : Prop :=
  (∀ j x y, 0 < j → j ≠ i → h !! j = Some x → h !! par j = Some y → ele y x) ∧
  (∀ j x y, 0 < j → par j = i → 0 < i → h !! j = Some x → h !! par i = Some y → ele y x).

(** Heap order except between [i] and its children. *)
Definition heap_down h i : Prop :=
  (∀ j x y, 0 < j → par j ≠ i → h !! j = Some x → h !! par j = Some y → ele y x) ∧
  (∀ j x y, 0 < j → par j = i → 0 < i → h !! j = Some x → h !! par i = Some y → ele y x).

Lemma swap_spec h i j x y :
  h !! i = Some x → h !! j = Some y → i ≠ j →
  ∃ h', swap h i j = Some h' ∧ h' ≡ₚ h ∧ length h' = length h ∧
    ∀ k, h' !! k = if decide (k = j) then Some x else if decide (k = i) then Some y else h !! k.
Proof.
  intros Hi Hj Hne. pose proof (lookup_lt_Some _ _ _ Hi). pose proof (lookup_lt_Some _ _ _ Hj).
  unfold swap. rewrite Hi, Hj. cbn [mbind option_bind]. eexists. split; [done|].
  split_and!; [|by rewrite !length_insert|].
  - by apply Permutation_insert_swap.
  - intros k. repeat case_decide; subst.
    + by rewrite list_lookup_insert_eq by (by rewrite length_insert).
    + rewrite list_lookup_insert_ne by done. by rewrite list_lookup_insert_eq.
    + by rewrite !list_lookup_insert_ne by done.
Qed.

(** Swapping an entry with a larger parent moves the defect to the parent. *)
Lemma heap_up_swap h h' i x y :
  heap_up h i → 0 < i → h !! i = Some x → h !! par i = Some y → ele x y →
  (∀ k, h' !! k = if decide (k = par i) then Some x else if decide (k = i) then Some y else h !! k) →
  heap_up h' (par i).
Proof.
  intros [H1 H2] Hi Hx Hy Hxy Hk. pose proof (par_lt i Hi) as Hp. split.
  - intros j a b Hj Hjp Ha Hb. rewrite Hk, decide_False in Ha by done. rewrite Hk in Hb.
    destruct (decide (j = i)) as [->|Hji].
    { rewrite decide_True in Hb by done. simplify_eq. done. }
    destruct (decide (par j = par i)) as [He|Hne].
    { simplify_eq. rewrite <-He in Hy. pose proof (H1 j a y Hj Hji Ha Hy). by eapply rle_trans. }
    destruct (decide (par j = i)) as [He|Hne']; [simplify_eq; by eapply (H2 j)|].
    by apply (H1 j).
  - intros j a b Hj Hjp Hpos Ha Hb. rewrite Hk in Ha.
    assert (h !! par (par i) = Some b) as Hb'.
    { rewrite Hk in Hb. pose proof (par_lt (par i) Hpos).
      rewrite !decide_False in Hb by lia. done. }
    assert (ele b y) as Hby by (eapply (H1 (par i)); [done|lia|done..]).
    pose proof (par_lt j Hj). rewrite decide_False in Ha by lia.
    destruct (decide (j = i)) as [->|Hji]; [by simplify_eq|].
    rewrite <-Hjp in Hy. pose proof (H1 j a y Hj Hji Ha Hy). by eapply rle_trans.
Qed.

Lemma sift_up_spec fuel h i :
  heap_up h i → i < length h → i < fuel →
  ∃ h', sift_up cmp fuel h i = Some h' ∧ heap_ok h' ∧ h' ≡ₚ h.
Proof.
  revert h i. induction fuel as [|fuel IH]; intros h i Hup Hlen Hf; [lia|]. cbn [sift_up].
  case_decide as Hi.
  2: { exists h. split_and!; [done| |done]. intros j x y Hj. apply Hup; [done|lia]. }
  fold (par i). pose proof (par_lt i Hi) as Hp.
  destruct (lookup_lt_is_Some_2 h i Hlen) as [x Hx].
  destruct (lookup_lt_is_Some_2 h (par i) ltac:(lia)) as [y Hy].
  unfold less. rewrite Hx, Hy. cbn [mbind option_bind].
  destruct (cmp (entry_row x) (entry_row y)) eqn:E; simpl.
  2: { destruct (swap_spec h i (par i) x y Hx Hy ltac:(lia)) as (h1 & -> & Hperm & Hl1 & Hk).
       cbn [mbind option_bind]. destruct (IH h1 (par i)) as (h2 & -> & Hok & Hp2); [|lia..|].
       - eapply heap_up_swap; [done..| |done]. by apply lt_rle.
       - exists h2. split_and!; [done..|]. by rewrite Hp2. }
  all: exists h; split_and!; [done| |done]; intros j a b Hj Ha Hb;
    destruct (decide (j = i)) as [->|]; [|by eapply (proj1 Hup)];
    simplify_eq; apply nlt_rle; by rewrite E.
Qed.

(** Appending an entry leaves a defect at the end only. *)
Lemma heap_up_snoc h e : heap_ok h → heap_up (h ++ [e]) (length h).
Proof.
  intros Hok. assert (∀ j x, j ≠ length h → (h ++ [e]) !! j = Some x → h !! j = Some x) as Hl.
  { intros j x Hj Hx. apply lookup_app_Some in Hx as [?|[Hge Hx]]; [done|].
    apply list_lookup_singleton_Some in Hx as [? _]. lia. }
  split.
  - intros j x y Hj Hne Hx Hy. apply Hl in Hx; [|done]. pose proof (lookup_lt_Some _ _ _ Hx).
    pose proof (par_lt j Hj). apply Hl in Hy; [|lia]. by apply (Hok j).
  - intros j x y Hj Hp _ Hx _. pose proof (lookup_lt_Some _ _ _ Hx) as Hlt.
    rewrite length_app in Hlt. simpl in Hlt. pose proof (par_lt j Hj). lia.
Qed.

(** Swapping an entry with its smaller child moves the defect to the child. *)
Lemma heap_down_swap h h' i c x y :
  heap_down h i → 0 < c → par c = i → h !! i = Some x → h !! c = Some y → ele y x →
  (∀ d z, 0 < d → par d = i → h !! d = Some z → ele y z) →
  (∀ k, h' !! k = if decide (k = c) then Some x else if decide (k = i) then Some y else h !! k) →
  heap_down h' c.
Proof.
  intros [H1 H2] Hc Hpc Hx Hy Hyx Hmin Hk. pose proof (par_lt c Hc) as Hp. rewrite Hpc in Hp. split.
  - intros j a b Hj Hjc Ha Hb. rewrite Hk in Ha. rewrite Hk, decide_False in Hb by done.
    destruct (decide (par j = i)) as [He|Hne].
    { simplify_eq. destruct (decide (j = c)) as [->|]; [by simplify_eq|].
      pose proof (par_lt j Hj). rewrite decide_False in Ha by lia. by apply (Hmin j). }
    destruct (decide (j = c)) as [->|]; [done|].
    destruct (decide (j = i)) as [->|]; [simplify_eq; by eapply (H2 c)|].
    by apply (H1 j).
  - intros j a b Hj Hjc _ Ha Hb. pose proof (par_lt j Hj).
    rewrite Hk, !decide_False in Ha by lia. rewrite Hk, Hpc, decide_False, decide_True in Hb by lia.
    simplify_eq. apply (H1 j); [done|lia|done|]. done.
Qed.

Lemma smaller_spec h c s t :
  h !! s = Some t →
  ∃ s' u, smaller cmp h c s = Some s' ∧ h !! s' = Some u ∧ ele u t ∧
    (∀ z, h !! c = Some z → ele u z) ∧ (s' = s ∨ s' = c).
Proof.
  intros Ht. unfold smaller. destruct (h !! c) as [z|] eqn:Hc.
  2: { apply lookup_ge_None in Hc. rewrite decide_False by lia. exists s, t.
       split_and!; [done|done|apply rle_refl|done|by left]. }
  rewrite decide_True by (by eapply lookup_lt_Some). unfold less. rewrite Hc, Ht.
  cbn [mbind option_bind]. destruct (cmp (entry_row z) (entry_row t)) eqn:E; simpl.
  2: { exists c, z. apply lt_rle in E.
       split_and!; [done|done|done|intros ? [= <-]; apply rle_refl|by right]. }
  all: exists s, t; split_and!; [done|done|apply rle_refl| |by left];
    intros ? [= <-]; apply nlt_rle; by rewrite E.
Qed.

(** The choice of the smaller child in [sift_down]. *)
Lemma smallest_child h i x :
  h !! i = Some x →
  ∃ s c u, smaller cmp h (i * 2 + 1) i = Some s ∧ smaller cmp h (i * 2 + 1 + 1) s = Some c ∧
    h !! c = Some u ∧ ele u x ∧ (∀ d z, 0 < d → par d = i → h !! d = Some z → ele u z) ∧
    (c = i ∨ 0 < c ∧ par c = i).
Proof.
  intros Hx. destruct (smaller_spec h (i * 2 + 1) i x Hx) as (s & t & Hs & Ht & Htx & Htl & Hsl).
  destruct (smaller_spec h (i * 2 + 1 + 1) s t Ht) as (c & u & Hc & Hu & Hut & Hur & Hcr).
  exists s, c, u. split_and!; [done..|by eapply rle_trans| |].
  - intros d z Hd Hp Hz. apply par_children in Hp as [->| ->]; [..|done].
    + eapply rle_trans; [exact Hut|]. by apply Htl.
    + apply Hur. by replace (i * 2 + 1 + 1) with (i * 2 + 2) by lia.
  - destruct Hcr as [->| ->].
    + destruct Hsl as [->| ->]; [by left|right]. split; [lia|]. apply par_children; lia.
    + right. split; [lia|]. apply par_children; lia.
Qed.

Lemma sift_down_spec fuel h i :
  heap_down h i → i < length h → length h - i < fuel →
  ∃ h', sift_down cmp fuel h i = Some h' ∧ heap_ok h' ∧ h' ≡ₚ h.
Proof.
  revert h i. induction fuel as [|fuel IH]; intros h i Hdown Hlen Hf; [lia|]. cbn [sift_down].
  destruct (lookup_lt_is_Some_2 h i Hlen) as [x Hx].
  destruct (smallest_child h i x Hx) as (s & c & u & -> & Hc & Hu & Hux & Hmin & Hci).
  cbn [mbind option_bind]. rewrite Hc. cbn [mbind option_bind]. case_decide as Hd.
  - subst c. simplify_eq. exists h. split_and!; [done| |done]. intros j a b Hj Ha Hb.
    destruct (decide (par j = i)) as [He|]; [|by eapply (proj1 Hdown)].
    rewrite He in Hb. simplify_eq. by eapply Hmin.
  - destruct Hci as [->|[Hpos Hp]]; [done|]. pose proof (par_lt c Hpos).
    destruct (swap_spec h i c x u Hx Hu ltac:(congruence)) as (h1 & -> & Hperm & Hl1 & Hk).
    cbn [mbind option_bind]. pose proof (lookup_lt_Some _ _ _ Hu).
    destruct (IH h1 c) as (h2 & -> & Hok & Hp2); [|lia..|].
    + by apply (heap_down_swap h h1 i c x u).
    + exists h2. split_and!; [done..|]. by rewrite Hp2.
Qed.

(** The root is a minimum. *)
Lemma heap_root_min h e x : heap_ok (e :: h) → x ∈ e :: h → ele e x.
Proof.
  intros Hok [j Hj]%list_elem_of_lookup. revert x Hj.
  induction j as [j IH] using lt_wf_ind. intros x Hj.
  destruct (decide (j = 0)) as [->|Hne]; [simpl in Hj; simplify_eq; apply rle_refl|].
  pose proof (par_lt j ltac:(lia)) as Hp. pose proof (lookup_lt_Some _ _ _ Hj).
  destruct (lookup_lt_is_Some_2 (e :: h) (par j) ltac:(lia)) as [y Hy].
  eapply rle_trans; [by eapply (IH (par j))|]. apply (Hok j); [lia|done..].
Qed.

(** Replacing the root leaves a defect at the root only. *)
Lemma heap_down_root h e e' : heap_ok (e :: h) → heap_down (e' :: h) 0.
Proof.
  intros Hok. split; [|lia]. intros j x y Hj Hp Hx Hy.
  destruct j as [|j]; [lia|]. destruct (par (S j)) as [|p] eqn:E; [done|]. simpl in Hx, Hy.
  apply (Hok (S j)); [lia|done|]. by rewrite E.
Qed.

Lemma heap_ok_init h x : heap_ok (h ++ [x]) → heap_ok h.
Proof. intros Hok j a b Hj Ha Hb. apply (Hok j); [done|by apply lookup_app_l_Some..]. Qed.

Lemma heap_ok_nil : heap_ok [].
Proof. intros j x y _ Hx. done. Qed.

(** ** Priming *)

(** The head entries of the streams from index [i] on. *)
Fixpoint heads (i : nat) (ss : list (list Row)) : list (HeapEntry Row) :=
  match ss with
  | [] => []
  | [] :: ss => heads (S i) ss
  | (r :: _) :: ss => MkEntry r i :: heads (S i) ss
  end.

Lemma elem_of_heads i ss e :
  e ∈ heads i ss ↔ ∃ k r s, ss !! k = Some (r :: s) ∧ e = MkEntry r (i + k).
Proof.
  revert i. induction ss as [|[|r s] ss IH]; intros i; simpl.
  - split; [by intros ?%elem_of_nil|]. intros (k & r & s & ? & _). done.
  - rewrite IH. split.
    + intros (k & r & s & Hk & ->). exists (S k), r, s. split; [done|]. f_equal. lia.
    + intros ([|k] & r & s & Hk & ->); [done|]. exists k, r, s. split; [done|]. f_equal. lia.
  - rewrite elem_of_cons, IH. split.
    + intros [->|(k & r' & s' & Hk & ->)].
      * exists 0, r, s. split; [done|]. f_equal. lia.
      * exists (S k), r', s'. split; [done|]. f_equal. lia.
    + intros ([|k] & r' & s' & Hk & ->); simpl in Hk.
      * simplify_eq. left. f_equal. lia.
      * right. exists k, r', s'. split; [done|]. f_equal. lia.
Qed.

Lemma heads_nodup i ss : NoDup (entry_idx <$> heads i ss).
Proof.
  revert i. induction ss as [|[|r s] ss IH]; intros i; simpl; [constructor|apply IH|].
  constructor; [|apply IH]. intros (e & He & Hin)%list_elem_of_fmap.
  apply elem_of_heads in Hin as (k & r' & s' & _ & ->). simpl in He. lia.
Qed.

Lemma heads_content i ss :
  (entry_row <$> heads i ss) ++ concat (tail <$> ss) ≡ₚ concat ss.
Proof.
  revert i. induction ss as [|[|r s] ss IH]; intros i; simpl; [done|apply IH|].
  constructor. rewrite <-(IH (S i)). rewrite !app_assoc.
  apply Permutation_app_tail, Permutation_app_comm.
Qed.

Lemma prime_loop_spec i todo h :
  heap_ok h →
  ∃ h', prime_loop cmp i todo h = Some (tail <$> todo, h') ∧ heap_ok h' ∧ h' ≡ₚ h ++ heads i todo.
Proof.
  revert i h. induction todo as [|[|r s] todo IH]; intros i h Hok; simpl.
  - exists h. by rewrite app_nil_r.
  - destruct (IH (S i) h Hok) as (h' & -> & ? & ?). by exists h'.
  - destruct (sift_up_spec (length (h ++ [MkEntry r i])) (h ++ [MkEntry r i])
      (length (h ++ [MkEntry r i]) - 1)) as (h1 & -> & Hok1 & Hp1).
    + rewrite length_app. simpl. rewrite Nat.add_sub. by apply heap_up_snoc.
    + rewrite length_app. simpl. lia.
    + rewrite length_app. simpl. lia.
    + cbn [mbind option_bind]. destruct (IH (S i) h1 Hok1) as (h' & -> & Hok' & Hp').
      exists h'. split_and!; [done..|]. by rewrite Hp', Hp1, <-app_assoc.
Qed.

(** ** One pull *)

Definition wsorted (l : list Row) : Prop := StronglySorted rle l.

Definition content (m : MergeSorted Row) : list Row := (entry_row <$> heap m) ++ concat (streams m).

Record merge_inv (m : MergeSorted Row) : Prop := {
  mi_primed : primed m = true;
  mi_heap : heap_ok (heap m);
  mi_idx : NoDup (entry_idx <$> heap m);
  mi_entry e : e ∈ heap m → ∃ s, streams m !! entry_idx e = Some s ∧ wsorted (entry_row e :: s);
  mi_stream i s : streams m !! i = Some s → s ≠ [] → i ∈ entry_idx <$> heap m
}.

Lemma prime_inv ss :
  Forall wsorted ss →
  ∃ m, prime cmp (MkMerge ss [] true) = Some m ∧ merge_inv m ∧ content m ≡ₚ concat ss.
Proof.
  intros Hss. unfold prime. simpl. destruct (prime_loop_spec 0 ss [] heap_ok_nil) as (h & -> & Hok & Hp).
  cbn [mbind option_bind]. simpl in Hp. eexists. split; [done|]. split.
  - split; simpl; [done|done|by rewrite Hp; apply heads_nodup|..].
    + intros e He. rewrite Hp in He. apply elem_of_heads in He as (k & r & s & Hk & ->).
      exists s. simpl. rewrite list_lookup_fmap, Hk. split; [done|]. by eapply Forall_lookup_1 in Hss.
    + intros i s Hi Hne. rewrite Hp. rewrite list_lookup_fmap in Hi.
      destruct (ss !! i) as [[|r s']|] eqn:E; simplify_eq/=.
      apply list_elem_of_fmap. exists (MkEntry r i). split; [done|].
      apply elem_of_heads. exists i, r, s. done.
  - unfold content. simpl. rewrite Hp. apply heads_content.
Qed.

Lemma concat_set (ss : list (list Row)) i x s :
  ss !! i = Some (x :: s) → concat ss ≡ₚ x :: concat (<[i := s]> ss).
Proof.
  intros Hi. rewrite <-(take_drop_middle ss i (x :: s) Hi) at 1.
  pose proof (lookup_lt_Some _ _ _ Hi). rewrite insert_take_drop by done.
  rewrite !concat_app. simpl. by rewrite <-Permutation_middle.
Qed.

Lemma wsorted_all x l : wsorted (x :: l) → Forall (rle x) l.
Proof. by intros [_ ?]%StronglySorted_inv. Qed.

(** The root is below everything that is left. *)
Lemma root_below m e h' :
  merge_inv m → heap m = e :: h' → Forall (rle (entry_row e)) (content m).
Proof.
  intros Hi Hh. unfold content. apply Forall_app. split.
  - apply Forall_fmap, Forall_forall. intros x Hx. rewrite Hh in Hx.
    apply (heap_root_min h'); [|done]. rewrite <-Hh. apply Hi.
  - apply Forall_forall. intros x Hx.
    apply list_elem_of_In, in_concat in Hx as (s & Hs%list_elem_of_In & Hx%list_elem_of_In).
    apply list_elem_of_lookup in Hs as [i Hs].
    assert (i ∈ entry_idx <$> heap m) as (e' & -> & He')%list_elem_of_fmap.
    { eapply mi_stream; [done|done|]. intros ->. by apply elem_of_nil in Hx. }
    destruct (mi_entry _ Hi e' He') as (s' & Hs' & Hsort). simplify_eq.
    apply wsorted_all in Hsort. rewrite Forall_forall in Hsort.
    eapply rle_trans; [|by apply Hsort]. rewrite Hh in He'.
    apply (heap_root_min h'); [|done]. rewrite <-Hh. apply Hi.
Qed.

Lemma merge_next_refill m e h' r s :
  merge_inv m → heap m = e :: h' → streams m !! entry_idx e = Some (r :: s) →
  ∃ m', merge_next cmp m = Some (Some (entry_row e), m') ∧ merge_inv m' ∧
    content m ≡ₚ entry_row e :: content m'.
Proof.
  intros Hi Hh Hs. unfold merge_next. rewrite (mi_primed _ Hi). cbn [mbind option_bind].
  rewrite Hh, Hs. cbn [mbind option_bind]. set (e' := MkEntry r (entry_idx e)).
  destruct (sift_down_spec (S (length (e :: h'))) (e' :: h') 0) as (h2 & -> & Hok2 & Hp2);
    [apply (heap_down_root h' e); rewrite <-Hh; apply Hi|simpl; lia|simpl; lia|].
  cbn [mbind option_bind]. eexists. split; [done|].
  pose proof (mi_idx _ Hi) as Hnd. rewrite Hh in Hnd. pose proof Hnd as [Hni _]%NoDup_cons. split.
  - split; simpl; [apply Hi|done|by rewrite Hp2| |].
    + intros x Hx. rewrite Hp2 in Hx. apply elem_of_cons in Hx as [->|Hx]; simpl.
      * rewrite list_lookup_insert_eq by (by eapply lookup_lt_Some). exists s. split; [done|].
        destruct (mi_entry _ Hi e) as (s' & Hs' & Hsort); [rewrite Hh; by left|]. simplify_eq.
        by apply StronglySorted_inv in Hsort as [? _].
      * rewrite list_lookup_insert_ne.
        -- apply (mi_entry _ Hi). rewrite Hh. by right.
        -- intros He. apply Hni. rewrite He. by apply list_elem_of_fmap_2.
    + intros i s' Hs' Hne. rewrite Hp2. simpl. destruct (decide (i = entry_idx e)) as [->|Hd]; [by left|].
      rewrite list_lookup_insert_ne in Hs' by done.
      pose proof (mi_stream _ Hi i s' Hs' Hne) as Hin. by rewrite Hh in Hin.
  - unfold content. simpl. rewrite Hh, Hp2. simpl. constructor.
    rewrite (concat_set _ _ _ _ Hs). by rewrite <-Permutation_middle.
Qed.

Lemma merge_next_shrink m e h' :
  merge_inv m → heap m = e :: h' → streams m !! entry_idx e = Some [] →
  ∃ m', merge_next cmp m = Some (Some (entry_row e), m') ∧ merge_inv m' ∧
    content m ≡ₚ entry_row e :: content m'.
Proof.
  intros Hi Hh Hs. unfold merge_next. rewrite (mi_primed _ Hi). cbn [mbind option_bind].
  rewrite Hh, Hs. cbn [mbind option_bind].
  assert (∃ m', (tail_entry ← last (e :: h');
      match removelast (e :: h') with
      | [] => Some (Some (entry_row tail_entry), MkMerge (streams m) [] (primed m))
      | root :: rest =>
          h ← sift_down cmp (S (length (removelast (e :: h')))) (tail_entry :: rest) 0;
          Some (Some (entry_row root), MkMerge (streams m) h (primed m))
      end) = Some (Some (entry_row e), m') ∧
      streams m' = streams m ∧ primed m' = primed m ∧ heap_ok (heap m') ∧ heap m' ≡ₚ h')
    as (m' & -> & Hst & Hpr & Hok & Hp).
  { destruct h' as [|x h'' _] using rev_ind.
    { eexists. split; [done|]. split_and!; [done..|apply heap_ok_nil|done]. }
    rewrite app_comm_cons, last_snoc, removelast_last. cbn [mbind option_bind].
    pose proof (mi_heap _ Hi) as Hheap. rewrite Hh, app_comm_cons in Hheap. apply heap_ok_init in Hheap.
    destruct (sift_down_spec (S (length (e :: h''))) (x :: h'') 0) as (h2 & -> & Hok2 & Hp2);
      [by apply (heap_down_root h'' e)|simpl; lia|simpl; lia|].
    eexists. split; [done|]. split_and!; [done..|]. simpl. rewrite Hp2. by rewrite <-Permutation_cons_append. }
  exists m'. split; [done|]. pose proof (mi_idx _ Hi) as Hnd. rewrite Hh in Hnd.
  pose proof Hnd as [Hni Hnd']%NoDup_cons. split.
  - split; [by rewrite Hpr; apply Hi|done|by rewrite Hp| |].
    + intros x Hx. rewrite Hst. apply (mi_entry _ Hi). rewrite Hh. right. by rewrite <-Hp.
    + intros i s Hs' Hne. rewrite Hst in Hs'. pose proof (mi_stream _ Hi i s Hs' Hne) as Hin.
      rewrite Hp. rewrite Hh in Hin. apply elem_of_cons in Hin as [->|Hin]; [|done].
      rewrite Hs in Hs'. by simplify_eq.
  - unfold content. by rewrite Hh, Hst, Hp.
Qed.

(** Draining a primed merge yields its contents in order. *)
Lemma merge_drain_spec fuel m :
  merge_inv m → length (content m) < fuel →
  ∃ l, merge_drain cmp fuel m = Some l ∧ wsorted l ∧ l ≡ₚ content m.
Proof.
  revert m. induction fuel as [|fuel IH]; intros m Hi Hf; [lia|]. cbn [merge_drain].
  destruct (heap m) as [|e h'] eqn:Hh.
  - exists []. unfold merge_next. rewrite (mi_primed _ Hi). cbn [mbind option_bind]. rewrite Hh.
    split_and!; [done|constructor|]. unfold content. rewrite Hh. simpl.
    assert (concat (streams m) = []) as ->; [|done].
    apply concat_nil_Forall, Forall_forall. intros s Hs.
    apply list_elem_of_lookup in Hs as [i Hs]. destruct s as [|x s]; [done|].
    pose proof (mi_stream _ Hi i (x :: s) Hs ltac:(done)) as Hin. rewrite Hh in Hin.
    by apply elem_of_nil in Hin.
  - destruct (mi_entry _ Hi e) as (s & Hs & _); [rewrite Hh; by left|].
    assert (∃ m', merge_next cmp m = Some (Some (entry_row e), m') ∧ merge_inv m' ∧
      content m ≡ₚ entry_row e :: content m') as (m' & -> & Hi' & Hc).
    { destruct s as [|r s]; [by eapply merge_next_shrink|by eapply merge_next_refill]. }
    cbn [mbind option_bind]. destruct (IH m' Hi') as (l & -> & Hl & Hp).
    { rewrite Hc in Hf. simpl in Hf. lia. }
    eexists. split; [done|]. split; [|by rewrite Hc, Hp].
    constructor; [done|]. rewrite Hp. pose proof (root_below m e h' Hi Hh) as Hb.
    rewrite Hc in Hb. by apply Forall_cons in Hb as [_ ?].
Qed.

Lemma merge_streams_spec ss :
  Forall wsorted ss →
  ∃ l, merge_streams cmp ss = Some l ∧ wsorted l ∧ l ≡ₚ concat ss.
Proof.
  intros Hss. unfold merge_streams. destruct (prime_inv ss Hss) as (m & Hm & Hi & Hc).
  destruct (merge_drain_spec (S (length (concat ss))) m Hi) as (l & Hl & Hsl & Hp).
  { rewrite Hc. lia. }
  exists l. split_and!; [|done|by rewrite Hp].
  assert (merge_next cmp (MkMerge ss [] false) = merge_next cmp m) as Hn.
  { unfold merge_next. simpl. rewrite Hm, (mi_primed _ Hi). done. }
  rewrite <-Hl. cbn [merge_drain]. by rewrite Hn.
Qed.
End heap_facts.

(** Merging sorted streams never panics, terminates, and yields every row
    of every stream exactly once, in order. *)
Theorem merge_sorted_streams_spec (ss : list (list row)) (sort : Sort) (reverse : bool) :
  let le a b := compare_rows_rev sort reverse a b ≠ Gt in
  Forall (StronglySorted le) ss →
  ∃ out, merge_sorted_streams ss sort reverse = Some out ∧ StronglySorted le out ∧ out ≡ₚ concat ss.
Proof. intros le Hss. by apply (merge_streams_spec (compare_rows_rev sort reverse)). Qed.

Lemma merge_sorted_streams_spec_witness :
  let r k := [Int (i64_of_Z k)] in
  let ss := [[r 1; r 4]; []; [r 2; r 3]]%Z in
  ∃ out, merge_sorted_streams ss [(0, true)] false = Some out ∧
    StronglySorted (λ a b, compare_rows_rev [(0, true)] false a b ≠ Gt) out ∧ out ≡ₚ concat ss.
Proof.
  intros r ss. apply merge_sorted_streams_spec. repeat constructor; vm_compute; discriminate.
Defined.
