(* ===== verification/Push.v ===== *)
(** * Pushing a change through a source ([rust/src/source_common.rs])

    The eager push: the predicate-filtered change of each connection, the
    fan-out over the push candidates with the live overlay and the epoch gate,
    the edit split, the consistency check and the write after the drain.

    The callbacks a backend passes in are a typeclass: what a source must
    provide and obey.  A push to a connection's output is an event of the log,
    with the source state a reentrant fetch made during it would read.
    [debug_assert!]s are absent, as in a release build. *)

From stdpp Require Import base list numbers option sorting gmap sets strings.
From Stdlib Require Import ZArith Lia.
From S2P Require Import Prelude Values Rows BTree BTreeFacts BTreeCursor Change PushIndex Connections Overlay Errors.

(** ** The backend interface *)

(** The kinds of [ConsistencyViolation]. *)
Definition kind_add_exists : string := "ADD row already exists".
Definition kind_remove_missing : string := "REMOVE row not found".
Definition kind_edit_missing : string := "EDIT old row not found".

(** The callbacks [exists], [set_overlay], [write] and [next_epoch], in their
    infallible and fallible forms, and the connection table the state holds;
    [None] is a panic. *)
Class SourceBackend (St : Type) := {
  sb_table : St → ConnTable;
  sb_with_table : St → ConnTable → St;
  sb_overlay : St → option Overlay;
  sb_set_overlay : St → option Overlay → St;
  sb_exists : St → row → option bool;
  sb_try_exists : St → row → option (RindleError + bool);
  sb_write : St → source_change → option St;
  sb_try_write : St → source_change → option (RindleError + St);
  sb_next_epoch : St → option (Z * St)
}.

(** What a backend promises: the parts of its state are independent. *)
Class SourceBackendLaws (St : Type) `{!SourceBackend St} : Prop := {
  sbl_table s t : sb_table (sb_with_table s t) = t;
  sbl_table_overlay s o : sb_table (sb_set_overlay s o) = sb_table s;
  sbl_overlay s o : sb_overlay (sb_set_overlay s o) = o;
  sbl_overlay_table s t : sb_overlay (sb_with_table s t) = sb_overlay s;
  sbl_overlay_twice s o o' : sb_set_overlay (sb_set_overlay s o) o' = sb_set_overlay s o';
  sbl_table_twice s t t' : sb_with_table (sb_with_table s t) t' = sb_with_table s t';
  sbl_table_self s : sb_with_table s (sb_table s) = s;
  sbl_overlay_self s : sb_set_overlay s (sb_overlay s) = s;
  sbl_comm s t o : sb_with_table (sb_set_overlay s o) t = sb_set_overlay (sb_with_table s t) o
}.

(** ** Predicate-filtered push *)

Definition filter_push (c : source_change) (pred : option RowPredicate) : option source_change :=
  match pred with
  | None => Some c
  | Some p =>
      match c with
      | SAdd r => if p r then Some (SAdd r) else None
      | SRemove r => if p r then Some (SRemove r) else None
      | SEdit r old =>
          let old_present := p old in
          let new_present := p r in
          if old_present && new_present then Some (SEdit r old)
          else if old_present then Some (SRemove old)
          else if new_present then Some (SAdd r)
          else None
      end
  end.

Definition conn_predicate (c : Connection) : option RowPredicate := predicate <$> filters c.

Section push.
Context {St : Type} `{!SourceBackend St}.

(** A push: the slot, the change it receives, and the state meanwhile. *)
Definition push_log : Type := list (nat * source_change * St).

(** The body of the fan-out loop for one candidate slot. *)
Definition visit (s : St) (c : source_change) (e : Z) (slot : nat) : option (St * push_log) :=
  conn ← conns (sb_table s) !! slot;
  match output conn with
  | None => Some (s, [])
  | Some _ =>
      t ← set_epoch (sb_table s) slot e;
      let s := sb_set_overlay (sb_with_table s t) (Some (MkOverlay e c)) in
      match filter_push c (conn_predicate conn) with
      | Some sc => Some (s, [(slot, sc, s)])
      | None => Some (s, [])
      end
  end.

Fixpoint fan_out (s : St) (c : source_change) (e : Z) (slots : list nat) : option (St * push_log) :=
  match slots with
  | [] => Some (s, [])
  | slot :: slots =>
      '(s, l1) ← visit s c e slot;
      '(s, l2) ← fan_out s c e slots;
      Some (s, l1 ++ l2)
  end.

Definition gen_push (s : St) (c : source_change) (e : Z) : option (St * push_log) :=
  candidates ← table_push_candidates (sb_table s) c;
  '(s, log) ← fan_out s c e candidates;
  Some (sb_set_overlay s None, log).

Definition gen_push_and_write (s : St) (c : source_change) (e : Z) : option (St * push_log) :=
  '(s, log) ← gen_push s c e;
  s ← sb_write s c;
  Some (s, log).

(** [any(|k| !values_equal(row.col(k), old.col(k)))]. *)
Definition split_key_changed (r old : row) (k : nat) : option bool :=
  x ← r !! k; y ← old !! k; b ← values_equal x y; Some (negb b).

Fixpoint try_any (f : nat → option bool) (l : list nat) : option bool :=
  match l with
  | [] => Some false
  | k :: l' => b ← f k; if (b : bool) then Some true else try_any f l'
  end.

Definition should_split_edit (t : ConnTable) (r old : row) : option bool :=
  if has_split_edit_keys t
  then try_any (split_key_changed r old) (table_split_edit_keys t)
  else Some false.

Definition gen_push_and_write_with_split_edit (s : St) (c : source_change) : option (St * push_log) :=
  let whole s :=
    '(e, s) ← sb_next_epoch s; gen_push_and_write s c e in
  match c with
  | SEdit r old =>
      split ← should_split_edit (sb_table s) r old;
      if (split : bool) then
        '(e1, s) ← sb_next_epoch s;
        '(s, l1) ← gen_push_and_write s (SRemove old) e1;
        '(e2, s) ← sb_next_epoch s;
        '(s, l2) ← gen_push_and_write s (SAdd r) e2;
        Some (s, l1 ++ l2)
      else whole s
  | _ => whole s
  end.

(** ** The fallible siblings *)

(** An error leaves with the state and the log reached so far. *)
Definition try_result : Type := St * push_log * (RindleError + unit).

Definition assert_change_existence_checked (s : St) (c : source_change) (strict : bool) :
    option (RindleError + unit) :=
  let check (ok : bool) (kind : string) : RindleError + unit :=
    if ok then inr tt else if strict then inl (ConsistencyViolation kind) else inr tt in
  let test (r : row) (flip : bool) (kind : string) : option (RindleError + unit) :=
    match sb_try_exists s r with
    | None => None
    | Some (inl err) => Some (inl err)
    | Some (inr b) => Some (check (xorb b flip) kind)
    end in
  match c with
  | SAdd r => test r true kind_add_exists
  | SRemove r => test r false kind_remove_missing
  | SEdit _ old => test old false kind_edit_missing
  end.

Definition try_gen_push (s : St) (c : source_change) (e : Z) (strict : bool) : option try_result :=
  match assert_change_existence_checked s c strict with
  | None => None
  | Some (inl err) => Some (s, [], inl err)
  | Some (inr _) =>
      candidates ← table_push_candidates (sb_table s) c;
      '(s, log) ← fan_out s c e candidates;
      Some (sb_set_overlay s None, log, inr tt)
  end.

Definition try_gen_push_and_write (s : St) (c : source_change) (e : Z) (strict : bool) :
    option try_result :=
  match try_gen_push s c e strict with
  | None => None
  | Some (s, log, inl err) => Some (s, log, inl err)
  | Some (s, log, inr _) =>
      match sb_try_write s c with
      | None => None
      | Some (inl err) => Some (s, log, inl err)
      | Some (inr s) => Some (s, log, inr tt)
      end
  end.

Definition try_gen_push_and_write_with_split_edit (s : St) (c : source_change) (strict : bool) :
    option try_result :=
  let whole s :=
    '(e, s) ← sb_next_epoch s; try_gen_push_and_write s c e strict in
  match c with
  | SEdit r old =>
      split ← should_split_edit (sb_table s) r old;
      if (split : bool) then
        '(e1, s) ← sb_next_epoch s;
        match try_gen_push_and_write s (SRemove old) e1 strict with
        | None => None
        | Some (s, l1, inl err) => Some (s, l1, inl err)
        | Some (s, l1, inr _) =>
            '(e2, s) ← sb_next_epoch s;
            match try_gen_push_and_write s (SAdd r) e2 strict with
            | None => None
            | Some (s, l2, res) => Some (s, l1 ++ l2, res)
            end
        end
      else whole s
  | _ => whole s
  end.
End push.

(** ** Filtering a change commutes with applying it *)

Section filtered.
Context (cmp : row → row → comparison) `{!TotalCmp cmp} (p : RowPredicate).

Definition apply_source_change (c : source_change) (l : list row) : list row :=
  match c with
  | SAdd r => sl_insert cmp r l
  | SRemove r => sl_delete cmp r l
  | SEdit r old => sl_insert cmp r (sl_delete cmp old l)
  end.

(** A change the stored rows allow: what it removes is stored, what it adds
    ties with no row that stays. *)
Definition change_valid (c : source_change) (l : list row) : Prop :=
  match c with
  | SAdd r => sl_find cmp r l = None
  | SRemove r => r ∈ l
  | SEdit r old => old ∈ l ∧ sl_find cmp r (sl_delete cmp old l) = None
  end.

Lemma keep_sublist_above x l : Forall (λ y, cmp x y = Lt) l → Forall (λ y, cmp x y = Lt) (keep p l).
Proof. intros H. rewrite Forall_forall in H |- *. intros y [_ Hy]%list_elem_of_filter. auto. Qed.

Lemma keep_sl_insert r l :
  ssorted cmp l → sl_find cmp r l = None →
  keep p (sl_insert cmp r l) = if p r then sl_insert cmp r (keep p l) else keep p l.
Proof.
  induction 1 as [|x l Hs IH Hx]; cbn [sl_insert sl_find]; [by rewrite keep_cons; destruct (p r)|].
  destruct (cmp x r) eqn:E; simpl; intros Hf; [done|..].
  - rewrite !keep_cons, IH by done. destruct (p x); [|done].
    destruct (p r); [|done]. cbn [sl_insert]. by rewrite E.
  - rewrite (keep_cons p r). destruct (p r); [|done].
    rewrite (sl_insert_below cmp); [done|]. apply keep_sublist_above. apply (cmp_gt_lt cmp) in E.
    constructor; [done|]. eapply Forall_impl; [exact Hx|]. intros y Hy.
    by apply (cmp_lt_trans r x y).
Qed.

Lemma keep_sl_delete y l :
  ssorted cmp l → y ∈ l →
  keep p (sl_delete cmp y l) = if p y then sl_delete cmp y (keep p l) else keep p l.
Proof.
  intros Hs Hy. assert (∀ x, x ∈ l → cmp x y = Eq → x = y) as Htie.
  { intros x Hx He. by apply (ssorted_tie cmp l). }
  clear Hs. induction l as [|x l IH]; [by apply elem_of_nil in Hy|]. cbn [sl_delete].
  assert (cmp x y ≠ Eq → y ∈ l) as Hin.
  { intros Hne. apply elem_of_cons in Hy as [->|]; [by rewrite cmp_refl in Hne|done]. }
  assert (∀ z, z ∈ l → cmp z y = Eq → z = y) as Htie' by (intros z Hz; apply Htie; by right).
  destruct (cmp x y) eqn:E.
  - rewrite (Htie x) in * by (by left || done). rewrite keep_cons. destruct (p y); [|done].
    cbn [sl_delete]. by rewrite cmp_refl.
  - rewrite !keep_cons, IH by auto. destruct (p x); [|done]. destruct (p y); [|done].
    cbn [sl_delete]. by rewrite E.
  - rewrite !keep_cons, IH by auto. destruct (p x); [|done]. destruct (p y); [|done].
    cbn [sl_delete]. by rewrite E.
Qed.

Lemma filter_push_keep c l :
  ssorted cmp l → change_valid c l →
  keep p (apply_source_change c l) =
    match filter_push c (Some p) with
    | Some c' => apply_source_change c' (keep p l)
    | None => keep p l
    end.
Proof.
  intros Hs Hv. destruct c as [r|r|r old]; simpl in *.
  - rewrite keep_sl_insert by done. by destruct (p r).
  - rewrite keep_sl_delete by done. by destruct (p r).
  - destruct Hv as [Hin Hf]. rewrite keep_sl_insert, keep_sl_delete by (done || by apply sl_delete_sorted).
    by destruct (p r), (p old).
Qed.
End filtered.

(** The change a filtered connection receives is exact: applied to the
    rows the connection showed before, it gives the rows its predicate accepts
    afterwards, and no change is sent only when these are the same. *)
Theorem filter_push_commutes (cmp : row → row → comparison) (Hcmp : TotalCmp cmp)
    (p : RowPredicate) (c : source_change) (l : list row) :
  ssorted cmp l → change_valid cmp c l →
  keep p (apply_source_change cmp c l) =
    match filter_push c (Some p) with
    | Some c' => apply_source_change cmp c' (keep p l)
    | None => keep p l
    end.
Proof. by apply filter_push_keep. Qed.

Lemma filter_push_commutes_witness :
  let r k v := [Int (i64_of_Z k); Int (i64_of_Z v)] in
  let cmp := row_cmp [(0, true)] in
  let p x := bool_decide (x !! 1 = Some (Int (i64_of_Z 0))) in
  let l := [r 1 0; r 2 1]%Z in
  keep p (apply_source_change cmp (SEdit (r 2 0) (r 2 1))%Z l) = [r 1 0; r 2 0]%Z.
Proof.
  intros r cmp p l. rewrite (filter_push_commutes cmp (row_cmp_total _)).
  - vm_compute. reflexivity.
  - repeat constructor.
  - split; [right; left|vm_compute; reflexivity].
Defined.

(** ** The fan-out *)

(** The table after the epochs of the wired slots among [slots] were set. *)
Definition bump (e : Z) (t : ConnTable) (slot : nat) : ConnTable :=
  match conns t !! slot with
  | Some conn =>
      match output conn with
      | Some _ => MkTable (<[slot := with_epoch conn e]> (conns t)) (gens t) (free t) (index t)
      | None => t
      end
  | None => t
  end.

Definition bumps (e : Z) (t : ConnTable) (slots : list nat) : ConnTable := foldl (bump e) t slots.

(** What a slot receives of a change: nothing when it is not wired. *)
Definition slot_change (t : ConnTable) (c : source_change) (slot : nat) : option source_change :=
  conn ← conns t !! slot;
  _ ← output conn;
  filter_push c (conn_predicate conn).

Definition wired (t : ConnTable) (slot : nat) : bool :=
  match conns t !! slot with Some conn => bool_decide (is_Some (output conn)) | None => false end.

(** All but the epochs of a connection. *)
Definition conn_static (c : Connection) : Connection := with_epoch c 0.

Lemma bump_static e t i j :
  conn_static <$> conns (bump e t i) !! j = conn_static <$> conns t !! j.
Proof.
  unfold bump. destruct (conns t !! i) as [conn|] eqn:Hc; [|done].
  destruct (output conn); [|done]. simpl. destruct (decide (i = j)) as [<-|Hne].
  - rewrite list_lookup_insert_eq by (by eapply lookup_lt_Some). by rewrite Hc.
  - by rewrite list_lookup_insert_ne.
Qed.

Lemma slot_change_static t c i :
  slot_change t c i =
    (conn ← conn_static <$> conns t !! i; _ ← output conn; filter_push c (conn_predicate conn)).
Proof. unfold slot_change. by destruct (conns t !! i) as [[]|]. Qed.

Lemma slot_change_bump e t c i j : slot_change (bump e t i) c j = slot_change t c j.
Proof. rewrite !slot_change_static. by rewrite bump_static. Qed.

Lemma bump_length e t i : length (conns (bump e t i)) = length (conns t).
Proof.
  unfold bump. destruct (conns t !! i) as [conn|]; [|done].
  destruct (output conn); [|done]. simpl. apply length_insert.
Qed.

Lemma wired_static t i :
  wired t i = match conn_static <$> conns t !! i with
              | Some conn => bool_decide (is_Some (output conn)) | None => false end.
Proof. unfold wired. by destruct (conns t !! i) as [[]|]. Qed.

Lemma wired_bump e t i j : wired (bump e t i) j = wired t j.
Proof. rewrite !wired_static. by rewrite bump_static. Qed.

Section fan_out_facts.
Context {St : Type} `{!SourceBackend St, !SourceBackendLaws St}.
Implicit Types (s : St) (t : ConnTable).

(** The state while a slot is pushed to. *)
Definition during s t c e : St := sb_set_overlay (sb_with_table s t) (Some (MkOverlay e c)).

Lemma visit_spec s c e slot :
  slot < length (conns (sb_table s)) →
  ∃ o, visit s c e slot =
    Some (sb_set_overlay (sb_with_table s (bump e (sb_table s) slot)) o,
      match slot_change (sb_table s) c slot with
      | Some sc => [(slot, sc, during s (bump e (sb_table s) slot) c e)]
      | None => []
      end) ∧
    (wired (sb_table s) slot = false → o = sb_overlay s).
Proof.
  intros Hlt. destruct (lookup_lt_is_Some_2 _ _ Hlt) as [conn Hc].
  unfold visit, slot_change, bump, wired, set_epoch. rewrite Hc. cbn [mbind option_bind].
  destruct (output conn) as [edge|] eqn:Ho; cbn [mbind option_bind].
  - exists (Some (MkOverlay e c)). split; [|by rewrite bool_decide_eq_true_2 by eauto].
    by destruct (filter_push c (conn_predicate conn)).
  - exists (sb_overlay s). split; [|done]. rewrite sbl_table_self. by rewrite sbl_overlay_self.
Qed.

Lemma during_during s t o c e t' :
  during (sb_set_overlay (sb_with_table s t) o) t' c e = during s t' c e.
Proof. unfold during. by rewrite sbl_comm, sbl_overlay_twice, sbl_table_twice. Qed.

(** What the slots receive, in order. *)
Definition deliveries t c (slots : list nat) : list (nat * source_change) :=
  omap (λ i, sc ← slot_change t c i; Some (i, sc)) slots.

Lemma fan_out_spec s c e slots :
  Forall (λ i, i < length (conns (sb_table s))) slots →
  ∃ o log, fan_out s c e slots =
      Some (sb_set_overlay (sb_with_table s (bumps e (sb_table s) slots)) o, log) ∧
    log.*1 = deliveries (sb_table s) c slots ∧
    (∀ i sc s', (i, sc, s') ∈ log → ∃ pre post, slots = pre ++ i :: post ∧
       s' = during s (bumps e (sb_table s) (pre ++ [i])) c e).
Proof.
  revert s. induction slots as [|i slots IH]; intros s Hf; cbn [fan_out].
  { exists (sb_overlay s), []. unfold bumps. simpl. rewrite sbl_table_self, sbl_overlay_self.
    split_and!; [done..|]. intros i sc s' ?%elem_of_nil. done. }
  apply Forall_cons in Hf as [Hi Hf]. destruct (visit_spec s c e i Hi) as (o1 & -> & _).
  cbn [mbind option_bind].
  set (t := sb_table s) in *. set (s1 := sb_set_overlay (sb_with_table s (bump e t i)) o1).
  assert (sb_table s1 = bump e t i) as Ht1 by (unfold s1; by rewrite sbl_table_overlay, sbl_table).
  destruct (IH s1) as (o2 & log & -> & Hlog & Hst).
  { rewrite Ht1, bump_length. done. }
  cbn [mbind option_bind]. rewrite Ht1 in *. exists o2. eexists. split_and!.
  - f_equal. f_equal. unfold s1. by rewrite sbl_comm, sbl_overlay_twice, sbl_table_twice.
  - rewrite fmap_app, Hlog. unfold deliveries. cbn [omap list_omap].
    assert (omap (λ j, sc ← slot_change (bump e t i) c j; Some (j, sc)) slots =
      omap (λ j, sc ← slot_change t c j; Some (j, sc)) slots) as ->.
    { clear. induction slots as [|j slots IH]; [done|]. cbn [omap list_omap].
      by rewrite slot_change_bump, IH. }
    by destruct (slot_change t c i).
  - intros j sc s' [Hin|Hin]%elem_of_app.
    + destruct (slot_change t c i) as [sc'|]; [|by apply elem_of_nil in Hin].
      apply list_elem_of_singleton in Hin. simplify_eq. by exists [], slots.
    + destruct (Hst j sc s' Hin) as (pre & post & -> & ->). exists (i :: pre), post.
      split; [done|]. unfold s1. by rewrite during_during.
Qed.

Lemma gen_push_spec s c e cands :
  table_push_candidates (sb_table s) c = Some cands →
  Forall (λ i, i < length (conns (sb_table s))) cands →
  ∃ log, gen_push s c e =
      Some (sb_set_overlay (sb_with_table s (bumps e (sb_table s) cands)) None, log) ∧
    log.*1 = deliveries (sb_table s) c cands ∧
    (∀ i sc s', (i, sc, s') ∈ log → ∃ pre post, cands = pre ++ i :: post ∧
       s' = during s (bumps e (sb_table s) (pre ++ [i])) c e).
Proof.
  intros Hc Hf. unfold gen_push. rewrite Hc. cbn [mbind option_bind].
  destruct (fan_out_spec s c e cands Hf) as (o & log & -> & Hlog & Hst).
  cbn [mbind option_bind]. exists log. by rewrite sbl_overlay_twice.
Qed.
End fan_out_facts.

(** ** The pruned fan-out is the full one *)

(** Every connection's predicate implies its guard. *)
Definition guards_sound (t : ConnTable) : Prop :=
  ∀ i conn f g r, conns t !! i = Some conn → filters conn = Some f → push_guard f = Some g →
    predicate f r = true →
    ∃ v w, r !! guard_col g = Some v ∧ w ∈ guard_values g ∧ values_identical w v = true.

(** A connection that accepts neither row of a change receives nothing. *)
Lemma filter_push_rejects c p :
  (∀ r, r ∈ change_rows c → p r = false) → filter_push c (Some p) = None.
Proof.
  intros H. destruct c as [r|r|r old]; simpl in *.
  - by rewrite (H r) by (by left).
  - by rewrite (H r) by (by left).
  - rewrite (H r) by (by left). by rewrite (H old) by (right; by left).
Qed.

Lemma candidates_exact t live dead c cands :
  conn_reach t live dead → change_wide (index t) c → guards_sound t →
  table_push_candidates t c = Some cands →
  StronglySorted (<) cands ∧ Forall (λ i, i < length (conns t)) cands ∧
  ∀ i, i < length (conns t) → i ∉ cands → slot_change t c i = None.
Proof.
  intros Hr Hw Hg Hc. pose proof (conn_reach_ok _ _ _ Hr) as Hok.
  destruct (to_index _ _ _ Hok) as (regs & Hreach & Hregs).
  destruct (push_candidates_spec regs (index t) c (index_reach_ok _ _ Hreach) Hw)
    as (out & Hout & Hs & Hcand).
  unfold table_push_candidates in Hc. simplify_eq. split_and!; [done|..].
  - apply Forall_forall. intros i (g & ks & Hi & _)%Hcand. rewrite Hregs in Hi. unfold reg_at in Hi.
    case_decide; [done|]. destruct (conns t !! i) eqn:E; [|done]. by eapply lookup_lt_Some.
  - intros i Hi Hn. destruct (lookup_lt_is_Some_2 _ _ Hi) as [conn Hconn].
    unfold slot_change. rewrite Hconn. cbn [mbind option_bind].
    destruct (output conn) as [edge|] eqn:Ho; [|done]. cbn [mbind option_bind].
    destruct (decide (i ∈ free t)) as [Hf|Hf].
    { destruct (to_free _ _ _ Hok i Hf) as (conn' & ? & ?). by simplify_eq. }
    assert (regs !! i = Some (conn_reg conn)) as Hreg.
    { rewrite Hregs. unfold reg_at. rewrite decide_False by done. by rewrite Hconn. }
    destruct (conn_guard conn) as [g|] eqn:Hgd.
    2: { exfalso. apply Hn, Hcand. exists None, (split_edit_keys conn).
         unfold conn_reg in Hreg. by rewrite Hgd in Hreg. }
    unfold conn_guard in Hgd. unfold conn_predicate.
    destruct (filters conn) as [f|] eqn:Hfl; [|done]. simpl in Hgd |- *.
    apply filter_push_rejects. intros r Hin. destruct (predicate f r) eqn:Hp; [|done]. exfalso.
    destruct (Hg i conn f g r Hconn Hfl Hgd Hp) as (v & w & ? & ? & ?).
    apply Hn, Hcand. exists (Some g), (split_edit_keys conn). split.
    + rewrite Hreg. unfold conn_reg, conn_guard. by rewrite Hfl; simpl; rewrite Hgd.
    + by exists r, v, w.
Qed.

Lemma bumps_lookup e t slots j conn :
  conns t !! j = Some conn →
  ∃ conn', conns (bumps e t slots) !! j = Some conn' ∧
    last_pushed_epoch conn' =
      (if decide (wired t j = true ∧ j ∈ slots) then e else last_pushed_epoch conn).
Proof.
  revert t conn. induction slots as [|i slots IH]; intros t conn Hj; simpl.
  { exists conn. split; [done|]. rewrite decide_False; [done|]. intros [_ ?%elem_of_nil]. done. }
  assert (∃ c1, conns (bump e t i) !! j = Some c1 ∧ last_pushed_epoch c1 =
    if decide (wired t j = true ∧ j = i) then e else last_pushed_epoch conn) as (c1 & Hc1 & He1).
  { unfold bump, wired. rewrite Hj. destruct (decide (i = j)) as [->|Hne].
    - rewrite Hj. destruct (output conn) eqn:Ho.
      + simpl. rewrite list_lookup_insert_eq by (by eapply lookup_lt_Some).
        eexists. split; [done|]. by rewrite decide_True by done.
      + exists conn. split; [done|]. rewrite decide_False; [done|].
        rewrite bool_decide_eq_false_2 by (by intros []). by intros [].
    - exists conn. split; [|rewrite decide_False; [done|naive_solver]].
      destruct (conns t !! i) as [ci|]; [|done]. destruct (output ci); [|done].
      simpl. by rewrite list_lookup_insert_ne. }
  destruct (IH _ _ Hc1) as (c2 & Hc2 & He2). exists c2. split; [done|].
  rewrite He2, wired_bump, He1. repeat case_decide; set_solver.
Qed.

(** Skipping slots that receive nothing changes nothing. *)
Lemma omap_skip {A} (f : nat → option A) l k n :
  StronglySorted (<) l → Forall (λ i, k ≤ i < k + n) l →
  (∀ i, k ≤ i < k + n → i ∉ l → f i = None) → omap f l = omap f (seq k n).
Proof.
  revert l k. induction n as [|n IH]; intros l k Hs Hf Hn.
  { destruct l as [|i l]; [done|]. apply Forall_cons in Hf as [Hf _]. lia. }
  cbn [seq]. assert (∀ l', StronglySorted (<) l' → Forall (λ i, k < i < k + S n) l' →
    (∀ i, k < i < k + S n → i ∉ l' → f i = None) → omap f l' = omap f (seq (S k) n)) as Hrec.
  { intros l' Hs' Hf' Hn'. apply IH; [done|..].
    - eapply Forall_impl; [exact Hf'|]. simpl. intros; lia.
    - intros i Hi. apply Hn'. lia. }
  destruct (decide (k ∈ l)) as [Hk|Hk].
  - destruct l as [|x l]; [by apply elem_of_nil in Hk|].
    apply StronglySorted_inv in Hs as [Hs Hx]. apply Forall_cons in Hf as [Hxk Hf].
    assert (x = k) as ->.
    { apply elem_of_cons in Hk as [?|Hk]; [done|]. rewrite Forall_forall in Hx. specialize (Hx k Hk). lia. }
    cbn [omap list_omap]. rewrite (Hrec l); [done|done|..].
    + rewrite Forall_forall in Hf, Hx |- *. intros i Hi. specialize (Hf i Hi). specialize (Hx i Hi). lia.
    + intros i Hi Hin. apply Hn; [lia|]. apply not_elem_of_cons. split; [lia|done].
  - cbn [omap list_omap]. rewrite (Hn k) by (lia || done). apply Hrec; [done|..].
    + rewrite Forall_forall in Hf |- *. intros i Hi. specialize (Hf i Hi).
      assert (i ≠ k) by congruence. lia.
    + intros i Hi. apply Hn. lia.
Qed.

(** The candidates of a reachable table, and why the other slots do not matter. *)
Lemma push_slots t live dead c :
  conn_reach t live dead → change_wide (index t) c → guards_sound t →
  ∃ cands, table_push_candidates t c = Some cands ∧ Forall (λ i, i < length (conns t)) cands ∧
    deliveries t c cands = deliveries t c (seq 0 (length (conns t))).
Proof.
  intros Hr Hw Hg. pose proof (conn_reach_ok _ _ _ Hr) as Hok.
  destruct (to_index _ _ _ Hok) as (regs & Hreach & Hregs).
  destruct (push_candidates_spec regs _ c (index_reach_ok _ _ Hreach) Hw) as (cands & Hc & _).
  destruct (candidates_exact _ _ _ c cands Hr Hw Hg Hc) as (Hs & Hf & Hn).
  exists cands. split_and!; [done|done|]. unfold deliveries. apply omap_skip; [done|..].
  - eapply Forall_impl; [exact Hf|]. simpl. intros; lia.
  - intros i Hi Hni. by rewrite (Hn i) by (lia || done).
Qed.

(** Pruning the fan-out is invisible: if every predicate implies its
    guard, a push delivers exactly what visiting every slot in order would, and
    leaves no overlay behind. *)
Theorem gen_push_full_fan_out {St} `{!SourceBackend St} (Hlaws : SourceBackendLaws St) (s : St)
    (live dead : list ConnId) (c : source_change) (e : Z) :
  conn_reach (sb_table s) live dead → change_wide (index (sb_table s)) c → guards_sound (sb_table s) →
  ∃ s' log, gen_push s c e = Some (s', log) ∧
    log.*1 = deliveries (sb_table s) c (seq 0 (length (conns (sb_table s)))) ∧
    sb_overlay s' = None.
Proof.
  intros Hr Hw Hg. destruct (push_slots _ _ _ c Hr Hw Hg) as (cands & Hc & Hf & Hd).
  destruct (gen_push_spec s c e cands Hc Hf) as (log & -> & Hlog & _).
  eexists _, log. split; [done|]. rewrite sbl_overlay, <-Hd. done.
Qed.

(** What a reentrant fetch sees: during the push to a slot the overlay
    carries the change at the push's epoch, and of the connections never pushed
    to at that epoch before, exactly the wired candidates up to this slot pass
    the epoch gate; the stored rows are as before the push. *)
Theorem push_visibility {St} `{!SourceBackend St} (Hlaws : SourceBackendLaws St) (s s1 s' : St)
    (c sc : source_change) (e : Z) (cands : list nat) (log : list (nat * source_change * St))
    (i j : nat) (conn : Connection) :
  table_push_candidates (sb_table s) c = Some cands → NoDup cands →
  Forall (λ i, i < length (conns (sb_table s))) cands →
  gen_push s c e = Some (s1, log) → (i, sc, s') ∈ log →
  conns (sb_table s) !! j = Some conn → (last_pushed_epoch conn < e)%Z →
  sb_overlay s' = Some (MkOverlay e c) ∧
  ∃ conn' pre post, cands = pre ++ i :: post ∧ conns (sb_table s') !! j = Some conn' ∧
    (gate (sb_overlay s') (last_pushed_epoch conn') = Some (MkOverlay e c) ↔
     wired (sb_table s) j = true ∧ j ∈ pre ++ [i]) ∧
    s' = sb_set_overlay (sb_with_table s (sb_table s')) (Some (MkOverlay e c)).
Proof.
  intros Hc Hnd Hf Hp Hin Hj He. destruct (gen_push_spec s c e cands Hc Hf) as (log' & Hp' & _ & Hst).
  simplify_eq. destruct (Hst i sc s' Hin) as (pre & post & -> & ->). unfold during.
  rewrite sbl_overlay, sbl_table_overlay, sbl_table. split; [done|].
  destruct (bumps_lookup e (sb_table s) (pre ++ [i]) j conn Hj) as (conn' & Hj' & Hep).
  exists conn', pre, post. split_and!; [done|done| |done]. unfold gate. simpl. rewrite Hep.
  case_decide as Hd; case_bool_decide as Hle; naive_solver lia.
Qed.

(** ** Splitting edits *)

Lemma try_any_spec (f : nat → option bool) l :
  (∀ k, k ∈ l → f k ≠ None) →
  ∃ b, try_any f l = Some b ∧ (b = true ↔ ∃ k, k ∈ l ∧ f k = Some true).
Proof.
  induction l as [|k l IH]; intros H; simpl.
  { exists false. split; [done|]. split; [done|]. intros (k & ?%elem_of_nil & _). done. }
  destruct (f k) as [[]|] eqn:E; [..|by destruct (H k); [left|]]; cbn [mbind option_bind].
  - exists true. split; [done|]. split; [|done]. intros _. exists k. split; [by left|done].
  - destruct IH as (b & -> & Hb); [intros k' Hk'; apply H; by right|]. exists b. split; [done|].
    rewrite Hb. setoid_rewrite elem_of_cons. naive_solver congruence.
Qed.

(** An edit is split exactly when some connected query lists a key whose
    cells are not join-equal (a null key splits even against a null): then the
    removal of the old row is pushed and written before the addition of the new
    one, each under its own epoch; otherwise the edit is pushed whole. *)
Theorem edit_split_spec {St} `{!SourceBackend St} (s : St) (live dead : list ConnId) (r old : row) :
  conn_reach (sb_table s) live dead →
  (∀ id conn k, id ∈ live → conns (sb_table s) !! cid_idx id = Some conn →
     k ∈ split_edit_keys conn → split_key_changed r old k ≠ None) →
  ∃ b, (b = true ↔ ∃ id conn k, id ∈ live ∧ conns (sb_table s) !! cid_idx id = Some conn ∧
          k ∈ split_edit_keys conn ∧ split_key_changed r old k = Some true) ∧
    gen_push_and_write_with_split_edit s (SEdit r old) =
      if (b : bool) then
        '(e1, s) ← sb_next_epoch s;
        '(s, l1) ← gen_push_and_write s (SRemove old) e1;
        '(e2, s) ← sb_next_epoch s;
        '(s, l2) ← gen_push_and_write s (SAdd r) e2;
        Some (s, l1 ++ l2)
      else
        '(e, s) ← sb_next_epoch s;
        gen_push_and_write s (SEdit r old) e.
Proof.
  intros Hr Hdef. pose proof (conn_reach_ok _ _ _ Hr) as Hok. set (t := sb_table s) in *.
  destruct (to_index _ _ _ Hok) as (regs & Hreach & Hregs).
  destruct (split_keys_spec regs _ (index_reach_ok _ _ Hreach)) as [Hkeys Hhas].
  assert (∀ k, k ∈ table_split_edit_keys t ↔
    ∃ id conn, id ∈ live ∧ conns t !! cid_idx id = Some conn ∧ k ∈ split_edit_keys conn) as Hk.
  { intros k. unfold table_split_edit_keys. rewrite Hkeys. split.
    - intros (i & g & ks & Hi & Hin). rewrite Hregs in Hi. unfold reg_at in Hi. case_decide as Hf; [done|].
      destruct (conns t !! i) as [conn|] eqn:Hc; [|done]. simpl in Hi. unfold conn_reg in Hi. simplify_eq.
      destruct (to_live_all _ _ _ Hok i) as (id & Hid & <-); [by eapply lookup_lt_Some|done|].
      by exists id, conn.
    - intros (id & conn & Hid & Hc & Hin). destruct (to_live _ _ _ Hok id Hid) as [Hf _].
      exists (cid_idx id), (conn_guard conn), (split_edit_keys conn). split; [|done].
      rewrite Hregs. unfold reg_at. rewrite decide_False by done. by rewrite Hc. }
  destruct (try_any_spec (split_key_changed r old) (table_split_edit_keys t)) as (b & Hb & Hbt).
  { intros k (id & conn & ? & ? & ?)%Hk. by eapply Hdef. }
  exists b. split; [rewrite Hbt; setoid_rewrite Hk; naive_solver|].
  unfold gen_push_and_write_with_split_edit, should_split_edit. fold t.
  assert ((if has_split_edit_keys t then try_any (split_key_changed r old) (table_split_edit_keys t)
    else Some false) = Some b) as ->; [|done].
  destruct (has_split_edit_keys t) eqn:Hh; [done|]. f_equal. symmetry. apply not_true_is_false.
  intros (k & Hin & _)%Hbt. unfold table_split_edit_keys in Hin.
  apply Hkeys in Hin as (i & g & ks & Hi & Hin). unfold has_split_edit_keys in Hh.
  assert (has_split_keys (index t) = true) as E; [|by rewrite E in Hh].
  apply Hhas. exists i, g, ks. split; [done|]. intros ->. by apply elem_of_nil in Hin.
Qed.

(** ** The consistency check *)

(** Whether a change is consistent with what exists. *)
Definition change_consistent {St} `{!SourceBackend St} (s : St) (c : source_change) : option (RindleError + bool) :=
  match c with
  | SAdd r => match sb_try_exists s r with
              | Some (inr b) => Some (inr (negb b)) | o => o end
  | SRemove r => sb_try_exists s r
  | SEdit _ old => sb_try_exists s old
  end.

Definition violation_kind (c : source_change) : string :=
  match c with SAdd _ => kind_add_exists | SRemove _ => kind_remove_missing | SEdit _ _ => kind_edit_missing end.

Lemma try_gen_push_and_write_checked {St} `{!SourceBackend St} (s : St) (c : source_change) (e : Z) (strict : bool)
    (res : RindleError + bool) :
  change_consistent s c = Some res →
  (∀ s', sb_try_write s' c = inr <$> sb_write s' c) →
  try_gen_push_and_write s c e strict =
    match res with
    | inl err => Some (s, [], inl err)
    | inr b =>
        if b || negb strict
        then '(s, log) ← gen_push_and_write s c e; Some (s, log, inr tt)
        else Some (s, [], inl (ConsistencyViolation (violation_kind c)))
    end.
Proof.
  intros Hc Hw. unfold try_gen_push_and_write, try_gen_push.
  assert (assert_change_existence_checked s c strict =
    Some (match res with
          | inl err => inl err
          | inr b => if b || negb strict then inr tt else inl (ConsistencyViolation (violation_kind c))
          end)) as ->.
  { destruct c as [r|r|r old]; simpl in *.
    - destruct (sb_try_exists s r) as [[err|b]|]; simplify_eq/=; [done|]. by destruct b, strict.
    - rewrite Hc. destruct res as [err|[]]; [done..|]. by destruct strict.
    - rewrite Hc. destruct res as [err|[]]; [done..|]. by destruct strict. }
  destruct res as [err|b]; [done|]. destruct (b || negb strict); [|done].
  unfold gen_push_and_write, gen_push.
  destruct (table_push_candidates (sb_table s) c) as [cands|]; [|done]. cbn [mbind option_bind].
  destruct (fan_out s c e cands) as [[s1 log]|]; [|done]. cbn [mbind option_bind].
  rewrite Hw. by destruct (sb_write (sb_set_overlay s1 None) c).
Qed.

(** A checked push of a consistent change does what the unchecked push
    does; in strict mode an inconsistent one, and in every mode a failing
    existence check, returns its error before anything is pushed or written. *)
Theorem try_push_checked {St} `{!SourceBackend St} (s : St) (c : source_change) (e : Z) (strict : bool)
    (res : RindleError + bool) :
  change_consistent s c = Some res →
  (∀ s', sb_try_write s' c = inr <$> sb_write s' c) →
  try_gen_push_and_write s c e strict =
    match res with
    | inl err => Some (s, [], inl err)
    | inr b =>
        if b || negb strict
        then '(s, log) ← gen_push_and_write s c e; Some (s, log, inr tt)
        else Some (s, [], inl (ConsistencyViolation (violation_kind c)))
    end.
Proof. apply try_gen_push_and_write_checked. Qed.
