(* ===== verification/MemorySource.v ===== *)
(** * The memory source ([rust/src/memory_source.rs])

    A table held as one B+tree per sort order: the primary index, and the
    indexes built on demand by fetches.  The [HashMap] of indexes is a finite
    map keyed by the sort; [RefCell]s are explicit state; a panic ([expect], an
    index out of range) is [None].  The count
    of open cursors is instrumentation and is left out. *)

From stdpp Require Import base list numbers option sorting gmap sets strings pretty.
From Stdlib Require Import ZArith Lia.
From S2P Require Import Prelude Values Rows Schema BTree BTreeFacts BTreeCursor Change Connections Overlay Errors Merge Push.

Record Index := MkIx { ix_sort : Sort; ix_data : btree row }.

Record MemorySource := MkSource {
  schema : Schema;
  primary_key : list nat;
  primary_index_sort : Sort;
  indexes : gmap (list (nat * bool)) Index;
  ms_conns : ConnTable;
  overlay : option Overlay;
  ms_epoch : Z
}.

Definition with_indexes (s : MemorySource) (m : gmap (list (nat * bool)) Index) : MemorySource :=
  MkSource (schema s) (primary_key s) (primary_index_sort s) m (ms_conns s) (overlay s) (ms_epoch s).
Definition with_conns (s : MemorySource) (t : ConnTable) : MemorySource :=
  MkSource (schema s) (primary_key s) (primary_index_sort s) (indexes s) t (overlay s) (ms_epoch s).
Definition with_overlay (s : MemorySource) (o : option Overlay) : MemorySource :=
  MkSource (schema s) (primary_key s) (primary_index_sort s) (indexes s) (ms_conns s) o (ms_epoch s).

(** ** Construction *)

(** The message about the first row whose width is wrong. *)
Definition width_message (i cells want : nat) : string :=
  "ingest row " +:+ pretty i +:+ " has " +:+ pretty cells +:+ " cells but the schema declares " +:+
  pretty want +:+ " columns".

Fixpoint validate_rows (width : nat) (i : nat) (rows : list row) : RindleError + unit :=
  match rows with
  | [] => inr tt
  | r :: rows => if decide (length r = width) then validate_rows width (S i) rows
                 else inl (schema_violation (width_message i (length r) width))
  end.

(** [slice::sort_by] with [compare_rows]. *)
Definition sort_by (sort : Sort) (rows : list row) : list row :=
  merge_sort (λ a b, row_cmp sort a b ≠ Gt) rows.

Definition try_new (sch : Schema) (initial : list row) : option (RindleError + MemorySource) :=
  match validate_rows (length (columns sch)) 0 initial with
  | inl err => Some (inl err)
  | inr _ =>
      let pk := schema_pk sch in
      let psort := map (λ c, (c, true)) pk in
      let data := sort_by psort initial in
      tree ← btree_from_sorted data;
      Some (inr (MkSource sch pk psort {[psort := MkIx psort tree]} conn_table_new None 0))
  end.

Definition fork (s : MemorySource) : option MemorySource :=
  ix ← indexes s !! primary_index_sort s;
  let data := btree_fork (ix_data ix) in
  Some (MkSource (schema s) (primary_key s) (primary_index_sort s)
    {[primary_index_sort s := MkIx (primary_index_sort s) data]} conn_table_new None 0).

Definition fork_with_indexes (s : MemorySource) : MemorySource :=
  MkSource (schema s) (primary_key s) (primary_index_sort s)
    ((λ ix, MkIx (ix_sort ix) (btree_fork (ix_data ix))) <$> indexes s) conn_table_new None 0.

Definition get_by_pk (s : MemorySource) (probe : row) : option (option row) :=
  ix ← indexes s !! primary_index_sort s;
  btree_get (row_cmp (primary_index_sort s)) (ix_data ix) probe.

(** [cells[*col] = val] for each binding. *)
Fixpoint fill_cells (cells : list value) (bound : list (nat * value)) : option (list value) :=
  match bound with
  | [] => Some cells
  | (c, v) :: bound => if decide (c < length cells) then fill_cells (<[c := v]> cells) bound else None
  end.

Definition lookup_unique (s : MemorySource) (bound : list (nat * value)) : option (option row) :=
  cells ← fill_cells (replicate (length (columns (schema s))) Null) bound;
  get_by_pk s cells.

(** ** Writes *)

Definition exists_row (s : MemorySource) (r : row) : option bool :=
  ix ← indexes s !! primary_index_sort s;
  btree_has (row_cmp (primary_index_sort s)) (ix_data ix) r.

(** One index of [write_change]. *)
Definition write_index (c : source_change) (ix : Index) : option Index :=
  let cmp := row_cmp (ix_sort ix) in
  match c with
  | SAdd r => '(t, _) ← btree_add cmp (ix_data ix) r; Some (MkIx (ix_sort ix) t)
  | SRemove r => '(t, _) ← btree_delete cmp (ix_data ix) r; Some (MkIx (ix_sort ix) t)
  | SEdit r old =>
      '(t, _) ← btree_delete cmp (ix_data ix) old;
      '(t, _) ← btree_add cmp t r;
      Some (MkIx (ix_sort ix) t)
  end.

(** [for index in indexes.values_mut()]. *)
Definition map_indexes (f : Index → option Index) (m : gmap (list (nat * bool)) Index) :
    option (gmap (list (nat * bool)) Index) :=
  l ← mapM (λ ki, i ← f ki.2; Some (ki.1, i)) (map_to_list m);
  Some (list_to_map l).

Definition write_change (s : MemorySource) (c : source_change) : option MemorySource :=
  m ← map_indexes (write_index c) (indexes s);
  Some (with_indexes s m).

(** The same writes, for the read-cache fork: no assertion and no fan-out. *)
Definition apply_change (s : MemorySource) (c : source_change) : option MemorySource :=
  m ← map_indexes (write_index c) (indexes s);
  Some (with_indexes s m).

(** [let e = self.epoch.get() + 1] over [u32]: it wraps in a release build. *)
Definition next_epoch (s : MemorySource) : option (Z * MemorySource) :=
  let e := u32_wrapping_add1 (ms_epoch s) in
  Some (e, MkSource (schema s) (primary_key s) (primary_index_sort s) (indexes s) (ms_conns s) (overlay s) e).

#[export] Instance memory_backend : SourceBackend MemorySource := {|
  sb_table := ms_conns;
  sb_with_table := with_conns;
  sb_overlay := overlay;
  sb_set_overlay := with_overlay;
  sb_exists := exists_row;
  sb_try_exists s r := b ← exists_row s r; Some (inr b);
  sb_write := write_change;
  sb_try_write s c := s ← write_change s c; Some (inr s);
  sb_next_epoch := next_epoch
|}.

#[export] Instance memory_backend_laws : SourceBackendLaws MemorySource.
Proof. by split; intros []. Qed.

Definition push (s : MemorySource) (c : source_change) : option (MemorySource * list (nat * source_change * MemorySource)) :=
  gen_push_and_write_with_split_edit s c.

Definition try_push (s : MemorySource) (c : source_change) (strict : bool) :=
  try_gen_push_and_write_with_split_edit s c strict.

(** ** Connections *)

Definition assert_ordering_includes_pk (sort : Sort) (pk : list nat) : bool :=
  forallb (λ p, existsb (λ s : nat * bool, (s.1 =? p)%nat) sort) pk.

Definition source_connect (s : MemorySource) (sort : option Sort) (fs : option ConnectionFilters)
    (keys : list nat) : option (MemorySource * ConnId) :=
  let is_unordered := match sort with None => true | Some _ => false end in
  let internal_sort := default (primary_index_sort s) sort in
  if is_unordered || assert_ordering_includes_pk internal_sort (primary_key s) then
    '(t, id) ← Connections.connect (ms_conns s) (MkConn internal_sort is_unordered keys fs 0 None);
    Some (with_conns s t, id)
  else None.

Definition source_destroy (s : MemorySource) (id : ConnId) : option MemorySource :=
  t ← Connections.destroy (ms_conns s) id;
  Some (with_conns s t).

Definition set_conn_output (s : MemorySource) (id : ConnId) (edge : OutEdge) : option MemorySource :=
  t ← Connections.set_output (ms_conns s) id edge;
  Some (with_conns s t).

(** ** Reads *)

(** Draining a cursor; one more pull than the tree has rows. *)
Fixpoint collect (fuel : nat) (c : cursor row) : option (list row) :=
  match fuel with
  | O => None
  | S fuel =>
      '(c, r) ← next_row c;
      match r with
      | None => Some []
      | Some x => l ← collect fuel c; Some (x :: l)
      end
  end.

Definition ensure_index (s : MemorySource) (index_sort : Sort) : option MemorySource :=
  match indexes s !! index_sort with
  | Some _ => Some s
  | None =>
      primary ← indexes s !! primary_index_sort s;
      cur ← values_from (ix_data primary) None true;
      rows ← collect (S (size (ix_data primary))) cur;
      data ← btree_from_sorted (sort_by index_sort rows);
      Some (with_indexes s (<[index_sort := MkIx index_sort data]> (indexes s)))
  end.

Definition build_scan_start (c : Constraint) (index_sort : Sort) (reverse : bool) : RowBound :=
  map (λ s : nat * bool, let (col, asc) := s in
         match assoc c col with
         | Some v => (col, Val v)
         | None =>
             (col, if reverse then (if asc then Max else Min)
                   else if asc then Min else Max)
         end) index_sort.

(** [pk_constraint.as_ref().or(req.constraint.as_ref())]. *)
Definition fetch_or_pk (conn : Connection) (req : FetchRequest) : option Constraint :=
  match f ← filters conn; pk_constraint f with
  | Some c => Some c
  | None => req_constraint req
  end.

Definition fetch_index_sort (s : MemorySource) (conn : Connection) (req : FetchRequest) : Sort :=
  let fop := fetch_or_pk conn req in
  let prefix := match fop with Some c => map (λ e : nat * value, (e.1, true)) c | None => [] end in
  if bool_decide (1 < length (primary_key s)) ||
     match fop with
     | None => true
     | Some c => negb (constraint_matches_primary_key c (primary_key s))
     end
  then prefix ++ conn_sort conn
  else prefix.

Definition fetch_single (s : MemorySource) (id : ConnId) (req : FetchRequest) :
    option (MemorySource * list row) :=
  i ← live_ix (ms_conns s) id;
  conn ← conns (ms_conns s) !! i;
  let pred := conn_predicate conn in
  let index_sort := fetch_index_sort s conn req in
  s ← ensure_index s index_sort;
  scan_start ← match fetch_or_pk conn req with
               | Some c => Some (Some (build_scan_start c index_sort (req_reverse req)))
               | None => match start req with
                         | Some st => b ← row_bound_of (start_row st) index_sort; Some (Some b)
                         | None => Some None
                         end
               end;
  ix ← indexes s !! index_sort;
  let bound := bound_cmp index_sort <$> scan_start in
  cur ← (if req_reverse req then values_from_reversed (ix_data ix) bound true
         else values_from (ix_data ix) bound true);
  rows ← collect (S (size (ix_data ix))) cur;
  stream ← generate_with_overlay (start_row <$> start req) rows (req_constraint req) (overlay s)
             (last_pushed_epoch conn) index_sort (req_reverse req) pred [];
  let stream := generate_with_start stream (start req) (conn_sort conn) (req_reverse req) in
  let stream := generate_with_constraint stream (req_constraint req) in
  let stream := match pred with Some p => generate_with_filter stream p | None => stream end in
  Some (s, stream).

(** The sub-fetches of [fetch_multi], in order. *)
Fixpoint fetch_subs (s : MemorySource) (id : ConnId) (req : FetchRequest) (cs : list Constraint) :
    option (MemorySource * list (list row)) :=
  match cs with
  | [] => Some (s, [])
  | c :: cs =>
      let merged := merge_constraints (req_constraint req) c in
      '(s, rows) ← fetch_single s id (MkFetch (Some merged) [] (start req) (req_reverse req));
      '(s, rest) ← fetch_subs s id req cs;
      Some (s, rows :: rest)
  end.

Definition fetch_multi (s : MemorySource) (id : ConnId) (req : FetchRequest) :
    option (MemorySource * list row) :=
  match filter (λ mc, mc ≠ []) (multi_constraints req) with
  | [] => None
  | primary :: rest =>
      '(s, subs) ← fetch_subs s id req primary;
      sort ← table_sort (ms_conns s) id;
      merged ← merge_sorted_streams subs sort (req_reverse req);
      Some (s, if decide (rest = []) then merged
               else keep (λ r, forallb (λ mc, existsb (cmatch r) mc) rest) merged)
  end.

Definition fetch (s : MemorySource) (id : ConnId) (req : FetchRequest) :
    option (MemorySource * list row) :=
  if has_multi req then fetch_multi s id req else fetch_single s id req.
