(* ===== verification/MemorySourceFacts.v ===== *)
(** * The memory source keeps its table in every index

    The abstract state of a memory source is the list of its rows in primary
    key order.  Every index holds these rows; loading, writing, building an
    index, forking and pushing preserve this, and a push keeps the row set each
    connection has seen equal to the rows its predicate accepts. *)

From stdpp Require Import base list numbers option sorting gmap sets.
From Stdlib Require Import ZArith Lia.
From S2P Require Import Prelude Values Rows Schema BTree BTreeFacts BTreeCursor Change PushIndex Connections Overlay Errors Merge Push MemorySource.

(** ** Ties under a sort *)

Lemma row_cmp_Eq sort a b :
  row_cmp sort a b = Eq ↔
    ∀ c asc, (c, asc) ∈ sort → compare_predicate_values (cell a c) (cell b c) = Eq.
Proof.
  induction sort as [|[c asc] sort IH]; simpl.
  { split; [intros _ c asc ?%elem_of_nil|]; done. }
  unfold then_cmp. split.
  - intros H c' asc' [?|Hin]%elem_of_cons; simplify_eq.
    + by destruct (compare_predicate_values (cell a c) (cell b c)), asc.
    + apply IH with asc'; [|done]. by destruct (apply_dir _ asc).
  - intros H. rewrite (H c asc) by (by left). destruct asc; simpl; apply IH;
      intros c' asc' Hin; apply (H c' asc'); by right.
Qed.

(** The sort mentions every column of the key. *)
Definition covers (sort : Sort) (pk : list nat) : Prop := ∀ c, c ∈ pk → c ∈ sort.*1.

Definition pk_sort (pk : list nat) : Sort := map (λ c, (c, true)) pk.

Lemma elem_of_pk_sort pk c asc : (c, asc) ∈ pk_sort pk ↔ c ∈ pk ∧ asc = true.
Proof.
  unfold pk_sort. rewrite list_elem_of_fmap. split.
  - by intros (c' & [= -> ->] & ?).
  - intros [? ->]. by exists c.
Qed.

Lemma pk_sort_covers pk : covers (pk_sort pk) pk.
Proof. intros c Hc. unfold pk_sort. by rewrite <-list_fmap_compose, list_fmap_id. Qed.

Lemma covers_tie sort pk a b :
  covers sort pk → row_cmp sort a b = Eq → row_cmp (pk_sort pk) a b = Eq.
Proof.
  intros Hc Ht. rewrite row_cmp_Eq in Ht |- *. intros c asc [Hin _]%elem_of_pk_sort.
  apply Hc, list_elem_of_fmap in Hin as ([c' asc'] & -> & Hin). by eapply Ht.
Qed.

(** ** Sorted lists as sets *)

Section perm.
Context (cmp : row → row → comparison) `{!TotalCmp cmp}.

Lemma sl_insert_perm k l : sl_find cmp k l = None → sl_insert cmp k l ≡ₚ k :: l.
Proof.
  induction l as [|x l IH]; [done|]. cbn [sl_insert sl_find].
  destruct (cmp x k) eqn:E; simpl; intros Hf; [done| |done].
  rewrite IH by done. apply Permutation_swap.
Qed.

Lemma sl_delete_perm k l : ssorted cmp l → k ∈ l → k :: sl_delete cmp k l ≡ₚ l.
Proof.
  intros Hs Hk. assert (∀ x, x ∈ l → cmp x k = Eq → x = k) as Htie.
  { intros x Hx He. by apply (ssorted_tie cmp l). }
  clear Hs. induction l as [|x l IH]; [by apply elem_of_nil in Hk|]. cbn [sl_delete].
  destruct (cmp x k) eqn:E.
  - by rewrite (Htie x) by (by left || done).
  - rewrite Permutation_swap, IH; [done|..].
    + apply elem_of_cons in Hk as [->|]; [by rewrite cmp_refl in E|done].
    + intros y Hy. apply Htie. by right.
  - rewrite Permutation_swap, IH; [done|..].
    + apply elem_of_cons in Hk as [->|]; [by rewrite cmp_refl in E|done].
    + intros y Hy. apply Htie. by right.
Qed.

(** Sorting rows no two of which tie. *)
Definition unique_by (l : list row) : Prop :=
  ∀ i j x y, i ≠ j → l !! i = Some x → l !! j = Some y → cmp x y ≠ Eq.

Lemma unique_by_cons x l : unique_by (x :: l) → Forall (λ y, cmp x y ≠ Eq) l ∧ unique_by l.
Proof.
  intros H. split.
  - apply Forall_forall. intros y [j Hj]%list_elem_of_lookup. by apply (H 0 (S j)).
  - intros i j y z Hij Hi Hj. apply (H (S i) (S j)); [lia|done..].
Qed.

Lemma unique_by_perm l l' : l ≡ₚ l' → unique_by l → unique_by l'.
Proof.
  intros Hp Hu i j x y Hij Hi Hj. symmetry in Hp. apply Permutation_inj in Hp as [_ (f & Hf & Hl)].
  rewrite Hl in Hi, Hj. apply (Hu (f i) (f j) x y); [|done|done]. intros E. by apply Hij, Hf.
Qed.

Lemma ssorted_unique l : ssorted cmp l → unique_by l.
Proof.
  intros Hs i j x y Hij Hi Hj. destruct (decide (i < j)) as [Hlt|Hge].
  - by rewrite (ssorted_lookup cmp l i j x y).
  - rewrite (cmp_opp y x). rewrite (ssorted_lookup cmp l j i y x) by (done || lia). done.
Qed.
End perm.

#[export] Instance ngt_transitive (cmp : row → row → comparison) `{!TotalCmp cmp} :
  Transitive (λ a b, cmp a b ≠ Gt).
Proof. intros x y z. apply (cmp_ngt_trans cmp). Qed.

#[export] Instance ngt_total (cmp : row → row → comparison) `{!TotalCmp cmp} :
  Total (λ a b, cmp a b ≠ Gt).
Proof. intros x y. rewrite (cmp_opp (cmp:=cmp) x y). destruct (cmp x y); [by left..|by right]. Qed.

Lemma sort_by_perm sort rows : sort_by sort rows ≡ₚ rows.
Proof. apply merge_sort_Permutation. Qed.

Lemma sort_by_sorted sort rows :
  unique_by (row_cmp sort) rows → ssorted (row_cmp sort) (sort_by sort rows).
Proof.
  intros Hu. apply (unique_by_perm _ rows (sort_by sort rows)) in Hu; [|by rewrite sort_by_perm].
  assert (StronglySorted (λ a b, row_cmp sort a b ≠ Gt) (sort_by sort rows)) as Hs.
  { apply (StronglySorted_merge_sort _). }
  unfold ssorted. induction Hs as [|x l Hs IH Hx]; [constructor|].
  apply unique_by_cons in Hu as [Hn Hu]. constructor; [by apply IH|].
  rewrite Forall_forall in Hx, Hn |- *. intros y Hy. specialize (Hx y Hy). specialize (Hn y Hy).
  by destruct (row_cmp sort x y).
Qed.

(** ** The invariant *)

(** An index of the table [L]: a tree in the order of its sort that holds
    exactly the rows of [L]. *)
Record index_holds (pk : list nat) (L : list row) (k : Sort) (ix : Index) : Prop := {
  ih_sort : ix_sort ix = k;
  ih_tree : btree_ok (row_cmp k) (ix_data ix);
  ih_rows : elems (root (ix_data ix)) ≡ₚ L;
  ih_covers : covers k pk
}.

(** [ms_ok s L]: [L] is the table, in primary key order and with unique keys,
    and every index of the source holds it. *)
Record ms_ok (s : MemorySource) (L : list row) : Prop := {
  mo_psort : primary_index_sort s = pk_sort (primary_key s);
  mo_sorted : ssorted (row_cmp (primary_index_sort s)) L;
  mo_primary : is_Some (indexes s !! primary_index_sort s);
  mo_indexes k ix : indexes s !! k = Some ix → index_holds (primary_key s) L k ix
}.

(** Sorted permutations are equal. *)
Lemma ssorted_perm_eq (cmp : row → row → comparison) `{!TotalCmp cmp} l l' :
  ssorted cmp l → ssorted cmp l' → l ≡ₚ l' → l = l'.
Proof.
  intros Hs Hs' Hp. apply (StronglySorted_unique_strong (λ a b, cmp a b = Lt)); [|done..].
  intros x y _ _ H1 H2. by rewrite (cmp_opp x y), H1 in H2.
Qed.

Lemma primary_rows s L :
  ms_ok s L → ∃ ix, indexes s !! primary_index_sort s = Some ix ∧
    ix_sort ix = primary_index_sort s ∧
    btree_ok (row_cmp (primary_index_sort s)) (ix_data ix) ∧ elems (root (ix_data ix)) = L.
Proof.
  intros Hok. destruct (mo_primary _ _ Hok) as [ix Hix]. exists ix.
  destruct (mo_indexes _ _ Hok _ _ Hix) as [Hs Ht Hr _]. split_and!; [done..|].
  apply (ssorted_perm_eq (row_cmp (primary_index_sort s))); [apply Ht|by apply mo_sorted|done].
Qed.

(** No row of an index ties with a row whose key is not in the table. *)
Lemma index_find_None pk L k ix r :
  index_holds pk L k ix → sl_find (row_cmp (pk_sort pk)) r L = None →
  sl_find (row_cmp k) r (elems (root (ix_data ix))) = None.
Proof.
  intros [_ _ Hr Hc] Hf. rewrite (sl_find_None (row_cmp k)). intros x Hx Ht.
  rewrite (sl_find_None (row_cmp (pk_sort pk))) in Hf. rewrite Hr in Hx.
  apply (Hf x Hx). by eapply covers_tie.
Qed.

Lemma index_add pk L k ix r :
  index_holds pk L k ix → sl_find (row_cmp (pk_sort pk)) r L = None →
  ∃ t b, btree_add (row_cmp k) (ix_data ix) r = Some (t, b) ∧
    index_holds pk (sl_insert (row_cmp (pk_sort pk)) r L) k (MkIx (ix_sort ix) t).
Proof.
  intros Hix Hf. pose proof (index_find_None pk L k ix r Hix Hf) as Hn.
  destruct Hix as [Hs Ht Hr Hc]. destruct (btree_add_spec (row_cmp k) _ r Ht) as (t & -> & Hok & He).
  eexists t, _. split; [done|]. split; simpl; [done|done| |done].
  rewrite He, (sl_insert_perm (row_cmp k)), (sl_insert_perm (row_cmp (pk_sort pk))), Hr by done. done.
Qed.

Lemma index_delete pk L k ix r :
  index_holds pk L k ix → ssorted (row_cmp (pk_sort pk)) L → r ∈ L →
  ∃ t b, btree_delete (row_cmp k) (ix_data ix) r = Some (t, b) ∧
    index_holds pk (sl_delete (row_cmp (pk_sort pk)) r L) k (MkIx (ix_sort ix) t).
Proof.
  intros [Hs Ht Hr Hc] HL Hin. destruct (btree_delete_spec (row_cmp k) _ r Ht) as (t & -> & Hok & He).
  eexists t, _. split; [done|]. split; simpl; [done|done| |done].
  apply (Permutation_cons_inv (a := r)). rewrite He.
  rewrite (sl_delete_perm (row_cmp k)), (sl_delete_perm (row_cmp (pk_sort pk))); [done|done|done|..].
  - apply Ht.
  - by rewrite Hr.
Qed.

Lemma write_index_holds pk L k ix c :
  index_holds pk L k ix → ssorted (row_cmp (pk_sort pk)) L → change_valid (row_cmp (pk_sort pk)) c L →
  ∃ ix', write_index c ix = Some ix' ∧
    index_holds pk (apply_source_change (row_cmp (pk_sort pk)) c L) k ix'.
Proof.
  intros Hix HL Hv. pose proof (ih_sort _ _ _ _ Hix) as Hk. unfold write_index. rewrite Hk.
  destruct c as [r|r|r old]; simpl in Hv |- *.
  - destruct (index_add pk L k ix r Hix Hv) as (t & b & -> & H'). rewrite Hk in H'. by eexists.
  - destruct (index_delete pk L k ix r Hix HL Hv) as (t & b & -> & H'). rewrite Hk in H'. by eexists.
  - destruct Hv as [Hin Hf]. destruct (index_delete pk L k ix old Hix HL Hin) as (t & b & -> & H').
    rewrite Hk in H'. cbn [mbind option_bind].
    destruct (index_add pk _ k _ r H' Hf) as (t' & b' & E & H''). cbn [ix_data ix_sort] in *. rewrite E.
    by eexists.
Qed.

Lemma map_indexes_spec (f : Index → option Index) (P : Sort → Index → Prop) m :
  (∀ k i, m !! k = Some i → ∃ i', f i = Some i' ∧ P k i') →
  ∃ m', map_indexes f m = Some m' ∧ dom m' = dom m ∧ ∀ k i', m' !! k = Some i' → P k i'.
Proof.
  intros H. unfold map_indexes.
  assert (∃ l, mapM (λ ki : Sort * Index, i ← f ki.2; Some (ki.1, i)) (map_to_list m) = Some l ∧
    l.*1 = (map_to_list m).*1 ∧ ∀ k i', (k, i') ∈ l → P k i') as (l & -> & Hk & Hl).
  { assert (∀ k i, (k, i) ∈ map_to_list m → ∃ i', f i = Some i' ∧ P k i') as H'.
    { intros k i Hin%elem_of_map_to_list. by apply H. }
    clear H. induction (map_to_list m) as [|[k i] l IH]; simpl.
    { exists []. split_and!; [done..|]. intros k i ?%elem_of_nil. done. }
    destruct (H' k i) as (i' & -> & Hp); [by left|].
    destruct IH as (l' & -> & Hk & Hl); [intros k' i'' ?; apply H'; by right|].
    cbn [mbind option_bind]. exists ((k, i') :: l'). split_and!; [done|by simpl; f_equal|].
    intros k' i'' [?|?]%elem_of_cons; [by simplify_eq|by apply Hl]. }
  cbn [mbind option_bind]. eexists. split; [done|].
  assert (NoDup l.*1) as Hnd by (rewrite Hk; apply NoDup_fst_map_to_list). split.
  - apply set_eq. intros k. rewrite dom_list_to_map_L, elem_of_list_to_set, Hk.
    rewrite elem_of_dom, list_elem_of_fmap. split.
    + intros ([k' i] & -> & Hin%elem_of_map_to_list). by eexists.
    + intros [i Hi]. exists (k, i). split; [done|]. by apply elem_of_map_to_list.
  - intros k i' Hi. apply Hl. by apply elem_of_list_to_map_2.
Qed.

(** ** Writing a change *)

Lemma apply_change_sorted (cmp : row → row → comparison) `{!TotalCmp cmp} c L :
  ssorted cmp L → ssorted cmp (apply_source_change cmp c L).
Proof.
  intros H. destruct c; simpl; [by apply sl_insert_sorted|by apply sl_delete_sorted|].
  by apply sl_insert_sorted, sl_delete_sorted.
Qed.

Lemma write_change_ok s L c :
  ms_ok s L → change_valid (row_cmp (primary_index_sort s)) c L →
  ∃ m, write_change s c = Some (with_indexes s m) ∧
    ms_ok (with_indexes s m) (apply_source_change (row_cmp (primary_index_sort s)) c L).
Proof.
  intros Hok Hv. pose proof (mo_psort _ _ Hok) as Hp. pose proof (mo_sorted _ _ Hok) as HL.
  rewrite Hp in Hv, HL. unfold write_change.
  destruct (map_indexes_spec (write_index c)
    (index_holds (primary_key s) (apply_source_change (row_cmp (pk_sort (primary_key s))) c L))
    (indexes s)) as (m & -> & Hdom & Hm).
  { intros k i Hi. apply write_index_holds; [by apply (mo_indexes _ _ Hok)|done..]. }
  cbn [mbind option_bind]. exists m. split; [done|]. rewrite Hp. split; simpl; [done|..].
  - rewrite Hp. by apply apply_change_sorted; [apply _|].
  - apply elem_of_dom. rewrite Hdom. apply elem_of_dom, Hok.
  - done.
Qed.

(** ** Loading *)

Lemma validate_rows_spec width i rows :
  validate_rows width i rows =
    match list_find (λ r : row, length r ≠ width) rows with
    | Some (j, r) => inl (schema_violation (width_message (i + j) (length r) width))
    | None => inr tt
    end.
Proof.
  revert i. induction rows as [|r rows IH]; intros i; [done|]. cbn [validate_rows list_find].
  destruct (decide (length r = width)) as [Hw|Hw].
  - rewrite decide_False by tauto. rewrite IH.
    destruct (list_find _ rows) as [[j x]|]; simpl; [|done]. by rewrite Nat.add_succ_r.
  - rewrite decide_True by done. by rewrite Nat.add_0_r.
Qed.

Lemma singleton_index_ok sch pk tr L t e :
  btree_ok (row_cmp (pk_sort pk)) tr → elems (root tr) = L →
  ms_ok (MkSource sch pk (pk_sort pk) {[pk_sort pk := MkIx (pk_sort pk) tr]} t None e) L.
Proof.
  intros Ht <-. split; simpl; [done|apply Ht|rewrite lookup_singleton_eq; by eexists|].
  intros k ix [<- <-]%lookup_singleton_Some. split; [done..|apply pk_sort_covers].
Qed.

(** Loading checks every row's width before anything is built: the first
    row of the wrong width is named in the error with both widths, and a load whose rows all
    have the schema's width and pairwise different keys gives a source that
    holds exactly these rows, with no connection and no overlay. *)
Theorem try_new_spec (sch : Schema) (initial : list row) :
  match list_find (λ r : row, length r ≠ length (columns sch)) initial with
  | Some (i, r) =>
      try_new sch initial = Some (inl (schema_violation (width_message i (length r) (length (columns sch)))))
  | None =>
      unique_by (row_cmp (pk_sort (schema_pk sch))) initial →
      ∃ s L, try_new sch initial = Some (inr s) ∧ ms_ok s L ∧ L ≡ₚ initial ∧
        primary_key s = schema_pk sch ∧ ms_conns s = conn_table_new ∧ overlay s = None
  end.
Proof.
  unfold try_new. rewrite validate_rows_spec.
  destruct (list_find _ initial) as [[i r]|] eqn:E; [done|]. intros Hu.
  destruct (btree_from_sorted_spec (row_cmp (pk_sort (schema_pk sch)))
    (sort_by (pk_sort (schema_pk sch)) initial)) as (t & Ht & Hok & He).
  { by apply sort_by_sorted. }
  fold (pk_sort (schema_pk sch)). rewrite Ht. cbn [mbind option_bind].
  eexists _, _. split; [done|]. split; [by apply singleton_index_ok|]. split; [|done].
  apply sort_by_perm.
Qed.

Lemma try_new_spec_witness :
  let r k := [Int (i64_of_Z k)] in
  ∃ s L, try_new (schema_new [[]] [0] [(0, true)]) [r 2; r 1]%Z = Some (inr s) ∧ ms_ok s L ∧ L ≡ₚ [r 2; r 1]%Z.
Proof.
  intros r. destruct (try_new_spec (schema_new [[]] [0] [(0, true)]) [r 2; r 1]%Z) as (s & L & Ht & Hok & Hp & _).
  - intros [|[|i]] [|[|j]] x y Hij Hi Hj; try done; injection Hi as <-; injection Hj as <-;
      vm_compute; discriminate.
  - exists s, L. split; [exact Ht|]. by split.
Defined.

Lemma fork_ok s L :
  ms_ok s L → ∃ s', fork s = Some s' ∧ ms_ok s' L ∧ primary_key s' = primary_key s.
Proof.
  intros Hok. destruct (primary_rows s L Hok) as (ix & Hix & Hs & Ht & He). unfold fork.
  rewrite Hix. cbn [mbind option_bind]. rewrite (mo_psort _ _ Hok) in *.
  eexists. split; [done|]. split; [|done]. apply singleton_index_ok; [|done]. by destruct (ix_data ix).
Qed.

Lemma fork_with_indexes_ok s L : ms_ok s L → ms_ok (fork_with_indexes s) L.
Proof.
  intros [Hp HL Hx Hi]. split; simpl; [done|done|rewrite lookup_fmap; by apply fmap_is_Some|].
  intros k ix. rewrite lookup_fmap, fmap_Some. intros (ix0 & H0 & ->).
  destruct (Hi k ix0 H0) as [H1 H2 H3 H4]. split; simpl; [done| |by destruct (ix_data ix0)|done].
  by destruct (ix_data ix0).
Qed.

(** ** Reading a cursor out *)

Lemma collect_pulls fuel (c : cursor row) l :
  pulls fuel c = Some (yields fuel l) → length l < fuel → collect fuel c = Some l.
Proof.
  revert c l. induction fuel as [|fuel IH]; intros c l Hp Hl; [lia|].
  cbn [pulls collect] in Hp |- *. destruct (next_row c) as [[c' r]|]; [|done].
  cbn [mbind option_bind] in Hp |- *. destruct (pulls fuel c') as [rs|] eqn:E; [|done].
  cbn [mbind option_bind] in Hp. rewrite yields_succ in Hp. simplify_eq.
  destruct l as [|x l]; simpl in *; [done|]. rewrite (IH c' l); [done|done|lia].
Qed.

Lemma collect_all t sort :
  btree_ok (row_cmp sort) t →
  ∃ c, values_from t None true = Some c ∧ collect (S (size t)) c = Some (elems (root t)).
Proof.
  intros Ht. destruct (values_from_spec (row_cmp sort) t None true (S (size t)) Ht) as (c & Hc & Hp);
    [done|]. exists c. split; [done|]. apply collect_pulls; [done|]. destruct Ht as (_ & _ & ->). lia.
Qed.

Lemma ensure_index_ok s L k :
  ms_ok s L → covers k (primary_key s) →
  ∃ m, ensure_index s k = Some (with_indexes s m) ∧ ms_ok (with_indexes s m) L ∧ is_Some (m !! k).
Proof.
  intros Hok Hc. unfold ensure_index. destruct (indexes s !! k) as [ix|] eqn:Hk.
  { exists (indexes s). destruct s; simpl in *. rewrite Hk. eauto. }
  destruct (primary_rows s L Hok) as (ix & Hix & Hs & Ht & He). rewrite Hix. cbn [mbind option_bind].
  destruct (collect_all _ _ Ht) as (cur & -> & Hr). cbn [mbind option_bind]. rewrite Hr, He.
  cbn [mbind option_bind].
  destruct (btree_from_sorted_spec (row_cmp k) (sort_by k L)) as (t & -> & Htk & Hek).
  { apply sort_by_sorted. intros i j x y Hij Hi Hj Heq.
    apply (covers_tie k (primary_key s)) in Heq; [|done]. rewrite <-(mo_psort _ _ Hok) in Heq.
    by apply (ssorted_unique (row_cmp (primary_index_sort s)) L (mo_sorted _ _ Hok) i j x y). }
  cbn [mbind option_bind]. eexists. split; [done|]. split; [|rewrite lookup_insert_eq; by eexists].
  destruct Hok as [Hp HL Hx Hi]. split; simpl; [done|done|..].
  - destruct (decide (k = primary_index_sort s)) as [->|Hne]; [rewrite lookup_insert_eq; by eexists|].
    by rewrite lookup_insert_ne.
  - intros k' ix' [[<- <-]|[_ Hk']]%lookup_insert_Some; [|by apply Hi].
    split; simpl; [done|done|rewrite Hek; apply sort_by_perm|done].
Qed.
