(* ===== verification/SourcePush.v ===== *)
(** * Pushing through the memory source

    A push on a memory source writes the change to every index and keeps every
    connected query's row set up to date: what a connection receives, applied
    to the rows it showed, gives the rows its predicate accepts afterwards. *)

From stdpp Require Import base list numbers option sorting gmap sets.
From Stdlib Require Import ZArith Lia.
From S2P Require Import Prelude Values Rows Schema BTree BTreeFacts BTreeCursor Change PushIndex Connections Overlay Errors Push MemorySource MemorySourceFacts.

(** ** What epochs do not touch *)

Lemma bump_reach e t live dead i : conn_reach t live dead → conn_reach (bump e t i) live dead.
Proof.
  intros Hr. unfold bump. destruct (conns t !! i) as [conn|] eqn:Hc; [|done].
  destruct (output conn); [|done]. apply (cr_set_epoch t live dead i e); [done|].
  unfold set_epoch. by rewrite Hc.
Qed.

Lemma bumps_cons e t i slots : bumps e t (i :: slots) = bumps e (bump e t i) slots.
Proof. done. Qed.

Lemma bumps_reach e t live dead slots : conn_reach t live dead → conn_reach (bumps e t slots) live dead.
Proof. revert t. induction slots as [|i slots IH]; intros t Hr; [done|]. rewrite bumps_cons. by apply IH, bump_reach. Qed.

Lemma bumps_static e t slots j :
  conn_static <$> conns (bumps e t slots) !! j = conn_static <$> conns t !! j.
Proof.
  revert t. induction slots as [|i slots IH]; intros t; [done|]. rewrite bumps_cons, IH. apply bump_static.
Qed.

Lemma bumps_index e t slots : index (bumps e t slots) = index t.
Proof.
  revert t. induction slots as [|i slots IH]; intros t; [done|]. rewrite bumps_cons, IH. unfold bump. destruct (conns t !! i) as [conn|]; [|done]. by destruct (output conn).
Qed.

Lemma bumps_length e t slots : length (conns (bumps e t slots)) = length (conns t).
Proof.
  revert t. induction slots as [|i slots IH]; intros t; [done|]. rewrite bumps_cons, IH. apply bump_length.
Qed.

Lemma guards_sound_static t t' :
  (∀ j, conn_static <$> conns t' !! j = conn_static <$> conns t !! j) →
  guards_sound t → guards_sound t'.
Proof.
  intros Hst Hg i conn f g r Hi Hf. specialize (Hst i). rewrite Hi in Hst. simpl in Hst.
  symmetry in Hst. apply fmap_Some in Hst as (conn0 & Hc0 & E). apply (Hg i conn0 f g r); [done|].
  rewrite <-Hf. apply (f_equal filters) in E. by destruct conn, conn0.
Qed.

Lemma slot_change_same t t' c i :
  (∀ j, conn_static <$> conns t' !! j = conn_static <$> conns t !! j) →
  slot_change t' c i = slot_change t c i.
Proof. intros Hst. rewrite !slot_change_static. by rewrite Hst. Qed.

(** ** One round: fan out, then write *)

(** What a round leaves as it was. *)
Record same_conns (s s' : MemorySource) : Prop := {
  sc_static j : conn_static <$> conns (ms_conns s') !! j = conn_static <$> conns (ms_conns s) !! j;
  sc_length : length (conns (ms_conns s')) = length (conns (ms_conns s));
  sc_index : index (ms_conns s') = index (ms_conns s);
  sc_pk : primary_index_sort s' = primary_index_sort s
}.

(** The rows a connection shows. *)
Definition accepts (conn : Connection) (r : row) : bool :=
  match conn_predicate conn with Some p => p r | None => true end.

(** The changes a slot receives, in order. *)
Definition received {St} (i : nat) (log : list (nat * source_change * St)) : list source_change :=
  omap (λ d : nat * source_change, if decide (d.1 = i) then Some d.2 else None) log.*1.

Lemma received_app {St} i (l1 l2 : list (nat * source_change * St)) :
  received i (l1 ++ l2) = received i l1 ++ received i l2.
Proof. unfold received. by rewrite fmap_app, omap_app. Qed.

Lemma received_deliveries {St} t c i n (log : list (nat * source_change * St)) :
  log.*1 = deliveries t c (seq 0 n) → i < n → received i log = option_list (slot_change t c i).
Proof.
  intros Hlog Hi. unfold received. rewrite Hlog. unfold deliveries.
  replace n with (i + S (n - S i)) by lia. rewrite seq_app. simpl. rewrite omap_app. cbn [omap list_omap].
  assert (∀ l, i ∉ l → omap (λ d : nat * source_change, if decide (d.1 = i) then Some d.2 else None)
    (omap (λ j, sc ← slot_change t c j; Some (j, sc)) l) = []) as Hnone.
  { induction l as [|j l IH]; intros Hn; [done|]. apply not_elem_of_cons in Hn as [Hne Hn].
    cbn [omap list_omap]. destruct (slot_change t c j); simpl; [|by apply IH].
    rewrite decide_False by done. by apply IH. }
  rewrite omap_app, Hnone by (rewrite elem_of_seq; lia).
  destruct (slot_change t c i) as [sc|]; cbn [mbind option_bind omap list_omap fst snd];
    rewrite ?decide_True by done; rewrite Hnone by (rewrite elem_of_seq; lia); done.
Qed.

Lemma ms_ok_parts s t o L : ms_ok (with_overlay (with_conns s t) o) L ↔ ms_ok s L.
Proof. destruct s. split; intros []; split; done. Qed.

Lemma push_round s L live dead c e :
  ms_ok s L → conn_reach (ms_conns s) live dead → guards_sound (ms_conns s) →
  change_wide (index (ms_conns s)) c → change_valid (row_cmp (primary_index_sort s)) c L →
  ∃ s' log, gen_push_and_write s c e = Some (s', log) ∧
    ms_ok s' (apply_source_change (row_cmp (primary_index_sort s)) c L) ∧
    conn_reach (ms_conns s') live dead ∧ same_conns s s' ∧ overlay s' = None ∧
    ms_epoch s' = ms_epoch s ∧
    log.*1 = deliveries (ms_conns s) c (seq 0 (length (conns (ms_conns s)))).
Proof.
  intros Hok Hr Hg Hw Hv. destruct (push_slots _ _ _ c Hr Hw Hg) as (cands & Hc & Hf & Hd).
  destruct (@gen_push_spec MemorySource memory_backend _ s c e cands Hc Hf) as (log & Hp & Hlog & _).
  unfold gen_push_and_write. rewrite Hp. cbn [mbind option_bind sb_write memory_backend].
  change (sb_set_overlay ?x ?o) with (with_overlay x o). change (sb_with_table ?x ?t) with (with_conns x t).
  change (sb_table s) with (ms_conns s) in *.
  set (t' := bumps e (ms_conns s) cands).
  destruct (write_change_ok (with_overlay (with_conns s t') None) L c) as (m & -> & Hm).
  { by apply ms_ok_parts. } { done. }
  cbn [mbind option_bind]. eexists _, log. split; [done|]. split_and!; [done|..].
  - by apply bumps_reach.
  - split; simpl; [apply bumps_static|apply bumps_length|apply bumps_index|done].
  - done.
  - done.
  - by rewrite Hlog.
Qed.

(** One round keeps the rows of a wired connection up to date. *)
Lemma round_maintains s L c i conn {St} (log : list (nat * source_change * St)) :
  ssorted (row_cmp (primary_index_sort s)) L → change_valid (row_cmp (primary_index_sort s)) c L →
  log.*1 = deliveries (ms_conns s) c (seq 0 (length (conns (ms_conns s)))) →
  conns (ms_conns s) !! i = Some conn → is_Some (output conn) →
  foldl (λ l c', apply_source_change (row_cmp (primary_index_sort s)) c' l)
    (keep (accepts conn) L) (received i log) =
  keep (accepts conn) (apply_source_change (row_cmp (primary_index_sort s)) c L).
Proof.
  intros HL Hv Hlog Hi [edge Ho].
  rewrite (received_deliveries _ _ i _ log Hlog) by (by eapply lookup_lt_Some).
  unfold slot_change. rewrite Hi. cbn [mbind option_bind]. rewrite Ho. cbn [mbind option_bind].
  destruct (conn_predicate conn) as [p|] eqn:Hp.
  - assert (accepts conn = p) as -> by (unfold accepts; by rewrite Hp).
    rewrite (filter_push_keep (row_cmp (primary_index_sort s)) p c L HL Hv).
    by destruct (filter_push c (Some p)).
  - cbn [filter_push option_list foldl]. assert (∀ r, accepts conn r = true) as Hall
      by (intros; unfold accepts; by rewrite Hp).
    rewrite !keep_all by (apply Forall_forall; auto). done.
Qed.

(** ** The whole push *)

Lemma next_epoch_ok s L :
  ms_ok s L → ∃ e s1, next_epoch s = Some (e, s1) ∧ ms_ok s1 L ∧ ms_conns s1 = ms_conns s ∧
    primary_index_sort s1 = primary_index_sort s.
Proof.
  intros [Hp HL Hx Hi]. unfold next_epoch. eexists _, _. split; [done|]. split; [by split|done].
Qed.

(** A round with its own epoch. *)
Lemma push_round_epoch s L live dead c :
  ms_ok s L → conn_reach (ms_conns s) live dead → guards_sound (ms_conns s) →
  change_wide (index (ms_conns s)) c → change_valid (row_cmp (primary_index_sort s)) c L →
  ∃ s' log, ('(e, s1) ← next_epoch s; gen_push_and_write s1 c e) = Some (s', log) ∧
    ms_ok s' (apply_source_change (row_cmp (primary_index_sort s)) c L) ∧
    conn_reach (ms_conns s') live dead ∧ same_conns s s' ∧ overlay s' = None ∧
    log.*1 = deliveries (ms_conns s) c (seq 0 (length (conns (ms_conns s)))).
Proof.
  intros Hok Hr Hg Hw Hv. destruct (next_epoch_ok s L Hok) as (e & s1 & -> & Hok1 & Hc & Hp).
  cbn [mbind option_bind]. rewrite <-Hc in Hr, Hg, Hw. rewrite <-Hp in Hv.
  destruct (push_round s1 L live dead c e Hok1 Hr Hg Hw Hv) as (s' & log & -> & H1 & H2 & H3 & H4 & _ & H6).
  exists s', log. rewrite <-Hp, <-Hc. split_and!; [done..| |done|done].
  destruct H3 as [Ha Hb Hd He]. rewrite Hc in Ha, Hb, Hd. split; [done..|]. by rewrite <-Hp.
Qed.

(** Removing and then adding is the edit. *)
Lemma edit_as_two (cmp : row → row → comparison) r old L :
  change_valid cmp (SEdit r old) L →
  change_valid cmp (SRemove old) L ∧
  change_valid cmp (SAdd r) (apply_source_change cmp (SRemove old) L) ∧
  apply_source_change cmp (SAdd r) (apply_source_change cmp (SRemove old) L) =
    apply_source_change cmp (SEdit r old) L.
Proof. intros [? ?]. done. Qed.

(** What a push must find: the change is allowed by the rows, its rows have the
    guarded columns, and the split keys of an edit can be compared. *)
Record push_ready (s : MemorySource) (L : list row) (c : source_change) : Prop := {
  pr_valid : change_valid (row_cmp (primary_index_sort s)) c L;
  pr_wide : change_wide (index (ms_conns s)) c;
  pr_keys r old k : c = SEdit r old → k ∈ table_split_edit_keys (ms_conns s) →
    split_key_changed r old k ≠ None
}.

(** The outcome of a push: the table, and what every connection saw. *)
Definition pushed (s : MemorySource) (L L' : list row) (s' : MemorySource)
    (log : list (nat * source_change * MemorySource)) : Prop :=
  ms_ok s' L' ∧ same_conns s s' ∧ overlay s' = None ∧
  ∀ i conn, conns (ms_conns s) !! i = Some conn → is_Some (output conn) →
    foldl (λ l c', apply_source_change (row_cmp (primary_index_sort s)) c' l)
      (keep (accepts conn) L) (received i log) = keep (accepts conn) L'.

Lemma push_whole s L live dead c :
  ms_ok s L → conn_reach (ms_conns s) live dead → guards_sound (ms_conns s) → push_ready s L c →
  ∃ s' log, ('(e, s1) ← next_epoch s; gen_push_and_write s1 c e) = Some (s', log) ∧
    conn_reach (ms_conns s') live dead ∧
    pushed s L (apply_source_change (row_cmp (primary_index_sort s)) c L) s' log.
Proof.
  intros Hok Hr Hg [Hv Hw _].
  destruct (push_round_epoch s L live dead c Hok Hr Hg Hw Hv) as (s' & log & -> & H1 & H2 & H3 & H4 & H5).
  exists s', log. split; [done|]. split; [done|]. split_and!; [done..|]. intros i conn Hi Ho.
  apply round_maintains; [apply Hok|done..].
Qed.

Lemma push_split s L live dead r old :
  ms_ok s L → conn_reach (ms_conns s) live dead → guards_sound (ms_conns s) →
  push_ready s L (SEdit r old) →
  ∃ s' log, ('(e1, s) ← next_epoch s;
      '(s, l1) ← gen_push_and_write s (SRemove old) e1;
      '(e2, s) ← next_epoch s;
      '(s, l2) ← gen_push_and_write s (SAdd r) e2;
      Some (s, l1 ++ l2)) = Some (s', log) ∧
    conn_reach (ms_conns s') live dead ∧
    pushed s L (apply_source_change (row_cmp (primary_index_sort s)) (SEdit r old) L) s' log.
Proof.
  intros Hok Hr Hg [Hv Hw _].
  destruct (edit_as_two (row_cmp (primary_index_sort s)) r old L Hv) as (Hv1 & Hv2 & <-).
  set (L1 := apply_source_change (row_cmp (primary_index_sort s)) (SRemove old) L) in *.
  assert (change_wide (index (ms_conns s)) (SRemove old) ∧ change_wide (index (ms_conns s)) (SAdd r))
    as [Hw1 Hw2].
  { split; intros x col Hx; apply Hw; set_solver. }
  destruct (push_round_epoch s L live dead _ Hok Hr Hg Hw1 Hv1)
    as (s1 & l1 & E1 & Hok1 & Hr1 & Hsame1 & Ho1 & Hl1).
  destruct Hsame1 as [Hst1 Hlen1 Hix1 Hp1].
  destruct (push_round_epoch s1 L1 live dead (SAdd r)) as (s2 & l2 & E2 & Hok2 & Hr2 & [Hst2 Hlen2 Hix2 Hp2] & Ho2 & Hl2);
    [done|done|by eapply guards_sound_static|by rewrite Hix1|by rewrite Hp1|].
  exists s2, (l1 ++ l2). split.
  { destruct (next_epoch s) as [[e1 sa]|]; [|done]. cbn [mbind option_bind] in *.
    rewrite E1. cbn [mbind option_bind]. destruct (next_epoch s1) as [[e2 sb]|]; [|done].
    cbn [mbind option_bind] in *. by rewrite E2. }
  split; [done|]. rewrite Hp1 in Hok2. split_and!; [done| |done|].
  { split; [intros j; by rewrite Hst2|congruence..]. }
  intros i conn Hi Ho. rewrite received_app, foldl_app.
  rewrite (round_maintains s L (SRemove old) i conn l1) by (done || apply Hok). fold L1.
  assert (∃ conn1, conns (ms_conns s1) !! i = Some conn1 ∧ accepts conn1 = accepts conn ∧
    output conn1 = output conn) as (conn1 & Hi1 & Ha1 & Ho1').
  { specialize (Hst1 i). rewrite Hi in Hst1. apply fmap_Some in Hst1 as (conn1 & Hc1 & E).
    exists conn1. split; [done|]. split; [|apply (f_equal output) in E; by destruct conn, conn1].
    unfold accepts, conn_predicate. apply (f_equal filters) in E. destruct conn, conn1; simpl in *.
    by rewrite E. }
  rewrite <-Ha1, <-Hp1. apply round_maintains; [apply Hok1|by rewrite Hp1|done|done|by rewrite Ho1'].
Qed.

Lemma should_split_edit_defined t r old :
  (∀ k, k ∈ table_split_edit_keys t → split_key_changed r old k ≠ None) →
  ∃ b, should_split_edit t r old = Some b.
Proof.
  intros H. unfold should_split_edit. destruct (has_split_edit_keys t); [|by eexists].
  destruct (try_any_spec (split_key_changed r old) (table_split_edit_keys t) H) as (b & -> & _). by eexists.
Qed.

(** ** The checked push *)

(** A change the rows allow passes the existence check. *)
Lemma change_consistent_valid s L c :
  ms_ok s L → change_valid (row_cmp (primary_index_sort s)) c L → change_consistent s c = Some (inr true).
Proof.
  intros Hok Hv. destruct (primary_rows s L Hok) as (ix & Hix & _ & Ht & He).
  assert (∀ r, sb_try_exists s r = Some (inr (bool_decide (is_Some
    (sl_find (row_cmp (primary_index_sort s)) r L))))) as Hex.
  { intros r. cbn [sb_try_exists memory_backend]. unfold exists_row. rewrite Hix. cbn [mbind option_bind].
    rewrite (btree_has_spec (row_cmp (primary_index_sort s))) by done. by rewrite He. }
  assert (∀ r, r ∈ L → is_Some (sl_find (row_cmp (primary_index_sort s)) r L)) as Hin.
  { intros r Hr. apply not_eq_None_Some. rewrite (sl_find_None (row_cmp (primary_index_sort s))).
    intros H. by apply (H r Hr), cmp_refl. }
  destruct c as [r|r|r old]; cbn [change_consistent change_valid] in *; rewrite Hex.
  - by rewrite Hv.
  - by rewrite bool_decide_true by (by apply Hin).
  - by rewrite bool_decide_true by (by apply Hin, Hv).
Qed.

Lemma try_round s L c e strict :
  ms_ok s L → change_valid (row_cmp (primary_index_sort s)) c L →
  try_gen_push_and_write s c e strict =
    '(s', log) ← gen_push_and_write s c e; Some (s', log, inr tt).
Proof.
  intros Hok Hv. by rewrite (try_gen_push_and_write_checked s c e strict (inr true))
    by (by eapply change_consistent_valid || (intros s'; cbn; by destruct (write_change s' c))).
Qed.

(** A push that is ready passes the checks and does what the unchecked one does. *)
Lemma try_push_ready s L live dead c strict :
  ms_ok s L → conn_reach (ms_conns s) live dead → guards_sound (ms_conns s) → push_ready s L c →
  try_push s c strict = '(s', log) ← push s c; Some (s', log, inr tt).
Proof.
  intros Hok Hr Hg [Hv Hw Hk].
  unfold try_push, push, try_gen_push_and_write_with_split_edit, gen_push_and_write_with_split_edit.
  cbn [sb_table sb_next_epoch memory_backend].
  destruct (next_epoch_ok s L Hok) as (e & s1 & He & Hok1 & Hc1 & Hp1).
  destruct c as [r|r|r old]; try (rewrite He; cbn [mbind option_bind]; apply (try_round s1 L);
    [done|by rewrite Hp1]).
  destruct (should_split_edit_defined (ms_conns s) r old) as ([] & ->);
    [intros k; by apply Hk| |]; cbn [mbind option_bind]; rewrite He; cbn [mbind option_bind].
  2: { apply (try_round s1 L); [done|by rewrite Hp1]. }
  destruct (edit_as_two (row_cmp (primary_index_sort s)) r old L Hv) as (Hv1 & Hv2 & _).
  rewrite <-Hc1 in Hr, Hg, Hw. rewrite <-Hp1 in Hv1, Hv2. rewrite (try_round s1 L) by done.
  destruct (push_round s1 L live dead (SRemove old) e Hok1 Hr Hg) as (s2 & l1 & -> & Hok2 & _ & [_ _ _ Hp2] & _);
    [intros x col Hx; apply Hw; set_solver|done|].
  cbn [mbind option_bind]. destruct (next_epoch_ok s2 _ Hok2) as (e2 & s3 & -> & Hok3 & _ & Hp3).
  cbn [mbind option_bind]. rewrite (try_round s3 _ _ _ _ Hok3) by (by rewrite Hp3, Hp2).
  by destruct (gen_push_and_write s3 (SAdd r) e2) as [[s4 l2]|].
Qed.

Lemma push_maintains (s : MemorySource) (L : list row) (live dead : list ConnId)
    (c : source_change) :
  ms_ok s L → conn_reach (ms_conns s) live dead → guards_sound (ms_conns s) → push_ready s L c →
  ∃ s' log, push s c = Some (s', log) ∧ conn_reach (ms_conns s') live dead ∧
    pushed s L (apply_source_change (row_cmp (primary_index_sort s)) c L) s' log.
Proof.
  intros Hok Hr Hg Hpr. unfold push, gen_push_and_write_with_split_edit.
  destruct c as [r|r|r old]; [by eapply push_whole..|].
  destruct (should_split_edit_defined (ms_conns s) r old) as ([] & E).
  { intros k. by apply (pr_keys _ _ _ Hpr r old). }
  - change (sb_table s) with (ms_conns s). rewrite E. cbn [mbind option_bind]. by eapply push_split.
  - change (sb_table s) with (ms_conns s). rewrite E. cbn [mbind option_bind]. by eapply push_whole.
Qed.

(** [C6] A push on a memory source succeeds, applies the change to the table
    and to every index, and keeps every query up to date: the changes a wired
    connection receives, applied in order to the rows its predicate accepted
    before, give exactly the rows it accepts after, whether the edit was split
    or not.  No overlay is left, and only epochs of connections changed. *)
Theorem push_maintains_connections (s : MemorySource) (L : list row) (live dead : list ConnId)
    (c : source_change) :
  ms_ok s L → conn_reach (ms_conns s) live dead → guards_sound (ms_conns s) → push_ready s L c →
  ∃ s' log, push s c = Some (s', log) ∧ conn_reach (ms_conns s') live dead ∧
    pushed s L (apply_source_change (row_cmp (primary_index_sort s)) c L) s' log.
Proof. apply push_maintains. Qed.

(** ** A concrete source

    Two rows keyed by column 0 and two wired connections: one shows the rows
    whose column 1 is 20, guards on it and splits edits of it; the other shows
    everything. *)

Definition ex_row (k v : Z) : row := [Int (i64_of_Z k); Int (i64_of_Z v)].

Definition ex_pred (r : row) : bool :=
  match r !! 1 with Some v => values_identical (Int (i64_of_Z 20)) v | None => false end.

Definition ex_filters : ConnectionFilters :=
  MkFilters ex_pred None true None (Some (MkGuard 1 [Int (i64_of_Z 20)])).

Definition ex_guarded (o : option OutEdge) : Connection := MkConn [(0, true)] false [1] (Some ex_filters) 0 o.
Definition ex_plain (o : option OutEdge) : Connection := MkConn [(0, true)] false [] None 0 o.

Definition ex_index : PushIndex :=
  PushIndex.insert (PushIndex.insert push_index_new 0 (conn_guard (ex_guarded None)) [1]) 1 None [].

Definition ex_table : ConnTable :=
  MkTable [ex_guarded (Some (MkEdge 3 Single)); ex_plain (Some (MkEdge 4 Single))] [0; 0]%Z [] ex_index.

Definition ex_live : list ConnId := [MkConnId 1 0; MkConnId 0 0].

Definition ex_L : list row := [ex_row 1 10; ex_row 2 20].

Definition ex_source : MemorySource :=
  MkSource (schema_new [[]; []] [0] [(0, true)]) [0] [(0, true)] {[ [(0, true)] := MkIx [(0, true)] (BTree (Leaf ex_L) 2)]}
    ex_table None 0.

Lemma ex_reach : conn_reach ex_table ex_live [].
Proof.
  set (g := ex_guarded). set (e3 := Some (MkEdge 3 Single)).
  apply (cr_set_output (MkTable [g e3; ex_plain None] [0; 0]%Z [] ex_index) ex_live [] (MkConnId 1 0)
    (MkEdge 4 Single)); [|left; by left|reflexivity].
  apply (cr_connect (MkTable [g e3] [0]%Z []
    (PushIndex.insert push_index_new 0 (conn_guard (g None)) [1])) [MkConnId 0 0] [] (ex_plain None));
    [|reflexivity].
  apply (cr_set_output (MkTable [g None] [0]%Z []
    (PushIndex.insert push_index_new 0 (conn_guard (g None)) [1])) [MkConnId 0 0] [] (MkConnId 0 0)
    (MkEdge 3 Single)); [|left; by left|reflexivity].
  apply (cr_connect conn_table_new [] [] (g None)); [apply cr_new|reflexivity].
Qed.

Lemma ex_guards : guards_sound ex_table.
Proof.
  intros [|[|i]] conn f g r Hi Hf Hgd Hp; simpl in Hi; simplify_eq/=.
  unfold ex_filters in *. simplify_eq/=. unfold ex_pred in Hp.
  destruct (r !! 1) as [v|] eqn:E; [|done]. exists v, (Int (i64_of_Z 20)).
  split_and!; [done|by left|done].
Qed.

Lemma ex_ok : ms_ok ex_source ex_L.
Proof.
  apply (singleton_index_ok _ [0] (BTree (Leaf ex_L) 2)); [|done].
  split; [right; exists 0; simpl; unfold MAX_NODE_SIZE; lia|]. split; [repeat constructor|done].
Qed.

Lemma ex_wide c : (∀ r, r ∈ change_rows c → length r = 2) → change_wide (index (ms_conns ex_source)) c.
Proof.
  intros H r col Hr Hc. rewrite (H r Hr). apply elem_of_dom in Hc as [m Hm]. simpl in Hm.
  unfold ex_index in Hm. simpl in Hm. rewrite lookup_insert in Hm. case_decide; [lia|done].
Qed.

Lemma push_maintains_connections_witness :
  ∃ s' log, push ex_source (SEdit (ex_row 1 20) (ex_row 1 10)) = Some (s', log) ∧
    ms_ok s' [ex_row 1 20; ex_row 2 20].
Proof.
  destruct (push_maintains_connections ex_source ex_L ex_live [] (SEdit (ex_row 1 20) (ex_row 1 10)))
    as (s' & log & Hp & _ & Hok & _);
    [exact ex_ok|exact ex_reach|exact ex_guards| |exists s', log; split; [exact Hp|exact Hok]].
  split.
  - split; [by left|reflexivity].
  - apply ex_wide. intros r Hr. simpl in Hr. set_solver.
  - intros r old k [= <- <-] Hk. assert (k = 1) as -> by (vm_compute in Hk; set_solver).
    vm_compute. done.
Defined.

(** A push to the example delivers to both connections, the second after the first. *)
Lemma gen_push_full_fan_out_witness :
  ∃ s' log, gen_push ex_source (SAdd (ex_row 3 20)) 1 = Some (s', log) ∧
    log.*1 = [(0, SAdd (ex_row 3 20)); (1, SAdd (ex_row 3 20))] ∧ overlay s' = None.
Proof.
  destruct (gen_push_full_fan_out memory_backend_laws ex_source ex_live [] (SAdd (ex_row 3 20)) 1)
    as (s' & log & Hp & Hlog & Ho); [apply ex_reach| |apply ex_guards|].
  - apply ex_wide. intros r Hr. simpl in Hr. set_solver.
  - exists s', log. split; [exact Hp|]. split; [|exact Ho]. rewrite Hlog. vm_compute. reflexivity.
Defined.

(** While the first connection is pushed to, the second does not see the change. *)
Lemma push_visibility_witness :
  ∃ s' conn', sb_overlay s' = Some (MkOverlay 1 (SAdd (ex_row 3 20))) ∧
    conns (ms_conns s') !! 1 = Some conn' ∧
    (gate (overlay s') (last_pushed_epoch conn') ≠ Some (MkOverlay 1 (SAdd (ex_row 3 20)))).
Proof.
  set (c := SAdd (ex_row 3 20)).
  destruct (@gen_push_spec MemorySource memory_backend _ ex_source c 1 [0; 1]) as (log & Hp & Hlog & _).
  { vm_compute. reflexivity. }
  { repeat constructor. }
  assert (∃ sc s', (0, sc, s') ∈ log) as (sc & s' & Hin).
  { assert (log.*1 = [(0, c); (1, c)]) as Hlog' by (rewrite Hlog; vm_compute; reflexivity).
    destruct log as [|[[i sc] s'] log]; [discriminate Hlog'|]. injection Hlog' as -> _ _.
    exists sc, s'. by left. }
  destruct (push_visibility memory_backend_laws ex_source
    (with_overlay (with_conns ex_source (bumps 1 ex_table [0; 1])) None) s' c sc 1 [0; 1] log 0 1
    (ex_plain (Some (MkEdge 4 Single)))) as (Ho & conn' & pre & post & Hc & Hconn & Hgate & _).
  - vm_compute. reflexivity.
  - by apply (bool_decide_unpack _).
  - repeat constructor.
  - exact Hp.
  - exact Hin.
  - reflexivity.
  - reflexivity.
  - exists s', conn'. split; [exact Ho|]. split; [exact Hconn|]. intros Hg.
    apply Hgate in Hg as [_ Hg]. destruct pre as [|i pre].
    + apply list_elem_of_singleton in Hg. discriminate Hg.
    + destruct pre as [|? [|]]; discriminate Hc.
Defined.

(** Editing column 1, which the first connection splits on. *)
Lemma edit_split_spec_witness :
  gen_push_and_write_with_split_edit ex_source (SEdit (ex_row 1 20) (ex_row 1 10)) =
    '(e1, s) ← sb_next_epoch ex_source;
    '(s, l1) ← gen_push_and_write s (SRemove (ex_row 1 10)) e1;
    '(e2, s) ← sb_next_epoch s;
    '(s, l2) ← gen_push_and_write s (SAdd (ex_row 1 20)) e2;
    Some (s, l1 ++ l2).
Proof.
  destruct (edit_split_spec ex_source ex_live [] (ex_row 1 20) (ex_row 1 10)) as (b & Hb & Hp).
  - apply ex_reach.
  - intros id conn k Hid Hc Hk.
    assert (k = 1) as ->; [|vm_compute; done].
    apply elem_of_cons in Hid as [->|[->|[]%elem_of_nil]%elem_of_cons]; simpl in Hc; simplify_eq/=; set_solver.
  - rewrite Hp. assert (b = true) as ->; [|reflexivity].
    apply Hb. exists (MkConnId 0 0), (ex_guarded (Some (MkEdge 3 Single))), 1.
    split; [right; by left|]. split; [reflexivity|]. split; [by left|]. vm_compute. reflexivity.
Defined.

(** Adding a row whose key is taken, in strict mode. *)
Lemma try_push_checked_witness :
  try_gen_push_and_write ex_source (SAdd (ex_row 2 5)) 1 true =
    Some (ex_source, [], inl (ConsistencyViolation kind_add_exists)).
Proof.
  apply (try_push_checked ex_source (SAdd (ex_row 2 5)) 1 true (inr false)).
  - vm_compute. reflexivity.
  - intros s'. simpl. by destruct (write_change s' (SAdd (ex_row 2 5))).
Defined.
