(* ===== verification/SourceFetch.v ===== *)
(** * Fetching from the memory source

    A fetch picks or builds an index, seeks, splices the change in flight into
    the scan and filters.  Its result is compared with the definition of a
    fetch: the rows of the table with the change applied that the request asks
    for, in the order of the connection. *)

From stdpp Require Import base list numbers option sorting gmap sets.
From Stdlib Require Import ZArith Lia.
From S2P Require Import Prelude Values Rows Schema BTree BTreeFacts BTreeCursor Change PushIndex Connections Overlay Merge Push MemorySource MemorySourceFacts SourcePush.

(** ** Constraints as ties *)

Lemma cpv_Eq_rank a b :
  compare_predicate_values a b = Eq → predicate_type_rank a = predicate_type_rank b.
Proof. by destruct a, b. Qed.

Lemma cpv_Eq_present a b : compare_predicate_values a b = Eq → present a = present b.
Proof. by destruct a, b. Qed.

Lemma cmatch_iff r c :
  cmatch r c = true ↔
    ∀ k v, (k, v) ∈ c → present v = true ∧ compare_predicate_values (cell r k) v = Eq.
Proof.
  unfold cmatch. rewrite bool_decide_eq_true, constraint_matches_true. unfold cell. split.
  - intros H k v Hin. destruct (H k v Hin) as (w & -> & (_ & Hv & _ & He)%values_equal_true). done.
  - intros H k v Hin. destruct (H k v Hin) as [Hv He]. pose proof (cpv_Eq_rank _ _ He) as Hr.
    pose proof (cpv_Eq_present _ _ He) as Hp. rewrite Hv in Hp.
    destruct (r !! k) as [w|]; [|done]. exists w. split; [done|]. by apply values_equal_true.
Qed.

(** Matching a constraint only depends on the cells up to ties. *)
Lemma cmatch_tie x y c :
  cmatch y c = true → (∀ k, k ∈ c.*1 → compare_predicate_values (cell x k) (cell y k) = Eq) →
  cmatch x c = true.
Proof.
  rewrite !cmatch_iff. intros Hy Ht k v Hin. destruct (Hy k v Hin) as [Hv He]. split; [done|].
  apply (cmp_eq_trans compare_predicate_values _ (cell y k)); [|done]. apply Ht.
  apply list_elem_of_fmap. by exists (k, v).
Qed.

Lemma cmatch_ties x y c :
  cmatch x c = true → cmatch y c = true →
  ∀ k, k ∈ c.*1 → compare_predicate_values (cell x k) (cell y k) = Eq.
Proof.
  rewrite !cmatch_iff. intros Hx Hy k ([k' v] & -> & Hin)%list_elem_of_fmap. simpl.
  destruct (Hx k' v Hin) as [_ Hx1]. destruct (Hy k' v Hin) as [_ Hy1].
  apply (cmp_eq_trans compare_predicate_values _ v); [done|]. by apply (cmp_eq_sym compare_predicate_values).
Qed.

(** ** Direction *)

Definition dir (reverse : bool) (c : comparison) : comparison := if reverse then CompOpp c else c.

Lemma dir_then reverse a b : dir reverse (then_cmp a b) = then_cmp (dir reverse a) (dir reverse b).
Proof. by destruct reverse, a. Qed.

Lemma dir_total {A} (cmp : A → A → comparison) `{!TotalCmp cmp} reverse :
  TotalCmp (λ x y, dir reverse (cmp x y)).
Proof. destruct reverse; [by apply flip_total|done]. Qed.

(** ** The prefix of a constraint *)

Definition asc_cols (c : Constraint) : Sort := map (λ e : nat * value, (e.1, true)) c.

Lemma asc_cols_fst c : (asc_cols c).*1 = c.*1.
Proof. unfold asc_cols. by rewrite <-list_fmap_compose. Qed.

Lemma row_cmp_app s1 s2 a b : row_cmp (s1 ++ s2) a b = then_cmp (row_cmp s1 a b) (row_cmp s2 a b).
Proof.
  induction s1 as [|[c asc] s1 IH]; [done|]. simpl. rewrite IH.
  by destruct (apply_dir _ asc).
Qed.

(** Rows that match a constraint are ordered by what follows its columns. *)
Lemma row_cmp_match c rest a b :
  cmatch a c = true → cmatch b c = true → row_cmp (asc_cols c ++ rest) a b = row_cmp rest a b.
Proof.
  intros Ha Hb. rewrite row_cmp_app.
  assert (row_cmp (asc_cols c) a b = Eq) as ->; [|done]. apply row_cmp_Eq. intros k asc Hin.
  apply (cmatch_ties a b c); [done..|]. rewrite <-asc_cols_fst. apply list_elem_of_fmap.
  by exists (k, asc).
Qed.

(** The rows between the seek bound of a constraint and a row that matches it
    match it too. *)
Lemma squeeze c rest B reverse x y :
  (∀ k v, (k, v) ∈ c → ∃ w, assoc B k = Some (Val w) ∧ compare_predicate_values w (cell y k) = Eq) →
  dir reverse (bound_cmp (asc_cols c ++ rest) B x) ≠ Gt →
  dir reverse (row_cmp (asc_cols c ++ rest) x y) ≠ Gt →
  ∀ k, k ∈ c.*1 → compare_predicate_values (cell x k) (cell y k) = Eq.
Proof.
  induction c as [|[k v] c IH]; intros HB Hb Hr k' Hk; [by apply elem_of_nil in Hk|].
  cbn [asc_cols map app bound_cmp row_cmp fst apply_dir] in Hb, Hr.
  destruct (HB k v) as (w & Hw & Hwy); [by left|]. rewrite Hw in Hb. cbn [bound_cell_cmp] in Hb.
  rewrite dir_then in Hb, Hr. pose proof (dir_total compare_predicate_values reverse) as HC.
  set (C := λ a b, dir reverse (compare_predicate_values a b)) in *.
  change (dir reverse (compare_predicate_values w (cell x k))) with (C w (cell x k)) in Hb.
  change (dir reverse (compare_predicate_values (cell x k) (cell y k))) with (C (cell x k) (cell y k)) in Hr.
  assert (C w (cell y k) = Eq) as Hwy' by (unfold C; rewrite Hwy; by destruct reverse).
  assert (C (cell x k) (cell y k) = Eq) as Hxy.
  { destruct (C w (cell x k)) eqn:E1, (C (cell x k) (cell y k)) eqn:E2; try done; exfalso;
      pose proof (bound_cmp_first C w (cell x k) (cell y k)) as H; rewrite E1, E2 in H;
      destruct (H ltac:(done) ltac:(done)) as [(? & ? & ?)|?]; congruence. }
  assert (C w (cell x k) = Eq) as Hwx.
  { rewrite <-Hwy'. symmetry. apply (cmp_eq_r C). by apply (cmp_eq_sym C). }
  rewrite Hxy in Hr. rewrite Hwx in Hb. simpl in Hb, Hr.
  apply elem_of_cons in Hk as [->|Hk].
  - revert Hxy. unfold C. simpl. destruct reverse, (compare_predicate_values (cell x k) (cell y k)); done.
  - apply IH; [|done..]. intros k1 v1 Hin. apply (HB k1 v1). by right.
Qed.

(** ** The seek bound of a constraint *)

Lemma assoc_scan_val c isort reverse k v :
  assoc c k = Some v → k ∈ isort.*1 → assoc (build_scan_start c isort reverse) k = Some (Val v).
Proof.
  intros Hc. induction isort as [|[k' asc] isort IH]; [by intros ?%elem_of_nil|].
  cbn [build_scan_start map fmap list_fmap fst]. intros [->|Hk]%elem_of_cons.
  - rewrite Hc. cbn [assoc]. by rewrite decide_True.
  - destruct (decide (k' = k)) as [->|Hne].
    + rewrite Hc. cbn [assoc]. by rewrite decide_True.
    + destruct (assoc c k'); cbn [assoc]; rewrite decide_False by done; by apply IH.
Qed.

Lemma assoc_elem {V} (c : list (nat * V)) k : k ∈ c.*1 → ∃ v, assoc c k = Some v ∧ (k, v) ∈ c.
Proof.
  intros Hk. destruct (assoc c k) as [v|] eqn:E.
  - exists v. split; [done|]. by apply assoc_Some_elem.
  - by apply assoc_None in E.
Qed.

Lemma scan_pins c rest reverse y :
  cmatch y c = true →
  ∀ k v, (k, v) ∈ c → ∃ w, assoc (build_scan_start c (asc_cols c ++ rest) reverse) k = Some (Val w) ∧
    compare_predicate_values w (cell y k) = Eq.
Proof.
  intros Hy k v Hin. assert (k ∈ c.*1) as Hk by (apply list_elem_of_fmap; by exists (k, v)).
  destruct (assoc_elem c k Hk) as (w & Hw & Hwin). exists w. split.
  - apply assoc_scan_val; [done|]. rewrite fmap_app, asc_cols_fst. apply elem_of_app. by left.
  - rewrite cmatch_iff in Hy. apply (cmp_eq_sym compare_predicate_values). by apply (Hy k w).
Qed.

(** The first column the constraint does not fix decides. *)
Lemma scan_reaches_from c pre isort reverse y :
  cmatch y c = true → Forall (λ s, is_Some (assoc c s.1)) pre →
  dir reverse (bound_cmp isort (build_scan_start c (pre ++ isort) reverse) y) ≠ Gt.
Proof.
  intros Hy. rewrite cmatch_iff in Hy. revert pre.
  induction isort as [|[k asc] isort IH]; intros pre Hpre; [by destruct reverse|].
  cbn [bound_cmp]. rewrite dir_then. destruct (assoc c k) as [v|] eqn:Hk.
  - rewrite (assoc_scan_val c (pre ++ (k, asc) :: isort) reverse k v) by
      (done || (rewrite fmap_app, fmap_cons; apply elem_of_app; right; by left)).
    cbn [bound_cell_cmp]. destruct (Hy k v (assoc_Some_elem _ _ _ Hk)) as [_ He].
    rewrite (cmp_eq_sym compare_predicate_values _ _ He).
    specialize (IH (pre ++ [(k, asc)])). rewrite <-(assoc_L (++)) in IH. simpl in IH.
    replace (dir reverse (apply_dir Eq asc)) with Eq by (by destruct reverse, asc).
    apply IH, Forall_app. split; [done|]. repeat constructor. by exists v.
  - assert (assoc (build_scan_start c (pre ++ (k, asc) :: isort) reverse) k =
      Some (if reverse then if asc then Max else Min else if asc then Min else Max)) as ->.
    { clear -Hpre Hk. induction Hpre as [|[k' asc'] pre [v Hv] Hpre IH];
        cbn [app build_scan_start map assoc].
      - rewrite Hk. cbn [assoc]. by rewrite decide_True.
      - simpl in Hv. rewrite Hv. cbn [assoc]. rewrite decide_False by congruence. apply IH. }
    by destruct reverse, asc.
Qed.

Lemma scan_reaches c isort reverse y :
  cmatch y c = true → dir reverse (bound_cmp isort (build_scan_start c isort reverse) y) ≠ Gt.
Proof. intros Hy. by apply (scan_reaches_from c []). Qed.

(** A bound made of a row compares like the row. *)
Lemma row_bound_cmp sort b bound r :
  row_bound_of b sort = Some bound → bound_cmp sort bound r = row_cmp sort b r.
Proof.
  intros Hb. pose proof (row_bound_of_at b sort bound Hb) as Hat. clear Hb.
  induction sort as [|[c asc] sort IH]; [done|].
  simpl. rewrite (Hat c asc) by (by left). simpl. f_equal. apply IH. intros c' asc' Hin.
  apply (Hat c' asc'). by right.
Qed.

Lemma row_bound_of_wide b sort :
  Forall (λ s, s.1 < length b) sort → ∃ bound, row_bound_of b sort = Some bound.
Proof.
  unfold row_bound_of. induction 1 as [|[k asc] sort Hk Hs [bound IH]]; [by eexists|].
  simpl in *. destruct (lookup_lt_is_Some_2 b k Hk) as [v ->]. simpl. rewrite IH. by eexists.
Qed.

(** ** The scan of an index *)

Lemma ssorted_NoDup (cmp : row → row → comparison) `{!TotalCmp cmp} l : ssorted cmp l → NoDup l.
Proof.
  induction 1 as [|x l Hs IH Hx]; constructor; [|done]. intros Hin.
  rewrite Forall_forall in Hx. specialize (Hx x Hin). by rewrite cmp_refl in Hx.
Qed.

Lemma ssorted_reverse (cmp : row → row → comparison) `{!TotalCmp cmp} l :
  ssorted cmp l → ssorted (λ a b, CompOpp (cmp a b)) (reverse l).
Proof.
  induction 1 as [|x l Hs IH Hx]; [constructor|]. rewrite reverse_cons.
  pose proof (flip_total cmp). apply (ssorted_app (λ a b, CompOpp (cmp a b))). split_and!; [done|repeat constructor|].
  intros a b Ha ->%list_elem_of_singleton. rewrite elem_of_reverse in Ha. rewrite Forall_forall in Hx.
  by rewrite (cmp_opp x a), (Hx a Ha).
Qed.

Lemma keep_sorted (cmp : row → row → comparison) p l : ssorted cmp l → ssorted cmp (keep p l).
Proof.
  induction 1 as [|x l Hs IH Hx]; [constructor|]. rewrite keep_cons. destruct (p x); [|done].
  constructor; [done|]. rewrite Forall_forall in Hx |- *. intros y [_ Hy]%list_elem_of_filter. auto.
Qed.

Lemma elem_of_keep (p : row → bool) l x : x ∈ keep p l ↔ p x = true ∧ x ∈ l.
Proof. unfold keep. rewrite list_elem_of_filter. by rewrite Is_true_true. Qed.

Lemma reached rev isort (B : RowBound) r (P : Prop) :
  negb (is_gt (dir rev (bound_cmp isort B r))) = true ∧ P ↔
  P ∧ ∀ B', Some B = Some B' → dir rev (bound_cmp isort B' r) ≠ Gt.
Proof.
  split.
  - intros [H HP]. split; [done|]. intros B' [= <-] E. by rewrite E in H.
  - intros [HP H]. split; [|done]. specialize (H B eq_refl). by destruct (dir rev _).
Qed.

Lemma index_scan t isort (bound : option RowBound) (rev : bool) :
  btree_ok (row_cmp isort) t →
  ∃ rows, (cur ← (if rev then values_from_reversed t (bound_cmp isort <$> bound) true
                  else values_from t (bound_cmp isort <$> bound) true);
           collect (S (size t)) cur) = Some rows ∧
    ssorted (compare_rows_rev isort rev) rows ∧
    ∀ r, r ∈ rows ↔ r ∈ elems (root t) ∧ ∀ B, bound = Some B → dir rev (bound_cmp isort B r) ≠ Gt.
Proof.
  intros Ht. pose proof Ht as (_ & Hs & Hsz).
  assert (∀ b, bound_cmp isort <$> bound = Some b → BoundCmp (row_cmp isort) b) as Hb.
  { intros b. destruct bound; simpl; [|done]. intros [= <-]. apply _. }
  assert (∀ p, length (wanted p (bound_cmp isort <$> bound) (elems (root t))) < S (size t)) as Hlen.
  { intros p. rewrite Hsz. destruct bound as [B|]; simpl; [|lia]. unfold keep.
    pose proof (length_filter (λ x : row, Is_true (p (bound_cmp isort B) x)) (elems (root t))). lia. }
  assert (∀ p, ssorted (row_cmp isort) (wanted p (bound_cmp isort <$> bound) (elems (root t)))) as Hws.
  { intros p. destruct bound; simpl; [by apply keep_sorted|done]. }
  destruct rev.
  - destruct (values_from_reversed_spec (row_cmp isort) t _ true (S (size t)) Ht Hb) as (c & -> & Hp).
    eexists. split; [cbn [mbind option_bind]; apply collect_pulls; [exact Hp|by rewrite length_reverse]|].
    split; [by apply (ssorted_reverse (row_cmp isort))|].
    intros r. rewrite elem_of_reverse. destruct bound as [B|]; simpl; [|naive_solver].
    rewrite elem_of_keep, <-(reached true isort B r). unfold at_or_before.
    by destruct (bound_cmp isort B r).
  - destruct (values_from_spec (row_cmp isort) t _ true (S (size t)) Ht Hb) as (c & -> & Hp).
    eexists. split; [cbn [mbind option_bind]; apply collect_pulls; [exact Hp|done]|].
    split; [done|].
    intros r. destruct bound as [B|]; simpl; [|naive_solver].
    rewrite elem_of_keep, <-(reached false isort B r). done.
Qed.

(** ** The chain after the scan *)

Definition start_ok (st : option Start) (sort : Sort) (rev : bool) (r : row) : bool :=
  match st with Some s => start_test s sort rev r | None => true end.

Lemma start_filter_app st sort rev b X Y :
  ∃ Y', start_filter st sort rev b (X ++ Y) = start_filter st sort rev b X ++ Y' ∧
    ∀ y, y ∈ Y' → y ∈ Y.
Proof.
  revert b. induction X as [|x X IH]; intros b.
  { simpl. exists (start_filter st sort rev b Y). split; [done|]. clear. revert b.
    induction Y as [|y Y IH]; intros b z Hz; [done|]. cbn [start_filter] in Hz.
    destruct (if b then true else _) in Hz.
    - apply elem_of_cons in Hz as [->|Hz]; [by left|]. right. by eapply IH.
    - right. by eapply IH. }
  cbn [app start_filter]. destruct (if b then true else _).
  - destruct (IH true) as (Y' & -> & HY). by exists Y'.
  - destruct (IH false) as (Y' & -> & HY). by exists Y'.
Qed.

Lemma generate_with_start_app st sort rev X Y :
  st = None ∨ StronglySorted (λ a b, compare_rows_rev sort rev a b ≠ Gt) X →
  ∃ Y', generate_with_start (X ++ Y) st sort rev = keep (start_ok st sort rev) X ++ Y' ∧
    ∀ y, y ∈ Y' → y ∈ Y.
Proof.
  intros H. destruct st as [s|]; simpl.
  - destruct H as [?|H]; [done|]. destruct (start_filter_app s sort rev false X Y) as (Y' & -> & HY).
    exists Y'. split; [|done]. by rewrite start_filter_keep.
  - exists Y. split; [|done]. by rewrite keep_all by (apply Forall_forall; done).
Qed.

Lemma take_while_all (C : row → bool) X Y :
  (∀ x, x ∈ X → C x = true) → take_while C (X ++ Y) = X ++ take_while C Y.
Proof.
  induction X as [|x X IH]; intros H; [done|]. simpl. rewrite (H x) by (by left).
  rewrite IH; [done|]. intros y Hy. apply H. by right.
Qed.

Lemma keep_take_while_none (C P : row → bool) Y :
  (∀ y, y ∈ Y → C y && P y = false) → keep P (take_while C Y) = [].
Proof.
  induction Y as [|y Y IH]; intros H; [done|]. simpl. specialize (H y ltac:(by left)) as Hy.
  destruct (C y); [|done]. simpl in Hy. rewrite keep_cons, Hy. apply IH. intros z Hz. apply H. by right.
Qed.

Lemma keep_keep (p q : row → bool) l : keep p (keep q l) = keep (λ x, q x && p x) l.
Proof.
  induction l as [|x l IH]; [done|]. rewrite !keep_cons. destruct (q x); [|done].
  rewrite keep_cons. simpl. by rewrite IH.
Qed.

(** The start gate, the constraint's cut and the filter, on a scan whose
    leading rows agree on the constraint and whose other rows are not asked for. *)
Lemma chain st sort rev (C P : row → bool) X Y :
  st = None ∨ StronglySorted (λ a b, compare_rows_rev sort rev a b ≠ Gt) X →
  (∀ x y, x ∈ X → y ∈ X → C x = C y) → (∀ y, y ∈ Y → C y && P y = false) →
  keep P (take_while C (generate_with_start (X ++ Y) st sort rev)) =
    keep (λ r, start_ok st sort rev r && (C r && P r)) X.
Proof.
  intros Hs HC HY. destruct (generate_with_start_app st sort rev X Y Hs) as (Y' & -> & HY').
  assert (∀ y, y ∈ Y' → C y && P y = false) as HYn by auto. clear HY HY' Hs.
  assert (∀ x, x ∈ keep (start_ok st sort rev) X → x ∈ X) as Hsub by (intros x; rewrite elem_of_keep; tauto).
  rewrite <-(keep_keep (λ r, C r && P r)).
  destruct (keep (start_ok st sort rev) X) as [|x X'] eqn:E.
  { simpl. by rewrite keep_take_while_none. }
  destruct (C x) eqn:Hx.
  - assert (∀ y, y ∈ x :: X' → C y = true) as Hall.
    { intros y Hy. rewrite <-Hx. apply HC; apply Hsub; [done|by left]. }
    rewrite take_while_all, keep_app, keep_take_while_none, app_nil_r by done.
    rewrite <-keep_keep. by rewrite (keep_all C) by (by apply Forall_forall).
  - cbn [app take_while]. rewrite Hx. symmetry. apply keep_none, Forall_forall. intros y Hy.
    rewrite (HC y x), Hx; [done|by apply Hsub|apply Hsub; by left].
Qed.

(** A prefix-closed test splits a sorted list. *)
Lemma keep_split (R : row → row → Prop) (M : row → bool) l :
  StronglySorted R l → (∀ x y, x ∈ l → R x y → M y = true → M x = true) →
  l = keep M l ++ keep (λ r, negb (M r)) l.
Proof.
  induction 1 as [|x l Hs IH Hx]; intros HM; [done|]. rewrite !keep_cons.
  destruct (M x) eqn:E; simpl.
  - f_equal. apply IH. intros a b Ha. apply HM. by right.
  - rewrite Forall_forall in Hx.
    assert (∀ y, y ∈ l → M y = false) as Hn.
    { intros y Hy. destruct (M y) eqn:Ey; [|done]. rewrite <-E. symmetry.
      apply (HM x y); [by left|by apply Hx|done]. }
    rewrite keep_none by (by apply Forall_forall). simpl.
    rewrite keep_all; [done|]. apply Forall_forall. intros y Hy. by rewrite Hn.
Qed.

(** ** The change in flight *)

Section overlays_elem.
Context (cmp : row → row → comparison) `{!TotalCmp cmp}.

Lemma sl_delete_iff y l x : ssorted cmp l → x ∈ sl_delete cmp y l ↔ x ∈ l ∧ cmp x y ≠ Eq.
Proof.
  intros Hs. induction Hs as [|z l Hs IH Hz].
  { simpl. rewrite elem_of_nil. tauto. }
  cbn [sl_delete]. rewrite elem_of_cons. rewrite Forall_forall in Hz.
  destruct (cmp z y) eqn:E; rewrite ?elem_of_cons, ?IH.
  - split; [|naive_solver]. intros Hx. split; [by right|]. intros He. specialize (Hz x Hx).
    rewrite (cmp_eq_r cmp z x y), E in Hz; done.
  - split; [|naive_solver]. intros [->|[? ?]]; [|tauto]. split; [by left|by rewrite E].
  - split; [|naive_solver]. intros [->|[? ?]]; [|tauto]. split; [by left|by rewrite E].
Qed.

(** What a valid overlay does to a table and to any sorted part of it. *)
Lemma apply_overlays_iff o l x :
  ssorted cmp l → (∀ z, ov_add o = Some z → sl_find cmp z (opt_remove cmp (ov_remove o) l) = None) →
  ssorted cmp (apply_overlays cmp (ov_add o) (ov_remove o) l) ∧
  (x ∈ apply_overlays cmp (ov_add o) (ov_remove o) l ↔
   ov_add o = Some x ∨ x ∈ l ∧ ∀ y, ov_remove o = Some y → cmp x y ≠ Eq).
Proof.
  intros Hs Ha. unfold apply_overlays. rewrite <-(opt_remove_delete cmp).
  assert (ssorted cmp (opt_remove cmp (ov_remove o) l)) as Hs'.
  { rewrite (opt_remove_delete cmp). destruct (ov_remove o); [by apply sl_delete_sorted|done]. }
  assert (x ∈ opt_remove cmp (ov_remove o) l ↔ x ∈ l ∧ ∀ y, ov_remove o = Some y → cmp x y ≠ Eq) as Hiff.
  { rewrite (opt_remove_delete cmp). destruct (ov_remove o) as [y|].
    - rewrite sl_delete_iff by done. naive_solver.
    - naive_solver. }
  destruct (ov_add o) as [z|].
  - split; [by apply sl_insert_sorted|]. rewrite (sl_insert_perm cmp z) by auto.
    rewrite elem_of_cons, Hiff. naive_solver.
  - split; [done|]. rewrite Hiff. naive_solver.
Qed.
End overlays_elem.

(** The table a connection sees: the change in flight applied once the
    connection was pushed to. *)
Definition view (s : MemorySource) (conn : Connection) (L : list row) : list row :=
  match gate (overlay s) (last_pushed_epoch conn) with
  | Some o => apply_source_change (row_cmp (primary_index_sort s)) (overlay_change o) L
  | None => L
  end.

Definition in_flight (s : MemorySource) (conn : Connection) : Overlays :=
  overlays_from_change (gate (overlay s) (last_pushed_epoch conn)).

Lemma view_overlays s conn L :
  view s conn L =
    apply_overlays (row_cmp (primary_index_sort s)) (ov_add (in_flight s conn)) (ov_remove (in_flight s conn)) L.
Proof.
  unfold view, in_flight, overlays_from_change. destruct (gate _ _) as [[e []]|]; done.
Qed.

(** What a fetch relies on.  The change in flight is one the table allows.  A
    primary-key constraint drawn from a connection's filters pins the whole key
    and is implied by the predicate.  The start row has the columns of the sort,
    lies in the partition the constraint selects, and is not used to page
    through the at most one row of a single-column primary key.  An edit in
    flight through a primary-key seek keeps the requested constraint (such edits
    are split). *)
Record fetch_ready (s : MemorySource) (L : list row) (conn : Connection) (req : FetchRequest) : Prop := {
  fr_overlay o : gate (overlay s) (last_pushed_epoch conn) = Some o →
    change_valid (row_cmp (primary_index_sort s)) (overlay_change o) L;
  fr_pk f pc r : filters conn = Some f → pk_constraint f = Some pc → predicate f r = true →
    cmatch r pc = true;
  fr_pins f pc : filters conn = Some f → pk_constraint f = Some pc →
    ∀ k, k ∈ primary_key s → k ∈ pc.*1;
  fr_start_wide st : start req = Some st →
    Forall (λ k, k.1 < length (start_row st)) (conn_sort conn);
  fr_start_match st c : start req = Some st → fetch_or_pk conn req = Some c →
    cmatch (start_row st) c = true;
  fr_start_key c : fetch_or_pk conn req = Some c →
    length (primary_key s) ≤ 1 → constraint_matches_primary_key c (primary_key s) = true →
    start req = None;
  fr_edit o r old f pc rc : gate (overlay s) (last_pushed_epoch conn) = Some o →
    overlay_change o = SEdit r old → filters conn = Some f → pk_constraint f = Some pc →
    req_constraint req = Some rc → cmatch r rc = cmatch old rc
}.

(** The rows a request asks for. *)
Definition req_ok (req : FetchRequest) (r : row) : bool :=
  match req_constraint req with Some c => cmatch r c | None => true end.

Definition wants (conn : Connection) (req : FetchRequest) (r : row) : bool :=
  start_ok (start req) (conn_sort conn) (req_reverse req) r && (req_ok req r && accepts conn r).

(** ** One fetch *)

Section fetch.
Context (s : MemorySource) (L : list row) (conn : Connection) (req : FetchRequest).
Context (Hok : ms_ok s L) (Hcov : covers (conn_sort conn) (primary_key s)) (Hready : fetch_ready s L conn req).

#[local] Abbreviation rev := (req_reverse req).
#[local] Abbreviation csort := (conn_sort conn).
#[local] Abbreviation isort := (fetch_index_sort s conn req).
#[local] Abbreviation icmp := (compare_rows_rev isort rev).
#[local] Abbreviation ov := (in_flight s conn).

(** The test the seek narrows to. *)
Definition seek_ok (r : row) : bool :=
  match fetch_or_pk conn req with Some c => cmatch r c | None => true end.

Definition scan_bound : option (option RowBound) :=
  match fetch_or_pk conn req with
  | Some c => Some (Some (build_scan_start c isort rev))
  | None => match start req with
            | Some st => b ← row_bound_of (start_row st) isort; Some (Some b)
            | None => Some None
            end
  end.

Definition reach (bound : option RowBound) (r : row) : Prop :=
  ∀ B, bound = Some B → dir rev (bound_cmp isort B r) ≠ Gt.

(** The index sort: the constraint's columns, then the connection's sort unless
    the constraint is the single-column key. *)
Lemma isort_shape :
  (fetch_or_pk conn req = None ∧ isort = csort) ∨
  ∃ c rest, fetch_or_pk conn req = Some c ∧ isort = asc_cols c ++ rest ∧
    (rest = csort ∨ rest = [] ∧ start req = None ∧ ∀ k, k ∈ primary_key s → k ∈ c.*1).
Proof.
  unfold fetch_index_sort. pose proof (fr_start_key _ _ _ _ Hready) as Hkey.
  destruct (fetch_or_pk conn req) as [c|].
  - right. exists c. fold (asc_cols c). case_bool_decide as Hl; simpl.
    { exists csort. split_and!; [done..|by left]. }
    destruct (constraint_matches_primary_key c (primary_key s)) eqn:E; simpl.
    + exists []. rewrite app_nil_r. split_and!; [done..|]. right. split; [done|].
      split; [apply (Hkey c); [done|lia|done]|].
      intros k Hk. unfold constraint_matches_primary_key in E.
      destruct (negb _); [done|]. rewrite forallb_forall in E. specialize (E k). rewrite <-list_elem_of_In, existsb_exists in E.
      destruct (E Hk) as ([k' v] & Hin & Heq%Nat.eqb_eq). simpl in Heq. subst.
      apply list_elem_of_fmap. exists (k, v). split; [done|]. by apply list_elem_of_In.
    + exists csort. split_and!; [done..|by left].
  - left. split; [done|]. by rewrite orb_true_r.
Qed.

Lemma isort_covers : covers isort (primary_key s).
Proof.
  destruct isort_shape as [[_ ->]|(c & rest & _ & -> & Hrest)]; [done|]. intros k Hk.
  rewrite fmap_app, asc_cols_fst. apply elem_of_app.
  destruct Hrest as [->|(_ & _ & Hc)]; [right; by apply Hcov|left; by apply Hc].
Qed.

(** On the rows of the seek the index order is the connection's order. *)
Lemma seek_order x y :
  seek_ok x = true → seek_ok y = true →
  icmp x y = compare_rows_rev csort rev x y ∨ icmp x y = Eq ∧ start req = None.
Proof.
  unfold seek_ok, compare_rows_rev. destruct isort_shape as [[-> ->]|(c & rest & -> & -> & Hrest)]; [by left|].
  intros Hx Hy. rewrite row_cmp_match by done.
  destruct Hrest as [->|(-> & Hst & _)]; [by left|]. right. simpl. by destruct rev.
Qed.

Lemma wants_seek r : req_ok req r && accepts conn r = true → seek_ok r = true.
Proof.
  intros [HC HP]%andb_prop. unfold seek_ok, fetch_or_pk. destruct (f ← filters conn; pk_constraint f) as [pc|] eqn:E.
  - destruct (filters conn) as [f|] eqn:Hf; [|done]. simpl in E.
    apply (fr_pk _ _ _ _ Hready f pc r Hf E). unfold accepts, conn_predicate in HP. by rewrite Hf in HP.
  - done.
Qed.

Lemma scan_bound_spec :
  ∃ bound, scan_bound = Some bound ∧
    (∀ r, wants conn req r = true → reach bound r) ∧
    (∀ x y, reach bound x → icmp x y ≠ Gt → seek_ok y = true → seek_ok x = true).
Proof.
  unfold scan_bound, reach, seek_ok.
  destruct isort_shape as [[Hf Hi]|(c & rest & Hf & Hi & _)]; rewrite Hf.
  - destruct (start req) as [st|] eqn:Hst.
    2: { exists None. split_and!; [done|done|done]. }
    destruct (row_bound_of_wide (start_row st) csort (fr_start_wide _ _ _ _ Hready st Hst)) as [b Hb].
    rewrite Hi, Hb. eexists. split; [done|]. split; [|done].
    intros r Hw B [= <-]. rewrite (row_bound_cmp _ _ _ _ Hb).
    unfold wants, start_ok in Hw. rewrite Hst in Hw. apply andb_prop in Hw as [Hw _].
    change (compare_rows_rev csort rev (start_row st) r ≠ Gt).
    rewrite (cmp_opp r (start_row st)). unfold start_test in Hw.
    by destruct (basis st), (compare_rows_rev csort rev r (start_row st)).
  - eexists. split; [done|]. split.
    + intros r Hw B [= <-]. apply scan_reaches. unfold wants in Hw. apply andb_prop in Hw as [_ Hw].
      apply wants_seek in Hw. unfold seek_ok in Hw. by rewrite Hf in Hw.
    + intros x y Hx Hxy Hy. apply (cmatch_tie x y); [done|]. specialize (Hx _ eq_refl). rewrite Hi in *.
      apply (squeeze c rest (build_scan_start c (asc_cols c ++ rest) rev) rev); [|done|done].
      by apply scan_pins.
Qed.

(** Whoever is wanted survives the narrowing of the overlay. *)
Lemma wants_narrow r :
  wants conn req r = true →
  start_match (start_row <$> start req) isort rev r &&
    req_match (req_constraint req) (conn_predicate conn) [] r = true.
Proof.
  intros Hw. pose proof Hw as [Hs Hcp]%andb_prop. pose proof (wants_seek r Hcp) as Hm.
  apply andb_true_intro. split.
  - unfold start_match. destruct (start req) as [st|] eqn:Hst; [|done]. simpl.
    assert (seek_ok (start_row st) = true) as Hms.
    { unfold seek_ok. destruct (fetch_or_pk conn req) as [c|] eqn:Hf; [|done].
      by apply (fr_start_match _ _ _ _ Hready st c). }
    destruct (seek_order r (start_row st) Hm Hms) as [->|[_ ?]]; [|congruence].
    unfold start_ok, start_test in Hs. by destruct (basis st), (compare_rows_rev csort rev r (start_row st)).
  - apply andb_prop in Hcp as [HC HP]. unfold req_match, multi_match. simpl.
    unfold req_ok in HC. unfold accepts in HP. rewrite HC. done.
Qed.

(** ** The spliced scan *)

Lemma table_tie x y : x ∈ L → y ∈ L → row_cmp (primary_index_sort s) x y = Eq → x = y.
Proof. intros Hx Hy. apply (ssorted_tie (row_cmp (primary_index_sort s)) L); [apply Hok|done..]. Qed.

(** Ties in the order of the index are ties of the primary key. *)
Lemma icmp_tie x y : icmp x y = Eq → row_cmp (primary_index_sort s) x y = Eq.
Proof.
  intros H. rewrite (mo_psort _ _ Hok). apply (covers_tie isort); [apply isort_covers|].
  unfold compare_rows_rev in H. by destruct rev, (row_cmp isort x y).
Qed.

Lemma in_flight_remove y : ov_remove ov = Some y → y ∈ L.
Proof.
  unfold in_flight, overlays_from_change. pose proof (fr_overlay _ _ _ _ Hready) as Hv.
  destruct (gate _ _) as [[e c]|]; [|done]. specialize (Hv _ eq_refl).
  destruct c; simpl in *; naive_solver.
Qed.

Lemma in_flight_add z x :
  ov_add ov = Some z → x ∈ L → row_cmp (primary_index_sort s) x z = Eq → ov_remove ov = Some x.
Proof.
  pose proof (mo_sorted _ _ Hok) as HL. pose proof table_tie as Htie.
  unfold in_flight, overlays_from_change. pose proof (fr_overlay _ _ _ _ Hready) as Hv.
  destruct (gate _ _) as [[e c]|]; [|done]. specialize (Hv _ eq_refl).
  set (cmp := row_cmp (primary_index_sort s)) in *.
  destruct c as [r|r|r old]; simpl in *; intros [= <-] Hx Ht.
  - rewrite (sl_find_None cmp) in Hv. by destruct (Hv x Hx).
  - destruct Hv as [Hold Hv]. rewrite (sl_find_None cmp) in Hv. f_equal.
    destruct (cmp x old) eqn:E; [symmetry; by apply Htie|..].
    all: destruct (Hv x); [|done]; apply sl_delete_iff; [apply _|done|]; by rewrite E.
Qed.

(** The change in flight applied to rows of the table, in any order whose ties
    are ties of the key. *)
Lemma applied (cmp : row → row → comparison) (Hcmp : TotalCmp cmp) (rows : list row) :
  (∀ x y, cmp x y = Eq → row_cmp (primary_index_sort s) x y = Eq) →
  ssorted cmp rows → (∀ x, x ∈ rows → x ∈ L) →
  (∀ z, ov_add ov = Some z → sl_find cmp z (opt_remove cmp (ov_remove ov) rows) = None) ∧
  ssorted cmp (apply_overlays cmp (ov_add ov) (ov_remove ov) rows) ∧
  ∀ r, r ∈ apply_overlays cmp (ov_add ov) (ov_remove ov) rows ↔
    ov_add ov = Some r ∨ r ∈ rows ∧ ov_remove ov ≠ Some r.
Proof.
  intros Htie Hs Hsub.
  assert (∀ z, ov_add ov = Some z → sl_find cmp z (opt_remove cmp (ov_remove ov) rows) = None) as Ha.
  { intros z Hz. apply (sl_find_None cmp). intros x Hx Ht. pose proof (opt_remove_elem cmp _ _ _ Hx) as Hxr.
    pose proof (in_flight_add z x Hz (Hsub x Hxr) (Htie _ _ Ht)) as Hrem.
    rewrite Hrem, (opt_remove_delete cmp), (sl_delete_iff cmp x rows x Hs) in Hx.
    destruct Hx as [_ Hx]. by rewrite cmp_refl in Hx. }
  split_and!; [done|apply (apply_overlays_iff cmp ov rows [] Hs Ha)|].
  intros r. destruct (apply_overlays_iff cmp ov rows r Hs Ha) as [_ ->].
  split; (intros [?|[Hr Hn]]; [by left|right]); (split; [done|]).
  - intros Hrem. specialize (Hn r Hrem). by rewrite cmp_refl in Hn.
  - intros y Hy E. apply Hn. rewrite Hy. f_equal. symmetry.
    apply table_tie; [by apply Hsub|by apply in_flight_remove|by apply Htie].
Qed.

Lemma spliced (rows : list row) :
  ssorted icmp rows → (∀ x, x ∈ rows → x ∈ L) →
  ssorted icmp (splice_list icmp (ov_add ov) (ov_remove ov) rows) ∧
  ∀ r, r ∈ splice_list icmp (ov_add ov) (ov_remove ov) rows ↔
    ov_add ov = Some r ∨ r ∈ rows ∧ ov_remove ov ≠ Some r.
Proof.
  intros Hs Hsub. destruct (applied icmp _ rows icmp_tie Hs Hsub) as (Ha & H).
  by rewrite (splice_list_spec icmp).
Qed.

Lemma view_elem r : r ∈ view s conn L ↔ ov_add ov = Some r ∨ r ∈ L ∧ ov_remove ov ≠ Some r.
Proof.
  rewrite view_overlays.
  apply (applied (row_cmp (primary_index_sort s)) _ L); [done|apply Hok|done].
Qed.

(** The rows of a seek agree on the requested constraint. *)
Lemma seek_agrees (rows : list row) (q : row → bool) x y :
  (∀ x, x ∈ rows → x ∈ L) → (∀ r, q r = true → req_ok req r = true) →
  x ∈ rows ∨ ofilter q (ov_add ov) = Some x → y ∈ rows ∨ ofilter q (ov_add ov) = Some y →
  seek_ok x = true → seek_ok y = true → req_ok req x = req_ok req y.
Proof.
  intros Hsub Hq. unfold seek_ok, fetch_or_pk.
  destruct (f ← filters conn; pk_constraint f) as [pc|] eqn:Hpc.
  2: { unfold req_ok. destruct (req_constraint req); [|done]. intros _ _ -> ->. done. }
  destruct (filters conn) as [f|] eqn:Hf; [|done]. simpl in Hpc.
  intros Hx Hy Hmx Hmy. assert (row_cmp (primary_index_sort s) x y = Eq) as Htie.
  { rewrite (mo_psort _ _ Hok). apply row_cmp_Eq. intros k asc [Hk _]%elem_of_pk_sort.
    apply (cmatch_ties x y pc); [done..|]. by apply (fr_pins _ _ _ _ Hready f pc Hf Hpc). }
  assert (∀ x y, x ∈ rows → ofilter q (ov_add ov) = Some y →
    row_cmp (primary_index_sort s) x y = Eq → req_ok req x = req_ok req y) as Hmix.
  { clear x y Hx Hy Hmx Hmy Htie. intros x y Hx Hy Ht.
    assert (ov_add ov = Some y) as Hadd by (destruct (ov_add ov) as [z|]; simpl in Hy; [|done]; destruct (q z); congruence).
    pose proof (in_flight_add y x Hadd (Hsub x Hx) Ht) as Hrem.
    unfold req_ok. destruct (req_constraint req) as [rc|] eqn:Hrc; [|done]. symmetry.
    pose proof (fr_edit _ _ _ _ Hready) as He. unfold in_flight, overlays_from_change in Hadd, Hrem.
    destruct (gate _ _) as [[e c]|] eqn:Hg; [|done]. destruct c; simpl in Hadd, Hrem; simplify_eq.
    by apply (He _ y x f pc rc eq_refl). }
  destruct Hx as [Hx|Hx], Hy as [Hy|Hy].
  - by rewrite (table_tie x y (Hsub x Hx) (Hsub y Hy) Htie).
  - by apply Hmix.
  - symmetry. apply Hmix; [done..|]. by apply (cmp_eq_sym (row_cmp (primary_index_sort s))).
  - congruence.
Qed.

Definition narrowing (r : row) : bool :=
  start_match (start_row <$> start req) isort rev r &&
    req_match (req_constraint req) (conn_predicate conn) [] r.

Lemma narrowing_req r : narrowing r = true → req_ok req r && accepts conn r = true.
Proof. intros [_ H]%andb_prop. unfold req_match in H. simpl in H. exact H. Qed.

(** A test that implies another absorbs it. *)
Lemma keep_absorb (p q : row → bool) l : (∀ r, p r = true → q r = true) → keep p (keep q l) = keep p l.
Proof.
  intros H. rewrite keep_keep. apply keep_ext. intros r _. specialize (H r).
  destruct (p r); [by rewrite H|by rewrite andb_false_r].
Qed.

Lemma keep_sorted_sub (R R' : row → row → Prop) (M : row → bool) l :
  (∀ x y, M x = true → M y = true → R x y → R' x y) → StronglySorted R l → StronglySorted R' (keep M l).
Proof.
  intros HR. induction 1 as [|x l Hs IH Hx]; [constructor|]. rewrite keep_cons.
  destruct (M x) eqn:E; [|done]. constructor; [done|]. rewrite Forall_forall in Hx |- *.
  intros y [Hy Hin]%elem_of_keep. auto.
Qed.

(** The post-scan chain returns the wanted rows of the exact splice. *)
Lemma fetch_chain rows bound :
  ssorted icmp rows → (∀ x, x ∈ rows → x ∈ L ∧ reach bound x) →
  (∀ x y, reach bound x → icmp x y ≠ Gt → seek_ok y = true → seek_ok x = true) →
  keep (accepts conn) (take_while (req_ok req)
    (generate_with_start
      (splice_list icmp (ofilter narrowing (ov_add ov)) (ofilter narrowing (ov_remove ov)) rows)
      (start req) csort rev)) =
  keep (wants conn req) (splice_list icmp (ov_add ov) (ov_remove ov) rows).
Proof.
  intros Hs Hrows Hmono. set (S := splice_list icmp (ofilter narrowing (ov_add ov)) _ rows).
  assert (∀ x, x ∈ S → x ∈ rows ∨ ofilter narrowing (ov_add ov) = Some x) as HS
    by (intros x; apply (splice_list_elem icmp)).
  assert (∀ x, ofilter narrowing (ov_add ov) = Some x → narrowing x = true) as Hadd.
  { intros x Hx. destruct (ov_add ov) as [z|]; simpl in Hx; [|done]. destruct (narrowing z) eqn:E; congruence. }
  pose proof (splice_list_sorted icmp (ofilter narrowing (ov_add ov)) (ofilter narrowing (ov_remove ov)) rows Hs) as HSs.
  fold S in HSs.
  rewrite (keep_split _ seek_ok S HSs).
  2: { intros x y Hx Hxy Hy. destruct (HS x Hx) as [Hr|Ha]; [apply (Hmono x y); [by apply Hrows|done..]|].
       by apply wants_seek, narrowing_req, Hadd. }
  rewrite chain.
  - change (λ r, start_ok (start req) csort rev r && (req_ok req r && accepts conn r)) with (wants conn req).
    rewrite keep_absorb by (intros r [_ Hr]%andb_prop; by apply wants_seek).
    rewrite <-(keep_absorb _ narrowing) by apply wants_narrow. unfold S. rewrite keep_splice_narrow.
    + by rewrite keep_absorb by apply wants_narrow.
    + intros y z Hy Hz He. f_equal. symmetry.
      apply table_tie; [by apply in_flight_remove|by apply Hrows|by apply icmp_tie].
  - destruct (start req) as [st|] eqn:Hst; [right|by left].
    refine (keep_sorted_sub _ _ seek_ok S _ HSs). intros x y Hx Hy Hxy.
    destruct (seek_order x y Hx Hy) as [<-|[_ ?]]; [done|congruence].
  - intros x y [Hmx Hx]%elem_of_keep [Hmy Hy]%elem_of_keep.
    apply (seek_agrees rows narrowing); [by intros z Hz; apply Hrows| |by apply HS..|done|done].
    intros r [Hr _]%narrowing_req%andb_prop. done.
  - intros y [Hm _]%elem_of_keep. apply not_true_is_false. intros H%wants_seek. by rewrite H in Hm.
Qed.
End fetch.

Lemma take_while_true l : take_while (λ _, true) l = l.
Proof. induction l as [|x l IH]; [done|]. simpl. by rewrite IH. Qed.

(** The optional constraint and filter of a fetch, as total tests. *)
Lemma generate_tests conn req l :
  (match conn_predicate conn with
   | Some p => generate_with_filter (generate_with_constraint l (req_constraint req)) p
   | None => generate_with_constraint l (req_constraint req)
   end) = keep (accepts conn) (take_while (req_ok req) l).
Proof.
  assert (generate_with_constraint l (req_constraint req) = take_while (req_ok req) l) as ->.
  { unfold req_ok. destruct (req_constraint req); simpl; [done|]. by rewrite take_while_true. }
  unfold accepts. destruct (conn_predicate conn); [done|].
  by rewrite keep_all by (apply Forall_forall; done).
Qed.

Lemma fetch_single_ok s L id i conn req :
  ms_ok s L → live_ix (ms_conns s) id = Some i → conns (ms_conns s) !! i = Some conn →
  covers (conn_sort conn) (primary_key s) → fetch_ready s L conn req →
  ∃ m out, fetch_single s id req = Some (with_indexes s m, out) ∧
    ms_ok (with_indexes s m) L ∧
    ssorted (compare_rows_rev (conn_sort conn) (req_reverse req)) out ∧
    ∀ r, r ∈ out ↔ r ∈ view s conn L ∧ wants conn req r = true.
Proof.
  intros Hok Hid Hconn Hcov Hready. unfold fetch_single. rewrite Hid. cbn [mbind option_bind].
  rewrite Hconn. cbn [mbind option_bind].
  destruct (ensure_index_ok s L (fetch_index_sort s conn req) Hok) as (m & -> & Hok' & [ix Hix]).
  { by apply (isort_covers s L). }
  cbn [mbind option_bind]. fold (scan_bound s conn req).
  destruct (scan_bound_spec s L conn req Hready) as (bound & -> & Hwants & Hmono).
  cbn [mbind option_bind indexes with_indexes overlay]. rewrite Hix. cbn [mbind option_bind].
  destruct (mo_indexes _ _ Hok' _ _ Hix) as [_ Ht Hperm _].
  destruct (index_scan (ix_data ix) (fetch_index_sort s conn req) bound (req_reverse req) Ht)
    as (rows & Hscan & Hsort & Hrows).
  destruct (if req_reverse req then _ else _) as [cur|]; [|done]. cbn [mbind option_bind] in Hscan |- *.
  rewrite Hscan. cbn [mbind option_bind]. unfold generate_with_overlay.
  rewrite generate_with_overlay_inner_list, compute_overlays_narrow. cbn [mbind option_bind].
  eexists m, _. split; [done|]. split; [done|]. rewrite generate_tests.
  fold (in_flight s conn). fold (narrowing s conn req). unfold narrow. cbn [ov_add ov_remove].
  rewrite (fetch_chain s L conn req Hok Hcov Hready rows bound Hsort); [|intros x Hx|done].
  2: { apply Hrows in Hx as [Hx Hr]. split; [by rewrite <-Hperm|done]. }
  destruct (spliced s L conn req Hok Hcov Hready rows Hsort) as [Hss Hse].
  { intros x Hx. apply Hrows in Hx as [Hx _]. by rewrite <-Hperm. }
  split.
  - apply (keep_sorted_sub (λ a b, compare_rows_rev (fetch_index_sort s conn req) (req_reverse req) a b = Lt));
      [|done]. intros x y [_ Hx]%andb_prop [_ Hy]%andb_prop Hxy.
    destruct (seek_order s L conn req Hready x y) as [<-|[E _]];
      [by apply (wants_seek s L conn req Hready)..|done|congruence].
  - intros r. rewrite elem_of_keep, Hse, (view_elem s L conn req Hok Hready), Hrows, Hperm.
    specialize (Hwants r). unfold reach in Hwants. naive_solver.
Qed.

(** [C3] A fetch returns exactly what it is asked for: on a source that holds
    the table [L], a request without multi-constraints succeeds (building an
    index if need be, which changes nothing else), and yields, in the
    connection's order and without duplicates, the rows of the table with the
    in-flight change applied as far as this connection may see it that lie at or
    after the start, match the constraint and satisfy the predicate. *)
Theorem memory_fetch_spec (s : MemorySource) (L : list row) (id : ConnId) (i : nat)
    (conn : Connection) (req : FetchRequest) :
  ms_ok s L → live_ix (ms_conns s) id = Some i → conns (ms_conns s) !! i = Some conn →
  covers (conn_sort conn) (primary_key s) → fetch_ready s L conn req → has_multi req = false →
  ∃ m out, fetch s id req = Some (with_indexes s m, out) ∧
    ms_ok (with_indexes s m) L ∧
    ssorted (compare_rows_rev (conn_sort conn) (req_reverse req)) out ∧
    ∀ r, r ∈ out ↔ r ∈ view s conn L ∧ wants conn req r = true.
Proof. intros Hok Hid Hc Hcov Hr Hm. unfold fetch. rewrite Hm. by apply (fetch_single_ok s L id i). Qed.

(** Fetching column 1 = 10 from the second connection while row 2 is being
    edited from 20 to 10, paging after row 1. *)
Definition ex_fetching : MemorySource :=
  let t := ms_conns ex_source in
  with_overlay (with_conns ex_source
    (MkTable ((λ c, with_epoch c 7) <$> conns t) (gens t) (free t) (index t)))
    (Some (MkOverlay 7 (SEdit (ex_row 2 10) (ex_row 2 20)))).

Definition ex_req : FetchRequest :=
  MkFetch (Some [(1, Int (i64_of_Z 10))]) [] (Some (MkStart (ex_row 1 10) After)) false.

Lemma memory_fetch_spec_witness :
  ∃ m out, fetch ex_fetching (MkConnId 1 0) ex_req = Some (with_indexes ex_fetching m, out) ∧
    out ≡ₚ [ex_row 2 10].
Proof.
  set (conn := with_epoch (ex_plain (Some (MkEdge 4 Single))) 7).
  destruct (memory_fetch_spec ex_fetching ex_L (MkConnId 1 0) 1 conn ex_req)
    as (m & out & Hf & _ & Hs & Hout).
  - apply ms_ok_parts, ex_ok.
  - reflexivity.
  - reflexivity.
  - apply pk_sort_covers.
  - split.
    + intros o [= <-]. split; [right; by left|vm_compute; reflexivity].
    + intros f pc r Hf. discriminate Hf.
    + intros f pc Hf. discriminate Hf.
    + intros st [= <-]. repeat constructor.
    + intros st c [= <-] [= <-]. vm_compute. reflexivity.
    + intros c [= <-] _ H. vm_compute in H. discriminate H.
    + intros o r old f pc rc _ _ Hf. discriminate Hf.
  - reflexivity.
  - exists m, out. split; [exact Hf|]. apply NoDup_Permutation.
    + by apply (ssorted_NoDup (compare_rows_rev (conn_sort conn) (req_reverse ex_req))).
    + apply (bool_decide_unpack _). vm_compute. done.
    + assert (view ex_fetching conn ex_L = [ex_row 1 10; ex_row 2 10]) as Hv by (vm_compute; reflexivity).
      intros r. rewrite Hout, Hv. split.
      * intros [[->|[->|[]%elem_of_nil]%elem_of_cons]%elem_of_cons Hw]; [vm_compute in Hw; discriminate Hw|by left].
      * intros ->%list_elem_of_singleton. split; [right; by left|vm_compute; reflexivity].
Defined.

(** ** Multi-constraint fetches *)

(** The sub-request of one entry. *)
Definition sub_req (req : FetchRequest) (c : Constraint) : FetchRequest :=
  MkFetch (Some (merge_constraints (req_constraint req) c)) [] (start req) (req_reverse req).

(** What a sub-fetch returns. *)
Definition sub_result (s : MemorySource) (L : list row) (conn : Connection) (req : FetchRequest)
    (c : Constraint) (out : list row) : Prop :=
  ssorted (compare_rows_rev (conn_sort conn) (req_reverse req)) out ∧
  ∀ r, r ∈ out ↔ r ∈ view s conn L ∧ wants conn (sub_req req c) r = true.

Lemma fetch_ready_indexes s m L conn req :
  fetch_ready s L conn req → fetch_ready (with_indexes s m) L conn req.
Proof. by intros []. Qed.

Lemma fetch_subs_ok s L id i conn req cs :
  ms_ok s L → live_ix (ms_conns s) id = Some i → conns (ms_conns s) !! i = Some conn →
  covers (conn_sort conn) (primary_key s) →
  (∀ c, c ∈ cs → fetch_ready s L conn (sub_req req c)) →
  ∃ m outs, fetch_subs s id req cs = Some (with_indexes s m, outs) ∧
    ms_ok (with_indexes s m) L ∧ Forall2 (sub_result s L conn req) cs outs.
Proof.
  intros Hok Hid Hc Hcov. revert s Hok Hid Hc Hcov. induction cs as [|c cs IH]; intros s Hok Hid Hc Hcov Hr.
  { exists (indexes s), []. cbn [fetch_subs]. destruct s. done. }
  cbn [fetch_subs]. fold (sub_req req c).
  destruct (fetch_single_ok s L id i conn (sub_req req c)) as (m & out & -> & Hok1 & Hs & Ho);
    [done..|by apply Hr; left|].
  cbn [mbind option_bind].
  destruct (IH (with_indexes s m)) as (m' & outs & -> & Hok2 & Hf); [done..| |].
  { intros c' Hc'. apply fetch_ready_indexes, Hr. by right. }
  cbn [mbind option_bind]. exists m', (out :: outs). split_and!; [done..|]. by constructor.
Qed.

Lemma sub_results_sorted s L conn req cs outs :
  Forall2 (sub_result s L conn req) cs outs →
  Forall (StronglySorted (λ a b, compare_rows_rev (conn_sort conn) (req_reverse req) a b ≠ Gt)) outs.
Proof.
  induction 1 as [|c out cs outs [Hs _] Hf IH]; constructor; [|done].
  clear -Hs. induction Hs as [|x l Hs IH Hx]; constructor; [done|].
  eapply Forall_impl; [exact Hx|]. intros y Hy. by rewrite Hy.
Qed.

Lemma sub_results_elem s L conn req cs outs r :
  Forall2 (sub_result s L conn req) cs outs →
  r ∈ concat outs ↔ r ∈ view s conn L ∧ ∃ c, c ∈ cs ∧ wants conn (sub_req req c) r = true.
Proof.
  induction 1 as [|c out cs outs [_ Ho] Hf IH]; simpl.
  { rewrite elem_of_nil. split; [done|]. intros (_ & c & ?%elem_of_nil & _). done. }
  rewrite elem_of_app, Ho, IH. setoid_rewrite elem_of_cons. naive_solver.
Qed.

Lemma sub_results_nodup s L conn req cs outs :
  Forall2 (sub_result s L conn req) cs outs →
  (∀ j k c d r, j ≠ k → cs !! j = Some c → cs !! k = Some d →
     wants conn (sub_req req c) r = true → wants conn (sub_req req d) r = false) →
  NoDup (concat outs).
Proof.
  induction 1 as [|c out cs outs [Hs Ho] Hf IH]; intros Hd; [constructor|]. simpl.
  apply NoDup_app. split_and!.
  - by apply (ssorted_NoDup (compare_rows_rev (conn_sort conn) (req_reverse req))).
  - intros r [_ Hr]%Ho. rewrite (sub_results_elem s L conn req cs outs r Hf).
    intros (_ & d & [k Hk]%list_elem_of_lookup & Hw). by rewrite (Hd 0 (S k) c d r) in Hw.
  - apply IH. intros j k c' d r Hjk Hj Hk. apply (Hd (S j) (S k)); [lia|done..].
Qed.

Lemma has_multi_filter req primary rest :
  filter (λ mc, mc ≠ []) (multi_constraints req) = primary :: rest → has_multi req = true.
Proof.
  intros H. assert (primary ∈ filter (λ mc, mc ≠ []) (multi_constraints req)) as [Hn Hin]%list_elem_of_filter
    by (rewrite H; by left).
  unfold has_multi. apply existsb_exists. exists primary. split; [by apply list_elem_of_In|].
  by rewrite bool_decide_eq_false_2.
Qed.

(** The filter of the remaining multi-constraints, also when there is none. *)
Definition rest_match (rest : list MultiConstraint) (r : row) : bool :=
  forallb (λ mc, existsb (cmatch r) mc) rest.

Lemma rest_filter rest l :
  (if decide (rest = []) then l else keep (λ r, forallb (λ mc, existsb (cmatch r) mc) rest) l) =
    keep (rest_match rest) l.
Proof. case_decide as H; [|done]. subst. by rewrite keep_all by (apply Forall_forall; done). Qed.

Lemma rest_match_true rest r :
  rest_match rest r = true ↔ ∀ mc, mc ∈ rest → ∃ c, c ∈ mc ∧ cmatch r c = true.
Proof.
  unfold rest_match. rewrite forallb_forall. setoid_rewrite existsb_exists.
  by setoid_rewrite <-list_elem_of_In.
Qed.

(** [C7] A multi-constraint fetch is the union of its sub-fetches: it merges the
    sorted results of one sub-fetch per entry of the first non-empty
    multi-constraint and keeps the rows that match some entry of every other
    one.  The result is in the connection's order, and has no row twice when no
    row is asked for by two entries. *)
Theorem memory_fetch_multi_spec (s : MemorySource) (L : list row) (id : ConnId) (i : nat)
    (conn : Connection) (req : FetchRequest) (primary : MultiConstraint) (rest : list MultiConstraint) :
  ms_ok s L → live_ix (ms_conns s) id = Some i → conns (ms_conns s) !! i = Some conn →
  covers (conn_sort conn) (primary_key s) →
  filter (λ mc, mc ≠ []) (multi_constraints req) = primary :: rest →
  (∀ c, c ∈ primary → fetch_ready s L conn (sub_req req c)) →
  ∃ m out, fetch s id req = Some (with_indexes s m, out) ∧
    ms_ok (with_indexes s m) L ∧
    StronglySorted (λ a b, compare_rows_rev (conn_sort conn) (req_reverse req) a b ≠ Gt) out ∧
    (∀ r, r ∈ out ↔ r ∈ view s conn L ∧ (∃ c, c ∈ primary ∧ wants conn (sub_req req c) r = true) ∧
       ∀ mc, mc ∈ rest → ∃ c, c ∈ mc ∧ cmatch r c = true) ∧
    ((∀ j k c d r, j ≠ k → primary !! j = Some c → primary !! k = Some d →
        wants conn (sub_req req c) r = true → wants conn (sub_req req d) r = false) → NoDup out).
Proof.
  intros Hok Hid Hc Hcov Hmc Hr. unfold fetch. rewrite (has_multi_filter req primary rest Hmc).
  unfold fetch_multi. rewrite Hmc.
  destruct (fetch_subs_ok s L id i conn req primary Hok Hid Hc Hcov Hr) as (m & outs & -> & Hok' & Hf).
  cbn [mbind option_bind]. unfold table_sort. cbn [ms_conns with_indexes].
  rewrite Hid. cbn [mbind option_bind]. rewrite Hc. cbn [mbind option_bind].
  destruct (merge_streams_spec (compare_rows_rev (conn_sort conn) (req_reverse req)) outs) as (l & Hl & Hs & Hp).
  { by apply (sub_results_sorted s L conn req primary). }
  unfold merge_sorted_streams. rewrite Hl. cbn [mbind option_bind]. rewrite rest_filter.
  eexists m, _. split; [done|]. split; [done|]. split_and!.
  - by eapply keep_sorted_sub, Hs.
  - intros r. rewrite elem_of_keep, Hp, (sub_results_elem s L conn req primary outs r Hf), rest_match_true.
    tauto.
  - intros Hd. apply NoDup_filter. rewrite Hp. by apply (sub_results_nodup s L conn req primary).
Qed.

Lemma lookup_two {A} (a b : A) j c : [a; b] !! j = Some c → j = 0 ∧ c = a ∨ j = 1 ∧ c = b.
Proof. destruct j as [|[|j]]; naive_solver. Qed.

Lemma memory_fetch_multi_spec_witness :
  let entry v := [(1, Int (i64_of_Z v))] in
  let req := MkFetch None [[]; [entry 20; entry 10]%Z] None true in
  ∃ m out, fetch ex_source (MkConnId 1 0) req = Some (with_indexes ex_source m, out) ∧ NoDup out ∧
    ∀ r, r ∈ out ↔ r ∈ ex_L.
Proof.
  intros entry req. set (conn := ex_plain (Some (MkEdge 4 Single))).
  destruct (memory_fetch_multi_spec ex_source ex_L (MkConnId 1 0) 1 conn req [entry 20; entry 10]%Z [])
    as (m & out & Hf & _ & _ & Hout & Hnd).
  - exact ex_ok.
  - reflexivity.
  - reflexivity.
  - apply pk_sort_covers.
  - vm_compute. reflexivity.
  - intros c Hc. split; try done.
  - exists m, out. split; [exact Hf|]. split.
    + apply Hnd. intros j k c d r Hjk Hj Hk Hc. apply not_true_is_false. intros Hd. apply Hjk.
      unfold wants, req_ok in Hc, Hd. simpl in Hc, Hd. rewrite andb_true_r in Hc, Hd.
      rewrite cmatch_iff in Hc, Hd.
      destruct (lookup_two _ _ _ _ Hj) as [[-> ->]|[-> ->]], (lookup_two _ _ _ _ Hk) as [[-> ->]|[-> ->]];
        [reflexivity|exfalso|exfalso|reflexivity].
      all: destruct (Hc 1 _ (list_elem_of_here _ _)) as [_ Hc1]; destruct (Hd 1 _ (list_elem_of_here _ _)) as [_ Hd1].
      all: rewrite (cmp_eq_l (cmp := compare_predicate_values) _ _ _ Hc1) in Hd1; vm_compute in Hd1; discriminate Hd1.
    + intros r. rewrite Hout. split; [by intros [? _]|]. intros Hr. split; [done|].
      split; [|intros mc Hmc; exfalso; exact (proj1 (elem_of_nil mc) Hmc)].
      apply elem_of_cons in Hr as [->|[->|[]%elem_of_nil]%elem_of_cons].
      * exists (entry 10%Z). split; [right; by left|vm_compute; reflexivity].
      * exists (entry 20%Z). split; [by left|vm_compute; reflexivity].
Defined.

(** ** Skipped connections

    A connection the push index skips keeps its old epoch, so its reentrant
    fetches do not see the change in flight.  Nor would they see a difference if
    they did. *)

(** With the gate of connection [i] opened at epoch [e]. *)
Definition gate_opened (s : MemorySource) (i : nat) (conn : Connection) (e : Z) : MemorySource :=
  let t := ms_conns s in
  with_conns s (MkTable (<[i := with_epoch conn e]> (conns t)) (gens t) (free t) (index t)).

Lemma gate_opened_ready s L i conn e c req :
  overlay s = Some (MkOverlay e c) →
  fetch_ready (gate_opened s i conn e) L (with_epoch conn e) req → fetch_ready s L conn req.
Proof.
  intros Ho [H1 H2 H3 H4 H5 H6 H7].
  assert (∀ o, gate (overlay s) (last_pushed_epoch conn) = Some o →
    gate (overlay s) e = Some o) as Hgate.
  { intros o. unfold gate. rewrite Ho. simpl. rewrite (bool_decide_eq_true_2 (e ≤ e)%Z) by lia.
    by case_bool_decide. }
  split; [|done..|].
  - intros o Hg. by apply H1, Hgate.
  - intros o r old f pc rc Hg. by apply H7, Hgate.
Qed.

(** A connection whose predicate rejects the change sees the same rows with and
    without it. *)
Lemma rejected_view cmp (Hcmp : TotalCmp cmp) conn c L r :
  ssorted cmp L → change_valid cmp c L → filter_push c (conn_predicate conn) = None →
  r ∈ apply_source_change cmp c L ∧ accepts conn r = true ↔ r ∈ L ∧ accepts conn r = true.
Proof.
  intros HL Hv Hf. unfold accepts. destruct (conn_predicate conn) as [p|]; [|done].
  pose proof (filter_push_keep cmp p c L HL Hv) as Hk. rewrite Hf in Hk.
  rewrite <-!(and_comm (p r = true)), <-!elem_of_keep. by rewrite Hk.
Qed.

Lemma ssorted_elem_eq (cmp : row → row → comparison) `{!TotalCmp cmp} l l' :
  ssorted cmp l → ssorted cmp l' → (∀ r, r ∈ l ↔ r ∈ l') → l = l'.
Proof.
  intros Hs Hs' H. apply (ssorted_perm_eq cmp); [done..|].
  apply NoDup_Permutation; [by apply (ssorted_NoDup cmp)..|done].
Qed.

Lemma gate_irrelevant s L i conn c e r :
  ms_ok s L → overlay s = Some (MkOverlay e c) →
  change_valid (row_cmp (primary_index_sort s)) c L → filter_push c (conn_predicate conn) = None →
  r ∈ view s conn L ∧ accepts conn r = true ↔
  r ∈ view (gate_opened s i conn e) (with_epoch conn e) L ∧ accepts conn r = true.
Proof.
  intros Hok Ho Hv Hf. unfold view, gate. simpl. rewrite Ho. simpl.
  rewrite (bool_decide_eq_true_2 (e ≤ e)%Z) by lia. simpl.
  pose proof (rejected_view _ _ conn c L r (mo_sorted _ _ Hok) Hv Hf) as H.
  case_bool_decide; [done|]. by rewrite H.
Qed.

(** Skipping a connection in the fan-out is invisible to the fetches made
    during the push: a wired connection that is not a push candidate reads the
    same rows, in the same order, as it would had the push visited it and opened
    its epoch gate. *)
Theorem skipped_connection_reads_same (s : MemorySource) (L : list row) (live dead : list ConnId)
    (id : ConnId) (conn : Connection) (req : FetchRequest) (c : source_change) (e : Z) (cands : list nat) :
  ms_ok s L → conn_reach (ms_conns s) live dead → guards_sound (ms_conns s) →
  change_wide (index (ms_conns s)) c → table_push_candidates (ms_conns s) c = Some cands →
  id ∈ live → conns (ms_conns s) !! cid_idx id = Some conn → is_Some (output conn) →
  cid_idx id ∉ cands → overlay s = Some (MkOverlay e c) →
  covers (conn_sort conn) (primary_key s) → has_multi req = false →
  fetch_ready (gate_opened s (cid_idx id) conn e) L (with_epoch conn e) req →
  ∃ m m' out, fetch s id req = Some (with_indexes s m, out) ∧
    fetch (gate_opened s (cid_idx id) conn e) id req =
      Some (with_indexes (gate_opened s (cid_idx id) conn e) m', out).
Proof.
  intros Hok Hr Hg Hw Hc Hid Hconn [edge Hout] Hn Ho Hcov Hm Hrdy.
  pose proof (conn_reach_ok _ _ _ Hr) as Htab.
  pose proof (live_ix_live _ _ _ id Htab Hid) as Hlive.
  pose proof (lookup_lt_Some _ _ _ Hconn) as Hlt.
  destruct (candidates_exact _ _ _ c cands Hr Hw Hg Hc) as (_ & _ & Hnone).
  specialize (Hnone (cid_idx id) Hlt Hn). unfold slot_change in Hnone.
  rewrite Hconn in Hnone. cbn [mbind option_bind] in Hnone. rewrite Hout in Hnone. cbn [mbind option_bind] in Hnone.
  set (s' := gate_opened s (cid_idx id) conn e) in *.
  destruct (fetch_single_ok s L id (cid_idx id) conn req) as (m & out & Hf & _ & Hs & He);
    [done..|by eapply gate_opened_ready|].
  destruct (fetch_single_ok s' L id (cid_idx id) (with_epoch conn e) req) as (m' & out' & Hf' & _ & Hs' & He');
    [by destruct Hok; split|done|simpl; by apply list_lookup_insert_eq|done|done|].
  assert (out = out') as <-.
  { apply (ssorted_elem_eq (compare_rows_rev (conn_sort conn) (req_reverse req))); [done..|].
    intros r. rewrite He, He'. unfold wants.
    change (accepts (with_epoch conn e) r) with (accepts conn r).
    pose proof (gate_irrelevant s L (cid_idx id) conn c e r Hok Ho) as H. fold s' in H.
    specialize (H (fr_overlay _ _ _ _ Hrdy (MkOverlay e c)
      ltac:(unfold gate; simpl; rewrite Ho; simpl; by rewrite bool_decide_eq_true_2 by lia)) Hnone).
    simpl. rewrite !andb_true_iff. tauto. }
  exists m, m', out. unfold fetch. by rewrite Hm.
Qed.

(** Adding a row whose column 1 is 5 skips the connection that shows 20. *)
Lemma skipped_connection_reads_same_witness :
  let s := with_overlay ex_source (Some (MkOverlay 4 (SAdd (ex_row 3 5)))) in
  let s' := gate_opened s 0 (ex_guarded (Some (MkEdge 3 Single))) 4 in
  ∃ m m' out, fetch s (MkConnId 0 0) fetch_all = Some (with_indexes s m, out) ∧
    fetch s' (MkConnId 0 0) fetch_all = Some (with_indexes s' m', out).
Proof.
  intros s s'.
  apply (skipped_connection_reads_same s ex_L ex_live [] (MkConnId 0 0)
    (ex_guarded (Some (MkEdge 3 Single))) fetch_all (SAdd (ex_row 3 5)) 4 [1]).
  - apply (ms_ok_parts ex_source ex_table), ex_ok.
  - exact ex_reach.
  - exact ex_guards.
  - apply ex_wide. intros r ->%list_elem_of_singleton. reflexivity.
  - vm_compute. reflexivity.
  - right. left.
  - reflexivity.
  - by eexists.
  - apply (bool_decide_unpack _). vm_compute. done.
  - reflexivity.
  - apply pk_sort_covers.
  - reflexivity.
  - split; try done.
    + intros o [= <-]. vm_compute. reflexivity.
    + intros f pc r [= <-] Hpc. discriminate Hpc.
    + intros f pc [= <-] Hpc. discriminate Hpc.
Defined.

(** ** Why two requirements are needed

    A one-row table whose row (2, 7) is being edited to (2, 3), read through a
    connection that already saw the push. *)

Definition one_row_source (conn : Connection) : MemorySource :=
  MkSource (schema_new [[]; []] [0] [(0, true)]) [0] [(0, true)]
    {[ [(0, true)] := MkIx [(0, true)] (BTree (Leaf [ex_row 2 7]) 1)]}
    (MkTable [conn] [0%Z] [] push_index_new) (Some (MkOverlay 9 (SEdit (ex_row 2 3) (ex_row 2 7)))) 9.

Definition cell_is (c : nat) (v : Z) (r : row) : bool :=
  match r !! c with Some x => values_identical (Int (i64_of_Z v)) x | None => false end.

(** Pages by column 1 and hides the rows where it is 7. *)
Definition hide_seven : Connection :=
  MkConn [(1, true); (0, true)] false []
    (Some (MkFilters (λ r, negb (cell_is 1 7 r)) None true None None)) 9 None.

(** Key 2, from column 1 = 5 on. *)
Definition from_five : FetchRequest :=
  MkFetch (Some [(0, Int (i64_of_Z 2))]) [] (Some (MkStart (ex_row 2 5) At)) false.

(** Filters on key 2, and seeks by it. *)
Definition only_two : Connection :=
  MkConn [(0, true)] false []
    (Some (MkFilters (cell_is 0 2) (Some [(0, Int (i64_of_Z 2))]) true None None)) 9 None.

Definition where_three : FetchRequest := MkFetch (Some [(1, Int (i64_of_Z 3))]) [] None false.

