(* ===== verification/Optimistic.v ===== *)
(** * Optimistic tables and the rewind ([rust/src/optimistic.rs])

    A tracked table keeps a [sync] tree: the rows the server has confirmed.  The
    live table runs ahead of it by the writes not confirmed yet.  [rewind] folds
    a server delta into [sync] and pushes, through the live pipeline, the changes
    that take the live table there; [sync] is then forked again from the live
    table.

    The graph is used through two operations, the interface [RewindGraph]:
    borrowing a memory source, and pushing a change into it.  What the rewind
    relies on is the class [RewindGraphLaws].  [SinkGraph] is the graph of memory
    sources whose connections end in change collectors; it meets the laws.

    The [BTreeMap] of tables is an ordered association list keyed by the bytes of
    the name; [debug] stands for the [{:?}] rendering of a name.  A panic is
    [None]; an operation that fails returns its error with the state it
    reached. *)

From stdpp Require Import base list numbers option sorting gmap sets strings.
From Stdlib Require Import ZArith Lia Strings.Byte.
From S2P Require Import Prelude Values Rows Schema BTree BTreeFacts Change BTreeDiff BTreeDiffFacts OrdMap PushIndex Connections Overlay Errors Push MemorySource MemorySourceFacts SourcePush.

(** ** The graph, as the rewind uses it *)

Class RewindGraph (G : Type) := {
  memory_source : G → nat → option MemorySource;
  try_source_push : G → nat → source_change → option (G * (RindleError + unit))
}.

Definition fork_primary (s : MemorySource) : option (btree row) :=
  ix ← indexes s !! primary_index_sort s; Some (btree_fork (ix_data ix)).

Definition primary_sort (s : MemorySource) : Sort := primary_index_sort s.

Abbreviation table_name := (list byte).

Record SyncEntry := MkSync {
  se_source : nat;
  se_sync : btree row;
  se_sort : Sort
}.

Record OptimisticTables := MkTables { tables : list (table_name * SyncEntry) }.

Definition optimistic_new : OptimisticTables := MkTables [].

Section optimistic.
Context {G : Type} `{!RewindGraph G}.
Context (debug : table_name → string).
Context (same_node : table_name → bnode row → bnode row → bool).
Context (same_row : table_name → row → row → bool).

Definition is_tracked (o : OptimisticTables) (table : table_name) : bool :=
  match om_get bytes_cmp table (tables o) with Some _ => true | None => false end.

Definition track (o : OptimisticTables) (g : G) (table : table_name) (source : nat) :
    option (OptimisticTables * (RindleError + unit)) :=
  if is_tracked o table then Some (o, inr tt)
  else
    match memory_source g source with
    | None =>
        Some (o, inl (schema_violation ("optimistic tracking needs an in-memory source for table " +:+ debug table)))
    | Some ms =>
        sync ← fork_primary ms;
        Some (MkTables (om_insert bytes_cmp table (MkSync source sync (primary_sort ms)) (tables o)), inr tt)
    end.

Definition forget (o : OptimisticTables) (table : table_name) : OptimisticTables :=
  MkTables (om_remove bytes_cmp table (tables o)).

(** [for c in rewind { graph.try_source_push(entry.source, c)?; }] *)
Fixpoint push_rewind (g : G) (source : nat) (cs : list source_change) : option (G * (RindleError + unit)) :=
  match cs with
  | [] => Some (g, inr tt)
  | c :: cs =>
      '(g, res) ← try_source_push g source c;
      match res with
      | inl err => Some (g, inl err)
      | inr _ => push_rewind g source cs
      end
  end.

(** Steps 1 to 4 for one table. *)
Definition rewind_table (g : G) (table : table_name) (entry : SyncEntry) (ds : list source_change) :
    option (G * (RindleError + SyncEntry)) :=
  s_prime ← try_foldl (λ t c, apply_source_change_to_tree t c (se_sort entry)) (btree_fork (se_sync entry)) ds;
  ms ← memory_source g (se_source entry);
  head ← fork_primary ms;
  cs ← structural_diff (same_node table) (same_row table) head s_prime (se_sort entry);
  '(g, res) ← push_rewind g (se_source entry) cs;
  match res with
  | inl err => Some (g, inl err)
  | inr _ =>
      ms ← memory_source g (se_source entry);
      sync ← fork_primary ms;
      Some (g, inr (MkSync (se_source entry) sync (se_sort entry)))
  end.

(** The loop over [tables.iter_mut()]: an error keeps the entries already
    written and leaves the others. *)
Fixpoint rewind_tables (g : G) (ts : list (table_name * SyncEntry))
    (deltas : list (table_name * list source_change)) :
    option (list (table_name * SyncEntry) * G * (RindleError + unit)) :=
  match ts with
  | [] => Some ([], g, inr tt)
  | (table, entry) :: ts =>
      '(g, res) ← rewind_table g table entry (default [] (om_get bytes_cmp table deltas));
      match res with
      | inl err => Some ((table, entry) :: ts, g, inl err)
      | inr entry => '(ts, g, res) ← rewind_tables g ts deltas; Some ((table, entry) :: ts, g, res)
      end
  end.

(** The first delta for a table that is not tracked. *)
Definition untracked_delta (o : OptimisticTables) (deltas : list (table_name * list source_change)) :
    option table_name :=
  List.find (λ table, negb (is_tracked o table)) deltas.*1.

Definition rewind (o : OptimisticTables) (g : G) (deltas : list (table_name * list source_change)) :
    option (OptimisticTables * G * (RindleError + unit)) :=
  match untracked_delta o deltas with
  | Some table =>
      Some (o, g, inl (schema_violation
        ("server delta for untracked (local-only or unknown) table " +:+ debug table)))
  | None =>
      '(ts, g, res) ← rewind_tables g (tables o) deltas;
      Some (MkTables ts, g, res)
  end.
End optimistic.

(** ** A graph of sources and collectors

    The graph whose connections end in collectors: a push into a source records
    what every connection delivers, wrapped into a change of leaf nodes, with the
    node it is delivered to.  No operator records a runtime error. *)

Definition source_change_to_node (c : source_change) : change :=
  match c with
  | SAdd r => Add (leaf_node r)
  | SRemove r => Remove (leaf_node r)
  | SEdit r old => Edit (leaf_node r) (leaf_node old)
  end.

Record SinkGraph := MkSinkGraph {
  sg_sources : gmap nat MemorySource;
  validate_changes : bool;
  collected : list (nat * change)
}.

(** The closure handed to [try_push]: a slot without an output gets nothing. *)
Definition deliver_to_output (s : MemorySource) (d : nat * source_change * MemorySource) :
    option (nat * change) :=
  conn ← conns (ms_conns s) !! d.1.1; edge ← output conn;
  Some (edge_node edge, source_change_to_node d.1.2).

(** [Graph::try_source_push]: [self.source] panics where there is none. *)
Definition sink_try_source_push (g : SinkGraph) (id : nat) (c : source_change) :
    option (SinkGraph * (RindleError + unit)) :=
  s ← sg_sources g !! id;
  '(s', log, res) ← try_push s c (validate_changes g);
  Some (MkSinkGraph (<[id := s']> (sg_sources g)) (validate_changes g)
          (collected g ++ omap (deliver_to_output s') log), res).

#[export] Instance sink_graph : RewindGraph SinkGraph := {|
  memory_source g id := sg_sources g !! id;
  try_source_push := sink_try_source_push
|}.
