(* ===== verification/OptimisticFacts.v ===== *)
(** * The rewind settles every tracked table

    After a rewind the live table of every tracked name is its [sync] tree with
    the server delta applied, cell by cell, and [sync] is the live table. *)

From stdpp Require Import base list numbers option sorting gmap sets strings.
From Stdlib Require Import ZArith Lia Strings.Byte.
From S2P Require Import Prelude Values Rows Schema BTree BTreeFacts Change BTreeDiff BTreeDiffFacts OrdMap PushIndex Connections Overlay Errors Push MemorySource MemorySourceFacts SourcePush Optimistic.

(** ** A diff as source changes *)

Section changes.
Context (cmp : row → row → comparison) `{!TotalCmp cmp}.

Definition apply_source_changes (l : list row) (cs : list source_change) : list row :=
  foldl (λ l c, apply_source_change cmp c l) l cs.

Fixpoint changes_valid (l : list row) (cs : list source_change) : Prop :=
  match cs with
  | [] => True
  | c :: cs' => change_valid cmp c l ∧ changes_valid (apply_source_change cmp c l) cs'
  end.

Lemma collect_valid l evs :
  valid_events cmp l evs → changes_valid l (map collect_change evs).
Proof.
  revert l. induction evs as [|e evs IH]; intros l; [done|]. cbn [valid_events map changes_valid].
  intros [He H]. split; [by destruct e|]. by destruct e; apply IH.
Qed.

Lemma collect_apply l evs :
  apply_source_changes l (map collect_change evs) = foldl (apply_event cmp) l evs.
Proof.
  unfold apply_source_changes. revert l. induction evs as [|e evs IH]; intros l; [done|]. cbn [map foldl].
  by destruct e; apply IH.
Qed.

Lemma apply_source_change_typed types c l :
  Forall (row_typed types) (change_rows c) → Forall (row_typed types) l →
  Forall (row_typed types) (apply_source_change cmp c l).
Proof.
  rewrite !Forall_forall. intros Hc Hl x Hx. destruct c as [r|r|r old]; cbn [apply_source_change] in Hx.
  - apply (sl_insert_elem cmp) in Hx as [->|Hx]; [apply Hc; by left|by apply Hl].
  - by apply (sl_delete_elem cmp) in Hx; apply Hl.
  - apply (sl_insert_elem cmp) in Hx as [->|Hx%(sl_delete_elem cmp)]; [apply Hc; cbn; set_solver|by apply Hl].
Qed.

Lemma apply_source_changes_typed types cs l :
  Forall (λ c, Forall (row_typed types) (change_rows c)) cs → Forall (row_typed types) l →
  Forall (row_typed types) (apply_source_changes l cs).
Proof.
  unfold apply_source_changes. intros Hcs. revert l. induction Hcs as [|c cs Hc _ IH]; intros l Hl; [done|].
  cbn [foldl]. by apply IH, apply_source_change_typed.
Qed.

(** The rows a diff mentions are rows of its two sides. *)
Lemma merge_diff_typed types full_equal X Y evs :
  Forall (row_typed types) X → Forall (row_typed types) Y → merge_diff cmp full_equal X Y = Some evs →
  Forall (λ e, Forall (row_typed types) (change_rows (collect_change e))) evs.
Proof.
  intros HX. revert Y evs. induction HX as [|a X Ha HX IHX]; intros Y evs HY.
  { rewrite merge_diff_nil_l. intros [= <-]. apply Forall_fmap. eapply Forall_impl; [exact HY|].
    intros r Hr. by constructor. }
  revert evs. induction HY as [|b Y Hb HY IHY]; intros evs.
  { rewrite merge_diff_nil_r. intros [= <-]. apply (Forall_fmap _ _ (a :: X)).
    assert (Forall (row_typed types) (a :: X)) as H by (by constructor).
    eapply Forall_impl; [exact H|]. intros r Hr. by constructor. }
  destruct (cmp a b) eqn:Hc.
  - rewrite merge_diff_pair by done. destruct (full_equal a b) as [eq|]; [|done]. cbn [mbind option_bind].
    destruct (merge_diff cmp full_equal X Y) as [evs'|] eqn:Hm; [|done]. intros [= <-].
    specialize (IHX Y evs' HY Hm). destruct eq; [done|]. constructor; [|done]. cbn.
    by repeat constructor.
  - rewrite (merge_diff_other _ _ _ _ a b) by done. destruct (merge_diff _ _ _ Y) as [evs'|]; [|done].
    intros [= <-]. constructor; [by repeat constructor|]. by apply IHY.
  - rewrite (merge_diff_this _ _ _ _ _ b) by done.
    destruct (merge_diff _ _ X _) as [evs'|] eqn:Hm; [|done].
    intros [= <-]. constructor; [by repeat constructor|]. apply (IHX (b :: Y)); [by constructor|done].
Qed.
End changes.

Section tree.
Context (types : list Z) (sort : Sort).
Context (same_node : bnode row → bnode row → bool) (same_row : row → row → bool).
Context (Hid : sound_identity same_node same_row).

(** The diff as the push loop needs it: changes the table allows, one after the
    other, that end at the other side. *)
Lemma structural_diff_table (this other : btree row) :
  table_tree types sort this → table_tree types sort other →
  ∃ cs, structural_diff same_node same_row this other sort = Some cs ∧
    changes_valid (row_cmp sort) (elems (root this)) cs ∧
    Forall (λ c, Forall (row_typed types) (change_rows c)) cs ∧
    Forall2 (λ a b, full_row_equal a b = Some true)
      (apply_source_changes (row_cmp sort) (elems (root this)) cs) (elems (root other)).
Proof.
  intros Ht Ho. destruct (diff_visit_merge types sort same_node same_row Hid true this other stats_default Ht Ho)
    as (evs & st & Hm & Hd).
  destruct Ht as [Ht Tt], Ho as [Ho To]. exists (map collect_change evs). unfold structural_diff. rewrite Hd.
  split; [done|]. pose proof Ht as (_ & St & _). pose proof Ho as (_ & So & _).
  destruct (apply_merge_diff (row_cmp sort) full_row_equal full_row_equal_refl _ _ _ [] evs
    (Nat.le_refl _) (desc_rev _ _ St) (desc_rev _ _ So)) as (HV & R & HR & Hag); [| |done|].
  - intros x u _ Hu. by apply elem_of_nil in Hu.
  - intros x u _ Hu. by apply elem_of_nil in Hu.
  - rewrite !rev_involutive, !app_nil_r in *. split_and!.
    + by apply collect_valid.
    + apply Forall_fmap. eapply merge_diff_typed; [..|exact Hm]; by apply Forall_rev.
    + rewrite collect_apply, HR. exact Hag.
Qed.

Lemma apply_source_change_to_tree_spec t c :
  btree_ok (row_cmp sort) t →
  ∃ t', apply_source_change_to_tree t c sort = Some t' ∧ btree_ok (row_cmp sort) t' ∧
    elems (root t') = apply_source_change (row_cmp sort) c (elems (root t)).
Proof.
  intros Ht. destruct c as [r|r|r old].
  - by destruct (apply_event_tree sort t (only_other r) Ht) as (t' & ? & ? & ?); exists t'.
  - by destruct (apply_event_tree sort t (only_this r) Ht) as (t' & ? & ? & ?); exists t'.
  - by destruct (apply_event_tree sort t (edit_row old r) Ht) as (t' & ? & ? & ?); exists t'.
Qed.

Lemma apply_changes_spec t cs :
  btree_ok (row_cmp sort) t →
  ∃ t', apply_changes sort t cs = Some t' ∧ btree_ok (row_cmp sort) t' ∧
    elems (root t') = apply_source_changes (row_cmp sort) (elems (root t)) cs.
Proof.
  revert t. induction cs as [|c cs IH]; intros t Ht; [by exists t|].
  destruct (apply_source_change_to_tree_spec t c Ht) as (t1 & H1 & Ht1 & E1).
  destruct (IH t1 Ht1) as (t' & H2 & Ht' & E2). exists t'. unfold apply_changes in *.
  rewrite try_foldl_cons, H1. cbn [mbind option_bind]. split_and!; [done..|]. rewrite E2, E1. done.
Qed.
End tree.

(** ** What the rewind relies on *)

Section laws.
Context {G : Type} `{!RewindGraph G}.

(** The source [id] of [g] is a memory source that holds the table [L]. *)
Definition holds (g : G) (id : nat) (sort : Sort) (L : list row) : Prop :=
  ∃ s, memory_source g id = Some s ∧ primary_sort s = sort ∧ ms_ok s L.
End laws.

(** A push of a change the table allows, made of rows of its schema, succeeds,
    applies the change, and leaves the contents of the other tables alone. *)
Class RewindGraphLaws (G : Type) `{!RewindGraph G} (types : nat → list Z) (graph_ok : G → Prop) : Prop := {
  rg_push g id sort L c :
    graph_ok g → holds g id sort L → Forall (row_typed (types id)) L →
    change_valid (row_cmp sort) c L → Forall (row_typed (types id)) (change_rows c) →
    ∃ g', try_source_push g id c = Some (g', inr tt) ∧ graph_ok g' ∧
      holds g' id sort (apply_source_change (row_cmp sort) c L) ∧
      ∀ id' sort' L', id' ≠ id → holds g id' sort' L' → holds g' id' sort' L'
}.

Section rewind.
Context {G : Type} `{!RewindGraph G} (types : nat → list Z) (graph_ok : G → Prop).
Context `{!RewindGraphLaws G types graph_ok}.
Context (debug : table_name → string).
Context (same_node : table_name → bnode row → bnode row → bool).
Context (same_row : table_name → row → row → bool).
Context (Hid : ∀ table, sound_identity (same_node table) (same_row table)).

(** The contents of the other sources. *)
Definition frame (g g' : G) (id : nat) : Prop :=
  ∀ id' sort' L', id' ≠ id → holds g id' sort' L' → holds g' id' sort' L'.

Lemma push_rewind_spec g id sort L cs :
  graph_ok g → holds g id sort L → Forall (row_typed (types id)) L →
  changes_valid (row_cmp sort) L cs → Forall (λ c, Forall (row_typed (types id)) (change_rows c)) cs →
  ∃ g', push_rewind g id cs = Some (g', inr tt) ∧ graph_ok g' ∧
    holds g' id sort (apply_source_changes (row_cmp sort) L cs) ∧ frame g g' id.
Proof.
  intros Hg Hh HL Hv Hcs. revert g L Hg Hh HL Hv.
  induction Hcs as [|c cs Hc _ IH]; intros g L Hg Hh HL Hv.
  { exists g. split_and!; [done..|]. by intros id' sort' L' _. }
  destruct Hv as [Hv Hvs].
  destruct (rg_push g id sort L c Hg Hh HL Hv Hc) as (g1 & Hp & Hg1 & Hh1 & Hf1).
  destruct (IH g1 _ Hg1 Hh1) as (g' & Hps & Hg' & Hh' & Hf'); [by apply apply_source_change_typed; [apply _|..]|done|].
  exists g'. cbn [push_rewind]. rewrite Hp. cbn [mbind option_bind]. split_and!; [done..|].
  intros id' sort' L' Hne H. by apply Hf', Hf1.
Qed.

Lemma fork_primary_holds g id sort L :
  holds g id sort L → Forall (row_typed (types id)) L →
  ∃ s t, memory_source g id = Some s ∧ fork_primary s = Some t ∧
    table_tree (types id) sort t ∧ elems (root t) = L.
Proof.
  intros (s & Hs & <- & Hok) HL. destruct (primary_rows s L Hok) as (ix & Hix & _ & Ht & He).
  exists s, (btree_fork (ix_data ix)). unfold fork_primary. rewrite Hix. split_and!; [done..| |done].
  destruct (ix_data ix) as [n z]. split; [done|]. cbn in He |- *. by rewrite He.
Qed.

(** A tracked table: the live source holds [L], [sync] is a tree of its rows. *)
Definition tracked_ok (g : G) (e : SyncEntry) : Prop :=
  (∃ L, holds g (se_source e) (se_sort e) L ∧ Forall (row_typed (types (se_source e))) L) ∧
  table_tree (types (se_source e)) (se_sort e) (se_sync e).

(** The rows the server has confirmed, with its delta. *)
Definition confirmed (e : SyncEntry) (ds : list source_change) : list row :=
  apply_source_changes (row_cmp (se_sort e)) (elems (root (se_sync e))) ds.

(** [e'] is [e] rewound to its confirmed rows in [g']. *)
Definition settled (g' : G) (ds : list source_change) (e e' : SyncEntry) : Prop :=
  se_source e' = se_source e ∧ se_sort e' = se_sort e ∧ tracked_ok g' e' ∧
  holds g' (se_source e) (se_sort e) (elems (root (se_sync e'))) ∧
  Forall2 (λ a b, full_row_equal a b = Some true) (elems (root (se_sync e'))) (confirmed e ds).

Definition delta_typed (e : SyncEntry) (ds : list source_change) : Prop :=
  Forall (λ c, Forall (row_typed (types (se_source e))) (change_rows c)) ds.

Lemma rewind_table_spec g table e ds :
  graph_ok g → tracked_ok g e → delta_typed e ds →
  ∃ g' e', rewind_table same_node same_row g table e ds = Some (g', inr e') ∧ graph_ok g' ∧
    settled g' ds e e' ∧ frame g g' (se_source e).
Proof.
  intros Hg [(L & Hh & HL) [Ht Tt]] Hds. unfold rewind_table.
  destruct (apply_changes_spec (se_sort e) (btree_fork (se_sync e)) ds) as (sp & Hsp & Hspok & He).
  { by destruct (se_sync e). }
  unfold apply_changes in Hsp. rewrite Hsp. cbn [mbind option_bind].
  destruct (fork_primary_holds g _ _ L Hh HL) as (s & hd & -> & Hfk & Hhd & Ehd).
  cbn [mbind option_bind]. rewrite Hfk. cbn [mbind option_bind].
  assert (table_tree (types (se_source e)) (se_sort e) sp) as Hspt.
  { split; [done|]. rewrite He. apply apply_source_changes_typed; [apply _|done|by destruct (se_sync e)]. }
  destruct (structural_diff_table _ (se_sort e) _ _ (Hid table) hd sp Hhd Hspt)
    as (cs & -> & Hv & Hcs & Hag). cbn [mbind option_bind]. rewrite Ehd in *.
  destruct (push_rewind_spec g _ _ L cs Hg Hh HL Hv Hcs) as (g' & -> & Hg' & Hh' & Hf). cbn [mbind option_bind].
  set (L' := apply_source_changes (row_cmp (se_sort e)) L cs) in *.
  assert (Forall (row_typed (types (se_source e))) L') as HL' by (by apply apply_source_changes_typed; [apply _|..]).
  destruct (fork_primary_holds g' _ _ L' Hh' HL') as (s' & t' & -> & Hfk' & Ht' & Et').
  cbn [mbind option_bind]. rewrite Hfk'. cbn [mbind option_bind].
  exists g', (MkSync (se_source e) t' (se_sort e)). split_and!; [done..| |done].
  unfold settled, tracked_ok. cbn [se_source se_sort se_sync]. rewrite Et'.
  split_and!; [done|done|by exists L'|done|done|].
  unfold confirmed. replace (elems (root (se_sync e))) with (elems (root (btree_fork (se_sync e))))
    by (by destruct (se_sync e)). by rewrite <-He.
Qed.

Lemma tracked_ok_frame g g' id e : frame g g' id → se_source e ≠ id → tracked_ok g e → tracked_ok g' e.
Proof. intros Hf Hne [(L & Hh & HL) Ht]. split; [|done]. exists L. split; [by apply Hf|done]. Qed.

Lemma settled_frame g g' id ds e e' :
  frame g g' id → se_source e ≠ id → settled g ds e e' → settled g' ds e e'.
Proof.
  intros Hf Hne (Hs & Ho & Ht & Hh & Hag). split_and!; [done|done| |by apply Hf|done].
  eapply tracked_ok_frame; [done|by rewrite Hs|done].
Qed.

(** The delta of a table. *)
Definition delta_of (deltas : list (table_name * list source_change)) (table : table_name) :
    list source_change := default [] (om_get bytes_cmp table deltas).

Definition all_settled (g' : G) deltas (ts ts' : list (table_name * SyncEntry)) : Prop :=
  Forall2 (λ te te' : table_name * SyncEntry,
    te'.1 = te.1 ∧ settled g' (delta_of deltas te.1) te.2 te'.2) ts ts'.

(** The frame of the whole loop: tables that are not tracked. *)
Definition untouched (g g' : G) (ts : list (table_name * SyncEntry)) : Prop :=
  ∀ id sort L, (∀ te, te ∈ ts → se_source te.2 ≠ id) → holds g id sort L → holds g' id sort L.

Lemma rewind_tables_spec g ts deltas :
  graph_ok g → NoDup (se_source <$> ts.*2) →
  Forall (λ te : table_name * SyncEntry, tracked_ok g te.2 ∧ delta_typed te.2 (delta_of deltas te.1)) ts →
  ∃ ts' g', rewind_tables same_node same_row g ts deltas = Some (ts', g', inr tt) ∧ graph_ok g' ∧
    all_settled g' deltas ts ts' ∧ untouched g g' ts.
Proof.
  revert g. induction ts as [|[table e] ts IH]; intros g Hg Hnd Hts.
  { exists [], g. split_and!; [done|done|constructor|]. by intros id sort L _. }
  apply Forall_cons in Hts as [[He Hd] Hts]. apply NoDup_cons in Hnd as [Hfresh Hnd].
  assert (∀ te, te ∈ ts → se_source te.2 ≠ se_source e) as Hne.
  { intros te Hte Heq. apply Hfresh. cbn. rewrite <-Heq. apply list_elem_of_fmap_2, list_elem_of_fmap_2, Hte. }
  destruct (rewind_table_spec g table e _ Hg He Hd) as (g1 & e' & Hr & Hg1 & Hset & Hf).
  destruct (IH g1 Hg1 Hnd) as (ts' & g' & Hrs & Hg' & Hall & Hun).
  { rewrite Forall_forall in Hts |- *. intros te Hte. destruct (Hts te Hte) as [H1 H2].
    split; [|done]. eapply tracked_ok_frame; [done|by apply Hne|done]. }
  exists ((table, e') :: ts'), g'. cbn [rewind_tables]. unfold delta_of in Hr. cbn [fst] in Hr. rewrite Hr.
  cbn [mbind option_bind]. rewrite Hrs. cbn [mbind option_bind]. split_and!; [done|done| |].
  - constructor; [|done]. cbn [fst snd]. split; [done|].
    destruct Hset as (Hs & Ho & [(L & Hh & HL) Ht] & Hh' & Hag). split_and!; [done|done| |by apply Hun; [apply Hne|]|done].
    split; [|done]. exists L. split; [|done]. rewrite Hs in *. apply Hun; [|done]. apply Hne.
  - intros id sort L Hid' Hh. apply Hun; [intros te Hte; apply Hid'; by right|].
    apply Hf; [|done]. intros ->. apply (Hid' (table, e)); [by left|done].
Qed.
End rewind.

(** ** The sink graph meets the laws *)

Lemma values_equal_typed types (a b : row) k :
  row_typed types a → row_typed types b → k < length types → split_key_changed a b k ≠ None.
Proof.
  intros Ha Hb Hk. destruct (lookup_lt_is_Some_2 types k Hk) as [t Ht]. unfold split_key_changed.
  destruct (Forall2_lookup_l _ _ _ _ _ Ha Ht) as (x & -> & Hx).
  destruct (Forall2_lookup_l _ _ _ _ _ Hb Ht) as (y & -> & Hy). cbn [mbind option_bind].
  assert (is_Some (values_equal x y)) as [e ->]; [|done].
  unfold values_equal. rewrite compare_values_comparable.
  replace (comparable x y) with true.
  2: { symmetry. apply comparable_true. naive_solver congruence. }
  destruct x, y; by eexists.
Qed.

(** The connections of a source only mention columns of its schema. *)
Definition conns_typed (types : list Z) (t : ConnTable) : Prop :=
  (∀ col, col ∈ dom (eq_index (index t)) → col < length types) ∧
  (∀ k, k ∈ table_split_edit_keys t → k < length types).

Definition sink_graph_ok (types : nat → list Z) (g : SinkGraph) : Prop :=
  ∀ id s, sg_sources g !! id = Some s →
    (∃ live dead, conn_reach (ms_conns s) live dead) ∧ guards_sound (ms_conns s) ∧
    conns_typed (types id) (ms_conns s).

Lemma typed_push_ready types s L c :
  conns_typed types (ms_conns s) → change_valid (row_cmp (primary_index_sort s)) c L →
  Forall (row_typed types) (change_rows c) → push_ready s L c.
Proof.
  intros [Hcols Hkeys] Hv Hc. rewrite Forall_forall in Hc. split; [done|..].
  - intros r col Hr Hcol. rewrite <-(Forall2_length _ _ _ (Hc r Hr)). by apply Hcols.
  - intros r old k -> Hk. eapply values_equal_typed; [apply Hc; cbn; set_solver..|by apply Hkeys].
Qed.

#[export] Instance sink_graph_laws types : RewindGraphLaws SinkGraph types (sink_graph_ok types).
Proof.
  split. intros g id sort L c Hg (s & Hs & <- & Hok) HL Hv Hc. cbn [memory_source sink_graph] in Hs.
  destruct (Hg id s Hs) as ([live [dead Hr]] & Hgs & Ht).
  pose proof (typed_push_ready _ s L c Ht Hv Hc) as Hready.
  destruct (push_maintains s L live dead c Hok Hr Hgs Hready) as (s' & log & Hp & Hr' & Hok' & Hsame & _).
  cbn [try_source_push sink_graph]. unfold sink_try_source_push. rewrite Hs. cbn [mbind option_bind].
  rewrite (try_push_ready s L live dead c _ Hok Hr Hgs Hready), Hp. cbn [mbind option_bind].
  destruct Hsame as [Hst Hlen Hix Hpk]. eexists. split; [done|]. split_and!.
  - intros id' s0. cbn [sg_sources]. rewrite lookup_insert_Some. intros [[<- <-]|[_ H0]]; [|by apply Hg].
    split_and!; [by eexists _, _|by eapply guards_sound_static|].
    unfold conns_typed, table_split_edit_keys in *. by rewrite Hix.
  - exists s'. cbn [memory_source sink_graph sg_sources]. by rewrite lookup_insert_eq.
  - intros id' sort' L' Hne (s0 & H0 & H1). exists s0. split; [|done].
    cbn [memory_source sink_graph sg_sources]. by rewrite lookup_insert_ne.
Qed.

(** ** What the operations guarantee *)

Section theorems.
Context {G : Type} `{!RewindGraph G} (types : nat → list Z).
Context (debug : table_name → string).

(** Tracking a table that was not tracked starts from the live rows. *)
Theorem track_starts_live (o : OptimisticTables) (g : G) (table : table_name) (source : nat)
    (sort : Sort) (L : list row) :
  is_tracked o table = false → holds g source sort L → Forall (row_typed (types source)) L →
  ∃ o' e, track debug o g table source = Some (o', inr tt) ∧
    om_get bytes_cmp table (tables o') = Some e ∧ se_source e = source ∧ se_sort e = sort ∧
    tracked_ok types g e ∧ elems (root (se_sync e)) = L.
Proof.
  intros Hnew Hh HL. destruct (fork_primary_holds types g source sort L Hh HL) as (s & t & Hs & Hf & Ht & He).
  pose proof Hh as (s0 & Hs0 & Hsort & _). rewrite Hs in Hs0. injection Hs0 as <-.
  unfold track. rewrite Hnew, Hs, Hf. cbn [mbind option_bind]. rewrite Hsort.
  eexists _, (MkSync source t sort). split; [done|]. cbn [tables se_source se_sort se_sync].
  split; [by rewrite (om_get_insert bytes_cmp), cmp_refl|]. split_and!; [done|done| |done].
  split; [by exists L|done].
Qed.

(** Forgetting a table and asking for it. *)
Theorem forget_untracks (o : OptimisticTables) (table table' : table_name) :
  om_sorted bytes_cmp (tables o) →
  is_tracked (forget o table) table' =
    if is_eq (bytes_cmp table table') then false else is_tracked o table'.
Proof.
  intros Hs. unfold is_tracked, forget. cbn [tables]. rewrite (om_get_remove bytes_cmp) by done.
  by destruct (is_eq _).
Qed.
End theorems.

(** [C4] The rewind: when every delta is for a tracked table, it succeeds on
    every graph that meets the laws, whatever optimistic writes the live tables
    hold and whatever pointers their trees share.  Afterwards every live table is
    its old [sync] with the delta applied, cell by cell; the new [sync] is the
    live table; and the tables that are not tracked are untouched. *)
Theorem rewind_settles {G : Type} `{!RewindGraph G} (types : nat → list Z) (graph_ok : G → Prop)
    (debug : table_name → string) (same_node : table_name → bnode row → bnode row → bool)
    (same_row : table_name → row → row → bool) (o : OptimisticTables) (g : G)
    (deltas : list (table_name * list source_change)) :
  RewindGraphLaws G types graph_ok →
  (∀ table, sound_identity (same_node table) (same_row table)) →
  graph_ok g → untracked_delta o deltas = None → NoDup (se_source <$> (tables o).*2) →
  Forall (λ te : table_name * SyncEntry,
    tracked_ok types g te.2 ∧ delta_typed types te.2 (delta_of deltas te.1)) (tables o) →
  ∃ o' g', rewind debug same_node same_row o g deltas = Some (o', g', inr tt) ∧ graph_ok g' ∧
    all_settled types g' deltas (tables o) (tables o') ∧ untouched g g' (tables o).
Proof.
  intros Hlaws Hid Hg Hun Hnd Hts. unfold rewind. rewrite Hun.
  destruct (rewind_tables_spec types graph_ok same_node same_row Hid g (tables o) deltas Hg Hnd Hts)
    as (ts' & g' & -> & Hg' & Hall & Hunt).
  cbn [mbind option_bind]. by exists (MkTables ts'), g'.
Qed.

(** A delta for a table that is not tracked fails the rewind before
    anything happens: the graph and the tables are as they were, and the error
    names a table of the deltas that is not tracked. *)
Theorem rewind_rejects_untracked {G : Type} `{!RewindGraph G}
    (debug : table_name → string) (same_node : table_name → bnode row → bnode row → bool)
    (same_row : table_name → row → row → bool) (o : OptimisticTables) (g : G)
    (deltas : list (table_name * list source_change)) (table : table_name) :
  table ∈ deltas.*1 → is_tracked o table = false →
  ∃ t, t ∈ deltas.*1 ∧ is_tracked o t = false ∧
    rewind debug same_node same_row o g deltas =
      Some (o, g, inl (schema_violation
        ("server delta for untracked (local-only or unknown) table " +:+ debug t))).
Proof.
  intros Hin Hun. unfold rewind.
  destruct (untracked_delta o deltas) as [t|] eqn:Hf.
  - apply find_some in Hf as [Hin' Ht]. exists t. apply list_elem_of_In in Hin'.
    by apply negb_true_iff in Ht.
  - exfalso. apply list_elem_of_In in Hin. pose proof (find_none _ _ Hf table Hin) as H. cbn in H. by rewrite Hun in H.
Qed.

(** ** A rewind by example

    The server knows rows 1 and 3; the client has edited row 1, removed row 3 and
    added row 2 when the server changes row 3. *)

Definition ex_name : table_name := [byte_of_Z 116].

Definition ex_debug (t : table_name) : string := "t"%string.

Definition ex_sync : btree row := Eval vm_compute in BTree (Leaf [ex_row 1 5; ex_row 3 30]) 2.

Definition ex_graph : SinkGraph := MkSinkGraph {[0 := ex_source]} true [].

Definition ex_tables : OptimisticTables := MkTables [(ex_name, MkSync 0 ex_sync [(0, true)])].

Definition ex_deltas : list (table_name * list source_change) :=
  [(ex_name, [SEdit (ex_row 3 33) (ex_row 3 30)])].

Lemma ex_graph_ok : sink_graph_ok (λ _, sample_types) ex_graph.
Proof.
  intros id s. cbn [sg_sources ex_graph]. intros [<- <-]%lookup_singleton_Some.
  split_and!; [exists ex_live, []; exact ex_reach|exact ex_guards|]. split.
  - intros col Hc. apply elem_of_dom in Hc as [m Hm]. simpl in Hm. unfold ex_index in Hm. simpl in Hm.
    rewrite lookup_insert in Hm. case_decide; [cbn; lia|done].
  - intros k Hk. assert (k = 1) as -> by (vm_compute in Hk; set_solver). cbn. lia.
Qed.

Lemma ex_row_typed k v : row_typed sample_types (ex_row k v).
Proof. repeat constructor; by right; right. Qed.

Lemma ex_tracked : tracked_ok (λ _, sample_types) ex_graph (MkSync 0 ex_sync [(0, true)]).
Proof.
  split.
  - exists ex_L. split; [|by repeat constructor; apply ex_row_typed].
    exists ex_source. split_and!; [done|done|exact ex_ok].
  - split; [|solve_table_tree]. split; [right; exists 0|split; [solve_table_tree|done]].
    cbn. unfold MAX_NODE_SIZE. lia.
Qed.

Lemma rewind_settles_witness :
  ∃ o' g', rewind ex_debug (λ _, never_same) (λ _, never_same) ex_tables ex_graph ex_deltas =
      Some (o', g', inr tt) ∧
    sink_graph_ok (λ _, sample_types) g' ∧
    all_settled (λ _, sample_types) g' ex_deltas (tables ex_tables) (tables o') ∧
    untouched ex_graph g' (tables ex_tables).
Proof.
  apply (rewind_settles (λ _, sample_types) (sink_graph_ok (λ _, sample_types)) ex_debug
    (λ _, never_same) (λ _, never_same) ex_tables ex_graph ex_deltas).
  - apply sink_graph_laws.
  - intros _. apply never_same_sound.
  - apply ex_graph_ok.
  - reflexivity.
  - apply NoDup_singleton.
  - constructor; [|constructor]. split; [exact ex_tracked|].
    constructor; [|constructor]. repeat constructor; apply ex_row_typed.
Defined.

Lemma rewind_rejects_untracked_witness :
  ∃ t, t ∈ (ex_deltas.*1) ∧ is_tracked optimistic_new t = false ∧
    rewind ex_debug (λ _, never_same) (λ _, never_same) optimistic_new ex_graph ex_deltas =
      Some (optimistic_new, ex_graph, inl (schema_violation
        ("server delta for untracked (local-only or unknown) table " +:+ ex_debug t))).
Proof.
  apply (rewind_rejects_untracked ex_debug (λ _, never_same) (λ _, never_same) optimistic_new ex_graph
    ex_deltas ex_name); [by left|reflexivity].
Defined.
