(* ===== verification/Flat.v ===== *)
(** * Flat changes and the reference receiver ([rust/src/changes.rs],
      [rust/src/flat.rs], [rust/src/flat_receiver.rs])

    A change that leaves the engine is drained of its lazy relationships
    ([expand_change]), linearised into a path and an operation ([flatten]), and
    folded into a tree by a receiver that knows only the shipped schema.  A row on
    the wire is the list of its cells, so [to_value_vec] and [owned_row] are the
    identity here (the round trip through the row buffer is in the rows' file).
    A panic of the receiver (an inconsistent stream, an index out of range) is
    [None]; reference counts are [u32] and wrap, as in a release build. *)

From stdpp Require Import base list numbers option.
From Stdlib Require Import ZArith Lia.
From S2P Require Import Prelude Values Rows Schema BTree BTreeFacts Change OrdMap.

(** ** [slice::binary_search_by] *)

Inductive SearchResult := Ok (p : nat) | Err (ins : nat).

(** The halving loop; [fuel] bounds its rounds and the slice's length is enough. *)
Fixpoint halve {A} (f : A → comparison) (l : list A) (fuel base size : nat) : nat :=
  match fuel with
  | O => base
  | S fuel =>
      if decide (size ≤ 1) then base
      else
        let half := size / 2 in
        let mid := base + half in
        let base := match f <$> l !! mid with Some Gt | None => base | _ => mid end in
        halve f l fuel base (size - half)
  end.

Definition binary_search_by {A} (f : A → comparison) (l : list A) : SearchResult :=
  let base := halve f l (length l) 0 (length l) in
  match f <$> l !! base with
  | None => Err 0
  | Some Eq => Ok base
  | Some Lt => Err (base + 1)
  | Some Gt => Err base
  end.

(** ** Drained changes *)

Inductive CaughtNode : Type :=
  | CNode (crow : row) (relationships : list (nat * list CaughtNode)).

Inductive CaughtChange : Type :=
  | CAdd (n : CaughtNode)
  | CRemove (n : CaughtNode)
  | CEdit (old new : row)
  | CChild (r : row) (rel : nat) (sub : CaughtChange).

Definition caught_row (n : CaughtNode) : row := let 'CNode r _ := n in r.

(** The [BTreeMap]: a later relationship for a slot overwrites an earlier one. *)
Definition slot_map (rels : list (nat * list CaughtNode)) : list (nat * list CaughtNode) :=
  foldl (λ m e, om_insert Nat.compare e.1 e.2 m) [] rels.

Fixpoint expand_node (n : node) : CaughtNode :=
  match n with
  | Node r rels =>
      CNode r (slot_map (map (λ rl, match rl with (slot, thunk) => (slot, map expand_node (thunk tt)) end) rels))
  end.

Fixpoint expand_change (c : change) : CaughtChange :=
  match c with
  | Add n => CAdd (expand_node n)
  | Remove n => CRemove (expand_node n)
  | Edit n old => CEdit (node_row old) (node_row n)
  | Child n rel sub => CChild (node_row n) rel (expand_change sub)
  end.

(** ** Flat changes *)

Inductive WireNode : Type :=
  | WNode (wrow : row) (wrels : list (nat * list WireNode)).

Definition wire_row (n : WireNode) : row := let 'WNode r _ := n in r.

Record PathSeg := MkSeg { seg_rel : nat; parent_row : row }.

Inductive FlatOp : Type :=
  | FAdd (n : WireNode)
  | FRemove (r : row)
  | FEdit (old new : row).

Record FlatChange := MkFlat { path : list PathSeg; op : FlatOp }.

Fixpoint wire_node (n : CaughtNode) : WireNode :=
  match n with
  | CNode r rels => WNode r (map (λ e, match e with (slot, children) => (slot, map wire_node children) end) rels)
  end.

(** The loop of [flatten], with the path accumulated so far. *)
Fixpoint flatten_loop (path : list PathSeg) (cur : CaughtChange) : FlatChange :=
  match cur with
  | CChild r rel sub => flatten_loop (path ++ [MkSeg rel r]) sub
  | CAdd n => MkFlat path (FAdd (wire_node n))
  | CRemove n => MkFlat path (FRemove (caught_row n))
  | CEdit old new => MkFlat path (FEdit old new)
  end.

Definition flatten (c : CaughtChange) : FlatChange := flatten_loop [] c.

Definition flatten_all (cs : list CaughtChange) : list FlatChange := map flatten cs.

(** ** The receiver *)

Inductive RecvNode : Type :=
  | RNode (rrow : row) (rc : Z) (rrels : list (list RecvNode)).

Definition recv_row (n : RecvNode) : row := let 'RNode r _ _ := n in r.
Definition recv_rc (n : RecvNode) : Z := let 'RNode _ c _ := n in c.
Definition recv_rels (n : RecvNode) : list (list RecvNode) := let 'RNode _ _ l := n in l.

Definition set_row (n : RecvNode) (r : row) : RecvNode := RNode r (recv_rc n) (recv_rels n).
Definition set_rc (n : RecvNode) (c : Z) : RecvNode := RNode (recv_row n) c (recv_rels n).
Definition set_rels (n : RecvNode) (l : list (list RecvNode)) : RecvNode := RNode (recv_row n) (recv_rc n) l.

Definition u32_add (c d : Z) : Z := (c + d) `mod` 2 ^ 32.
Definition u32_sub (c d : Z) : Z := (c - d) `mod` 2 ^ 32.

Definition binary_search (l : list RecvNode) (r : row) (sort : Sort) : SearchResult :=
  binary_search_by (λ n, row_cmp sort (recv_row n) r) l.

(** [l[p].rc += 1]. *)
Definition bump (l : list RecvNode) (p : nat) : option (list RecvNode) :=
  n ← l !! p; vec_set p (set_rc n (u32_add (recv_rc n) 1)) l.

(** The two loops of [build_node]: over the children of a slot, over the slots. *)
Definition build_child (build_node : WireNode → Schema → option RecvNode) (schema : Schema)
    (built : list RecvNode) (child : WireNode) : option (list RecvNode) :=
  match binary_search built (wire_row child) (schema_sort schema) with
  | Ok p => bump built p
  | Err ins => n ← build_node child schema; vec_insert ins n built
  end.

Definition build_slot (build_node : WireNode → Schema → option RecvNode) (schema : Schema)
    (rels : list (list RecvNode)) (e : nat * list WireNode) : option (list (list RecvNode)) :=
  match e with
  | (slot, children) =>
      match rel_child schema slot with
      | None => Some rels
      | Some child_schema =>
          built ← try_foldl (build_child build_node child_schema) [] children;
          vec_set slot built rels
      end
  end.

Fixpoint build_node (n : WireNode) (schema : Schema) {struct n} : option RecvNode :=
  match n with
  | WNode r wrels =>
      rels ← try_foldl (build_slot build_node schema) (replicate (length (relationships schema)) []) wrels;
      Some (RNode r 1 rels)
  end.

Definition apply_add (l : list RecvNode) (schema : Schema) (n : WireNode) : option (list RecvNode) :=
  match binary_search l (wire_row n) (schema_sort schema) with
  | Ok p => bump l p
  | Err ins => b ← build_node n schema; vec_insert ins b l
  end.

Definition apply_remove (l : list RecvNode) (schema : Schema) (r : row) : option (list RecvNode) :=
  match binary_search l r (schema_sort schema) with
  | Err _ => None
  | Ok pos =>
      n ← l !! pos;
      if decide (recv_rc n = 1%Z) then vec_remove pos l
      else vec_set pos (set_rc n (u32_sub (recv_rc n) 1)) l
  end.

(** [pos == old_pos || pos.checked_sub(1) == Some(old_pos)]. *)
Definition same_slot (pos old_pos : nat) : bool :=
  bool_decide (pos = old_pos) || bool_decide (pos = S old_pos).

Definition apply_edit (l : list RecvNode) (schema : Schema) (old new : row) : option (list RecvNode) :=
  let sort := schema_sort schema in
  if decide (row_cmp sort old new = Eq) then
    match binary_search l old sort with
    | Err _ => None
    | Ok pos => n ← l !! pos; vec_set pos (set_row n new) l
    end
  else
    match binary_search l old sort with
    | Err _ => None
    | Ok old_pos =>
        let raw := binary_search l new sort in
        old_entry ← l !! old_pos;
        let old_rc := recv_rc old_entry in
        let found := match raw with Ok _ => true | Err _ => false end in
        let pos := match raw with Ok p | Err p => p end in
        if bool_decide (old_rc = 1%Z) && same_slot pos old_pos then vec_set old_pos (set_row old_entry new) l
        else
          let new_rc := u32_sub old_rc 1 in
          '(l, adjusted_pos) ←
            (if decide (new_rc = 0%Z)
             then l ← vec_remove old_pos l; Some (l, if decide (old_pos < pos) then pos - 1 else pos)
             else l ← vec_set old_pos (set_rc old_entry new_rc) l; Some (l, pos));
          if found then
            n ← l !! adjusted_pos;
            vec_set adjusted_pos (set_rc (set_row n new) (u32_add (recv_rc n) 1)) l
          else vec_insert adjusted_pos (set_rc (set_row old_entry new) 1) l
    end.

Definition apply_op (l : list RecvNode) (schema : Schema) (o : FlatOp) : option (list RecvNode) :=
  match o with
  | FAdd n => apply_add l schema n
  | FRemove r => apply_remove l schema r
  | FEdit old new => apply_edit l schema old new
  end.

Fixpoint apply_at (l : list RecvNode) (schema : Schema) (path : list PathSeg) (o : FlatOp) :
    option (list RecvNode) :=
  match path with
  | [] => apply_op l schema o
  | seg :: rest =>
      match rel_child schema (seg_rel seg) with
      | None => Some l
      | Some child_schema =>
          match binary_search l (parent_row seg) (schema_sort schema) with
          | Err _ => None
          | Ok pos =>
              n ← l !! pos;
              sub ← recv_rels n !! seg_rel seg;
              sub ← apply_at sub child_schema rest o;
              rels ← vec_set (seg_rel seg) sub (recv_rels n);
              vec_set pos (set_rels n rels) l
          end
      end
  end.

Record Receiver := MkReceiver { recv_schema : Schema; top : list RecvNode }.

Definition receiver_new (s : Schema) : Receiver := MkReceiver s [].

Definition receiver_apply (r : Receiver) (c : FlatChange) : option Receiver :=
  top' ← apply_at (top r) (recv_schema r) (path c) (op c);
  Some (MkReceiver (recv_schema r) top').

Definition apply_all (r : Receiver) (cs : list FlatChange) : option Receiver :=
  try_foldl receiver_apply r cs.
