(* ===== verification/FlatFacts.v ===== *)
(** * The receiver keeps a well-formed tree

    Levels stay strictly sorted by the level's sort, counts stay positive, and
    every node keeps one list per declared slot; what each operation does to a
    level is stated by what is found under each key. *)

From stdpp Require Import base list numbers option sorting sets.
From Stdlib Require Import ZArith Lia.
From S2P Require Import Prelude Values Rows Schema BTree BTreeFacts Change OrdMap Flat.

(** ** The binary search *)

Lemma halve_spec {A} (f : A → comparison) l k fuel base size :
  (∀ i x, l !! i = Some x → f x = Gt ↔ k ≤ i) → k ≤ length l →
  size ≤ fuel → 0 < size → base + size ≤ length l → base < k ∨ base = 0 → k ≤ base + size →
  halve f l fuel base size = pred k.
Proof.
  intros Hk Hl. revert base size. induction fuel as [|fuel IH]; intros base size Hf Hs Hb Hbk Hks; [lia|].
  cbn [halve]. case_decide as H1; [lia|].
  pose proof (Nat.div_mod_eq size 2) as Hd. pose proof (Nat.mod_upper_bound size 2 ltac:(lia)) as Hm.
  set (half := size / 2) in *. clearbody half. set (m := size mod 2) in *. clearbody m.
  destruct (lookup_lt_is_Some_2 l (base + half) ltac:(lia)) as [x Hx]. rewrite Hx. cbn.
  specialize (Hk _ _ Hx). assert (k ≤ base + half ∨ base + half < k) as Hcase by lia.
  destruct (f x) eqn:E; apply IH; destruct Hcase as [Hle|]; try lia;
    try (by apply Hk in Hle); pose proof (proj1 Hk eq_refl); lia.
Qed.

Section search.
Context {A : Type} (f : A → comparison) (l1 l2 : list A).
Context (Hlt : Forall (λ x, f x = Lt) l1) (Hgt : Forall (λ x, f x = Gt) l2).

Lemma search_found x : f x = Eq → binary_search_by f (l1 ++ x :: l2) = Ok (length l1).
Proof using Hgt Hlt.
  intros Hx. unfold binary_search_by. rewrite (halve_spec f _ (S (length l1))).
  - cbn [pred]. rewrite list_lookup_middle by done. cbn. by rewrite Hx.
  - intros i y Hy. rewrite lookup_app_Some, lookup_cons_Some in Hy.
    destruct Hy as [Hy|(Hl & [[Hi ->]|[Hi Hy]])].
    + pose proof (lookup_lt_Some _ _ _ Hy). rewrite Forall_lookup in Hlt. rewrite (Hlt _ _ Hy).
      split; [done|lia].
    + rewrite Hx. split; [done|lia].
    + rewrite Forall_lookup in Hgt. rewrite (Hgt _ _ Hy). split; [lia|done].
  - rewrite length_app. cbn. lia.
  - lia.
  - rewrite length_app. cbn. lia.
  - lia.
  - lia.
  - rewrite length_app. cbn. lia.
Qed.

Lemma search_missing : binary_search_by f (l1 ++ l2) = Err (length l1).
Proof using Hgt Hlt.
  unfold binary_search_by. destruct (decide (l1 ++ l2 = [])) as [[-> ->]%app_nil|Hne]; [done|].
  rewrite <-length_zero_iff_nil, length_app in Hne.
  rewrite (halve_spec f _ (length l1)); try lia.
  - destruct l1 as [|x l1' _] using rev_ind.
    + destruct l2 as [|y l2']; [done|]. cbn. inv Hgt. by rewrite H1.
    + rewrite length_app, <-app_assoc. cbn.
      rewrite Nat.add_1_r. cbn [pred]. rewrite list_lookup_middle by done. cbn.
      apply Forall_app in Hlt as [_ Hx]. inv Hx. rewrite H1. f_equal. lia.
  - intros i y Hy. rewrite lookup_app_Some in Hy. destruct Hy as [Hy|(Hl & Hy)].
    + pose proof (lookup_lt_Some _ _ _ Hy). rewrite Forall_lookup in Hlt. rewrite (Hlt _ _ Hy).
      split; [done|lia].
    + rewrite Forall_lookup in Hgt. rewrite (Hgt _ _ Hy). split; [lia|done].
  - rewrite length_app. lia.
  - rewrite length_app. lia.
  - rewrite length_app. lia.
Qed.
End search.

Lemma vec_set_middle {A} (x y : A) l1 l2 : vec_set (length l1) y (l1 ++ x :: l2) = Some (l1 ++ y :: l2).
Proof.
  rewrite vec_set_Some by (rewrite length_app; cbn; lia).
  by rewrite <-(Nat.add_0_r (length l1)), insert_app_r.
Qed.

Lemma vec_remove_middle {A} (x : A) l1 l2 : vec_remove (length l1) (l1 ++ x :: l2) = Some (l1 ++ l2).
Proof.
  rewrite vec_remove_Some by (rewrite length_app; cbn; lia). f_equal.
  rewrite take_app_length. f_equal. change (x :: l2) with ([x] ++ l2). rewrite (assoc_L (++)).
  apply drop_app_length'. rewrite length_app. cbn. lia.
Qed.

Lemma vec_insert_middle {A} (x : A) l1 l2 : vec_insert (length l1) x (l1 ++ l2) = Some (l1 ++ x :: l2).
Proof.
  rewrite vec_insert_Some by (rewrite length_app; lia). by rewrite take_app_length, drop_app_length.
Qed.

(** ** Levels *)

Section level.
Context (sort : Sort).
Implicit Types (l : list RecvNode) (n : RecvNode) (r : row).

#[local] Abbreviation cmp := (row_cmp sort).
#[local] Abbreviation below r := (Forall (λ n, cmp (recv_row n) r = Lt)).
#[local] Abbreviation above r := (Forall (λ n, cmp (recv_row n) r = Gt)).

Definition level_sorted l : Prop := ssorted cmp (recv_row <$> l).

(** What a level holds under the key of a row. *)
Fixpoint find_key r l : option RecvNode :=
  match l with
  | [] => None
  | n :: l' => if is_eq (cmp (recv_row n) r) then Some n else find_key r l'
  end.

Lemma find_key_app r l1 l2 :
  find_key r (l1 ++ l2) = match find_key r l1 with Some n => Some n | None => find_key r l2 end.
Proof. induction l1 as [|n l1 IH]; cbn; [done|]. by destruct (is_eq _). Qed.

Lemma find_key_below r l : below r l → find_key r l = None.
Proof. induction 1 as [|n l Hn _ IH]; cbn; [done|]. by rewrite Hn. Qed.

Lemma find_key_above r l : above r l → find_key r l = None.
Proof. induction 1 as [|n l Hn _ IH]; cbn; [done|]. by rewrite Hn. Qed.

Lemma find_key_proper r r' l : cmp r r' = Eq → find_key r l = find_key r' l.
Proof.
  intros E. induction l as [|n l IH]; cbn; [done|]. by rewrite (cmp_eq_r cmp _ r r'), IH by done.
Qed.

Lemma find_key_Some r l n : find_key r l = Some n → n ∈ l ∧ cmp (recv_row n) r = Eq.
Proof.
  induction l as [|m l IH]; cbn; [done|]. destruct (cmp (recv_row m) r) eqn:E; cbn.
  - intros [= <-]. split; [by left|done].
  - intros H. destruct (IH H). split; [by right|done].
  - intros H. destruct (IH H). split; [by right|done].
Qed.

Lemma level_sorted_app l1 l2 :
  level_sorted (l1 ++ l2) ↔
  level_sorted l1 ∧ level_sorted l2 ∧ (∀ n m, n ∈ l1 → m ∈ l2 → cmp (recv_row n) (recv_row m) = Lt).
Proof.
  unfold level_sorted. rewrite fmap_app, (ssorted_app cmp). do 2 (apply and_iff_compat_l).
  split; intros H.
  - intros n m Hn Hm. apply H; by apply list_elem_of_fmap_2.
  - intros x y (n & -> & Hn)%list_elem_of_fmap (m & -> & Hm)%list_elem_of_fmap. by apply H.
Qed.

Lemma level_sorted_cons n l :
  level_sorted (n :: l) ↔ Forall (λ m, cmp (recv_row n) (recv_row m) = Lt) l ∧ level_sorted l.
Proof.
  unfold level_sorted, ssorted. cbn [fmap list_fmap]. split.
  - intros [H1 H2]%StronglySorted_inv. split; [by apply Forall_fmap in H2|done].
  - intros [H1 H2]. constructor; [done|]. by apply Forall_fmap.
Qed.

(** A sorted level seen from a row: what is before it, what ties with it, what
    is after it. *)
Inductive view_at r l : Prop :=
  | at_key l1 n l2 : l = l1 ++ n :: l2 → below r l1 → cmp (recv_row n) r = Eq → above r l2 → view_at r l
  | at_gap l1 l2 : l = l1 ++ l2 → below r l1 → above r l2 → view_at r l.

Lemma level_view r l : level_sorted l → view_at r l.
Proof.
  induction l as [|n l IH]; intros Hs.
  { apply (at_gap r [] [] []); [done|constructor..]. }
  apply level_sorted_cons in Hs as [Hn Hs]. destruct (cmp (recv_row n) r) eqn:E.
  - apply (at_key r _ [] n l); [done|constructor|done|]. eapply Forall_impl; [exact Hn|].
    intros m Hm. apply cmp_lt_gt; [apply _|]. cbn in Hm. by rewrite (cmp_eq_l (recv_row n) r) in Hm.
  - destruct (IH Hs) as [l1 m l2 -> H1 Hm H2|l1 l2 -> H1 H2].
    + apply (at_key r _ (n :: l1) m l2); [done|by constructor|done..].
    + apply (at_gap r _ (n :: l1) l2); [done|by constructor|done].
  - apply (at_gap r _ [] (n :: l)); [done|constructor|]. constructor; [done|].
    eapply Forall_impl; [exact Hn|]. intros m Hm. cbn in Hm. apply cmp_lt_gt; [apply _|].
    apply (cmp_lt_trans _ (recv_row n) _); [|done]. apply cmp_gt_lt; [apply _|done].
Qed.

Lemma search_at_key r l1 n l2 :
  below r l1 → cmp (recv_row n) r = Eq → above r l2 → binary_search (l1 ++ n :: l2) r sort = Ok (length l1).
Proof. intros. by apply search_found. Qed.

Lemma search_at_gap r l1 l2 : below r l1 → above r l2 → binary_search (l1 ++ l2) r sort = Err (length l1).
Proof. intros. by apply search_missing. Qed.

Lemma find_at_key r l1 n l2 :
  below r l1 → cmp (recv_row n) r = Eq → find_key r (l1 ++ n :: l2) = Some n.
Proof. intros H1 Hn. rewrite find_key_app, find_key_below by done. cbn. by rewrite Hn. Qed.

Lemma find_at_gap r l1 l2 : below r l1 → above r l2 → find_key r (l1 ++ l2) = None.
Proof. intros H1 H2. by rewrite find_key_app, find_key_below, find_key_above. Qed.

(** Replacing a node by one under the same key, inserting at a gap, removing. *)
Lemma level_sorted_replace l1 n n' l2 :
  cmp (recv_row n) (recv_row n') = Eq → level_sorted (l1 ++ n :: l2) → level_sorted (l1 ++ n' :: l2).
Proof.
  intros E. rewrite !level_sorted_app, !level_sorted_cons. intros (H1 & [H2 H3] & H4). split_and!; [done|..|].
  - eapply Forall_impl; [exact H2|]. intros m Hm. cbn in *. by rewrite <-(cmp_eq_l (recv_row n)).
  - done.
  - intros a m Ha [->|Hm]%elem_of_cons; [|apply H4; [done|by right]].
    rewrite <-(cmp_eq_r cmp _ (recv_row n)) by done. apply H4; [done|by left].
Qed.

Lemma level_sorted_insert l1 n l2 :
  level_sorted (l1 ++ l2) → below (recv_row n) l1 → above (recv_row n) l2 → level_sorted (l1 ++ n :: l2).
Proof.
  rewrite !level_sorted_app, !level_sorted_cons. intros (H1 & H2 & H3) Hl Hg. split_and!; [done|..|].
  - eapply Forall_impl; [exact Hg|]. intros m Hm. cbn in Hm. apply cmp_gt_lt; [apply _|done].
  - done.
  - intros a m Ha [->|Hm]%elem_of_cons; [|by apply H3]. rewrite Forall_forall in Hl. by apply Hl.
Qed.

Lemma level_sorted_remove l1 n l2 : level_sorted (l1 ++ n :: l2) → level_sorted (l1 ++ l2).
Proof.
  rewrite !level_sorted_app, !level_sorted_cons. intros (H1 & [H2 H3] & H4). split_and!; [done..|].
  intros a m Ha Hm. apply H4; [done|by right].
Qed.

Lemma find_key_replace l1 n n' l2 r :
  cmp (recv_row n) (recv_row n') = Eq → level_sorted (l1 ++ n :: l2) →
  find_key r (l1 ++ n' :: l2) =
    if is_eq (cmp r (recv_row n)) then Some n' else find_key r (l1 ++ n :: l2).
Proof.
  intros E Hs. rewrite !find_key_app. cbn. rewrite <-(cmp_eq_l (recv_row n) (recv_row n') r) by done.
  rewrite (cmp_opp (recv_row n) r).
  destruct (cmp (recv_row n) r) eqn:Er; cbn; try (by destruct (find_key r l1)).
  rewrite find_key_below; [done|]. apply level_sorted_app in Hs as (_ & _ & H).
  apply Forall_forall. intros a Ha. rewrite <-(cmp_eq_r cmp _ (recv_row n)) by done. apply H; [done|by left].
Qed.

Lemma find_key_insert l1 n l2 r :
  below (recv_row n) l1 →
  find_key r (l1 ++ n :: l2) = if is_eq (cmp r (recv_row n)) then Some n else find_key r (l1 ++ l2).
Proof.
  intros Hl. rewrite !find_key_app. cbn. rewrite (cmp_opp (recv_row n) r).
  destruct (cmp (recv_row n) r) eqn:Er; cbn; try (by destruct (find_key r l1)).
  rewrite find_key_below; [done|]. eapply Forall_impl; [exact Hl|]. intros a Ha. cbn in *.
  by rewrite (cmp_eq_r cmp _ r (recv_row n)) by (apply cmp_eq_sym; [apply _|done]).
Qed.

Lemma find_key_remove l1 n l2 r :
  level_sorted (l1 ++ n :: l2) →
  find_key r (l1 ++ l2) = if is_eq (cmp r (recv_row n)) then None else find_key r (l1 ++ n :: l2).
Proof.
  intros Hs. rewrite !find_key_app. cbn. rewrite (cmp_opp (recv_row n) r).
  destruct (cmp (recv_row n) r) eqn:Er; cbn; try (by destruct (find_key r l1)).
  apply level_sorted_app in Hs as (_ & [H2 _]%level_sorted_cons & H).
  rewrite find_key_below, find_key_above; [done|..].
  - eapply Forall_impl; [exact H2|]. intros a Ha. cbn in *. apply cmp_lt_gt; [apply _|].
    by rewrite <-(cmp_eq_l (recv_row n)).
  - apply Forall_forall. intros a Ha. rewrite <-(cmp_eq_r cmp _ (recv_row n)) by done. apply H; [done|by left].
Qed.
End level.

(** ** Operations on a level *)

(** [l'] is [l] with [v] under the key of [k]. *)
Definition assigned (sort : Sort) (l : list RecvNode) (k : row) (v : option RecvNode) (l' : list RecvNode) : Prop :=
  level_sorted sort l' ∧
  ∀ r, find_key sort r l' = if is_eq (row_cmp sort r k) then v else find_key sort r l.

Section ops.
Context (sort : Sort).
Implicit Types (l : list RecvNode) (n : RecvNode) (r k : row).

#[local] Abbreviation cmp := (row_cmp sort).

Lemma find_key_elem l n : level_sorted sort l → n ∈ l → find_key sort (recv_row n) l = Some n.
Proof.
  intros Hs (l1 & l2 & ->)%list_elem_of_split. apply level_sorted_app in Hs as (_ & _ & H).
  apply find_at_key; [|apply cmp_refl]. apply Forall_forall. intros a Ha. apply H; [done|by left].
Qed.

Lemma assigned_elem l k v l' n : assigned sort l k v l' → n ∈ l' → v = Some n ∨ n ∈ l.
Proof.
  intros [Hs Hf] Hn. apply (find_key_elem _ _ Hs) in Hn. rewrite Hf in Hn.
  destruct (is_eq _); [by left|]. right. by apply (find_key_Some sort) in Hn as [? _].
Qed.

Lemma assigned_replace l1 n n' l2 k :
  cmp (recv_row n) k = Eq → cmp (recv_row n') k = Eq → level_sorted sort (l1 ++ n :: l2) →
  assigned sort (l1 ++ n :: l2) k (Some n') (l1 ++ n' :: l2).
Proof.
  intros Hn Hn' Hs. assert (cmp (recv_row n) (recv_row n') = Eq) as E.
  { rewrite (cmp_eq_l _ k) by done. apply (cmp_eq_sym cmp). exact Hn'. }
  split; [by eapply level_sorted_replace|]. intros r. rewrite (find_key_replace sort l1 n n') by done.
  by rewrite (cmp_eq_r cmp r _ k).
Qed.

Lemma assigned_remove l1 n l2 k :
  cmp (recv_row n) k = Eq → level_sorted sort (l1 ++ n :: l2) →
  assigned sort (l1 ++ n :: l2) k None (l1 ++ l2).
Proof.
  intros Hn Hs. split; [by eapply level_sorted_remove|]. intros r.
  by rewrite (find_key_remove sort l1 n), (cmp_eq_r cmp r _ k).
Qed.

Lemma assigned_insert l1 n l2 k :
  cmp (recv_row n) k = Eq → level_sorted sort (l1 ++ l2) →
  Forall (λ m, cmp (recv_row m) k = Lt) l1 → Forall (λ m, cmp (recv_row m) k = Gt) l2 →
  assigned sort (l1 ++ l2) k (Some n) (l1 ++ n :: l2).
Proof.
  intros Hn Hs H1 H2. assert (∀ m, cmp m k = cmp m (recv_row n)) as E.
  { intros m. apply cmp_eq_r; [apply _|]. by apply (cmp_eq_sym cmp). }
  assert (Forall (λ m, cmp (recv_row m) (recv_row n) = Lt) l1) as H1'.
  { eapply Forall_impl; [exact H1|]. intros m. cbn. by rewrite E. }
  split; [apply level_sorted_insert; [done..|]|].
  - eapply Forall_impl; [exact H2|]. intros m. cbn. by rewrite E.
  - intros r. by rewrite find_key_insert, E.
Qed.
End ops.

Section schema_ops.
Context (s : Schema).
Implicit Types (l : list RecvNode) (n d : RecvNode) (r old new : row).

#[local] Abbreviation cmp := (row_cmp (schema_sort s)).
#[local] Abbreviation find := (find_key (schema_sort s)).
#[local] Abbreviation assign := (assigned (schema_sort s)).

Lemma apply_add_spec l (n : WireNode) b :
  level_sorted (schema_sort s) l → build_node n s = Some b → recv_row b = wire_row n →
  ∃ l', apply_add l s n = Some l' ∧
    assign l (wire_row n)
      (Some (match find (wire_row n) l with Some d => set_rc d (u32_add (recv_rc d) 1) | None => b end)) l'.
Proof.
  intros Hs Hb Hr. unfold apply_add.
  destruct (level_view (schema_sort s) (wire_row n) l Hs) as [l1 d l2 -> H1 Hd H2|l1 l2 -> H1 H2].
  - rewrite search_at_key, find_at_key by done. unfold bump. rewrite list_lookup_middle by done.
    cbn [mbind option_bind]. rewrite vec_set_middle. eexists. split; [done|]. by apply assigned_replace.
  - rewrite search_at_gap, find_at_gap by done. rewrite Hb. cbn [mbind option_bind].
    rewrite vec_insert_middle. eexists. split; [done|].
    apply assigned_insert; [by rewrite Hr; apply cmp_refl|done..].
Qed.

Lemma apply_remove_spec l r d :
  level_sorted (schema_sort s) l → find r l = Some d →
  ∃ l', apply_remove l s r = Some l' ∧
    assign l r (if decide (recv_rc d = 1%Z) then None else Some (set_rc d (u32_sub (recv_rc d) 1))) l'.
Proof.
  intros Hs Hf. unfold apply_remove.
  destruct (level_view (schema_sort s) r l Hs) as [l1 n l2 -> H1 Hd H2|l1 l2 -> H1 H2].
  - rewrite search_at_key by done. rewrite find_at_key in Hf by done. injection Hf as ->.
    rewrite list_lookup_middle by done. cbn [mbind option_bind]. case_decide.
    + rewrite vec_remove_middle. eexists. split; [done|]. by apply assigned_remove.
    + rewrite vec_set_middle. eexists. split; [done|]. by apply assigned_replace.
  - by rewrite find_at_gap in Hf.
Qed.

Lemma apply_remove_missing l r :
  level_sorted (schema_sort s) l → find r l = None → apply_remove l s r = None.
Proof.
  intros Hs Hf. unfold apply_remove.
  destruct (level_view (schema_sort s) r l Hs) as [l1 n l2 -> H1 Hd H2|l1 l2 -> H1 H2].
  - by rewrite find_at_key in Hf.
  - by rewrite search_at_gap.
Qed.

Lemma apply_edit_same_key l old new d :
  level_sorted (schema_sort s) l → cmp old new = Eq → find old l = Some d →
  ∃ l', apply_edit l s old new = Some l' ∧ assign l old (Some (set_row d new)) l'.
Proof.
  intros Hs E Hf. unfold apply_edit. rewrite decide_True by done.
  destruct (level_view (schema_sort s) old l Hs) as [l1 n l2 -> H1 Hd H2|l1 l2 -> H1 H2].
  - rewrite search_at_key by done. rewrite find_at_key in Hf by done. injection Hf as ->.
    rewrite list_lookup_middle by done. cbn [mbind option_bind].
    rewrite vec_set_middle. eexists. split; [done|]. apply assigned_replace; [done| |done].
    by apply (cmp_eq_sym cmp).
  - by rewrite find_at_gap in Hf.
Qed.

(** *** An edit that moves the row

    First the old key gives up one count, then the row is placed under the new
    one: [edit_ghost] and [edit_placed] are what they leave there. *)

Definition edit_ghost (d : RecvNode) : option RecvNode :=
  if decide (recv_rc d = 1%Z) then None else Some (set_rc d (recv_rc d - 1)).

Definition edit_placed (d : RecvNode) (dest : option RecvNode) (new : row) : RecvNode :=
  match dest with
  | Some e => set_rc (set_row e new) (u32_add (recv_rc e) 1)
  | None => set_rc (set_row d new) 1
  end.

Definition moved (l : list RecvNode) (old new : row) (d : RecvNode) (l' : list RecvNode) : Prop :=
  ∃ mid, assign l old (edit_ghost d) mid ∧ assign mid new (Some (edit_placed d (find new l) new)) l'.

Lemma placed_found m1 e m2 d new :
  level_sorted (schema_sort s) (m1 ++ e :: m2) → cmp (recv_row e) new = Eq →
  assign (m1 ++ e :: m2) new (Some (edit_placed d (Some e) new))
    (m1 ++ set_rc (set_row e new) (u32_add (recv_rc e) 1) :: m2).
Proof. intros Hs He. apply assigned_replace; [done|apply cmp_refl|done]. Qed.

Lemma placed_gap m1 m2 d new :
  level_sorted (schema_sort s) (m1 ++ m2) →
  Forall (λ m, cmp (recv_row m) new = Lt) m1 → Forall (λ m, cmp (recv_row m) new = Gt) m2 →
  assign (m1 ++ m2) new (Some (edit_placed d None new)) (m1 ++ set_rc (set_row d new) 1 :: m2).
Proof. intros Hs H1 H2. apply assigned_insert; [apply cmp_refl|done..]. Qed.

(** The code after the fast path, on the level that gave up the old count. *)
Definition place (l : list RecvNode) (old_pos pos : nat) (found : bool) (d : RecvNode) (new : row) : option (list RecvNode) :=
  let new_rc := u32_sub (recv_rc d) 1 in
  '(l, adjusted_pos) ←
    (if decide (new_rc = 0%Z)
     then l ← vec_remove old_pos l; Some (l, if decide (old_pos < pos) then pos - 1 else pos)
     else l ← vec_set old_pos (set_rc d new_rc) l; Some (l, pos));
  if found then
    n ← l !! adjusted_pos;
    vec_set adjusted_pos (set_rc (set_row n new) (u32_add (recv_rc n) 1)) l
  else vec_insert adjusted_pos (set_rc (set_row d new) 1) l.

Lemma u32_sub_1 c : (1 ≤ c < 2 ^ 32)%Z → u32_sub c 1 = (c - 1)%Z.
Proof. intros. unfold u32_sub. apply Z.mod_small. lia. Qed.

(** The entry at [old_pos] is before the place, or after it. *)
Lemma place_after l1 d a b (found : bool) new (e : RecvNode) :
  (1 ≤ recv_rc d < 2 ^ 32)%Z →
  place (l1 ++ d :: a ++ (if found then e :: b else b)) (length l1) (length l1 + S (length a)) found d new =
  Some (let m1 := match edit_ghost d with None => l1 ++ a | Some g => l1 ++ g :: a end in
        if found then m1 ++ set_rc (set_row e new) (u32_add (recv_rc e) 1) :: b
        else m1 ++ set_rc (set_row d new) 1 :: b).
Proof.
  intros Hrc. unfold place, edit_ghost. rewrite u32_sub_1 by done.
  destruct (decide (recv_rc d = 1%Z)) as [E|E].
  - rewrite (decide_True _ _ (P := (recv_rc d - 1 = 0)%Z)) by lia.
    rewrite vec_remove_middle. cbn [mbind option_bind]. rewrite decide_True by lia.
    replace (length l1 + S (length a) - 1) with (length (l1 ++ a)) by (rewrite length_app; lia).
    destruct found; rewrite (assoc_L (++)).
    + rewrite list_lookup_middle by done. cbn [mbind option_bind]. by rewrite vec_set_middle.
    + by rewrite vec_insert_middle.
  - rewrite (decide_False _ _ (P := (recv_rc d - 1 = 0)%Z)) by lia.
    rewrite vec_set_middle. cbn [mbind option_bind].
    set (g := set_rc d (recv_rc d - 1)).
    replace (length l1 + S (length a)) with (length (l1 ++ g :: a)) by (rewrite length_app; cbn; lia).
    destruct found.
    + rewrite (app_comm_cons a), (assoc_L (++)). rewrite list_lookup_middle by done. cbn [mbind option_bind].
      by rewrite vec_set_middle.
    + rewrite (app_comm_cons a), (assoc_L (++)). by rewrite vec_insert_middle.
Qed.

Lemma place_before a b d l2 (found : bool) new (e : RecvNode) :
  (1 ≤ recv_rc d < 2 ^ 32)%Z →
  place ((a ++ (if found then e :: b else b)) ++ d :: l2) (length (a ++ (if found then e :: b else b)))
    (length a) found d new =
  Some (let m2 := match edit_ghost d with None => b ++ l2 | Some g => b ++ g :: l2 end in
        if found then a ++ set_rc (set_row e new) (u32_add (recv_rc e) 1) :: m2
        else a ++ set_rc (set_row d new) 1 :: m2).
Proof.
  intros Hrc. unfold place, edit_ghost. rewrite u32_sub_1 by done.
  destruct (decide (recv_rc d = 1%Z)) as [E|E].
  - rewrite (decide_True _ _ (P := (recv_rc d - 1 = 0)%Z)) by lia.
    rewrite vec_remove_middle. cbn [mbind option_bind]. rewrite decide_False by (rewrite length_app; lia).
    rewrite <-(assoc_L (++)). destruct found; cbn [app].
    + rewrite list_lookup_middle by done. cbn [mbind option_bind]. by rewrite vec_set_middle.
    + by rewrite vec_insert_middle.
  - rewrite (decide_False _ _ (P := (recv_rc d - 1 = 0)%Z)) by lia.
    rewrite vec_set_middle. cbn [mbind option_bind].
    rewrite <-(assoc_L (++)). destruct found; cbn [app].
    + rewrite list_lookup_middle by done. cbn [mbind option_bind]. by rewrite vec_set_middle.
    + by rewrite vec_insert_middle.
Qed.

Lemma ghost_assigned l1 d l2 old :
  level_sorted (schema_sort s) (l1 ++ d :: l2) → cmp (recv_row d) old = Eq →
  assign (l1 ++ d :: l2) old (edit_ghost d)
    (match edit_ghost d with None => l1 ++ l2 | Some g => l1 ++ g :: l2 end).
Proof.
  intros Hs Hd. unfold edit_ghost. case_decide; [by apply assigned_remove|by apply assigned_replace].
Qed.

Lemma same_slot_apart pos old_pos :
  old_pos < pos → pos ≠ S old_pos → same_slot pos old_pos = false.
Proof. intros. unfold same_slot. by rewrite !bool_decide_eq_false_2 by lia. Qed.

Lemma set_row_rc d new : recv_rc d = 1%Z → set_row d new = set_rc (set_row d new) 1.
Proof. intros E. unfold set_rc, set_row. cbn. by rewrite E. Qed.

Section move.
Context (l1 l2 : list RecvNode) (d : RecvNode) (old new : row).
Context (Hs : level_sorted (schema_sort s) (l1 ++ d :: l2)) (Hrc : (1 ≤ recv_rc d < 2 ^ 32)%Z).
Context (H1 : Forall (λ m, cmp (recv_row m) old = Lt) l1) (Hd : cmp (recv_row d) old = Eq).
Context (H2 : Forall (λ m, cmp (recv_row m) old = Gt) l2).

Lemma edit_at_key :
  cmp old new ≠ Eq →
  apply_edit (l1 ++ d :: l2) s old new =
    let raw := binary_search (l1 ++ d :: l2) new (schema_sort s) in
    let found := match raw with Ok _ => true | Err _ => false end in
    let pos := match raw with Ok p | Err p => p end in
    if bool_decide (recv_rc d = 1%Z) && same_slot pos (length l1)
    then Some (l1 ++ set_row d new :: l2) else place (l1 ++ d :: l2) (length l1) pos found d new.
Proof using H1 Hd H2.
  intros Hne. unfold apply_edit. rewrite decide_False by done.
  rewrite search_at_key by done. rewrite list_lookup_middle by done. cbn [mbind option_bind].
  by rewrite vec_set_middle.
Qed.

(** The row moves up, to an entry further on ... *)
Lemma edit_up_found a e b :
  l2 = a ++ e :: b → cmp old new = Lt →
  Forall (λ m, cmp (recv_row m) new = Lt) (l1 ++ d :: a) → cmp (recv_row e) new = Eq →
  Forall (λ m, cmp (recv_row m) new = Gt) b → recv_rc d ≠ 1%Z ∨ a ≠ [] →
  ∃ l', apply_edit (l1 ++ d :: l2) s old new = Some l' ∧ moved (l1 ++ d :: l2) old new d l'.
Proof using Hs Hrc H1 Hd H2.
  intros El Hlt Hbel He Hb Hap. pose proof (ghost_assigned _ _ _ _ Hs Hd) as Hg.
  rewrite edit_at_key by congruence.
  assert (Hlen : length (l1 ++ d :: a) = length l1 + S (length a)) by (rewrite length_app; done).
  assert (Hsr : binary_search (l1 ++ d :: l2) new (schema_sort s) = Ok (length l1 + S (length a))).
  { rewrite El, (app_comm_cons a), (assoc_L (++)), <-Hlen. by apply search_at_key. }
  assert (Hf : find new (l1 ++ d :: l2) = Some e).
  { rewrite El, (app_comm_cons a), (assoc_L (++)). by apply find_at_key. }
  rewrite Hsr. cbn zeta. rewrite (proj2 (andb_false_iff _ _)).
  - rewrite El. rewrite (place_after l1 d a b true new e Hrc). eexists. split; [done|].
    eexists. rewrite <-El. split; [exact Hg|]. rewrite Hf. destruct Hg as [Hg _]. rewrite El in *.
    destruct (edit_ghost d); rewrite ?(app_comm_cons a), (assoc_L (++)) in Hg |- *; by apply placed_found.
  - destruct Hap as [E|Ha]; [left; by apply bool_decide_eq_false|right].
    destruct a; [done|]. apply same_slot_apart; cbn; lia.
Qed.

(** ... or to a gap. *)
Lemma edit_up_gap a b :
  l2 = a ++ b → cmp old new = Lt →
  Forall (λ m, cmp (recv_row m) new = Lt) (l1 ++ d :: a) →
  Forall (λ m, cmp (recv_row m) new = Gt) b →
  ∃ l', apply_edit (l1 ++ d :: l2) s old new = Some l' ∧ moved (l1 ++ d :: l2) old new d l'.
Proof using Hs Hrc H1 Hd H2.
  intros El Hlt Hbel Hb. pose proof (ghost_assigned _ _ _ _ Hs Hd) as Hg.
  rewrite edit_at_key by congruence.
  assert (Hlen : length (l1 ++ d :: a) = length l1 + S (length a)) by (rewrite length_app; done).
  assert (Hsr : binary_search (l1 ++ d :: l2) new (schema_sort s) = Err (length l1 + S (length a))).
  { rewrite El, (app_comm_cons a), (assoc_L (++)), <-Hlen. by apply search_at_gap. }
  assert (Hf : find new (l1 ++ d :: l2) = None).
  { rewrite El, (app_comm_cons a), (assoc_L (++)). by apply find_at_gap. }
  assert (Hfin : moved (l1 ++ d :: l2) old new d
    (match edit_ghost d with None => l1 ++ a | Some g => l1 ++ g :: a end ++ set_rc (set_row d new) 1 :: b)).
  { eexists. split; [exact Hg|]. rewrite Hf. destruct Hg as [Hg _]. rewrite El in Hg |- *.
    apply Forall_app in Hbel as [Hb1 [Hdn Hba]%Forall_cons]. unfold edit_ghost in *.
    destruct (decide (recv_rc d = 1%Z)); rewrite ?(app_comm_cons a), (assoc_L (++)) in Hg |- *;
      apply placed_gap; auto; apply Forall_app; auto. }
  rewrite Hsr. cbn zeta. destruct (bool_decide (recv_rc d = 1%Z) && _) eqn:Efast.
  - apply andb_prop in Efast as [E1%bool_decide_eq_true Eslot]. eexists. split; [done|].
    destruct a as [|x a]; [|rewrite same_slot_apart in Eslot; cbn; [done|lia..]].
    unfold edit_ghost in Hfin. rewrite decide_True, app_nil_r in Hfin by done. cbn in El. rewrite <-El in Hfin.
    by rewrite set_row_rc.
  - rewrite El in Hfin |- *. rewrite (place_after l1 d a b false new d Hrc). by eexists.
Qed.

(** The row moves down, to an entry before ... *)
Lemma edit_down_found a e b :
  l1 = a ++ e :: b → cmp old new = Gt →
  Forall (λ m, cmp (recv_row m) new = Lt) a → cmp (recv_row e) new = Eq →
  Forall (λ m, cmp (recv_row m) new = Gt) (b ++ d :: l2) →
  ∃ l', apply_edit (l1 ++ d :: l2) s old new = Some l' ∧ moved (l1 ++ d :: l2) old new d l'.
Proof using Hs Hrc H1 Hd H2.
  intros El Hlt Ha He Hab. pose proof (ghost_assigned _ _ _ _ Hs Hd) as Hg.
  rewrite edit_at_key by congruence.
  assert (Hsr : binary_search (l1 ++ d :: l2) new (schema_sort s) = Ok (length a)).
  { rewrite El, <-(assoc_L (++)). by apply search_at_key. }
  assert (Hf : find new (l1 ++ d :: l2) = Some e).
  { rewrite El, <-(assoc_L (++)). by apply find_at_key. }
  rewrite Hsr. cbn zeta. rewrite (proj2 (andb_false_iff _ _)).
  - rewrite El. rewrite (place_before a b d l2 true new e Hrc). eexists. split; [done|].
    eexists. rewrite <-El. split; [exact Hg|]. rewrite Hf. destruct Hg as [Hg _]. rewrite El in *.
    destruct (edit_ghost d); rewrite <-(assoc_L (++)) in Hg |- *; by apply placed_found.
  - right. unfold same_slot. rewrite El, length_app. cbn. by rewrite !bool_decide_eq_false_2 by lia.
Qed.

(** ... or to a gap. *)
Lemma edit_down_gap a b :
  l1 = a ++ b → cmp old new = Gt →
  Forall (λ m, cmp (recv_row m) new = Lt) a →
  Forall (λ m, cmp (recv_row m) new = Gt) (b ++ d :: l2) →
  ∃ l', apply_edit (l1 ++ d :: l2) s old new = Some l' ∧ moved (l1 ++ d :: l2) old new d l'.
Proof using Hs Hrc H1 Hd H2.
  intros El Hlt Ha Hab. pose proof (ghost_assigned _ _ _ _ Hs Hd) as Hg.
  rewrite edit_at_key by congruence.
  assert (Hsr : binary_search (l1 ++ d :: l2) new (schema_sort s) = Err (length a)).
  { rewrite El, <-(assoc_L (++)). by apply search_at_gap. }
  assert (Hf : find new (l1 ++ d :: l2) = None).
  { rewrite El, <-(assoc_L (++)). by apply find_at_gap. }
  assert (Hfin : moved (l1 ++ d :: l2) old new d
    (a ++ set_rc (set_row d new) 1 :: match edit_ghost d with None => b ++ l2 | Some g => b ++ g :: l2 end)).
  { eexists. split; [exact Hg|]. rewrite Hf. destruct Hg as [Hg _]. rewrite El in Hg |- *.
    apply Forall_app in Hab as [Hb [Hdn Hl2]%Forall_cons]. unfold edit_ghost in *.
    destruct (decide (recv_rc d = 1%Z)); rewrite <-(assoc_L (++)) in Hg |- *;
      apply placed_gap; auto; apply Forall_app; auto. }
  rewrite Hsr. cbn zeta. destruct (bool_decide (recv_rc d = 1%Z) && _) eqn:Efast.
  - apply andb_prop in Efast as [E1%bool_decide_eq_true Eslot]. eexists. split; [done|].
    destruct b as [|x b].
    + unfold edit_ghost in Hfin. rewrite decide_True in Hfin by done. rewrite app_nil_r in El.
      rewrite <-El in Hfin. by rewrite set_row_rc.
    + exfalso. unfold same_slot in Eslot. rewrite El, length_app in Eslot. cbn in Eslot.
      by rewrite !bool_decide_eq_false_2 in Eslot by lia.
  - rewrite El in Hfin |- *. rewrite (place_before a b d l2 false new d Hrc). by eexists.
Qed.
End move.

(** Two entries under one key would be left by the fast path: the destination is
    taken by the entry right after the one that moves. *)
Definition merges_apart (l : list RecvNode) (old new : row) (d : RecvNode) : Prop :=
  ∀ e, find new l = Some e → recv_rc d = 1%Z → cmp old new = Lt →
    ∃ m, m ∈ l ∧ cmp old (recv_row m) = Lt ∧ cmp (recv_row m) new = Lt.

Lemma merges_apart_gap l1 d e b old new :
  Forall (λ m, cmp (recv_row m) old = Lt) l1 → cmp (recv_row d) old = Eq →
  cmp (recv_row e) new = Eq → Forall (λ m, cmp (recv_row m) new = Gt) b →
  ¬ ∃ m, m ∈ l1 ++ d :: e :: b ∧ cmp old (recv_row m) = Lt ∧ cmp (recv_row m) new = Lt.
Proof.
  intros H1 Hd He Hb (m & Hm & Hm1 & Hm2).
  apply elem_of_app in Hm as [Hm|[->|[->|Hm]%elem_of_cons]%elem_of_cons].
  - rewrite Forall_forall in H1. apply H1 in Hm. apply (cmp_lt_gt _) in Hm. congruence.
  - rewrite cmp_opp, Hd in Hm1. done.
  - congruence.
  - rewrite Forall_forall in Hb. apply Hb in Hm. congruence.
Qed.

Lemma apply_edit_moved l old new d :
  level_sorted (schema_sort s) l → cmp old new ≠ Eq → find old l = Some d →
  (1 ≤ recv_rc d < 2 ^ 32)%Z → merges_apart l old new d →
  ∃ l', apply_edit l s old new = Some l' ∧ moved l old new d l'.
Proof.
  intros Hs Hne Hf Hrc Hap. pose proof Hs as Hs0.
  destruct (level_view (schema_sort s) old l Hs) as [l1 n l2 -> H1 Hd H2|l1 l2 -> H1 H2];
    [|by rewrite find_at_gap in Hf].
  rewrite find_at_key in Hf by done. injection Hf as ->.
  apply level_sorted_app in Hs as (Hs1 & [_ Hs2]%level_sorted_cons & _).
  destruct (cmp old new) eqn:E; [done|..].
  - assert (Hb1 : Forall (λ m, cmp (recv_row m) new = Lt) (l1 ++ [d])).
    { apply Forall_app. split; [|repeat constructor; by rewrite (cmp_eq_l _ old)].
      eapply Forall_impl; [exact H1|]. intros m Hm. by apply (cmp_lt_trans _ old _). }
    destruct (level_view (schema_sort s) new l2 Hs2) as [a e b -> Ha He Hb|a b -> Ha Hb].
    + assert (Hbel : Forall (λ m, cmp (recv_row m) new = Lt) (l1 ++ d :: a))
        by (rewrite cons_middle, (assoc_L (++)); apply Forall_app; auto).
      apply (edit_up_found _ _ _ _ _ Hs0 Hrc H1 Hd H2 a e b); auto.
      destruct (decide (recv_rc d = 1%Z)) as [E1|]; [right|by left]. intros ->.
      apply (merges_apart_gap l1 d e b old new); auto. apply (Hap e); auto.
      rewrite (app_comm_cons []), (assoc_L (++)). by apply find_at_key.
    + apply (edit_up_gap _ _ _ _ _ Hs0 Hrc H1 Hd H2 a b); auto.
      rewrite cons_middle, (assoc_L (++)). apply Forall_app; auto.
  - assert (Hb2 : Forall (λ m, cmp (recv_row m) new = Gt) (d :: l2)).
    { constructor; [by rewrite (cmp_eq_l _ old)|]. eapply Forall_impl; [exact H2|].
      intros m Hm. by apply (cmp_gt_trans _ _ old _). }
    destruct (level_view (schema_sort s) new l1 Hs1) as [a e b -> Ha He Hb|a b -> Ha Hb].
    + apply (edit_down_found _ _ _ _ _ Hs0 Hrc H1 Hd H2 a e b); auto. apply Forall_app; auto.
    + apply (edit_down_gap _ _ _ _ _ Hs0 Hrc H1 Hd H2 a b); auto. apply Forall_app; auto.
Qed.
End schema_ops.

(** ** Well-formed trees *)

Inductive wf_level : Schema → list RecvNode → Prop :=
  | wf_level_intro s l :
      level_sorted (schema_sort s) l → (∀ n, n ∈ l → wf_node s n) → wf_level s l
with wf_node : Schema → RecvNode → Prop :=
  | wf_node_intro s r c rels :
      (1 ≤ c < 2 ^ 32)%Z → length rels = length (relationships s) →
      (∀ slot cs sub, rel_child s slot = Some cs → rels !! slot = Some sub → wf_level cs sub) →
      (∀ slot sub, rel_child s slot = None → rels !! slot = Some sub → sub = []) →
      wf_node s (RNode r c rels).

Lemma wf_level_sorted s l : wf_level s l → level_sorted (schema_sort s) l.
Proof. by intros [? ? Hs _]. Qed.

Lemma wf_level_node s l n : wf_level s l → n ∈ l → wf_node s n.
Proof. intros [? ? _ H]. apply H. Qed.

Lemma wf_node_rc s n : wf_node s n → (1 ≤ recv_rc n < 2 ^ 32)%Z.
Proof. by intros []. Qed.

Lemma wf_nil s : wf_level s [].
Proof. constructor; [constructor|]. by intros n ?%elem_of_nil. Qed.

Lemma wf_assigned s l k v l' :
  wf_level s l → assigned (schema_sort s) l k v l' → (∀ m, v = Some m → wf_node s m) → wf_level s l'.
Proof.
  intros Hl Ha Hv. constructor; [apply Ha|]. intros n Hn.
  destruct (assigned_elem _ _ _ _ _ _ Ha Hn) as [->|Hin]; [by apply Hv|by eapply wf_level_node].
Qed.

Lemma wf_set_rc s n c : wf_node s n → (1 ≤ c < 2 ^ 32)%Z → wf_node s (set_rc n c).
Proof. intros [? ? ? ? ? ? ? ?] Hc. by constructor. Qed.

Lemma wf_set_row s n r : wf_node s n → wf_node s (set_row n r).
Proof. intros [? ? ? ? ? ? ? ?]. by constructor. Qed.

Lemma wf_set_sub s n slot cs sub' rels :
  wf_node s n → rel_child s slot = Some cs → wf_level cs sub' →
  vec_set slot sub' (recv_rels n) = Some rels → wf_node s (set_rels n rels).
Proof.
  intros [s' r c rels0 Hc Hlen Hin Hout] Hslot Hsub Hset. unfold vec_set in Hset. case_decide as Hlt; [|done].
  cbn in Hset, Hlt. injection Hset as <-. constructor; [done|by rewrite length_insert|..].
  - intros i cs' sub Hi [(-> & <- & _)|(Hne & Hlk)]%list_lookup_insert_Some; [by simplify_eq|by eapply Hin].
  - intros i sub Hi [(-> & <- & _)|(Hne & Hlk)]%list_lookup_insert_Some; [congruence|by eapply Hout].
Qed.

Lemma u32_add_1 c : (0 ≤ c < 2 ^ 32 - 1)%Z → u32_add c 1 = (c + 1)%Z.
Proof. intros. unfold u32_add. apply Z.mod_small. lia. Qed.

(** *** A node built from the wire *)

Section wire_node_induction.
Context (P : WireNode → Prop).
Context (step : ∀ r rels, Forall (λ e : nat * list WireNode, Forall P e.2) rels → P (WNode r rels)).

Fixpoint wire_node_level_ind (n : WireNode) : P n :=
  match n with
  | WNode r rels =>
      step r rels
        ((fix slots (l : list (nat * list WireNode)) : Forall (λ e : nat * list WireNode, Forall P e.2) l :=
            match l with
            | [] => List.Forall_nil _
            | (slot, children) :: l' =>
                List.Forall_cons _ (slot, children) l'
                  ((fix kids (l : list WireNode) : Forall P l :=
                      match l with
                      | [] => List.Forall_nil _
                      | c :: l' => List.Forall_cons _ c l' (wire_node_level_ind c) (kids l')
                      end) children)
                  (slots l')
            end) rels)
  end.
End wire_node_induction.

(** No list of children is too long for its counts. *)
Fixpoint wire_small (n : WireNode) : bool :=
  match n with
  | WNode _ rels =>
      forallb (λ e, match e with (_, children) => bool_decide (fits_u32 (length children)) && forallb wire_small children end) rels
  end.

(** What [build_node] gives. *)
Definition built (s : Schema) (n : WireNode) : Prop :=
  ∃ b, build_node n s = Some b ∧ recv_row b = wire_row n ∧ recv_rc b = 1%Z ∧ wf_node s b.

(** A level whose counts are at most [k]. *)
Definition wf_upto (s : Schema) (k : Z) (l : list RecvNode) : Prop :=
  wf_level s l ∧ Forall (λ n, recv_rc n ≤ k)%Z l.

Lemma build_child_wf s l k child :
  built s child → wf_upto s k l → (0 ≤ k < 2 ^ 32 - 1)%Z →
  ∃ l', build_child build_node s l child = Some l' ∧ wf_upto s (k + 1) l'.
Proof.
  intros (b & Hb & Hr & Hrc & Hwf) [Hl Hk] Hlt.
  destruct (apply_add_spec s l child b (wf_level_sorted _ _ Hl) Hb Hr) as (l' & Hl' & Ha).
  exists l'. split; [exact Hl'|].
  assert (Hv : ∀ m, (match find_key (schema_sort s) (wire_row child) l with
      | Some d => set_rc d (u32_add (recv_rc d) 1) | None => b end) = m → wf_node s m ∧ (recv_rc m ≤ k + 1)%Z).
  { intros m <-. destruct (find_key _ _ l) as [d|] eqn:Ed; [|split; [done|lia]].
    apply find_key_Some in Ed as [Hd _]. pose proof (wf_node_rc _ _ (wf_level_node _ _ _ Hl Hd)).
    rewrite Forall_forall in Hk. specialize (Hk _ Hd). rewrite u32_add_1 by lia.
    split; [apply wf_set_rc; [by eapply wf_level_node|lia]|cbn; lia]. }
  split; [apply (wf_assigned _ _ _ _ _ Hl Ha); intros m [= Hm]; by apply Hv|].
  apply Forall_forall. intros m Hm. destruct (assigned_elem _ _ _ _ _ _ Ha Hm) as [[= E]|Hin]; [by apply Hv|].
  rewrite Forall_forall in Hk. specialize (Hk _ Hin). lia.
Qed.

Lemma build_children_wf s children l k :
  Forall (built s) children → wf_upto s k l → (0 ≤ k)%Z → (k + Z.of_nat (length children) < 2 ^ 32)%Z →
  ∃ l', try_foldl (build_child build_node s) l children = Some l' ∧ wf_level s l'.
Proof.
  intros Hc. revert l k. induction Hc as [|c children Hc _ IH]; intros l k Hl Hk Hlt.
  { exists l. split; [done|apply Hl]. }
  cbn [length] in Hlt. rewrite try_foldl_cons.
  destruct (build_child_wf s l k c Hc Hl ltac:(lia)) as (l' & -> & Hl'). cbn [mbind option_bind].
  apply (IH l' (k + 1)%Z); [done|lia..].
Qed.

(** The slots filled so far. *)
Definition wf_rels (s : Schema) (rels : list (list RecvNode)) : Prop := wf_node s (RNode [] 1 rels).

Lemma build_slot_wf s rels slot children :
  wf_rels s rels → (∀ cs, Forall (λ c, wire_small c = true → built cs c) children) →
  fits_u32 (length children) → forallb wire_small children = true →
  ∃ rels', build_slot build_node s rels (slot, children) = Some rels' ∧ wf_rels s rels'.
Proof.
  intros Hr Hc Hlen Hsm. cbn [build_slot]. destruct (rel_child s slot) as [cs|] eqn:Ecs; [|by eexists].
  destruct (build_children_wf cs children [] 0) as (l' & -> & Hl'); [..|cbn [mbind option_bind]].
  - rewrite List.forallb_forall in Hsm. specialize (Hc cs). rewrite Forall_forall in Hc |- *.
    intros c Hin. apply Hc; [done|]. apply Hsm. by apply list_elem_of_In.
  - split; [apply wf_nil|constructor].
  - lia.
  - unfold fits_u32 in Hlen. lia.
  - inversion Hr as [s' r c rels0 H1 Hl H2 H3]; subst.
    assert (slot < length rels) as Hlt.
    { rewrite Hl. by eapply rel_child_lt. }
    rewrite vec_set_Some by done. eexists. split; [done|].
    eapply (wf_set_sub s (RNode [] 1 rels)); [done..|]. by apply vec_set_Some.
Qed.

Lemma build_node_wf n : ∀ s, wire_small n = true → built s n.
Proof.
  induction n as [r rels IH] using wire_node_level_ind. intros s Hsm.
  assert (∃ out, try_foldl (build_slot build_node s) (replicate (length (relationships s)) []) rels = Some out ∧ wf_rels s out)
    as (out & Hout & Hwf).
  { assert (wf_rels s (replicate (length (relationships s)) [])) as Hinit.
    { constructor; [lia|by rewrite length_replicate|..].
      - intros slot cs sub _ [-> _]%lookup_replicate. apply wf_nil.
      - by intros slot sub _ [-> _]%lookup_replicate. }
    revert Hinit. generalize (replicate (length (relationships s)) (@nil RecvNode)). cbn in Hsm.
    induction IH as [|[slot children] rels Hc _ IHr]; intros acc Hacc; [by eexists|].
    cbn in Hsm. apply andb_prop in Hsm as [[Hlen%bool_decide_eq_true Hch]%andb_prop Hsm].
    rewrite try_foldl_cons. destruct (build_slot_wf s acc slot children) as (acc' & -> & Hacc'); [done| |done..|].
    { intros cs. eapply Forall_impl; [exact Hc|]. auto. }
    cbn [mbind option_bind]. auto. }
  exists (RNode r 1 out). cbn [build_node]. rewrite Hout. cbn. split_and!; [done..|].
  inversion Hwf; subst. by constructor.
Qed.

(** ** The theorems *)

Definition small_op (o : FlatOp) : Prop := match o with FAdd n => wire_small n = true | _ => True end.

(** The row an operation addresses is there. *)
Definition op_addressed (s : Schema) (l : list RecvNode) (o : FlatOp) : Prop :=
  match o with
  | FAdd _ => True
  | FRemove r | FEdit r _ => is_Some (find_key (schema_sort s) r l)
  end.

Fixpoint addressed (s : Schema) (l : list RecvNode) (path : list PathSeg) (o : FlatOp) : Prop :=
  match path with
  | [] => op_addressed s l o
  | seg :: rest =>
      match rel_child s (seg_rel seg) with
      | None => True
      | Some cs =>
          ∃ n, find_key (schema_sort s) (parent_row seg) l = Some n ∧
            ∀ sub, recv_rels n !! seg_rel seg = Some sub → addressed cs sub rest o
      end
  end.

(** No count overflows, and no row moves onto the entry right after its own. *)
Definition op_room (s : Schema) (l : list RecvNode) (o : FlatOp) : Prop :=
  let room r := ∀ e, find_key (schema_sort s) r l = Some e → (recv_rc e < 2 ^ 32 - 1)%Z in
  match o with
  | FAdd n => room (wire_row n)
  | FRemove _ => True
  | FEdit old new =>
      row_cmp (schema_sort s) old new ≠ Eq →
      room new ∧ ∀ d, find_key (schema_sort s) old l = Some d → merges_apart s l old new d
  end.

Fixpoint room (s : Schema) (l : list RecvNode) (path : list PathSeg) (o : FlatOp) : Prop :=
  match path with
  | [] => op_room s l o
  | seg :: rest =>
      ∀ cs n sub, rel_child s (seg_rel seg) = Some cs →
        find_key (schema_sort s) (parent_row seg) l = Some n →
        recv_rels n !! seg_rel seg = Some sub → room cs sub rest o
  end.

(** What an operation leaves under each key. *)
Definition op_result (s : Schema) (l : list RecvNode) (o : FlatOp) (l' : list RecvNode) : Prop :=
  let find r := find_key (schema_sort s) r l in
  match o with
  | FAdd n =>
      ∃ b, build_node n s = Some b ∧
        assigned (schema_sort s) l (wire_row n)
          (Some (match find (wire_row n) with Some d => set_rc d (recv_rc d + 1) | None => b end)) l'
  | FRemove r =>
      ∃ d, find r = Some d ∧
        assigned (schema_sort s) l r
          (if decide (recv_rc d = 1%Z) then None else Some (set_rc d (recv_rc d - 1))) l'
  | FEdit old new =>
      ∃ d, find old = Some d ∧
        if decide (row_cmp (schema_sort s) old new = Eq)
        then assigned (schema_sort s) l old (Some (set_row d new)) l'
        else moved s l old new d l'
  end.

Lemma apply_op_result s l o :
  wf_level s l → small_op o → op_addressed s l o → op_room s l o →
  ∃ l', apply_op l s o = Some l' ∧ op_result s l o l'.
Proof.
  intros Hl Hsm Had Hroom. pose proof (wf_level_sorted _ _ Hl) as Hs.
  assert (Hrc : ∀ r d, find_key (schema_sort s) r l = Some d → (1 ≤ recv_rc d < 2 ^ 32)%Z).
  { intros r d [Hd _]%find_key_Some. eapply wf_node_rc, wf_level_node; done. }
  destruct o as [n|r|old new]; cbn [apply_op op_addressed op_room op_result small_op] in *.
  - destruct (build_node_wf n s Hsm) as (b & Hb & Hr & _ & _).
    destruct (apply_add_spec s l n b Hs Hb Hr) as (l' & -> & Ha). exists l'. split; [done|]. exists b. split; [done|].
    destruct (find_key _ (wire_row n) l) as [d|] eqn:Ed; [|done].
    specialize (Hroom d eq_refl). specialize (Hrc _ _ Ed). rewrite u32_add_1 in Ha by lia. exact Ha.
  - destruct Had as [d Hd]. destruct (apply_remove_spec s l r d Hs Hd) as (l' & -> & Ha).
    exists l'. split; [done|]. exists d. split; [done|]. rewrite u32_sub_1 in Ha by eauto. exact Ha.
  - destruct Had as [d Hd]. destruct (decide (row_cmp (schema_sort s) old new = Eq)) as [E|E].
    + destruct (apply_edit_same_key s l old new d Hs E Hd) as (l' & -> & Ha). exists l'. split; [done|].
      by exists d.
    + destruct (Hroom E) as [_ Hap].
      destruct (apply_edit_moved s l old new d Hs E Hd) as (l' & -> & Hm); [by eauto|by apply Hap|].
      exists l'. split; [done|]. by exists d.
Qed.

Lemma find_wf s l r d : wf_level s l → find_key (schema_sort s) r l = Some d → wf_node s d.
Proof. intros Hl [Hd _]%find_key_Some. by eapply wf_level_node. Qed.

Lemma moved_wf s l old new d l' :
  wf_level s l → find_key (schema_sort s) old l = Some d →
  (∀ e, find_key (schema_sort s) new l = Some e → (recv_rc e < 2 ^ 32 - 1)%Z) →
  moved s l old new d l' → wf_level s l'.
Proof.
  intros Hl Hd Hroom (mid & H1 & H2). pose proof (find_wf _ _ _ _ Hl Hd) as Hwd. pose proof (wf_node_rc _ _ Hwd).
  assert (wf_level s mid) as Hmid.
  { apply (wf_assigned _ _ _ _ _ Hl H1). intros m. unfold edit_ghost. case_decide; [done|]. intros [= <-].
    apply wf_set_rc; [done|lia]. }
  apply (wf_assigned _ _ _ _ _ Hmid H2). intros m [= <-]. unfold edit_placed.
  destruct (find_key _ new l) as [e|] eqn:Ee.
  - pose proof (find_wf _ _ _ _ Hl Ee) as Hwe. pose proof (wf_node_rc _ _ Hwe).
    specialize (Hroom e eq_refl). rewrite u32_add_1 by lia. apply wf_set_rc; [by apply wf_set_row|lia].
  - apply wf_set_rc; [by apply wf_set_row|lia].
Qed.

Lemma op_result_wf s l o l' :
  wf_level s l → small_op o → op_room s l o → op_result s l o l' → wf_level s l'.
Proof.
  intros Hl Hsm Hroom. destruct o as [n|r|old new]; cbn [op_result op_room small_op] in *.
  - intros (b & Hb & Ha). apply (wf_assigned _ _ _ _ _ Hl Ha). intros m [= <-].
    destruct (find_key _ (wire_row n) l) as [d|] eqn:Ed.
    + pose proof (find_wf _ _ _ _ Hl Ed) as Hd. pose proof (wf_node_rc _ _ Hd). specialize (Hroom d eq_refl).
      apply wf_set_rc; [done|lia].
    + destruct (build_node_wf n s Hsm) as (b' & Hb' & _ & _ & Hwf). congruence.
  - intros (d & Hd & Ha). pose proof (find_wf _ _ _ _ Hl Hd) as Hwd. pose proof (wf_node_rc _ _ Hwd).
    apply (wf_assigned _ _ _ _ _ Hl Ha). intros m. case_decide; [done|]. intros [= <-].
    apply wf_set_rc; [done|lia].
  - intros (d & Hd & Ha). pose proof (find_wf _ _ _ _ Hl Hd) as Hwd. case_decide as E.
    + apply (wf_assigned _ _ _ _ _ Hl Ha). intros m [= <-]. by apply wf_set_row.
    + destruct (Hroom E). by eapply moved_wf.
Qed.

(** What a receiver does to a level, branch by branch, stated by what it finds
    under each key afterwards: an add counts a duplicate or inserts the node it
    builds, a remove takes one count or the entry, an edit that keeps the key
    replaces the row, and one that moves it leaves the remaining counts behind
    and merges into the destination or carries the entry, children included, to
    its new place.  Every other key keeps its entry and the level stays strictly
    sorted; the fast path of the edit gives what the general one would. *)
Theorem apply_op_spec s l o :
  wf_level s l → small_op o → op_addressed s l o → op_room s l o →
  ∃ l', apply_op l s o = Some l' ∧ op_result s l o l' ∧ wf_level s l'.
Proof.
  intros Hl Hsm Had Hroom. destruct (apply_op_result s l o Hl Hsm Had Hroom) as (l' & Ha & Hres).
  exists l'. split_and!; [done..|]. by eapply op_result_wf.
Qed.

Lemma locate s l r :
  level_sorted (schema_sort s) l →
  match find_key (schema_sort s) r l with
  | Some n => ∃ l1 l2, l = l1 ++ n :: l2 ∧ binary_search l r (schema_sort s) = Ok (length l1)
  | None => ∃ i, binary_search l r (schema_sort s) = Err i
  end.
Proof.
  intros Hs. destruct (level_view (schema_sort s) r l Hs) as [l1 n l2 -> H1 Hd H2|l1 l2 -> H1 H2].
  - rewrite find_at_key by done. exists l1, l2. split; [done|]. by apply search_at_key.
  - rewrite find_at_gap by done. eexists. by apply search_at_gap.
Qed.

(** [C19] A receiver keeps a well-formed tree at any depth: when the rows a change
    addresses are there, no count is at its maximum and no row moves onto the
    entry right after its own, applying the change does not panic and every
    level stays strictly sorted, every count positive and every node with one
    list per declared slot, empty where the slot is out of view. *)
Theorem apply_at_keeps_wf path : ∀ s l o,
  wf_level s l → small_op o → addressed s l path o → room s l path o →
  ∃ l', apply_at l s path o = Some l' ∧ wf_level s l'.
Proof.
  induction path as [|seg rest IH]; intros s l o Hl Hsm Had Hroom; cbn [apply_at addressed room] in *.
  { destruct (apply_op_result s l o Hl Hsm Had Hroom) as (l' & Ha & Hres).
    exists l'. split; [done|]. by eapply op_result_wf. }
  destruct (rel_child s (seg_rel seg)) as [cs|] eqn:Ecs; [|by eexists].
  destruct Had as (n & Hn & Hsub). pose proof (find_wf _ _ _ _ Hl Hn) as Hwn.
  pose proof (locate s l (parent_row seg) (wf_level_sorted _ _ Hl)) as Hloc. rewrite Hn in Hloc.
  destruct Hloc as (l1 & l2 & El & ->).
  assert (l !! length l1 = Some n) as -> by (rewrite El; by apply list_lookup_middle). cbn [mbind option_bind].
  inversion Hwn as [s' r c rels Hc Hlen Hin Hout]; subst s'. subst n.
  assert (seg_rel seg < length rels) as Hlt.
  { rewrite Hlen. by eapply rel_child_lt. }
  cbn [recv_rels] in *. destruct (lookup_lt_is_Some_2 rels _ Hlt) as [sub Hlk]. rewrite Hlk. cbn [mbind option_bind].
  destruct (IH cs sub o) as (sub' & -> & Hsub'); [by eapply Hin|done|by apply Hsub|by eapply Hroom|].
  cbn [mbind option_bind]. pose proof (vec_set_Some _ sub' rels Hlt) as Hset. rewrite Hset. cbn [mbind option_bind].
  rewrite El, vec_set_middle. eexists. split; [done|]. rewrite El in Hl.
  eapply (wf_assigned s _ r (Some _)); [exact Hl| |].
  - apply (assigned_replace _ l1 (RNode r c rels)); [apply cmp_refl..|]. by apply wf_level_sorted.
  - intros m [= <-]. by eapply (wf_set_sub s (RNode r c rels)).
Qed.

(** An inconsistent stream is never applied silently: on a well-formed tree, a
    change whose path or operation addresses a row that is not there panics,
    unless the path leaves the view before. *)
Theorem apply_at_addressed path : ∀ s l o l',
  wf_level s l → apply_at l s path o = Some l' → addressed s l path o.
Proof.
  induction path as [|seg rest IH]; intros s l o l' Hl Ha; cbn [apply_at addressed] in *;
    pose proof (wf_level_sorted _ _ Hl) as Hs.
  - destruct o as [n|r|old new]; cbn [apply_op op_addressed] in *; [done|..].
    + pose proof (locate s l r Hs) as Hloc. destruct (find_key _ r l); [done|].
      destruct Hloc as [i Hi]. unfold apply_remove in Ha. by rewrite Hi in Ha.
    + pose proof (locate s l old Hs) as Hloc. destruct (find_key _ old l); [done|].
      destruct Hloc as [i Hi]. unfold apply_edit in Ha. rewrite Hi in Ha. by case_decide.
  - destruct (rel_child s (seg_rel seg)) as [cs|] eqn:Ecs; [|done].
    pose proof (locate s l (parent_row seg) Hs) as Hloc.
    destruct (find_key _ (parent_row seg) l) as [n|] eqn:En; [|destruct Hloc as [i Hi]; by rewrite Hi in Ha].
    destruct Hloc as (l1 & l2 & El & Hb). rewrite Hb, El, list_lookup_middle in Ha by done.
    cbn [mbind option_bind] in Ha. exists n. split; [done|]. intros sub Hsub. rewrite Hsub in Ha.
    cbn [mbind option_bind] in Ha. destruct (apply_at sub cs rest o) as [sub'|] eqn:Eat; [|done].
    apply (IH cs sub o sub'); [|done]. pose proof (find_wf _ _ _ _ Hl En) as Hwn.
    inversion Hwn as [s' r c rels Hc Hlen Hin Hout]; subst. by eapply Hin.
Qed.

(** [C20] The fast path of an edit does not look at whether the destination is
    taken: a row with one count that moves onto the key of the entry right after
    its own is edited in place, and the level holds two entries under one key
    where the general path would have merged them and counted two. *)
Theorem edit_onto_next_entry s l1 d e l2 old new :
  level_sorted (schema_sort s) (l1 ++ d :: e :: l2) → recv_rc d = 1%Z →
  row_cmp (schema_sort s) (recv_row d) old = Eq → row_cmp (schema_sort s) (recv_row e) new = Eq →
  apply_edit (l1 ++ d :: e :: l2) s old new = Some (l1 ++ set_row d new :: e :: l2) ∧
  ¬ level_sorted (schema_sort s) (l1 ++ set_row d new :: e :: l2).
Proof.
  intros Hs Hrc Hd He. pose proof Hs as (Hs1 & [Hl2 [Hel _]%level_sorted_cons]%level_sorted_cons & H12)%level_sorted_app.
  apply Forall_cons in Hl2 as [Hde Hdl].
  assert (Hlt : row_cmp (schema_sort s) old new = Lt).
  { rewrite <-(cmp_eq_l (recv_row d)), <-(cmp_eq_r _ _ (recv_row e)) by done. done. }
  split.
  - rewrite (edit_at_key s l1 (e :: l2) d old new); [|..].
    + assert (Hsr : binary_search (l1 ++ d :: e :: l2) new (schema_sort s) = Ok (S (length l1))).
      { replace (S (length l1)) with (length (l1 ++ [d])) by (rewrite length_app; cbn; lia).
        rewrite (cons_middle d l1), (assoc_L (++)). apply search_at_key; [|done|].
        - apply Forall_app. split; [|repeat constructor; by rewrite (cmp_eq_l _ old)].
          apply Forall_forall. intros m Hm. apply (cmp_lt_eq_trans _ _ (recv_row e)); [|done].
          apply H12; [done|]. right. by left.
        - eapply Forall_impl; [exact Hel|]. intros m Hm. cbn in Hm. apply (cmp_lt_gt _).
          by rewrite <-(cmp_eq_l (recv_row e)). }
      rewrite Hsr. cbn zeta. unfold same_slot.
      by rewrite bool_decide_eq_true_2, (bool_decide_eq_true_2 (S (length l1) = S (length l1))), orb_true_r by done.
    + apply Forall_forall. intros m Hm. rewrite <-(cmp_eq_r _ _ (recv_row d)) by done. apply H12; [done|by left].
    + done.
    + constructor.
      * apply (cmp_lt_gt _). by rewrite <-(cmp_eq_l (recv_row d)).
      * eapply Forall_impl; [exact Hdl|]. intros m Hm. cbn in Hm. apply (cmp_lt_gt _).
        by rewrite <-(cmp_eq_l (recv_row d)).
    + congruence.
  - intros (_ & [Hbad _]%level_sorted_cons & _)%level_sorted_app. apply Forall_cons in Hbad as [Hbad _].
    cbn in Hbad. rewrite cmp_opp, He in Hbad. done.
Qed.

(** ** Witnesses

    Rows of one boolean column, without relationships and, one level up, with a
    slot in view and one out of it. *)

Definition bool_schema : Schema := schema_new [[]] [0%nat] [(0%nat, true)].

Definition nest_schema : Schema :=
  with_relationships bool_schema [rel_related [] bool_schema; rel_new []].

Definition bool_node (b : bool) (rc : Z) : RecvNode := RNode [Bool b] rc [].

Definition pair_level : list RecvNode := [bool_node false 2; bool_node true 1].

Definition nest_level : list RecvNode := [RNode [Bool false] 1 [pair_level; []]].

Lemma bool_node_wf b rc : (1 ≤ rc < 2 ^ 32)%Z → wf_node bool_schema (bool_node b rc).
Proof. intros. by constructor. Qed.

Lemma pair_level_wf : wf_level bool_schema pair_level.
Proof.
  constructor; [repeat constructor|]. intros n [->|[->|[]%elem_of_nil]%elem_of_cons]%elem_of_cons;
    apply bool_node_wf; lia.
Qed.

Lemma nest_level_wf : wf_level nest_schema nest_level.
Proof.
  constructor; [repeat constructor|]. intros n [->|[]%elem_of_nil]%elem_of_cons.
  constructor; [lia|done|..].
  - intros [|[|slot]] cs sub H1 H2; try discriminate H1. injection H1 as <-. injection H2 as <-.
    exact pair_level_wf.
  - intros [|[|slot]] sub H1 H2; try discriminate H1; try discriminate H2. by injection H2 as <-.
Qed.

Lemma apply_op_spec_witness :
  ∃ l', apply_op pair_level bool_schema (FEdit [Bool false] [Bool true]) = Some l' ∧
    op_result bool_schema pair_level (FEdit [Bool false] [Bool true]) l' ∧ wf_level bool_schema l'.
Proof.
  apply apply_op_spec; [exact pair_level_wf|exact I|by eexists|].
  intros _. split.
  - intros e [= <-]. reflexivity.
  - intros d [= <-] e _ [=].
Defined.

Lemma apply_at_keeps_wf_witness :
  ∃ l', apply_at nest_level nest_schema [MkSeg 0 [Bool false]] (FRemove [Bool false]) = Some l' ∧
    wf_level nest_schema l'.
Proof.
  apply apply_at_keeps_wf; [exact nest_level_wf|exact I|..].
  - eexists. split; [reflexivity|]. intros sub [= <-]. by eexists.
  - by intros cs n sub [= <-] [= <-] [= <-].
Defined.

Lemma apply_at_addressed_witness :
  addressed nest_schema nest_level [MkSeg 0 [Bool false]] (FRemove [Bool false]).
Proof. eapply apply_at_addressed; [exact nest_level_wf|reflexivity]. Defined.

(** Two paths reach one row; the edit arrives once per path. *)
Lemma edit_onto_next_entry_witness :
  apply_edit [bool_node false 2] bool_schema [Bool false] [Bool true] =
    Some [bool_node false 1; bool_node true 1] ∧
  apply_edit [bool_node false 1; bool_node true 1] bool_schema [Bool false] [Bool true] =
    Some [bool_node true 1; bool_node true 1] ∧
  ¬ level_sorted (schema_sort bool_schema) [bool_node true 1; bool_node true 1].
Proof.
  split; [reflexivity|].
  apply (edit_onto_next_entry bool_schema [] (bool_node false 1) (bool_node true 1) [] [Bool false] [Bool true]);
    [repeat constructor|reflexivity..].
Defined.
