(* ===== verification/View.v ===== *)
(** * The materialised view ([rust/src/view.rs])

    The tree a query's result is folded into, with the copy-on-write machinery:
    an entry and a list carry the stamp of the transaction that created them,
    and an update path-copies what the current transaction does not own.  An
    [Arc] is its content: [Arc::make_mut] and a clone differ only in which other
    holders see the change, and Rust lets no holder see it, so the model keeps
    the branches of [entry_cow] and [list_cow] and both give the stamped object.
    Stable ids ([with_ids], off in this view) are left out; counts are [u32] and
    wrap, stamps are [u64]; a panic is [None]. *)

From stdpp Require Import base list numbers option.
From Stdlib Require Import ZArith Lia.
From S2P Require Import Prelude Values Rows Schema BTree BTreeFacts Change OrdMap Flat.

Definition REL_ROOT : nat := 0.

(** ** Transactions *)

Inductive Mutate := Immutable | InPlace | Cow.

Definition can_mut (created : Z) (mode : Mutate) (gen : Z) : bool :=
  match mode with
  | Immutable => false
  | InPlace => true
  | Cow => bool_decide (created = gen)
  end.

(** ** The entry tree *)

Record EntryListInner (E : Type) := MkList { l_created : Z; items : list E }.
Arguments MkList {E} _ _.
Arguments l_created {E} _.
Arguments items {E} _.

Inductive Entry : Type :=
  | MkEntry (erow : row) (erc : Z) (created : Z) (erels : list (EntryListInner Entry)).

Abbreviation EntryList := (EntryListInner Entry).

Definition e_row (e : Entry) : row := let 'MkEntry r _ _ _ := e in r.
Definition e_rc (e : Entry) : Z := let 'MkEntry _ c _ _ := e in c.
Definition e_created (e : Entry) : Z := let 'MkEntry _ _ g _ := e in g.
Definition e_rels (e : Entry) : list EntryList := let 'MkEntry _ _ _ l := e in l.

Definition e_set_row (e : Entry) (r : row) : Entry := MkEntry r (e_rc e) (e_created e) (e_rels e).
Definition e_set_rc (e : Entry) (c : Z) : Entry := MkEntry (e_row e) c (e_created e) (e_rels e).
Definition e_stamp (e : Entry) (g : Z) : Entry := MkEntry (e_row e) (e_rc e) g (e_rels e).
Definition e_set_rels (e : Entry) (l : list EntryList) : Entry := MkEntry (e_row e) (e_rc e) (e_created e) l.

(** ** View changes *)

Inductive ViewChange : Type :=
  | VAdd (n : node)
  | VRemove (n : node)
  | VChild (r : row) (rel : nat) (sub : ViewChange)
  | VEdit (r old : row).

Fixpoint from_change (c : change) : ViewChange :=
  match c with
  | Add n => VAdd n
  | Remove n => VRemove n
  | Edit n old => VEdit (node_row n) (node_row old)
  | Child n rel sub => VChild (node_row n) rel (from_change sub)
  end.

(** ** Copy-on-write accessors *)

(** In place (through [make_mut]) or on a fresh clone. *)
Definition entry_cow (e : Entry) (mode : Mutate) (gen : Z) : Entry :=
  if can_mut (e_created e) mode gen then e_stamp e gen
  else let new := e in e_stamp new gen.

Definition list_cow (l : EntryList) (mode : Mutate) (gen : Z) : EntryList :=
  if can_mut (l_created l) mode gen then MkList gen (items l)
  else let new := l in MkList gen (items new).

(** [let pe = entry_cow(parent); let list = list_cow(list_slot(pe, rel)); ..],
    with [f] the update of the list. *)
Definition list_slot_update (parent : Entry) (rel : nat) (mode : Mutate) (gen : Z)
    (f : list Entry → option (list Entry)) : option Entry :=
  let pe := entry_cow parent mode gen in
  l ← e_rels pe !! rel;
  let l := list_cow l mode gen in
  its ← f (items l);
  rels ← vec_set rel (MkList (l_created l) its) (e_rels pe);
  Some (e_set_rels pe rels).

(** [f] on [items[p]]. *)
Definition item_update (its : list Entry) (p : nat) (f : Entry → Entry) : option (list Entry) :=
  e ← its !! p; vec_set p (f e) its.

Definition binary_search (its : list Entry) (r : row) (sort : Sort) : SearchResult :=
  binary_search_by (λ e, row_cmp sort (e_row e) r) its.

(** ** Entry construction *)

Definition empty_entry_list : EntryList := MkList 0 [].

Definition make_new_entry (r : row) (schema : Schema) (rc gen : Z) : Entry :=
  MkEntry r rc gen (replicate (length (relationships schema)) empty_entry_list).

Definition synthetic_root : Entry := MkEntry [] 0 0 [MkList 0 []].

Definition view_data (root : Entry) : option EntryList := e_rels root !! REL_ROOT.

(** The loops of [init_rels_for_new_entry]: children of a slot, slots. *)
Definition init_child (init : node → Schema → Entry → option Entry) (gen : Z) (schema : Schema)
    (its : list Entry) (child : node) : option (list Entry) :=
  match binary_search its (node_row child) (schema_sort schema) with
  | Ok p => item_update its p (λ e, e_set_rc e (u32_add (e_rc e) 1))
  | Err ins =>
      ce ← init child schema (make_new_entry (node_row child) schema 1 gen);
      vec_insert ins ce its
  end.

Definition init_slot (init : node → Schema → Entry → option Entry) (gen : Z) (schema : Schema)
    (entry : Entry) (r : nat * (unit → list node)) : option Entry :=
  match r with
  | (slot, thunk) =>
      match rel_child schema slot with
      | None => Some entry
      | Some child_schema =>
          its ← try_foldl (init_child init gen child_schema) [] (thunk tt);
          match its with
          | [] => Some entry
          | _ => rels ← vec_set slot (MkList gen its) (e_rels entry); Some (e_set_rels entry rels)
          end
      end
  end.

Fixpoint init_rels_for_new_entry (gen : Z) (n : node) (schema : Schema) (entry : Entry) {struct n} : option Entry :=
  match n with
  | Node _ rels => try_foldl (init_slot (init_rels_for_new_entry gen) gen schema) entry rels
  end.

(** ** The differ *)

Definition apply_add (parent : Entry) (n : node) (schema : Schema) (rel : nat) (mode : Mutate) (gen : Z) :
    option (Entry * bool) :=
  l ← e_rels parent !! rel;
  match binary_search (items l) (node_row n) (schema_sort schema) with
  | Ok p =>
      pe ← list_slot_update parent rel mode gen
             (λ its, item_update its p (λ e, let e := entry_cow e mode gen in e_set_rc e (u32_add (e_rc e) 1)));
      Some (pe, true)
  | Err ins =>
      e ← init_rels_for_new_entry gen n schema (make_new_entry (node_row n) schema 1 gen);
      pe ← list_slot_update parent rel mode gen (vec_insert ins e);
      Some (pe, true)
  end.

Definition apply_remove (parent : Entry) (r : row) (schema : Schema) (rel : nat) (mode : Mutate) (gen : Z) :
    option (Entry * bool) :=
  l ← e_rels parent !! rel;
  match binary_search (items l) r (schema_sort schema) with
  | Err _ => None
  | Ok pos =>
      n ← items l !! pos;
      let rc := e_rc n in
      pe ← list_slot_update parent rel mode gen
             (λ its, if decide (rc = 1%Z) then vec_remove pos its
                     else item_update its pos
                            (λ e, let e := entry_cow e mode gen in e_set_rc e (u32_sub (e_rc e) 1)));
      Some (pe, true)
  end.

(** [applyEdit]: the entry with its new row. *)
Definition apply_edit (existing : Entry) (new old : row) (schema : Schema) (mode : Mutate) (gen : Z) : Entry :=
  if can_mut (e_created existing) mode gen && bool_decide (row_cmp (schema_sort schema) old new = Eq)
  then let e := entry_cow existing mode gen in e_set_row e new
  else let e := existing in e_stamp (e_set_row e new) gen.

(** The list update of an edit that moves the row (after the fast path). *)
Definition move_entry (new old : row) (schema : Schema) (mode : Mutate) (gen : Z)
    (old_pos pos : nat) (found : bool) (old_rc : Z) (its : list Entry) : option (list Entry) :=
  old_entry ← its !! old_pos;
  let new_rc := u32_sub old_rc 1 in
  '(its, adjusted_pos) ←
    (if decide (new_rc = 0%Z)
     then its ← vec_remove old_pos its; Some (its, if decide (old_pos < pos) then pos - 1 else pos)
     else its ← item_update its old_pos (λ e, e_set_rc (entry_cow e mode gen) new_rc); Some (its, pos));
  if found then
    existing ← its !! adjusted_pos;
    let existing_rc := e_rc existing in
    its ← item_update its adjusted_pos (λ e, apply_edit e new old schema mode gen);
    item_update its adjusted_pos (λ e, e_set_rc (entry_cow e mode gen) (u32_add existing_rc 1))
  else
    let moved := apply_edit old_entry new old schema mode gen in
    let moved := e_set_rc (entry_cow moved mode gen) 1 in
    vec_insert adjusted_pos moved its.

Definition apply_edit_change (parent : Entry) (new old : row) (schema : Schema) (rel : nat) (mode : Mutate) (gen : Z) :
    option (Entry * bool) :=
  let sort := schema_sort schema in
  l ← e_rels parent !! rel;
  if decide (row_cmp sort old new ≠ Eq) then
    match binary_search (items l) old sort with
    | Err _ => None
    | Ok old_pos =>
        let raw := binary_search (items l) new sort in
        old_entry ← items l !! old_pos;
        let old_rc := e_rc old_entry in
        let found := match raw with Ok _ => true | Err _ => false end in
        let pos := match raw with Ok p | Err p => p end in
        if bool_decide (old_rc = 1%Z) && same_slot pos old_pos then
          pe ← list_slot_update parent rel mode gen
                 (λ its, item_update its old_pos (λ e, apply_edit e new old schema mode gen));
          Some (pe, true)
        else
          pe ← list_slot_update parent rel mode gen (move_entry new old schema mode gen old_pos pos found old_rc);
          Some (pe, true)
    end
  else
    match binary_search (items l) old sort with
    | Err _ => None
    | Ok pos =>
        pe ← list_slot_update parent rel mode gen
               (λ its, item_update its pos (λ e, apply_edit e new old schema mode gen));
        Some (pe, true)
    end.

(** [apply] is the recursive call on the nested change. *)
Definition apply_child (apply : Entry → Schema → nat → option (Entry * bool))
    (parent : Entry) (r : row) (child_rel : nat) (schema : Schema) (rel : nat) (mode : Mutate) (gen : Z) :
    option (Entry * bool) :=
  match rel_child schema child_rel with
  | None => Some (parent, false)
  | Some child_schema =>
      l ← e_rels parent !! rel;
      match binary_search (items l) r (schema_sort schema) with
      | Err _ => None
      | Ok pos =>
          if can_mut (l_created l) mode gen then
            let pe := entry_cow parent mode gen in
            l ← e_rels pe !! rel;
            let l := list_cow l mode gen in
            e ← items l !! pos;
            '(e, changed) ← apply e child_schema child_rel;
            its ← vec_set pos e (items l);
            rels ← vec_set rel (MkList (l_created l) its) (e_rels pe);
            Some (e_set_rels pe rels, changed)
          else
            child ← items l !! pos;
            '(child, changed) ← apply child child_schema child_rel;
            if negb changed then Some (parent, false)
            else
              pe ← list_slot_update parent rel mode gen (vec_set pos child);
              Some (pe, true)
      end
  end.

Fixpoint apply (c : ViewChange) (mode : Mutate) (gen : Z) (parent : Entry) (schema : Schema) (rel : nat) :
    option (Entry * bool) :=
  match c with
  | VAdd n => apply_add parent n schema rel mode gen
  | VRemove n => apply_remove parent (node_row n) schema rel mode gen
  | VChild r child_rel sub => apply_child (apply sub mode gen) parent r child_rel schema rel mode gen
  | VEdit new old => apply_edit_change parent new old schema rel mode gen
  end.

Definition apply_change (root : Entry) (c : ViewChange) (schema : Schema) (rel : nat) (mode : Mutate) (gen : Z) :
    option Entry :=
  '(root, _) ← apply c mode gen root schema rel; Some root.

(** ** The view

    A listener is its identity; [log] is the calls the view has made, in order. *)

Inductive ResultType := Unknown | Complete | Error.

Record View := MkView {
  v_schema : Schema;
  v_root : Entry;
  listeners : list nat;
  v_dirty : bool;
  v_result : ResultType;
  v_txn : Z;
  v_log : list (nat * EntryList * ResultType)
}.

Definition v_set_root (v : View) (root : Entry) : View :=
  MkView (v_schema v) root (listeners v) (v_dirty v) (v_result v) (v_txn v) (v_log v).
Definition v_set_dirty (v : View) (d : bool) : View :=
  MkView (v_schema v) (v_root v) (listeners v) d (v_result v) (v_txn v) (v_log v).

Definition view_new (schema : Schema) (rt : ResultType) : View :=
  MkView schema synthetic_root [] false rt 0 [].

Definition data (v : View) : option EntryList := view_data (v_root v).

(** Listeners that do not call back into the view. *)
Definition fire_listeners (v : View) : option View :=
  d ← data v;
  Some (MkView (v_schema v) (v_root v) (listeners v) (v_dirty v) (v_result v) (v_txn v)
          (v_log v ++ map (λ l, (l, d, v_result v)) (listeners v))).

Definition set_result_type (v : View) (rt : ResultType) : option View :=
  fire_listeners (MkView (v_schema v) (v_root v) (listeners v) (v_dirty v) rt (v_txn v) (v_log v)).

Definition add_listener (v : View) (l : nat) : option (View * nat) :=
  d ← data v;
  Some (MkView (v_schema v) (v_root v) (listeners v ++ [l]) (v_dirty v) (v_result v) (v_txn v)
          (v_log v ++ [(l, d, v_result v)]), length (listeners v)).

Definition flush (v : View) : option View :=
  if v_dirty v then
    v ← fire_listeners (v_set_dirty v false);
    Some (MkView (v_schema v) (v_root v) (listeners v) (v_dirty v) (v_result v) (u64_wrap (v_txn v + 1)) (v_log v))
  else Some v.

Definition hydrate_from (v : View) (nodes : list node) : option View :=
  let v := v_set_dirty v true in
  root ← try_foldl (λ root n, apply_change root (VAdd n) (v_schema v) REL_ROOT InPlace (v_txn v)) (v_root v) nodes;
  flush (v_set_root v root).

Definition push_change (v : View) (c : change) : option View :=
  let v := v_set_dirty v true in
  root ← apply_change (v_root v) (from_change c) (v_schema v) REL_ROOT Cow (v_txn v);
  Some (v_set_root v root).
