(* ===== verification/ViewFacts.v ===== *)
(** * The view and the receiver compute the same tree

    Erasing the stamps of the materialised view gives the tree a receiver holds:
    folding a change into the view, in any update mode, is applying its flat
    form to the receiver, panics included. *)

From stdpp Require Import base list numbers option sets.
From Stdlib Require Import ZArith Lia.
From S2P Require Import Prelude Values Rows Schema BTree BTreeFacts Change OrdMap Flat FlatFacts View.

(** ** Erasure *)

Fixpoint erase (e : Entry) : RecvNode :=
  match e with
  | MkEntry r c _ rels => RNode r c (map (λ l, map erase (items l)) rels)
  end.

Lemma erase_row e : recv_row (erase e) = e_row e.
Proof. by destruct e. Qed.

Lemma erase_rc e : recv_rc (erase e) = e_rc e.
Proof. by destruct e. Qed.

Definition erase_list (l : EntryList) : list RecvNode := erase <$> items l.

Lemma erase_rels e : recv_rels (erase e) = erase_list <$> e_rels e.
Proof. by destruct e. Qed.

Lemma erase_set_row e r : erase (e_set_row e r) = set_row (erase e) r.
Proof. by destruct e. Qed.

Lemma erase_set_rc e c : erase (e_set_rc e c) = set_rc (erase e) c.
Proof. by destruct e. Qed.

Lemma erase_stamp e g : erase (e_stamp e g) = erase e.
Proof. by destruct e. Qed.

Lemma erase_set_rels e l : erase (e_set_rels e l) = set_rels (erase e) (erase_list <$> l).
Proof. by destruct e. Qed.

Lemma entry_cow_eq e mode gen : entry_cow e mode gen = e_stamp e gen.
Proof. unfold entry_cow. by destruct (can_mut _ _ _). Qed.

Lemma list_cow_eq l mode gen : list_cow l mode gen = MkList gen (items l).
Proof. unfold list_cow. by destruct (can_mut _ _ _). Qed.

(** ** Searches and vectors under a map *)

Lemma halve_map {A B} (f : A → comparison) (g : B → comparison) (h : A → B) l fuel base size :
  (∀ x, f x = g (h x)) → halve f l fuel base size = halve g (h <$> l) fuel base size.
Proof.
  intros Hf. revert base size. induction fuel as [|fuel IH]; intros base size; [done|].
  cbn [halve]. case_decide; [done|]. rewrite list_lookup_fmap.
  destruct (l !! (base + size / 2)) as [x|]; cbn; [rewrite Hf|]; apply IH.
Qed.

Lemma search_map {A B} (f : A → comparison) (g : B → comparison) (h : A → B) l :
  (∀ x, f x = g (h x)) → binary_search_by f l = binary_search_by g (h <$> l).
Proof.
  intros Hf. unfold binary_search_by. rewrite length_fmap, (halve_map f g h) by done.
  rewrite list_lookup_fmap. destruct (l !! _); cbn; [|done]. by rewrite Hf.
Qed.

Lemma search_erase its r sort : binary_search its r sort = Flat.binary_search (erase <$> its) r sort.
Proof. apply search_map. intros e. by rewrite erase_row. Qed.

Lemma vec_set_map {A B} (h : A → B) i x l :
  vec_set i (h x) (h <$> l) = fmap (M := list) h <$> vec_set i x l.
Proof. unfold vec_set. rewrite length_fmap. case_decide; [|done]. cbn. by rewrite list_fmap_insert. Qed.

Lemma vec_insert_map {A B} (h : A → B) i x l :
  vec_insert i (h x) (h <$> l) = fmap (M := list) h <$> vec_insert i x l.
Proof.
  unfold vec_insert. rewrite length_fmap. case_decide; [|done]. cbn.
  by rewrite fmap_app, fmap_take, fmap_cons, fmap_drop.
Qed.

Lemma vec_remove_map {A B} (h : A → B) i l :
  vec_remove i (h <$> l) = fmap (M := list) h <$> vec_remove i l.
Proof.
  unfold vec_remove. rewrite length_fmap. case_decide; [|done]. cbn.
  by rewrite fmap_app, fmap_take, fmap_drop.
Qed.

(** [items[p]] replaced, before and after erasure. *)
Lemma item_update_erase its p f g :
  (∀ e, erase (f e) = g (erase e)) →
  fmap (M := list) erase <$> item_update its p f =
  (n ← (erase <$> its) !! p; vec_set p (g n) (erase <$> its)).
Proof.
  intros Hf. unfold item_update. rewrite list_lookup_fmap. destruct (its !! p) as [e|]; [|done].
  cbn. rewrite <-Hf. by rewrite vec_set_map.
Qed.

(** The erased parent with a new list in the slot. *)
Definition with_slot (parent : RecvNode) (rel : nat) (its : list RecvNode) : RecvNode :=
  set_rels parent (<[rel := its]> (recv_rels parent)).

Lemma list_slot_update_erase parent rel mode gen f l :
  e_rels parent !! rel = Some l →
  erase <$> list_slot_update parent rel mode gen f =
  with_slot (erase parent) rel <$> (fmap (M := list) erase <$> f (items l)).
Proof.
  intros Hl. unfold list_slot_update. rewrite entry_cow_eq. destruct parent as [r c g rels]. cbn in Hl.
  cbn [e_rels e_stamp]. rewrite Hl. cbn [mbind option_bind]. rewrite list_cow_eq. cbn [items].
  destruct (f (items l)) as [its|]; [|done]. cbn.
  rewrite vec_set_Some by (by eapply lookup_lt_Some). cbn. unfold with_slot, set_rels. cbn.
  do 2 f_equal. change (map (λ l, map erase (items l))) with (fmap (M := list) erase_list).
  by rewrite list_fmap_insert.
Qed.

(** ** Each operation *)

Definition erase_result (x : option (Entry * bool)) : option RecvNode := (λ y, erase y.1) <$> x.

Lemma erase_result_bind (x : option Entry) (b : bool) :
  erase_result (pe ← x; Some (pe, b)) = erase <$> x.
Proof. by destruct x. Qed.

Section ops.
Context (parent : Entry) (rel : nat) (l : EntryList) (mode : Mutate) (gen : Z) (s : Schema).
Context (Hl : e_rels parent !! rel = Some l).

Lemma apply_remove_erase r :
  erase_result (apply_remove parent r s rel mode gen) =
  with_slot (erase parent) rel <$> Flat.apply_remove (erase_list l) s r.
Proof using Hl.
  unfold apply_remove, Flat.apply_remove. rewrite Hl. cbn [mbind option_bind].
  rewrite search_erase. fold (erase_list l). destruct (Flat.binary_search _ _ _) as [pos|]; [|done].
  unfold erase_list. rewrite list_lookup_fmap. destruct (items l !! pos) as [n|] eqn:En; [|done].
  cbn [mbind option_bind fmap option_fmap option_map]. rewrite erase_result_bind, (list_slot_update_erase _ _ _ _ _ l) by done.
  rewrite erase_rc. case_decide; [by rewrite vec_remove_map|]. f_equal.
  rewrite (item_update_erase _ _ _ (λ n, set_rc n (u32_sub (recv_rc n) 1))).
  - rewrite list_lookup_fmap, En. cbn. by rewrite erase_rc.
  - intros e. cbn zeta. by rewrite entry_cow_eq, erase_set_rc, erase_stamp, erase_rc; destruct e.
Qed.

Lemma apply_edit_erase e new old : erase (apply_edit e new old s mode gen) = set_row (erase e) new.
Proof.
  unfold apply_edit. rewrite entry_cow_eq. destruct (_ && _); cbn zeta.
  - by rewrite erase_set_row, erase_stamp.
  - by rewrite erase_stamp, erase_set_row.
Qed.

Lemma move_entry_erase new old old_pos pos found d its :
  its !! old_pos = Some d →
  fmap (M := list) erase <$> move_entry new old s mode gen old_pos pos found (e_rc d) its =
  place (erase <$> its) old_pos pos found (erase d) new.
Proof.
  intros Hd. unfold move_entry, place. rewrite Hd. cbn [mbind option_bind]. rewrite erase_rc. cbn zeta.
  assert (Hstep : (λ x : list Entry * nat, (erase <$> x.1, x.2)) <$>
      (if decide (u32_sub (e_rc d) 1 = 0%Z)
       then its ← vec_remove old_pos its; Some (its, if decide (old_pos < pos) then pos - 1 else pos)
       else its ← item_update its old_pos (λ e, e_set_rc (entry_cow e mode gen) (u32_sub (e_rc d) 1)); Some (its, pos)) =
      (if decide (u32_sub (e_rc d) 1 = 0%Z)
       then l ← vec_remove old_pos (erase <$> its); Some (l, if decide (old_pos < pos) then pos - 1 else pos)
       else l ← vec_set old_pos (set_rc (erase d) (u32_sub (e_rc d) 1)) (erase <$> its); Some (l, pos))).
  { case_decide; [rewrite vec_remove_map; by destruct (vec_remove old_pos its)|].
    unfold item_update. rewrite Hd. cbn [mbind option_bind]. rewrite entry_cow_eq.
    rewrite <-(erase_stamp d gen), <-erase_set_rc, vec_set_map. by destruct (vec_set _ _ its). }
  rewrite <-Hstep. destruct (if decide _ then _ else _) as [[its' adj]|]; [|done]. cbn [mbind option_bind fmap option_fmap option_map fst snd].
  destruct found.
  - rewrite list_lookup_fmap. destruct (its' !! adj) as [e|] eqn:Ee; [|done]. cbn [mbind option_bind fmap option_fmap option_map].
    unfold item_update at 2. rewrite Ee. cbn [mbind option_bind].
    pose proof (lookup_lt_Some _ _ _ Ee) as Hlt. rewrite (vec_set_Some adj _ its') by done. cbn [mbind option_bind].
    unfold item_update. rewrite list_lookup_insert_eq by done. cbn [mbind option_bind].
    rewrite vec_set_Some by (by rewrite length_insert). rewrite list_insert_insert_eq. cbn.
    rewrite list_fmap_insert. rewrite erase_set_rc, entry_cow_eq, erase_stamp, apply_edit_erase, erase_rc.
    rewrite vec_set_Some by (by rewrite length_fmap). done.
  - rewrite <-vec_insert_map. by rewrite erase_set_rc, entry_cow_eq, erase_stamp, apply_edit_erase.
Qed.

Lemma apply_edit_change_erase new old :
  erase_result (apply_edit_change parent new old s rel mode gen) =
  with_slot (erase parent) rel <$> Flat.apply_edit (erase_list l) s old new.
Proof using Hl.
  unfold apply_edit_change. rewrite Hl. cbn [mbind option_bind].
  rewrite !search_erase. fold (erase_list l). destruct (decide (row_cmp (schema_sort s) old new ≠ Eq)) as [E|E].
  - destruct (Flat.binary_search (erase_list l) old _) as [old_pos|] eqn:Eold.
    2: { unfold Flat.apply_edit. by rewrite decide_False, Eold. }
    destruct (items l !! old_pos) as [d|] eqn:Ed.
    2: { unfold Flat.apply_edit. rewrite decide_False, Eold by done. unfold erase_list.
         by rewrite list_lookup_fmap, Ed. }
    cbn [mbind option_bind]. assert (Hd : erase_list l !! old_pos = Some (erase d)).
    { unfold erase_list. by rewrite list_lookup_fmap, Ed. }
    assert (Hu : Flat.apply_edit (erase_list l) s old new =
      let raw := Flat.binary_search (erase_list l) new (schema_sort s) in
      let found := match raw with Ok _ => true | Err _ => false end in
      let pos := match raw with Ok p | Err p => p end in
      if bool_decide (e_rc d = 1%Z) && same_slot pos old_pos
      then vec_set old_pos (set_row (erase d) new) (erase_list l) else place (erase_list l) old_pos pos found (erase d) new).
    { unfold Flat.apply_edit. rewrite decide_False, Eold, Hd by done. cbn [mbind option_bind].
      unfold place. by rewrite erase_rc. }
    rewrite Hu. cbn zeta. destruct (bool_decide (e_rc d = 1%Z) && _);
      rewrite erase_result_bind, (list_slot_update_erase _ _ _ _ _ l) by done; f_equal.
    + rewrite (item_update_erase _ _ _ (λ n, set_row n new)) by (intros; apply apply_edit_erase).
      fold (erase_list l). by rewrite Hd.
    + by apply move_entry_erase.
  - apply dec_stable in E. unfold Flat.apply_edit. rewrite decide_True by done.
    destruct (Flat.binary_search (erase_list l) old _) as [pos|] eqn:Eold; [|done].
    rewrite erase_result_bind, (list_slot_update_erase _ _ _ _ _ l) by done. f_equal.
    by rewrite (item_update_erase _ _ _ (λ n, set_row n new)) by (intros; apply apply_edit_erase).
Qed.
End ops.

(** ** A freshly added node

    The view drains the lazy relationships of an added node itself; the receiver
    gets them drained, keyed by slot in slot order. *)

Section node_induction.
Context (P : node → Prop).
Context (step : ∀ r rels, Forall (λ e : nat * (unit → list node), Forall P (e.2 tt)) rels → P (Node r rels)).

Fixpoint node_level_ind (n : node) : P n :=
  match n with
  | Node r rels =>
      step r rels
        ((fix slots (l : list (nat * (unit → list node))) :
             Forall (λ e : nat * (unit → list node), Forall P (e.2 tt)) l :=
            match l with
            | [] => List.Forall_nil _
            | (slot, thunk) :: l' =>
                List.Forall_cons _ (slot, thunk) l'
                  ((fix kids (l : list node) : Forall P l :=
                      match l with
                      | [] => List.Forall_nil _
                      | c :: l' => List.Forall_cons _ c l' (node_level_ind c) (kids l')
                      end) (thunk tt))
                  (slots l')
            end) rels)
  end.
End node_induction.

(** A node never carries two relationships for one slot. *)
Inductive distinct_slots : node → Prop :=
  | distinct_slots_intro r rels :
      NoDup rels.*1 →
      (∀ slot thunk child, (slot, thunk) ∈ rels → child ∈ thunk tt → distinct_slots child) →
      distinct_slots (Node r rels).

Lemma om_insert_perm {V} k (v : V) m : k ∉ m.*1 → om_insert Nat.compare k v m ≡ₚ (k, v) :: m.
Proof.
  induction m as [|[x w] m IH]; intros Hk; [done|]. cbn in *. apply not_elem_of_cons in Hk as [Hx Hm].
  destruct (Nat.compare x k) eqn:E; [|rewrite IH by done; constructor|done].
  by apply Nat.compare_eq in E.
Qed.

Lemma slot_map_perm rels : NoDup rels.*1 → slot_map rels ≡ₚ rels.
Proof.
  unfold slot_map. intros Hnd. rewrite <-(app_nil_r rels) at 2.
  assert (Hd : ∀ k, k ∈ rels.*1 → k ∉ (@nil (nat * list CaughtNode)).*1) by (intros k _ ?%elem_of_nil; done).
  revert Hd. generalize (@nil (nat * list CaughtNode)).
  induction rels as [|[k v] rels IH]; intros m Hd; [done|]. cbn in *. apply NoDup_cons in Hnd as [Hk Hnd].
  assert (k ∉ m.*1) as Hkm by (apply Hd; by left).
  pose proof (om_insert_perm k v m Hkm) as Hp.
  rewrite IH; [|done|].
  - rewrite Hp. symmetry. apply Permutation_middle.
  - intros x Hx Hin. rewrite Hp in Hin. cbn in Hin. apply elem_of_cons in Hin as [->|Hin]; [done|].
    apply (Hd x); [by right|done].
Qed.

Lemma try_foldl_perm {A B K} (key : A → K) (f : B → A → option B) l l' :
  (∀ b x y, key x ≠ key y → (b' ← f b x; f b' y) = (b' ← f b y; f b' x)) →
  NoDup (key <$> l) → l ≡ₚ l' → ∀ b, try_foldl f b l = try_foldl f b l'.
Proof.
  intros Hc Hnd Hp. induction Hp as [|x l l' _ IH|x y l|l1 l2 l3 H12 IH1 _ IH2]; intros b; [done|..].
  - cbn in Hnd. apply NoDup_cons in Hnd as [_ Hnd]. rewrite !try_foldl_cons.
    destruct (f b x) as [b'|]; cbn [mbind option_bind]; auto.
  - cbn in Hnd. apply NoDup_cons in Hnd as [Hxy _]. apply not_elem_of_cons in Hxy as [Hxy _].
    specialize (Hc b y x Hxy). rewrite !try_foldl_cons.
    destruct (f b x) as [bx|], (f b y) as [by_|]; cbn [mbind option_bind] in *; rewrite ?try_foldl_cons; try done.
    + by rewrite Hc.
    + by rewrite <-Hc.
    + by rewrite Hc.
  - rewrite IH1 by done. apply IH2. by rewrite <-H12.
Qed.

Lemma build_slot_comm bn s rels e1 e2 :
  e1.1 ≠ e2.1 →
  (r ← build_slot bn s rels e1; build_slot bn s r e2) = (r ← build_slot bn s rels e2; build_slot bn s r e1).
Proof.
  destruct e1 as [s1 c1], e2 as [s2 c2]. cbn. intros Hne.
  assert (Hid : ∀ x : option (list (list RecvNode)), (r ← x; Some r) = x) by (by intros []).
  destruct (rel_child s s1) as [cs1|], (rel_child s s2) as [cs2|]; cbn; rewrite ?Hid; try done.
  destruct (try_foldl (build_child bn cs1) [] c1) as [b1|], (try_foldl (build_child bn cs2) [] c2) as [b2|];
    cbn; try (by destruct (vec_set _ _ _)); [|done].
  unfold vec_set. repeat case_decide; cbn; rewrite ?length_insert in *; try done;
    repeat case_decide; try done. f_equal. by rewrite list_insert_insert_ne.
Qed.

(** The wire form of a drained node. *)
Definition wired (n : node) : WireNode := wire_node (expand_node n).

Definition wired_slot (e : nat * (unit → list node)) : nat * list WireNode := (e.1, map wired (e.2 tt)).

Lemma wired_row n : wire_row (wired n) = node_row n.
Proof. by destruct n. Qed.

Lemma wired_rels r rels :
  NoDup rels.*1 → ∃ ws, wired (Node r rels) = WNode r ws ∧ ws ≡ₚ wired_slot <$> rels.
Proof.
  intros Hnd. unfold wired at 1. cbn [expand_node wire_node]. eexists. split; [done|].
  set (h := λ rl : nat * (unit → list node), match rl with (slot, thunk) => (slot, map expand_node (thunk tt)) end).
  assert (NoDup (map h rels).*1) as Hnd'.
  { assert ((map h rels).*1 = rels.*1) as ->; [|done]. clear. induction rels as [|[? ?] rels IH]; cbn; [done|].
    f_equal. apply IH. }
  rewrite (slot_map_perm _ Hnd'). clear. unfold wired_slot, fmap, list_fmap.
  induction rels as [|[k thunk] rels IH]; [done|]. cbn. rewrite IH. by rewrite map_map.
Qed.

(** What [init_rels_for_new_entry] does to a fresh entry is [build_node]. *)
Definition inits (gen : Z) (n : node) : Prop :=
  ∀ s, erase <$> init_rels_for_new_entry gen n s (make_new_entry (node_row n) s 1 gen) = build_node (wired n) s.

Lemma init_children gen s children its :
  Forall (inits gen) children →
  fmap (M := list) erase <$> try_foldl (init_child (init_rels_for_new_entry gen) gen s) its children =
  try_foldl (build_child build_node s) (erase <$> its) (map wired children).
Proof.
  intros Hc. revert its. induction Hc as [|c children Hc _ IH]; intros its; [done|].
  cbn [map]. rewrite !try_foldl_cons.
  assert (fmap (M := list) erase <$> init_child (init_rels_for_new_entry gen) gen s its c =
          build_child build_node s (erase <$> its) (wired c)) as <-.
  { unfold init_child, build_child. rewrite search_erase, wired_row.
    destruct (Flat.binary_search _ _ _) as [p|ins].
    - unfold bump. apply (item_update_erase its p _ (λ n, set_rc n (u32_add (recv_rc n) 1))).
      intros e. by rewrite erase_set_rc, erase_rc.
    - rewrite <-Hc. destruct (init_rels_for_new_entry _ _ _ _); [|done]. cbn. by rewrite vec_insert_map. }
  destruct (init_child _ _ _ its c) as [its'|]; [|done]. cbn [mbind option_bind fmap option_fmap option_map]. apply IH.
Qed.

Lemma vec_set_empty {A} i (rels : list (list A)) : i < length rels → rels !! i = Some [] → vec_set i [] rels = Some rels.
Proof. intros Hi Hl. rewrite vec_set_Some by done. f_equal. by apply list_insert_id. Qed.

Lemma init_slots gen s rels e :
  Forall (λ r : nat * (unit → list node), Forall (inits gen) (r.2 tt)) rels → NoDup rels.*1 →
  length (e_rels e) = length (relationships s) →
  (∀ slot l, slot ∈ rels.*1 → e_rels e !! slot = Some l → items l = []) →
  erase <$> try_foldl (init_slot (init_rels_for_new_entry gen) gen s) e rels =
  set_rels (erase e) <$> try_foldl (build_slot build_node s) (recv_rels (erase e)) (wired_slot <$> rels).
Proof.
  intros Hc. revert e. induction Hc as [|[slot thunk] rels Hc _ IH]; intros e Hnd Hlen Hem.
  { cbn. by destruct e. }
  cbn [fmap list_fmap]. rewrite !try_foldl_cons. cbn in Hnd. apply NoDup_cons in Hnd as [Hslot Hnd].
  assert (Hrest : ∀ slot' l, slot' ∈ rels.*1 → e_rels e !! slot' = Some l → items l = []).
  { intros. eapply Hem; [by right|done]. }
  cbn [wired_slot fst snd init_slot build_slot].
  destruct (rel_child s slot) as [cs|] eqn:Ecs; [|cbn [mbind option_bind]; by apply IH].
  assert (slot < length (e_rels e)) as Hlt.
  { rewrite Hlen. by eapply rel_child_lt. }
  pose proof (init_children gen cs (thunk tt) [] Hc) as Hch. change (erase <$> []) with (@nil RecvNode) in Hch.
  rewrite <-Hch. clear Hch.
  destruct (try_foldl (init_child _ gen cs) [] (thunk tt)) as [its|]; [|done].
  cbn [mbind option_bind fmap option_fmap option_map]. destruct its as [|x its].
  - destruct (lookup_lt_is_Some_2 _ _ Hlt) as [l Hlk]. cbn [mbind option_bind].
    change (erase <$> []) with (@nil RecvNode).
    rewrite vec_set_empty; [by apply IH|by rewrite erase_rels, length_fmap|].
    rewrite erase_rels, list_lookup_fmap, Hlk. cbn. unfold erase_list.
    rewrite (Hem slot l); [done|cbn; by left|done].
  - rewrite (vec_set_Some slot _ (e_rels e)) by done. cbn [mbind option_bind].
    rewrite vec_set_Some by (by rewrite erase_rels, length_fmap). cbn [mbind option_bind].
    rewrite IH; [|done|cbn; by rewrite length_insert|].
    + rewrite erase_set_rels. unfold set_rels. cbn [recv_rels recv_row recv_rc].
      rewrite list_fmap_insert, erase_rels. done.
    + cbn. intros slot' l Hin. rewrite list_lookup_insert_ne by (intros ->; done). by apply Hrest.
Qed.

Lemma init_build gen n : distinct_slots n → inits gen n.
Proof.
  induction n as [r rels IH] using node_level_ind. intros Hd s. inversion Hd as [r' rels' Hnd Hsub]; subst.
  destruct (wired_rels r rels Hnd) as (ws & Hw & Hp). rewrite Hw. cbn [init_rels_for_new_entry build_node node_row].
  rewrite init_slots; [|..|done| |].
  - rewrite erase_rels. cbn [e_rels make_new_entry]. rewrite fmap_replicate. change (erase_list empty_entry_list) with (@nil RecvNode).
    rewrite (try_foldl_perm fst _ ws (wired_slot <$> rels) (build_slot_comm build_node s)); [..|done].
    + by destruct (try_foldl _ _ _).
    + rewrite Hp, <-list_fmap_compose. by rewrite (list_fmap_ext (fst ∘ wired_slot) fst).
  - apply Forall_forall. intros [slot thunk] Hin. apply Forall_forall. intros c Hc.
    eapply Forall_forall in IH; [|exact Hin]. cbn in IH, Hc. eapply Forall_forall in IH; [|exact Hc].
    apply IH. by eapply Hsub.
  - cbn. by rewrite length_replicate.
  - intros slot l _. cbn. by intros [-> _]%lookup_replicate.
Qed.

(** ** Shapes: every node has one list per declared slot *)

Inductive shaped : Schema → RecvNode → Prop :=
  | shaped_intro s r c rels :
      length rels = length (relationships s) →
      (∀ slot cs sub, rel_child s slot = Some cs → rels !! slot = Some sub → ∀ n, n ∈ sub → shaped cs n) →
      shaped s (RNode r c rels).

Lemma shaped_inv s n :
  shaped s n →
  length (recv_rels n) = length (relationships s) ∧
  ∀ slot cs sub, rel_child s slot = Some cs → recv_rels n !! slot = Some sub → Forall (shaped cs) sub.
Proof.
  intros [s' r c rels Hlen Hin]. split; [done|]. intros slot cs sub Hcs Hsub. apply Forall_forall. by eapply Hin.
Qed.

Lemma shaped_set_row s n r : shaped s n → shaped s (set_row n r).
Proof. by intros [? ? ? ? ? ?]. Qed.

Lemma shaped_set_rc s n c : shaped s n → shaped s (set_rc n c).
Proof. by intros [? ? ? ? ? ?]. Qed.

Section vec_forall.
Context {A : Type} (P : A → Prop).
Implicit Types (l : list A).

Lemma Forall_vec_set i x l l' : Forall P l → P x → vec_set i x l = Some l' → Forall P l'.
Proof. unfold vec_set. intros Hl Hx. case_decide; [|done]. intros [= <-]. by apply Forall_insert. Qed.

Lemma Forall_vec_insert i x l l' : Forall P l → P x → vec_insert i x l = Some l' → Forall P l'.
Proof.
  unfold vec_insert. intros Hl Hx. case_decide; [|done]. intros [= <-]. apply Forall_app. split; [by apply Forall_take|].
  constructor; [done|by apply Forall_drop].
Qed.

Lemma Forall_vec_remove i l l' : Forall P l → vec_remove i l = Some l' → Forall P l'.
Proof.
  unfold vec_remove. intros Hl. case_decide; [|done]. intros [= <-]. apply Forall_app.
  split; [by apply Forall_take|by apply Forall_drop].
Qed.
End vec_forall.

Create HintDb shape.
#[local] Hint Resolve shaped_set_row shaped_set_rc : shape.
#[local] Hint Extern 1 (Forall (shaped _) _) =>
  match goal with
  | H : vec_set _ _ _ = Some ?l |- Forall _ ?l => eapply Forall_vec_set; [| |exact H]
  | H : vec_insert _ _ _ = Some ?l |- Forall _ ?l => eapply Forall_vec_insert; [| |exact H]
  | H : vec_remove _ _ = Some ?l |- Forall _ ?l => eapply Forall_vec_remove; [|exact H]
  end : shape.

Lemma lookup_shaped s l i n : Forall (shaped s) l → l !! i = Some n → shaped s n.
Proof. intros Hl. by apply Forall_lookup_1. Qed.
#[local] Hint Resolve lookup_shaped : shape.

Ltac bind_cases :=
  repeat match goal with
  | H : (_ ≫= _) = Some _ |- _ => apply bind_Some in H as (? & ? & H)
  | H : Some _ = Some _ |- _ => injection H as <-
  end.

Lemma build_child_shaped s l child l' :
  (∀ b, build_node child s = Some b → shaped s b) → Forall (shaped s) l →
  build_child build_node s l child = Some l' → Forall (shaped s) l'.
Proof.
  intros Hb Hl. unfold build_child, bump. destruct (Flat.binary_search _ _ _); intros H; bind_cases; eauto with shape.
Qed.

Lemma build_node_shaped n : ∀ s b, build_node n s = Some b → shaped s b.
Proof.
  induction n as [r rels IH] using wire_node_level_ind. intros s b H. cbn [build_node] in H. bind_cases.
  match goal with H : try_foldl _ _ _ = Some ?x |- _ => rename H into Hf; rename x into out end.
  assert (shaped s (RNode [] 0 (replicate (length (relationships s)) []))) as Hinit.
  { constructor; [by rewrite length_replicate|]. intros slot cs sub _ [-> _]%lookup_replicate n ?%elem_of_nil. done. }
  revert Hf Hinit. generalize (replicate (length (relationships s)) (@nil RecvNode)).
  induction IH as [|[slot children] rels Hc _ IHr]; intros acc Hf Hacc.
  { cbn in Hf. injection Hf as <-. inversion Hacc; subst. by constructor. }
  rewrite try_foldl_cons in Hf. apply bind_Some in Hf as (acc' & Hslot & Hf). apply (IHr acc' Hf).
  cbn [build_slot] in Hslot. destruct (rel_child s slot) as [cs|] eqn:Ecs; [|by injection Hslot as <-].
  apply bind_Some in Hslot as (kids & Hk & Hset). unfold vec_set in Hset. case_decide; [|done]. injection Hset as <-.
  inversion Hacc as [s' r' c' rels' Hlen Hsub]; subst. constructor; [by rewrite length_insert|].
  intros i cs' sub Hi [(-> & <- & _)|(Hne & Hlk)]%list_lookup_insert_Some; [|by eapply Hsub].
  assert (cs' = cs) as -> by congruence. cbn in Hc. clear -Hc Hk. apply Forall_forall.
  assert (Forall (shaped cs) []) as H0 by constructor. revert Hk H0. generalize (@nil RecvNode).
  induction Hc as [|c children Hc _ IH]; intros l Hk Hl; [by injection Hk as <-|].
  rewrite try_foldl_cons in Hk. apply bind_Some in Hk as (l' & H1 & H2). apply (IH l' H2).
  by eapply build_child_shaped; [apply Hc|..].
Qed.
#[local] Hint Resolve build_node_shaped : shape.

Lemma apply_op_shaped s l o l' : Forall (shaped s) l → apply_op l s o = Some l' → Forall (shaped s) l'.
Proof.
  intros Hl H. destruct o as [n|r|old new]; cbn [apply_op] in H.
  - unfold Flat.apply_add, bump in H. destruct (Flat.binary_search _ _ _); bind_cases; eauto with shape.
  - unfold Flat.apply_remove in H. destruct (Flat.binary_search _ _ _); [|done]. bind_cases. case_decide; eauto with shape.
  - unfold Flat.apply_edit in H. case_decide.
    + destruct (Flat.binary_search _ old _); [|done]. bind_cases. eauto with shape.
    + destruct (Flat.binary_search _ old _); [|done]. bind_cases. cbn zeta in H.
      destruct (_ && same_slot _ _); [eauto with shape|]. apply bind_Some in H as ([l0 adj] & Hmid & Hend).
      assert (Forall (shaped s) l0) by (case_decide; bind_cases; simplify_eq; eauto with shape).
      destruct (Flat.binary_search l new _); bind_cases; eauto 10 with shape.
Qed.

Lemma apply_at_shaped path : ∀ s l o l',
  Forall (shaped s) l → apply_at l s path o = Some l' → Forall (shaped s) l'.
Proof.
  induction path as [|seg rest IH]; intros s l o l' Hl H; cbn [apply_at] in H; [by eapply apply_op_shaped|].
  destruct (rel_child s (seg_rel seg)) as [cs|] eqn:Ecs; [|by injection H as <-].
  destruct (Flat.binary_search _ _ _); [|done]. apply bind_Some in H as (n & Hn & H).
  apply bind_Some in H as (sub & Hsub & H). apply bind_Some in H as (sub' & Hsub' & H).
  apply bind_Some in H as (rels & Hrels & H). eapply Forall_vec_set; [exact Hl| |exact H].
  pose proof (lookup_shaped _ _ _ _ Hl Hn) as Hsh. inversion Hsh as [s' r c rels0 Hlen Hin]; subst. cbn in *.
  unfold vec_set in Hrels. case_decide; [|done]. injection Hrels as <-.
  constructor; [by rewrite length_insert|].
  intros i cs' sub0 Hi [(E & <- & _)|(Hne & Hlk)]%list_lookup_insert_Some; [|by eapply Hin].
  assert (cs' = cs) as -> by congruence. apply Forall_forall. eapply IH; [|exact Hsub'].
  apply Forall_forall. intros n Hn0. eapply Hin; [exact Ecs|exact Hsub|exact Hn0].
Qed.

(** ** The differ *)

Lemma apply_add_erase parent rel l mode gen s n :
  e_rels parent !! rel = Some l → distinct_slots n →
  erase_result (apply_add parent n s rel mode gen) =
  with_slot (erase parent) rel <$> Flat.apply_add (erase_list l) s (wired n).
Proof.
  intros Hl Hd. unfold apply_add, Flat.apply_add. rewrite Hl. cbn [mbind option_bind].
  rewrite search_erase, wired_row. fold (erase_list l). destruct (Flat.binary_search _ _ _) as [p|ins].
  - rewrite erase_result_bind, (list_slot_update_erase _ _ _ _ _ l) by done. f_equal. unfold bump.
    apply (item_update_erase (items l) p _ (λ n, set_rc n (u32_add (recv_rc n) 1))).
    intros e. cbn zeta. by rewrite entry_cow_eq, erase_set_rc, erase_stamp, erase_rc; destruct e.
  - rewrite <-(init_build gen n Hd s). destruct (init_rels_for_new_entry _ _ _ _) as [e|]; [|done].
    cbn [mbind option_bind fmap option_fmap option_map].
    rewrite erase_result_bind, (list_slot_update_erase _ _ _ _ _ l) by done. f_equal.
    unfold erase_list. by rewrite vec_insert_map.
Qed.

(** A change that reports "unchanged" left the content as it was. *)
Lemma apply_unchanged c mode gen : ∀ parent s rel e,
  apply c mode gen parent s rel = Some (e, false) → erase e = erase parent.
Proof.
  induction c as [n|n|r child_rel sub IH|new old]; intros parent s rel e H; cbn [apply] in H.
  - unfold apply_add in H. apply bind_Some in H as (l & _ & H).
    destruct (binary_search _ _ _); repeat (apply bind_Some in H as (? & _ & H)); done.
  - unfold apply_remove in H. apply bind_Some in H as (l & _ & H).
    destruct (binary_search _ _ _); [|done]. repeat (apply bind_Some in H as (? & _ & H)); done.
  - unfold apply_child in H. destruct (rel_child s child_rel) as [cs|]; [|by injection H as <-].
    apply bind_Some in H as (l & Hl & H). destruct (binary_search _ _ _) as [pos|]; [|done].
    destruct (can_mut _ _ _).
    + rewrite entry_cow_eq in H. destruct parent as [r0 c0 g0 rels0]. cbn in Hl, H. rewrite Hl in H. cbn in H.
      rewrite list_cow_eq in H. cbn in H.
      apply bind_Some in H as (x & Hx & H). apply bind_Some in H as ([x' ch] & Hx' & H).
      apply bind_Some in H as (its & Hits & H). apply bind_Some in H as (rels & Hrels & H).
      injection H as <- ->. apply IH in Hx'. cbn.
      unfold vec_set in Hits, Hrels. repeat case_decide; try done. injection Hits as <-. injection Hrels as <-.
      f_equal. change (map (λ l, map erase (items l))) with (fmap (M := list) erase_list).
      rewrite list_fmap_insert. unfold erase_list at 1. cbn [items]. rewrite list_fmap_insert, Hx'.
      rewrite (list_insert_id (erase <$> items l)) by (by rewrite list_lookup_fmap, Hx).
      apply list_insert_id. by rewrite list_lookup_fmap, Hl.
    + apply bind_Some in H as (x & _ & H). apply bind_Some in H as ([x' ch] & _ & H). destruct ch; cbn in H.
      * by apply bind_Some in H as (? & _ & H).
      * by injection H as <-.
  - unfold apply_edit_change in H. apply bind_Some in H as (l & _ & H). case_decide.
    + destruct (binary_search _ old _); [|done]. apply bind_Some in H as (d & _ & H).
      destruct (_ && _); by apply bind_Some in H as (? & _ & H).
    + destruct (binary_search _ old _); [|done]. by apply bind_Some in H as (? & _ & H).
Qed.

Fixpoint distinct_change (c : change) : Prop :=
  match c with
  | Add n => distinct_slots n
  | Child _ _ sub => distinct_change sub
  | _ => True
  end.

Lemma flatten_loop_path p c : flatten_loop p c = MkFlat (p ++ path (flatten c)) (op (flatten c)).
Proof.
  revert p. induction c as [n|n|old new|r rel sub IH]; intros p; cbn; rewrite ?app_nil_r; [done..|].
  unfold flatten. cbn. rewrite IH, (IH [_]). cbn. by rewrite <-(assoc_L (++)).
Qed.

Definition flat_of (c : change) : FlatChange := flatten (expand_change c).

Lemma flat_of_child n rel sub :
  flat_of (Child n rel sub) = MkFlat (MkSeg rel (node_row n) :: path (flat_of sub)) (op (flat_of sub)).
Proof. unfold flat_of, flatten. cbn. by rewrite flatten_loop_path. Qed.

Lemma with_slot_id parent rel l : e_rels parent !! rel = Some l → with_slot (erase parent) rel (erase_list l) = erase parent.
Proof.
  intros Hl. unfold with_slot. rewrite list_insert_id by (by rewrite erase_rels, list_lookup_fmap, Hl).
  by destruct parent.
Qed.

(** The receiver's hop to a child level. *)
Lemma apply_at_hop l s seg rest o cs pos n sub :
  rel_child s (seg_rel seg) = Some cs → Flat.binary_search l (parent_row seg) (schema_sort s) = Ok pos →
  l !! pos = Some n → recv_rels n !! seg_rel seg = Some sub →
  apply_at l s (seg :: rest) o =
    (λ n', <[pos := n']> l) <$> (with_slot n (seg_rel seg) <$> apply_at sub cs rest o).
Proof.
  intros Hcs Hb Hn Hsub. cbn [apply_at]. rewrite Hcs, Hb, Hn. cbn [mbind option_bind]. rewrite Hsub. cbn [mbind option_bind].
  destruct (apply_at sub cs rest o) as [sub'|]; [|done]. cbn [mbind option_bind].
  rewrite vec_set_Some by (by eapply lookup_lt_Some). cbn [mbind option_bind].
  by rewrite vec_set_Some by (by eapply lookup_lt_Some).
Qed.

(** What [apply_child] gives once the child is located: the child replaced. *)
Lemma apply_child_erase ap parent r child_rel s rel mode gen cs l pos e :
  rel_child s child_rel = Some cs → e_rels parent !! rel = Some l →
  binary_search (items l) r (schema_sort s) = Ok pos → items l !! pos = Some e →
  (∀ e', ap e cs child_rel = Some (e', false) → erase e' = erase e) →
  erase_result (apply_child ap parent r child_rel s rel mode gen) =
  (λ n', with_slot (erase parent) rel (<[pos := n']> (erase_list l))) <$> erase_result (ap e cs child_rel).
Proof.
  intros Hcs Hl Hb He Hun. unfold apply_child. rewrite Hcs, Hl. cbn [mbind option_bind]. rewrite Hb.
  pose proof (lookup_lt_Some _ _ _ Hl) as Hlt. pose proof (lookup_lt_Some _ _ _ He) as Hpos.
  destruct (can_mut _ _ _).
  - rewrite entry_cow_eq. destruct parent as [r0 c0 g0 rels0]. cbn in Hl, Hlt. cbn [e_rels e_stamp]. rewrite Hl.
    cbn [mbind option_bind]. rewrite list_cow_eq. cbn [items]. rewrite He. cbn [mbind option_bind].
    destruct (ap e cs child_rel) as [[e' ch]|]; [|done]. cbn [mbind option_bind].
    rewrite (vec_set_Some pos) by done. cbn [mbind option_bind]. rewrite vec_set_Some by done. cbn.
    unfold with_slot, set_rels, e_set_rels. cbn. do 2 f_equal.
    change (map (λ l, map erase (items l))) with (fmap (M := list) erase_list). rewrite list_fmap_insert.
    do 2 f_equal. unfold erase_list. cbn. by rewrite list_fmap_insert.
  - rewrite He. cbn [mbind option_bind]. destruct (ap e cs child_rel) as [[e' ch]|] eqn:Eap; [|done].
    cbn [mbind option_bind]. destruct ch; cbn [negb].
    + rewrite erase_result_bind, (list_slot_update_erase _ _ _ _ _ l) by done.
      rewrite vec_set_Some by done. cbn. unfold erase_list. by rewrite list_fmap_insert.
    + cbn. rewrite (Hun _ eq_refl). rewrite list_insert_id by (unfold erase_list; by rewrite list_lookup_fmap, He).
      by rewrite with_slot_id.
Qed.

Lemma apply_erase c mode gen : ∀ parent s rel l,
  distinct_change c → e_rels parent !! rel = Some l → Forall (shaped s) (erase_list l) →
  erase_result (apply (from_change c) mode gen parent s rel) =
  with_slot (erase parent) rel <$> apply_at (erase_list l) s (path (flat_of c)) (op (flat_of c)).
Proof.
  induction c as [n|n|n old|n child_rel sub IH]; intros parent s rel l Hd Hl Hsh.
  - by apply apply_add_erase.
  - cbn. destruct n as [r rels]. by apply apply_remove_erase.
  - by apply apply_edit_change_erase.
  - rewrite flat_of_child. cbn [path op from_change apply].
    destruct (rel_child s child_rel) as [cs|] eqn:Ecs.
    2: { unfold apply_child. cbn [apply_at seg_rel]. rewrite Ecs. cbn. by rewrite with_slot_id. }
    destruct (binary_search (items l) (node_row n) (schema_sort s)) as [pos|] eqn:Eb.
    2: { unfold apply_child. cbn [apply_at seg_rel parent_row]. rewrite Ecs, Hl. cbn [mbind option_bind]. rewrite Eb.
         rewrite search_erase in Eb. unfold erase_list. by rewrite Eb. }
    pose proof Eb as Eb'. rewrite search_erase in Eb'. fold (erase_list l) in Eb'.
    destruct (items l !! pos) as [e|] eqn:Ee.
    2: { unfold apply_child. cbn [apply_at seg_rel parent_row]. rewrite Ecs, Hl, Eb'. cbn [mbind option_bind]. rewrite Eb.
         unfold erase_list. rewrite list_lookup_fmap, Ee, entry_cow_eq. destruct parent. cbn in Hl |- *. rewrite Hl.
         cbn. rewrite list_cow_eq. cbn. rewrite Ee. by destruct (can_mut _ _ _). }
    assert (Hn : erase_list l !! pos = Some (erase e)) by (unfold erase_list; by rewrite list_lookup_fmap, Ee).
    assert (Hse : shaped s (erase e)) by (by eapply Forall_lookup_1 in Hsh).
    assert (∃ sl, e_rels e !! child_rel = Some sl) as [sl Hsl].
    { apply lookup_lt_is_Some_2. pose proof (proj1 (shaped_inv _ _ Hse)) as Hlen.
      rewrite erase_rels, length_fmap in Hlen. rewrite Hlen. by eapply rel_child_lt. }
    assert (Hsub : recv_rels (erase e) !! child_rel = Some (erase_list sl)) by (by rewrite erase_rels, list_lookup_fmap, Hsl).
    rewrite (apply_at_hop _ _ (MkSeg child_rel (node_row n)) _ _ cs pos (erase e) (erase_list sl)) by done.
    rewrite (apply_child_erase _ _ _ _ _ _ _ _ cs l pos e) by (done || intros; by eapply apply_unchanged).
    rewrite (IH e cs child_rel sl); [|done..|].
    + cbn. by destruct (apply_at _ _ _ _).
    + by eapply (proj2 (shaped_inv _ _ Hse)).
Qed.

(** ** The view as a whole *)

(** The view and the receiver hold the same tree. *)
Definition view_holds (v : View) (r : Receiver) : Prop :=
  v_schema v = recv_schema r ∧
  ∃ l, e_rels (v_root v) = [l] ∧ erase_list l = top r ∧ Forall (shaped (recv_schema r)) (top r).

Lemma apply_change_sim root l c mode gen r :
  e_rels root = [l] → erase_list l = top r → Forall (shaped (recv_schema r)) (top r) → distinct_change c →
  option_Forall2 (λ root' r', recv_schema r' = recv_schema r ∧
      ∃ l', e_rels root' = [l'] ∧ erase_list l' = top r' ∧ Forall (shaped (recv_schema r)) (top r'))
    (apply_change root (from_change c) (recv_schema r) REL_ROOT mode gen) (receiver_apply r (flat_of c)).
Proof.
  intros Hroot Hl Hsh Hd. unfold apply_change, receiver_apply.
  assert (e_rels root !! REL_ROOT = Some l) as Hlk by (by rewrite Hroot).
  pose proof (apply_erase c mode gen root (recv_schema r) REL_ROOT l Hd Hlk) as H.
  rewrite Hl in H. specialize (H Hsh).
  destruct (apply _ _ _ _ _ _) as [[root' ch]|], (apply_at _ _ _ _) as [top'|] eqn:Ea; cbn in *; try discriminate;
    constructor.
  split; [done|]. injection H as H. apply (f_equal recv_rels) in H.
  rewrite erase_rels in H. unfold with_slot, set_rels in H. cbn in H. rewrite erase_rels, Hroot in H. cbn in H.
  destruct (e_rels root') as [|l' [|? ?]]; try discriminate H. injection H as <-.
  eexists. split_and!; [done..|]. by eapply apply_at_shaped.
Qed.

Lemma push_change_sim v r c :
  view_holds v r → distinct_change c →
  option_Forall2 view_holds (push_change v c) (receiver_apply r (flat_of c)).
Proof.
  intros (Hs & l & Hroot & Hl & Hsh) Hd. unfold push_change. cbn zeta.
  pose proof (apply_change_sim (v_root v) l c Cow (v_txn v) r Hroot Hl Hsh Hd) as H. cbn. rewrite Hs.
  destruct H as [root' r' (Hr & l' & ? & ? & ?)|]; cbn; constructor.
  split; cbn; [congruence|]. exists l'. split_and!; [done..|]. by rewrite Hr.
Qed.

Lemma fire_listeners_holds v r : view_holds v r → ∃ v', fire_listeners v = Some v' ∧ view_holds v' r.
Proof.
  intros (Hs & l & Hroot & Hl & Hsh). unfold fire_listeners, data, view_data. rewrite Hroot. cbn.
  eexists. split; [done|]. split; [done|]. by exists l.
Qed.

Lemma flush_holds v r : view_holds v r → ∃ v', flush v = Some v' ∧ view_holds v' r.
Proof.
  intros Hv. unfold flush. destruct (v_dirty v); [|by eexists].
  destruct (fire_listeners_holds (v_set_dirty v false) r) as (v' & -> & Hs & Hv'); [done|].
  cbn. eexists. split; [done|]. split; [done|]. exact Hv'.
Qed.

(** What happens to a view between hydration and its end. *)
Inductive ViewEvent :=
  | Push (c : change)
  | Flush
  | Listen (l : nat)
  | SetResult (rt : ResultType).

Definition view_step (v : View) (ev : ViewEvent) : option View :=
  match ev with
  | Push c => push_change v c
  | Flush => flush v
  | Listen l => '(v, _) ← add_listener v l; Some v
  | SetResult rt => set_result_type v rt
  end.

Definition pushes (evs : list ViewEvent) : list change :=
  omap (λ ev, match ev with Push c => Some c | _ => None end) evs.

Lemma view_step_sim v r ev :
  view_holds v r → (∀ c, ev = Push c → distinct_change c) →
  option_Forall2 view_holds (view_step v ev)
    (match ev with Push c => receiver_apply r (flat_of c) | _ => Some r end).
Proof.
  intros Hv Hd. destruct ev as [c| |l|rt]; cbn [view_step].
  - apply push_change_sim; auto.
  - destruct (flush_holds v r Hv) as (v' & -> & ?). by constructor.
  - destruct Hv as (Hs & l0 & Hroot & Hl & Hsh). unfold add_listener, data, view_data. rewrite Hroot. cbn.
    constructor. split; [done|]. by exists l0.
  - destruct (fire_listeners_holds (MkView (v_schema v) (v_root v) (listeners v) (v_dirty v) rt (v_txn v) (v_log v)) r)
      as (v' & Hf & ?); [done|]. unfold set_result_type. rewrite Hf. by constructor.
Qed.

Lemma view_run_sim v r evs :
  view_holds v r → Forall distinct_change (pushes evs) →
  option_Forall2 view_holds (try_foldl view_step v evs) (apply_all r (flat_of <$> pushes evs)).
Proof.
  revert v r. induction evs as [|ev evs IH]; intros v r Hv Hd; [by constructor|].
  rewrite try_foldl_cons. unfold pushes in Hd |- *. cbn [omap list_omap] in Hd |- *.
  assert (H : option_Forall2 view_holds (view_step v ev) (match ev with Push c => receiver_apply r (flat_of c) | _ => Some r end)).
  { apply view_step_sim; [done|]. intros c ->. by inversion Hd. }
  destruct (view_step v ev) as [v'|]; destruct ev as [c| | |]; cbn [fmap list_fmap]; unfold apply_all;
    rewrite ?try_foldl_cons; cbn [mbind option_bind].
  1: destruct (receiver_apply r (flat_of c)) as [r'|]; [|inversion H].
  5: destruct (receiver_apply r (flat_of c)) as [r'|]; [inversion H|constructor].
  all: inversion H; subst; apply IH; try done; by inversion Hd.
Qed.

Lemma view_new_holds s rt : view_holds (view_new s rt) (receiver_new s).
Proof. split; [done|]. exists (MkList 0 []). split_and!; [done..|constructor]. Qed.

Lemma hydrate_sim s rt nodes :
  Forall distinct_slots nodes →
  option_Forall2 view_holds (hydrate_from (view_new s rt) nodes)
    (apply_all (receiver_new s) ((λ n, flat_of (Add n)) <$> nodes)).
Proof.
  intros Hd. unfold hydrate_from, apply_all. cbn zeta.
  set (R root r := recv_schema r = s ∧ ∃ l, e_rels root = [l] ∧ erase_list l = top r ∧ Forall (shaped s) (top r)).
  assert (Hsim : option_Forall2 R
    (try_foldl (λ root n, apply_change root (VAdd n) s REL_ROOT InPlace 0) synthetic_root nodes)
    (try_foldl receiver_apply (receiver_new s) ((λ n, flat_of (Add n)) <$> nodes))).
  { apply (try_foldl_sim R).
    - apply Forall2_fmap_r. apply Forall_Forall2_diag. eapply Forall_impl; [exact Hd|].
      intros n Hn root r (Hs & l & Hroot & Hl & Hsh). subst s.
      exact (apply_change_sim root l (Add n) InPlace 0 r Hroot Hl Hsh Hn).
    - split; [done|]. exists (MkList 0 []). split_and!; [done..|constructor]. }
  change (option_Forall2 view_holds
    (root ← try_foldl (λ root n, apply_change root (VAdd n) s REL_ROOT InPlace 0) synthetic_root nodes;
     flush (v_set_root (v_set_dirty (view_new s rt) true) root))
    (try_foldl receiver_apply (receiver_new s) ((λ n, flat_of (Add n)) <$> nodes))).
  destruct Hsim as [root r (Hs & l & Hroot & Hl & Hsh)|]; cbn [mbind option_bind]; [|constructor].
  match goal with |- context [flush ?v] => destruct (flush_holds v r) as (v' & -> & Hv') end; [|by constructor].
  split; [done|]. exists l. by rewrite Hs.
Qed.

Lemma view_and_receiver s rt nodes evs :
  Forall distinct_slots nodes → Forall distinct_change (pushes evs) →
  option_Forall2 view_holds
    (v ← hydrate_from (view_new s rt) nodes; try_foldl view_step v evs)
    (apply_all (receiver_new s) (flatten_all (expand_change <$> ((Add <$> nodes) ++ pushes evs)))).
Proof.
  intros Hn Hp. replace (flatten_all _) with (((λ n, flat_of (Add n)) <$> nodes) ++ (flat_of <$> pushes evs)).
  2: { unfold flatten_all. rewrite fmap_app, map_app. f_equal; rewrite <-!list_fmap_compose; by rewrite ?map_map. }
  unfold apply_all. rewrite try_foldl_app.
  pose proof (hydrate_sim s rt nodes Hn) as H. unfold apply_all in H. destruct H as [v r Hv|]; cbn [mbind option_bind]; [|constructor].
  by apply view_run_sim.
Qed.

(** [C2] The materialised view and the reference receiver hold the same tree: a view
    hydrated from any nodes and then driven by any sequence of pushes, flushes,
    listener registrations and result-type changes has, stamps erased, the tree
    a receiver of the same schema builds from the flat form of the same adds and
    changes, and it panics exactly when the receiver does.  The copy-on-write
    modes never show in the content. *)
Theorem view_refines_receiver s rt nodes evs :
  Forall distinct_slots nodes → Forall distinct_change (pushes evs) →
  option_Forall2 view_holds
    (v ← hydrate_from (view_new s rt) nodes; try_foldl view_step v evs)
    (apply_all (receiver_new s) (flatten_all (expand_change <$> ((Add <$> nodes) ++ pushes evs)))).
Proof. apply view_and_receiver. Qed.
