(* ===== verification/ViewStable.v ===== *)
(** * Reference stability of the materialised view

    An update builds new objects only along the changed path.  One half: whatever
    the new tree holds that the running transaction did not stamp is an object of
    the old tree, as it was.  The other half: entries and lists the change does
    not address are kept, the same objects. *)

From stdpp Require Import base list numbers option sets.
From Stdlib Require Import ZArith Lia.
From S2P Require Import Prelude Values Rows Schema BTree BTreeFacts Change OrdMap Flat FlatFacts View ViewFacts.

(** ** Objects of a tree *)

Inductive occurs (x : Entry) : Entry → Prop :=
  | occurs_here : occurs x x
  | occurs_below e l y : l ∈ e_rels e → y ∈ items l → occurs x y → occurs x e.

Definition occurs_list (l : EntryList) (e : Entry) : Prop := ∃ x, occurs x e ∧ l ∈ e_rels x.

Lemma occurs_trans x y z : occurs x y → occurs y z → occurs x z.
Proof. intros Hxy. induction 1 as [|z l w Hl Hw _ IH]; [done|]. by eapply occurs_below. Qed.

Lemma occurs_list_trans l y z : occurs_list l y → occurs y z → occurs_list l z.
Proof. intros (x & Hx & Hl) Hy. exists x. split; [by eapply occurs_trans|done]. Qed.

Section derived.
Context (gen : Z) (old : Entry).

(** Everything in [e] not stamped by [gen] is in [old]. *)
Definition derived (e : Entry) : Prop :=
  (∀ x, occurs x e → e_created x ≠ gen → occurs x old) ∧
  (∀ l, occurs_list l e → l_created l ≠ gen → occurs_list l old ∨ l = empty_entry_list).

Definition list_derived (l : EntryList) : Prop :=
  (l_created l ≠ gen → occurs_list l old ∨ l = empty_entry_list) ∧ Forall derived (items l).

Lemma derived_occurs e : occurs e old → derived e.
Proof.
  intros He. split.
  - intros x Hx _. by eapply occurs_trans.
  - intros l Hl _. left. by eapply occurs_list_trans.
Qed.

Lemma derived_entry e : e_created e = gen → Forall list_derived (e_rels e) → derived e.
Proof.
  intros Hg Hl. split.
  - intros x Hx Hne. inversion Hx as [|? l y Hin Hy Hxy]; subst; [done|].
    rewrite Forall_forall in Hl. destruct (Hl _ Hin) as [_ Hits]. rewrite Forall_forall in Hits.
    by apply (Hits _ Hy).
  - intros l (x & Hx & Hlx) Hne. inversion Hx as [|? l0 y Hin Hy Hxy]; subst.
    + rewrite Forall_forall in Hl. by apply (Hl _ Hlx).
    + rewrite Forall_forall in Hl. destruct (Hl _ Hin) as [_ Hits]. rewrite Forall_forall in Hits.
      apply (Hits _ Hy); [by exists x|done].
Qed.

Lemma derived_rels e : derived e → Forall list_derived (e_rels e).
Proof.
  intros [He Hl]. apply Forall_forall. intros l Hin. split.
  - intros Hne. apply Hl; [|done]. exists e. split; [constructor|done].
  - apply Forall_forall. intros x Hx. split.
    + intros y Hy. apply He. by eapply occurs_below.
    + intros l' (y & Hy & Hl'). apply Hl. exists y. split; [by eapply occurs_below|done].
Qed.

Lemma derived_stamp e : derived e → derived (e_stamp e gen).
Proof. intros He. apply derived_entry; [done|]. by apply (derived_rels e). Qed.

Lemma derived_update e r c : derived e → derived (MkEntry r c gen (e_rels e)).
Proof. intros He. apply derived_entry; [done|]. by apply (derived_rels e). Qed.

Lemma list_derived_stamped its : Forall derived its → list_derived (MkList gen its).
Proof. by split. Qed.

Lemma list_derived_empty : list_derived empty_entry_list.
Proof. split; [by right|constructor]. Qed.
End derived.

Lemma derived_trans gen old x e : occurs x old → derived gen x e → derived gen old e.
Proof.
  intros Hx [H1 H2]. split.
  - intros y Hy Hne. eapply occurs_trans; [by apply H1|done].
  - intros l Hl Hne. destruct (H2 l Hl Hne); [left|by right]. by eapply occurs_list_trans.
Qed.

(** ** Fresh entries hold nothing but stamped objects and the shared empty list *)

Lemma item_update_derived gen old its p f its' :
  Forall (derived gen old) its → (∀ e, derived gen old e → derived gen old (f e)) →
  item_update its p f = Some its' → Forall (derived gen old) its'.
Proof.
  intros Hits Hf H. unfold item_update in H. apply bind_Some in H as (e & He & H).
  eapply Forall_vec_set; [done| |done]. apply Hf. by eapply Forall_lookup_1.
Qed.

(** Entries the transaction has stamped, as [init_rels_for_new_entry] makes them. *)
Definition fresh (gen : Z) (old e : Entry) : Prop := e_created e = gen ∧ derived gen old e.

Lemma make_new_entry_fresh gen old r s c : fresh gen old (make_new_entry r s c gen).
Proof.
  split; [done|]. apply derived_entry; [done|]. cbn. apply Forall_replicate, list_derived_empty.
Qed.

Lemma init_children_fresh gen old s children its its' :
  Forall (λ c, ∀ s e e', fresh gen old e → init_rels_for_new_entry gen c s e = Some e' → fresh gen old e') children →
  Forall (fresh gen old) its →
  try_foldl (init_child (init_rels_for_new_entry gen) gen s) its children = Some its' → Forall (fresh gen old) its'.
Proof.
  intros Hc. revert its. induction Hc as [|c children Hc _ IH]; intros its Hits H; [by injection H as <-|].
  rewrite try_foldl_cons in H. apply bind_Some in H as (its1 & H1 & H2). apply (IH its1); [|done].
  unfold init_child in H1. destruct (binary_search _ _ _).
  - unfold item_update in H1. apply bind_Some in H1 as (e & He & H1). eapply Forall_vec_set; [done| |done].
    eapply Forall_lookup_1 in Hits; [|exact He]. destruct Hits as [Hg Hd]. split; [done|]. cbn.
    unfold e_set_rc. rewrite Hg. by apply derived_update.
  - apply bind_Some in H1 as (e & He & H1). eapply Forall_vec_insert; [done| |done].
    eapply Hc; [|exact He]. apply make_new_entry_fresh.
Qed.

Lemma init_fresh gen old n : ∀ s e e',
  fresh gen old e → init_rels_for_new_entry gen n s e = Some e' → fresh gen old e'.
Proof.
  induction n as [r rels IH] using node_level_ind. intros s e e' He H. cbn [init_rels_for_new_entry] in H.
  revert e He H. induction IH as [|[slot thunk] rels Hc _ IHr]; intros e He H; [by injection H as <-|].
  rewrite try_foldl_cons in H. apply bind_Some in H as (e1 & H1 & H2). apply (IHr e1); [|done].
  cbn [init_slot] in H1. destruct (rel_child s slot) as [cs|]; [|by injection H1 as <-].
  apply bind_Some in H1 as (its & Hits & H1).
  assert (Forall (fresh gen old) its) as Hf by (eapply init_children_fresh; [exact Hc|constructor|exact Hits]).
  destruct its as [|x its]; [by injection H1 as <-|]. apply bind_Some in H1 as (rels' & Hset & H1). injection H1 as <-.
  destruct He as [Hg Hd]. split; [done|]. apply derived_entry; [done|]. cbn.
  eapply Forall_vec_set; [by apply derived_rels| |exact Hset]. apply list_derived_stamped.
  eapply Forall_impl; [exact Hf|]. by intros y [_ ?].
Qed.

(** ** First half: what is not stamped is old *)

Lemma derived_self gen e : derived gen e e.
Proof. apply derived_occurs. constructor. Qed.

Lemma apply_edit_derived gen old e new old_row s mode :
  derived gen old e → derived gen old (apply_edit e new old_row s mode gen).
Proof. intros He. unfold apply_edit. rewrite entry_cow_eq. destruct (_ && _); by apply (derived_update gen old e). Qed.

Lemma cow_rc_derived gen old e mode c : derived gen old e → derived gen old (e_set_rc (entry_cow e mode gen) c).
Proof. intros He. rewrite entry_cow_eq. by apply (derived_update gen old e). Qed.

Lemma slot_derived parent rel l its gen rels :
  e_rels parent !! rel = Some l → Forall (derived gen parent) its →
  vec_set rel (MkList gen its) (e_rels parent) = Some rels →
  derived gen parent (MkEntry (e_row parent) (e_rc parent) gen rels).
Proof.
  intros Hl Hits Hset. apply derived_entry; [done|]. cbn.
  eapply Forall_vec_set; [apply derived_rels, derived_self|by apply list_derived_stamped|exact Hset].
Qed.

Lemma slot_items_derived parent rel l gen :
  e_rels parent !! rel = Some l → Forall (derived gen parent) (items l).
Proof.
  intros Hl. pose proof (derived_rels gen parent parent (derived_self gen parent)) as H.
  eapply Forall_lookup_1 in H; [|exact Hl]. apply H.
Qed.

Lemma list_slot_update_derived parent rel mode gen f p' :
  (∀ its its', Forall (derived gen parent) its → f its = Some its' → Forall (derived gen parent) its') →
  list_slot_update parent rel mode gen f = Some p' → derived gen parent p'.
Proof.
  intros Hf H. unfold list_slot_update in H. rewrite entry_cow_eq in H. destruct parent as [r c g rels]. cbn [e_stamp e_rels] in H.
  apply bind_Some in H as (l & Hl & H). rewrite list_cow_eq in H. cbn [items l_created] in H.
  apply bind_Some in H as (its & Hits & H). apply bind_Some in H as (rels' & Hset & H). injection H as <-.
  eapply (slot_derived (MkEntry r c g rels)); [exact Hl| |exact Hset]. eapply Hf; [|exact Hits].
  by eapply slot_items_derived.
Qed.

Lemma move_entry_derived gen old new old_row s mode old_pos pos found rc its its' :
  Forall (derived gen old) its →
  move_entry new old_row s mode gen old_pos pos found rc its = Some its' → Forall (derived gen old) its'.
Proof.
  intros Hits H. unfold move_entry in H. apply bind_Some in H as (d & Hd & H). cbn zeta in H.
  apply bind_Some in H as ([its1 adj] & H1 & H).
  assert (Hits1 : Forall (derived gen old) its1).
  { case_decide; apply bind_Some in H1 as (x & Hx & H1); injection H1 as <- <-.
    - eapply Forall_vec_remove; [exact Hits|exact Hx].
    - eapply item_update_derived; [done| |exact Hx]. intros e He. by apply cow_rc_derived. }
  destruct found.
  - apply bind_Some in H as (ex & _ & H). apply bind_Some in H as (its2 & H2 & H).
    eapply item_update_derived; [|..|exact H].
    + eapply item_update_derived; [done| |exact H2]. intros e He. by apply apply_edit_derived.
    + intros e He. by apply cow_rc_derived.
  - eapply Forall_vec_insert; [done| |exact H]. apply cow_rc_derived, apply_edit_derived.
    exact (Forall_lookup_1 _ _ _ _ Hits Hd).
Qed.

Lemma apply_child_derived ap parent r child_rel s rel mode gen p' ch :
  (∀ e cs crel e' ch, ap e cs crel = Some (e', ch) → derived gen e e') →
  apply_child ap parent r child_rel s rel mode gen = Some (p', ch) → derived gen parent p'.
Proof.
  intros Hap H. unfold apply_child in H.
  destruct (rel_child s child_rel) as [cs|]; [|injection H as <- <-; apply derived_self].
  apply bind_Some in H as (l & Hl & H). destruct (binary_search _ _ _) as [pos|]; [|done].
  assert (Hsub : ∀ x e', items l !! pos = Some x → derived gen x e' → derived gen parent e').
  { intros x e' Hx. apply derived_trans. eapply (occurs_below _ _ l x); [by eapply list_elem_of_lookup_2..|constructor]. }
  destruct (can_mut _ _ _).
  - rewrite entry_cow_eq in H. destruct parent as [r0 c0 g0 rels0]. cbn [e_stamp e_rels] in *. rewrite Hl in H.
    cbn [mbind option_bind] in H. rewrite list_cow_eq in H. cbn [items l_created] in H.
    apply bind_Some in H as (x & Hx & H). apply bind_Some in H as ([x' ch'] & Hx' & H).
    apply bind_Some in H as (its & Hits & H). apply bind_Some in H as (rels & Hrels & H). injection H as <- <-.
    eapply (slot_derived (MkEntry r0 c0 g0 rels0)); [exact Hl| |exact Hrels].
    eapply Forall_vec_set; [|by eapply Hsub, Hap|exact Hits]. by eapply slot_items_derived.
  - apply bind_Some in H as (x & Hx & H). apply bind_Some in H as ([x' ch'] & Hx' & H).
    destruct ch'; cbn [negb] in H; [|injection H as <- <-; apply derived_self].
    apply bind_Some in H as (pe & Hpe & H). injection H as <- <-.
    eapply list_slot_update_derived; [|exact Hpe]. intros its its' Hits Hset.
    eapply Forall_vec_set; [done|by eapply Hsub, Hap|exact Hset].
Qed.

Lemma apply_derived c mode gen : ∀ parent s rel p' ch,
  apply c mode gen parent s rel = Some (p', ch) → derived gen parent p'.
Proof.
  induction c as [n|n|r child_rel sub IH|new old]; intros parent s rel p' ch H; cbn [apply] in H.
  - unfold apply_add in H. apply bind_Some in H as (l & _ & H). destruct (binary_search _ _ _).
    + apply bind_Some in H as (pe & Hpe & H). injection H as <- <-. eapply list_slot_update_derived; [|exact Hpe].
      intros its its' Hits Hup. eapply item_update_derived; [done| |exact Hup]. intros e He.
      by apply cow_rc_derived.
    + apply bind_Some in H as (e & He & H). apply bind_Some in H as (pe & Hpe & H). injection H as <- <-.
      eapply list_slot_update_derived; [|exact Hpe]. intros its its' Hits Hins.
      eapply Forall_vec_insert; [done| |exact Hins].
      eapply init_fresh in He; [apply He|apply make_new_entry_fresh].
  - unfold apply_remove in H. apply bind_Some in H as (l & _ & H). destruct (binary_search _ _ _); [|done].
    apply bind_Some in H as (d & _ & H). apply bind_Some in H as (pe & Hpe & H). injection H as <- <-.
    eapply list_slot_update_derived; [|exact Hpe]. intros its its' Hits Hup. case_decide.
    + eapply Forall_vec_remove; [exact Hits|exact Hup].
    + eapply item_update_derived; [done| |exact Hup]. intros e He. by apply cow_rc_derived.
  - eapply apply_child_derived; [|exact H]. intros. by eapply IH.
  - assert (Hed : ∀ its its' p, Forall (derived gen parent) its →
      item_update its p (λ e, apply_edit e new old s mode gen) = Some its' → Forall (derived gen parent) its').
    { intros its its' p Hits Hup. eapply item_update_derived; [done| |exact Hup]. intros. by apply apply_edit_derived. }
    unfold apply_edit_change in H. apply bind_Some in H as (l & _ & H).
    case_decide; (destruct (binary_search _ old _); [|done]).
    + apply bind_Some in H as (d & _ & H). destruct (_ && _); apply bind_Some in H as (pe & Hpe & H);
        injection H as <- <-; (eapply list_slot_update_derived; [|exact Hpe]); [intros ?? Hits; by apply Hed|].
      intros ?? Hits. by apply move_entry_derived.
    + apply bind_Some in H as (pe & Hpe & H). injection H as <- <-. eapply list_slot_update_derived; [|exact Hpe].
      intros ?? Hits. by apply Hed.
Qed.

(** ** Second half: what is not addressed is kept *)

Definition addressed_rows (c : ViewChange) : list row :=
  match c with
  | VAdd n | VRemove n => [node_row n]
  | VChild r _ _ => [r]
  | VEdit new old => [new; old]
  end.

(** The entries of a list under none of the keys stay in it. *)
Definition kept (sort : Sort) (ks : list row) (its its' : list Entry) : Prop :=
  ∀ x, x ∈ its → Forall (λ k, row_cmp sort (e_row x) k ≠ Eq) ks → x ∈ its'.

(** Nothing moves, or only the addressed slot changes, and in it only addressed
    entries; a nested change does the same one level down. *)
Fixpoint keeps (c : ViewChange) (s : Schema) (rel : nat) (p p' : Entry) : Prop :=
  p' = p ∨
  ((∀ i, i ≠ rel → e_rels p' !! i = e_rels p !! i) ∧
   ∃ l l', e_rels p !! rel = Some l ∧ e_rels p' !! rel = Some l' ∧
     kept (schema_sort s) (addressed_rows c) (items l) (items l') ∧
     match c with
     | VChild r child_rel sub =>
         ∃ cs x x', rel_child s child_rel = Some cs ∧ x ∈ items l ∧ x' ∈ items l' ∧
           row_cmp (schema_sort s) (e_row x) r = Eq ∧ keeps sub cs child_rel x x'
     | _ => True
     end).

Section kept.
Context (sort : Sort) (ks : list row).

Lemma kept_trans a b c : kept sort ks a b → kept sort ks b c → kept sort ks a c.
Proof. intros H1 H2 x Hx Hk. apply H2; [by apply H1|done]. Qed.

Lemma addressed_ne k x y :
  k ∈ ks → row_cmp sort (e_row y) k = Eq → Forall (λ k, row_cmp sort (e_row x) k ≠ Eq) ks → x ≠ y.
Proof. intros Hk Hy Hx ->. rewrite Forall_forall in Hx. by apply (Hx k). Qed.

Lemma kept_set p k y z its its' :
  its !! p = Some y → k ∈ ks → row_cmp sort (e_row y) k = Eq → vec_set p z its = Some its' → kept sort ks its its'.
Proof.
  intros Hp Hk Hy H x [i Hi]%list_elem_of_lookup Hx. unfold vec_set in H. case_decide; [|done]. injection H as <-.
  apply list_elem_of_lookup. exists i. rewrite list_lookup_insert_ne; [done|].
  intros ->. rewrite Hp in Hi. injection Hi as ->. by apply (addressed_ne k x x Hk Hy Hx).
Qed.

Lemma kept_insert p z its its' : vec_insert p z its = Some its' → kept sort ks its its'.
Proof.
  unfold vec_insert. case_decide; [|done]. intros [= <-] x Hx _. rewrite <-(take_drop p its) in Hx.
  apply elem_of_app in Hx as [Hx|Hx]; apply elem_of_app; [by left|right; by right].
Qed.

Lemma kept_remove p k y its its' :
  its !! p = Some y → k ∈ ks → row_cmp sort (e_row y) k = Eq → vec_remove p its = Some its' → kept sort ks its its'.
Proof.
  intros Hp Hk Hy H x Hx Hne. unfold vec_remove in H. case_decide; [|done]. injection H as <-.
  rewrite <-(take_drop_middle its p y Hp) in Hx. apply elem_of_app in Hx as [Hx|[->|Hx]%elem_of_cons]; apply elem_of_app.
  - by left.
  - by destruct (addressed_ne k y y Hk Hy Hne).
  - by right.
Qed.

Lemma kept_update p k f y its its' :
  its !! p = Some y → k ∈ ks → row_cmp sort (e_row y) k = Eq → item_update its p f = Some its' → kept sort ks its its'.
Proof. intros Hp Hk Hy. unfold item_update. rewrite Hp. cbn. by apply (kept_set p k y). Qed.
End kept.

Lemma search_Ok its r sort p y : binary_search its r sort = Ok p → its !! p = Some y → row_cmp sort (e_row y) r = Eq.
Proof.
  unfold binary_search, binary_search_by. intros H Hy. set (base := halve _ _ _ _ _) in *.
  destruct (its !! base) as [z|] eqn:Ez; cbn in H; [|done].
  destruct (row_cmp sort (e_row z) r) eqn:E; try done. injection H as <-. congruence.
Qed.

Lemma list_slot_update_inv parent rel mode gen f p' :
  list_slot_update parent rel mode gen f = Some p' →
  ∃ l its', e_rels parent !! rel = Some l ∧ f (items l) = Some its' ∧
    e_rels p' = <[rel := MkList gen its']> (e_rels parent).
Proof.
  intros H. unfold list_slot_update in H. rewrite entry_cow_eq in H. destruct parent as [r c g rels]. cbn [e_stamp e_rels] in H.
  apply bind_Some in H as (l & Hl & H). rewrite list_cow_eq in H. cbn [items l_created] in H.
  apply bind_Some in H as (its & Hits & H). apply bind_Some in H as (rels' & Hset & H). injection H as <-.
  exists l, its. split_and!; [done..|]. unfold vec_set in Hset. case_decide; [|done]. by injection Hset as <-.
Qed.

(** An update of the slot that keeps unaddressed entries. *)
Lemma slot_update_keeps c s rel parent p' mode gen f :
  list_slot_update parent rel mode gen f = Some p' →
  (∀ l its', e_rels parent !! rel = Some l → f (items l) = Some its' →
    kept (schema_sort s) (addressed_rows c) (items l) its' ∧
    match c with
    | VChild r child_rel sub =>
        ∃ cs x x', rel_child s child_rel = Some cs ∧ x ∈ items l ∧ x' ∈ its' ∧
          row_cmp (schema_sort s) (e_row x) r = Eq ∧ keeps sub cs child_rel x x'
    | _ => True
    end) →
  keeps c s rel parent p'.
Proof.
  intros (l & its' & Hl & Hf & Hrels)%list_slot_update_inv H. destruct (H l its' Hl Hf) as [Hk Hc].
  assert (∀ i, i ≠ rel → e_rels p' !! i = e_rels parent !! i) as Hi.
  { intros i Hne. rewrite Hrels. by apply list_lookup_insert_ne. }
  assert (e_rels p' !! rel = Some (MkList gen its')) as Hl'.
  { rewrite Hrels. apply list_lookup_insert_eq. by eapply lookup_lt_Some. }
  destruct c; right; (split; [exact Hi|]); exists l, (MkList gen its'); by split_and!.
Qed.

Lemma move_entry_kept new old s mode gen old_pos pos found rc its its' d :
  row_cmp (schema_sort s) old new ≠ Eq →
  its !! old_pos = Some d → row_cmp (schema_sort s) (e_row d) old = Eq →
  (found = true → ∀ e, its !! pos = Some e → row_cmp (schema_sort s) (e_row e) new = Eq) →
  move_entry new old s mode gen old_pos pos found rc its = Some its' →
  kept (schema_sort s) [new; old] its its'.
Proof.
  intros Hne Hd Hold Hnew H. unfold move_entry in H. rewrite Hd in H. cbn [mbind option_bind] in H. cbn zeta in H.
  assert (Hin : old ∈ [new; old] ∧ new ∈ [new; old]) by set_solver. destruct Hin as [Ho Hn].
  apply bind_Some in H as ([its1 adj] & H1 & H).
  assert (kept (schema_sort s) [new; old] its its1 ∧
          (found = true → ∀ e, its1 !! adj = Some e → row_cmp (schema_sort s) (e_row e) new = Eq)) as [Hk1 Hadj].
  { assert (found = true → pos ≠ old_pos) as Hpos.
    { intros Hf ->. specialize (Hnew Hf d Hd). rewrite (cmp_eq_l _ old) in Hnew by done. done. }
    case_decide; apply bind_Some in H1 as (x & Hx & H1); injection H1 as <- <-.
    - split; [eapply (kept_remove _ _ old_pos old d); [exact Hd|exact Ho|exact Hold|exact Hx]|]. intros Hf e He. apply (Hnew Hf). specialize (Hpos Hf).
      unfold vec_remove in Hx. destruct (decide (old_pos < length its)) as [Hlt|]; [|done]. injection Hx as <-.
      destruct (decide (old_pos < pos)).
      + rewrite lookup_app_r, length_take, lookup_drop in He by (rewrite length_take; lia).
        by replace (S old_pos + (pos - 1 - old_pos `min` length its)) with pos in He by lia.
      + rewrite lookup_app_l in He by (rewrite length_take; lia). by apply lookup_take_Some in He as [? _].
    - split; [eapply (kept_update _ _ old_pos old); [exact Hd|exact Ho|exact Hold|exact Hx]|]. intros Hf e He. apply (Hnew Hf). specialize (Hpos Hf).
      unfold item_update in Hx. rewrite Hd in Hx. cbn in Hx. unfold vec_set in Hx. case_decide; [|done].
      injection Hx as <-. by rewrite list_lookup_insert_ne in He by done. }
  eapply kept_trans; [exact Hk1|]. destruct found; [|by eapply kept_insert].
  apply bind_Some in H as (ex & Hex & H). apply bind_Some in H as (its2 & H2 & H). specialize (Hadj eq_refl ex Hex).
  eapply kept_trans; [eapply (kept_update _ _ adj new); [exact Hex|done..|exact H2]|].
  unfold item_update in H2. rewrite Hex in H2. cbn in H2. unfold vec_set in H2. case_decide; [|done]. injection H2 as <-.
  eapply (kept_update _ _ adj new); [by apply list_lookup_insert_eq|done| |exact H].
  unfold apply_edit. rewrite entry_cow_eq. destruct (_ && _); apply cmp_refl.
Qed.

Lemma apply_child_keeps ap sub parent r child_rel s rel mode gen p' ch :
  (∀ e cs crel e' ch, ap e cs crel = Some (e', ch) → keeps sub cs crel e e') →
  apply_child ap parent r child_rel s rel mode gen = Some (p', ch) →
  keeps (VChild r child_rel sub) s rel parent p'.
Proof.
  intros IH H. unfold apply_child in H. destruct (rel_child s child_rel) as [cs|] eqn:Ecs; [|injection H as <- <-; by left].
  apply bind_Some in H as (l & Hl & H). destruct (binary_search _ _ _) as [pos|] eqn:Eb; [|done].
  assert (Hstep : ∀ x x' chx its', items l !! pos = Some x → ap x cs child_rel = Some (x', chx) →
    vec_set pos x' (items l) = Some its' →
    kept (schema_sort s) [r] (items l) its' ∧
    ∃ cs x x', rel_child s child_rel = Some cs ∧ x ∈ items l ∧ x' ∈ its' ∧
        row_cmp (schema_sort s) (e_row x) r = Eq ∧ keeps sub cs child_rel x x').
  { intros x x' chx its' Hx Hx' Hset. pose proof (search_Ok _ _ _ _ _ Eb Hx) as Heq.
    split; [eapply (kept_set _ _ pos r); [exact Hx|by left|done|exact Hset]|].
    exists cs, x, x'. split_and!; [done|by eapply list_elem_of_lookup_2| |done|by eapply IH].
    unfold vec_set in Hset. case_decide; [|done]. injection Hset as <-.
    apply list_elem_of_lookup. exists pos. by apply list_lookup_insert_eq. }
  destruct (can_mut _ _ _).
  - rewrite entry_cow_eq in H. destruct parent as [r0 c0 g0 rels0]. cbn [e_stamp e_rels] in *. rewrite Hl in H.
    cbn [mbind option_bind] in H. rewrite list_cow_eq in H. cbn [items l_created] in H.
    apply bind_Some in H as (x & Hx & H). apply bind_Some in H as ([x' ch'] & Hx' & H).
    apply bind_Some in H as (its & Hits & H). apply bind_Some in H as (rels & Hrels & H). injection H as <- <-.
    unfold vec_set in Hrels. case_decide; [|done]. injection Hrels as <-.
    right. split; [intros i Hne; cbn; by apply list_lookup_insert_ne|]. exists l, (MkList gen its).
    destruct (Hstep x x' ch' its Hx Hx' Hits) as [Hk Hc]. split_and!; [done| |done|exact Hc].
    cbn. by apply list_lookup_insert_eq.
  - apply bind_Some in H as (x & Hx & H). apply bind_Some in H as ([x' ch'] & Hx' & H).
    destruct ch'; cbn [negb] in H; [|injection H as <- <-; by left].
    apply bind_Some in H as (pe & Hpe & H). injection H as <- <-. eapply slot_update_keeps; [exact Hpe|].
    intros l0 its' Hl0 Hset. simplify_eq. by eapply Hstep.
Qed.

Lemma apply_keeps c mode gen : ∀ parent s rel p' ch,
  apply c mode gen parent s rel = Some (p', ch) → keeps c s rel parent p'.
Proof.
  induction c as [n|n|r child_rel sub IH|new old]; intros parent s rel p' ch H; cbn [apply] in H.
  - unfold apply_add in H. apply bind_Some in H as (l & Hl & H). destruct (binary_search _ _ _) as [p|ins] eqn:Eb.
    + apply bind_Some in H as (pe & Hpe & H). injection H as <- <-. eapply slot_update_keeps; [exact Hpe|].
      intros l0 its' Hl0 Hf. simplify_eq. split; [|done]. unfold item_update in Hf. apply bind_Some in Hf as (y & Hy & Hf).
      eapply (kept_set _ _ p (node_row n)); [exact Hy|by left|by eapply search_Ok|exact Hf].
    + apply bind_Some in H as (e & He & H). apply bind_Some in H as (pe & Hpe & H). injection H as <- <-.
      eapply slot_update_keeps; [exact Hpe|]. intros l0 its' _ Hf. split; [by eapply kept_insert|done].
  - unfold apply_remove in H. apply bind_Some in H as (l & Hl & H). destruct (binary_search _ _ _) as [p|] eqn:Eb; [|done].
    apply bind_Some in H as (d & Hd & H). apply bind_Some in H as (pe & Hpe & H). injection H as <- <-.
    eapply slot_update_keeps; [exact Hpe|]. intros l0 its' Hl0 Hf. simplify_eq. split; [|done].
    pose proof (search_Ok _ _ _ _ _ Eb Hd) as Heq. cbn. case_decide.
    + eapply (kept_remove _ _ p (node_row n)); [exact Hd|by left|done|exact Hf].
    + eapply (kept_update _ _ p (node_row n)); [exact Hd|by left|done|exact Hf].
  - eapply apply_child_keeps; [|exact H]. intros. by eapply IH.
  - unfold apply_edit_change in H. apply bind_Some in H as (l & Hl & H).
    case_decide as Hne; (destruct (binary_search _ old _) as [old_pos|] eqn:Eb; [|done]).
    + apply bind_Some in H as (d & Hd & H). pose proof (search_Ok _ _ _ _ _ Eb Hd) as Heq.
      destruct (_ && _); apply bind_Some in H as (pe & Hpe & H); injection H as <- <-;
        (eapply slot_update_keeps; [exact Hpe|]); intros l0 its' Hl0 Hf; simplify_eq; (split; [|done]).
      * eapply (kept_update _ _ old_pos old); [exact Hd|right; by left|done|exact Hf].
      * eapply move_entry_kept; [done|exact Hd|done| |exact Hf].
        intros Hf' e He. destruct (binary_search _ new _) eqn:Enew; [|done]. by eapply search_Ok.
    + apply bind_Some in H as (pe & Hpe & H). injection H as <- <-. eapply slot_update_keeps; [exact Hpe|].
      intros l0 its' Hl0 Hf. simplify_eq. split; [|done]. unfold item_update in Hf. apply bind_Some in Hf as (y & Hy & Hf).
      eapply (kept_set _ _ old_pos old); [exact Hy|right; by left|by eapply search_Ok|exact Hf].
Qed.


(** ** Stamps and transactions *)

(** No object is from a later transaction than [g]. *)
Definition stamps_upto (g : Z) (e : Entry) : Prop :=
  (∀ x, occurs x e → (e_created x ≤ g)%Z) ∧ (∀ l, occurs_list l e → (l_created l ≤ g)%Z).

Lemma derived_stamps g old e :
  (0 ≤ g)%Z → stamps_upto g old → derived g old e → stamps_upto g e.
Proof.
  intros Hg [H1 H2] [D1 D2]. split.
  - intros x Hx. destruct (decide (e_created x = g)) as [->|Hne]; [lia|]. apply H1. by apply D1.
  - intros l Hl. destruct (decide (l_created l = g)) as [->|Hne]; [lia|].
    destruct (D2 l Hl Hne) as [Hold| ->]; [by apply H2|done].
Qed.

(** [n] transactions at most have ended. *)
Definition txn_ok (n : Z) (v : View) : Prop :=
  (0 ≤ v_txn v ≤ n)%Z ∧ stamps_upto (v_txn v) (v_root v).

Lemma stamps_weaken g g' e : (g ≤ g')%Z → stamps_upto g e → stamps_upto g' e.
Proof.
  intros Hle [H1 H2]. split; intros x Hx; [specialize (H1 x Hx)|specialize (H2 x Hx)]; lia.
Qed.

Lemma flush_txn n v v' :
  txn_ok n v → (n < 2 ^ 64 - 1)%Z → flush v = Some v' →
  txn_ok (n + 1) v' ∧ (v_dirty v = true → stamps_upto (v_txn v' - 1) (v_root v')).
Proof.
  intros [Htx Hst] Hn H. unfold flush in H. destruct (v_dirty v).
  - unfold fire_listeners in H. apply bind_Some in H as (v1 & Hv1 & H). apply bind_Some in Hv1 as (d & Hd & Hv1).
    injection Hv1 as <-. injection H as <-. cbn. unfold u64_wrap. rewrite Z.mod_small by lia.
    split; [split; cbn; [lia|]|intros _].
    + eapply stamps_weaken; [|exact Hst]. lia.
    + by replace (v_txn v + 1 - 1)%Z with (v_txn v) by lia.
  - injection H as <-. split; [split; [lia|done]|done].
Qed.

Lemma view_step_txn n v ev v' :
  txn_ok n v → (n < 2 ^ 64 - 1)%Z → view_step v ev = Some v' → txn_ok (n + 1) v'.
Proof.
  intros Hok Hn H. destruct ev as [c| |l|rt]; cbn [view_step] in H.
  - unfold push_change in H. apply bind_Some in H as (root & Hroot & H). injection H as <-.
    unfold apply_change in Hroot. apply bind_Some in Hroot as ([root' ch] & Ha & Hroot). injection Hroot as <-.
    destruct Hok as [Htx Hst]. split; cbn; [lia|]. eapply derived_stamps; [lia|exact Hst|by eapply apply_derived].
  - by eapply flush_txn.
  - apply bind_Some in H as ([v1 i] & Hv1 & H). injection H as <-. unfold add_listener in Hv1.
    apply bind_Some in Hv1 as (d & _ & Hv1). injection Hv1 as <- <-. destruct Hok as [Htx Hst]. split; cbn; [lia|done].
  - unfold set_result_type, fire_listeners in H. apply bind_Some in H as (d & _ & H). injection H as <-.
    destruct Hok as [Htx Hst]. split; cbn; [lia|done].
Qed.

Lemma view_run_txn n v evs v' :
  txn_ok n v → (n + Z.of_nat (length evs) < 2 ^ 64 - 1)%Z → try_foldl view_step v evs = Some v' →
  txn_ok (n + Z.of_nat (length evs)) v'.
Proof.
  revert n v. induction evs as [|ev evs IH]; intros n v Hok Hn H.
  { injection H as <-. cbn. by rewrite Z.add_0_r. }
  rewrite try_foldl_cons in H. apply bind_Some in H as (v1 & H1 & H). cbn [length] in Hn |- *.
  replace (n + Z.of_nat (S (length evs)))%Z with (n + 1 + Z.of_nat (length evs))%Z by lia.
  apply (IH (n + 1)%Z v1); [|lia|done]. eapply view_step_txn; [done| |done]. lia.
Qed.

Lemma hydrate_txn s rt nodes v : hydrate_from (view_new s rt) nodes = Some v → txn_ok 1 v.
Proof.
  intros H. unfold hydrate_from in H. cbn zeta in H. apply bind_Some in H as (root & Hroot & H).
  eapply (flush_txn 0) in H; [apply H| |lia]. split; [cbn; lia|]. cbn.
  assert (Hst : stamps_upto 0 synthetic_root).
  { assert (Hroots : ∀ x, occurs x synthetic_root → x = synthetic_root).
    { intros x Hx. inversion Hx as [|e l y Hl Hy Hxy]; subst; [done|]. cbn in Hl.
      apply elem_of_cons in Hl as [->|?%elem_of_nil]; [by apply elem_of_nil in Hy|done]. }
    split; [intros x ->%Hroots; cbn; lia|]. intros l (x & ->%Hroots & Hl). cbn in Hl.
    apply elem_of_cons in Hl as [->|?%elem_of_nil]; [cbn; lia|done]. }
  cbn in Hroot. revert Hst Hroot. generalize synthetic_root.
  induction nodes as [|n nodes IH]; intros e Hst Hroot; [cbn in Hroot; injection Hroot as <-; exact Hst|].
  rewrite try_foldl_cons in Hroot. apply bind_Some in Hroot as (e1 & H1 & Hroot). apply (IH e1); [|done].
  unfold apply_change in H1. apply bind_Some in H1 as ([e2 ch] & Ha & H1). injection H1 as <-.
  eapply derived_stamps; [lia|exact Hst|]. exact (apply_derived (VAdd n) InPlace 0 e s REL_ROOT e2 ch Ha).
Qed.

(** A flush ends the transaction for good: whatever a view went through since it
    was hydrated, flushing it when it is dirty leaves no object of the tree with
    the stamp of the transaction that starts, so the next change copies what it
    touches on first touch; and it calls every listener once, in registration
    order, with the tree it leaves. *)
Theorem flush_commits s rt nodes evs v v' :
  (v ← hydrate_from (view_new s rt) nodes; try_foldl view_step v evs) = Some v →
  (Z.of_nat (length evs) < 2 ^ 64 - 2)%Z → v_dirty v = true → flush v = Some v' →
  (∀ x, occurs x (v_root v') → can_mut (e_created x) Cow (v_txn v') = false) ∧
  (∀ l, occurs_list l (v_root v') → can_mut (l_created l) Cow (v_txn v') = false) ∧
  ∃ d, data v' = Some d ∧ v_log v' = v_log v ++ map (λ l, (l, d, v_result v)) (listeners v).
Proof.
  intros H Hlen Hdirty Hf. apply bind_Some in H as (v0 & H0 & H).
  apply hydrate_txn in H0. eapply view_run_txn in H; [|exact H0|lia].
  destruct (flush_txn _ _ _ H ltac:(lia) Hf) as [_ Hst]. specialize (Hst Hdirty) as [S1 S2].
  split_and!.
  - intros x Hx. specialize (S1 x Hx). cbn. apply bool_decide_eq_false. lia.
  - intros l Hl. specialize (S2 l Hl). cbn. apply bool_decide_eq_false. lia.
  - unfold flush in Hf. rewrite Hdirty in Hf. apply bind_Some in Hf as (v1 & Hv1 & Hf). injection Hf as <-.
    unfold fire_listeners in Hv1. apply bind_Some in Hv1 as (d & Hd & Hv1). injection Hv1 as <-.
    exists d. split; [exact Hd|]. reflexivity.
Qed.

(** ** Witnesses: a tree of two rows, the first with a child *)

Definition ex_nodes : list node :=
  [Node [Bool false] [(0%nat, λ _, [leaf_node [Bool true]]); (1%nat, λ _, [])]; leaf_node [Bool true]].

Definition ex_change : change := Child (leaf_node [Bool false]) 0 (Remove (leaf_node [Bool true])).

Definition ex_view : option View := hydrate_from (view_new nest_schema Complete) ex_nodes.

Lemma leaf_distinct r : distinct_slots (leaf_node r).
Proof. constructor; [constructor|]. by intros ??? ?%elem_of_nil. Qed.

Lemma ex_nodes_distinct : Forall distinct_slots ex_nodes.
Proof.
  constructor; [|constructor; [apply leaf_distinct|constructor]]. constructor.
  - cbn. repeat constructor; rewrite ?elem_of_cons, ?elem_of_nil; intuition discriminate.
  - intros slot thunk child [[= -> ->]|[[= -> ->]|[]%elem_of_nil]%elem_of_cons]%elem_of_cons Hc;
      [|by apply elem_of_nil in Hc]. apply elem_of_cons in Hc as [->|[]%elem_of_nil]. apply leaf_distinct.
Qed.

Lemma view_refines_receiver_witness :
  option_Forall2 view_holds
    (v ← hydrate_from (view_new nest_schema Complete) ex_nodes; try_foldl view_step v [Listen 7; Push ex_change; Flush])
    (apply_all (receiver_new nest_schema)
       (flatten_all (expand_change <$> ((Add <$> ex_nodes) ++ pushes [Listen 7; Push ex_change; Flush])))).
Proof.
  apply view_refines_receiver; [exact ex_nodes_distinct|]. cbn. repeat constructor.
Defined.


Definition ex_pushed : View :=
  Eval vm_compute in
    default (view_new nest_schema Complete) (v ← ex_view; try_foldl view_step v [Listen 7; Push ex_change]).

Definition ex_flushed : View :=
  Eval vm_compute in default (view_new nest_schema Complete) (flush ex_pushed).

Lemma flush_commits_witness :
  (v ← ex_view; try_foldl view_step v [Listen 7; Push ex_change]) = Some ex_pushed ∧
  flush ex_pushed = Some ex_flushed ∧
  ∃ d, data ex_flushed = Some d ∧ v_log ex_flushed = v_log ex_pushed ++ [(7, d, Complete)].
Proof.
  split; [vm_compute; reflexivity|]. split; [vm_compute; reflexivity|].
  apply (flush_commits nest_schema Complete ex_nodes [Listen 7; Push ex_change] ex_pushed ex_flushed);
    vm_compute; reflexivity.
Defined.
