(* ===== verification/FlatProtocol.v ===== *)
(** * The subscription protocol ([rust/src/flat_protocol.rs])

    A publisher frames the flat changes of a query for one subscription: a
    handshake, a hydrate snapshot in one batch or in chunks, then one batch per
    non-empty transaction, all stamped with the subscription's epoch and schema
    fingerprint.  A subscriber folds the frames it is handed into a receiver and
    rejects what does not fit.  The outer [option] of the operations is the panic
    of the receiver (an inconsistent stream) or of a schema with an index out of
    range; protocol errors are values.  Epochs, sequence numbers and chunk indices
    are [u64]. *)

From stdpp Require Import base list numbers option.
From Stdlib Require Import ZArith Lia.
From S2P Require Import Prelude Values Rows Schema BTree BTreeFacts Change OrdMap Flat.

(** ** Frames *)

Record Hello := MkHello {
  h_epoch : Z;
  comparator_version : Z;
  h_schema : WireSchema;
  h_fp : Z
}.

Record Batch := MkBatch { b_epoch : Z; seq : Z; b_fp : Z; events : list FlatChange }.

Record SnapshotChunk := MkChunk {
  c_epoch : Z;
  c_fp : Z;
  index : Z;
  is_last : bool;
  adds : list FlatChange
}.

Inductive SnapStatus := SnapAccepted | SnapComplete | SnapDuplicate.

Inductive ProtocolError :=
  | ComparatorMismatch (expected got : Z)
  | EpochMismatch (expected got : Z)
  | SchemaMismatch (expected got : Z)
  | Gap (expected got : Z).

Inductive AppliedStatus := Applied | Duplicate.

(** ** The publisher *)

Record Publisher := MkPublisher {
  p_epoch : Z;
  p_schema : WireSchema;
  p_fp : Z;
  next_seq : Z
}.

Definition publisher_new (epoch : Z) (view_schema : Schema) : option Publisher :=
  let schema := to_wire view_schema in
  fp ← schema_fp schema;
  Some (MkPublisher epoch schema fp 0).

Definition hello (p : Publisher) : Hello :=
  MkHello (p_epoch p) COMPARATOR_VERSION (p_schema p) (p_fp p).

Definition set_next_seq (p : Publisher) (n : Z) : Publisher :=
  MkPublisher (p_epoch p) (p_schema p) (p_fp p) n.

Definition emit (p : Publisher) (caught : list CaughtChange) : Publisher * Batch :=
  let seq := next_seq p in
  (set_next_seq p (u64_wrap (next_seq p + 1)), MkBatch (p_epoch p) seq (p_fp p) (flatten_all caught)).

Definition snapshot (p : Publisher) (caught : list CaughtChange) : Publisher * Batch := emit p caught.

Definition div_ceil (a b : nat) : nat := (a + b - 1) / b.

(** [None]: the assertion on [max_per_chunk]. *)
Definition snapshot_chunks (p : Publisher) (caught : list CaughtChange) (max_per_chunk : nat) :
    option (Publisher * list SnapshotChunk) :=
  if decide (1 ≤ max_per_chunk) then
    let p := set_next_seq p 1 in
    let events := flatten_all caught in
    match events with
    | [] => Some (p, [MkChunk (p_epoch p) (p_fp p) 0 true []])
    | _ =>
        let total := div_ceil (length events) max_per_chunk in
        Some (p, imap (λ i slice, MkChunk (p_epoch p) (p_fp p) (Z.of_nat i) (bool_decide (i + 1 = total)) slice)
                   (chunks max_per_chunk events))
    end
  else None.

Definition commit (p : Publisher) (caught : list CaughtChange) : Publisher * option Batch :=
  match caught with
  | [] => (p, None)
  | _ => let '(p, b) := emit p caught in (p, Some b)
  end.

(** ** The subscriber *)

Inductive Phase := Snapshot (next_chunk : Z) | Live (last_seq : Z).

Record Subscriber := MkSubscriber {
  s_epoch : Z;
  s_fp : Z;
  recv : Receiver;
  phase : Phase
}.

Definition open (h : Hello) : option (ProtocolError + Subscriber) :=
  if decide (comparator_version h ≠ COMPARATOR_VERSION)
  then Some (inl (ComparatorMismatch COMPARATOR_VERSION (comparator_version h)))
  else
    computed ← schema_fp (h_schema h);
    if decide (computed ≠ h_fp h) then Some (inl (SchemaMismatch (h_fp h) computed))
    else Some (inr (MkSubscriber (h_epoch h) (h_fp h) (receiver_new (to_schema (h_schema h))) (Snapshot 0))).

Definition check_frame (s : Subscriber) (epoch fp : Z) : ProtocolError + unit :=
  if decide (epoch ≠ s_epoch s) then inl (EpochMismatch (s_epoch s) epoch)
  else if decide (fp ≠ s_fp s) then inl (SchemaMismatch (s_fp s) fp)
  else inr tt.

Definition advance (s : Subscriber) (r : Receiver) (ph : Phase) : Subscriber :=
  MkSubscriber (s_epoch s) (s_fp s) r ph.

Definition apply_snapshot_chunk (s : Subscriber) (c : SnapshotChunk) :
    option (Subscriber * (ProtocolError + SnapStatus)) :=
  match check_frame s (c_epoch c) (c_fp c) with
  | inl err => Some (s, inl err)
  | inr _ =>
      match phase s with
      | Live _ => Some (s, inr SnapDuplicate)
      | Snapshot next_chunk =>
          if decide (index c < next_chunk)%Z then Some (s, inr SnapDuplicate)
          else if decide (index c > next_chunk)%Z then Some (s, inl (Gap next_chunk (index c)))
          else
            r ← apply_all (recv s) (adds c);
            if is_last c then Some (advance s r (Live 0), inr SnapComplete)
            else Some (advance s r (Snapshot (u64_wrap (next_chunk + 1))), inr SnapAccepted)
      end
  end.

Definition sub_apply (s : Subscriber) (b : Batch) : option (Subscriber * (ProtocolError + AppliedStatus)) :=
  match check_frame s (b_epoch b) (b_fp b) with
  | inl err => Some (s, inl err)
  | inr _ =>
      match phase s with
      | Snapshot next_chunk =>
          if decide (next_chunk = 0%Z ∧ seq b = 0%Z) then
            r ← apply_all (recv s) (events b);
            Some (advance s r (Live 0), inr Applied)
          else Some (s, inl (Gap 0 (seq b)))
      | Live last_seq =>
          let expected := u64_wrap (last_seq + 1) in
          if decide (seq b < expected)%Z then Some (s, inr Duplicate)
          else if decide (seq b > expected)%Z then Some (s, inl (Gap expected (seq b)))
          else
            r ← apply_all (recv s) (events b);
            Some (advance s r (Live (seq b)), inr Applied)
      end
  end.

Definition snapshot_complete (s : Subscriber) : bool :=
  match phase s with Live _ => true | Snapshot _ => false end.

Definition last_seq (s : Subscriber) : option Z :=
  match phase s with Live n => Some n | Snapshot _ => None end.
