(* ===== verification/ProtocolFacts.v ===== *)
(** * What the subscription protocol guarantees

    Frames may be lost, repeated and reordered, and frames of another
    subscription may arrive: a subscriber always holds the tree of a prefix of
    what the publisher framed, never renders a partial snapshot, and reports
    everything else; once the frames have come in order, whatever came between
    them, it holds the publisher's tree. *)

From stdpp Require Import base list numbers option sets.
From Stdlib Require Import ZArith Lia.
From S2P Require Import Prelude Values Rows Schema BTree BTreeFacts Change OrdMap Flat FlatFacts View ViewFacts ViewStable FlatProtocol.

(** ** Frames and deliveries *)

Inductive Frame := FChunk (c : SnapshotChunk) | FBatch (b : Batch).

Definition frame_epoch (f : Frame) : Z := match f with FChunk c => c_epoch c | FBatch b => b_epoch b end.
Definition frame_fp (f : Frame) : Z := match f with FChunk c => c_fp c | FBatch b => b_fp b end.
Definition frame_events (f : Frame) : list FlatChange := match f with FChunk c => adds c | FBatch b => events b end.

Inductive Outcome := Took | Again | Refused (e : ProtocolError).

Definition deliver (s : Subscriber) (f : Frame) : option (Subscriber * Outcome) :=
  match f with
  | FChunk c =>
      '(s, res) ← apply_snapshot_chunk s c;
      Some (s, match res with
               | inl e => Refused e
               | inr SnapDuplicate => Again
               | inr _ => Took
               end)
  | FBatch b =>
      '(s, res) ← sub_apply s b;
      Some (s, match res with
               | inl e => Refused e
               | inr Duplicate => Again
               | inr Applied => Took
               end)
  end.

Definition run (s : Subscriber) (ds : list Frame) : option Subscriber :=
  try_foldl (λ s f, fst <$> deliver s f) s ds.

(** ** What a publisher frames *)

(** The snapshot in one batch, or in chunks of at most [n]. *)
Inductive SnapMode := Single | Chunked (n : nat).

Fixpoint commits (p : Publisher) (txs : list (list CaughtChange)) : list Frame :=
  match txs with
  | [] => []
  | tx :: txs =>
      match commit p tx with
      | (p, Some b) => FBatch b :: commits p txs
      | (p, None) => commits p txs
      end
  end.

Definition publish (p : Publisher) (mode : SnapMode) (snap : list CaughtChange) (txs : list (list CaughtChange)) :
    option (list Frame) :=
  match mode with
  | Single => let '(p, b) := snapshot p snap in Some (FBatch b :: commits p txs)
  | Chunked n => '(p, cs) ← snapshot_chunks p snap n; Some ((FChunk <$> cs) ++ commits p txs)
  end.

(** Frame [i] of a published sequence whose snapshot takes [nsnap] frames. *)
Definition frame_at (epoch fp : Z) (nsnap i : nat) (f : Frame) : Prop :=
  frame_epoch f = epoch ∧ frame_fp f = fp ∧
  match f with
  | FChunk c => i < nsnap ∧ index c = Z.of_nat i ∧ is_last c = bool_decide (i + 1 = nsnap)
  | FBatch b => seq b = (Z.of_nat i - Z.of_nat nsnap + 1)%Z ∧ (nsnap ≤ i ∨ nsnap = 1 ∧ i = 0)
  end.

Definition numbered (epoch fp : Z) (nsnap : nat) (frames : list Frame) : Prop :=
  1 ≤ nsnap ≤ length frames ∧ ∀ i f, frames !! i = Some f → frame_at epoch fp nsnap i f.

(** ** A subscriber that has applied a prefix *)

Section prefix.
Context (epoch fp : Z) (nsnap : nat) (frames : list Frame) (schema : Schema).
Context (Hnum : numbered epoch fp nsnap frames) (Hlen : (Z.of_nat (length frames) < 2 ^ 64)%Z).

Definition prefix_events (k : nat) : list FlatChange := concat (frame_events <$> take k frames).

Definition at_prefix (k : nat) (s : Subscriber) : Prop :=
  s_epoch s = epoch ∧ s_fp s = fp ∧ k ≤ length frames ∧
  phase s = (if decide (k < nsnap) then Snapshot (Z.of_nat k) else Live (Z.of_nat k - Z.of_nat nsnap)) ∧
  apply_all (receiver_new schema) (prefix_events k) = Some (recv s).

Lemma check_frame_own s k i f :
  at_prefix k s → frames !! i = Some f → check_frame s (frame_epoch f) (frame_fp f) = inr tt.
Proof using Hnum.
  intros (He & Hf & _) Hi. destruct (proj2 Hnum i f Hi) as (E1 & E2 & _). unfold check_frame.
  rewrite E1, E2, He, Hf. by rewrite !decide_False by (intros H; done).
Qed.

(** A frame of another subscription changes nothing. *)
Lemma deliver_foreign s k f :
  at_prefix k s → frame_epoch f ≠ epoch ∨ frame_fp f ≠ fp → ∃ e, deliver s f = Some (s, Refused e).
Proof.
  intros (He & Hf & _) Hne.
  assert (∃ e, check_frame s (frame_epoch f) (frame_fp f) = inl e) as [e Hc].
  { unfold check_frame. rewrite He, Hf. case_decide; [by eexists|]. case_decide; [by eexists|]. tauto. }
  exists e. destruct f as [c|b]; cbn in *.
  - unfold apply_snapshot_chunk. by rewrite Hc.
  - unfold sub_apply. by rewrite Hc.
Qed.

(** A frame already applied, and a frame after the next one. *)
Lemma deliver_again s k i f :
  at_prefix k s → frames !! i = Some f → i < k → deliver s f = Some (s, Again).
Proof using Hnum Hlen.
  intros Hs Hi Hlt. pose proof (check_frame_own s k i f Hs Hi) as Hc. destruct (proj2 Hnum i f Hi) as (_ & _ & Hf).
  destruct Hs as (_ & _ & Hk & Hph & _). destruct Hnum as [[Hn1 Hn2] _].
  destruct f as [c|b]; cbn in Hc, Hf |- *.
  - unfold apply_snapshot_chunk. rewrite Hc, Hph. destruct Hf as (_ & Hix & _). case_decide; [|done].
    by rewrite decide_True by lia.
  - unfold sub_apply. rewrite Hc, Hph. destruct Hf as [Hsq Hw]. rewrite decide_False by lia.
    unfold u64_wrap. rewrite Z.mod_small by lia. by rewrite decide_True by lia.
Qed.

Lemma deliver_gap s k i f :
  at_prefix k s → frames !! i = Some f → k < i → ∃ e g, deliver s f = Some (s, Refused (Gap e g)).
Proof using Hnum Hlen.
  intros Hs Hi Hlt. pose proof (check_frame_own s k i f Hs Hi) as Hc. destruct (proj2 Hnum i f Hi) as (_ & _ & Hf).
  destruct Hs as (_ & _ & Hk & Hph & _). destruct Hnum as [[Hn1 Hn2] _]. apply lookup_lt_Some in Hi.
  destruct f as [c|b]; cbn in Hc, Hf |- *.
  - unfold apply_snapshot_chunk. rewrite Hc, Hph. destruct Hf as (Hsn & Hix & _). rewrite decide_True by lia.
    rewrite decide_False, decide_True by lia. by eexists _, _.
  - unfold sub_apply. rewrite Hc, Hph. destruct Hf as [Hsq Hw]. case_decide.
    + rewrite decide_False by lia. by eexists _, _.
    + unfold u64_wrap. rewrite Z.mod_small by lia. rewrite decide_False, decide_True by lia. by eexists _, _.
Qed.

Lemma prefix_events_S k f : frames !! k = Some f → prefix_events (S k) = prefix_events k ++ frame_events f.
Proof.
  intros Hf. unfold prefix_events. rewrite (take_S_r _ _ f) by done. rewrite fmap_app.
  rewrite List.concat_app. cbn. by rewrite app_nil_r.
Qed.

(** The next frame. *)
Lemma deliver_next s k f :
  at_prefix k s → frames !! k = Some f → is_Some (apply_all (receiver_new schema) (prefix_events (S k))) →
  ∃ s', deliver s f = Some (s', Took) ∧ at_prefix (S k) s'.
Proof using Hnum Hlen.
  intros Hs Hi [r Hr]. pose proof (check_frame_own s k k f Hs Hi) as Hc. destruct (proj2 Hnum k f Hi) as (_ & _ & Hf).
  destruct Hs as (He & Hfp & Hk & Hph & Hrecv). pose proof (proj1 Hnum) as [Hn1 Hn2]. pose proof (lookup_lt_Some _ _ _ Hi) as Hlt.
  rewrite (prefix_events_S k f Hi) in Hr. unfold apply_all in Hr, Hrecv. rewrite try_foldl_app, Hrecv in Hr.
  cbn [mbind option_bind] in Hr.
  assert (Hat : ∀ ph, ph = (if decide (S k < nsnap) then Snapshot (Z.of_nat (S k)) else Live (Z.of_nat (S k) - Z.of_nat nsnap)) →
            at_prefix (S k) (advance s r ph)).
  { intros ph ->. split_and!; cbn; [done..|lia|done|]. rewrite (prefix_events_S k f Hi). unfold apply_all.
    rewrite try_foldl_app, Hrecv. exact Hr. }
  destruct f as [c|b]; cbn in Hc, Hf, Hr |- *.
  - unfold apply_snapshot_chunk. rewrite Hc, Hph. destruct Hf as (Hsn & Hix & Hlast).
    rewrite decide_True by lia. rewrite !decide_False by lia. unfold apply_all. rewrite Hr. cbn [mbind option_bind].
    rewrite Hlast. case_bool_decide; cbn [mbind option_bind].
    + eexists. split; [reflexivity|]. apply Hat. rewrite decide_False by lia. f_equal. lia.
    + eexists. split; [reflexivity|]. apply Hat. rewrite decide_True by lia. unfold u64_wrap.
      rewrite Z.mod_small by lia. f_equal. lia.
  - unfold sub_apply. rewrite Hc, Hph. destruct Hf as [Hsq Hw]. destruct (decide (k < nsnap)) as [Hd|Hd].
    + rewrite decide_True by lia. unfold apply_all. rewrite Hr. cbn [mbind option_bind].
      eexists. split; [reflexivity|]. apply Hat. rewrite decide_False by lia. f_equal. lia.
    + unfold u64_wrap. rewrite Z.mod_small by lia. rewrite !decide_False by lia.
      unfold apply_all. rewrite Hr. cbn [mbind option_bind].
      eexists. split; [reflexivity|]. apply Hat. rewrite decide_False by lia. f_equal. lia.
Qed.

(** The frames a network may hand over: published ones, in any order and number,
    and frames of other subscriptions. *)
Definition deliverable (f : Frame) : Prop := f ∈ frames ∨ frame_epoch f ≠ epoch ∨ frame_fp f ≠ fp.

Context (Htotal : is_Some (apply_all (receiver_new schema) (concat (frame_events <$> frames)))).

Lemma prefix_applies k : is_Some (apply_all (receiver_new schema) (prefix_events k)).
Proof using Htotal.
  destruct Htotal as [r Hr]. rewrite <-(take_drop k frames), fmap_app, List.concat_app in Hr.
  unfold apply_all in Hr. rewrite try_foldl_app in Hr. apply bind_Some in Hr as (r' & Hr' & _). by exists r'.
Qed.

(** A frame has one place. *)
Lemma frame_inj i j f : frames !! i = Some f → frames !! j = Some f → i = j.
Proof using Hnum.
  intros Hi Hj. destruct (proj2 Hnum i f Hi) as (_ & _ & H1), (proj2 Hnum j f Hj) as (_ & _ & H2).
  destruct f; destruct H1 as (? & ?), H2 as (? & ?); lia.
Qed.

Lemma deliver_step k s f :
  at_prefix k s → deliverable f →
  ∃ s' k' out, deliver s f = Some (s', out) ∧ at_prefix k' s' ∧ k ≤ k' ∧ (frames !! k = Some f → k' = S k).
Proof using Hnum Hlen Htotal.
  intros Hs [Hin|Hne].
  - apply list_elem_of_lookup in Hin as [i Hi]. destruct (lt_eq_lt_dec i k) as [[Hlt| ->]|Hgt].
    + exists s, k, Again. split_and!; [by eapply deliver_again|done..|]. intros Hk.
      pose proof (frame_inj i k f Hi Hk). lia.
    + destruct (deliver_next s k f Hs Hi (prefix_applies (S k))) as (s' & Hd & Hs').
      exists s', (S k), Took. split_and!; [done..|lia|done].
    + destruct (deliver_gap s k i f Hs Hi Hgt) as (e & g & Hd). exists s, k, (Refused (Gap e g)).
      split_and!; [done..|]. intros Hk. pose proof (frame_inj i k f Hi Hk). lia.
  - destruct (deliver_foreign s k f Hs Hne) as [e He]. exists s, k, (Refused e). split_and!; [done..|].
    intros Hk. destruct (proj2 Hnum k f Hk) as (E1 & E2 & _). tauto.
Qed.

Lemma run_prefix ds : ∀ k s,
  at_prefix k s → Forall deliverable ds →
  ∃ s' k', run s ds = Some s' ∧ at_prefix k' s' ∧ k ≤ k' ∧ (drop k frames `sublist_of` ds → k' = length frames).
Proof using Hnum Hlen Htotal.
  induction ds as [|f ds IH]; intros k s Hs Hds.
  - exists s, k. split_and!; [done..|]. intros Hsub%sublist_nil_r. destruct Hs as (_ & _ & Hk & _).
    apply (f_equal length) in Hsub. rewrite length_drop in Hsub. cbn in Hsub. lia.
  - apply Forall_cons in Hds as [Hf Hds]. destruct (deliver_step k s f Hs Hf) as (s1 & k1 & out & Hd & Hs1 & Hle & Hnext).
    destruct (IH k1 s1 Hs1 Hds) as (s' & k' & Hrun & Hs' & Hle' & Hall).
    exists s', k'. split_and!; [|done|lia|].
    + unfold run. rewrite try_foldl_cons, Hd. cbn. exact Hrun.
    + intros Hsub. apply Hall. destruct (frames !! k) as [g|] eqn:Eg.
      * rewrite (drop_S _ g) in Hsub by done. inversion Hsub as [|? l1 l2 Hs2|? l1 l2 Hs2]; subst.
        -- by rewrite Hnext.
        -- etrans; [|exact Hs2]. destruct (decide (k1 = k)) as [->|]; [by rewrite (drop_S _ g)|].
           replace k1 with (S k + (k1 - S k)) by lia. rewrite <-drop_drop. etrans; [apply sublist_drop|]. by apply sublist_cons.
      * rewrite drop_ge; [apply sublist_nil_l|]. apply lookup_ge_None in Eg. lia.
Qed.
End prefix.

(** ** Published frames are numbered *)

Lemma commits_spec txs : ∀ p,
  (0 ≤ next_seq p)%Z → (next_seq p + Z.of_nat (length (commits p txs)) < 2 ^ 64)%Z →
  concat (frame_events <$> commits p txs) = flatten_all (concat txs) ∧
  ∀ i f, commits p txs !! i = Some f →
    ∃ b, f = FBatch b ∧ b_epoch b = p_epoch p ∧ b_fp b = p_fp p ∧ seq b = (next_seq p + Z.of_nat i)%Z.
Proof.
  induction txs as [|tx txs IH]; intros p H0 Hlen; [by split|]. destruct tx as [|c tx]; [by apply IH|].
  cbn [commits commit emit] in Hlen |- *. cbn [length] in Hlen.
  set (p' := set_next_seq p (u64_wrap (next_seq p + 1))) in *.
  assert (next_seq p' = next_seq p + 1)%Z as Hp' by (cbn; unfold u64_wrap; apply Z.mod_small; lia).
  destruct (IH p') as [Hev Hix]; [lia..|]. split.
  - cbn [fmap list_fmap concat frame_events events]. rewrite Hev. unfold flatten_all. cbn [concat].
    by rewrite map_app.
  - intros [|i] f Hf; cbn in Hf.
    + injection Hf as <-. eexists. split_and!; [done..|]. cbn. lia.
    + destruct (Hix i f Hf) as (b & -> & ? & ? & ?). exists b. split_and!; [done..|]. lia.
Qed.

Lemma div_ceil_step n m : 1 ≤ m → 0 < n → div_ceil n m = S (div_ceil (n - m) m).
Proof.
  intros Hm Hn. unfold div_ceil. destruct (decide (m ≤ n)) as [Hle|Hlt].
  - replace (n + m - 1) with ((n - m + m - 1) + 1 * m) by lia. rewrite Nat.div_add by lia. lia.
  - replace (n - m) with 0 by lia. rewrite (Nat.div_small (0 + m - 1)) by lia.
    replace (n + m - 1) with ((n - 1) + 1 * m) by lia. rewrite Nat.div_add by lia.
    rewrite (Nat.div_small (n - 1)) by lia. lia.
Qed.

Lemma length_chunks_fuel {A} fuel m (l : list A) :
  1 ≤ m → length l ≤ fuel → length (chunks_fuel fuel m l) = div_ceil (length l) m.
Proof.
  intros Hm. revert l. induction fuel as [|fuel IH]; intros [|x l] Hl; cbn in Hl; try lia.
  - cbn. unfold div_ceil. rewrite Nat.div_small; cbn; lia.
  - cbn. unfold div_ceil. rewrite Nat.div_small; cbn; lia.
  - cbn [chunks_fuel length]. rewrite IH by (rewrite length_drop; cbn; lia).
    rewrite length_drop, (div_ceil_step (length (x :: l))) by (cbn; lia). done.
Qed.

Lemma length_chunks {A} m (l : list A) : 1 ≤ m → length (chunks m l) = div_ceil (length l) m.
Proof. intros. by apply length_chunks_fuel. Qed.

(** The frames of a chunked snapshot. *)
Lemma snapshot_chunks_spec p caught m p' cs :
  snapshot_chunks p caught m = Some (p', cs) →
  p' = set_next_seq p 1 ∧ 1 ≤ length cs ∧ concat (frame_events <$> (FChunk <$> cs)) = flatten_all caught ∧
  ∀ i c, cs !! i = Some c → frame_at (p_epoch p) (p_fp p) (length cs) i (FChunk c).
Proof.
  unfold snapshot_chunks. case_decide as Hm; [|done]. destruct (flatten_all caught) as [|e es] eqn:Ees.
  - intros [= <- <-]. split_and!; [done|cbn; lia|done|]. intros [|i] c Hc; [|done]. cbn in Hc. injection Hc as <-.
    split_and!; cbn; [done..|lia|done|done].
  - set (evs := e :: es) in *. intros H. apply (inj Some), pair_equal_spec in H as [<- <-]. rewrite length_imap.
    pose proof (length_chunks m evs Hm) as Hl. split_and!; [done|..].
    + rewrite Hl, div_ceil_step by (cbn; lia). lia.
    + transitivity (concat (chunks m evs)); [f_equal|by apply chunks_concat]. apply list_eq. intros i.
      rewrite !list_lookup_fmap, list_lookup_imap. by destruct (chunks m evs !! i).
    + intros i c Hc. rewrite list_lookup_imap in Hc. destruct (chunks m evs !! i) as [sl|] eqn:Esl; [|done].
      cbn in Hc. injection Hc as <-. apply lookup_lt_Some in Esl.
      do 2 (split; [done|]). split; [done|]. split; [done|]. cbn [is_last]. by rewrite Hl.
Qed.

Lemma publish_spec p mode snap txs frames :
  next_seq p = 0%Z → publish p mode snap txs = Some frames → (Z.of_nat (length frames) < 2 ^ 64)%Z →
  concat (frame_events <$> frames) = flatten_all (snap ++ concat txs) ∧
  ∃ nsnap, numbered (p_epoch p) (p_fp p) nsnap frames.
Proof.
  intros H0 Hpub Hlen. unfold flatten_all. rewrite map_app. destruct mode as [|m]; cbn [publish] in Hpub.
  - unfold snapshot, emit in Hpub. injection Hpub as <-. cbn [length] in Hlen.
    set (p' := set_next_seq p _) in *. assert (next_seq p' = 1%Z) as Hp' by (cbn; by rewrite H0).
    destruct (commits_spec txs p') as [Hev Hix]; [lia..|]. split; [cbn; by rewrite Hev|].
    exists 1. split; [cbn; lia|]. intros [|i] f Hf; cbn in Hf.
    + injection Hf as <-. split_and!; cbn; [done..| |by right]. rewrite H0. lia.
    + destruct (Hix i f Hf) as (b & -> & ? & ? & ?). split_and!; cbn; [done..|lia|lia].
  - apply bind_Some in Hpub as ([p' cs] & Hcs & Hpub). injection Hpub as <-.
    destruct (snapshot_chunks_spec _ _ _ _ _ Hcs) as (-> & Hc1 & Hcev & Hcix).
    rewrite length_app, length_fmap in Hlen.
    destruct (commits_spec txs (set_next_seq p 1)) as [Hev Hix]; [cbn; lia..|].
    split; [by rewrite fmap_app, List.concat_app, Hcev, Hev|].
    exists (length cs). split; [rewrite length_app, length_fmap; lia|].
    intros i f Hf. apply lookup_app_Some in Hf as [Hf|[Hi Hf]].
    + rewrite list_lookup_fmap in Hf. destruct (cs !! i) as [c|] eqn:Ec; [|done]. cbn in Hf. injection Hf as <-.
      by apply Hcix.
    + rewrite length_fmap in Hi, Hf. destruct (Hix _ _ Hf) as (b & -> & ? & ? & Hsq).
      split_and!; cbn; [done..| |by left]. rewrite Hsq. cbn. lia.
Qed.

(** ** The schema that travelled *)

Lemma receiver_part_sort s : schema_sort (receiver_part s) = schema_sort s.
Proof. by destruct s. Qed.

Lemma receiver_part_slots s : length (relationships (receiver_part s)) = length (relationships s).
Proof. destruct s. cbn. apply length_map. Qed.

Lemma receiver_part_child s slot : rel_child (receiver_part s) slot = receiver_part <$> rel_child s slot.
Proof.
  destruct s as [cols types pk sort rels one proj]. unfold rel_child. cbn.
  change (map ?f rels) with (f <$> rels). rewrite list_lookup_fmap.
  destruct (rels !! slot) as [[n [c|] p]|]; done.
Qed.

Lemma try_foldl_ext {A B} (f g : B → A → option B) l b :
  Forall (λ x, ∀ b, f b x = g b x) l → try_foldl f b l = try_foldl g b l.
Proof.
  intros Hl. revert b. induction Hl as [|x l Hx _ IH]; intros b; [done|].
  rewrite !try_foldl_cons, Hx. destruct (g b x); cbn; [apply IH|done].
Qed.

Lemma build_node_receiver_part n : ∀ s, build_node n (receiver_part s) = build_node n s.
Proof.
  induction n as [r rels IH] using wire_node_level_ind. intros s. cbn [build_node]. rewrite receiver_part_slots.
  f_equal. apply try_foldl_ext. eapply Forall_impl; [exact IH|]. intros [slot children] Hc acc. cbn in Hc |- *.
  rewrite receiver_part_child. destruct (rel_child s slot) as [cs|]; [|done]. cbn. f_equal. apply try_foldl_ext.
  eapply Forall_impl; [exact Hc|]. intros c Hcs l. unfold build_child. by rewrite receiver_part_sort, Hcs.
Qed.

Lemma apply_at_receiver_part path : ∀ s l o, apply_at l (receiver_part s) path o = apply_at l s path o.
Proof.
  induction path as [|seg rest IH]; intros s l o; cbn [apply_at].
  - destruct o as [n|r|old new]; cbn [apply_op].
    + unfold Flat.apply_add. by rewrite receiver_part_sort, build_node_receiver_part.
    + unfold Flat.apply_remove. by rewrite receiver_part_sort.
    + unfold Flat.apply_edit. by rewrite receiver_part_sort.
  - rewrite receiver_part_child, receiver_part_sort. destruct (rel_child s (seg_rel seg)) as [cs|]; [|done]. cbn.
    destruct (Flat.binary_search _ _ _) as [pos|]; [|done]. destruct (l !! pos) as [n|]; [|done]. cbn.
    destruct (recv_rels n !! seg_rel seg) as [sub|]; [|done]. cbn. by rewrite IH.
Qed.

Lemma apply_all_receiver_part s cs : ∀ t,
  apply_all (MkReceiver (receiver_part s) t) cs =
  (λ r, MkReceiver (receiver_part s) (top r)) <$> apply_all (MkReceiver s t) cs.
Proof.
  assert (Hap : ∀ S t c, receiver_apply (MkReceiver S t) c = MkReceiver S <$> apply_at t S (path c) (op c)).
  { intros S t c. unfold receiver_apply. cbn. by destruct (apply_at _ _ _ _). }
  unfold apply_all. induction cs as [|c cs IH]; intros t; [done|]. rewrite !try_foldl_cons, !Hap.
  rewrite apply_at_receiver_part. destruct (apply_at t s (path c) (op c)) as [t'|]; [|done]. cbn. apply IH.
Qed.

(** ** Opening *)

Lemma open_hello epoch s p :
  publisher_new epoch s = Some p → indices_fit s = true →
  open (hello p) = Some (inr (MkSubscriber epoch (p_fp p) (receiver_new (receiver_part s)) (Snapshot 0))) ∧
  p_epoch p = epoch ∧ next_seq p = 0%Z.
Proof.
  intros Hp Hfit. unfold publisher_new in Hp. apply bind_Some in Hp as (fp & Hfp & Hp). injection Hp as <-.
  unfold open, hello. cbn [comparator_version h_schema h_fp h_epoch p_epoch p_schema p_fp next_seq].
  rewrite decide_False by (intros H; done). rewrite Hfp. cbn [mbind option_bind].
  rewrite decide_False by (intros H; done). by rewrite to_schema_wire.
Qed.

(** ** The theorems *)

(** What a subscriber does with each frame, wherever it stands: a frame of another
    epoch or schema is refused, one already applied is dropped, one beyond the
    next is refused as a gap, all leaving the subscriber as it was, and the next
    one is applied (or panics with the receiver if the stream is inconsistent). *)
Theorem deliver_outcomes epoch fp nsnap frames schema k s f :
  numbered epoch fp nsnap frames → (Z.of_nat (length frames) < 2 ^ 64)%Z →
  at_prefix epoch fp nsnap frames schema k s →
  (frame_epoch f ≠ epoch ∨ frame_fp f ≠ fp → ∃ e, deliver s f = Some (s, Refused e)) ∧
  ∀ i, frames !! i = Some f →
    match Nat.compare i k with
    | Lt => deliver s f = Some (s, Again)
    | Gt => ∃ e g, deliver s f = Some (s, Refused (Gap e g))
    | Eq => is_Some (apply_all (recv s) (frame_events f)) →
            ∃ s', deliver s f = Some (s', Took) ∧ at_prefix epoch fp nsnap frames schema (S k) s'
    end.
Proof.
  intros Hnum Hlen Hs. split; [by eapply deliver_foreign|]. intros i Hi.
  destruct (Nat.compare_spec i k) as [->|Hlt|Hgt].
  - intros [r Hr]. eapply deliver_next; [done..|]. rewrite (prefix_events_S _ k f Hi). unfold apply_all.
    rewrite try_foldl_app. destruct Hs as (_ & _ & _ & _ & Hrecv). unfold apply_all in Hrecv. rewrite Hrecv.
    by exists r.
  - by eapply deliver_again.
  - by eapply deliver_gap.
Qed.

(** [C17] Whatever the network does, a subscriber holds the tree of a prefix of the
    published frames: after any sequence of deliveries, with losses, repeats,
    reorderings and frames of other subscriptions, its tree is what a receiver
    makes of the first [k] frames, and it says the snapshot is complete exactly
    when all of the snapshot is in that prefix. *)
Theorem subscriber_holds_prefix epoch s p mode snap txs frames ds :
  publisher_new epoch s = Some p → indices_fit s = true →
  publish p mode snap txs = Some frames → (Z.of_nat (length frames) < 2 ^ 64)%Z →
  is_Some (apply_all (receiver_new s) (flatten_all (snap ++ concat txs))) →
  Forall (deliverable epoch (p_fp p) frames) ds →
  ∃ nsnap sub0 sub k, numbered epoch (p_fp p) nsnap frames ∧ open (hello p) = Some (inr sub0) ∧
    run sub0 ds = Some sub ∧ k ≤ length frames ∧
    (snapshot_complete sub = true ↔ nsnap ≤ k) ∧
    apply_all (receiver_new (receiver_part s)) (concat (frame_events <$> take k frames)) = Some (recv sub).
Proof.
  intros Hp Hfit Hpub Hlen Htot Hds. destruct (open_hello _ _ _ Hp Hfit) as (Hopen & He & H0).
  destruct (publish_spec _ _ _ _ _ H0 Hpub Hlen) as (Hev & nsnap & Hnum). rewrite He in Hnum. rewrite <-Hev in Htot.
  assert (Htot' : is_Some (apply_all (receiver_new (receiver_part s)) (concat (frame_events <$> frames)))).
  { unfold receiver_new. rewrite apply_all_receiver_part. by apply fmap_is_Some. }
  destruct (run_prefix _ _ _ _ _ Hnum Hlen Htot' ds 0 (MkSubscriber epoch (p_fp p) (receiver_new (receiver_part s)) (Snapshot 0)))
    as (sub & k & Hrun & Hs & _ & _); [|done|].
  { destruct Hnum as [[? _] _]. split_and!; cbn; [done..|lia| |done]. by rewrite decide_True by lia. }
  exists nsnap, (MkSubscriber epoch (p_fp p) (receiver_new (receiver_part s)) (Snapshot 0)), sub, k.
  destruct Hs as (_ & _ & Hk & Hph & Hrecv). split_and!; [done..| |done].
  unfold snapshot_complete. rewrite Hph. case_decide; split; try done; lia.
Qed.

(** [C1] End to end: hydrate a view from any nodes, drive it through any transactions,
    frame the snapshot (whole or in chunks) and the transactions, and let the
    network hand over the frames with anything in between, as long as they come
    through in order at least once.  The subscriber then reports the snapshot
    complete and holds exactly the view's tree, although only the wire form of
    the schema reached it. *)
Theorem subscriber_follows_view epoch s p mode rt nodes txs evs v frames ds :
  publisher_new epoch s = Some p → indices_fit s = true →
  Forall distinct_slots nodes → Forall distinct_change (concat txs) → pushes evs = concat txs →
  (v ← hydrate_from (view_new s rt) nodes; try_foldl view_step v evs) = Some v →
  publish p mode (expand_change <$> (Add <$> nodes)) (map (map expand_change) txs) = Some frames →
  (Z.of_nat (length frames) < 2 ^ 64)%Z →
  Forall (deliverable epoch (p_fp p) frames) ds → frames `sublist_of` ds →
  ∃ sub0 sub l, open (hello p) = Some (inr sub0) ∧ run sub0 ds = Some sub ∧
    snapshot_complete sub = true ∧ data v = Some l ∧ top (recv sub) = erase_list l.
Proof.
  intros Hp Hfit Hn Hd Hpush Hv Hpub Hlen Hds Hsub. destruct (open_hello _ _ _ Hp Hfit) as (Hopen & He & H0).
  destruct (publish_spec _ _ _ _ _ H0 Hpub Hlen) as (Hev & nsnap & Hnum). rewrite He in Hnum.
  rewrite <-Hpush in Hd. pose proof (view_and_receiver s rt nodes evs Hn Hd) as Hsim. rewrite Hv, Hpush in Hsim.
  replace (flatten_all (expand_change <$> _)) with (concat (frame_events <$> frames)) in Hsim.
  2: { rewrite Hev. f_equal. rewrite fmap_app. f_equal. by rewrite List.concat_map. }
  inversion Hsim as [v' r (Hs & l & Hroot & Hl & _) Ev Er|]; subst v'.
  assert (Htot : apply_all (receiver_new (receiver_part s)) (concat (frame_events <$> frames)) =
                 Some (MkReceiver (receiver_part s) (top r))).
  { unfold receiver_new. rewrite apply_all_receiver_part. unfold receiver_new in Er. by rewrite <-Er. }
  destruct (run_prefix _ _ _ _ _ Hnum Hlen (ex_intro _ _ Htot) ds 0
    (MkSubscriber epoch (p_fp p) (receiver_new (receiver_part s)) (Snapshot 0)))
    as (sub & k & Hrun & Hat & _ & Hall); [|done|].
  { destruct Hnum as [[? _] _]. split_and!; cbn; [done..|lia| |done]. by rewrite decide_True by lia. }
  rewrite (Hall Hsub) in Hat. destruct Hat as (_ & _ & _ & Hph & Hrecv).
  eexists _, sub, l. split; [exact Hopen|]. split; [exact Hrun|]. destruct Hnum as [[_ Hnl] _]. split_and!.
  - unfold snapshot_complete. rewrite Hph. by rewrite decide_False by lia.
  - unfold data, view_data. by rewrite Hroot.
  - unfold prefix_events in Hrecv. rewrite firstn_all, Htot in Hrecv. injection Hrecv as <-. by rewrite Hl.
Qed.

(** ** Witnesses: two rows, a nested remove, chunks of one, every frame sent twice *)

Definition ex_publisher : Publisher :=
  Eval vm_compute in default (MkPublisher 0 (to_wire nest_schema) 0 0) (publisher_new 5 nest_schema).

Definition ex_snap : list CaughtChange := expand_change <$> (Add <$> ex_nodes).

Definition ex_txs : list (list change) := [[]; [ex_change]].

Definition ex_frames : list Frame :=
  Eval vm_compute in default [] (publish ex_publisher (Chunked 1) ex_snap (map (map expand_change) ex_txs)).

Definition ex_synced : View :=
  Eval vm_compute in
    default (view_new nest_schema Complete)
      (v ← hydrate_from (view_new nest_schema Complete) ex_nodes; try_foldl view_step v [Push ex_change; Flush]).

Lemma ex_deliverable : Forall (deliverable 5 (p_fp ex_publisher) ex_frames) (ex_frames ++ ex_frames).
Proof. apply Forall_app; split; apply Forall_forall; intros f Hf; by left. Qed.

Lemma ex_distinct : Forall distinct_change (concat ex_txs).
Proof. repeat constructor. Qed.

Lemma subscriber_follows_view_witness :
  ∃ sub0 sub l, open (hello ex_publisher) = Some (inr sub0) ∧ run sub0 (ex_frames ++ ex_frames) = Some sub ∧
    snapshot_complete sub = true ∧ data ex_synced = Some l ∧ top (recv sub) = erase_list l.
Proof.
  apply (subscriber_follows_view 5 nest_schema ex_publisher (Chunked 1) Complete ex_nodes ex_txs
           [Push ex_change; Flush] ex_synced ex_frames (ex_frames ++ ex_frames)).
  - vm_compute; reflexivity.
  - vm_compute; reflexivity.
  - exact ex_nodes_distinct.
  - exact ex_distinct.
  - reflexivity.
  - vm_compute; reflexivity.
  - vm_compute; reflexivity.
  - vm_compute; reflexivity.
  - exact ex_deliverable.
  - apply sublist_inserts_r. reflexivity.
Defined.

Lemma subscriber_holds_prefix_witness :
  ∃ nsnap sub0 sub k, numbered 5 (p_fp ex_publisher) nsnap ex_frames ∧ open (hello ex_publisher) = Some (inr sub0) ∧
    run sub0 (reverse ex_frames ++ ex_frames) = Some sub ∧ k ≤ length ex_frames ∧
    (snapshot_complete sub = true ↔ nsnap ≤ k) ∧
    apply_all (receiver_new (receiver_part nest_schema)) (concat (frame_events <$> take k ex_frames)) = Some (recv sub).
Proof.
  apply (subscriber_holds_prefix 5 nest_schema ex_publisher (Chunked 1) ex_snap (map (map expand_change) ex_txs) ex_frames).
  - vm_compute; reflexivity.
  - vm_compute; reflexivity.
  - vm_compute; reflexivity.
  - vm_compute; reflexivity.
  - vm_compute. eexists. reflexivity.
  - apply Forall_app; split; apply Forall_forall; intros f Hf; left; [by apply elem_of_reverse|done].
Defined.

Lemma ex_numbered : numbered 5 (p_fp ex_publisher) 2 ex_frames.
Proof.
  split; [vm_compute; lia|]. intros [|[|[|i]]] f Hf; cbn in Hf; try discriminate Hf; injection Hf as <-;
    (split; [reflexivity|split; [reflexivity|]]).
  - split; [lia|split; reflexivity].
  - split; [lia|split; reflexivity].
  - split; [reflexivity|left; lia].
Qed.

Definition ex_sub : Subscriber :=
  MkSubscriber 5 (p_fp ex_publisher) (receiver_new nest_schema) (Snapshot 0).

Lemma ex_sub_at : at_prefix 5 (p_fp ex_publisher) 2 ex_frames nest_schema 0 ex_sub.
Proof. split_and!; [reflexivity|reflexivity|vm_compute; lia|reflexivity|reflexivity]. Qed.

Definition ex_frame : Frame := Eval vm_compute in default (FBatch (MkBatch 0 0 0 [])) (head ex_frames).

Lemma deliver_outcomes_witness :
  ∃ s', deliver ex_sub ex_frame = Some (s', Took) ∧
    at_prefix 5 (p_fp ex_publisher) 2 ex_frames nest_schema 1 s'.
Proof.
  apply (proj2 (deliver_outcomes 5 (p_fp ex_publisher) 2 ex_frames nest_schema 0 ex_sub ex_frame ex_numbered
    eq_refl ex_sub_at) 0).
  - reflexivity.
  - vm_compute. eexists. reflexivity.
Defined.
