(* ===== verification/Take.v ===== *)
(** * Take: the first rows of every partition ([rust/src/op/take.rs])

    [LIMIT]: per partition, the first [limit] rows of the input in its order.
    The operator stores, per partition, how many rows it let through and the last
    of them, and the largest bound of all partitions.  A push may fetch from the
    input, which already shows the change, and every change it emits may be
    answered by a fetch through the operator while the push is under way.

    The input is the function [input_fetch], a stream being the list it yields;
    [deadline i] is the answer of the push deadline when the refill scan asks for
    the [i]-th time.  A run is the final state with the list of what it pushed
    downstream, each entry with the state at that moment: the state a reentrant
    fetch reads.  A failed [expect], [assert!] or [unreachable!] and an index out
    of range are [None]; sizes are [u32]. *)

From stdpp Require Import base list numbers option sorting sets strings.
From Stdlib Require Import ZArith Lia Strings.Byte.
From S2P Require Import Prelude Values Rows BTree BTreeFacts Change Connections Errors Flat OrdMap Storage Partition.

#[local] Open Scope Z_scope.

(** "maxBound" and "take" *)
Definition MAX_BOUND_KEY : storage_key := [x6d; x61; x78; x42; x6f; x75; x6e; x64].
Definition take_prefix : list byte := [x74; x61; x6b; x65].

Record TakeOp := MkTake {
  tk_input : nat;
  tk_storage : nat;
  tk_limit : Z;
  tk_partition_key : option (list nat);
  tk_output : option OutEdge;
  tk_sort : Sort
}.

Definition take_new (input storage : nat) (limit : Z) (pk : option (list nat)) (sort : Sort) : TakeOp :=
  MkTake input storage limit pk None sort.

(** What a push changes: the operator's storage slot, [row_hidden_from_fetch],
    and the graph's parked error. *)
Record TakeSt (St : Type) := MkTakeSt {
  ts_store : St;
  ts_hidden : option row;
  ts_error : option RindleError
}.

Arguments MkTakeSt {_} _ _ _.
Arguments ts_store {_} _.
Arguments ts_hidden {_} _.
Arguments ts_error {_} _.

(** [park_runtime_error]: the first error wins. *)
Definition park_error {St} (s : TakeSt St) (err : RindleError) : TakeSt St :=
  MkTakeSt (ts_store s) (ts_hidden s) (Some (default err (ts_error s))).

Definition with_hidden {St} (s : TakeSt St) (h : option row) : TakeSt St :=
  MkTakeSt (ts_store s) h (ts_error s).

Definition deadline_error : RindleError := PushDeadlineExceeded "take backfill scan"%string.

Section take.
Context {St : Type} `{!Storage St}.
Context (input_fetch : FetchRequest → list node) (deadline : nat → bool).
Context (tk : TakeOp).

#[local] Abbreviation cmp := (row_cmp (tk_sort tk)).
#[local] Abbreviation state := (TakeSt St).

(** What was pushed downstream: the edge, the change, the state meanwhile. *)
Abbreviation take_log := (list (OutEdge * change * TakeSt St)).

(** ** Storage helpers *)

(** The outer [None] is [unreachable!]. *)
Definition get_state (s : state) (key : storage_key) : option (option (Z * option row)) :=
  match st_get key (ts_store s) with
  | None => Some None
  | Some (SvTake size bound) => Some (Some (size, bound))
  | Some _ => None
  end.

Definition get_max_bound (s : state) : option (option row) :=
  match st_get MAX_BOUND_KEY (ts_store s) with
  | None => Some None
  | Some (SvBound r) => Some (Some r)
  | Some _ => None
  end.

Definition set_state (s : state) (key : storage_key) (size : Z) (bound max_bound : option row) : state :=
  let st := st_set key (SvTake size bound) (ts_store s) in
  let st :=
    match bound with
    | Some b =>
        if match max_bound with Some mb => is_gt (cmp b mb) | None => true end
        then st_set MAX_BOUND_KEY (SvBound b) st else st
    | None => st
    end in
  MkTakeSt st (ts_hidden s) (ts_error s).

Definition key_from_row (r : row) : option storage_key :=
  match tk_partition_key tk with
  | None => Some (encode_state_key take_prefix [])
  | Some pk => vals ← mapM (λ c, r !! c) pk; Some (encode_state_key take_prefix vals)
  end.

Definition key_from_constraint (c : option Constraint) : storage_key :=
  match tk_partition_key tk, c with
  | Some pk, Some c => encode_state_key take_prefix (map (λ col, default Null (assoc c col)) pk)
  | _, _ => encode_state_key take_prefix []
  end.

Definition constraint_for (r : row) : option (option Constraint) :=
  match tk_partition_key tk with
  | None => Some None
  | Some pk => c ← mapM (λ col, v ← r !! col; Some (col, v)) pk; Some (Some c)
  end.

Definition fetch_n (bound : row) (b : Basis) (constraint : option Constraint) (reverse : bool) (n : nat) :
    list node :=
  take n (input_fetch (MkFetch constraint [] (Some (MkStart bound b)) reverse)).

(** ** Fetch *)

(** The [for] loop of [initial_fetch]: [size] rows are out already. *)
Fixpoint take_first (size : Z) (bound : option row) (ns : list node) : list node * Z * option row :=
  match ns with
  | [] => ([], size, bound)
  | n :: ns =>
      let size := u32_add size 1 in
      if size =? tk_limit tk then ([n], size, Some (node_row n))
      else
        let '(out, size, bound) := take_first size (Some (node_row n)) ns in
        (n :: out, size, bound)
  end.

Definition initial_fetch (s : state) (req : FetchRequest) : option (state * list node) :=
  if tk_limit tk =? 0 then Some (s, [])
  else
    let key := key_from_constraint (req_constraint req) in
    let '(out, size, bound) := take_first 0 None (input_fetch req) in
    max_bound ← get_max_bound s;
    Some (set_state s key size bound max_bound, out).

(** The [filter_map] of the regime bounded by [MAX_BOUND]. *)
Fixpoint within_own_bound (s : state) (ns : list node) : option (list node) :=
  match ns with
  | [] => Some []
  | n :: ns =>
      key ← key_from_row (node_row n);
      st ← get_state s key;
      out ← within_own_bound s ns;
      Some (match st with
            | Some (_, Some bound) => if is_lt (cmp bound (node_row n)) then out else n :: out
            | _ => out
            end)
  end.

Definition partition_match (req : FetchRequest) : bool :=
  match tk_partition_key tk with
  | None => true
  | Some pk =>
      match req_constraint req with
      | Some c => constraint_matches_partition_key c pk
      | None => false
      end
  end.

Definition not_hidden (s : state) (n : node) : bool :=
  match ts_hidden s with
  | Some h => negb (is_eq (cmp h (node_row n)))
  | None => true
  end.

Definition take_fetch (s : state) (req : FetchRequest) : option (state * list node) :=
  if partition_match req then
    let key := key_from_constraint (req_constraint req) in
    st ← get_state s key;
    match st with
    | None => initial_fetch s req
    | Some (_, None) => Some (s, [])
    | Some (_, Some bound) =>
        Some (s, filter (λ n, not_hidden s n = true)
                   (take_while (λ n, negb (is_lt (cmp bound (node_row n)))) (input_fetch req)))
    end
  else
    mb ← get_max_bound s;
    match mb with
    | None => Some (s, [])
    | Some max_bound =>
        out ← within_own_bound s
                (take_while (λ n, negb (is_gt (cmp (node_row n) max_bound))) (input_fetch req));
        Some (s, out)
    end.

Definition evict_partition (s : state) (c : Constraint) : state :=
  match tk_partition_key tk with
  | None => s
  | Some pk =>
      if constraint_matches_partition_key c pk
      then MkTakeSt (st_del (key_from_constraint (Some c)) (ts_store s)) (ts_hidden s) (ts_error s)
      else s
  end.

(** ** Push *)

Definition emit (out : OutEdge) (s : state) (c : change) : take_log := [(out, c, s)].

(** The guard clears the hidden row when the push is over. *)
Definition push_with_row_hidden (s : state) (r : row) (out : OutEdge) (c : change) : state * take_log :=
  (with_hidden s None, emit out (with_hidden s (Some r)) c).

Definition take_push_add (s : state) (n : node) (out : OutEdge) (key : storage_key) (size : Z)
    (bound max_bound : option row) (constraint : option Constraint) : option (state * take_log) :=
  if size <? tk_limit tk then
    let new_bound :=
      match bound with
      | Some b => if is_lt (cmp b (node_row n)) then node_row n else b
      | None => node_row n
      end in
    let s := set_state s key (u32_add size 1) (Some new_bound) max_bound in
    Some (s, emit out s (Add n))
  else
    match bound with
    | Some b =>
        if is_lt (cmp (node_row n) b) then
          let found := if tk_limit tk =? 1 then fetch_n b At constraint false 1
                       else fetch_n b At constraint true 2 in
          match found with
          | [] => None
          | bound_node :: before =>
              let new_bound :=
                match before with
                | bbn :: _ => if is_gt (cmp (node_row n) (node_row bbn)) then node_row n else node_row bbn
                | [] => node_row n
                end in
              let s := set_state s key size (Some new_bound) max_bound in
              let '(s, l1) := push_with_row_hidden s (node_row n) out (Remove bound_node) in
              Some (s, l1 ++ emit out s (Add n))
          end
        else Some (s, [])
    | None => Some (s, [])
    end.

(** The forward scan for a refill, from the [i]-th poll of the deadline:
    [inl tt] when it has passed. *)
Fixpoint backfill_scan (i : nat) (bound : row) (ns : list node) (acc : option (node * bool)) :
    unit + option (node * bool) :=
  match ns with
  | [] => inr acc
  | n :: ns =>
      if deadline i then inl tt
      else
        if is_gt (cmp (node_row n) bound) then inr (Some (n, true))
        else backfill_scan (S i) bound ns (Some (n, false))
  end.

Definition take_push_remove (s : state) (n : node) (out : OutEdge) (key : storage_key) (size : Z)
    (bound max_bound : option row) (constraint : option Constraint) : option (state * take_log) :=
  match bound with
  | None => Some (s, [])
  | Some bound =>
      if is_gt (cmp (node_row n) bound) then Some (s, [])
      else
        let before :=
          match fetch_n bound After constraint true 1 with
          | bbn :: _ => Some (bbn, is_gt (cmp (node_row bbn) bound))
          | [] => None
          end in
        let scanned :=
          match before with
          | Some (_, true) => inr before
          | _ => backfill_scan 0 bound
                   (input_fetch (MkFetch constraint [] (Some (MkStart bound At)) false)) before
          end in
        match scanned with
        | inl _ => Some (park_error s deadline_error, [])
        | inr (Some (refill, true)) =>
            let l1 := emit out s (Remove n) in
            let s := set_state s key size (Some (node_row refill)) max_bound in
            Some (s, l1 ++ emit out s (Add refill))
        | inr other =>
            let new_b := (λ p : node * bool, node_row p.1) <$> other in
            let partitioned := match tk_partition_key tk with Some _ => true | None => false end in
            let s :=
              if partitioned && (u32_sub size 1 =? 0)
              then MkTakeSt (st_del key (ts_store s)) (ts_hidden s) (ts_error s)
              else set_state s key (u32_sub size 1) new_b max_bound in
            Some (s, emit out s (Remove n))
        end
  end.

(** The bound-crossing matrix. *)
Definition take_push_edit (s : state) (n old : node) : option (state * take_log) :=
  out ← tk_output tk;
  key ← key_from_row (node_row old);
  st ← get_state s key;
  match st with
  | None => Some (s, [])
  | Some (_, None) => None
  | Some (size, Some bound) =>
      max_bound ← get_max_bound s;
      constraint ← constraint_for (node_row old);
      let replace_and_forward :=
        let s := set_state s key size (Some (node_row n)) max_bound in
        Some (s, emit out s (Edit n old)) in
      let forward := Some (s, emit out s (Edit n old)) in
      match cmp (node_row old) bound, cmp (node_row n) bound with
      | Eq, Eq => forward
      | Eq, Lt =>
          if tk_limit tk =? 1 then replace_and_forward
          else
            bbn ← head (fetch_n bound After constraint true 1);
            let s := set_state s key size (Some (node_row bbn)) max_bound in
            Some (s, emit out s (Edit n old))
      | Eq, Gt =>
          nbn ← head (fetch_n bound At constraint false 1);
          if is_eq (cmp (node_row nbn) (node_row n)) then replace_and_forward
          else
            let s := set_state s key size (Some (node_row nbn)) max_bound in
            let '(s, l1) := push_with_row_hidden s (node_row nbn) out (Remove old) in
            Some (s, l1 ++ emit out s (Add nbn))
      | Gt, Gt => Some (s, [])
      | Gt, _ =>
          match fetch_n bound At constraint true 2 with
          | old_bound_node :: new_bound_node :: _ =>
              let s := set_state s key size (Some (node_row new_bound_node)) max_bound in
              let '(s, l1) := push_with_row_hidden s (node_row n) out (Remove old_bound_node) in
              Some (s, l1 ++ emit out s (Add n))
          | _ => None
          end
      | Lt, Lt => forward
      | Lt, _ =>
          abn ← head (fetch_n bound After constraint false 1);
          if is_eq (cmp (node_row abn) (node_row n)) then replace_and_forward
          else
            let l1 := emit out s (Remove old) in
            let s := set_state s key size (Some (node_row abn)) max_bound in
            Some (s, l1 ++ emit out s (Add abn))
      end
  end.

Definition take_push (s : state) (c : change) : option (state * take_log) :=
  let dispatch (r : row) (k : OutEdge → storage_key → Z → option row → option row → option Constraint →
      option (state * take_log)) :=
    key ← key_from_row r;
    st ← get_state s key;
    match st with
    | None => Some (s, [])
    | Some (size, bound) =>
        max_bound ← get_max_bound s;
        constraint ← constraint_for r;
        out ← tk_output tk;
        k out key size bound max_bound constraint
    end in
  match c with
  | Edit n old => take_push_edit s n old
  | Add n => dispatch (node_row n) (take_push_add s n)
  | Remove n => dispatch (node_row n) (take_push_remove s n)
  | Child n rel child =>
      dispatch (node_row n) (λ out key size bound max_bound constraint,
        Some (s, match bound with
                 | Some b => if is_gt (cmp (node_row n) b) then [] else emit out s (Child n rel child)
                 | None => []
                 end))
  end.
End take.
