(* ===== verification/TakeFacts.v ===== *)
(** * Take keeps the first rows of its input

    A push through [Take] turns the first [limit] rows of a partition before the
    change into the first [limit] rows after it: never more than [limit] rows are
    out at any moment, and every fetch made while a change is on its way
    downstream reads what the consumer holds once it has applied that change. *)

From stdpp Require Import base list numbers option sorting sets.
From Stdlib Require Import ZArith Lia Strings.Byte.
From S2P Require Import Prelude Values Rows BTree BTreeFacts BTreeCursor Change Connections Overlay Errors Push MemorySourceFacts SourceFetch Flat OrdMap Storage Partition Take.

#[local] Open Scope Z_scope.
#[local] Open Scope nat_scope.

(** ** Scans of a sorted list *)

(** What a fetch with a start yields of the rows [L]. *)
Definition scan (sort : Sort) (st : option Start) (rev : bool) (L : list row) : list row :=
  let out := keep (start_ok st sort rev) L in if rev then reverse out else out.

Section scans.
Context (sort : Sort).
#[local] Abbreviation cmp := (row_cmp sort).
#[local] Abbreviation all_lt b := (Forall (λ x, cmp x b = Lt)).
#[local] Abbreviation all_eq b := (Forall (λ x, cmp x b = Eq)).
#[local] Abbreviation all_gt b := (Forall (λ x, cmp x b = Gt)).
Implicit Types (b x r m : row) (A M R L : list row).

Lemma keep_const (f : row → bool) (a : bool) L :
  Forall (λ x, f x = a) L → keep f L = if a then L else [].
Proof.
  intros H. destruct a; [apply keep_all; eapply Forall_impl; [exact H|]; intros x Hx; by rewrite Hx|].
  induction H as [|x L Hx _ IH]; [done|]. rewrite keep_cons, Hx. done.
Qed.

Lemma scan_none rev L : scan sort None rev L = if rev then reverse L else L.
Proof. unfold scan. rewrite (keep_const _ true); [done|]. by apply Forall_true. Qed.

(** A list cut at [b]: below, tied, above. *)
Record cut (b : row) (A M R : list row) : Prop := {
  cut_lt : all_lt b A;
  cut_eq : all_eq b M;
  cut_gt : all_gt b R
}.

Lemma scan_cut (st : Basis) rev b A M R :
  cut b A M R →
  scan sort (Some (MkStart b st)) rev (A ++ M ++ R) =
    match st, rev with
    | At, false => M ++ R
    | After, false => R
    | At, true => reverse (A ++ M)
    | After, true => reverse A
    end.
Proof.
  intros [HA HM HR]. unfold scan.
  assert (∀ c L, Forall (λ x, cmp x b = c) L →
    keep (start_ok (Some (MkStart b st)) sort rev) L =
      if match st with At => negb (is_lt (if rev then CompOpp c else c))
                     | After => is_gt (if rev then CompOpp c else c) end then L else []) as Hk.
  { intros c L HL. apply keep_const. eapply Forall_impl; [exact HL|]. intros x Hx.
    unfold start_ok, start_test, compare_rows_rev. cbn [start_row basis]. by rewrite Hx. }
  rewrite !keep_app, (Hk Lt A HA), (Hk Eq M HM), (Hk Gt R HR).
  by destruct st, rev; cbn; rewrite ?app_nil_r.
Qed.
End scans.

(** ** Windows of a sorted list *)

Section windows.
Context (sort : Sort).
#[local] Abbreviation cmp := (row_cmp sort).
#[local] Abbreviation all_lt b := (Forall (λ x, cmp x b = Lt)).
#[local] Abbreviation all_gt b := (Forall (λ x, cmp x b = Gt)).
Implicit Types (b x r m : row) (A M R L W : list row).

Lemma middle_sorted A m R : ssorted cmp (A ++ m :: R) → ssorted cmp A ∧ all_lt m A ∧ all_gt m R ∧ ssorted cmp R.
Proof.
  intros (HA & [HR Hm]%StronglySorted_inv & Hx)%(ssorted_app cmp). split_and!; [done| | |done].
  - apply Forall_forall. intros x HxA. apply Hx; [done|by left].
  - eapply Forall_impl; [exact Hm|]. intros x. apply (cmp_lt_gt cmp).
Qed.

Lemma all_lt_tie m b A : cmp m b = Eq → all_lt m A → all_lt b A.
Proof. intros Hm H. eapply Forall_impl; [exact H|]. intros x Hx. by rewrite <-(cmp_eq_r cmp x m b). Qed.

Lemma all_gt_tie m b R : cmp m b = Eq → all_gt m R → all_gt b R.
Proof. intros Hm H. eapply Forall_impl; [exact H|]. intros x Hx. by rewrite <-(cmp_eq_r cmp x m b). Qed.

Lemma insert_below r A m R :
  ssorted cmp (A ++ m :: R) → cmp r m = Lt →
  sl_insert cmp r (A ++ m :: R) = sl_insert cmp r A ++ m :: R.
Proof.
  intros (_ & _ & HR & _)%middle_sorted Hr. apply (sl_insert_gt cmp). constructor; [by apply (cmp_lt_gt cmp)|].
  eapply Forall_impl; [exact HR|]. intros x Hx. apply (cmp_lt_gt cmp).
  apply (cmp_lt_trans r m x); [done|by apply (cmp_gt_lt cmp)].
Qed.

Lemma insert_above r A m R :
  ssorted cmp (A ++ m :: R) → cmp m r = Lt →
  sl_insert cmp r (A ++ m :: R) = A ++ m :: sl_insert cmp r R.
Proof.
  intros (_ & HA & _ & _)%middle_sorted Hr.
  rewrite (cons_middle m A R), (assoc_L (++)), (sl_insert_lt cmp).
  { by rewrite <-(assoc_L (++)). }
  apply Forall_app. split; [|by constructor].
  eapply Forall_impl; [exact HA|]. intros x Hx. by apply (cmp_lt_trans x m r).
Qed.

Lemma delete_below r A m R :
  ssorted cmp (A ++ m :: R) → cmp r m = Lt →
  sl_delete cmp r (A ++ m :: R) = sl_delete cmp r A ++ m :: R.
Proof.
  intros (_ & _ & HR & _)%middle_sorted Hr. apply (sl_delete_gt cmp). constructor; [by apply (cmp_lt_gt cmp)|].
  eapply Forall_impl; [exact HR|]. intros x Hx. apply (cmp_lt_gt cmp).
  apply (cmp_lt_trans r m x); [done|by apply (cmp_gt_lt cmp)].
Qed.

Lemma delete_above r A m R :
  ssorted cmp (A ++ m :: R) → cmp m r = Lt →
  sl_delete cmp r (A ++ m :: R) = A ++ m :: sl_delete cmp r R.
Proof.
  intros (_ & HA & _ & _)%middle_sorted Hr.
  rewrite (cons_middle m A R), (assoc_L (++)), (sl_delete_lt cmp).
  { by rewrite <-(assoc_L (++)). }
  apply Forall_app. split; [|by constructor].
  eapply Forall_impl; [exact HA|]. intros x Hx. by apply (cmp_lt_trans x m r).
Qed.

Lemma delete_here A m R :
  ssorted cmp (A ++ m :: R) → sl_delete cmp m (A ++ m :: R) = A ++ R.
Proof.
  intros (_ & HA & _ & _)%middle_sorted. rewrite (sl_delete_lt cmp) by done. cbn. by rewrite cmp_refl.
Qed.

Lemma delete_length_in x A : x ∈ A → length A = S (length (sl_delete cmp x A)).
Proof.
  intros Hx. rewrite (sl_delete_length cmp x A). destruct (sl_find cmp x A) eqn:E; [done|].
  rewrite (sl_find_None cmp) in E. destruct (E x Hx). apply cmp_refl.
Qed.

Lemma sorted_tie_eq L x y : ssorted cmp L → x ∈ L → y ∈ L → cmp x y = Eq → x = y.
Proof.
  intros Hs [i Hi]%list_elem_of_lookup [j Hj]%list_elem_of_lookup He.
  destruct (Nat.lt_trichotomy i j) as [H|[->|H]].
  - rewrite (ssorted_lookup cmp L i j x y) in He; done.
  - congruence.
  - apply (cmp_eq_sym cmp) in He. rewrite (ssorted_lookup cmp L j i y x) in He; done.
Qed.

(** Removing a row by its key takes out what inserting it put in. *)
Lemma hide_inserted r A :
  sl_find cmp r A = None → keep (λ x, negb (is_eq (cmp r x))) (sl_insert cmp r A) = A.
Proof.
  rewrite (sl_find_None cmp). induction A as [|x A IH]; intros Hn; cbn [sl_insert].
  { rewrite keep_cons, cmp_refl. done. }
  assert (cmp r x ≠ Eq) as Hx by (intros E; apply (Hn x); [by left|by apply (cmp_eq_sym cmp)]).
  assert (keep (λ x, negb (is_eq (cmp r x))) A = A) as HA.
  { apply keep_all, Forall_forall. intros y Hy. destruct (cmp r y) eqn:E; [|done..]. exfalso.
    apply (Hn y); [by right|by apply (cmp_eq_sym cmp)]. }
  destruct (cmp x r) eqn:E.
  - destruct Hx. by apply (cmp_eq_sym cmp).
  - rewrite keep_cons. destruct (cmp r x) eqn:E'; [done|..]; cbn [is_eq negb]; f_equal; apply IH;
      intros y Hy; apply Hn; by right.
  - rewrite !keep_cons, cmp_refl. cbn [is_eq negb]. rewrite HA. by destruct (cmp r x).
Qed.

Lemma hide_last r A : all_lt r A → keep (λ x, negb (is_eq (cmp r x))) (A ++ [r]) = A.
Proof.
  intros H. rewrite keep_app, keep_cons, cmp_refl. cbn. rewrite app_nil_r. apply keep_all.
  eapply Forall_impl; [exact H|]. intros x Hx. by rewrite (cmp_lt_gt cmp x r).
Qed.

Lemma ssorted_snoc A m : ssorted cmp (A ++ [m]) → Forall (λ x, cmp m x ≠ Lt) (A ++ [m]).
Proof.
  intros (_ & HA & _ & _)%middle_sorted. apply Forall_app. split; [|constructor; [by rewrite cmp_refl|done]].
  eapply Forall_impl; [exact HA|]. intros x Hx. by rewrite (cmp_lt_gt cmp x m).
Qed.
End windows.

(** ** The stored state *)

Section state.
Context {St : Type} `{!Storage St} (store_ok : St → Prop) `{!StorageLaws St store_ok}.
Context (tk : TakeOp).
#[local] Abbreviation cmp := (row_cmp (tk_sort tk)).
Implicit Types (s : TakeSt St) (W : list row) (k : storage_key).

(** The slot of the bound of all partitions holds a bound, and no partition's
    bound is past it. *)
Record bounds_ok s : Prop := {
  bo_store : store_ok (ts_store s);
  bo_readable : ∃ mb, get_max_bound s = Some mb;
  bo_covers k size b : st_get k (ts_store s) = Some (SvTake size (Some b)) →
    ∃ mb, st_get MAX_BOUND_KEY (ts_store s) = Some (SvBound mb) ∧ cmp b mb ≠ Gt
}.

(** The state under [k] describes the window [W]: its size and, up to ties, its
    last row.  A partition that has drained has no state. *)
Definition describes s k W : Prop :=
  (∃ bd, st_get k (ts_store s) = Some (SvTake (Z.of_nat (length W)) bd) ∧
     option_Forall2 (λ a b, cmp a b = Eq) bd (last W)) ∨
  W = [] ∧ tk_partition_key tk ≠ None ∧ st_get k (ts_store s) = None.

(** The other partitions keep their state. *)
Definition others s s' k : Prop :=
  ∀ k', k' ≠ k → k' ≠ MAX_BOUND_KEY → st_get k' (ts_store s') = st_get k' (ts_store s).

Lemma take_key_not_max vs : encode_state_key take_prefix vs ≠ MAX_BOUND_KEY.
Proof. done. Qed.

Lemma get_max_bound_Some s mb :
  get_max_bound s = Some (Some mb) → st_get MAX_BOUND_KEY (ts_store s) = Some (SvBound mb).
Proof.
  unfold get_max_bound. destruct (st_get MAX_BOUND_KEY (ts_store s)) as [[]|]; intros [=]. by subst.
Qed.

Lemma get_max_bound_None s :
  get_max_bound s = Some None → st_get MAX_BOUND_KEY (ts_store s) = None.
Proof. unfold get_max_bound. by destruct (st_get MAX_BOUND_KEY (ts_store s)) as [[]|]. Qed.

(** Writing a state. *)
Lemma set_state_spec s k size bd mb :
  bounds_ok s → k ≠ MAX_BOUND_KEY → get_max_bound s = Some mb →
  let s' := set_state tk s k size bd mb in
  bounds_ok s' ∧ st_get k (ts_store s') = Some (SvTake size bd) ∧ others s s' k ∧
  ts_hidden s' = ts_hidden s ∧ ts_error s' = ts_error s.
Proof.
  intros [Hok Hread Hcov] Hk Hmb. unfold set_state.
  set (st1 := st_set k (SvTake size bd) (ts_store s)).
  assert (store_ok st1) as Hok1 by (by apply stl_set_ok).
  assert (∀ k', st_get k' st1 = if decide (k' = k) then Some (SvTake size bd) else st_get k' (ts_store s)) as G1
    by (intros; by apply (stl_get_set (store_ok := store_ok))).
  destruct bd as [b|].
  2: { cbn [ts_store ts_hidden ts_error]. split_and!; [split; cbn [ts_store]| | | |]; try done.
    - unfold get_max_bound in *. cbn [ts_store]. rewrite G1, decide_False by done. by exists mb.
    - intros k' size' b'. rewrite !G1. rewrite (decide_False (P := MAX_BOUND_KEY = k)) by done.
      case_decide; [done|apply Hcov].
    - by rewrite G1, decide_True.
    - intros k' Hne _. by rewrite G1, decide_False. }
  destruct (match mb with Some mb0 => is_gt (cmp b mb0) | None => true end) eqn:Hbig;
    cbn [ts_store ts_hidden ts_error].
  - assert (∀ k', st_get k' (st_set MAX_BOUND_KEY (SvBound b) st1) =
      if decide (k' = MAX_BOUND_KEY) then Some (SvBound b) else st_get k' st1) as G2
      by (intros; by apply (stl_get_set (store_ok := store_ok))).
    split_and!; [split; cbn [ts_store]| | |done|done].
    + by apply stl_set_ok.
    + exists (Some b). unfold get_max_bound. cbn [ts_store]. by rewrite G2, decide_True.
    + intros k' size' b'. rewrite !G2, (decide_True (P := MAX_BOUND_KEY = MAX_BOUND_KEY)), G1 by done.
      case_decide; [done|]. case_decide; intros Hg.
      * injection Hg as <- <-. exists b. split; [done|]. by rewrite cmp_refl.
      * exists b. split; [done|]. destruct (Hcov _ _ _ Hg) as (m & Hm & Hle).
        destruct mb as [mb|]; [|by rewrite (get_max_bound_None _ Hmb) in Hm].
        apply get_max_bound_Some in Hmb. rewrite Hmb in Hm. injection Hm as <-.
        assert (cmp mb b = Lt) as Hlt by (apply (cmp_gt_lt cmp); by destruct (cmp b mb)).
        intros Hgt. apply (cmp_ngt_lt_trans cmp b' mb b) in Hle; congruence.
    + rewrite G2, decide_False, G1, decide_True; done.
    + intros k' Hne Hnm. by rewrite G2, decide_False, G1, decide_False.
  - destruct mb as [mb|]; [|done]. apply get_max_bound_Some in Hmb.
    split_and!; [split; cbn [ts_store]| | |done|done].
    + done.
    + exists (Some mb). unfold get_max_bound. cbn [ts_store]. by rewrite G1, decide_False, Hmb.
    + intros k' size' b'. rewrite !G1, (decide_False (P := MAX_BOUND_KEY = k)) by done.
      case_decide; [|apply Hcov]. intros Hg. injection Hg as <- <-. exists mb. split; [done|].
      by destruct (cmp b mb).
    + by rewrite G1, decide_True.
    + intros k' Hne _. by rewrite G1, decide_False.
Qed.

(** Dropping a state. *)
Lemma del_state_spec s k :
  bounds_ok s → k ≠ MAX_BOUND_KEY →
  let s' := MkTakeSt (st_del k (ts_store s)) (ts_hidden s) (ts_error s) in
  bounds_ok s' ∧ st_get k (ts_store s') = None ∧ others s s' k.
Proof.
  intros [Hok [mb Hread] Hcov] Hk. cbn [ts_store].
  assert (∀ k', st_get k' (st_del k (ts_store s)) = if decide (k' = k) then None else st_get k' (ts_store s)) as G
    by (intros; by apply (stl_get_del (store_ok := store_ok))).
  split_and!; [split; cbn [ts_store]| |].
  - by apply stl_del_ok.
  - exists mb. unfold get_max_bound in *. cbn [ts_store]. by rewrite G, decide_False.
  - intros k' size b. rewrite !G, (decide_False (P := MAX_BOUND_KEY = k)) by done.
    case_decide; [done|apply Hcov].
  - by rewrite G, decide_True.
  - intros k' Hne _. by rewrite G, decide_False.
Qed.
End state.

(** ** A push, against the window *)

Section push.
Context {St : Type} `{!Storage St} (store_ok : St → Prop) `{!StorageLaws St store_ok}.
Context (input_fetch : FetchRequest → list node) (tk : TakeOp).
Context (key : storage_key) (c : option Constraint) (P' : list row) (out : OutEdge).
#[local] Abbreviation cmp := (row_cmp (tk_sort tk)).
#[local] Abbreviation limit := (Z.to_nat (tk_limit tk)).
Implicit Types (s : TakeSt St) (W X Y : list row).

(** The request a consumer of the partition makes, and how it finds the state. *)
#[local] Abbreviation req := (MkFetch c [] None false).
Context (Hlimit : (0 < tk_limit tk < 2 ^ 32)%Z).
Context (Hkey : key_from_constraint tk c = key) (Hmatch : partition_match tk req = true).
Context (Hnmax : key ≠ MAX_BOUND_KEY).

(** The input shows the rows of the partition after the change. *)
Context (Hin : ∀ st rev, map node_row (input_fetch (MkFetch c [] st rev)) = scan (tk_sort tk) st rev P').

(** What the partition reads through the operator. *)
Definition reads s : option (list row) := (λ r, map node_row r.2) <$> take_fetch input_fetch tk s req.

(** A consumer that holds the window applies a change to it. *)
Definition row_change (ch : change) : option source_change :=
  match ch with
  | Add n => Some (SAdd (node_row n))
  | Remove n => Some (SRemove (node_row n))
  | Edit n old => Some (SEdit (node_row n) (node_row old))
  | Child _ _ _ => None
  end.

Definition consume W (ch : change) : list row :=
  match row_change ch with Some sc => apply_source_change cmp sc W | None => W end.

Definition accepted W (ch : change) : Prop :=
  match row_change ch with Some sc => change_valid cmp sc W | None => True end.

(** A log that takes [W] to [W']: every change is one the consumer can apply,
    the window never exceeds the limit, and a fetch during the change reads the
    window with the change. *)
Fixpoint log_ok W (log : list (OutEdge * change * TakeSt St)) W' : Prop :=
  match log with
  | [] => W = W'
  | (o, ch, s) :: log =>
      o = out ∧ accepted W ch ∧ length (consume W ch) ≤ limit ∧
      reads s = Some (consume W ch) ∧ log_ok (consume W ch) log W'
  end.

(** The result of a push that takes the window [W] to [W']. *)
Definition maintains s W W' (res : option (TakeSt St * list (OutEdge * change * TakeSt St))) : Prop :=
  ∃ s' log, res = Some (s', log) ∧ bounds_ok store_ok tk s' ∧ describes tk s' key W' ∧
    ts_hidden s' = None ∧ ts_error s' = ts_error s ∧ others s s' key ∧ log_ok W log W'.

Lemma map_filter_rows (f : row → bool) (ns : list node) :
  map node_row (filter (λ n, f (node_row n) = true) ns) = keep f (map node_row ns).
Proof.
  induction ns as [|n ns IH]; [done|]. rewrite filter_cons. cbn [map]. rewrite keep_cons.
  destruct (f (node_row n)); [rewrite decide_True by done|rewrite decide_False by done]; cbn [map]; by rewrite IH.
Qed.

Lemma map_take_while_rows (f : row → bool) (ns : list node) :
  map node_row (take_while (λ n, f (node_row n)) ns) = take_while f (map node_row ns).
Proof. induction ns as [|n ns IH]; [done|]. cbn. destruct (f (node_row n)); cbn; by rewrite ?IH. Qed.

Lemma take_while_app {A} (f : A → bool) (l1 l2 : list A) :
  Forall (λ x, f x = true) l1 → Forall (λ x, f x = false) l2 → take_while f (l1 ++ l2) = l1.
Proof.
  intros H1 H2. induction H1 as [|x l1 Hx _ IH]; cbn; [destruct H2 as [|y l2 Hy]; cbn; by rewrite ?Hy|].
  by rewrite Hx, IH.
Qed.

(** With a bound between [X] and [Y] the window reads [X], less the hidden row. *)
Lemma reads_bound s size b X Y :
  st_get key (ts_store s) = Some (SvTake size (Some b)) → P' = X ++ Y →
  Forall (λ x, cmp b x ≠ Lt) X → Forall (λ y, cmp b y = Lt) Y →
  reads s = Some (match ts_hidden s with None => X | Some h => keep (λ x, negb (is_eq (cmp h x))) X end).
Proof.
  intros Hg HP HX HY. unfold reads, take_fetch. rewrite Hmatch. cbn [req_constraint]. rewrite Hkey. unfold get_state. rewrite Hg.
  cbn [mbind option_bind fmap option_fmap option_map snd]. f_equal.
  set (ns := take_while _ _).
  assert (map node_row ns = X) as Hns.
  { unfold ns. rewrite (map_take_while_rows (λ r, negb (is_lt (cmp b r)))), Hin, scan_none, HP.
    apply take_while_app.
    - eapply Forall_impl; [exact HX|]. intros x Hx. cbn beta in *. by destruct (cmp b x).
    - eapply Forall_impl; [exact HY|]. intros y Hy. cbn beta in *. by rewrite Hy. }
  unfold not_hidden. destruct (ts_hidden s) as [h|].
  - by rewrite (map_filter_rows (λ r, negb (is_eq (cmp h r)))), Hns.
  - rewrite <-Hns. f_equal. clear. induction ns as [|n ns IH]; [done|].
    rewrite filter_cons, decide_True by done. by rewrite IH.
Qed.

(** Without rows every regime reads nothing. *)
Lemma reads_empty s : bounds_ok store_ok tk s → P' = [] → describes tk s key [] → reads s = Some [].
Proof.
  intros [_ [mb Hmb] _] HP Hd. unfold reads, take_fetch. rewrite Hmatch. cbn [req_constraint]. rewrite Hkey. unfold get_state.
  assert (input_fetch req = []) as Hnil.
  { apply (fmap_nil_inv node_row). change (node_row <$> ?l) with (map node_row l).
    by rewrite Hin, scan_none, HP. }
  destruct Hd as [(bd & -> & Hbd)|(_ & _ & ->)]; cbn [mbind option_bind].
  - inversion Hbd. done.
  - unfold initial_fetch. destruct (tk_limit tk =? 0)%Z; [done|].
    change (req_constraint req) with c. rewrite Hnil. cbn [take_first].
    rewrite Hmb. done.
Qed.

(** The shapes of a run: nothing, one change, a removal and an addition. *)
Lemma maintains_none s W : 
  bounds_ok store_ok tk s → describes tk s key W → ts_hidden s = None → maintains s W W (Some (s, [])).
Proof. intros. exists s, []. by split_and!. Qed.

Lemma maintains_one s s' W W' ch :
  bounds_ok store_ok tk s' → describes tk s' key W' → ts_hidden s' = None → ts_error s' = ts_error s →
  others s s' key → accepted W ch → consume W ch = W' → length W' ≤ limit → reads s' = Some W' →
  maintains s W W' (Some (s', emit out s' ch)).
Proof. intros. exists s', (emit out s' ch). subst W'. by split_and!. Qed.

Lemma maintains_two s s1 s2 W W1 W' ch1 ch2 :
  bounds_ok store_ok tk s2 → describes tk s2 key W' → ts_hidden s2 = None → ts_error s2 = ts_error s →
  others s s2 key →
  accepted W ch1 → consume W ch1 = W1 → length W1 ≤ limit → reads s1 = Some W1 →
  accepted W1 ch2 → consume W1 ch2 = W' → length W' ≤ limit → reads s2 = Some W' →
  maintains s W W' (Some (s2, emit out s1 ch1 ++ emit out s2 ch2)).
Proof. intros. exists s2, (emit out s1 ch1 ++ emit out s2 ch2). subst W' W1. by split_and!. Qed.

(** ** Bounds and windows *)

(** [nb] stands for the last row of the window [W']. *)
Definition bounds_window (nb : row) W' : Prop := ∃ l, last W' = Some l ∧ cmp nb l = Eq.

Lemma bounds_window_snoc nb X l : cmp nb l = Eq → bounds_window nb (X ++ [l]).
Proof. intros H. exists l. by rewrite last_snoc. Qed.

Lemma bounds_window_sides nb W' Y :
  ssorted cmp (W' ++ Y) → bounds_window nb W' →
  Forall (λ x, cmp nb x ≠ Lt) W' ∧ Forall (λ y, cmp nb y = Lt) Y.
Proof.
  intros Hs (l & Hl & He). apply last_Some in Hl as [X ->].
  apply (ssorted_app cmp) in Hs as (HW & _ & HY). split.
  - eapply Forall_impl; [by apply (ssorted_snoc (tk_sort tk))|]. intros x Hx. cbn beta in *.
    by rewrite (cmp_eq_l nb l x).
  - apply Forall_forall. intros y Hy. rewrite (cmp_eq_l nb l y) by done.
    apply HY; [|done]. apply elem_of_app. right. by left.
Qed.

Lemma describes_window s nb W' :
  st_get key (ts_store s) = Some (SvTake (Z.of_nat (length W')) (Some nb)) → bounds_window nb W' →
  describes tk s key W'.
Proof. intros Hg (l & Hl & He). left. exists (Some nb). split; [done|]. rewrite Hl. by constructor. Qed.

Lemma reads_window s nb W' Y :
  st_get key (ts_store s) = Some (SvTake (Z.of_nat (length W')) (Some nb)) → bounds_window nb W' →
  P' = W' ++ Y → ssorted cmp P' →
  reads s = Some (match ts_hidden s with
                  | None => W' | Some h => keep (λ x, negb (is_eq (cmp h x))) W' end).
Proof.
  intros Hg Hb HP Hs. rewrite HP in Hs. destruct (bounds_window_sides nb W' Y Hs Hb) as [H1 H2].
  by apply (reads_bound s (Z.of_nat (length W')) nb W' Y).
Qed.

Lemma one_change s s' W W' Y nb ch :
  bounds_ok store_ok tk s' → ts_hidden s' = None → ts_error s' = ts_error s → others s s' key →
  st_get key (ts_store s') = Some (SvTake (Z.of_nat (length W')) (Some nb)) → bounds_window nb W' →
  P' = W' ++ Y → ssorted cmp P' → length W' ≤ limit → accepted W ch → consume W ch = W' →
  maintains s W W' (Some (s', emit out s' ch)).
Proof.
  intros Hok Hh He Ho Hg Hb HP Hs Hlen Hacc Hcons.
  apply maintains_one; try done; [by eapply describes_window|].
  by rewrite (reads_window s' nb W' Y), Hh.
Qed.

(** The state is written first: the added row is hidden from the removal. *)
Lemma hidden_swap s W W1 W' Y mb nb h gone n :
  bounds_ok store_ok tk s → ts_hidden s = None → get_max_bound s = Some mb →
  bounds_window nb W' → P' = W' ++ Y → ssorted cmp P' →
  length W1 ≤ limit → length W' ≤ limit → keep (λ x, negb (is_eq (cmp h x))) W' = W1 →
  accepted W (Remove gone) → consume W (Remove gone) = W1 →
  accepted W1 (Add n) → consume W1 (Add n) = W' →
  maintains s W W'
    (let s := set_state tk s key (Z.of_nat (length W')) (Some nb) mb in
     let '(s, l1) := push_with_row_hidden s h out (Remove gone) in Some (s, l1 ++ emit out s (Add n))).
Proof.
  intros Hok Hh Hmb Hb HP Hs Hl1 Hl2 Hk Ha1 Hc1 Ha2 Hc2.
  destruct (set_state_spec store_ok tk s key (Z.of_nat (length W')) (Some nb) mb Hok Hnmax Hmb)
    as (Hok' & Hg & Ho & Hh' & He).
  set (s1 := set_state tk s key (Z.of_nat (length W')) (Some nb) mb) in *. cbn zeta.
  unfold push_with_row_hidden.
  assert (bounds_ok store_ok tk (with_hidden s1 None)) as Hok2 by (destruct Hok'; by split).
  apply (maintains_two s (with_hidden s1 (Some h)) (with_hidden s1 None) W W1 W'); try done.
  - by eapply describes_window.
  - by rewrite (reads_window (with_hidden s1 (Some h)) nb W' Y); [cbn [ts_hidden with_hidden]; rewrite Hk|..].
  - by rewrite (reads_window (with_hidden s1 None) nb W' Y).
Qed.

(** The removal goes first, under the old bound. *)
Lemma refill_swap s W W1 W' Y mb b size y gone n :
  bounds_ok store_ok tk s → ts_hidden s = None → get_max_bound s = Some mb →
  st_get key (ts_store s) = Some (SvTake size (Some b)) →
  Forall (λ x, cmp b x ≠ Lt) W1 → cmp b y = Lt → node_row n = y → W' = W1 ++ [y] →
  P' = W1 ++ y :: Y → ssorted cmp P' → length W' ≤ limit →
  accepted W (Remove gone) → consume W (Remove gone) = W1 → size = Z.of_nat (length W') →
  maintains s W W'
    (let l1 := emit out s (Remove gone) in
     let s := set_state tk s key size (Some y) mb in Some (s, l1 ++ emit out s (Add n))).
Proof.
  intros Hok Hh Hmb Hg HW1 Hy Hn -> HP Hs Hlen Ha1 Hc1 Hsize. cbn zeta.
  destruct (set_state_spec store_ok tk s key size (Some y) mb Hok Hnmax Hmb) as (Hok' & Hg' & Ho & Hh' & He).
  set (s2 := set_state tk s key size (Some y) mb) in *.
  pose proof Hs as Hs'. rewrite HP in Hs'. apply (middle_sorted (tk_sort tk)) in Hs' as (HsW & HltW & HgtY & _).
  assert (bounds_window y (W1 ++ [y])) as Hb by (apply bounds_window_snoc, cmp_refl).
  assert (P' = (W1 ++ [y]) ++ Y) as HP2 by (by rewrite HP, <-(assoc_L (++))).
  assert (sl_find cmp y W1 = None) as Hfind.
  { apply (sl_find_None cmp). intros x Hx. rewrite Forall_forall in HltW. by rewrite (HltW x Hx). }
  assert (consume W1 (Add n) = W1 ++ [y]) as Hc2.
  { unfold consume. cbn [row_change apply_source_change]. rewrite Hn.
    rewrite <-(app_nil_r W1) at 1. by rewrite (sl_insert_lt cmp). }
  rewrite Hsize in Hg'.
  apply (maintains_two s s s2 W W1 (W1 ++ [y])); try done.
  - by eapply describes_window.
  - rewrite length_app in Hlen. cbn in Hlen. lia.
  - rewrite (reads_bound s size b W1 (y :: Y)); [by rewrite Hh|done|done|done|].
    constructor; [done|]. eapply Forall_impl; [exact HgtY|]. intros x Hx. cbn beta in *.
    apply (cmp_lt_trans b y x); [done|by apply (cmp_gt_lt cmp)].
  - unfold accepted. cbn [row_change change_valid]. by rewrite Hn.
  - rewrite (reads_window s2 y (W1 ++ [y]) Y); [by rewrite Hh', Hh|done..].
Qed.

(** ** Add *)

Lemma fetch_n_rows b st rev n :
  map node_row (fetch_n input_fetch b st c rev n) = take n (scan (tk_sort tk) (Some (MkStart b st)) rev P').
Proof. unfold fetch_n. by rewrite <-Hin, firstn_map. Qed.

(** The bound after an addition that finds room. *)
Lemma room_bound W r bd :
  ssorted cmp W → sl_find cmp r W = None → option_Forall2 (λ a b, cmp a b = Eq) bd (last W) →
  bounds_window (match bd with
                 | Some b => if is_lt (cmp b r) then r else b
                 | None => r
                 end) (sl_insert cmp r W).
Proof.
  intros Hs Hf Hb. destruct (last W) as [m|] eqn:Hl; inversion Hb as [b m' Hbm|]; subst.
  2: { apply last_None in Hl as ->. exists r. by rewrite cmp_refl. }
  apply last_Some in Hl as [A ->]. rewrite (cmp_eq_l b m r) by done.
  destruct (cmp m r) eqn:E; cbn [is_lt].
  - rewrite (sl_find_None cmp) in Hf. destruct (Hf m); [|done]. apply elem_of_app. right. by left.
  - rewrite (insert_above (tk_sort tk)) by done. cbn [sl_insert].
    rewrite cons_middle, (assoc_L (++)). apply bounds_window_snoc, cmp_refl.
  - rewrite (insert_below (tk_sort tk)) by (done || by apply (cmp_gt_lt cmp)). by apply bounds_window_snoc.
Qed.

Lemma push_add_room s n W bd mb :
  bounds_ok store_ok tk s → ts_hidden s = None → get_max_bound s = Some mb → ssorted cmp W →
  option_Forall2 (λ a b, cmp a b = Eq) bd (last W) → (Z.of_nat (length W) < tk_limit tk)%Z →
  change_valid cmp (SAdd (node_row n)) W → P' = sl_insert cmp (node_row n) W →
  maintains s W (sl_insert cmp (node_row n) W)
    (take_push_add input_fetch tk s n out key (Z.of_nat (length W)) bd mb c).
Proof.
  intros Hok Hh Hmb Hs Hb Hlen Hv HP. unfold take_push_add.
  destruct (Z.ltb_spec (Z.of_nat (length W)) (tk_limit tk)) as [_|]; [|lia].
  set (nb := match bd with Some b => _ | None => _ end).
  assert (bounds_window nb (sl_insert cmp (node_row n) W)) as Hnb by (by apply room_bound).
  assert (length (sl_insert cmp (node_row n) W) = S (length W)) as Hl
    by (rewrite (sl_insert_length cmp) by done; cbn in Hv; by rewrite Hv).
  assert (u32_add (Z.of_nat (length W)) 1 = Z.of_nat (length (sl_insert cmp (node_row n) W))) as ->.
  { unfold u32_add. rewrite Hl, Z.mod_small; lia. }
  destruct (set_state_spec store_ok tk s key (Z.of_nat (length (sl_insert cmp (node_row n) W))) (Some nb) mb
    Hok Hnmax Hmb) as (Hok' & Hg & Ho & Hh' & He).
  apply (one_change s _ W _ [] nb); try done.
  - by rewrite app_nil_r.
  - rewrite HP. by apply (sl_insert_sorted cmp).
  - rewrite Hl. lia.
Qed.

(** A row that enters a full window from above pushes its last row out. *)
Lemma displace s n A m Y mb nb gone :
  bounds_ok store_ok tk s → ts_hidden s = None → get_max_bound s = Some mb →
  length (A ++ [m]) ≤ limit → ssorted cmp (A ++ [m]) → cmp (node_row n) m = Lt →
  sl_find cmp (node_row n) A = None → node_row gone = m →
  P' = sl_insert cmp (node_row n) A ++ Y → ssorted cmp P' →
  bounds_window nb (sl_insert cmp (node_row n) A) →
  maintains s (A ++ [m]) (sl_insert cmp (node_row n) A)
    (let s := set_state tk s key (Z.of_nat (length (A ++ [m]))) (Some nb) mb in
     let '(s, l1) := push_with_row_hidden s (node_row n) out (Remove gone) in
     Some (s, l1 ++ emit out s (Add n))).
Proof.
  intros Hok Hh Hmb Hlen Hs Hlt Hf Hgone HP HsP Hb.
  pose proof Hs as (HsA & _)%(middle_sorted (tk_sort tk)).
  assert (length (sl_insert cmp (node_row n) A) = length (A ++ [m])) as <-
    by (rewrite (sl_insert_length cmp), Hf, length_app by done; cbn; lia).
  apply (hidden_swap s (A ++ [m]) A _ Y); try done.
  - rewrite length_app in Hlen. cbn in Hlen. lia.
  - rewrite (sl_insert_length cmp), Hf by done. rewrite length_app in Hlen. cbn in Hlen. lia.
  - by apply hide_inserted.
  - unfold accepted. cbn [row_change change_valid]. rewrite Hgone. apply elem_of_app. right. by left.
  - unfold consume. cbn [row_change apply_source_change]. rewrite Hgone.
    rewrite (delete_here (tk_sort tk)) by done. apply app_nil_r.
Qed.

(** The bound after a displacement, as read off a fetch that yields the old last
    row and the one before it. *)
Lemma displaced_bound A r :
  ssorted cmp A → sl_find cmp r A = None →
  ∃ l, last (sl_insert cmp r A) = Some l ∧ (cmp r l = Eq ∨ cmp r l = Lt).
Proof.
  intros Hs Hf.
  assert (sl_insert cmp r A ≠ []) as Hne
    by (intros H; pose proof (sl_insert_length cmp r A Hs) as E; rewrite Hf, H in E; done).
  destruct (last_take_drop _ Hne) as (X & l & HX & Hl). exists l. split; [done|].
  pose proof (sl_insert_sorted cmp r A Hs) as Hs'. rewrite HX in Hs'.
  assert (r ∈ sl_insert cmp r A) as Hr.
  { rewrite (sl_insert_perm cmp) by done. by left. }
  pose proof (ssorted_snoc (tk_sort tk) X l Hs') as Hsn. rewrite Forall_forall in Hsn.
  rewrite HX in Hr. specialize (Hsn r Hr). rewrite (cmp_opp l r).
  destruct (cmp l r); [by left|done|by right].
Qed.

(** The first two rows of a reverse fetch from the bound. *)
Lemma fetch_back_two b m X Y :
  cmp m b = Eq → P' = X ++ m :: Y → ssorted cmp P' →
  ∃ bn rest, fetch_n input_fetch b At c true 2 = bn :: rest ∧ node_row bn = m ∧
    map node_row rest = take 1 (reverse X).
Proof.
  intros Hm HP Hs. pose proof Hs as Hs'. rewrite HP in Hs'. apply (middle_sorted (tk_sort tk)) in Hs' as (_ & HX & HY & _).
  pose proof (fetch_n_rows b At true 2) as Hf. rewrite HP in Hf.
  change (X ++ m :: Y) with (X ++ [m] ++ Y) in Hf. rewrite (scan_cut (tk_sort tk) At true b X [m] Y) in Hf.
  2: { split; [by eapply all_lt_tie|by constructor|by eapply all_gt_tie]. }
  rewrite reverse_snoc in Hf. cbn [take] in Hf.
  destruct (fetch_n input_fetch b At c true 2) as [|bn l]; [done|]. injection Hf as Hbn Hl.
  exists bn, l. done.
Qed.

Lemma fetch_forward_at b A M R n :
  cut (tk_sort tk) b A M R → P' = A ++ M ++ R →
  map node_row (fetch_n input_fetch b At c false n) = take n (M ++ R).
Proof. intros Hc HP. rewrite fetch_n_rows, HP. by rewrite (scan_cut (tk_sort tk) At false b A M R Hc). Qed.

Lemma cut_middle b m A R : ssorted cmp (A ++ m :: R) → cmp m b = Eq → cut (tk_sort tk) b A [m] R.
Proof.
  intros (_ & HA & HR & _)%(middle_sorted (tk_sort tk)) Hm.
  split; [by eapply all_lt_tie|by constructor|by eapply all_gt_tie].
Qed.

Lemma take_window {A} n (l1 l2 : list A) : length l1 = n → take n (l1 ++ l2) = l1.
Proof. intros <-. by rewrite take_app_length. Qed.

Lemma push_add_full s n A m R b mb :
  bounds_ok store_ok tk s → ts_hidden s = None → get_max_bound s = Some mb →
  st_get key (ts_store s) = Some (SvTake (Z.of_nat (length (A ++ [m]))) (Some b)) → cmp b m = Eq →
  length (A ++ [m]) = limit → ssorted cmp (A ++ m :: R) →
  change_valid cmp (SAdd (node_row n)) (A ++ m :: R) → P' = sl_insert cmp (node_row n) (A ++ m :: R) →
  maintains s (A ++ [m]) (take limit P')
    (take_push_add input_fetch tk s n out key (Z.of_nat (length (A ++ [m]))) (Some b) mb c).
Proof.
  intros Hok Hh Hmb Hg Hbm Hlen Hs Hv HP. unfold take_push_add.
  destruct (Z.ltb_spec (Z.of_nat (length (A ++ [m]))) (tk_limit tk)) as [|_]; [lia|].
  pose proof (cmp_eq_sym cmp _ _ Hbm) as Hmb'. rewrite <-(cmp_eq_r cmp (node_row n) m b Hmb').
  assert (ssorted cmp P') as HsP by (rewrite HP; by apply (sl_insert_sorted cmp)).
  assert (sl_find cmp (node_row n) A = None ∧ cmp (node_row n) m ≠ Eq) as [HfA Hnm].
  { cbn in Hv. rewrite (sl_find_None cmp) in Hv. split.
    - apply (sl_find_None cmp). intros x Hx. apply Hv, elem_of_app. by left.
    - intros E. apply (Hv m); [apply elem_of_app; right; by left|by apply (cmp_eq_sym cmp)]. }
  destruct (cmp (node_row n) m) eqn:Hc; [done| |]; cbn [is_lt].
  - rewrite (insert_below (tk_sort tk)) in HP by done.
    assert (length (sl_insert cmp (node_row n) A) = limit) as Hlen'.
    { rewrite (sl_insert_length cmp), HfA by (by apply (middle_sorted (tk_sort tk)) in Hs as (? & _)).
      rewrite length_app in Hlen. cbn in Hlen. lia. }
    rewrite HP at 1. rewrite take_window by done.
    assert (ssorted cmp (A ++ [m])) as HsW.
    { rewrite cons_middle, (assoc_L (++)) in Hs. by apply (ssorted_app cmp) in Hs as (? & _). }
    assert (ssorted cmp A) as HsA by (by apply (middle_sorted (tk_sort tk)) in HsW as (? & _)).
    destruct (displaced_bound A (node_row n) HsA HfA) as (l & Hl & Hnl).
    destruct (Z.eqb_spec (tk_limit tk) 1) as [H1|H1].
    + assert (A = []) as -> by (rewrite length_app in Hlen; cbn in Hlen; destruct A; [done|cbn in Hlen; lia]).
      pose proof (fetch_forward_at b (sl_insert cmp (node_row n) []) [m] R 1) as Hf.
      destruct (fetch_n input_fetch b At c false 1) as [|bn bns].
      { exfalso. cbn [map app take] in Hf. discriminate Hf; [|done]. apply cut_middle; [by rewrite <-HP|done]. }
      cbn [map app take] in Hf. destruct bns as [|? ?].
      2: { exfalso. discriminate Hf; [|done]. apply cut_middle; [by rewrite <-HP|done]. }
      injection Hf as Hbn; [|apply cut_middle; [by rewrite <-HP|done]|done].
      apply (displace s n [] m (m :: R)); try done; [lia|]. exists (node_row n). by rewrite cmp_refl.
    + destruct (fetch_back_two b m (sl_insert cmp (node_row n) A) R Hmb' HP HsP) as (bn & rest & -> & Hbn & Hrest).
      assert (∃ l', last (sl_insert cmp (node_row n) A) = Some l' ∧
        map node_row rest = [l']) as (l' & Hl' & Hr').
      { apply last_Some in Hl as [X HX]. rewrite HX, reverse_snoc in Hrest. exists l.
        rewrite HX, last_snoc. by split. }
      assert (l' = l) as -> by congruence. destruct rest as [|bbn [|]]; try done. injection Hr' as Hbbn.
      rewrite Hbbn. replace (is_gt (cmp (node_row n) l)) with false
        by (by destruct Hnl as [-> | ->]).
      apply (displace s n A m (m :: R)); try done; [lia|]. exists l. by rewrite cmp_refl.
  - assert (cmp m (node_row n) = Lt) as Hc' by (by apply (cmp_gt_lt cmp)).
    rewrite (insert_above (tk_sort tk)) in HP by done.
    assert (take limit P' = A ++ [m]) as ->.
    { rewrite HP, cons_middle, (assoc_L (++)). by apply take_window. }
    apply maintains_none; [done| |done]. eapply describes_window; [done|]. by apply bounds_window_snoc.
Qed.

(** ** Remove *)

Section remove.
Context (deadline : nat → bool) (Hdl : ∀ i, deadline i = false).

Lemma backfill_spec i b ns M R acc :
  map node_row ns = M ++ R → Forall (λ x, cmp x b ≠ Gt) M → Forall (λ x, cmp x b = Gt) R →
  ∃ res, backfill_scan deadline tk i b ns acc = inr res ∧
    match R with
    | y :: _ => ∃ n, res = Some (n, true) ∧ node_row n = y
    | [] => res = match last ns with Some n => Some (n, false) | None => acc end
    end.
Proof.
  revert i M acc. induction ns as [|n ns IH]; intros i M acc Hns HM HR.
  { destruct M, R; try done. by exists acc. }
  cbn [backfill_scan]. rewrite Hdl. destruct M as [|m M]; cbn [map app] in Hns.
  - destruct R as [|y R]; [done|]. injection Hns as Hn Hns. apply Forall_cons in HR as [Hy HR].
    rewrite Hn, Hy. cbn [is_gt]. exists (Some (n, true)). split; [done|]. by exists n.
  - injection Hns as Hn Hns. apply Forall_cons in HM as [Hm HM]. rewrite Hn.
    replace (is_gt (cmp m b)) with false by (by destruct (cmp m b)).
    destruct (IH (S i) M (Some (n, false)) Hns HM HR) as (res & Hres & Hsp). exists res. split; [done|].
    destruct R as [|y R]; [|done]. rewrite Hsp, last_cons. by destruct (last ns).
Qed.

(** The row before the bound never is a refill. *)
Lemma before_bound b A M R :
  cut (tk_sort tk) b A M R → P' = A ++ M ++ R →
  ∃ o, match fetch_n input_fetch b After c true 1 with
       | bbn :: _ => Some (bbn, is_gt (cmp (node_row bbn) b))
       | [] => None
       end = (λ n, (n, false)) <$> o ∧ node_row <$> o = last A.
Proof.
  intros Hc HP. pose proof (fetch_n_rows b After true 1) as Hf.
  rewrite HP, (scan_cut (tk_sort tk) After true b A M R Hc) in Hf.
  destruct (fetch_n input_fetch b After c true 1) as [|bbn l].
  - exists None. split; [done|]. destruct A as [|a A _] using rev_ind; [done|]. by rewrite reverse_snoc in Hf.
  - exists (Some bbn). destruct A as [|a A _] using rev_ind; [done|]. rewrite reverse_snoc in Hf.
    injection Hf as Hb _. destruct Hc as [HA _ _]. apply Forall_app in HA as [_ [Ha _]%Forall_cons].
    rewrite last_snoc. cbn. by rewrite Hb, Ha.
Qed.

(** A window without a successor shrinks; a partition that drains forgets its
    state. *)
Lemma shrink s W W1 mb ch :
  bounds_ok store_ok tk s → ts_hidden s = None → get_max_bound s = Some mb →
  P' = W1 → ssorted cmp P' → length W1 ≤ limit → accepted W ch → consume W ch = W1 →
  maintains s W W1
    (let s :=
       if (match tk_partition_key tk with Some _ => true | None => false end) && (Z.of_nat (length W1) =? 0)%Z
       then MkTakeSt (st_del key (ts_store s)) (ts_hidden s) (ts_error s)
       else set_state tk s key (Z.of_nat (length W1)) (last W1) mb in
     Some (s, emit out s ch)).
Proof.
  intros Hok Hh Hmb HP Hs Hlen Hacc Hcons. cbn zeta.
  destruct (set_state_spec store_ok tk s key (Z.of_nat (length W1)) (last W1) mb Hok Hnmax Hmb)
    as (Hok' & Hg & Ho & Hh' & He).
  destruct (del_state_spec store_ok tk s key Hok Hnmax) as (Hokd & Hgd & Hod).
  destruct (last W1) as [l|] eqn:Hl.
  - rewrite (proj2 (Z.eqb_neq _ _)), andb_false_r by (destruct W1; [done|cbn; lia]).
    cbv iota.
    apply (one_change s _ W W1 [] l); try done; [|by rewrite app_nil_r].
    exists l. by rewrite cmp_refl.
  - apply last_None in Hl as ->.
    assert (∀ s1, bounds_ok store_ok tk s1 → describes tk s1 key [] → ts_hidden s1 = None →
      ts_error s1 = ts_error s → others s s1 key → maintains s W [] (Some (s1, emit out s1 ch))) as Hone.
    { intros s1 ?????. apply maintains_one; try done. by apply reads_empty. }
    destruct (tk_partition_key tk) as [pk|] eqn:Hpk; cbn [andb]; apply Hone; try done; try congruence.
    + right. by rewrite Hpk.
    + left. exists None. split; [done|constructor].
Qed.

Lemma push_remove_inside s n W A M R b mb :
  bounds_ok store_ok tk s → ts_hidden s = None → get_max_bound s = Some mb →
  st_get key (ts_store s) = Some (SvTake (Z.of_nat (length W)) (Some b)) →
  length W = S (length (A ++ M)) → length W ≤ limit → ssorted cmp P' →
  cut (tk_sort tk) b A M R → P' = A ++ M ++ R → cmp (node_row n) b ≠ Gt →
  accepted W (Remove n) → consume W (Remove n) = A ++ M → (R ≠ [] → length W = limit) →
  maintains s W (take limit P')
    (take_push_remove input_fetch deadline tk s n out key (Z.of_nat (length W)) (Some b) mb c).
Proof.
  intros Hok Hh Hmb Hg Hlen Hlim Hs Hc HP Hle Hacc Hcons Hfull. unfold take_push_remove.
  replace (is_gt (cmp (node_row n) b)) with false by (by destruct (cmp (node_row n) b)).
  destruct (before_bound b A M R Hc HP) as (o & -> & Ho). cbn zeta.
  set (ns := input_fetch (MkFetch c [] (Some (MkStart b At)) false)).
  assert (map node_row ns = M ++ R) as Hns
    by (unfold ns; rewrite Hin, HP; by rewrite (scan_cut (tk_sort tk) At false b A M R Hc)).
  destruct (backfill_spec 0 b ns M R ((λ n, (n, false)) <$> o) Hns) as (res & Hres & Hsp).
  { eapply Forall_impl; [apply (cut_eq _ _ _ _ _ Hc)|]. intros x Hx. cbn beta in *. by rewrite Hx. }
  { apply (cut_gt _ _ _ _ _ Hc). }
  replace (match (λ n, (n, false)) <$> o with
    | Some (_, true) => inr ((λ n, (n, false)) <$> o)
    | _ => backfill_scan deadline tk 0 b ns ((λ n, (n, false)) <$> o)
    end) with (@inr unit _ res) by (by destruct o).
  assert (u32_sub (Z.of_nat (length W)) 1 = Z.of_nat (length (A ++ M))) as Hsub.
  { unfold u32_sub. rewrite Hlen, Z.mod_small; lia. }
  destruct R as [|y R].
  - rewrite app_nil_r in HP, Hns. rewrite HP, take_ge by lia.
    assert ((λ p : node * bool, node_row p.1) <$> res = last (A ++ M) ∧ ∀ n, res ≠ Some (n, true)) as [Hnb Hflag].
    { rewrite Hsp. destruct ns as [|n' ns' _] using rev_ind.
      - destruct M; [|done]. rewrite app_nil_r, <-Ho. by destruct o.
      - rewrite last_snoc. rewrite map_app in Hns. destruct M as [|m M _] using rev_ind; [by destruct ns'|].
        apply app_inj_tail in Hns as [_ Hn]. cbn in Hn. by rewrite (assoc_L (++)), last_snoc, <-Hn. }
    pose proof (shrink s W (A ++ M) mb (Remove n) Hok Hh Hmb HP Hs ltac:(lia) Hacc Hcons) as Hsh.
    rewrite <-Hsub, <-Hnb in Hsh. destruct res as [[rf []]|]; [by destruct (Hflag rf)|exact Hsh..].
  - destruct Hsp as (rf & -> & Hrf). specialize (Hfull ltac:(done)).
    assert (P' = ((A ++ M) ++ [y]) ++ R) as HP2 by (by rewrite HP, <-!(assoc_L (++))).
    rewrite HP2 at 1. rewrite take_window by (rewrite length_app; cbn; lia). rewrite Hrf.
    destruct Hc as [HA HM HR]. apply Forall_cons in HR as [Hy _].
    apply (refill_swap s W (A ++ M) _ R mb b _ y); try done.
    + apply Forall_app. split; [eapply Forall_impl; [exact HA|]|eapply Forall_impl; [exact HM|]];
        intros x Hx; cbn beta in *; [by rewrite (cmp_lt_gt cmp x b)|by rewrite (cmp_eq_sym cmp x b)].
    + by apply (cmp_gt_lt cmp).
    + by rewrite HP, <-(assoc_L (++)).
    + rewrite length_app. cbn. lia.
    + rewrite length_app. cbn. lia.
Qed.

(** Outside of the window nothing is seen. *)
Lemma push_remove_outside s n W size b mb :
  bounds_ok store_ok tk s → describes tk s key W → ts_hidden s = None → cmp (node_row n) b = Gt →
  maintains s W W (take_push_remove input_fetch deadline tk s n out key size (Some b) mb c).
Proof. intros ??? Hgt. unfold take_push_remove. rewrite Hgt. by apply maintains_none. Qed.

Lemma push_remove_maintains s n A m R b mb :
  bounds_ok store_ok tk s → ts_hidden s = None → get_max_bound s = Some mb →
  st_get key (ts_store s) = Some (SvTake (Z.of_nat (length (A ++ [m]))) (Some b)) → cmp b m = Eq →
  length (A ++ [m]) ≤ limit → (R ≠ [] → length (A ++ [m]) = limit) → ssorted cmp (A ++ m :: R) →
  change_valid cmp (SRemove (node_row n)) (A ++ m :: R) → P' = sl_delete cmp (node_row n) (A ++ m :: R) →
  maintains s (A ++ [m]) (take limit P')
    (take_push_remove input_fetch deadline tk s n out key (Z.of_nat (length (A ++ [m]))) (Some b) mb c).
Proof.
  intros Hok Hh Hmb Hg Hbm Hlen Hfull Hs Hv HP.
  pose proof (cmp_eq_sym cmp _ _ Hbm) as Hmb'.
  assert (ssorted cmp P') as HsP by (rewrite HP; by apply (sl_delete_sorted cmp)).
  pose proof (cut_middle b m A R Hs Hmb') as Hcut.
  assert (ssorted cmp (A ++ [m])) as HsW.
  { rewrite cons_middle, (assoc_L (++)) in Hs. by apply (ssorted_app cmp) in Hs as (? & _). }
  cbn in Hv. pose proof Hs as (HsA & HltA & HgtR & _)%(middle_sorted (tk_sort tk)).
  apply elem_of_app in Hv as [HvA|[<-|HvR]%elem_of_cons].
  - assert (cmp (node_row n) m = Lt) as Hlt by (rewrite Forall_forall in HltA; by apply HltA).
    rewrite (delete_below (tk_sort tk)) in HP by done.
    pose proof (delete_length_in (tk_sort tk) (node_row n) A HvA) as HlA.
    apply (push_remove_inside s n _ (sl_delete cmp (node_row n) A) [m] R b); try done.
    + rewrite !length_app. cbn. lia.
    + rewrite HP in HsP. by apply cut_middle.
    + rewrite (cmp_eq_r cmp _ b m) by done. by rewrite Hlt.
    + cbn. apply elem_of_app. by left.
    + cbn. rewrite (delete_below (tk_sort tk)); done.
  - rewrite (delete_here (tk_sort tk)) in HP by done.
    apply (push_remove_inside s n _ A [] R b); try done.
    + rewrite app_nil_r, length_app. cbn. lia.
    + by destruct Hcut.
    + by rewrite Hmb'.
    + cbn. apply elem_of_app. right. by left.
    + cbn. by rewrite (delete_here (tk_sort tk)).
  - assert (cmp (node_row n) m = Gt) as Hgt by (rewrite Forall_forall in HgtR; by apply HgtR).
    rewrite (delete_above (tk_sort tk)) in HP by (done || by apply (cmp_gt_lt cmp)).
    assert (take limit P' = A ++ [m]) as ->.
    { rewrite HP, cons_middle, (assoc_L (++)). apply take_window, Hfull. destruct R; [by apply elem_of_nil in HvR|done]. }
    apply push_remove_outside; try done.
    + eapply describes_window; [done|]. by apply bounds_window_snoc.
    + by rewrite (cmp_eq_r cmp _ b m).
Qed.
End remove.

(** ** Edit *)

Lemma find_none_sub r (L L' : list row) : sl_find cmp r L = None → L' ⊆ L → sl_find cmp r L' = None.
Proof. rewrite !(sl_find_None cmp). auto. Qed.

Lemma window_sub (A : list row) m R : A ++ [m] ⊆ A ++ m :: R.
Proof. clear. set_solver. Qed.

(** A row of a sorted list that ties with the inserted one is the inserted one. *)
Lemma insert_tie_eq r y R Y :
  ssorted cmp R → sl_insert cmp r R = y :: Y → sl_find cmp r R = None → cmp y r = Eq → y = r.
Proof.
  intros Hs HR Hf Ht. pose proof (sl_insert_sorted cmp r R Hs) as Hs'.
  apply (sorted_tie_eq (tk_sort tk) (sl_insert cmp r R)); [done| | |done].
  - rewrite HR. by left.
  - rewrite (sl_insert_perm cmp) by done. by left.
Qed.

(** Edits that stay in the window, under the old bound and under a new one. *)
Lemma forward_edit s W W' Y b ch :
  bounds_ok store_ok tk s → ts_hidden s = None →
  st_get key (ts_store s) = Some (SvTake (Z.of_nat (length W)) (Some b)) → bounds_window b W' →
  length W' = length W → length W ≤ limit → P' = W' ++ Y → ssorted cmp P' →
  accepted W ch → consume W ch = W' →
  maintains s W W' (Some (s, emit out s ch)).
Proof. intros Hok Hh Hg Hb Hl Hlen HP Hs Ha Hc. rewrite <-Hl in Hg. apply (one_change s s W W' Y b); try done. by rewrite Hl. Qed.

Lemma rebound_edit s W W' Y nb mb ch :
  bounds_ok store_ok tk s → ts_hidden s = None → get_max_bound s = Some mb → bounds_window nb W' →
  length W' = length W → length W ≤ limit → P' = W' ++ Y → ssorted cmp P' →
  accepted W ch → consume W ch = W' →
  maintains s W W'
    (let s := set_state tk s key (Z.of_nat (length W)) (Some nb) mb in Some (s, emit out s ch)).
Proof.
  intros Hok Hh Hmb Hb Hl Hlen HP Hs Ha Hc. cbn zeta. rewrite <-Hl.
  destruct (set_state_spec store_ok tk s key (Z.of_nat (length W')) (Some nb) mb Hok Hnmax Hmb)
    as (Hok' & Hg & Ho & Hh' & He).
  apply (one_change s _ W W' Y nb); try done. by rewrite Hl.
Qed.

(** What the window is once the change is applied to the whole input. *)
Lemma window_is W' Y W :
  P' = W' ++ Y → length W' = length W → length W ≤ limit → (Y ≠ [] → length W = limit) → take limit P' = W'.
Proof.
  intros HP Hl Hlen Hf. rewrite HP. destruct Y as [|y Y]; [rewrite app_nil_r; apply take_ge; lia|].
  apply take_window. rewrite Hl. by apply Hf.
Qed.

Section edit.
Context (s : TakeSt St) (n old : node) (A R : list row) (m b : row) (mb : option row).
#[local] Abbreviation r := (node_row n).
#[local] Abbreviation o := (node_row old).
#[local] Abbreviation W := (A ++ [m]).
Context (Hok : bounds_ok store_ok tk s) (Hh : ts_hidden s = None) (Hmb : get_max_bound s = Some mb).
Context (Hg : st_get key (ts_store s) = Some (SvTake (Z.of_nat (length W)) (Some b))) (Hbm : cmp b m = Eq).
Context (Hlen : length W ≤ limit) (Hfull : R ≠ [] → length W = limit) (Hs : ssorted cmp (A ++ m :: R)).
Context (Hv : change_valid cmp (SEdit r o) (A ++ m :: R)).
Context (HP : P' = sl_insert cmp r (sl_delete cmp o (A ++ m :: R))).
Context (Hout : tk_output tk = Some out) (Hko : key_from_row tk o = Some key) (Hco : constraint_for tk o = Some c).

Lemma edit_sorted : ssorted cmp P'.
Proof. rewrite HP. by apply (sl_insert_sorted cmp), (sl_delete_sorted cmp). Qed.

Lemma edit_parts :
  ssorted cmp A ∧ Forall (λ x, cmp x m = Lt) A ∧ Forall (λ x, cmp x m = Gt) R ∧ ssorted cmp R ∧ ssorted cmp W.
Proof.
  pose proof Hs as (? & ? & ? & ?)%(middle_sorted (tk_sort tk)). split_and!; try done.
  pose proof Hs as Hs'. rewrite cons_middle, (assoc_L (++)) in Hs'. by apply (ssorted_app cmp) in Hs' as (? & _).
Qed.

Lemma edit_cut : cut (tk_sort tk) b A [m] R.
Proof. apply cut_middle; [done|by apply (cmp_eq_sym cmp)]. Qed.

Ltac enter :=
  unfold take_push_edit; rewrite Hout; cbn [mbind option_bind]; rewrite Hko; cbn [mbind option_bind];
  unfold get_state; rewrite Hg; cbn [mbind option_bind]; rewrite Hmb; cbn [mbind option_bind];
  rewrite Hco; cbn [mbind option_bind]; rewrite !(cmp_eq_r cmp _ b m) by done; cbn zeta.

(** Both rows past the bound. *)
Lemma edit_outside :
  o ∈ R → cmp r m = Gt → maintains s W (take limit P') (take_push_edit input_fetch tk s n old).
Proof.
  intros HoR Hr. destruct edit_parts as (HsA & HA & HR & HsR & HsW). pose proof edit_sorted as HsP.
  assert (cmp o m = Gt) as Ho by (rewrite Forall_forall in HR; by apply HR).
  enter. rewrite Ho, Hr.
  rewrite (delete_above (tk_sort tk)), (insert_above (tk_sort tk)) in HP; [..|by apply (cmp_gt_lt cmp)| |].
  - rewrite (window_is W (sl_insert cmp r (sl_delete cmp o R)) W); try done.
    + apply maintains_none; [done| |done]. eapply describes_window; [done|]. by apply bounds_window_snoc.
    + by rewrite HP, cons_middle, (assoc_L (++)).
    + intros _. apply Hfull. by intros ->; apply elem_of_nil in HoR.
  - pose proof (sl_delete_sorted cmp o _ Hs) as Hd. rewrite (delete_above (tk_sort tk)) in Hd; [done|done|].
    by apply (cmp_gt_lt cmp).
  - done.
  - by apply (cmp_gt_lt cmp).
Qed.

(** The edited row stays below the bound. *)
Lemma edit_inside :
  o ∈ A → cmp r m = Lt → maintains s W (take limit P') (take_push_edit input_fetch tk s n old).
Proof.
  intros HoA Hr. destruct edit_parts as (HsA & HA & HR & HsR & HsW). pose proof edit_sorted as HsP.
  assert (cmp o m = Lt) as Ho by (rewrite Forall_forall in HA; by apply HA).
  pose proof (sl_delete_sorted cmp o _ Hs) as Hd. destruct Hv as [_ Hf].
  rewrite (delete_below (tk_sort tk)) in Hd, HP, Hf by done.
  rewrite (insert_below (tk_sort tk)) in HP by done.
  enter. rewrite Ho, Hr.
  assert (sl_find cmp r (sl_delete cmp o A ++ [m]) = None) as Hf'.
  { apply (find_none_sub _ _ _ Hf), window_sub. }
  assert (length (sl_insert cmp r (sl_delete cmp o A) ++ [m]) = length W) as Hl.
  { rewrite !length_app. f_equal. rewrite (sl_insert_length cmp) by (by apply (sl_delete_sorted cmp)).
    rewrite (delete_length_in (tk_sort tk) o A HoA).
    rewrite (find_none_sub _ _ (sl_delete cmp o A) Hf'); [done|]. intros x Hx. apply elem_of_app. by left. }
  assert (P' = (sl_insert cmp r (sl_delete cmp o A) ++ [m]) ++ R) as HP2 by (by rewrite HP, <-(assoc_L (++))).
  rewrite (window_is _ R W HP2) by done.
  apply (forward_edit s W _ R b); try done.
  - by apply bounds_window_snoc.
  - split; [apply elem_of_app; by left|]. by rewrite (delete_below (tk_sort tk)).
  - unfold consume. cbn [row_change apply_source_change].
    rewrite (delete_below (tk_sort tk)), (insert_below (tk_sort tk)); try done.
    pose proof (sl_delete_sorted cmp o _ HsW) as Hd'. by rewrite (delete_below (tk_sort tk)) in Hd'.
Qed.

(** A row of the window moves past the bound. *)
Lemma edit_leaves :
  o ∈ A → cmp r m = Gt → maintains s W (take limit P') (take_push_edit input_fetch tk s n old).
Proof.
  intros HoA Hr. destruct edit_parts as (HsA & HA & HR & HsR & HsW). pose proof edit_sorted as HsP.
  assert (cmp o m = Lt) as Ho by (rewrite Forall_forall in HA; by apply HA).
  assert (cmp m r = Lt) as Hr' by (by apply (cmp_gt_lt cmp)).
  pose proof (sl_delete_sorted cmp o _ Hs) as Hd. destruct Hv as [Ho_in Hf].
  rewrite (delete_below (tk_sort tk)) in Hd, HP, Hf by done.
  rewrite (insert_above (tk_sort tk)) in HP by done.
  pose proof (delete_length_in (tk_sort tk) o A HoA) as HlA.
  assert (sl_find cmp r R = None) as HfR
    by (apply (find_none_sub _ _ _ Hf); intros x Hx; apply elem_of_app; right; by right).
  enter. rewrite Ho, Hr.
  pose proof (fetch_n_rows b After false 1) as Hfetch.
  rewrite HP in Hfetch. change (?X ++ m :: ?Y) with (X ++ [m] ++ Y) in Hfetch.
  rewrite (scan_cut (tk_sort tk) After false b (sl_delete cmp o A) [m] (sl_insert cmp r R)) in Hfetch.
  2: { rewrite HP in HsP. apply cut_middle; [done|by apply (cmp_eq_sym cmp)]. }
  destruct (sl_insert cmp r R) as [|y Y] eqn:HY.
  { pose proof (sl_insert_length cmp r R HsR) as Hl0. by rewrite HY, HfR in Hl0. }
  destruct (fetch_n input_fetch b After c false 1) as [|abn rest]; [done|]. injection Hfetch as Hy _.
  cbn [head hd_error mbind option_bind]. rewrite Hy.
  assert (ssorted cmp (sl_delete cmp o A ++ [m])) as HsD.
  { rewrite cons_middle, (assoc_L (++)) in Hd. by apply (ssorted_app cmp) in Hd as (? & _). }
  assert (sl_delete cmp o W = sl_delete cmp o A ++ [m]) as HdW by (by rewrite (delete_below (tk_sort tk))).
  assert (length ((sl_delete cmp o A ++ [m]) ++ [y]) = length W) as Hl.
  { rewrite !length_app. cbn. lia. }
  assert (P' = ((sl_delete cmp o A ++ [m]) ++ [y]) ++ Y) as HP2 by (by rewrite HP, <-!(assoc_L (++))).
  assert (Y ≠ [] → length W = limit) as Hfull'.
  { intros HYn. apply Hfull. intros ->. cbn in HY. by injection HY as _ <-. }
  rewrite (window_is _ Y W HP2) by done.
  destruct (is_eq (cmp y r)) eqn:Ht.
  - assert (y = r) as -> by (eapply (insert_tie_eq r y R Y); try done; by destruct (cmp y r)).
    apply (rebound_edit s W _ Y r); try done.
    + apply bounds_window_snoc, cmp_refl.
    + split; [apply elem_of_app; by left|]. rewrite HdW. apply (find_none_sub _ _ _ Hf), window_sub.
    + unfold consume. cbn [row_change apply_source_change].
      by rewrite HdW, (insert_above (tk_sort tk)), <-(assoc_L (++)).
  - apply (refill_swap s W (sl_delete cmp o A ++ [m]) _ Y mb b _ y); try done.
    + eapply Forall_impl; [by apply (ssorted_snoc (tk_sort tk))|]. intros x Hx. cbn beta in *.
      by rewrite (cmp_eq_l b m x).
    + rewrite (cmp_eq_l b m y) by done. rewrite HP in HsP.
      apply (middle_sorted (tk_sort tk)) in HsP as (_ & _ & [Hy' _]%Forall_cons & _). by apply (cmp_gt_lt cmp).
    + by rewrite HP, <-!(assoc_L (++)).
    + by rewrite Hl.
    + unfold accepted. cbn. apply elem_of_app. by left.
    + by rewrite Hl.
Qed.

(** The bound row keeps its place. *)
Lemma edit_bound_stays :
  o = m → cmp r m = Eq → maintains s W (take limit P') (take_push_edit input_fetch tk s n old).
Proof.
  intros Ho Hr. destruct edit_parts as (HsA & HA & HR & HsR & HsW). pose proof edit_sorted as HsP. destruct Hv as [_ Hf].
  rewrite Ho in HP, Hf. rewrite (delete_here (tk_sort tk)) in HP, Hf by done.
  enter. rewrite Ho, cmp_refl, Hr.
  assert (Forall (λ x, cmp x r = Lt) A) as HAr.
  { apply (all_lt_tie (tk_sort tk) m); [by apply (cmp_eq_sym cmp)|done]. }
  assert (Forall (λ x, cmp x r = Gt) R) as HRr.
  { apply (all_gt_tie (tk_sort tk) m); [by apply (cmp_eq_sym cmp)|done]. }
  rewrite (sl_insert_lt cmp) in HP by done. rewrite <-(app_nil_l R), (sl_insert_gt cmp) in HP by done. cbn in HP.
  assert (P' = (A ++ [r]) ++ R) as HP2 by (by rewrite HP, <-(assoc_L (++))).
  assert (length (A ++ [r]) = length W) as Hl by (by rewrite !length_app).
  rewrite (window_is _ R W HP2) by done.
  apply (forward_edit s W _ R b); try done.
  - apply bounds_window_snoc. by rewrite (cmp_eq_l b m r), (cmp_eq_sym cmp r m).
  - unfold accepted. cbn [row_change change_valid]. rewrite Ho. split; [apply elem_of_app; right; by left|].
    rewrite (delete_here (tk_sort tk)), app_nil_r by done. apply (find_none_sub _ _ _ Hf). clear. set_solver.
  - unfold consume. cbn [row_change apply_source_change].
    rewrite Ho, (delete_here (tk_sort tk)) by done. by rewrite (sl_insert_lt cmp).
Qed.

(** The bound row moves down: the row before it becomes the bound. *)
Lemma edit_bound_lowers :
  o = m → cmp r m = Lt → maintains s W (take limit P') (take_push_edit input_fetch tk s n old).
Proof.
  intros Ho Hr. destruct edit_parts as (HsA & HA & HR & HsR & HsW). pose proof edit_sorted as HsP. destruct Hv as [_ Hf].
  rewrite Ho in HP, Hf. rewrite (delete_here (tk_sort tk)) in HP, Hf by done.
  enter. rewrite Ho, cmp_refl, Hr.
  assert (Forall (λ x, cmp x r = Gt) R) as HRr.
  { eapply Forall_impl; [exact HR|]. intros x Hx. cbn beta in *. apply (cmp_lt_gt cmp).
    apply (cmp_lt_trans r m x); [done|by apply (cmp_gt_lt cmp)]. }
  rewrite (sl_insert_gt cmp) in HP by done.
  assert (sl_find cmp r A = None) as HfA by (apply (find_none_sub _ _ _ Hf); clear; set_solver).
  assert (length (sl_insert cmp r A) = length W) as Hl
    by (rewrite (sl_insert_length cmp), HfA, length_app by done; cbn; lia).
  rewrite (window_is _ R W HP) by done.
  assert (∀ nb, bounds_window nb (sl_insert cmp r A) → maintains s W (sl_insert cmp r A)
    (let s := set_state tk s key (Z.of_nat (length W)) (Some nb) mb in Some (s, emit out s (Edit n old)))) as Hgo.
  { intros nb Hnb. apply (rebound_edit s W _ R nb); try done.
    - unfold accepted. cbn [row_change change_valid]. rewrite Ho. split; [apply elem_of_app; right; by left|].
      by rewrite (delete_here (tk_sort tk)), app_nil_r.
    - unfold consume. cbn [row_change apply_source_change].
      by rewrite Ho, (delete_here (tk_sort tk)), app_nil_r. }
  destruct (Z.eqb_spec (tk_limit tk) 1) as [H1|H1].
  - apply Hgo. assert (A = []) as -> by (rewrite length_app in Hlen; cbn in Hlen; destruct A; [done|cbn in Hlen; lia]).
    exists r. by rewrite cmp_refl.
  - pose proof (fetch_n_rows b After true 1) as Hfetch.
    rewrite HP, <-(app_nil_l R), (scan_cut (tk_sort tk) After true b (sl_insert cmp r A) [] R) in Hfetch.
    2: { split; [|done|by destruct edit_cut]. apply Forall_forall. intros x.
         rewrite (sl_insert_perm cmp) by done. intros [->|Hx]%elem_of_cons.
         - by rewrite (cmp_eq_r cmp _ b m).
         - destruct edit_cut as [HAb _ _]. rewrite Forall_forall in HAb. by apply HAb. }
    destruct (displaced_bound A r HsA HfA) as (l & Hl' & _).
    pose proof Hl' as [X HX]%last_Some. rewrite HX, reverse_snoc in Hfetch.
    destruct (fetch_n input_fetch b After c true 1) as [|bbn rest]; [done|]. injection Hfetch as Hbbn _.
    cbn [head hd_error mbind option_bind]. rewrite Hbbn. apply Hgo. exists l. by rewrite cmp_refl.
Qed.

(** The bound row moves up: out of the window, or to be the bound again. *)
Lemma edit_bound_rises :
  o = m → cmp r m = Gt → maintains s W (take limit P') (take_push_edit input_fetch tk s n old).
Proof.
  intros Ho Hr. destruct edit_parts as (HsA & HA & HR & HsR & HsW). pose proof edit_sorted as HsP. destruct Hv as [_ Hf].
  rewrite Ho in HP, Hf. rewrite (delete_here (tk_sort tk)) in HP, Hf by done.
  enter. rewrite Ho, cmp_refl, Hr.
  assert (Forall (λ x, cmp x r = Lt) A) as HAr.
  { eapply Forall_impl; [exact HA|]. intros x Hx. cbn beta in *.
    apply (cmp_lt_trans x m r); [done|by apply (cmp_gt_lt cmp)]. }
  rewrite (sl_insert_lt cmp) in HP by done.
  assert (sl_find cmp r R = None ∧ sl_find cmp r A = None) as [HfR HfA].
  { split; apply (find_none_sub _ _ _ Hf); clear; set_solver. }
  pose proof (sl_insert_sorted cmp r R HsR) as HsIR.
  assert (Forall (λ x, cmp x b = Gt) (sl_insert cmp r R)) as HIR.
  { apply Forall_forall. intros x. rewrite (sl_insert_perm cmp) by done. intros [->|Hx]%elem_of_cons.
    - by rewrite (cmp_eq_r cmp _ b m).
    - destruct edit_cut as [_ _ HRb]. rewrite Forall_forall in HRb. by apply HRb. }
  pose proof (fetch_n_rows b At false 1) as Hfetch.
  rewrite HP, <-(app_nil_l (sl_insert cmp r R)), (scan_cut (tk_sort tk) At false b A [] (sl_insert cmp r R)) in Hfetch
    by (by split; [destruct edit_cut| |]).
  destruct (sl_insert cmp r R) as [|y Y] eqn:HY.
  { pose proof (sl_insert_length cmp r R HsR) as Hl0. by rewrite HY, HfR in Hl0. }
  destruct (fetch_n input_fetch b At c false 1) as [|nbn rest]; [done|]. injection Hfetch as Hy _.
  cbn [head hd_error mbind option_bind]. rewrite Hy.
  assert (length (A ++ [y]) = length W) as Hl by (by rewrite !length_app).
  assert (P' = (A ++ [y]) ++ Y) as HP2 by (by rewrite HP, <-(assoc_L (++))).
  assert (Y ≠ [] → length W = limit) as Hfull'.
  { intros HYn. apply Hfull. intros ->. cbn in HY. by injection HY as _ <-. }
  rewrite (window_is _ Y W HP2) by done.
  assert (sl_delete cmp m W = A) as HdW by (rewrite (delete_here (tk_sort tk)), app_nil_r; done).
  destruct (is_eq (cmp y r)) eqn:Ht.
  - assert (y = r) as -> by (eapply (insert_tie_eq r y R Y); try done; by destruct (cmp y r)).
    apply (rebound_edit s W _ Y r); try done.
    + apply bounds_window_snoc, cmp_refl.
    + unfold accepted. cbn [row_change change_valid]. rewrite Ho, HdW. split; [|done].
      apply elem_of_app; right; by left.
    + unfold consume. cbn [row_change apply_source_change]. rewrite Ho, HdW.
      rewrite <-(app_nil_r A) at 1. by rewrite (sl_insert_lt cmp).
  - assert (Forall (λ x, cmp x y = Lt) A) as HAy.
    { rewrite HP in HsP. by apply (middle_sorted (tk_sort tk)) in HsP as (_ & ? & _). }
    rewrite <-Hl. apply (hidden_swap s W A _ Y mb y y old nbn); try done.
    + apply bounds_window_snoc, cmp_refl.
    + rewrite length_app in Hlen. lia.
    + by rewrite Hl.
    + by apply (hide_last (tk_sort tk)).
    + unfold accepted. cbn. rewrite Ho. apply elem_of_app; right; by left.
    + unfold consume. cbn [row_change apply_source_change]. by rewrite Ho.
    + unfold accepted. cbn [row_change change_valid]. rewrite Hy. apply (sl_find_None cmp). intros x Hx.
      rewrite Forall_forall in HAy. by rewrite (HAy x Hx).
    + unfold consume. cbn [row_change apply_source_change]. rewrite Hy.
      rewrite <-(app_nil_r A) at 1. by rewrite (sl_insert_lt cmp).
Qed.

(** A row enters the window: the bound row leaves it. *)
Lemma edit_enters :
  o ∈ R → cmp r m = Lt → maintains s W (take limit P') (take_push_edit input_fetch tk s n old).
Proof.
  intros HoR Hr. destruct edit_parts as (HsA & HA & HR & HsR & HsW). pose proof edit_sorted as HsP. destruct Hv as [_ Hf].
  assert (cmp o m = Gt) as Ho by (rewrite Forall_forall in HR; by apply HR).
  pose proof (sl_delete_sorted cmp o _ Hs) as Hd.
  rewrite (delete_above (tk_sort tk)) in HP, Hf, Hd by (done || by apply (cmp_gt_lt cmp)).
  rewrite (insert_below (tk_sort tk)) in HP by done.
  assert (sl_find cmp r A = None) as HfA by (apply (find_none_sub _ _ _ Hf); clear; set_solver).
  specialize (Hfull ltac:(intros ->; by apply elem_of_nil in HoR)).
  enter. rewrite Ho, Hr.
  destruct (fetch_back_two b m (sl_insert cmp r A) (sl_delete cmp o R)) as (bn & rest & -> & Hbn & Hrest);
    [by apply (cmp_eq_sym cmp)|done|done|].
  destruct (displaced_bound A r HsA HfA) as (l & Hl & _).
  pose proof Hl as [X HX]%last_Some. rewrite HX, reverse_snoc in Hrest.
  destruct rest as [|nb rest]; [done|]. injection Hrest as Hnb _. rewrite Hnb.
  assert (length (sl_insert cmp r A) = length W) as HlI
    by (rewrite (sl_insert_length cmp), HfA, length_app by done; cbn; lia).
  rewrite (window_is _ (m :: sl_delete cmp o R) W HP) by done.
  apply (displace s n A m (m :: sl_delete cmp o R)); try done. exists l. by rewrite cmp_refl.
Qed.

Lemma push_edit_maintains : maintains s W (take limit P') (take_push_edit input_fetch tk s n old).
Proof.
  pose proof Hv as [Ho Hf]. apply elem_of_app in Ho as [HoA|[Ho|HoR]%elem_of_cons].
  - destruct (cmp r m) eqn:Hr; [|by apply edit_inside|by apply edit_leaves].
    exfalso. rewrite (sl_find_None cmp) in Hf. apply (Hf m); [|by apply (cmp_eq_sym cmp)].
    destruct edit_parts as (_ & HA & _). rewrite Forall_forall in HA.
    rewrite (delete_below (tk_sort tk)) by (done || by apply HA). apply elem_of_app. right. by left.
  - destruct (cmp r m) eqn:Hr; [by apply edit_bound_stays|by apply edit_bound_lowers|by apply edit_bound_rises].
  - destruct (cmp r m) eqn:Hr; [|by apply edit_enters|by apply edit_outside].
    exfalso. rewrite (sl_find_None cmp) in Hf. apply (Hf m); [|by apply (cmp_eq_sym cmp)].
    destruct edit_parts as (_ & _ & HR & _). rewrite Forall_forall in HR.
    rewrite (delete_above (tk_sort tk)); [|done|by apply (cmp_gt_lt cmp), HR]. apply elem_of_app. right. by left.
Qed.
End edit.
End push.
