(* ===== verification/TakeSpec.v ===== *)
(** * What [Take] promises

    The operator is its window: hydrated, a partition yields the first [limit]
    rows of its input and remembers them; a push takes the first [limit] rows
    before the change to the first [limit] rows after it. *)

From stdpp Require Import base list numbers option sorting sets strings.
From Stdlib Require Import ZArith Lia Strings.Byte.
From S2P Require Import Prelude Values Rows BTree BTreeFacts BTreeCursor Change Connections Overlay Errors Push MemorySourceFacts SourceFetch Flat OrdMap Storage Partition Take TakeFacts.

#[local] Open Scope nat_scope.

(** ** Partitions *)

(** The row that tells the partition of a change. *)
Definition changed_row (ch : change) : row :=
  match ch with
  | Add n | Remove n | Child n _ _ => node_row n
  | Edit _ old => node_row old
  end.

Section partitions.
Context (tk : TakeOp).

(** The constraint of a row's partition, its key, and the regime of the fetch. *)
Lemma partition_of_row (r : row) c :
  constraint_for tk r = Some c →
  key_from_row tk r = Some (key_from_constraint tk c) ∧
  partition_match tk (MkFetch c [] None false) = true ∧ key_from_constraint tk c ≠ MAX_BOUND_KEY.
Proof.
  unfold constraint_for, key_from_row, key_from_constraint, partition_match.
  destruct (tk_partition_key tk) as [pk|]; [|by intros [= <-]].
  destruct (mapM (λ col, v ← r !! col; Some (col, v)) pk) as [c'|] eqn:Hm; [|done].
  cbn [mbind option_bind]. intros [= <-]. apply constraint_for_values in Hm as (-> & Hpk & Hr).
  cbn [mbind option_bind req_constraint]. split_and!; [|clear Hr|done].
  - do 2 f_equal. subst pk. rewrite map_map. apply map_ext_in. intros [col v] Hin. cbn [fst snd].
    apply list_elem_of_In in Hin. by rewrite (assoc_row r c' col v).
  - subst pk. unfold constraint_matches_partition_key. rewrite length_map, Nat.eqb_refl. cbn [andb].
    apply forallb_forall. intros p (e & <- & He)%in_map_iff. apply existsb_exists. exists e.
    split; [done|]. apply Nat.eqb_refl.
Qed.
End partitions.

(** ** Pushing *)

Section push.
Context {St : Type} `{!Storage St} (store_ok : St → Prop) `{!StorageLaws St store_ok}.
Context (input_fetch : FetchRequest → list node) (deadline : nat → bool) (tk : TakeOp).
Context (Hdl : ∀ i, deadline i = false) (Hlimit : (0 < tk_limit tk < 2 ^ 32)%Z).
Context (out : OutEdge) (Hout : tk_output tk = Some out).
#[local] Abbreviation cmp := (row_cmp (tk_sort tk)).
#[local] Abbreviation limit := (Z.to_nat (tk_limit tk)).
Implicit Types (s : TakeSt St) (P W : list row) (c : option Constraint).

(** The state of a hydrated partition. *)
Definition hydrated s c W : Prop :=
  ∃ bd, st_get (key_from_constraint tk c) (ts_store s) = Some (SvTake (Z.of_nat (length W)) bd) ∧
    option_Forall2 (λ a b, cmp a b = Eq) bd (last W).

(** The input shows the rows [P] of the partition. *)
Definition shows c P : Prop :=
  ∀ st rev, map node_row (input_fetch (MkFetch c [] st rev)) = scan (tk_sort tk) st rev P.

(** A window is empty, or all of the rows, or full. *)
Lemma window_cases P A m :
  take limit P = A ++ [m] →
  P = A ++ m :: drop limit P ∧ length (A ++ [m]) ≤ limit ∧ (drop limit P ≠ [] → length (A ++ [m]) = limit).
Proof.
  intros H. split_and!.
  - rewrite <-(take_drop limit P) at 1. by rewrite H, <-(assoc_L (++)).
  - rewrite <-H, length_take. lia.
  - intros Hd. rewrite <-H, length_take. destruct (decide (limit ≤ length P)); [lia|].
    destruct Hd. apply drop_ge. lia.
Qed.

Lemma push_child s P c n rel child :
  ssorted cmp P → constraint_for tk (node_row n) = Some c → shows c P →
  bounds_ok store_ok tk s → ts_hidden s = None → hydrated s c (take limit P) →
  maintains store_ok input_fetch tk (key_from_constraint tk c) c out s (take limit P) (take limit P)
    (take_push input_fetch deadline tk s (Child n rel child)).
Proof.
  intros Hs Hc Hin Hok Hh (bd & Hg & Hb). destruct (partition_of_row tk _ c Hc) as (Hk & Hm & Hn).
  pose proof Hok as [_ [mb Hmb] _].
  unfold take_push. rewrite Hk. cbn [mbind option_bind]. unfold get_state. rewrite Hg. cbn [mbind option_bind].
  rewrite Hmb. cbn [mbind option_bind]. rewrite Hc. cbn [mbind option_bind]. rewrite Hout. cbn [mbind option_bind].
  assert (describes tk s (key_from_constraint tk c) (take limit P)) as Hd by (left; by exists bd).
  destruct bd as [b|]; [|by apply maintains_none].
  destruct (is_gt (cmp (node_row n) b)); [by apply maintains_none|].
  inversion Hb as [b' l Hbl Hb' Hl|]. subst b'. symmetry in Hl.
  apply (maintains_one store_ok input_fetch tk _ c out s s); try done.
  - rewrite length_take. lia.
  - rewrite (reads_window input_fetch tk (key_from_constraint tk c) c P eq_refl Hm Hin s b (take limit P) (drop limit P));
      [by rewrite Hh|done|by exists l|by rewrite take_drop|done].
Qed.

Lemma window_shape P : P = [] ∨ ∃ A m, take limit P = A ++ [m].
Proof.
  destruct (take limit P) as [|m A _] eqn:H using rev_ind; [|right; by exists A, m].
  left. destruct P as [|x P]; [done|]. destruct limit eqn:E; [lia|done].
Qed.

Lemma bounds_tie bd A (m : row) :
  option_Forall2 (λ a b, cmp a b = Eq) bd (last (A ++ [m])) → ∃ b, bd = Some b ∧ cmp b m = Eq.
Proof. rewrite last_snoc. intros H. inversion H. by eexists. Qed.

(** An addition, for a partition in any shape. *)
Lemma push_add_maintains s P c key mb bd n :
  ssorted cmp P → change_valid cmp (SAdd (node_row n)) P →
  key_from_constraint tk c = key → partition_match tk (MkFetch c [] None false) = true → key ≠ MAX_BOUND_KEY →
  shows c (sl_insert cmp (node_row n) P) →
  bounds_ok store_ok tk s → ts_hidden s = None → get_max_bound s = Some mb →
  st_get key (ts_store s) = Some (SvTake (Z.of_nat (length (take limit P))) bd) →
  option_Forall2 (λ a b, cmp a b = Eq) bd (last (take limit P)) →
  maintains store_ok input_fetch tk key c out s (take limit P) (take limit (sl_insert cmp (node_row n) P))
    (take_push_add input_fetch tk s n out key (Z.of_nat (length (take limit P))) bd mb c).
Proof.
  intros Hs Hv Hk Hm Hn Hin Hok Hh Hmb Hg Hb.
  destruct (decide (Z.of_nat (length P) < tk_limit tk)%Z) as [Hroom|Hfull].
  - rewrite (take_ge P) in * by lia.
    rewrite take_ge by (rewrite (sl_insert_length cmp) by done; cbn in Hv; rewrite Hv; lia).
    by eapply (push_add_room store_ok input_fetch tk key c (sl_insert cmp (node_row n) P)).
  - destruct (window_shape P) as [->|(A & m & Hw)]; [cbn in Hfull; lia|].
    destruct (window_cases P A m Hw) as (HP & Hlen & _).
    assert (length (A ++ [m]) = limit) as Hl by (rewrite <-Hw, length_take; lia).
    rewrite Hw in Hg, Hb |- *. destruct (bounds_tie bd A m Hb) as (b & -> & Hbm).
    rewrite HP in Hs, Hv.
    eapply (push_add_full store_ok input_fetch tk key c (sl_insert cmp (node_row n) P)); try done.
    by rewrite HP at 1.
Qed.

Lemma push_maintains_window s P c ch :
  ssorted cmp P → accepted tk P ch → constraint_for tk (changed_row ch) = Some c → shows c (consume tk P ch) →
  bounds_ok store_ok tk s → ts_hidden s = None → hydrated s c (take limit P) →
  maintains store_ok input_fetch tk (key_from_constraint tk c) c out s
    (take limit P) (take limit (consume tk P ch)) (take_push input_fetch deadline tk s ch).
Proof.
  intros Hs Ha Hc Hin Hok Hh Hhy. destruct (partition_of_row tk _ c Hc) as (Hk & Hm & Hn).
  destruct ch as [n|n|n old|n rel child]; cbn [changed_row] in *; [| | |by apply push_child].
  all: pose proof Hok as [_ [mb Hmb] _]; destruct Hhy as (bd & Hg & Hb).
  1,2: unfold take_push; rewrite Hk; cbn [mbind option_bind]; unfold get_state; rewrite Hg; cbn [mbind option_bind];
    rewrite Hmb; cbn [mbind option_bind]; rewrite Hc; cbn [mbind option_bind]; rewrite Hout; cbn [mbind option_bind].
  - by apply push_add_maintains.
  - destruct (window_shape P) as [->|(A & m & Hw)]; [by apply elem_of_nil in Ha|].
    destruct (window_cases P A m Hw) as (HP & Hlen & Hf). rewrite Hw in Hg, Hb |- *.
    destruct (bounds_tie bd A m Hb) as (b & -> & Hbm). unfold accepted in Ha. cbn [row_change] in Ha.
    unfold consume in *. cbn [row_change apply_source_change] in *.
    eapply (push_remove_maintains store_ok input_fetch tk _ c (sl_delete cmp (node_row n) P)); try done;
      rewrite <-?HP; done.
  - destruct (window_shape P) as [->|(A & m & Hw)]; [by destruct Ha as [Ha%elem_of_nil _]|].
    destruct (window_cases P A m Hw) as (HP & Hlen & Hf). rewrite Hw in Hg, Hb |- *.
    destruct (bounds_tie bd A m Hb) as (b & -> & Hbm). unfold accepted in Ha. cbn [row_change] in Ha.
    unfold consume in *. cbn [row_change apply_source_change] in *.
    eapply (push_edit_maintains store_ok input_fetch tk _ c
      (sl_insert cmp (node_row n) (sl_delete cmp (node_row old) P))); try done; rewrite <-?HP; done.
Qed.

(** ** Hydrating *)

Lemma take_first_spec k bd ns res size bd' :
  (0 <= k < tk_limit tk)%Z → take_first tk k bd ns = (res, size, bd') →
  res = take (Z.to_nat (tk_limit tk - k)) ns ∧ size = (k + Z.of_nat (length res))%Z ∧
  bd' = match last res with Some n => Some (node_row n) | None => bd end.
Proof.
  revert k bd res size bd'. induction ns as [|n ns IH]; intros k bd res size bd' Hk; cbn [take_first].
  { intros [= <- <- <-]. rewrite take_nil. split_and!; [done|cbn; lia|done]. }
  assert (u32_add k 1 = k + 1)%Z as -> by (unfold u32_add; rewrite Z.mod_small; lia).
  destruct (Z.eqb_spec (k + 1) (tk_limit tk)) as [He|He].
  - intros [= <- <- <-]. replace (Z.to_nat (tk_limit tk - k)) with 1 by lia. done.
  - destruct (take_first tk (k + 1) (Some (node_row n)) ns) as [[o sz] b] eqn:E. intros [= <- <- <-].
    apply IH in E as (-> & -> & ->); [|lia].
    replace (Z.to_nat (tk_limit tk - k)) with (S (Z.to_nat (tk_limit tk - (k + 1)))) by lia.
    cbn [take length]. split_and!; [done|lia|]. rewrite last_cons. by destruct (last _).
Qed.

Lemma key_not_max c : key_from_constraint tk c ≠ MAX_BOUND_KEY.
Proof. unfold key_from_constraint. by destruct (tk_partition_key tk), c. Qed.

Lemma hydrate s c P :
  partition_match tk (MkFetch c [] None false) = true → shows c P → bounds_ok store_ok tk s →
  st_get (key_from_constraint tk c) (ts_store s) = None →
  ∃ s' ns, take_fetch input_fetch tk s (MkFetch c [] None false) = Some (s', ns) ∧
    map node_row ns = take limit P ∧ bounds_ok store_ok tk s' ∧ hydrated s' c (take limit P) ∧
    ts_hidden s' = ts_hidden s ∧ ts_error s' = ts_error s ∧ others s s' (key_from_constraint tk c).
Proof.
  intros Hm Hin Hok Hg. unfold take_fetch. rewrite Hm. cbn [req_constraint]. unfold get_state. rewrite Hg.
  cbn [mbind option_bind]. unfold initial_fetch. destruct (Z.eqb_spec (tk_limit tk) 0); [lia|].
  cbn [req_constraint].
  destruct (take_first tk 0 None _) as [[res size] bd] eqn:E. apply take_first_spec in E as (-> & -> & ->); [|lia].
  pose proof Hok as [_ [mb Hmb] _]. rewrite Hmb. cbn [mbind option_bind]. rewrite Z.sub_0_r, Z.add_0_l.
  set (ns := take limit (input_fetch _)).
  assert (map node_row ns = take limit P) as Hns.
  { unfold ns. change (map node_row ?l) with (node_row <$> l). rewrite fmap_take.
    change (node_row <$> ?l) with (map node_row l). by rewrite Hin, scan_none. }
  destruct (set_state_spec store_ok tk s (key_from_constraint tk c) (Z.of_nat (length ns))
    (match last ns with Some n => Some (node_row n) | None => None end) mb Hok (key_not_max c) Hmb)
    as (Hok' & Hg' & Ho & Hh & He).
  eexists _, ns. split_and!; [done..| |done|done|done].
  eexists. rewrite Hg'. split; [by rewrite <-Hns, length_map|].
  rewrite <-Hns. change (map node_row ns) with (node_row <$> ns). rewrite fmap_last.
  destruct (last ns); constructor. apply cmp_refl.
Qed.

(** A hydrated partition reads its window. *)
Lemma hydrated_reads s c P :
  ssorted cmp P → partition_match tk (MkFetch c [] None false) = true → shows c P → ts_hidden s = None →
  hydrated s c (take limit P) → reads input_fetch tk c s = Some (take limit P).
Proof.
  intros Hs Hm Hin Hh (bd & Hg & Hb). destruct (window_shape P) as [->|(A & m & Hw)].
  - rewrite take_nil in *. inversion Hb; subst. unfold reads, take_fetch. rewrite Hm. cbn [req_constraint].
    unfold get_state. by rewrite Hg.
  - destruct (bounds_tie bd A m) as (b & -> & Hbm); [by rewrite <-Hw|].
    rewrite (reads_window input_fetch tk _ c P eq_refl Hm Hin s b (take limit P) (drop limit P));
      [by rewrite Hh|done| |by rewrite take_drop|done].
    exists m. by rewrite Hw, last_snoc.
Qed.

(** ** The deadline *)

(** An expired deadline parks its error once and leaves the window as it was. *)
Lemma push_deadline s n c P b size x :
  constraint_for tk (node_row n) = Some c → bounds_ok store_ok tk s →
  st_get (key_from_constraint tk c) (ts_store s) = Some (SvTake size (Some b)) →
  cmp (node_row n) b ≠ Gt → shows c P → x ∈ P → cmp x b ≠ Lt →
  take_push input_fetch (λ _, true) tk s (Remove n) = Some (park_error s deadline_error, []).
Proof.
  intros Hc [_ [mb Hmb] _] Hg Hle Hin Hx Hxb. destruct (partition_of_row tk _ c Hc) as (Hk & Hm & Hn).
  unfold take_push. rewrite Hk. cbn [mbind option_bind]. unfold get_state. rewrite Hg. cbn [mbind option_bind].
  rewrite Hmb. cbn [mbind option_bind]. rewrite Hc. cbn [mbind option_bind]. rewrite Hout. cbn [mbind option_bind].
  unfold take_push_remove. replace (is_gt (cmp (node_row n) b)) with false by (by destruct (cmp (node_row n) b)).
  pose proof (fetch_n_rows input_fetch tk c P Hin b After true 1) as Hf.
  destruct (input_fetch (MkFetch c [] (Some (MkStart b At)) false)) as [|n0 ns] eqn:Hns.
  { exfalso. pose proof (Hin (Some (MkStart b At)) false) as Hat. rewrite Hns in Hat.
    assert (x ∈ scan (tk_sort tk) (Some (MkStart b At)) false P) as Hsc; [|by rewrite <-Hat in Hsc; apply elem_of_nil in Hsc].
    unfold scan. apply elem_of_keep. split; [|done]. unfold start_ok, start_test. cbn.
    by destruct (cmp x b). }
  assert (∀ bbn l, fetch_n input_fetch b After c true 1 = bbn :: l → is_gt (cmp (node_row bbn) b) = false) as Hflag.
  { intros bbn l E. rewrite E in Hf. cbn [map] in Hf.
    assert (node_row bbn ∈ scan (tk_sort tk) (Some (MkStart b After)) true P) as Hsc.
    { destruct (scan (tk_sort tk) _ true P); [done|]. injection Hf as <- _. by left. }
    unfold scan in Hsc. apply elem_of_reverse, elem_of_keep in Hsc as [Hsc _].
    unfold start_ok, start_test, compare_rows_rev in Hsc. cbn in Hsc. by destruct (cmp (node_row bbn) b). }
  destruct (fetch_n input_fetch b After c true 1) as [|bbn l]; cbn zeta.
  - done.
  - by rewrite (Hflag bbn l).
Qed.

(** [C23] [Take::push] of any change that is valid for the rows of a hydrated
    partition, while the input already shows it, runs to its end and takes the
    window of the first [limit] rows to the window of the first [limit] rows after
    the change: every change pushed downstream can be applied to what the consumer
    holds, which never exceeds [limit] rows; a fetch made while a change is on its
    way reads the window with that change; the stored state describes the new
    window, no other partition's state moves and nothing stays hidden. *)
Theorem take_push_maintains s P c ch :
  ssorted cmp P → accepted tk P ch → constraint_for tk (changed_row ch) = Some c → shows c (consume tk P ch) →
  bounds_ok store_ok tk s → ts_hidden s = None → hydrated s c (take limit P) →
  maintains store_ok input_fetch tk (key_from_constraint tk c) c out s
    (take limit P) (take limit (consume tk P ch)) (take_push input_fetch deadline tk s ch).
Proof. apply push_maintains_window. Qed.

(** A refill scan of [Take::push] that meets an expired push deadline pushes
    nothing, leaves the stored window and the hidden row as they were and parks
    [PushDeadlineExceeded], unless an earlier error is parked already. *)
Theorem take_push_deadline s n c P b size x :
  constraint_for tk (node_row n) = Some c → bounds_ok store_ok tk s →
  st_get (key_from_constraint tk c) (ts_store s) = Some (SvTake size (Some b)) →
  cmp (node_row n) b ≠ Gt → shows c P → x ∈ P → cmp x b ≠ Lt →
  take_push input_fetch (λ _, true) tk s (Remove n) =
    Some (MkTakeSt (ts_store s) (ts_hidden s)
      (Some match ts_error s with Some e => e | None => PushDeadlineExceeded "take backfill scan" end), []).
Proof. intros. erewrite push_deadline by done. by destruct s as [? ? []]. Qed.
End push.

(** ** Runs *)

(** A top-level limit: one partition, whose input moves with every change. *)
Section run.
Context {St : Type} `{!Storage St} (store_ok : St → Prop) `{!StorageLaws St store_ok}.
Context (input : list row → FetchRequest → list node) (deadline : nat → bool) (tk : TakeOp).
#[local] Abbreviation cmp := (row_cmp (tk_sort tk)).
#[local] Abbreviation limit := (Z.to_nat (tk_limit tk)).
Implicit Types (s : TakeSt St) (P W : list row).

(** Every change is pushed once the input shows it. *)
Fixpoint take_run s P (chs : list change) : option (TakeSt St * list (OutEdge * change * TakeSt St)) :=
  match chs with
  | [] => Some (s, [])
  | ch :: chs =>
      let P' := consume tk P ch in
      '(s, l1) ← take_push (input P') deadline tk s ch;
      '(s, l2) ← take_run s P' chs;
      Some (s, l1 ++ l2)
  end.

Fixpoint run_valid P (chs : list change) : Prop :=
  match chs with
  | [] => True
  | ch :: chs => accepted tk P ch ∧ run_valid (consume tk P ch) chs
  end.

(** What a consumer makes of the log: every change applies to what it holds, and
    it never holds more than [limit] rows. *)
Fixpoint window_run W (log : list (OutEdge * change * TakeSt St)) W' : Prop :=
  match log with
  | [] => W = W'
  | (_, ch, _) :: log => accepted tk W ch ∧ length (consume tk W ch) ≤ limit ∧ window_run (consume tk W ch) log W'
  end.

Lemma window_run_app W l1 W1 l2 W2 : window_run W l1 W1 → window_run W1 l2 W2 → window_run W (l1 ++ l2) W2.
Proof.
  revert W. induction l1 as [|[[o ch] s] l1 IH]; intros W; [by intros ->|]. cbn.
  intros (Ha & Hl & H) H2. split_and!; [done..|]. by apply IH.
Qed.

Lemma log_ok_run fetch c out W log W' : log_ok fetch tk c out W log W' → window_run W log W'.
Proof.
  revert W. induction log as [|[[o ch] s] log IH]; intros W; [done|]. cbn. intros (_ & Ha & Hl & _ & H). auto.
Qed.

Lemma consume_sorted P ch : ssorted cmp P → ssorted cmp (consume tk P ch).
Proof.
  intros H. unfold consume. destruct ch; cbn [row_change apply_source_change]; try done;
    [by apply (sl_insert_sorted cmp)|by apply (sl_delete_sorted cmp)|].
  by apply (sl_insert_sorted cmp), (sl_delete_sorted cmp).
Qed.

Context (Hdl : ∀ i, deadline i = false) (Hlimit : (0 < tk_limit tk < 2 ^ 32)%Z).
Context (out : OutEdge) (Hout : tk_output tk = Some out) (Hnp : tk_partition_key tk = None).
Context (Hin : ∀ P, shows (input P) tk None P).

Lemma run_maintains s P chs :
  ssorted cmp P → run_valid P chs → bounds_ok store_ok tk s → ts_hidden s = None → hydrated tk s None (take limit P) →
  ∃ s' log, take_run s P chs = Some (s', log) ∧
    let P' := foldl (consume tk) P chs in
    window_run (take limit P) log (take limit P') ∧
    bounds_ok store_ok tk s' ∧ ts_hidden s' = None ∧ ts_error s' = ts_error s ∧
    hydrated tk s' None (take limit P') ∧ reads (input P') tk None s' = Some (take limit P').
Proof.
  revert s P. induction chs as [|ch chs IH]; intros s P Hs Hv Hok Hh Hhy; cbn [take_run foldl].
  { exists s, []. cbn. split_and!; try done.
    eapply (hydrated_reads (input P)); [exact Hlimit|done| |done..]. unfold partition_match. by rewrite Hnp. }
  destruct Hv as [Ha Hv].
  destruct (push_maintains_window store_ok (input (consume tk P ch)) deadline tk Hdl Hlimit out Hout s P None ch)
    as (s1 & l1 & Hp & Hok1 & Hd1 & Hh1 & He1 & _ & Hl1); try done.
  { unfold constraint_for. by rewrite Hnp. }
  assert (hydrated tk s1 None (take limit (consume tk P ch))) as Hhy1
    by (destruct Hd1 as [Hd1|(_ & Hd1 & _)]; [exact Hd1|done]).
  destruct (IH s1 (consume tk P ch)) as (s2 & l2 & Hr & Hw & Hok2 & Hh2 & He2 & Hy2 & Hrd); try done.
  { by apply consume_sorted. }
  rewrite Hp. cbn [mbind option_bind]. rewrite Hr. cbn [mbind option_bind]. exists s2, (l1 ++ l2).
  split_and!; try done; [|by rewrite He2].
  eapply window_run_app; [by eapply log_ok_run|done].
Qed.

(** [C21] A top-level [Take] is [take limit]: a first fetch from an operator that
    has stored nothing yields the first [limit] rows of the input, and after any
    sequence of valid changes the consumer that applied what was pushed, change by
    change and never above [limit] rows, holds the first [limit] rows of the input
    as it is then, which is also what a fetch reads. *)
Theorem take_refines_limit s P chs :
  ssorted cmp P → run_valid P chs → bounds_ok store_ok tk s → ts_hidden s = None →
  st_get (key_from_constraint tk None) (ts_store s) = None →
  ∃ s1 ns s2 log,
    take_fetch (input P) tk s (MkFetch None [] None false) = Some (s1, ns) ∧ map node_row ns = take limit P ∧
    take_run s1 P chs = Some (s2, log) ∧
    let P' := foldl (consume tk) P chs in
    window_run (take limit P) log (take limit P') ∧ ts_error s2 = ts_error s ∧
    reads (input P') tk None s2 = Some (take limit P').
Proof.
  intros Hs Hv Hok Hh Hg.
  destruct (hydrate store_ok (input P) tk Hlimit s None P) as (s1 & ns & Hf & Hns & Hok1 & Hy1 & Hh1 & He1 & _); try done.
  { unfold partition_match. by rewrite Hnp. }
  destruct (run_maintains s1 P chs) as (s2 & log & Hr & Hw & _ & _ & He & _ & Hrd); try done.
  { by rewrite Hh1. }
  exists s1, ns, s2, log. split_and!; try done. by rewrite He.
Qed.
End run.

(** ** Concrete runs *)

Definition ex_trow (g k v : Z) : row := [Int (i64_of_Z g); Int (i64_of_Z k); Int (i64_of_Z v)].
Definition ex_tsort : Sort := [(2, true); (1, true)].
Definition ex_edge : OutEdge := MkEdge 9 Single.

(** The two first rows of every group; the two first rows. *)
Definition ex_grouped : TakeOp := MkTake 0 0 2 (Some [0]) (Some ex_edge) ex_tsort.
Definition ex_top : TakeOp := MkTake 0 0 2 None (Some ex_edge) ex_tsort.

Definition ex_input (P : list row) (req : FetchRequest) : list node :=
  map leaf_node (scan ex_tsort (start req) (req_reverse req) P).

Lemma ex_input_shows P st rev c : map node_row (ex_input P (MkFetch c [] st rev)) = scan ex_tsort st rev P.
Proof. unfold ex_input. rewrite map_map. cbn. apply map_id. Qed.

Definition ex_P : list row := [ex_trow 7 1 10; ex_trow 7 2 20; ex_trow 7 3 30].
Definition ex_group : Constraint := [(0, Int (i64_of_Z 7))].

Definition ex_state : TakeSt MemoryStorage := Eval vm_compute in
  set_state ex_grouped (MkTakeSt memory_storage_new None None) (key_from_constraint ex_grouped (Some ex_group)) 2
    (Some (ex_trow 7 2 20)) None.

(** The bound row moves out of the window; a row below it moves in. *)
Definition ex_edit : change := Edit (leaf_node (ex_trow 7 2 40)) (leaf_node (ex_trow 7 2 20)).

Lemma bounds_ok_new tk :
  bounds_ok (λ s : MemoryStorage, om_sorted bytes_cmp (ms_data s)) tk (MkTakeSt memory_storage_new None None).
Proof. split; [constructor|by exists None|done]. Qed.

Lemma ex_state_ok : bounds_ok (λ s : MemoryStorage, om_sorted bytes_cmp (ms_data s)) ex_grouped ex_state.
Proof.
  destruct (set_state_spec (λ s : MemoryStorage, om_sorted bytes_cmp (ms_data s)) ex_grouped
    (MkTakeSt memory_storage_new None None) (key_from_constraint ex_grouped (Some ex_group)) 2
    (Some (ex_trow 7 2 20)) None) as (Hok & _); [apply bounds_ok_new|done|done|exact Hok].
Qed.

Ltac solve_sorted := repeat (constructor || reflexivity).

Lemma take_push_maintains_witness :
  maintains (λ s : MemoryStorage, om_sorted bytes_cmp (ms_data s)) (ex_input (consume ex_grouped ex_P ex_edit))
    ex_grouped (key_from_constraint ex_grouped (Some ex_group)) (Some ex_group) ex_edge ex_state
    [ex_trow 7 1 10; ex_trow 7 2 20] [ex_trow 7 1 10; ex_trow 7 3 30]
    (take_push (ex_input (consume ex_grouped ex_P ex_edit)) (λ _, false) ex_grouped ex_state ex_edit).
Proof.
  apply (take_push_maintains (λ s : MemoryStorage, om_sorted bytes_cmp (ms_data s))
    (ex_input (consume ex_grouped ex_P ex_edit)) (λ _, false) ex_grouped (λ _, eq_refl)
    ltac:(by vm_compute) ex_edge eq_refl ex_state ex_P (Some ex_group) ex_edit).
  - solve_sorted.
  - split; [right; left|reflexivity].
  - reflexivity.
  - intros st rev. apply ex_input_shows.
  - apply ex_state_ok.
  - reflexivity.
  - exists (Some (ex_trow 7 2 20)). split; [reflexivity|constructor; reflexivity].
Defined.

Lemma take_push_deadline_witness :
  take_push (ex_input [ex_trow 7 2 20; ex_trow 7 3 30]) (λ _, true) ex_grouped ex_state (Remove (leaf_node (ex_trow 7 1 10))) =
    Some (MkTakeSt (ts_store ex_state) None (Some (PushDeadlineExceeded "take backfill scan")), []).
Proof.
  apply (take_push_deadline (λ s : MemoryStorage, om_sorted bytes_cmp (ms_data s))
    (ex_input [ex_trow 7 2 20; ex_trow 7 3 30]) ex_grouped ex_edge eq_refl ex_state (leaf_node (ex_trow 7 1 10))
    (Some ex_group) [ex_trow 7 2 20; ex_trow 7 3 30] (ex_trow 7 2 20) 2 (ex_trow 7 2 20)).
  - reflexivity.
  - apply ex_state_ok.
  - reflexivity.
  - discriminate.
  - intros st rev. apply ex_input_shows.
  - by left.
  - discriminate.
Defined.

(** A row leaves, one enters, the bound row moves. *)
Definition ex_changes : list change :=
  [Remove (leaf_node (ex_trow 7 1 10)); Add (leaf_node (ex_trow 7 4 5)); ex_edit].

Lemma take_refines_limit_witness :
  ∃ s1 ns s2 log,
    take_fetch (ex_input ex_P) ex_top (MkTakeSt memory_storage_new None None) (MkFetch None [] None false) = Some (s1, ns) ∧
    map node_row ns = [ex_trow 7 1 10; ex_trow 7 2 20] ∧
    take_run ex_input (λ _, false) ex_top s1 ex_P ex_changes = Some (s2, log) ∧
    window_run ex_top [ex_trow 7 1 10; ex_trow 7 2 20] log [ex_trow 7 4 5; ex_trow 7 3 30] ∧ ts_error s2 = None ∧
    reads (ex_input [ex_trow 7 4 5; ex_trow 7 3 30; ex_trow 7 2 40]) ex_top None s2 = Some [ex_trow 7 4 5; ex_trow 7 3 30].
Proof.
  apply (take_refines_limit (λ s : MemoryStorage, om_sorted bytes_cmp (ms_data s)) ex_input (λ _, false) ex_top
    (λ _, eq_refl) ltac:(by vm_compute) ex_edge eq_refl eq_refl (λ P st rev, ex_input_shows P st rev None)
    (MkTakeSt memory_storage_new None None) ex_P ex_changes).
  - solve_sorted.
  - split; [by left|]. split; [reflexivity|]. split; [split; [right; left|reflexivity]|exact I].
  - apply bounds_ok_new.
  - reflexivity.
  - reflexivity.
Defined.
