(* ===== verification/Skip.v ===== *)
(** * Skip: the rows from a start bound on ([rust/src/op/skip.rs])

    A stateless operator: a fetch hands the input one start made of the bound and
    of the start of the request, a push lets through what happens at or after the
    bound.  What it yields is the input restricted to the rows past the bound, so
    that what sits above it sees a smaller table ([skip_fetch_rows],
    [skip_push_rows]); [skip_then_take] puts a [Take] there. *)

From stdpp Require Import base list numbers option sorting sets strings.
From Stdlib Require Import ZArith Lia Strings.Byte.
From S2P Require Import Prelude Values Rows BTree BTreeFacts BTreeCursor Change Connections Overlay Errors Push MemorySourceFacts SourceFetch Flat OrdMap PushIndex Storage Partition Take TakeFacts TakeSpec.

#[local] Open Scope nat_scope.

Record SkipOp := MkSkip { sk_input : nat; sk_bound : Start; sk_output : option OutEdge }.

Definition skip_new (input : nat) (bound : Start) : SkipOp := MkSkip input bound None.

(** [Empty]: no row can come; [Use None]: no start. *)
Inductive Resolved := Empty | Use (st : option Start).

Section skip.
Context (sk : SkipOp) (sort : Sort).
#[local] Abbreviation cmp := (row_cmp sort).
#[local] Abbreviation bound := (sk_bound sk).

Definition should_be_present (r : row) : bool :=
  match cmp (start_row bound) r with
  | Lt => true
  | Eq => match basis bound with At => true | After => false end
  | Gt => false
  end.

Definition get_start (req : FetchRequest) : Resolved :=
  let exclusive := match basis bound with After => true | At => false end in
  match start req with
  | None => if req_reverse req then Use None else Use (Some bound)
  | Some rs =>
      let rs_after := match basis rs with After => true | At => false end in
      match req_reverse req, cmp (start_row bound) (start_row rs) with
      | false, Gt => Use (Some bound)
      | false, Eq => if exclusive || rs_after then Use (Some (MkStart (start_row bound) After)) else Use (Some bound)
      | false, Lt => Use (Some rs)
      | true, Gt => Empty
      | true, Eq => if negb exclusive && negb rs_after then Use (Some bound) else Empty
      | true, Lt => Use (Some rs)
      end
  end.

Definition skip_fetch (input_fetch : FetchRequest → list node) (req : FetchRequest) : list node :=
  match get_start req with
  | Empty => []
  | Use st =>
      let nodes := input_fetch (MkFetch (req_constraint req) (multi_constraints req) st (req_reverse req)) in
      if req_reverse req then take_while (λ n, should_be_present (node_row n)) nodes else nodes
  end.

(** What is pushed downstream; [None] is the output that is not wired. *)
Definition skip_push (c : change) : option (list (OutEdge * change)) :=
  out ← sk_output sk;
  Some
    match c with
    | Edit n old =>
        match should_be_present (node_row old), should_be_present (node_row n) with
        | true, true => [(out, Edit n old)]
        | true, false => [(out, Remove old)]
        | false, true => [(out, Add n)]
        | false, false => []
        end
    | Add n => if should_be_present (node_row n) then [(out, Add n)] else []
    | Remove n => if should_be_present (node_row n) then [(out, Remove n)] else []
    | Child n rel child => if should_be_present (node_row n) then [(out, Child n rel child)] else []
    end.

(** ** Fetching *)

Lemma present_start_ok r : should_be_present r = start_ok (Some bound) sort false r.
Proof.
  unfold should_be_present, start_ok, start_test, compare_rows_rev.
  rewrite (cmp_opp (start_row bound) r). destruct (cmp (start_row bound) r), (basis bound); done.
Qed.

(** The resolved start asks for the rows past both. *)
Lemma get_start_forward c mc st r :
  match get_start (MkFetch c mc st false) with
  | Empty => False
  | Use st' => start_ok st' sort false r = should_be_present r && start_ok st sort false r
  end.
Proof.
  unfold get_start. cbn [start req_reverse]. rewrite present_start_ok. destruct st as [[rs bs]|]; [|by rewrite andb_true_r].
  destruct bound as [b bb]. cbn [start_row basis]. unfold start_ok, start_test, compare_rows_rev. cbn [start_row basis].
  destruct (cmp b rs) eqn:E.
  - rewrite (cmp_eq_r cmp r b rs E). destruct bb, bs; cbn; rewrite ?(cmp_eq_r cmp r b rs E); by destruct (cmp r rs).
  - assert (cmp r rs ≠ Lt → cmp r b = Gt) as H.
    { intros Hr. apply (cmp_lt_gt cmp). destruct (cmp r rs) eqn:E2; [|done|].
      - by rewrite (cmp_eq_r cmp b r rs).
      - apply (cmp_lt_trans b rs r); [done|]. by apply (cmp_gt_lt cmp). }
    cbn. destruct (cmp r rs); try (rewrite H by done); destruct (cmp r b), bs, bb; done.
  - assert (cmp r b ≠ Lt → cmp r rs = Gt) as H.
    { apply (cmp_gt_lt cmp) in E. intros Hr. apply (cmp_lt_gt cmp). destruct (cmp r b) eqn:E2; [|done|].
      - by rewrite (cmp_eq_r cmp rs r b).
      - apply (cmp_lt_trans rs b r); [done|]. by apply (cmp_gt_lt cmp). }
    cbn. destruct (cmp r b); try (rewrite H by done); destruct (cmp r rs), bs, bb; done.
Qed.

Lemma get_start_reverse c mc st r :
  match get_start (MkFetch c mc st true) with
  | Empty => should_be_present r && start_ok st sort true r = false
  | Use st' => should_be_present r && start_ok st' sort true r = should_be_present r && start_ok st sort true r
  end.
Proof.
  unfold get_start. cbn [start req_reverse]. rewrite present_start_ok. destruct st as [[rs bs]|]; [|done].
  destruct bound as [b bb]. cbn [start_row basis]. unfold start_ok, start_test, compare_rows_rev. cbn [start_row basis].
  destruct (cmp b rs) eqn:E; [|done|].
  - rewrite (cmp_eq_r cmp r b rs E). destruct bb, bs; cbn; rewrite ?(cmp_eq_r cmp r b rs E); by destruct (cmp r rs).
  - assert (cmp r b ≠ Lt → cmp r rs = Gt) as H.
    { apply (cmp_gt_lt cmp) in E. intros Hr. apply (cmp_lt_gt cmp). destruct (cmp r b) eqn:E2; [|done|].
      - by rewrite (cmp_eq_r cmp rs r b).
      - apply (cmp_lt_trans rs b r); [done|]. by apply (cmp_gt_lt cmp). }
    destruct (cmp r b); try (rewrite H by done); destruct (cmp r rs), bs, bb; done.
Qed.

(** On a list that descends through an upward closed test, [take_while] filters. *)
Lemma take_while_sorted_keep (f : row → bool) (R : row → row → Prop) l :
  StronglySorted R l → (∀ x y, R x y → f y = true → f x = true) → take_while f l = keep f l.
Proof.
  intros Hs HR. induction Hs as [|x l Hs IH Hx]; [done|]. cbn [take_while]. rewrite keep_cons, <-IH.
  destruct (f x) eqn:E; [done|]. rewrite IH. symmetry. apply (keep_const f false).
  eapply Forall_impl; [exact Hx|]. intros y Hy. cbn beta in *. destruct (f y) eqn:Ey; [|done].
  by rewrite (HR x y Hy Ey) in E.
Qed.

Lemma reverse_descends l : ssorted cmp l → StronglySorted (λ x y, cmp y x = Lt) (reverse l).
Proof.
  induction 1 as [|x l Hs IH Hx]; [constructor|]. rewrite reverse_cons. apply StronglySorted_app. split_and!.
  - intros a b Ha Hb. rewrite elem_of_reverse in Ha. apply list_elem_of_singleton in Hb as ->.
    rewrite Forall_forall in Hx. exact (Hx a Ha).
  - done.
  - repeat constructor.
Qed.

Lemma keep_reverse (f : row → bool) l : keep f (reverse l) = reverse (keep f l).
Proof. apply filter_reverse. Qed.

(** Fetching through a skip is fetching from the rows past the bound. *)
Lemma skip_fetch_scan input_fetch c mc st rev P :
  ssorted cmp P → (∀ st rev, map node_row (input_fetch (MkFetch c mc st rev)) = scan sort st rev P) →
  map node_row (skip_fetch input_fetch (MkFetch c mc st rev)) = scan sort st rev (keep should_be_present P).
Proof.
  intros Hs Hin. unfold skip_fetch, scan. cbn [req_constraint multi_constraints req_reverse]. rewrite keep_keep.
  destruct rev.
  - pose proof (get_start_reverse c mc st) as Hst.
    destruct (get_start (MkFetch c mc st true)) as [|st'].
    + rewrite (keep_const _ false); [done|]. apply Forall_forall. intros x _. apply Hst.
    + rewrite (map_take_while_rows should_be_present), Hin. unfold scan.
      rewrite (take_while_sorted_keep should_be_present (λ x y, cmp y x = Lt)).
      * cbn beta iota zeta. rewrite keep_reverse, keep_keep. f_equal. apply keep_ext. intros x _.
        rewrite andb_comm. apply Hst.
      * apply reverse_descends. by apply (keep_sorted cmp).
      * intros x y Hxy. unfold should_be_present. destruct (cmp (start_row bound) y) eqn:E; intros Hy.
        -- by rewrite (cmp_eq_l (start_row bound) y x), Hxy.
        -- by rewrite (cmp_lt_trans (start_row bound) y x).
        -- done.
  - pose proof (get_start_forward c mc st) as Hst.
    destruct (get_start (MkFetch c mc st false)) as [|st']; [destruct (Hst [])|].
    rewrite Hin. apply keep_ext. intros x _. apply Hst.
Qed.

(** ** Pushing *)

Lemma skip_push_split ch sc :
  row_change ch = Some sc →
  skip_push ch = out ← sk_output sk;
    Some match filter_push sc (Some should_be_present) with
         | None => []
         | Some (SAdd _) => match ch with Add n | Edit n _ => [(out, Add n)] | _ => [] end
         | Some (SRemove _) => match ch with Remove n | Edit _ n => [(out, Remove n)] | _ => [] end
         | Some (SEdit _ _) => [(out, ch)]
         end.
Proof.
  unfold skip_push. destruct (sk_output sk) as [out|]; [|by destruct ch]. cbn [mbind option_bind].
  destruct ch as [n|n|n old|n rel child]; intros [= <-]; cbn [filter_push];
    destruct (should_be_present (node_row n)); try destruct (should_be_present (node_row old)); done.
Qed.

Lemma filter_push_valid c c' l :
  ssorted cmp l → change_valid cmp c l → filter_push c (Some should_be_present) = Some c' →
  change_valid cmp c' (keep should_be_present l).
Proof.
  intros Hs Hv. assert (∀ r l, sl_find cmp r l = None → sl_find cmp r (keep should_be_present l) = None) as Hk.
  { intros r l'. rewrite !(sl_find_None cmp). intros H x [_ Hx]%elem_of_keep. auto. }
  destruct c as [r|r|r old]; cbn [filter_push change_valid] in *.
  - destruct (should_be_present r); intros [= <-]. by apply Hk.
  - destruct (should_be_present r) eqn:E; intros [= <-]. by apply elem_of_keep.
  - destruct Hv as [Ho Hf]. apply Hk in Hf. rewrite (keep_sl_delete cmp should_be_present) in Hf by done.
    destruct (should_be_present old) eqn:Eo, (should_be_present r); intros [= <-]; cbn [change_valid].
    + split; [by apply elem_of_keep|done].
    + by apply elem_of_keep.
    + done.
Qed.

(** What a skip pushes is the change of the rows past the bound, if it has one. *)
Lemma skip_push_cases ch sc P out :
  ssorted cmp P → row_change ch = Some sc → change_valid cmp sc P → sk_output sk = Some out →
  (skip_push ch = Some [] ∧
     keep should_be_present (apply_source_change cmp sc P) = keep should_be_present P) ∨
  ∃ ch' sc', skip_push ch = Some [(out, ch')] ∧ row_change ch' = Some sc' ∧
    change_valid cmp sc' (keep should_be_present P) ∧
    keep should_be_present (apply_source_change cmp sc P) = apply_source_change cmp sc' (keep should_be_present P) ∧
    changed_row ch' ∈ change_rows sc.
Proof.
  intros Hs Hr Hv Ho. rewrite (filter_push_keep cmp) by done.
  pose proof (skip_push_split ch sc Hr) as ->. rewrite Ho. cbn [mbind option_bind].
  destruct (filter_push sc (Some should_be_present)) as [sc'|] eqn:Hf; [right|by left].
  pose proof (filter_push_valid sc sc' P Hs Hv Hf) as Hv'.
  destruct ch as [n|n|n old|n rel child]; cbn [row_change] in Hr; [..|done]; injection Hr as <-;
    cbn [filter_push] in Hf; destruct (should_be_present (node_row n));
    try destruct (should_be_present (node_row old)); cbn [andb] in Hf; try done; injection Hf as <-;
    eexists _, _; split_and!; try done; cbn; (by left) || (right; by left).
Qed.
End skip.

(** ** Claims *)

(** A fetch through [Skip], forward or reverse, from any start, yields what
    the same fetch would yield if the input held only the rows past the bound:
    the start handed to the input and the trimming of a reverse scan lose and add
    nothing. *)
Theorem skip_fetch_rows (sk : SkipOp) (sort : Sort) input_fetch c mc st rev P :
  ssorted (row_cmp sort) P → (∀ st rev, map node_row (input_fetch (MkFetch c mc st rev)) = scan sort st rev P) →
  map node_row (skip_fetch sk sort input_fetch (MkFetch c mc st rev)) =
    scan sort st rev (keep (should_be_present sk sort) P).
Proof. apply skip_fetch_scan. Qed.

Section pipeline.
Context {St : Type} `{!Storage St} (store_ok : St → Prop) `{!StorageLaws St store_ok}.
Context (source_fetch : FetchRequest → list node) (deadline : nat → bool) (sk : SkipOp) (tk : TakeOp).
#[local] Abbreviation cmp := (row_cmp (tk_sort tk)).
#[local] Abbreviation limit := (Z.to_nat (tk_limit tk)).
#[local] Abbreviation present := (should_be_present sk (tk_sort tk)).
Implicit Types (s : TakeSt St) (P : list row).

(** What the skip pushes reaches the take, which fetches through the skip. *)
Fixpoint push_through s (chs : list (OutEdge * change)) : option (TakeSt St * list (OutEdge * change * TakeSt St)) :=
  match chs with
  | [] => Some (s, [])
  | (_, ch) :: chs =>
      '(s, l1) ← take_push (skip_fetch sk (tk_sort tk) source_fetch) deadline tk s ch;
      '(s, l2) ← push_through s chs;
      Some (s, l1 ++ l2)
  end.

Definition skip_take_push s (ch : change) : option (TakeSt St * list (OutEdge * change * TakeSt St)) :=
  chs ← skip_push sk (tk_sort tk) ch;
  push_through s chs.

Context (Hdl : ∀ i, deadline i = false) (Hlimit : (0 < tk_limit tk < 2 ^ 32)%Z).
Context (edge out : OutEdge) (Hedge : sk_output sk = Some edge) (Hout : tk_output tk = Some out).

(** A [Take] above a [Skip] holds the first [limit] rows past the bound: a
    change that is valid for the input, pushed through both while the input shows
    it, takes the first [limit] rows past the bound before the change to those
    after it, by changes the consumer can apply, never above [limit] rows, with
    every fetch meanwhile reading what the consumer holds. *)
Theorem skip_then_take s P c ch sc :
  ssorted cmp P → row_change ch = Some sc → change_valid cmp sc P →
  Forall (λ r, constraint_for tk r = Some c) (change_rows sc) →
  shows source_fetch tk c (apply_source_change cmp sc P) →
  bounds_ok store_ok tk s → ts_hidden s = None → hydrated tk s c (take limit (keep present P)) →
  maintains store_ok (skip_fetch sk (tk_sort tk) source_fetch) tk (key_from_constraint tk c) c out s
    (take limit (keep present P)) (take limit (keep present (apply_source_change cmp sc P)))
    (skip_take_push s ch).
Proof.
  intros Hs Hr Hv Hc Hin Hok Hh Hhy. unfold skip_take_push.
  assert (ssorted cmp (apply_source_change cmp sc P)) as Hs'.
  { pose proof (consume_sorted tk P ch Hs) as H. unfold consume in H. by rewrite Hr in H. }
  destruct (skip_push_cases sk (tk_sort tk) ch sc P edge Hs Hr Hv Hedge) as [[-> ->]|(ch' & sc' & -> & Hr' & Hv' & Heq & Hrow)].
  - apply maintains_none; [done| |done]. left. exact Hhy.
  - cbn [mbind option_bind push_through].
    assert (constraint_for tk (changed_row ch') = Some c) as Hc'.
    { rewrite Forall_forall in Hc. by apply Hc. }
    destruct (push_maintains_window store_ok (skip_fetch sk (tk_sort tk) source_fetch) deadline tk Hdl Hlimit out Hout s
      (keep present P) c ch') as (s' & log & Hp & Hrest).
    + by apply (keep_sorted cmp).
    + unfold accepted. by rewrite Hr'.
    + done.
    + intros st rev. unfold consume. rewrite Hr', <-Heq. by apply skip_fetch_scan.
    + done.
    + done.
    + done.
    + unfold consume in Hrest. rewrite Hr', <-Heq in Hrest. exists s', log. rewrite Hp. cbn. by rewrite app_nil_r.
Qed.
End pipeline.

(** ** Concrete runs *)

(** Past the first row. *)
Definition ex_skip : SkipOp := MkSkip 0 (MkStart (ex_trow 7 1 10) After) (Some ex_edge).

Lemma skip_fetch_rows_witness :
  map node_row (skip_fetch ex_skip ex_tsort (ex_input ex_P) (MkFetch None [] (Some (MkStart (ex_trow 7 3 30) At)) true)) =
    [ex_trow 7 3 30; ex_trow 7 2 20].
Proof.
  apply (skip_fetch_rows ex_skip ex_tsort (ex_input ex_P) None [] (Some (MkStart (ex_trow 7 3 30) At)) true ex_P).
  - solve_sorted.
  - intros st rev. apply ex_input_shows.
Defined.

Definition ex_skip_state : TakeSt MemoryStorage := Eval vm_compute in
  set_state ex_top (MkTakeSt memory_storage_new None None) (key_from_constraint ex_top None) 2
    (Some (ex_trow 7 3 30)) None.

Lemma ex_skip_state_ok : bounds_ok (λ s : MemoryStorage, om_sorted bytes_cmp (ms_data s)) ex_top ex_skip_state.
Proof.
  destruct (set_state_spec (λ s : MemoryStorage, om_sorted bytes_cmp (ms_data s)) ex_top
    (MkTakeSt memory_storage_new None None) (key_from_constraint ex_top None) 2
    (Some (ex_trow 7 3 30)) None) as (Hok & _); [apply bounds_ok_new|done|done|exact Hok].
Qed.

(** The row below the bound moves into the middle of the window. *)
Lemma skip_then_take_witness :
  maintains (λ s : MemoryStorage, om_sorted bytes_cmp (ms_data s))
    (skip_fetch ex_skip ex_tsort (ex_input [ex_trow 7 2 20; ex_trow 7 1 25; ex_trow 7 3 30])) ex_top
    (key_from_constraint ex_top None) None ex_edge ex_skip_state
    [ex_trow 7 2 20; ex_trow 7 3 30] [ex_trow 7 2 20; ex_trow 7 1 25]
    (skip_take_push (ex_input [ex_trow 7 2 20; ex_trow 7 1 25; ex_trow 7 3 30]) (λ _, false) ex_skip ex_top
      ex_skip_state (Edit (leaf_node (ex_trow 7 1 25)) (leaf_node (ex_trow 7 1 10)))).
Proof.
  apply (skip_then_take (λ s : MemoryStorage, om_sorted bytes_cmp (ms_data s))
    (ex_input [ex_trow 7 2 20; ex_trow 7 1 25; ex_trow 7 3 30]) (λ _, false) ex_skip ex_top (λ _, eq_refl)
    ltac:(by vm_compute) ex_edge ex_edge eq_refl eq_refl ex_skip_state ex_P None
    (Edit (leaf_node (ex_trow 7 1 25)) (leaf_node (ex_trow 7 1 10))) (SEdit (ex_trow 7 1 25) (ex_trow 7 1 10))).
  - solve_sorted.
  - reflexivity.
  - split; [left|reflexivity].
  - repeat constructor.
  - intros st rev. apply ex_input_shows.
  - apply ex_skip_state_ok.
  - reflexivity.
  - exists (Some (ex_trow 7 3 30)). split; [reflexivity|constructor; reflexivity].
Defined.
