(* ===== verification/PkCodec.v ===== *)
(** * The primary-key codec of [Cap] ([rust/src/op/cap.rs])

    [serialize_pk] writes the key cells of a row as tagged, length-prefixed text;
    [deserialize_pk] reads them back into a constraint.  Every cell survives the
    round trip, whatever bytes its text holds, so a tracked key finds its row.

    Reading indexes past the end, an unknown tag and a number that does not parse
    panic: [None].  Lengths are unbounded here (a [usize] counts bytes in memory),
    and the check that a cut falls on a character boundary is not modelled. *)

From stdpp Require Import base list numbers option sets.
From Stdlib Require Import ZArith Lia Strings.Byte Decimal DecimalPos DecimalZ.
From S2P Require Import Prelude Values Rows Change Storage Partition.

#[local] Open Scope Z_scope.

(** ** Writing *)

(** The tag and the content of a cell; a float is written as its bits. *)
Definition pk_tag (v : value) : byte :=
  match v with
  | Absent => x61
  | Null => x6e
  | Bool _ => x62
  | Int _ => x69
  | Float _ => x66
  | Str _ => x73
  | Json _ => x6a
  end.

Definition pk_content (v : value) : list byte :=
  match v with
  | Absent | Null => []
  | Bool b => [if b then x31 else x30]
  | Int i => integer_text i
  | Float f => integer_text f
  | Str s | Json s => s
  end.

Definition serialize_cell (v : value) : list byte :=
  pk_tag v :: length_text (pk_content v) ++ x3a :: pk_content v.

Definition serialize_pk (r : row) (pk : list nat) : option (list byte) :=
  vals ← mapM (λ c, r !! c) pk; Some (vals ≫= serialize_cell).

(** ** Reading *)

Fixpoint text_uint (s : list byte) : option Decimal.uint :=
  match s with
  | [] => Some Decimal.Nil
  | x30 :: s => Decimal.D0 <$> text_uint s
  | x31 :: s => Decimal.D1 <$> text_uint s
  | x32 :: s => Decimal.D2 <$> text_uint s
  | x33 :: s => Decimal.D3 <$> text_uint s
  | x34 :: s => Decimal.D4 <$> text_uint s
  | x35 :: s => Decimal.D5 <$> text_uint s
  | x36 :: s => Decimal.D6 <$> text_uint s
  | x37 :: s => Decimal.D7 <$> text_uint s
  | x38 :: s => Decimal.D8 <$> text_uint s
  | x39 :: s => Decimal.D9 <$> text_uint s
  | _ => None
  end.

(** [str::parse]: at least one digit. *)
Definition parse_digits (s : list byte) : option Z :=
  match s with [] => None | _ => Z.of_uint <$> text_uint s end.

Definition parse_u64 (s : list byte) : option f64 :=
  z ← parse_digits (match s with x2b :: s' => s' | _ => s end);
  if z <? 2 ^ 64 then Some (f64_of_bits z) else None.

Definition parse_i64 (s : list byte) : option i64 :=
  z ← match s with
      | x2b :: s' => parse_digits s'
      | x2d :: s' => Z.opp <$> parse_digits s'
      | _ => parse_digits s
      end;
  if i64_inb z then Some (i64_of_Z z) else None.

(** The loop up to the colon; [b - b'0'] wraps. *)
Fixpoint parse_len (s : list byte) (len : Z) : option (Z * list byte) :=
  match s with
  | [] => None
  | x3a :: s => Some (len, s)
  | b :: s => parse_len s (len * 10 + (Z.of_N (Byte.to_N b) - 48) mod 256)
  end.

Definition parse_content (tag : byte) (content : list byte) : option value :=
  match tag with
  | x61 => Some Absent
  | x6e => Some Null
  | x62 => Some (Bool (bool_decide (content = [x31])))
  | x69 => Int <$> parse_i64 content
  | x66 => Float <$> parse_u64 content
  | x73 => Some (Str content)
  | x6a => Some (Json content)
  | _ => None
  end.

Definition parse_cell (s : list byte) : option (value * list byte) :=
  match s with
  | [] => None
  | tag :: s =>
      '(len, s) ← parse_len s 0;
      if len <=? Z.of_nat (length s)
      then v ← parse_content tag (take (Z.to_nat len) s); Some (v, drop (Z.to_nat len) s)
      else None
  end.

Fixpoint deserialize_pk (s : list byte) (pk : list nat) : option Constraint :=
  match pk with
  | [] => Some []
  | col :: pk =>
      '(v, s) ← parse_cell s;
      c ← deserialize_pk s pk;
      Some ((col, v) :: c)
  end.

(** ** Numbers *)

Lemma text_uint_text u : text_uint (uint_text u) = Some u.
Proof. induction u as [|u IH|u IH|u IH|u IH|u IH|u IH|u IH|u IH|u IH|u IH]; cbn; rewrite ?IH; done. Qed.

Fixpoint uint_val (acc : Z) (u : Decimal.uint) : Z :=
  match u with
  | Decimal.Nil => acc
  | Decimal.D0 u => uint_val (acc * 10) u
  | Decimal.D1 u => uint_val (acc * 10 + 1) u
  | Decimal.D2 u => uint_val (acc * 10 + 2) u
  | Decimal.D3 u => uint_val (acc * 10 + 3) u
  | Decimal.D4 u => uint_val (acc * 10 + 4) u
  | Decimal.D5 u => uint_val (acc * 10 + 5) u
  | Decimal.D6 u => uint_val (acc * 10 + 6) u
  | Decimal.D7 u => uint_val (acc * 10 + 7) u
  | Decimal.D8 u => uint_val (acc * 10 + 8) u
  | Decimal.D9 u => uint_val (acc * 10 + 9) u
  end.

Lemma uint_val_pos u p : uint_val (Z.pos p) u = Z.pos (Pos.of_uint_acc u p).
Proof.
  revert p. induction u as [|u IH|u IH|u IH|u IH|u IH|u IH|u IH|u IH|u IH|u IH]; intros p; [done|..];
    cbn [uint_val Pos.of_uint_acc]; rewrite <-IH; f_equal; lia.
Qed.

Lemma uint_val_0 u : uint_val 0 u = Z.of_uint u.
Proof.
  unfold Z.of_uint. induction u as [|u IH|u IH|u IH|u IH|u IH|u IH|u IH|u IH|u IH|u IH];
    cbn [uint_val Pos.of_uint]; [done|exact IH|..]; apply uint_val_pos.
Qed.

Lemma parse_len_uint u s acc : parse_len (uint_text u ++ x3a :: s) acc = Some (uint_val acc u, s).
Proof.
  revert acc. induction u as [|u IH|u IH|u IH|u IH|u IH|u IH|u IH|u IH|u IH|u IH]; intros acc; cbn;
    rewrite ?IH; try done. by rewrite Z.add_0_r.
Qed.

Lemma to_int_value z : match Z.to_int z with Decimal.Pos u => z = Z.of_uint u | Decimal.Neg u => z = - Z.of_uint u end.
Proof. pose proof (DecimalZ.of_to z) as H. by destruct (Z.to_int z). Qed.

Lemma parse_len_text s r : parse_len (length_text s ++ x3a :: r) 0 = Some (Z.of_nat (length s), r).
Proof.
  unfold length_text, integer_text. pose proof (to_int_value (Z.of_nat (length s))) as Hv.
  destruct (Z.of_nat (length s)) as [|p|p] eqn:E; [done| |lia]. cbn [Z.to_int] in *.
  by rewrite parse_len_uint, uint_val_0, <-Hv.
Qed.

Lemma parse_digits_text u : u ≠ Decimal.Nil → parse_digits (uint_text u) = Some (Z.of_uint u).
Proof. intros H. unfold parse_digits. rewrite text_uint_text. by destruct u. Qed.

(** A number that is written starts with a digit, or with a minus. *)
Lemma uint_text_head u : u ≠ Decimal.Nil → ∃ b s, uint_text u = b :: s ∧ b ≠ x2b ∧ b ≠ x2d.
Proof. destruct u; intros; [done|..]; by eexists _, _. Qed.

Lemma parse_i64_text (i : i64) : parse_i64 (integer_text i) = Some i.
Proof.
  pose proof (i64_in i) as Hi. unfold parse_i64, integer_text.
  pose proof (to_int_value i) as Hv. pose proof (to_int_pos_nonnil i) as Hn.
  assert (i64_of_Z i = i) as Hw by apply i64_of_Z_Z.
  destruct (Z.to_int i) as [u|u] eqn:E.
  - specialize (Hn u eq_refl). destruct (uint_text_head u Hn) as (b & s & Hs & Hb1 & Hb2). rewrite Hs.
    destruct b; try done; rewrite <-Hs, parse_digits_text by done; cbn [mbind option_bind]; rewrite <-Hv;
      (destruct (i64_inb i); [by rewrite Hw|done]).
  - assert (u ≠ Decimal.Nil) as Hu.
    { destruct (i64_Z i) as [|p|p]; [done..|]. injection E as <-. apply DecimalPos.Unsigned.to_uint_nonnil. }
    rewrite parse_digits_text by done. cbn [fmap option_fmap option_map mbind option_bind]. rewrite <-Hv.
    destruct (i64_inb i); [by rewrite Hw|done].
Qed.

Lemma parse_u64_text (f : f64) : parse_u64 (integer_text f) = Some f.
Proof.
  pose proof (f64_in f) as Hf. unfold parse_u64, integer_text.
  pose proof (to_int_value f) as Hv. pose proof (to_int_pos_nonnil f) as Hn.
  assert (0 ≤ f < 2 ^ 64) as Hr by apply f64_is_wf.
  assert (f64_of_bits f = f) as Hw by apply f64_of_bits_bits.
  destruct (Z.to_int f) as [u|u] eqn:E; [|by destruct (f64_Z f); [..|lia]].
  specialize (Hn u eq_refl). destruct (uint_text_head u Hn) as (b & s & Hs & Hb1 & Hb2). rewrite Hs.
  destruct b; try done; rewrite <-Hs, parse_digits_text by done; cbn [mbind option_bind]; rewrite <-Hv;
    (destruct (Z.ltb_spec f (2 ^ 64)); [by rewrite Hw|lia]).
Qed.

(** ** The round trip *)

Lemma parse_content_text v : parse_content (pk_tag v) (pk_content v) = Some v.
Proof.
  destruct v as [| |[]|i|f|s|s]; try done; cbn [pk_tag pk_content parse_content].
  - by rewrite parse_i64_text.
  - by rewrite parse_u64_text.
Qed.

Lemma parse_cell_text v s : parse_cell (serialize_cell v ++ s) = Some (v, s).
Proof.
  unfold parse_cell, serialize_cell. rewrite <-app_comm_cons, <-(assoc_L (++)), <-app_comm_cons.
  rewrite parse_len_text. cbn [mbind option_bind]. rewrite length_app.
  destruct (Z.leb_spec (Z.of_nat (length (pk_content v))) (Z.of_nat (length (pk_content v) + length s))); [|lia].
  rewrite Nat2Z.id, take_app_length, drop_app_length, parse_content_text. done.
Qed.

Lemma deserialize_cells vals pk s :
  length vals = length pk → deserialize_pk ((vals ≫= serialize_cell) ++ s) pk = Some (zip pk vals).
Proof.
  revert pk. induction vals as [|v vals IH]; intros [|c pk] H; cbn in H; try done. cbn [deserialize_pk].
  rewrite bind_cons, <-(assoc_L (++)), parse_cell_text. cbn [mbind option_bind].
  rewrite IH by lia. done.
Qed.

(** The key codec round-trips: the text [serialize_pk] writes for the key
    cells of a row is read back by [deserialize_pk] as the constraint that pairs
    every key column with exactly the cell it holds, for every type of cell, every
    integer, every float bit pattern and every text, colons and digits included. *)
Theorem pk_codec_roundtrip (r : row) (pk : list nat) (s : list byte) :
  serialize_pk r pk = Some s →
  ∃ vals, mapM (λ c, r !! c) pk = Some vals ∧ deserialize_pk s pk = Some (zip pk vals).
Proof.
  unfold serialize_pk. intros (vals & Hv & [= <-])%bind_Some. exists vals. split; [done|].
  rewrite <-(app_nil_r (vals ≫= _)). apply deserialize_cells. apply mapM_Some in Hv. symmetry. by eapply Forall2_length.
Qed.

Lemma pk_codec_roundtrip_witness :
  ∃ vals, mapM (λ c, [Str [x33; x3a]; Null; Int (i64_of_Z (-70))] !! c) [2; 0]%nat = Some vals ∧
    deserialize_pk [x69; x33; x3a; x2d; x37; x30; x73; x32; x3a; x33; x3a] [2; 0]%nat = Some (zip [2; 0]%nat vals).
Proof.
  apply (pk_codec_roundtrip [Str [x33; x3a]; Null; Int (i64_of_Z (-70))] [2; 0]%nat). vm_compute. reflexivity.
Defined.
