(* ===== verification/Cap.v ===== *)
(** * Cap: a few rows of every partition ([rust/src/op/cap.rs])

    The unordered limiter under an [EXISTS]: it keeps up to [limit] rows of a
    partition, whichever, and remembers their serialised primary keys.  A fetch
    looks every tracked key up; a removal looks for an untracked row to refill.

    The input is the function [input_fetch], a stream being the list it yields.  A
    run is the final store with the list of what it pushed downstream, each entry
    with the store at that moment: the state a reentrant fetch reads.  A failed
    [assert!], [expect] or [unreachable!] and an index out of range are [None];
    sizes are [u32]. *)

From stdpp Require Import base list numbers option sets.
From Stdlib Require Import ZArith Lia Strings.Byte.
From S2P Require Import Prelude Values Rows BTree Change Connections Flat Storage Partition PkCodec.

#[local] Open Scope Z_scope.

(** "cap" *)
Definition cap_prefix : list byte := [x63; x61; x70].

Record CapOp := MkCap {
  cp_input : nat;
  cp_storage : nat;
  cp_limit : Z;
  cp_partition_key : option (list nat);
  cp_primary_key : list nat;
  cp_output : option OutEdge
}.

Definition cap_new (input storage : nat) (limit : Z) (pk : option (list nat)) (primary : list nat) : CapOp :=
  MkCap input storage limit pk primary None.

Section cap.
Context {St : Type} `{!Storage St}.
Context (input_fetch : FetchRequest → list node) (cp : CapOp).

Abbreviation cap_log := (list (OutEdge * change * St)).

(** ** Storage helpers *)

(** The outer [None] is [unreachable!]. *)
Definition cap_get_state (s : St) (key : storage_key) : option (option (Z * list (list byte))) :=
  match st_get key s with
  | None => Some None
  | Some (SvCap size pks) => Some (Some (size, pks))
  | Some _ => None
  end.

Definition cap_set_state (s : St) (key : storage_key) (size : Z) (pks : list (list byte)) : St :=
  st_set key (SvCap size pks) s.

Definition cap_key_from_row (r : row) : option storage_key :=
  match cp_partition_key cp with
  | None => Some (encode_state_key cap_prefix [])
  | Some pk => vals ← mapM (λ c, r !! c) pk; Some (encode_state_key cap_prefix vals)
  end.

Definition cap_key_from_constraint (c : option Constraint) : storage_key :=
  match cp_partition_key cp, c with
  | Some pk, Some c => encode_state_key cap_prefix (map (λ col, default Null (assoc c col)) pk)
  | _, _ => encode_state_key cap_prefix []
  end.

Definition cap_constraint_for (r : row) : option (option Constraint) :=
  match cp_partition_key cp with
  | None => Some None
  | Some pk => c ← mapM (λ col, v ← r !! col; Some (col, v)) pk; Some (Some c)
  end.

Definition cap_evict_partition (s : St) (c : Constraint) : St :=
  match cp_partition_key cp with
  | None => s
  | Some pk =>
      if constraint_matches_partition_key c pk then st_del (cap_key_from_constraint (Some c)) s else s
  end.

(** ** Fetch *)

(** The [for] loop of [initial_fetch]. *)
Fixpoint cap_first (size : Z) (pks : list (list byte)) (ns : list node) :
    option (list node * Z * list (list byte)) :=
  match ns with
  | [] => Some ([], size, pks)
  | n :: ns =>
      k ← serialize_pk (node_row n) (cp_primary_key cp);
      let size := u32_add size 1 in
      if size =? cp_limit cp then Some ([n], size, pks ++ [k])
      else
        '(out, size, pks) ← cap_first size (pks ++ [k]) ns;
        Some (n :: out, size, pks)
  end.

Definition cap_initial_fetch (s : St) (req : FetchRequest) : option (St * list node) :=
  if cp_limit cp =? 0 then Some (s, [])
  else
    '(out, size, pks) ← cap_first 0 [] (input_fetch req);
    Some (cap_set_state s (cap_key_from_constraint (req_constraint req)) size pks, out).

(** The point lookups, key by key. *)
Fixpoint point_lookups (pks : list (list byte)) : option (list node) :=
  match pks with
  | [] => Some []
  | k :: pks =>
      c ← deserialize_pk k (cp_primary_key cp);
      out ← point_lookups pks;
      Some (input_fetch (MkFetch (Some c) [] None false) ++ out)
  end.

Definition cap_fetch (s : St) (req : FetchRequest) : option (St * list node) :=
  match start req, req_reverse req with
  | None, false =>
      st ← cap_get_state s (cap_key_from_constraint (req_constraint req));
      match st with
      | None => cap_initial_fetch s req
      | Some (size, pks) =>
          if size =? 0 then Some (s, [])
          else out ← point_lookups pks; Some (s, out)
      end
  | _, _ => None
  end.

(** ** Push *)

Definition cap_emit (out : OutEdge) (s : St) (c : change) : cap_log := [(out, c, s)].

(** The first row of the partition whose key is not tracked. *)
Fixpoint find_untracked (pks : list (list byte)) (ns : list node) : option (option node) :=
  match ns with
  | [] => Some None
  | n :: ns =>
      k ← serialize_pk (node_row n) (cp_primary_key cp);
      if bool_decide (k ∈ pks) then find_untracked pks ns else Some (Some n)
  end.

Definition cap_push_remove (s : St) (n : node) (out : OutEdge) (key : storage_key) (size : Z)
    (pks : list (list byte)) (k : list byte) : option (St * cap_log) :=
  match list_find (λ p, p = k) pks with
  | None => Some (s, [])
  | Some (idx, _) =>
      let pks := delete idx pks in
      let new_size := u32_sub size 1 in
      c ← cap_constraint_for (node_row n);
      replacement ← find_untracked pks (input_fetch (MkFetch c [] None false));
      match replacement with
      | Some repl =>
          let s := cap_set_state s key new_size pks in
          let l1 := cap_emit out s (Remove n) in
          repl_pk ← serialize_pk (node_row repl) (cp_primary_key cp);
          let s := cap_set_state s key (u32_add new_size 1) (pks ++ [repl_pk]) in
          Some (s, l1 ++ cap_emit out s (Add repl))
      | None =>
          let s := cap_set_state s key new_size pks in
          Some (s, cap_emit out s (Remove n))
      end
  end.

Definition cap_push_edit (s : St) (n old : node) : option (St * cap_log) :=
  key ← cap_key_from_row (node_row old);
  st ← cap_get_state s key;
  match st with
  | None => Some (s, [])
  | Some (size, pks) =>
      old_pk ← serialize_pk (node_row old) (cp_primary_key cp);
      out ← cp_output cp;
      if bool_decide (old_pk ∈ pks) then
        new_pk ← serialize_pk (node_row n) (cp_primary_key cp);
        let s :=
          if bool_decide (new_pk = old_pk) then s
          else cap_set_state s key size (map (λ p, if bool_decide (p = old_pk) then new_pk else p) pks) in
        Some (s, cap_emit out s (Edit n old))
      else Some (s, [])
  end.

Definition cap_push (s : St) (c : change) : option (St * cap_log) :=
  let dispatch (r : row) (k : OutEdge → storage_key → Z → list (list byte) → list byte → option (St * cap_log)) :=
    key ← cap_key_from_row r;
    st ← cap_get_state s key;
    match st with
    | None => Some (s, [])
    | Some (size, pks) =>
        pk ← serialize_pk r (cp_primary_key cp);
        out ← cp_output cp;
        k out key size pks pk
    end in
  match c with
  | Edit n old => cap_push_edit s n old
  | Add n => dispatch (node_row n) (λ out key size pks pk,
      if size <? cp_limit cp then
        let s := cap_set_state s key (u32_add size 1) (pks ++ [pk]) in
        Some (s, cap_emit out s (Add n))
      else Some (s, []))
  | Remove n => dispatch (node_row n) (λ out key size pks pk, cap_push_remove s n out key size pks pk)
  | Child n rel child => dispatch (node_row n) (λ out key size pks pk,
      Some (s, if bool_decide (pk ∈ pks) then cap_emit out s (Child n rel child) else []))
  end.
End cap.
