(* ===== verification/CapFacts.v ===== *)
(** * Cap keeps enough rows of its partition

    The tracked rows are rows of the partition, at most [limit] of them, and all
    of them while they are fewer: so whether any row is tracked, and how many up
    to the limit, is what an [EXISTS] asks.  A push keeps this, tells the consumer
    exactly how its rows change, and a fetch during a change reads the rows with
    that change. *)

From stdpp Require Import base list numbers option sets.
From Stdlib Require Import ZArith Lia Strings.Byte.
From S2P Require Import Prelude Values Rows BTree BTreeCursor Change Connections Overlay Flat OrdMap Storage Partition PkCodec Cap.

#[local] Open Scope Z_scope.
#[local] Open Scope nat_scope.

(** ** Rows addressed by their key *)

Section keys.
Context (pk : list nat).
Implicit Types (r : row) (L T : list row).

(** The constraint that asks for a row by its key. *)
Definition pk_constraint r : option Constraint :=
  vals ← mapM (λ c, r !! c) pk; Some (zip pk vals).

(** Every row has a key without nulls, which no other row matches. *)
Definition keyed L : Prop :=
  NoDup L ∧ ∀ r, r ∈ L → ∃ c, pk_constraint r = Some c ∧ ∀ r', r' ∈ L → cmatch r' c = true ↔ r' = r.

Lemma serialize_constraint r k : serialize_pk r pk = Some k → pk_constraint r = deserialize_pk k pk ∧ is_Some (pk_constraint r).
Proof.
  unfold serialize_pk, pk_constraint. intros (vals & Hv & [= <-])%bind_Some. rewrite Hv. cbn [mbind option_bind].
  rewrite <-(app_nil_r (vals ≫= _)), deserialize_cells; [by split; [|eexists]|].
  apply mapM_Some in Hv. symmetry. by eapply Forall2_length.
Qed.

Lemma keyed_serialize L r : keyed L → r ∈ L → ∃ k, serialize_pk r pk = Some k.
Proof.
  intros [_ H] Hr. destruct (H r Hr) as (c & Hc & _). unfold pk_constraint in Hc. unfold serialize_pk.
  destruct (mapM _ pk); [|done]. by eexists.
Qed.

Lemma keyed_inj L r r' k : keyed L → r ∈ L → r' ∈ L → serialize_pk r pk = Some k → serialize_pk r' pk = Some k → r = r'.
Proof.
  intros [_ H] Hr Hr' [Hk _]%serialize_constraint [Hk' _]%serialize_constraint.
  destruct (H r Hr) as (c & Hc & Hm), (H r' Hr') as (c' & Hc' & Hm').
  assert (c = c') as <- by congruence. apply Hm'; [done|]. by apply Hm.
Qed.

(** The keys of a list of rows. *)
Definition keys_of T : option (list (list byte)) := mapM (λ r, serialize_pk r pk) T.

Lemma keys_app T1 T2 ks1 ks2 : keys_of T1 = Some ks1 → keys_of T2 = Some ks2 → keys_of (T1 ++ T2) = Some (ks1 ++ ks2).
Proof. unfold keys_of. rewrite !mapM_Some. apply Forall2_app. Qed.

Lemma keys_app_inv T1 T2 ks :
  keys_of (T1 ++ T2) = Some ks → ∃ ks1 ks2, ks = ks1 ++ ks2 ∧ keys_of T1 = Some ks1 ∧ keys_of T2 = Some ks2.
Proof.
  unfold keys_of. setoid_rewrite mapM_Some. intros (ks1 & ks2 & H1 & H2 & ->)%Forall2_app_inv_l. eauto.
Qed.

Lemma keys_length T ks : keys_of T = Some ks → length ks = length T.
Proof. unfold keys_of. rewrite mapM_Some. intros H. symmetry. by eapply Forall2_length. Qed.

Lemma keys_elem L T ks r k :
  keyed L → T ⊆ L → r ∈ L → keys_of T = Some ks → serialize_pk r pk = Some k → k ∈ ks ↔ r ∈ T.
Proof.
  unfold keys_of. rewrite mapM_Some. intros HL HT Hr Hks Hk. split.
  - intros [i Hi]%list_elem_of_lookup. destruct (Forall2_lookup_r _ _ _ _ _ Hks Hi) as (r' & Hr' & Hk').
    apply list_elem_of_lookup_2 in Hr'. by rewrite (keyed_inj L r r' k); auto.
  - intros [i Hi]%list_elem_of_lookup. destruct (Forall2_lookup_l _ _ _ _ _ Hks Hi) as (k' & Hk' & He).
    assert (k' = k) as -> by congruence. by apply list_elem_of_lookup_2 in Hk'.
Qed.

Lemma keys_total L T : keyed L → T ⊆ L → ∃ ks, keys_of T = Some ks.
Proof.
  intros HL HT. apply mapM_is_Some, Forall_forall. intros r Hr. destruct (keyed_serialize L r HL (HT r Hr)) as [k Hk]. by exists k.
Qed.

Lemma keyed_sub L L' : keyed L → NoDup L' → L' ⊆ L → keyed L'.
Proof.
  intros [_ H] Hn Hs. split; [done|]. intros r Hr. destruct (H r (Hs r Hr)) as (c & Hc & Hm). exists c. auto.
Qed.

Lemma keep_one (f : row → bool) L r : NoDup L → r ∈ L → (∀ r', r' ∈ L → f r' = true ↔ r' = r) → keep f L = [r].
Proof.
  intros Hn Hr Hf. induction Hn as [|x L Hx Hn IH]; [by apply elem_of_nil in Hr|].
  rewrite keep_cons. destruct (f x) eqn:E.
  - assert (x = r) as -> by (apply Hf; [by left|done]). f_equal. apply keep_none, Forall_forall. intros y Hy.
    destruct (f y) eqn:Ey; [|done]. apply Hf in Ey as ->; [done|by right].
  - apply elem_of_cons in Hr as [->|Hr]; [by rewrite (proj2 (Hf x ltac:(by left)) eq_refl) in E|].
    apply IH; [done|]. intros r' Hr'. apply Hf. by right.
Qed.
End keys.

(** ** How a change moves a collection of rows *)

(** A consumer's rows, and the input's, are collections: their order does not
    matter.  The rows a change takes are there, those it brings are new. *)
Definition moves (ch : change) (T T' : list row) : Prop :=
  match ch with
  | Add n => T' ≡ₚ node_row n :: T
  | Remove n => T ≡ₚ node_row n :: T'
  | Edit n old => ∃ T0, T ≡ₚ node_row old :: T0 ∧ T' ≡ₚ node_row n :: T0
  | Child n _ _ => node_row n ∈ T ∧ T' = T
  end.

(** The row that tells the partition, and the one that replaces it. *)
Definition change_subject (ch : change) : row :=
  match ch with Add n | Remove n | Child n _ _ => node_row n | Edit _ old => node_row old end.

Definition subject_after (ch : change) : row :=
  match ch with Add n | Remove n | Child n _ _ | Edit n _ => node_row n end.

Section facts.
Context {St : Type} `{!Storage St} (store_ok : St → Prop) `{!StorageLaws St store_ok}.
Context (input_fetch : FetchRequest → list node) (cp : CapOp).
Context (Hlimit : (0 < cp_limit cp < 2 ^ 32)%Z).
Context (out : OutEdge) (Hout : cp_output cp = Some out).
#[local] Abbreviation limit := (Z.to_nat (cp_limit cp)).
#[local] Abbreviation pk := (cp_primary_key cp).
Implicit Types (s : St) (L T : list row) (c : option Constraint).

(** The rows of a partition. *)
Definition in_partition c (r : row) : bool := match c with Some c => cmatch r c | None => true end.
Definition partition c L : list row := keep (in_partition c) L.

(** The input answers an unordered fetch with the rows that match. *)
Definition answers L : Prop :=
  ∀ c, map node_row (input_fetch (MkFetch c [] None false)) = partition c L.

(** The state of a partition tracks [T]. *)
Record tracks s c L T : Prop := {
  tr_keys : ∃ ks, keys_of pk T = Some ks ∧
    st_get (cap_key_from_constraint cp c) s = Some (SvCap (Z.of_nat (length T)) ks);
  tr_sub : T ⊆ partition c L;
  tr_limit : length T ≤ limit;
  tr_all : length T < limit → partition c L ⊆ T;
  tr_nodup : NoDup T
}.

(** What a consumer reads. *)
Definition cap_reads s c : option (list row) :=
  (λ r, map node_row r.2) <$> cap_fetch input_fetch cp s (MkFetch c [] None false).

Fixpoint cap_log_ok c T (log : list (OutEdge * change * St)) T' : Prop :=
  match log with
  | [] => T = T'
  | (o, ch, s) :: log => ∃ T1, o = out ∧ moves ch T T1 ∧ length T1 ≤ limit ∧ cap_reads s c = Some T1 ∧ cap_log_ok c T1 log T'
  end.

Lemma elem_partition c L r : r ∈ partition c L ↔ in_partition c r = true ∧ r ∈ L.
Proof. unfold partition, keep. rewrite list_elem_of_filter. by rewrite Is_true_true. Qed.

Lemma partition_sub c L : partition c L ⊆ L.
Proof. by intros r [_ Hr]%elem_partition. Qed.

Lemma partition_nodup c L : NoDup L → NoDup (partition c L).
Proof. intros H. unfold partition, keep. by apply NoDup_filter. Qed.

(** Looking the tracked keys up finds the tracked rows. *)
Lemma point_lookups_rows L T ks :
  keyed pk L → answers L → T ⊆ L → keys_of pk T = Some ks →
  ∃ ns, point_lookups input_fetch cp ks = Some ns ∧ map node_row ns = T.
Proof.
  intros HL Hin. revert ks. induction T as [|r T IH]; intros ks HT Hks.
  { injection Hks as <-. by exists []. }
  unfold keys_of in Hks. cbn [mapM] in Hks. apply bind_Some in Hks as (k & Hk & Hks).
  apply bind_Some in Hks as (ks' & Hks & [= <-]). fold (keys_of pk T) in Hks.
  destruct (IH ks') as (ns & Hns & Hrows); [intros x Hx; apply HT; by right|done|].
  cbn [point_lookups]. destruct (serialize_constraint pk r k Hk) as [Hc _].
  destruct HL as [Hn HL]. destruct (HL r (HT r ltac:(by left))) as (c & Hc' & Hm).
  rewrite <-Hc, Hc'. cbn [mbind option_bind]. rewrite Hns. cbn [mbind option_bind].
  eexists. split; [done|]. rewrite map_app, Hin, Hrows. unfold partition.
  rewrite (keep_one (in_partition (Some c)) L r Hn (HT r ltac:(by left)) Hm). done.
Qed.

Lemma reads_tracked s c L T ks :
  keyed pk L → answers L → T ⊆ L → keys_of pk T = Some ks →
  st_get (cap_key_from_constraint cp c) s = Some (SvCap (Z.of_nat (length T)) ks) → cap_reads s c = Some T.
Proof.
  intros HL Hin HT Hks Hg. unfold cap_reads, cap_fetch. cbn [start req_reverse req_constraint].
  unfold cap_get_state. rewrite Hg. cbn [mbind option_bind].
  destruct (Z.eqb_spec (Z.of_nat (length T)) 0) as [H0|_].
  { destruct T; [done|cbn in H0; lia]. }
  destruct (point_lookups_rows L T ks HL Hin HT Hks) as (ns & -> & Hrows). cbn. by rewrite Hrows.
Qed.

Lemma get_set s key size ks : store_ok s → st_get key (cap_set_state s key size ks) = Some (SvCap size ks).
Proof. intros H. unfold cap_set_state. rewrite (stl_get_set (store_ok := store_ok)) by done. by rewrite decide_True. Qed.

Lemma set_ok s key size ks : store_ok s → store_ok (cap_set_state s key size ks).
Proof. apply (stl_set_ok (store_ok := store_ok)). Qed.

(** The other slots keep their value. *)
Definition cap_others s s' key : Prop := ∀ k, k ≠ key → st_get k s' = st_get k s.

Lemma set_others s key size ks : store_ok s → cap_others s (cap_set_state s key size ks) key.
Proof. intros H k Hk. unfold cap_set_state. rewrite (stl_get_set (store_ok := store_ok)) by done. by rewrite decide_False. Qed.

Lemma cap_partition_of_row (r : row) c :
  cap_constraint_for cp r = Some c → cap_key_from_row cp r = Some (cap_key_from_constraint cp c).
Proof.
  unfold cap_constraint_for, cap_key_from_row, cap_key_from_constraint.
  destruct (cp_partition_key cp) as [pcols|]; [|by intros [= <-]].
  destruct (mapM (λ col, v ← r !! col; Some (col, v)) pcols) as [c'|] eqn:Hm; [|done].
  cbn [mbind option_bind]. intros [= <-]. apply constraint_for_values in Hm as (-> & Hpk & Hr).
  cbn [mbind option_bind]. do 2 f_equal. subst pcols. rewrite map_map. apply map_ext_in. intros [col v] Hi.
  apply list_elem_of_In in Hi. cbn [fst snd]. by rewrite (assoc_row r c' col v).
Qed.

(** The first untracked row of the partition, if there is one. *)
Lemma find_untracked_spec L T ks ns rows :
  keyed pk L → T ⊆ L → keys_of pk T = Some ks → map node_row ns = rows → rows ⊆ L →
  ∃ res, find_untracked cp ks ns = Some res ∧
    match res with
    | Some n => node_row n ∈ rows ∧ node_row n ∉ T
    | None => rows ⊆ T
    end.
Proof.
  intros HL HT Hks <-. induction ns as [|n ns IH]; intros Hsub; cbn [find_untracked map] in *.
  { exists None. split; [done|]. intros x Hx. by apply elem_of_nil in Hx. }
  assert (node_row n ∈ L) as Hn by (apply Hsub; by left).
  destruct (keyed_serialize pk L _ HL Hn) as [k Hk]. rewrite Hk. cbn [mbind option_bind].
  pose proof (keys_elem pk L T ks _ k HL HT Hn Hks Hk) as Hel. case_bool_decide as Hd.
  - destruct IH as (res & Hf & Hs); [intros x Hx; apply Hsub; by right|]. exists res. split; [done|].
    destruct res as [n'|]; [destruct Hs; split; [by right|done]|].
    intros x [->|Hx]%elem_of_cons; [by apply Hel|by apply Hs].
  - exists (Some n). split; [done|]. split; [by left|]. by rewrite <-Hel.
Qed.

(** The outcome of a push on a partition that tracked [T]. *)
Definition cap_maintains s c L' T (res : option (St * list (OutEdge * change * St))) : Prop :=
  ∃ s' log T', res = Some (s', log) ∧ store_ok s' ∧ tracks s' c L' T' ∧
    cap_others s s' (cap_key_from_constraint cp c) ∧ cap_log_ok c T log T'.

Lemma cap_nothing s c L' T : store_ok s → tracks s c L' T → cap_maintains s c L' T (Some (s, [])).
Proof. intros. exists s, [], T. by split_and!. Qed.

Lemma cap_one s s' c L' T T' ch :
  keyed pk L' → answers L' → store_ok s' → tracks s' c L' T' → cap_others s s' (cap_key_from_constraint cp c) →
  moves ch T T' → cap_maintains s c L' T (Some (s', cap_emit out s' ch)).
Proof.
  intros HL Hin Hok Ht Ho Hm. exists s', (cap_emit out s' ch), T'. split_and!; try done.
  exists T'. destruct Ht as [(ks & Hks & Hg) Hs Hl _ _]. split_and!; try done.
  apply (reads_tracked s' c L' T' ks); try done. etrans; [exact Hs|apply partition_sub].
Qed.

(** ** Add *)

Lemma cap_add s c L L' T ks n :
  keyed pk L → keyed pk L' → answers L' → L' ≡ₚ node_row n :: L → in_partition c (node_row n) = true →
  store_ok s → tracks s c L T → keys_of pk T = Some ks →
  ∀ k, serialize_pk (node_row n) pk = Some k →
  cap_maintains s c L' T
    (if (Z.of_nat (length T) <? cp_limit cp)%Z
     then let s := cap_set_state s (cap_key_from_constraint cp c) (u32_add (Z.of_nat (length T)) 1) (ks ++ [k]) in
          Some (s, cap_emit out s (Add n))
     else Some (s, [])).
Proof.
  intros HL HL' Hin HLL Hp Hok Ht Hks k Hk. destruct Ht as [(ks0 & Hks0 & Hg) Hs Hl Ha Hn].
  assert (∀ x, x ∈ partition c L' ↔ x = node_row n ∨ x ∈ partition c L) as HP.
  { intros x. rewrite !elem_partition, HLL, elem_of_cons. naive_solver. }
  assert (node_row n ∉ T) as HnT.
  { intros HT. destruct HL' as [Hnd _]. rewrite HLL, NoDup_cons in Hnd. destruct Hnd as [Hnd _].
    by apply Hnd, (partition_sub c), Hs. }
  destruct (Z.ltb_spec (Z.of_nat (length T)) (cp_limit cp)) as [Hlt|Hge].
  - cbn zeta.
    assert (u32_add (Z.of_nat (length T)) 1 = Z.of_nat (length (T ++ [node_row n]))) as ->
      by (unfold u32_add; rewrite length_app, Z.mod_small by lia; cbn; lia).
    apply (cap_one s _ c L' T (T ++ [node_row n])); [done|done|by apply set_ok| |by apply set_others|].
    + split.
      * exists (ks ++ [k]). split; [|by apply get_set]. apply keys_app; [done|]. unfold keys_of. cbn. by rewrite Hk.
      * intros x [Hx|Hx]%elem_of_app; apply HP; [right; by apply Hs|left]. by apply list_elem_of_singleton in Hx.
      * rewrite length_app. cbn. lia.
      * intros _ x [->|Hx]%HP; apply elem_of_app; [right; by left|left]. apply Ha; [lia|done].
      * apply NoDup_app. split_and!; [done| |apply NoDup_singleton].
        intros x Hx Hx'. apply list_elem_of_singleton in Hx' as ->. done.
    + cbn. by rewrite Permutation_app_comm.
  - apply cap_nothing; [done|]. split; [by exists ks0| |done|lia|done].
    intros x Hx. apply HP. right. by apply Hs.
Qed.

(** ** Remove *)

Lemma list_find_key (ks1 ks2 : list (list byte)) k :
  k ∉ ks1 → list_find (λ p, p = k) (ks1 ++ k :: ks2) = Some (length ks1, k).
Proof.
  intros H. apply list_find_Some. split_and!; [by apply list_lookup_middle|done|].
  intros j y Hj Hlt ->. apply H. rewrite lookup_app_l in Hj by done. by apply list_elem_of_lookup_2 in Hj.
Qed.

Lemma cap_remove s c L L' T ks n k :
  keyed pk L → keyed pk L' → answers L' → L ≡ₚ node_row n :: L' → in_partition c (node_row n) = true →
  cap_constraint_for cp (node_row n) = Some c →
  store_ok s → tracks s c L T → keys_of pk T = Some ks → serialize_pk (node_row n) pk = Some k →
  cap_maintains s c L' T
    (cap_push_remove input_fetch cp s n out (cap_key_from_constraint cp c) (Z.of_nat (length T)) ks k).
Proof.
  intros HL HL' Hin HLL Hp Hc Hok Ht Hks Hk. pose proof Ht as [(ks0 & Hks0 & Hg) Hs Hl Ha Hn].
  assert (∀ x, x ∈ partition c L ↔ x = node_row n ∨ x ∈ partition c L') as HP.
  { intros x. rewrite !elem_partition, HLL, elem_of_cons. naive_solver. }
  assert (node_row n ∉ L') as HnL'.
  { destruct HL as [Hnd _]. rewrite HLL, NoDup_cons in Hnd. tauto. }
  assert (node_row n ∈ L) as HnL by (rewrite HLL; by left).
  assert (T ⊆ L) as HTL by (etrans; [exact Hs|apply partition_sub]).
  pose proof (keys_elem pk L T ks _ k HL HTL HnL Hks Hk) as Hel. unfold cap_push_remove.
  destruct (decide (node_row n ∈ T)) as [HT|HT].
  2: { destruct (list_find (λ p, p = k) ks) as [[i x]|] eqn:E.
    { apply list_find_Some in E as (Hi & -> & _). apply list_elem_of_lookup_2 in Hi. by apply Hel in Hi. }
    apply cap_nothing; [done|]. split; [by exists ks0| |done| |done].
    - intros x Hx. destruct (proj1 (HP x) (Hs x Hx)) as [->|]; done.
    - intros Hlt. exfalso. apply HT, Ha; [done|]. apply HP. by left. }
  apply list_elem_of_split in HT as (T1 & T2 & ->).
  apply keys_app_inv in Hks as (ks1 & ks2' & -> & Hks1 & Hks2).
  unfold keys_of in Hks2. cbn [mapM] in Hks2. rewrite Hk in Hks2. cbn [mbind option_bind] in Hks2.
  apply bind_Some in Hks2 as (ks2 & Hks2 & [= <-]). fold (keys_of pk T2) in Hks2.
  assert (T1 ++ T2 ⊆ L') as HT0.
  { intros x Hx. assert (x ∈ T1 ++ node_row n :: T2) as Hx' by (apply elem_of_app in Hx; apply elem_of_app; rewrite elem_of_cons; tauto).
    destruct (proj1 (HP x) (Hs x Hx')) as [->|Hx'']; [|by apply (partition_sub c)].
    apply NoDup_app in Hn as (_ & Hn1 & [Hn2 _]%NoDup_cons). apply elem_of_app in Hx as [Hx|Hx]; [|done].
    destruct (Hn1 _ Hx). by left. }
  assert (NoDup (T1 ++ T2) ∧ node_row n ∉ T1) as [Hnd HnT1].
  { rewrite <-Permutation_middle, NoDup_cons in Hn. destruct Hn as [Hnn Hn]. split; [done|].
    intros H. apply Hnn, elem_of_app. by left. }
  rewrite list_find_key.
  2: { intros H. apply HnT1. eapply (keys_elem pk L T1 ks1); try done. intros x Hx. apply HTL, elem_of_app. by left. }
  replace (delete (length ks1) (ks1 ++ k :: ks2)) with (ks1 ++ ks2) by (by rewrite delete_middle).
  pose proof (keys_app pk T1 T2 ks1 ks2 Hks1 Hks2) as Hks.
  rewrite Hc. cbn [mbind option_bind].
  destruct (find_untracked_spec L' (T1 ++ T2) (ks1 ++ ks2) (input_fetch (MkFetch c [] None false)) (partition c L'))
    as (res & -> & Hres); [done|done|done|apply Hin|apply partition_sub|].
  cbn [mbind option_bind].
  assert (u32_sub (Z.of_nat (length (T1 ++ node_row n :: T2))) 1 = Z.of_nat (length (T1 ++ T2))) as ->
    by (unfold u32_sub; rewrite !length_app, Z.mod_small by (rewrite length_app in Hl; cbn in *; lia); cbn; lia).
  assert (length (T1 ++ node_row n :: T2) = S (length (T1 ++ T2))) as Hlen by (rewrite !length_app; cbn; lia).
  assert (T1 ++ T2 ⊆ partition c L') as HTP.
  { intros x Hx. assert (x ∈ T1 ++ node_row n :: T2) as Hx' by (apply elem_of_app in Hx; apply elem_of_app; rewrite elem_of_cons; tauto).
    destruct (proj1 (HP x) (Hs x Hx')) as [->|]; [|done]. destruct HnL'. by apply HT0. }
  assert (moves (Remove n) (T1 ++ node_row n :: T2) (T1 ++ T2)) as Hmv by (cbn; by rewrite Permutation_middle).
  destruct res as [repl|].
  - destruct Hres as [HrP HrT]. assert (node_row repl ∈ L') as HrL by (by apply (partition_sub c)).
    destruct (keyed_serialize pk L' _ HL' HrL) as [kr Hkr]. cbn zeta. rewrite Hkr. cbn [mbind option_bind].
    set (s1 := cap_set_state s _ _ _).
    assert (store_ok s1) as Hok1 by (by apply set_ok).
    assert (u32_add (Z.of_nat (length (T1 ++ T2))) 1 = Z.of_nat (length ((T1 ++ T2) ++ [node_row repl]))) as ->.
    { unfold u32_add. rewrite (length_app (T1 ++ T2)), Z.mod_small by (rewrite Hlen in Hl; lia). cbn. lia. }
    set (s2 := cap_set_state s1 _ _ _).
    assert (keys_of pk ((T1 ++ T2) ++ [node_row repl]) = Some ((ks1 ++ ks2) ++ [kr])) as Hks'.
    { apply keys_app; [done|]. unfold keys_of. cbn. by rewrite Hkr. }
    assert ((T1 ++ T2) ++ [node_row repl] ⊆ L') as Hsub.
    { intros x [Hx|Hx]%elem_of_app; [by apply HT0|]. by apply list_elem_of_singleton in Hx as ->. }
    assert (length ((T1 ++ T2) ++ [node_row repl]) = length (T1 ++ node_row n :: T2)) as Hlen'
      by (rewrite Hlen, length_app; cbn; lia).
    exists s2, (cap_emit out s1 (Remove n) ++ cap_emit out s2 (Add repl)), ((T1 ++ T2) ++ [node_row repl]).
    split_and!; [done|by apply set_ok| | |].
    + split; [eexists; split; [exact Hks'|by apply get_set]| |by rewrite Hlen'| |].
      * intros x [Hx|Hx]%elem_of_app; [by apply HTP|]. by apply list_elem_of_singleton in Hx as ->.
      * rewrite Hlen'. intros Hlt. exfalso. apply HrT.
        assert (node_row repl ∈ T1 ++ node_row n :: T2) as Hin'.
        { apply Ha; [done|]. apply HP. by right. }
        apply elem_of_app in Hin' as [H|[H|H]%elem_of_cons]; [apply elem_of_app; by left| |apply elem_of_app; by right].
        destruct HnL'. by rewrite <-H.
      * apply NoDup_app. split_and!; [done| |apply NoDup_singleton].
        intros x Hx Hx'. apply list_elem_of_singleton in Hx' as ->. done.
    + intros k' Hk'. unfold s2, s1. by rewrite !set_others.
    + cbn [cap_log_ok cap_emit app]. exists (T1 ++ T2). split_and!; [done|done|lia| |].
      { by apply (reads_tracked s1 c L' _ (ks1 ++ ks2)); [..|apply get_set]. }
      exists ((T1 ++ T2) ++ [node_row repl]). split_and!; [done| |by rewrite Hlen'| |done].
      { cbn. by rewrite Permutation_app_comm. }
      by apply (reads_tracked s2 c L' _ ((ks1 ++ ks2) ++ [kr])); [..|apply get_set].
  - apply (cap_one s _ c L' _ (T1 ++ T2)); [done|done|by apply set_ok| |by apply set_others|done].
    split; [exists (ks1 ++ ks2); split; [done|by apply get_set]|done|lia|done|done].
Qed.

(** ** Edit *)

Lemma map_replace (ks1 ks2 : list (list byte)) k k' :
  k ∉ ks1 → k ∉ ks2 →
  map (λ p, if bool_decide (p = k) then k' else p) (ks1 ++ k :: ks2) = ks1 ++ k' :: ks2.
Proof.
  intros H1 H2. assert (∀ ks, k ∉ ks → map (λ p, if bool_decide (p = k) then k' else p) ks = ks) as Hid.
  { intros ks. induction ks as [|x ks IH]; [done|]. rewrite not_elem_of_cons. intros [Hx Hks]. cbn.
    rewrite bool_decide_eq_false_2 by congruence. by rewrite IH. }
  rewrite map_app. cbn. rewrite !Hid by done. by rewrite bool_decide_eq_true_2.
Qed.

Lemma cap_edit s c L L' L0 T ks n old k k' :
  keyed pk L → keyed pk L' → answers L' → L ≡ₚ node_row old :: L0 → L' ≡ₚ node_row n :: L0 →
  in_partition c (node_row old) = true → in_partition c (node_row n) = true →
  cap_constraint_for cp (node_row old) = Some c →
  store_ok s → tracks s c L T → keys_of pk T = Some ks →
  serialize_pk (node_row old) pk = Some k → serialize_pk (node_row n) pk = Some k' →
  cap_maintains s c L' T (cap_push_edit cp s n old).
Proof.
  intros HL HL' Hin HLL HLL' Hpo Hpn Hc Hok Ht Hks Hk Hk'. pose proof Ht as [(ks0 & Hks0 & Hg) Hs Hl Ha Hn].
  assert (ks0 = ks) as -> by congruence.
  unfold cap_push_edit. rewrite (cap_partition_of_row _ c Hc). cbn [mbind option_bind].
  unfold cap_get_state. rewrite Hg. cbn [mbind option_bind]. rewrite Hk. cbn [mbind option_bind].
  rewrite Hout. cbn [mbind option_bind].
  assert (∀ x, x ∈ partition c L ↔ x = node_row old ∨ x ∈ partition c L0) as HP.
  { intros x. rewrite !elem_partition, HLL, elem_of_cons. naive_solver. }
  assert (∀ x, x ∈ partition c L' ↔ x = node_row n ∨ x ∈ partition c L0) as HP'.
  { intros x. rewrite !elem_partition, HLL', elem_of_cons. naive_solver. }
  assert (node_row n ∉ L0) as HnL0.
  { destruct HL' as [Hnd _]. rewrite HLL', NoDup_cons in Hnd. tauto. }
  assert (node_row old ∈ L) as HoL by (rewrite HLL; by left).
  assert (T ⊆ L) as HTL by (etrans; [exact Hs|apply partition_sub]).
  pose proof (keys_elem pk L T ks _ k HL HTL HoL Hks Hk) as Hel.
  destruct (decide (node_row old ∈ T)) as [HT|HT].
  2: { rewrite bool_decide_eq_false_2 by (by rewrite Hel). apply cap_nothing; [done|].
    split; [by exists ks| |done| |done].
    - intros x Hx. apply HP'. right. by destruct (proj1 (HP x) (Hs x Hx)) as [->|].
    - intros Hlt. exfalso. apply HT, Ha; [done|]. apply HP. by left. }
  rewrite bool_decide_eq_true_2 by (by apply Hel). rewrite Hk'. cbn [mbind option_bind].
  apply list_elem_of_split in HT as (T1 & T2 & ->).
  apply keys_app_inv in Hks as (ks1 & ks2' & -> & Hks1 & Hks2).
  unfold keys_of in Hks2. cbn [mapM] in Hks2. rewrite Hk in Hks2. cbn [mbind option_bind] in Hks2.
  apply bind_Some in Hks2 as (ks2 & Hks2 & [= <-]). fold (keys_of pk T2) in Hks2.
  assert (keys_of pk (T1 ++ node_row n :: T2) = Some (ks1 ++ k' :: ks2)) as Hks'.
  { apply keys_app; [done|]. unfold keys_of. cbn [mapM]. rewrite Hk'. cbn [mbind option_bind].
    fold (keys_of pk T2). by rewrite Hks2. }
  rewrite <-Permutation_middle, NoDup_cons in Hn. destruct Hn as [HoT Hn].
  assert (∀ T0 ks', T0 ⊆ T1 ++ T2 → keys_of pk T0 = Some ks' → k ∉ ks') as Hnk.
  { intros T0 ks' HT0 Hk0 H. apply HoT, HT0. eapply (keys_elem pk L T0 ks'); try done.
    intros x Hx. apply HTL. apply HT0, elem_of_app in Hx. apply elem_of_app. rewrite elem_of_cons. tauto. }
  assert (T1 ++ T2 ⊆ partition c L0) as HT0.
  { intros x Hx. assert (x ∈ T1 ++ node_row old :: T2) as Hx' by (apply elem_of_app in Hx; apply elem_of_app; rewrite elem_of_cons; tauto).
    by destruct (proj1 (HP x) (Hs x Hx')) as [->|]. }
  set (s' := if bool_decide (k' = k) then s else _).
  assert (store_ok s' ∧ cap_others s s' (cap_key_from_constraint cp c) ∧
    st_get (cap_key_from_constraint cp c) s' =
      Some (SvCap (Z.of_nat (length (T1 ++ node_row n :: T2))) (ks1 ++ k' :: ks2))) as (Hok' & Ho' & Hg').
  { unfold s'. replace (length (T1 ++ node_row n :: T2)) with (length (T1 ++ node_row old :: T2))
      by (rewrite !length_app; done).
    case_bool_decide as Hkk.
    - split_and!; [done|done|]. by rewrite Hg, Hkk.
    - rewrite map_replace.
      + split_and!; [by apply set_ok|by apply set_others|by apply get_set].
      + apply (Hnk T1); [|done]. intros x Hx. apply elem_of_app. by left.
      + apply (Hnk T2); [|done]. intros x Hx. apply elem_of_app. by right. }
  apply (cap_one s s' c L' _ (T1 ++ node_row n :: T2)); try done.
  - split; [by eexists| | | |].
    + intros x Hx. apply HP'. rewrite <-Permutation_middle, elem_of_cons in Hx.
      destruct Hx as [->|Hx]; [by left|right; by apply HT0].
    + rewrite length_app in Hl |- *. cbn in *. lia.
    + intros Hlt x Hx. rewrite <-Permutation_middle, elem_of_cons.
      destruct (proj1 (HP' x) Hx) as [->|Hx']; [by left|right].
      assert (x ∈ T1 ++ node_row old :: T2) as Hx2.
      { apply Ha; [rewrite length_app in Hlt |- *; cbn in *; lia|]. apply HP. by right. }
      apply elem_of_app in Hx2 as [H|[H|H]%elem_of_cons]; [apply elem_of_app; by left| |apply elem_of_app; by right].
      exfalso. destruct HL as [Hnd _]. rewrite HLL, NoDup_cons in Hnd. destruct Hnd as [Hnd _]. apply Hnd.
      rewrite <-H. by apply (partition_sub c).
    + rewrite <-Permutation_middle, NoDup_cons. split; [|done]. intros H. apply HnL0, (partition_sub c), HT0, H.
  - exists (T1 ++ T2). split; by rewrite Permutation_middle.
Qed.

(** ** All of them *)

Lemma cap_push_case s c L L' T ch :
  keyed pk L → keyed pk L' → answers L' → moves ch L L' →
  cap_constraint_for cp (change_subject ch) = Some c →
  in_partition c (change_subject ch) = true → in_partition c (subject_after ch) = true →
  store_ok s → tracks s c L T → cap_maintains s c L' T (cap_push input_fetch cp s ch).
Proof.
  intros HL HL' Hin Hm Hc Hp Hp' Hok Ht. pose proof Ht as [(ks & Hks & Hg) Hs _ _ _].
  assert (change_subject ch ∈ L ∨ change_subject ch ∈ L') as Hsub.
  { destruct ch as [n|n|n old|n rel child]; cbn in *; [right|left|left|left].
    - rewrite Hm. by left.
    - rewrite Hm. by left.
    - destruct Hm as (L0 & -> & _). by left.
    - apply Hm. }
  assert (∃ k, serialize_pk (change_subject ch) pk = Some k) as [k Hk].
  { destruct Hsub as [H|H]; [by apply (keyed_serialize pk L)|by apply (keyed_serialize pk L')]. }
  destruct ch as [n|n|n old|n rel child]; cbn [change_subject subject_after] in *.
  3: { destruct Hm as (L0 & HLL & HLL').
    destruct (keyed_serialize pk L' (node_row n) HL') as [k' Hk']; [rewrite HLL'; by left|].
    by eapply (cap_edit s c L L' L0 T ks n old k k'). }
  all: unfold cap_push; rewrite (cap_partition_of_row _ c Hc); cbn [mbind option_bind];
    unfold cap_get_state; rewrite Hg; cbn [mbind option_bind]; rewrite Hk; cbn [mbind option_bind];
    rewrite Hout; cbn [mbind option_bind].
  - by apply (cap_add s c L L' T ks n).
  - by apply (cap_remove s c L L' T ks n k).
  - destruct Hm as [HnL ->]. case_bool_decide as Hd; [|by apply cap_nothing].
    apply (cap_one s s c L T T); try done. split; [|done].
    by eapply (keys_elem pk L T ks); [|etrans; [exact Hs|apply partition_sub]|..].
Qed.

(** [Cap::push] of a change to a partition whose rows it tracks runs to its
    end while the input already shows the change: the tracked rows stay rows of the
    partition, at most [limit] of them and all of them while they are fewer; the
    changes pushed downstream turn the rows tracked before into those tracked
    after, never above [limit]; a fetch during each of them looks up exactly the
    rows with that change; no other partition's state moves. *)
Theorem cap_push_maintains s c L L' T ch :
  keyed pk L → keyed pk L' → answers L' → moves ch L L' →
  cap_constraint_for cp (change_subject ch) = Some c →
  in_partition c (change_subject ch) = true → in_partition c (subject_after ch) = true →
  store_ok s → tracks s c L T → cap_maintains s c L' T (cap_push input_fetch cp s ch).
Proof. apply cap_push_case. Qed.

(** ** Hydrating *)

Lemma cap_first_spec L k0 ks0 ns :
  keyed pk L → map node_row ns ⊆ L → (0 <= k0 < cp_limit cp)%Z →
  let T := take (Z.to_nat (cp_limit cp - k0)) (map node_row ns) in
  ∃ ks, keys_of pk T = Some ks ∧
    cap_first cp k0 ks0 ns = Some (take (Z.to_nat (cp_limit cp - k0)) ns, (k0 + Z.of_nat (length T))%Z, ks0 ++ ks).
Proof.
  intros HL. revert k0 ks0. induction ns as [|n ns IH]; intros k0 ks0 Hsub Hk0; cbn [cap_first map].
  { exists []. rewrite !take_nil, app_nil_r, Z.add_0_r. done. }
  destruct (keyed_serialize pk L (node_row n) HL) as [k Hk]; [apply Hsub; by left|].
  assert (u32_add k0 1 = k0 + 1)%Z as Hadd by (unfold u32_add; rewrite Z.mod_small; lia).
  rewrite Hk. cbn [mbind option_bind]. rewrite Hadd.
  destruct (Z.eqb_spec (k0 + 1) (cp_limit cp)) as [He|He].
  - replace (Z.to_nat (cp_limit cp - k0)) with 1 by lia. exists [k]. cbn [take length].
    split; [|by do 2 f_equal]. unfold keys_of. cbn. by rewrite Hk.
  - replace (Z.to_nat (cp_limit cp - k0)) with (S (Z.to_nat (cp_limit cp - (k0 + 1)))) by lia.
    destruct (IH (k0 + 1)%Z (ks0 ++ [k])) as (ks & Hks & ->); [|lia|].
    { intros x Hx. apply Hsub. by right. }
    cbn [mbind option_bind take length]. exists (k :: ks). split.
    + unfold keys_of in *. cbn [mapM]. rewrite Hk. cbn [mbind option_bind]. by rewrite Hks.
    + rewrite <-(assoc_L (++)). do 3 f_equal. lia.
Qed.

Lemma cap_hydrate s c L :
  keyed pk L → answers L → store_ok s → st_get (cap_key_from_constraint cp c) s = None →
  ∃ s' ns, cap_fetch input_fetch cp s (MkFetch c [] None false) = Some (s', ns) ∧ store_ok s' ∧
    tracks s' c L (map node_row ns) ∧ cap_others s s' (cap_key_from_constraint cp c).
Proof.
  intros HL Hin Hok Hg. unfold cap_fetch. cbn [start req_reverse req_constraint]. unfold cap_get_state.
  rewrite Hg. cbn [mbind option_bind]. unfold cap_initial_fetch. destruct (Z.eqb_spec (cp_limit cp) 0); [lia|].
  cbn [req_constraint]. set (ns := input_fetch _).
  assert (map node_row ns = partition c L) as Hns by apply Hin.
  destruct (cap_first_spec L 0 [] ns) as (ks & Hks & ->); [done|rewrite Hns; apply partition_sub|lia|].
  cbn [mbind option_bind]. rewrite Z.sub_0_r in Hks |- *. cbn [app].
  eexists _, _. split; [done|]. split; [by apply set_ok|].
  replace (map node_row (take limit ns)) with (take limit (partition c L))
    by (rewrite <-Hns; symmetry; apply (fmap_take node_row)).
  rewrite Hns in Hks |- *. split; [split|by apply set_others].
  - exists ks. split; [done|]. by rewrite get_set.
  - intros x Hx. eapply elem_of_take in Hx as (i & Hi & _). by apply list_elem_of_lookup_2 in Hi.
  - rewrite length_take. lia.
  - rewrite length_take. intros Hlt x Hx. by rewrite take_ge by lia.
  - eapply sublist_NoDup; [apply partition_nodup, HL|apply sublist_take].
Qed.

(** How many rows are tracked: as many as there are, up to the limit. *)
Lemma tracks_length s c L T : keyed pk L → tracks s c L T → length T = Nat.min limit (length (partition c L)).
Proof.
  intros [Hnd _] [_ Hs Hl Ha Hn]. pose proof (submseteq_length _ _ (NoDup_submseteq _ _ Hn Hs)) as H1.
  destruct (decide (length T < limit)) as [Hlt|Hge]; [|lia].
  assert (NoDup (partition c L)) as HnP by (by apply partition_nodup).
  pose proof (submseteq_length _ _ (NoDup_submseteq _ _ HnP (Ha Hlt))). lia.
Qed.
End facts.

(** ** Runs *)

Section run.
Context {St : Type} `{!Storage St} (store_ok : St → Prop) `{!StorageLaws St store_ok}.
Context (input : list row → FetchRequest → list node) (cp : CapOp).
#[local] Abbreviation limit := (Z.to_nat (cp_limit cp)).
#[local] Abbreviation pk := (cp_primary_key cp).
Implicit Types (s : St) (L T : list row) (c : option Constraint).

(** Every change comes with the rows of the input once it shows the change. *)
Fixpoint cap_run s (steps : list (change * list row)) : option (St * list (OutEdge * change * St)) :=
  match steps with
  | [] => Some (s, [])
  | (ch, L') :: steps =>
      '(s, l1) ← cap_push (input L') cp s ch;
      '(s, l2) ← cap_run s steps;
      Some (s, l1 ++ l2)
  end.

Fixpoint cap_run_valid c L (steps : list (change * list row)) : Prop :=
  match steps with
  | [] => True
  | (ch, L') :: steps =>
      moves ch L L' ∧ keyed pk L' ∧ cap_constraint_for cp (change_subject ch) = Some c ∧
      in_partition c (change_subject ch) = true ∧ in_partition c (subject_after ch) = true ∧
      cap_run_valid c L' steps
  end.

Fixpoint last_rows L (steps : list (change * list row)) : list row :=
  match steps with [] => L | (_, L') :: steps => last_rows L' steps end.

(** What a consumer makes of the log. *)
Fixpoint moves_run T (log : list (OutEdge * change * St)) T' : Prop :=
  match log with
  | [] => T = T'
  | (_, ch, _) :: log => ∃ T1, moves ch T T1 ∧ length T1 ≤ limit ∧ moves_run T1 log T'
  end.

Lemma moves_run_app T l1 T1 l2 T2 : moves_run T l1 T1 → moves_run T1 l2 T2 → moves_run T (l1 ++ l2) T2.
Proof.
  revert T. induction l1 as [|[[o ch] s] l1 IH]; intros T; [by intros ->|]. cbn.
  intros (T0 & Hm & Hl & H) H2. exists T0. auto.
Qed.

Lemma cap_log_moves fetch out c T log T' : cap_log_ok fetch cp out c T log T' → moves_run T log T'.
Proof.
  revert T. induction log as [|[[o ch] s] log IH]; intros T; [done|]. cbn.
  intros (T1 & _ & Hm & Hl & _ & H). exists T1. auto.
Qed.

Context (Hlimit : (0 < cp_limit cp < 2 ^ 32)%Z) (out : OutEdge) (Hout : cp_output cp = Some out).
Context (Hin : ∀ L, answers (input L) L).

Lemma cap_run_tracks s c L T steps :
  keyed pk L → cap_run_valid c L steps → store_ok s → tracks cp s c L T →
  ∃ s' log T', cap_run s steps = Some (s', log) ∧ store_ok s' ∧ tracks cp s' c (last_rows L steps) T' ∧
    keyed pk (last_rows L steps) ∧ moves_run T log T'.
Proof.
  revert s L T. induction steps as [|[ch L'] steps IH]; intros s L T HL Hv Hok Ht; cbn [cap_run last_rows].
  { exists s, [], T. by split_and!. }
  destruct Hv as (Hm & HL' & Hc & Hp & Hp' & Hv).
  destruct (cap_push_case store_ok (input L') cp Hlimit out Hout s c L L' T ch) as (s1 & l1 & T1 & -> & Hok1 & Ht1 & _ & Hl1);
    try done.
  destruct (IH s1 L' T1) as (s2 & l2 & T2 & Hr & Hok2 & Ht2 & HL2 & Hl2); try done.
  cbn [mbind option_bind]. rewrite Hr. cbn [mbind option_bind]. exists s2, (l1 ++ l2), T2. split_and!; try done.
  eapply moves_run_app; [by eapply cap_log_moves|done].
Qed.

(** [C24] [Cap] counts exactly, up to its limit: hydrated by a first fetch and then
    driven through any sequence of changes to its partition, what the consumer
    holds after applying the log, and what a fetch reads, is a set of rows of the
    partition whose number is the smaller of [limit] and the number of rows the
    partition has by then; in particular it is empty exactly when the partition
    is. *)
Theorem cap_counts s c L steps :
  keyed pk L → cap_run_valid c L steps → store_ok s → st_get (cap_key_from_constraint cp c) s = None →
  ∃ s1 ns s2 log T,
    cap_fetch (input L) cp s (MkFetch c [] None false) = Some (s1, ns) ∧ cap_run s1 steps = Some (s2, log) ∧
    moves_run (map node_row ns) log T ∧
    let P := partition c (last_rows L steps) in
    cap_reads (input (last_rows L steps)) cp s2 c = Some T ∧ T ⊆ P ∧ NoDup T ∧
    length T = Nat.min limit (length P) ∧ (T = [] ↔ P = []).
Proof.
  intros HL Hv Hok Hg.
  destruct (cap_hydrate store_ok (input L) cp Hlimit s c L HL (Hin L) Hok Hg) as (s1 & ns & Hf & Hok1 & Ht1 & _).
  destruct (cap_run_tracks s1 c L _ steps HL Hv Hok1 Ht1) as (s2 & log & T & Hr & Hok2 & Ht2 & HL2 & Hm).
  exists s1, ns, s2, log, T. do 3 (split; [done|]). cbn zeta.
  pose proof (tracks_length cp Hlimit s2 c _ T HL2 Ht2) as Hlen. split; [|split; [apply Ht2|split; [apply Ht2|split; [done|]]]].
  - destruct Ht2 as [(ks & Hks & Hg2) Hs _ _ _].
    apply (reads_tracked (input (last_rows L steps)) cp s2 c (last_rows L steps) T ks); try done.
    etrans; [exact Hs|apply partition_sub].
  - rewrite <-!length_zero_iff_nil. lia.
Qed.
End run.

(** ** Concrete runs *)

Definition ex_crow (g k : Z) : row := [Int (i64_of_Z g); Int (i64_of_Z k)].
Definition ex_cedge : OutEdge := MkEdge 4 Single.

(** Two rows of every group, found by their second column. *)
Definition ex_cap : CapOp := MkCap 0 0 2 (Some [0]) [1] (Some ex_cedge).

Definition ex_cinput (L : list row) (req : FetchRequest) : list node :=
  map leaf_node (partition (req_constraint req) L).

Lemma ex_cinput_answers L : answers (ex_cinput L) L.
Proof. intros c. unfold ex_cinput. rewrite map_map. cbn. apply map_id. Qed.

Definition ex_cgroup : option Constraint := Some [(0, Int (i64_of_Z 7))].
Definition ex_L : list row := [ex_crow 7 1; ex_crow 8 2; ex_crow 7 3; ex_crow 7 4].

(** A tracked row is removed and the untracked one refills; the other is edited
    to another key. *)
Definition ex_csteps : list (change * list row) :=
  [(Remove (leaf_node (ex_crow 7 1)), [ex_crow 8 2; ex_crow 7 3; ex_crow 7 4]);
   (Edit (leaf_node (ex_crow 7 5)) (leaf_node (ex_crow 7 3)), [ex_crow 7 5; ex_crow 8 2; ex_crow 7 4])].

Ltac solve_keyed :=
  split; [repeat (apply NoDup_cons; split; [rewrite ?not_elem_of_cons; repeat split; try discriminate; apply not_elem_of_nil|]);
          apply NoDup_nil_2|
          intros r Hr; rewrite ?elem_of_cons, elem_of_nil in Hr;
          repeat (destruct Hr as [->|Hr]; [eexists; split; [reflexivity|]; intros r' Hr';
            rewrite ?elem_of_cons, elem_of_nil in Hr';
            repeat (destruct Hr' as [->|Hr']; [by vm_compute|]); done|]); done].

Lemma ex_L_keyed : keyed [1] ex_L.
Proof. unfold ex_L. solve_keyed. Qed.

Definition ex_cstate : MemoryStorage :=
  Eval vm_compute in cap_set_state memory_storage_new (cap_key_from_constraint ex_cap ex_cgroup) 2 [[x69; x31; x3a; x31]; [x69; x31; x3a; x33]].

Lemma cap_push_maintains_witness :
  cap_maintains (λ s : MemoryStorage, om_sorted bytes_cmp (ms_data s)) (ex_cinput [ex_crow 8 2; ex_crow 7 3; ex_crow 7 4])
    ex_cap ex_cedge ex_cstate ex_cgroup [ex_crow 8 2; ex_crow 7 3; ex_crow 7 4] [ex_crow 7 1; ex_crow 7 3]
    (cap_push (ex_cinput [ex_crow 8 2; ex_crow 7 3; ex_crow 7 4]) ex_cap ex_cstate (Remove (leaf_node (ex_crow 7 1)))).
Proof.
  apply (cap_push_maintains (λ s : MemoryStorage, om_sorted bytes_cmp (ms_data s))
    (ex_cinput [ex_crow 8 2; ex_crow 7 3; ex_crow 7 4]) ex_cap ltac:(by vm_compute) ex_cedge eq_refl ex_cstate ex_cgroup
    ex_L [ex_crow 8 2; ex_crow 7 3; ex_crow 7 4] [ex_crow 7 1; ex_crow 7 3] (Remove (leaf_node (ex_crow 7 1)))).
  - exact ex_L_keyed.
  - unfold ex_cap. cbn [cp_primary_key]. solve_keyed.
  - apply ex_cinput_answers.
  - apply Permutation_refl.
  - reflexivity.
  - reflexivity.
  - reflexivity.
  - repeat constructor.
  - split.
    + eexists. split; reflexivity.
    + intros r. rewrite !elem_of_cons, elem_of_nil. intros [->|[->|[]]]; vm_compute; repeat constructor.
    + cbn. lia.
    + cbn. lia.
    + repeat (apply NoDup_cons; split; [rewrite ?not_elem_of_cons; repeat split; try discriminate; apply not_elem_of_nil|]).
      apply NoDup_nil_2.
Defined.

Lemma cap_counts_witness :
  ∃ s1 ns s2 log T,
    cap_fetch (ex_cinput ex_L) ex_cap memory_storage_new (MkFetch ex_cgroup [] None false) = Some (s1, ns) ∧
    cap_run ex_cinput ex_cap s1 ex_csteps = Some (s2, log) ∧ moves_run ex_cap (map node_row ns) log T ∧
    let P := partition ex_cgroup [ex_crow 7 5; ex_crow 8 2; ex_crow 7 4] in
    cap_reads (ex_cinput [ex_crow 7 5; ex_crow 8 2; ex_crow 7 4]) ex_cap s2 ex_cgroup = Some T ∧ T ⊆ P ∧ NoDup T ∧
    length T = Nat.min 2 (length P) ∧ (T = [] ↔ P = []).
Proof.
  apply (cap_counts (λ s : MemoryStorage, om_sorted bytes_cmp (ms_data s)) ex_cinput ex_cap ltac:(by vm_compute)
    ex_cedge eq_refl ex_cinput_answers memory_storage_new ex_cgroup ex_L ex_csteps).
  - exact ex_L_keyed.
  - split; [apply Permutation_refl|]. split; [unfold ex_cap; cbn [cp_primary_key]; solve_keyed|]. do 3 (split; [reflexivity|]).
    split.
    { exists [ex_crow 8 2; ex_crow 7 4]. split; [|reflexivity]. cbn. apply Permutation_swap. }
    split; [unfold ex_cap; cbn [cp_primary_key]; solve_keyed|]. do 3 (split; [reflexivity|]). exact I.
  - constructor.
  - reflexivity.
Defined.
