(* ===== verification/Chain.v ===== *)
(** * The filter chain: [where] as a chain of links ([rust/src/graph.rs], [rust/src/op/exists.rs])

    Between a [FilterStart] and a [FilterEnd] a condition is a chain of links: leaf
    predicates, [EXISTS] gates that count a relationship of the row, and [OR] fans
    whose branches end at a [FanIn].  A fetch asks the chain about every node
    ([chain_filter]); a push walks a change through it ([chain_push]), each link
    passing, splitting or converting it.

    The links of the arena are a tree here ([link]): a link holds the links its
    output edges lead to.  What links keep is [ChainSt]: the size cache of every
    [Exists] and the set of those that are in a push.  A failed [assert!] or
    [expect] and a predicate that panics are [None].  The counters of the test
    probe link are left out. *)

From stdpp Require Import base list numbers option gmap sets.
From Stdlib Require Import ZArith Lia Strings.Byte.
From S2P Require Import Prelude Values Rows Change Predicate Storage Partition.

#[local] Open Scope nat_scope.

Record ExistsLink := MkExists {
  ex_id : nat;
  ex_rel : nat;
  ex_not : bool;
  ex_parent_join_key : list nat;
  ex_no_size_reuse : bool
}.

Definition exists_new (id rel : nat) (parent_join_key : list nat) (not : bool) (primary_key : list nat) : ExistsLink :=
  MkExists id rel not parent_join_key (bool_decide (parent_join_key = primary_key)).

Inductive link : Type :=
  | LFilter (pred : CompiledPredicate) (next : link)
  | LExists (e : ExistsLink) (next : link)
  | LFanOut (branches : list link) (next : option link)
  | LFanIn
  | LFilterEnd.

Record ChainSt := MkChainSt {
  cs_cache : gmap nat (list (list byte * bool));
  cs_in_push : gset nat
}.

Definition with_cache (st : ChainSt) (c : gmap nat (list (list byte * bool))) : ChainSt := MkChainSt c (cs_in_push st).
Definition with_in_push (st : ChainSt) (p : gset nat) : ChainSt := MkChainSt (cs_cache st) p.

(** ** Counting a relationship *)

Definition node_rels (n : node) : list (nat * (unit → list node)) := let 'Node _ rels := n in rels.

(** The first relationship in the slot; [None] is the [expect]. *)
Definition rel_size (rel : nat) (n : node) : option nat :=
  match list_find (λ r : nat * (unit → list node), r.1 = rel) (node_rels n) with
  | Some (_, (_, thunk)) => Some (length (thunk tt))
  | None => None
  end.

Definition fetch_size (e : ExistsLink) (n : node) : option nat := rel_size (ex_rel e) n.

Definition fetch_exists (e : ExistsLink) (n : node) : option bool :=
  size ← fetch_size e n; Some (negb (size =? 0)).

Definition gate (e : ExistsLink) (n : node) (exists_ : option bool) : option bool :=
  b ← match exists_ with Some b => Some b | None => fetch_exists e n end;
  Some (xorb (ex_not e) b).

Definition exists_cache_key (e : ExistsLink) (n : node) : option (list byte) :=
  vals ← mapM (λ c, node_row n !! c) (ex_parent_join_key e); Some (encode_state_key [] vals).

(** [force_rel_single], whose stream yields the child to its first consumer (a
    relationship is drained at most once downstream), and [force_rel_empty]. *)
Definition force_rel (n : node) (slot : nat) (children : list node) : node :=
  Node (node_row n) (filter (λ r, r.1 ≠ slot) (node_rels n) ++ [(slot, λ _, children)]).

Definition force_rel_single (n : node) (slot : nat) (child : node) : node := force_rel n slot [child].
Definition force_rel_empty (n : node) (slot : nat) : node := force_rel n slot [].

(** ** Fetching *)

(** [Exists::filter] up to the downstream link: the gate, by way of the cache. *)
Definition exists_gate (e : ExistsLink) (n : node) (st : ChainSt) : option (bool * ChainSt) :=
  if negb (ex_no_size_reuse e) && negb (bool_decide (ex_id e ∈ cs_in_push st)) then
    key ← exists_cache_key e n;
    let entries := default [] (cs_cache st !! ex_id e) in
    match assoc entries key with
    | Some b => r ← gate e n (Some b); Some (r, st)
    | None =>
        b ← fetch_exists e n;
        r ← gate e n (Some b);
        Some (r, with_cache st (<[ex_id e := (key, b) :: entries]> (cs_cache st)))
    end
  else r ← gate e n None; Some (r, st).

(** The first branch that passes ends the search. *)
Definition any_branch (f : link → ChainSt → option (bool * ChainSt)) : list link → ChainSt → option (bool * ChainSt) :=
  fix any bs st :=
    match bs with
    | [] => Some (false, st)
    | b :: bs => '(r, st) ← f b st; if (r : bool) then Some (true, st) else any bs st
    end.

Fixpoint chain_filter (l : link) (n : node) (st : ChainSt) : option (bool * ChainSt) :=
  match l with
  | LFilter p next =>
      b ← eval p (node_row n);
      if (b : bool) then chain_filter next n st else Some (false, st)
  | LExists e next =>
      '(b, st) ← exists_gate e n st;
      if (b : bool) then chain_filter next n st else Some (false, st)
  | LFanOut branches next =>
      '(b, st) ← any_branch (λ b st, chain_filter b n st) branches st;
      if (b : bool) then match next with Some c => chain_filter c n st | None => Some (true, st) end
      else Some (false, st)
  | LFanIn | LFilterEnd => Some (true, st)
  end.

Definition each_branch (f : link → ChainSt → ChainSt) : list link → ChainSt → ChainSt :=
  fix all bs st := match bs with [] => st | b :: bs => all bs (f b st) end.

(** Every cache of the chain is emptied. *)
Fixpoint end_filter (l : link) (st : ChainSt) : ChainSt :=
  match l with
  | LFilter _ next => end_filter next st
  | LExists e next => end_filter next (with_cache st (<[ex_id e := []]> (cs_cache st)))
  | LFanOut branches next =>
      let st := each_branch end_filter branches st in
      match next with Some c => end_filter c st | None => st end
  | LFanIn | LFilterEnd => st
  end.

Fixpoint filter_nodes (l : link) (ns : list node) (st : ChainSt) : option (list node * ChainSt) :=
  match ns with
  | [] => Some ([], st)
  | n :: ns =>
      '(b, st) ← chain_filter l n st;
      '(out, st) ← filter_nodes l ns st;
      Some (if (b : bool) then n :: out else out, st)
  end.

(** [filter_start_fetch]: [upstream] is what the consumer pulls before it drops
    the stream, which runs [end_filter]. *)
Definition filter_start_fetch (l : link) (upstream : list node) (st : ChainSt) : option (list node * ChainSt) :=
  '(out, st) ← filter_nodes l upstream st;
  Some (out, end_filter l st).

(** ** Pushing *)

(** The first change of every type. *)
Definition first_of {A} (f : change → option A) (acc : list change) : option A := head (omap f acc).

Definition collapse_accumulated (acc : list change) (fan_out_type : change_type) : list change :=
  let add := first_of (λ c, match c with Add n => Some n | _ => None end) acc in
  let remove := first_of (λ c, match c with Remove n => Some n | _ => None end) acc in
  let edit := first_of (λ c, match c with Edit _ _ => Some c | _ => None end) acc in
  let child := first_of (λ c, match c with Child _ _ _ => Some c | _ => None end) acc in
  match fan_out_type with
  | TAdd => match add with Some n => [Add n] | None => [] end
  | TRemove => match remove with Some n => [Remove n] | None => [] end
  | TEdit =>
      match edit with
      | Some e => [e]
      | None =>
          match add, remove with
          | Some n, Some old => [Edit n old]
          | Some n, None => [Add n]
          | None, Some old => [Remove old]
          | None, None => []
          end
      end
  | TChild =>
      match child with
      | Some c => [c]
      | None =>
          match add, remove with
          | Some n, _ => [Add n]
          | None, Some old => [Remove old]
          | None, None => []
          end
      end
  end.

(** What a walk leaves: the state, the changes handed back to the caller (a
    branch's, from its [FanIn]) and those pushed out at the [FilterEnd], with the
    state a reentrant fetch meets. *)
Abbreviation walk_result := (ChainSt * list change * list (change * ChainSt))%type.

Definition gated_change (c : change) : node :=
  match c with Add n | Remove n | Edit n _ | Child n _ _ => n end.

(** [push_with_filter]. *)
Definition push_with_filter (push_next : change → ChainSt → option walk_result) (e : ExistsLink) (c : change)
    (exists_ : option bool) (st : ChainSt) : option walk_result :=
  pass ← gate e (gated_change c) exists_;
  if (pass : bool) then push_next c st else Some (st, [], []).

(** [Exists::push_chain] between setting and clearing [in_push]. *)
Definition exists_push (push_next : change → ChainSt → option walk_result) (e : ExistsLink) (c : change)
    (st : ChainSt) : option walk_result :=
  match c with
  | Add _ | Edit _ _ | Remove _ => push_with_filter push_next e c None st
  | Child n rel sub =>
      if negb (rel =? ex_rel e) then push_with_filter push_next e c None st
      else
        match sub with
        | Edit _ _ | Child _ _ _ => push_with_filter push_next e c None st
        | Add _ =>
            size ← fetch_size e n;
            if size =? 1 then
              if ex_not e then push_next (Remove (force_rel_empty n (ex_rel e))) st
              else push_next (Add n) st
            else push_with_filter push_next e c (Some (negb (size =? 0))) st
        | Remove removed =>
            size ← fetch_size e n;
            if size =? 0 then
              if ex_not e then push_next (Add n) st
              else push_next (Remove (force_rel_single n (ex_rel e) removed)) st
            else push_with_filter push_next e c (Some (negb (size =? 0))) st
        end
  end.

(** Every branch gets a copy; what comes back is accumulated. *)
Definition fan_branches (f : link → ChainSt → option walk_result) : list link → ChainSt → option walk_result :=
  fix fan bs st :=
    match bs with
    | [] => Some (st, [], [])
    | b :: bs =>
        '(st, back, log) ← f b st;
        '(st, back', log') ← fan bs st;
        Some (st, back ++ back', log ++ log')
    end.

(** The changes a fan collapsed to, down the chain. *)
Fixpoint push_each (push : change → ChainSt → option walk_result) (cs : list change) (st : ChainSt) :
    option walk_result :=
  match cs with
  | [] => Some (st, [], [])
  | c :: cs =>
      '(st, back, log) ← push c st;
      '(st, back', log') ← push_each push cs st;
      Some (st, back ++ back', log ++ log')
  end.

Fixpoint chain_push (l : link) (c : change) (st : ChainSt) : option walk_result :=
  match l with
  | LFilter p next =>
      match c with
      | Add n | Remove n | Child n _ _ =>
          b ← eval p (node_row n);
          if (b : bool) then chain_push next c st else Some (st, [], [])
      | Edit n old =>
          bo ← eval p (node_row old);
          bn ← eval p (node_row n);
          match bo, bn with
          | true, true => chain_push next (Edit n old) st
          | true, false => chain_push next (Remove old) st
          | false, true => chain_push next (Add n) st
          | false, false => Some (st, [], [])
          end
      end
  | LExists e next =>
      if bool_decide (ex_id e ∈ cs_in_push st) then None
      else
        '(st, back, log) ← exists_push (chain_push next) e c (with_in_push st ({[ex_id e]} ∪ cs_in_push st));
        Some (with_in_push st (cs_in_push st ∖ {[ex_id e]}), back, log)
  | LFanOut branches next =>
      let owned := materialize_change_preserving_node c in
      '(st, acc, log) ← fan_branches (λ b st, chain_push b (rebuild_change owned) st) branches st;
      let collapsed := collapse_accumulated acc (change_type_of c) in
      '(st, back, log') ← match next with
                          | Some next => push_each (chain_push next) collapsed st
                          | None => Some (st, collapsed, [])
                          end;
      Some (st, back, log ++ log')
  | LFanIn => Some (st, [c], [])
  | LFilterEnd => Some (st, [], [(c, st)])
  end.
