(* ===== verification/ChainFacts.v ===== *)
(** * What a filter chain lets through

    A chain of links means a condition on nodes ([passes]): leaf predicates, gates
    on the size of a relationship, disjunctions of branches.  A fetch keeps the
    nodes that satisfy it, caches or not; a push turns a change into what it is for
    the nodes that satisfy it: the change itself, an addition, a removal or
    nothing, once, however many branches of an [OR] let it through. *)

From stdpp Require Import base list numbers option gmap sets.
From Stdlib Require Import ZArith Lia Strings.Byte.
From S2P Require Import Prelude Values Rows Change Predicate Storage Partition Chain.

#[local] Open Scope nat_scope.

(** ** Links *)

Section link_ind.
Context (P : link → Prop).
Context (Hfilter : ∀ p next, P next → P (LFilter p next)).
Context (Hexists : ∀ e next, P next → P (LExists e next)).
Context (Hfan : ∀ bs next, Forall P bs → (∀ c, next = Some c → P c) → P (LFanOut bs next)).
Context (Hin : P LFanIn) (Hend : P LFilterEnd).

Fixpoint link_nested_ind (l : link) : P l :=
  match l with
  | LFilter p next => Hfilter p next (link_nested_ind next)
  | LExists e next => Hexists e next (link_nested_ind next)
  | LFanOut bs next =>
      Hfan bs next
        ((fix go bs : Forall P bs :=
            match bs with [] => Forall_nil_2 _ | b :: bs => Forall_cons_2 _ b bs (link_nested_ind b) (go bs) end) bs)
        (match next as o return ∀ c, o = Some c → P c with
         | Some d => λ c E, match E in _ = o return match o with Some c => P c | None => True end with eq_refl => link_nested_ind d end
         | None => λ c E, match E in _ = o return match o with Some c => P c | None => True end with eq_refl => I end
         end)
  | LFanIn => Hin
  | LFilterEnd => Hend
  end.
End link_ind.

Fixpoint exists_of (l : link) : list ExistsLink :=
  match l with
  | LFilter _ next => exists_of next
  | LExists e next => e :: exists_of next
  | LFanOut bs next => (bs ≫= exists_of) ++ match next with Some c => exists_of c | None => [] end
  | LFanIn | LFilterEnd => []
  end.

Fixpoint preds_of (l : link) : list CompiledPredicate :=
  match l with
  | LFilter p next => p :: preds_of next
  | LExists _ next => preds_of next
  | LFanOut bs next => (bs ≫= preds_of) ++ match next with Some c => preds_of c | None => [] end
  | LFanIn | LFilterEnd => []
  end.

(** Where the chain ends: at the [FilterEnd], or at a [FanIn]. *)
Fixpoint ends (l : link) : bool :=
  match l with
  | LFilter _ next | LExists _ next => ends next
  | LFanOut _ next => match next with Some c => ends c | None => false end
  | LFanIn => false
  | LFilterEnd => true
  end.

(** Branches end at their [FanIn]. *)
Fixpoint wired (l : link) : Prop :=
  match l with
  | LFilter _ next | LExists _ next => wired next
  | LFanOut bs next =>
      foldr (λ b P, ends b = false ∧ wired b ∧ P) True bs ∧ match next with Some c => wired c | None => True end
  | LFanIn | LFilterEnd => True
  end.

(** ** The condition *)

Definition holds (p : CompiledPredicate) (r : row) : bool := default false (eval p r).
Definition rel_count (rel : nat) (n : node) : Z := match rel_size rel n with Some k => Z.of_nat k | None => 0%Z end.

(** With [delta] rows more in each relationship. *)
Fixpoint passes (delta : nat → Z) (l : link) (n : node) : bool :=
  match l with
  | LFilter p next => holds p (node_row n) && passes delta next n
  | LExists e next =>
      xorb (ex_not e) (0 <? rel_count (ex_rel e) n + delta (ex_rel e))%Z && passes delta next n
  | LFanOut bs next =>
      existsb (λ b, passes delta b n) bs && match next with Some c => passes delta c n | None => true end
  | LFanIn | LFilterEnd => true
  end.

Definition as_is : nat → Z := λ _, 0%Z.

(** Nothing the chain reads of the node is missing. *)
Definition defined (l : link) (n : node) : Prop :=
  Forall (λ p, is_Some (eval p (node_row n))) (preds_of l) ∧
  Forall (λ e, is_Some (rel_size (ex_rel e) n) ∧ is_Some (exists_cache_key e n)) (exists_of l).

(** ** Fetching *)

Section fetch.
Context (whole : link) (U : node → Prop).
Context (Hids : NoDup (map ex_id (exists_of whole))).

(** Nodes with one cache key agree on the relationship: it is a function of the
    join key. *)
Context (Hkey : ∀ e n n', e ∈ exists_of whole → U n → U n' →
  exists_cache_key e n = exists_cache_key e n' → fetch_exists e n = fetch_exists e n').
Context (Hdef : ∀ n, U n → defined whole n).

Definition cache_sound (st : ChainSt) : Prop :=
  ∀ e key b n, e ∈ exists_of whole → assoc (default [] (cs_cache st !! ex_id e)) key = Some b →
    U n → exists_cache_key e n = Some key → fetch_exists e n = Some b.

Lemma fetch_exists_count e n :
  is_Some (rel_size (ex_rel e) n) → fetch_exists e n = Some (0 <? rel_count (ex_rel e) n)%Z.
Proof.
  intros [k Hk]. unfold fetch_exists, fetch_size, rel_count. rewrite Hk. cbn. f_equal.
  destruct (Nat.eqb_spec k 0) as [->|Hne]; [done|]. cbn. symmetry. apply Z.ltb_lt. lia.
Qed.

Lemma exists_gate_spec e n st :
  e ∈ exists_of whole → U n → cache_sound st →
  ∃ st', exists_gate e n st = Some (xorb (ex_not e) (0 <? rel_count (ex_rel e) n)%Z, st') ∧
    cache_sound st' ∧ cs_in_push st' = cs_in_push st.
Proof.
  intros He Hn Hst. destruct (Hdef n Hn) as [_ Hd]. rewrite Forall_forall in Hd.
  destruct (Hd e He) as [Hsz [key Hk]]. pose proof (fetch_exists_count e n Hsz) as Hf.
  unfold exists_gate, gate. destruct (_ && _).
  2: { rewrite Hf. cbn. by eexists. }
  rewrite Hk. cbn [mbind option_bind].
  destruct (assoc (default [] (cs_cache st !! ex_id e)) key) as [b|] eqn:Ha.
  { pose proof (Hst e key b n He Ha Hn Hk) as Hb. rewrite Hf in Hb. injection Hb as <-. cbn. by eexists. }
  rewrite Hf. cbn [mbind option_bind]. eexists. split; [done|]. split; [|done].
  intros e' key' b' n' He' Ha' Hn' Hk'. cbn [cs_cache with_cache] in Ha'.
  destruct (decide (ex_id e' = ex_id e)) as [Heq|Hne].
  - assert (e' = e) as ->.
    { apply list_elem_of_lookup in He as [i Hi], He' as [j Hj].
      assert (i = j) as ->; [|congruence].
      apply (NoDup_lookup (map ex_id (exists_of whole)) i j (ex_id e)); [done|..].
      - change (map ex_id ?x) with (ex_id <$> x). by rewrite list_lookup_fmap, Hi.
      - change (map ex_id ?x) with (ex_id <$> x). rewrite list_lookup_fmap, Hj. cbn. by rewrite Heq. }
    rewrite lookup_insert_eq in Ha'. cbn in Ha'.
    case_decide as Hkk; [|by apply (Hst e key' b' n')].
    injection Ha' as <-. subst key'. rewrite <-Hf. apply Hkey; [done..|congruence].
  - rewrite lookup_insert_ne in Ha' by done. by apply (Hst e' key' b' n').
Qed.

Lemma chain_filter_spec l n st :
  exists_of l ⊆ exists_of whole → preds_of l ⊆ preds_of whole → U n → cache_sound st →
  ∃ st', chain_filter l n st = Some (passes as_is l n, st') ∧ cache_sound st' ∧ cs_in_push st' = cs_in_push st.
Proof.
  intros He Hp Hn. revert st.
  induction l as [p next IH|e next IH|bs next IHbs IHnext| |] using link_nested_ind; intros st Hst;
    cbn [chain_filter passes exists_of preds_of] in *.
  - destruct (Hdef n Hn) as [Hd _]. rewrite Forall_forall in Hd.
    destruct (Hd p) as [b Hb]; [apply Hp; by left|]. unfold holds. rewrite Hb. cbn [mbind option_bind default].
    destruct b; [|by exists st]. apply IH; [done| |done]. intros x Hx. apply Hp. by right.
  - destruct (exists_gate_spec e n st) as (st1 & -> & Hst1 & Hin1); [apply He; by left|done|done|].
    cbn [mbind option_bind]. unfold as_is. rewrite Z.add_0_r. fold as_is.
    destruct (xorb _ _); [|by exists st1].
    destruct (IH ltac:(intros x Hx; apply He; by right) Hp st1 Hst1) as (st2 & -> & Hst2 & Hin2).
    exists st2. split_and!; [done..|congruence].
  - assert (∃ st1, any_branch (λ b st, chain_filter b n st) bs st = Some (existsb (λ b, passes as_is b n) bs, st1) ∧ cache_sound st1 ∧
      cs_in_push st1 = cs_in_push st) as (st1 & -> & Hst1 & Hin1).
    { clear IHnext. revert st Hst. induction IHbs as [|b bs Hb _ IHl]; intros st Hst; [by exists st|].
      cbn [any_branch existsb]. fold (any_branch (λ b st, chain_filter b n st)).
      destruct (Hb ltac:(intros x Hx; apply He; cbn; rewrite !elem_of_app; tauto)
        ltac:(intros x Hx; apply Hp; cbn; rewrite !elem_of_app; tauto) st Hst) as (st1 & -> & Hst1 & Hin1).
      cbn [mbind option_bind]. destruct (passes as_is b n); [by exists st1|]. cbn [orb].
      destruct (IHl ltac:(intros x Hx; apply He; cbn in *; rewrite !elem_of_app in *; tauto)
        ltac:(intros x Hx; apply Hp; cbn in *; rewrite !elem_of_app in *; tauto) st1 Hst1) as (st2 & -> & Hst2 & Hin2).
      exists st2. split_and!; [done..|congruence]. }
    cbn [mbind option_bind]. destruct (existsb _ bs); [|by exists st1].
    destruct next as [c|]; [|by exists st1].
    destruct (IHnext c eq_refl ltac:(intros x Hx; apply He; rewrite elem_of_app; tauto)
      ltac:(intros x Hx; apply Hp; rewrite elem_of_app; tauto) st1 Hst1) as (st2 & -> & Hst2 & Hin2).
    exists st2. split_and!; [done..|congruence].
  - by exists st.
  - by exists st.
Qed.

Lemma filter_nodes_spec ns st :
  Forall U ns → cache_sound st →
  ∃ st', filter_nodes whole ns st = Some (List.filter (passes as_is whole) ns, st') ∧ cs_in_push st' = cs_in_push st.
Proof.
  intros HU. revert st. induction HU as [|n ns Hn _ IH]; intros st Hst; cbn [filter_nodes List.filter]; [by exists st|].
  destruct (chain_filter_spec whole n st) as (st1 & -> & Hst1 & Hin1); [done..|]. cbn [mbind option_bind].
  destruct (IH st1 Hst1) as (st2 & -> & Hin2). cbn [mbind option_bind]. exists st2.
  split; [by destruct (passes _ _ _)|congruence].
Qed.
End fetch.

Lemma end_filter_spec l st :
  cs_in_push (end_filter l st) = cs_in_push st ∧
  (∀ i, default [] (cs_cache st !! i) = [] → default [] (cs_cache (end_filter l st) !! i) = []) ∧
  ∀ e, e ∈ exists_of l → default [] (cs_cache (end_filter l st) !! ex_id e) = [].
Proof.
  revert st. induction l as [p next IH|e next IH|bs next IHbs IHnext| |] using link_nested_ind; intros st;
    cbn [end_filter exists_of].
  - apply IH.
  - destruct (IH (with_cache st (<[ex_id e := []]> (cs_cache st)))) as (H1 & H2 & H3).
    assert (∀ i, default [] (cs_cache st !! i) = [] → default [] (<[ex_id e := []]> (cs_cache st) !! i) = []) as Hi.
    { intros i Hi. destruct (decide (i = ex_id e)) as [->|Hne]; [by rewrite lookup_insert_eq|by rewrite lookup_insert_ne]. }
    split_and!; [done| |].
    + intros i Hd. apply H2. by apply Hi.
    + intros e' [->|He']%elem_of_cons; [|by apply H3]. apply H2. cbn. by rewrite lookup_insert_eq.
  - assert (∀ st, let st1 := each_branch end_filter bs st in
      cs_in_push st1 = cs_in_push st ∧ (∀ i, default [] (cs_cache st !! i) = [] → default [] (cs_cache st1 !! i) = []) ∧
      ∀ e, e ∈ bs ≫= exists_of → default [] (cs_cache st1 !! ex_id e) = []) as Hbs.
    { clear IHnext. induction IHbs as [|b bs Hb _ IHl]; intros s; cbn [each_branch].
      { cbn. split_and!; [done|done|]. intros e He. by apply elem_of_nil in He. }
      fold (each_branch end_filter). destruct (Hb s) as (H1 & H2 & H3), (IHl (end_filter b s)) as (G1 & G2 & G3).
      cbn zeta in *. split_and!; [congruence|auto|].
      cbn. intros e [He|He]%elem_of_app; [apply G2; by apply H3|by apply G3]. }
    destruct (Hbs st) as (H1 & H2 & H3). cbn zeta in *. destruct next as [c|].
    + destruct (IHnext c eq_refl (each_branch end_filter bs st)) as (G1 & G2 & G3).
      split_and!; [congruence|auto|]. intros e [He|He]%elem_of_app; [apply G2; by apply H3|by apply G3].
    + split_and!; [done..|]. intros e He. rewrite app_nil_r in He. by apply H3.
  - split_and!; [done..|]. intros e He. by apply elem_of_nil in He.
  - split_and!; [done..|]. intros e He. by apply elem_of_nil in He.
Qed.

(** ** Pushing: nodes that look the same *)

(** What the first relationship in a slot holds. *)
Definition rel_content (rel : nat) (n : node) : option (list owned_node) :=
  match list_find (λ r : nat * (unit → list node), r.1 = rel) (node_rels n) with
  | Some (_, (_, thunk)) => Some (map materialize_node (thunk tt))
  | None => None
  end.

Definition looks_like (n n' : node) : Prop :=
  node_row n' = node_row n ∧ ∀ rel, rel_content rel n' = rel_content rel n.

Lemma rel_size_content rel n : rel_size rel n = length <$> rel_content rel n.
Proof.
  unfold rel_size, rel_content. destruct (list_find _ _) as [[i [slot thunk]]|]; [|done]. cbn. by rewrite length_map.
Qed.

Lemma rel_size_like rel n n' : rel_content rel n' = rel_content rel n → rel_size rel n' = rel_size rel n.
Proof. rewrite !rel_size_content. by intros ->. Qed.

Lemma looks_like_refl n : looks_like n n.
Proof. done. Qed.

Lemma looks_like_trans n1 n2 n3 : looks_like n1 n2 → looks_like n2 n3 → looks_like n1 n3.
Proof. intros [H1 H2] [H3 H4]. split; [congruence|]. intros rel. by rewrite H4. Qed.

Lemma looks_like_rebuild n : looks_like n (rebuild_node (materialize_node n)).
Proof.
  destruct n as [r rels]. split; [done|]. intros rel. unfold rel_content. cbn [node_rels materialize_node rebuild_node].
  rewrite map_map. induction rels as [|[slot thunk] rels IH]; [done|]. cbn [map list_find fst].
  case_decide; [cbn|].
  - f_equal. rewrite !map_map. apply map_ext. intros x. apply materialize_rebuild_node.
  - destruct (list_find _ (map _ rels)) as [[i [s' t']]|], (list_find _ rels) as [[j [s2 t2]]|]; cbn in *; done.
Qed.

Lemma rel_content_force n slot children rel :
  rel_content rel (force_rel n slot children) =
    if decide (rel = slot) then Some (map materialize_node children) else rel_content rel n.
Proof.
  destruct n as [r rels]. unfold rel_content, force_rel. cbn [node_rels].
  induction rels as [|[s thunk] rels IH].
  - cbn [filter list_filter app list_find fst]. do 2 case_decide; subst; done.
  - rewrite filter_cons. cbn [fst]. destruct (decide (s ≠ slot)) as [Hs|Hs]; cbn [app list_find fst].
    + destruct (decide (s = rel)) as [->|Hr]; [by rewrite decide_False|].
      destruct (list_find _ (_ ++ _)) as [[i [s' t']]|], (list_find _ rels) as [[j [s2 t2]]|]; cbn in *; done.
    + assert (s = slot) as -> by (destruct (decide (s = slot)); tauto).
      destruct (decide (slot = rel)) as [->|Hr]; [by rewrite decide_True in IH |- *|].
      destruct (list_find _ (_ ++ _)) as [[i [s' t']]|], (list_find _ rels) as [[j [s2 t2]]|]; cbn in *; done.
Qed.

Lemma passes_like delta delta' l n n' :
  node_row n' = node_row n →
  (∀ e, e ∈ exists_of l → rel_content (ex_rel e) n' = rel_content (ex_rel e) n ∧ delta' (ex_rel e) = delta (ex_rel e)) →
  passes delta' l n' = passes delta l n.
Proof.
  intros Hrow. induction l as [p next IH|e next IH|bs next IHbs IHnext| |] using link_nested_ind; intros He;
    cbn [passes exists_of] in *; [| | |done..].
  - by rewrite Hrow, IH.
  - destruct (He e ltac:(by left)) as [Hc Hd]. unfold rel_count. rewrite (rel_size_like (ex_rel e) n n'), Hd by done.
    rewrite IH; [done|]. intros e' He'. apply He. by right.
  - f_equal.
    + clear IHnext. induction IHbs as [|b bs Hb _ IHl]; [done|]. cbn [existsb]. rewrite Hb, IHl; [done|..];
        intros e' He'; apply He; cbn in *; rewrite !elem_of_app in *; tauto.
    + destruct next as [c|]; [|done]. apply IHnext; [done|]. intros e' He'. apply He. rewrite elem_of_app. tauto.
Qed.

Lemma passes_looks_like delta l n n' : looks_like n n' → passes delta l n' = passes delta l n.
Proof. intros [H1 H2]. by apply passes_like. Qed.

Lemma defined_like l n n' :
  node_row n' = node_row n → (∀ e, e ∈ exists_of l → rel_content (ex_rel e) n' = rel_content (ex_rel e) n) →
  defined l n → defined l n'.
Proof.
  intros Hr Hc [H1 H2]. split; [by rewrite Hr|]. rewrite Forall_forall in H2 |- *. intros e He.
  destruct (H2 e He) as [Hs Hk]. rewrite (rel_size_like _ n n') by auto. unfold exists_cache_key in *. by rewrite Hr.
Qed.

(** ** Pushing: what becomes of a change *)

(** The sizes before a child was added or removed. *)
Definition delta_before (ch : change) : nat → Z :=
  match ch with
  | Child _ r (Add _) => λ rel, if decide (rel = r) then (-1)%Z else 0%Z
  | Child _ r (Remove _) => λ rel, if decide (rel = r) then 1%Z else 0%Z
  | _ => as_is
  end.

(** Whether the row was let through before the change, and is after it. *)
Definition before (l : link) (ch : change) : bool :=
  match ch with
  | Add _ => false
  | Remove n => passes as_is l n
  | Edit _ old => passes as_is l old
  | Child n _ _ => passes (delta_before ch) l n
  end.

Definition after (l : link) (ch : change) : bool :=
  match ch with
  | Remove _ => false
  | Add n | Edit n _ | Child n _ _ => passes as_is l n
  end.

(** The same change, but for how its nodes are held. *)
Definition same (ch ch' : change) : Prop :=
  match ch, ch' with
  | Add n, Add n' | Remove n, Remove n' => looks_like n n'
  | Edit n old, Edit n' old' => looks_like n n' ∧ looks_like old old'
  | Child n r sub, Child n' r' sub' => looks_like n n' ∧ r' = r ∧ materialize_change sub' = materialize_change sub
  | _, _ => False
  end.

(** The node a removal carries: the old one; for a child that emptied or filled
    its relationship, the row with that relationship as the consumer knows it. *)
Definition leaves_as (ch : change) (n' : node) : Prop :=
  match ch with
  | Add _ => False
  | Remove n | Edit _ n => looks_like n n'
  | Child n r sub =>
      node_row n' = node_row n ∧ (∀ rel, rel ≠ r → rel_content rel n' = rel_content rel n) ∧
      rel_content r n' = Some (match sub with Remove x => [materialize_node x] | _ => [] end)
  end.

Definition outcome (b a : bool) (ch : change) (outs : list change) : Prop :=
  match b, a with
  | true, true => ∃ c', outs = [c'] ∧ same ch c'
  | false, true => ∃ n', outs = [Add n'] ∧ looks_like (gated_change ch) n' ∧ change_type_of ch ≠ TRemove
  | true, false => ∃ n', outs = [Remove n'] ∧ leaves_as ch n'
  | false, false => outs = []
  end.

(** A change the chain can decide: what it reads is there, an edit of the row does
    not change which relationships are empty, an added child is there. *)
Definition decidable (l : link) (ch : change) : Prop :=
  match ch with
  | Add n | Remove n => defined l n
  | Edit n old =>
      defined l n ∧ defined l old ∧
      Forall (λ e, (0 <? rel_count (ex_rel e) n)%Z = (0 <? rel_count (ex_rel e) old)%Z) (exists_of l)
  | Child n r sub =>
      defined l n ∧
      match sub with Add _ => Forall (λ e, ex_rel e = r → (1 <= rel_count r n)%Z) (exists_of l) | _ => True end
  end.

Lemma same_refl ch : same ch ch.
Proof. by destruct ch. Qed.

Lemma sub_same_shape sub sub' :
  materialize_change sub' = materialize_change sub →
  match sub, sub' with
  | Add x, Add y | Remove x, Remove y => materialize_node y = materialize_node x
  | Edit _ _, Edit _ _ | Child _ _ _, Child _ _ _ => True
  | _, _ => False
  end.
Proof. by destruct sub, sub'; intros [=]. Qed.

Lemma delta_same ch ch' : same ch ch' → delta_before ch' = delta_before ch.
Proof.
  destruct ch as [n|n|n old|n r sub], ch' as [n'|n'|n' old'|n' r' sub']; try done.
  intros (_ & -> & Hm%sub_same_shape). by destruct sub, sub'.
Qed.

Lemma same_before l ch ch' : same ch ch' → before l ch' = before l ch ∧ after l ch' = after l ch.
Proof.
  intros H. pose proof (delta_same ch ch' H) as Hd.
  destruct ch as [n|n|n old|n r sub], ch' as [n'|n'|n' old'|n' r' sub']; try done; cbn [same] in H; cbn [before after].
  - split; [done|by apply passes_looks_like].
  - split; [by apply passes_looks_like|done].
  - destruct H. split; by apply passes_looks_like.
  - destruct H as (H & _). rewrite Hd. split; by apply passes_looks_like.
Qed.

Lemma same_gated ch ch' : same ch ch' → looks_like (gated_change ch) (gated_change ch') ∧ change_type_of ch' = change_type_of ch.
Proof. destruct ch, ch'; cbn; tauto. Qed.

Lemma same_trans c1 c2 c3 : same c1 c2 → same c2 c3 → same c1 c3.
Proof.
  destruct c1, c2, c3; cbn [same]; try done; try (intros; by eapply looks_like_trans).
  - intros [] []. split; by eapply looks_like_trans.
  - intros (? & ? & ?) (? & ? & ?). split_and!; [by eapply looks_like_trans|congruence..].
Qed.

Lemma leaves_same ch ch' n : same ch ch' → leaves_as ch' n → leaves_as ch n.
Proof.
  destruct ch as [x|x|x old|x r sub], ch' as [y|y|y old'|y r' sub']; cbn [same leaves_as]; try done.
  - apply looks_like_trans.
  - intros []. by apply looks_like_trans.
  - intros ([Hr Hc] & -> & Hm%sub_same_shape) (H1 & H2 & H3). split_and!.
    + congruence.
    + intros rel Hrel. by rewrite H2, Hc.
    + rewrite H3. destruct sub, sub'; try done. by rewrite Hm.
Qed.

Lemma outcome_same b a ch ch' outs : same ch ch' → outcome b a ch' outs → outcome b a ch outs.
Proof.
  intros Hs. destruct (same_gated ch ch' Hs) as [Hg Ht]. destruct b, a; cbn [outcome].
  - intros (c & -> & H). exists c. split; [done|]. by eapply same_trans.
  - intros (n & -> & H). exists n. split; [done|]. by eapply leaves_same.
  - intros (n & -> & H & Hne). exists n. split_and!; [done|by eapply looks_like_trans|congruence].
  - done.
Qed.

Lemma decidable_same l ch ch' : same ch ch' → decidable l ch → decidable l ch'.
Proof.
  assert (∀ n n', looks_like n n' → defined l n → defined l n') as Hdef.
  { intros n n' [H1 H2]. by apply defined_like. }
  assert (∀ r n n', looks_like n n' → rel_count r n' = rel_count r n) as Hcnt.
  { intros r n n' [_ H]. unfold rel_count. by rewrite (rel_size_like r n n'). }
  destruct ch as [n|n|n old|n r sub], ch' as [n'|n'|n' old'|n' r' sub']; cbn [same decidable]; try done; eauto.
  - intros [H1 H2] (D1 & D2 & D3). split_and!; eauto. eapply Forall_impl; [exact D3|]. intros e He. cbn beta in *.
    by rewrite (Hcnt _ n n'), (Hcnt _ old old').
  - intros (H1 & -> & Hm%sub_same_shape) (D1 & D2). split; eauto. destruct sub, sub'; try done.
    eapply Forall_impl; [exact D2|]. intros e He Hr. cbn beta in *. rewrite (Hcnt r n n') by done. auto.
Qed.

Lemma decidable_sub l l' ch :
  exists_of l' ⊆ exists_of l → preds_of l' ⊆ preds_of l → decidable l ch → decidable l' ch.
Proof.
  intros He Hp.
  assert (∀ n, defined l n → defined l' n) as Hdef.
  { intros n [H1 H2]. rewrite Forall_forall in H1; rewrite Forall_forall in H2. split; apply Forall_forall; eauto. }
  destruct ch as [n|n|n old|n r sub]; cbn [decidable]; eauto.
  - intros (H1 & H2 & H3). rewrite Forall_forall in H3. split_and!; [eauto..|]. apply Forall_forall. eauto.
  - intros (H1 & H2). split; [eauto|]. destruct sub; try done. rewrite Forall_forall in H2. apply Forall_forall. eauto.
Qed.

(** ** Composition *)

Definition rels_of (l : link) : list nat := map ex_rel (exists_of l).

(** A child that empties or fills its relationship has passed its gate: no later
    one reads that relationship. *)
Definition settled (b a : bool) (ch : change) (next : link) : Prop :=
  b = true → a = false → match ch with Child _ r _ => r ∉ rels_of next | _ => True end.

Lemma delta_other ch r rel : match ch with Child _ r' _ => r' = r | _ => True end → rel ≠ r → delta_before ch rel = 0%Z.
Proof. destruct ch as [| | |n r' sub]; try done. intros ->. destruct sub; cbn; try done; by intros; rewrite decide_False. Qed.

Lemma leaves_before next ch n' :
  leaves_as ch n' → settled true false ch next → passes as_is next n' = before next ch.
Proof.
  intros Hl Hs. specialize (Hs eq_refl eq_refl). destruct ch as [n|n|n old|n r sub]; cbn [leaves_as before] in *; [done| | |].
  - by apply passes_looks_like.
  - by apply passes_looks_like.
  - destruct Hl as (Hr & Hc & _). apply passes_like; [done|]. intros e He.
    assert (ex_rel e ≠ r) as Hne by (intros <-; apply Hs; apply list_elem_of_fmap; by exists e).
    split; [by apply Hc|]. by rewrite (delta_other (Child n r sub) r).
Qed.

Lemma leaves_looks ch n n' : leaves_as ch n → looks_like n n' → leaves_as ch n'.
Proof.
  intros Hl [Hr Hc]. destruct ch as [x|x|x old|x r sub]; cbn [leaves_as] in *; [done|..].
  - by eapply looks_like_trans.
  - by eapply looks_like_trans.
  - destruct Hl as (H1 & H2 & H3). split_and!; [congruence| |by rewrite Hc]. intros rel Hrel. by rewrite Hc, H2.
Qed.

Lemma outcome_compose next ch b a c' outs :
  outcome b a ch [c'] → settled b a ch next → outcome (before next c') (after next c') c' outs →
  outcome (b && before next ch) (a && after next ch) ch outs.
Proof.
  intros Hm Hset Ho. destruct b, a; cbn [outcome andb] in Hm |- *.
  - destruct Hm as (c & [= <-] & Hs). destruct (same_before next ch c' Hs) as [<- <-]. by eapply outcome_same.
  - destruct Hm as (n & [= ->] & Hl). cbn [before after] in Ho. rewrite (leaves_before next ch n Hl Hset) in Ho.
    destruct (before next ch); [|done]. destruct Ho as (n' & -> & Hn'). exists n'. split; [done|].
    by eapply leaves_looks.
  - destruct Hm as (n & [= ->] & Hg & Ht). cbn [before after] in Ho. rewrite (passes_looks_like as_is next _ n Hg) in Ho.
    replace (after next ch) with (passes as_is next (gated_change ch)) by (by destruct ch).
    destruct (passes as_is next (gated_change ch)); [|done]. destruct Ho as (n' & -> & Hn' & _).
    exists n'. split_and!; [done|by eapply looks_like_trans|done].
  - done.
Qed.

Lemma decidable_mid next ch b a c' :
  outcome b a ch [c'] → settled b a ch next → decidable next ch → decidable next c'.
Proof.
  intros Hm Hset Hd. assert (∀ n n', looks_like n n' → defined next n → defined next n') as Hdef.
  { intros n n' [H1 H2]. by apply defined_like. }
  destruct b, a; cbn [outcome] in Hm.
  - destruct Hm as (c & [= <-] & Hs). by eapply decidable_same.
  - destruct Hm as (n & [= ->] & Hl). specialize (Hset eq_refl eq_refl). cbn [decidable].
    destruct ch as [x|x|x old|x r sub]; cbn [leaves_as decidable] in *; [done|by eapply Hdef|by eapply Hdef; [|apply Hd]|].
    destruct Hl as (H1 & H2 & _). eapply defined_like; [done| |apply Hd]. intros e He. apply H2. intros <-.
    apply Hset. apply list_elem_of_fmap. by exists e.
  - destruct Hm as (n & [= ->] & Hg & Ht). cbn [decidable].
    destruct ch as [x|x|x old|x r sub]; cbn [gated_change decidable change_type_of] in *; [by eapply Hdef|done|..];
      eapply Hdef; try done; apply Hd.
  - done.
Qed.

(** ** One gate *)

Definition gate_value (e : ExistsLink) (delta : nat → Z) (n : node) : bool :=
  xorb (ex_not e) (0 <? rel_count (ex_rel e) n + delta (ex_rel e))%Z.

Definition gate_before (e : ExistsLink) (ch : change) : bool :=
  match ch with
  | Add _ => false
  | Remove n => gate_value e as_is n
  | Edit _ old => gate_value e as_is old
  | Child n _ _ => gate_value e (delta_before ch) n
  end.

Definition gate_after (e : ExistsLink) (ch : change) : bool :=
  match ch with
  | Remove _ => false
  | Add n | Edit n _ | Child n _ _ => gate_value e as_is n
  end.

Lemma before_exists e next ch : before (LExists e next) ch = gate_before e ch && before next ch.
Proof. by destruct ch. Qed.

Lemma after_exists e next ch : after (LExists e next) ch = gate_after e ch && after next ch.
Proof. by destruct ch. Qed.

Lemma gate_computed e n : is_Some (rel_size (ex_rel e) n) → gate e n None = Some (gate_value e as_is n).
Proof.
  intros H. unfold gate, gate_value. rewrite fetch_exists_count by done. cbn. by rewrite Z.add_0_r.
Qed.

Section exists_gate.
Context (e : ExistsLink) (push_next : change → ChainSt → option walk_result) (st : ChainSt).

(** Either nothing passes the gate, or one change does. *)
Definition passes_gate (ch : change) (res : option walk_result) : Prop :=
  (res = Some (st, [], []) ∧ outcome (gate_before e ch) (gate_after e ch) ch []) ∨
  ∃ c', res = push_next c' st ∧ outcome (gate_before e ch) (gate_after e ch) ch [c'] ∧
    (gate_before e ch = true → gate_after e ch = false →
     match ch with Child _ r _ => r = ex_rel e | _ => True end).

Lemma passes_gate_keep ch g :
  gate_before e ch = (match ch with Add _ => false | _ => g end) →
  gate_after e ch = (match ch with Remove _ => false | _ => g end) →
  passes_gate ch (if g then push_next ch st else Some (st, [], [])).
Proof.
  intros Hb Ha. unfold passes_gate. rewrite Hb, Ha. destruct g; [right|left].
  - exists ch. split; [done|]. split; [|by destruct ch].
    destruct ch as [n|n|n old|n r sub]; cbn [outcome].
    + exists n. split_and!; [done|apply looks_like_refl|done].
    + exists n. split; [done|apply looks_like_refl].
    + exists (Edit n old). by split.
    + exists (Child n r sub). by split.
  - split; [done|]. by destruct ch.
Qed.

Lemma exists_push_gate next ch :
  decidable (LExists e next) ch → passes_gate ch (exists_push push_next e ch st).
Proof.
  intros Hd.
  assert (∀ n, defined (LExists e next) n → is_Some (rel_size (ex_rel e) n)) as Hdef.
  { intros n [_ H]. cbn [exists_of] in H. apply Forall_cons in H as [[H _] _]. done. }
  destruct ch as [n|n|n old|n r sub]; cbn [exists_push decidable] in *; unfold push_with_filter; cbn [gated_change].
  - rewrite gate_computed by auto. cbn [mbind option_bind]. by apply (passes_gate_keep (Add n)).
  - rewrite gate_computed by auto. cbn [mbind option_bind]. by apply (passes_gate_keep (Remove n)).
  - destruct Hd as (H1 & H2 & H3). cbn [exists_of] in H3. apply Forall_cons in H3 as [H3 _].
    rewrite gate_computed by auto. cbn [mbind option_bind]. apply (passes_gate_keep (Edit n old)); [|done].
    cbn [gate_before]. unfold gate_value, as_is. by rewrite !Z.add_0_r, H3.
  - destruct Hd as (H1 & H2). destruct (Hdef n H1) as [k Hk].
    assert (rel_count (ex_rel e) n = Z.of_nat k) as Hcnt by (unfold rel_count; by rewrite Hk).
    destruct (Nat.eqb_spec r (ex_rel e)) as [->|Hne]; cbn [negb].
    2: { rewrite gate_computed by auto. cbn [mbind option_bind]. apply (passes_gate_keep (Child n r sub)); [|done].
         cbn [gate_before]. unfold gate_value. rewrite (delta_other (Child n r sub) r); done. }
    unfold fetch_size. rewrite Hk. cbn [mbind option_bind].
    assert (∀ d, delta_before (Child n (ex_rel e) sub) (ex_rel e) = d →
      gate_before e (Child n (ex_rel e) sub) = xorb (ex_not e) (0 <? Z.of_nat k + d)%Z ∧
      gate_after e (Child n (ex_rel e) sub) = xorb (ex_not e) (0 <? Z.of_nat k)%Z) as Hg.
    { intros d Hdd. cbn [gate_before gate_after]. unfold gate_value, as_is. by rewrite Hdd, Hcnt, Z.add_0_r. }
    destruct sub as [x|x|x y|x r2 s2]; cbn [delta_before] in Hg.
    + destruct (Hg (-1)%Z) as [Hgb Hga]; [by rewrite decide_True|].
      cbn [exists_of] in H2. apply Forall_cons in H2 as [H2 _]. specialize (H2 eq_refl). rewrite Hcnt in H2.
      destruct (Nat.eqb_spec k 1) as [->|Hk1].
      * unfold passes_gate. rewrite Hgb, Hga. right. destruct (ex_not e); cbn.
        -- eexists. split; [done|]. split; [|done]. eexists. split; [done|]. cbn [leaves_as].
           unfold force_rel_empty. split_and!; [done| |].
           ++ intros rel Hrel. by rewrite rel_content_force, decide_False.
           ++ by rewrite rel_content_force, decide_True.
        -- eexists. split; [done|]. split; [|done]. eexists. split_and!; [done|apply looks_like_refl|done].
      * replace (negb (k =? 0)) with true by (by destruct k; [lia|]). unfold push_with_filter, gate. cbn [mbind option_bind].
        apply (passes_gate_keep (Child n (ex_rel e) (Add x))).
        -- rewrite Hgb. f_equal. apply Z.ltb_lt. lia.
        -- rewrite Hga. f_equal. apply Z.ltb_lt. lia.
    + destruct (Hg 1%Z) as [Hgb Hga]; [by rewrite decide_True|].
      destruct (Nat.eqb_spec k 0) as [->|Hk0].
      * unfold passes_gate. rewrite Hgb, Hga. right. destruct (ex_not e); cbn.
        -- eexists. split; [done|]. split; [|done]. eexists. split_and!; [done|apply looks_like_refl|done].
        -- eexists. split; [done|]. split; [|done]. eexists. split; [done|]. cbn [leaves_as].
           unfold force_rel_single. split_and!; [done| |].
           ++ intros rel Hrel. by rewrite rel_content_force, decide_False.
           ++ by rewrite rel_content_force, decide_True.
      * unfold push_with_filter, gate. cbn [mbind option_bind negb]. apply (passes_gate_keep (Child n (ex_rel e) (Remove x))).
        -- rewrite Hgb. f_equal. apply Z.ltb_lt. lia.
        -- rewrite Hga. f_equal. apply Z.ltb_lt. lia.
    + rewrite gate_computed by auto. by apply (passes_gate_keep (Child n (ex_rel e) (Edit x y))).
    + rewrite gate_computed by auto. by apply (passes_gate_keep (Child n (ex_rel e) (Child x r2 s2))).
Qed.
End exists_gate.

(** ** The collapse of a fan *)

Lemma first_of_Some {A} (f : change → option A) acc x : first_of f acc = Some x → ∃ c, c ∈ acc ∧ f c = Some x.
Proof.
  unfold first_of. induction acc as [|c acc IH]; [done|]. cbn. destruct (f c) as [y|] eqn:E; cbn.
  - intros [= ->]. exists c. split; [by left|done].
  - intros H. destruct (IH H) as (c' & Hc & Hf). exists c'. split; [by right|done].
Qed.

Lemma first_of_None {A} (f : change → option A) acc c : first_of f acc = None → c ∈ acc → f c = None.
Proof.
  unfold first_of. induction acc as [|c' acc IH]; intros H Hc; [by apply elem_of_nil in Hc|]. cbn in H.
  destruct (f c') as [y|] eqn:E; cbn in H; [done|]. apply elem_of_cons in Hc as [->|Hc]; [done|by apply IH].
Qed.

Lemma rels_disjoint bs b1 b2 r :
  NoDup (map ex_rel (bs ≫= exists_of)) → b1 ∈ bs → b2 ∈ bs → r ∈ rels_of b1 → r ∈ rels_of b2 → b1 = b2.
Proof.
  assert (∀ b bs, b ∈ bs → r ∈ rels_of b → r ∈ map ex_rel (bs ≫= exists_of)) as Hin.
  { intros b bs' Hb Hr. apply list_elem_of_fmap in Hr as (e & -> & He). apply list_elem_of_fmap. exists e. split; [done|].
    apply list_elem_of_bind. by exists b. }
  induction bs as [|b bs IH]; intros Hnd H1 H2 Hr1 Hr2; [by apply elem_of_nil in H1|].
  cbn in Hnd. rewrite map_app, NoDup_app in Hnd. destruct Hnd as (_ & Hd & Hnd).
  apply elem_of_cons in H1 as [->|H1], H2 as [->|H2]; [done| | |by apply IH].
  - destruct (Hd r Hr1). by apply (Hin b2).
  - destruct (Hd r Hr2). by apply (Hin b1).
Qed.

(** A branch whose answer a child changes reads the child's relationship. *)
Lemma flip_reads l ch : change_type_of ch = TChild → before l ch ≠ after l ch →
  match ch with Child _ r _ => r ∈ rels_of l | _ => False end.
Proof.
  destruct ch as [n|n|n old|n r sub]; try done. intros _ Hne. cbn [before after] in Hne.
  destruct (decide (r ∈ rels_of l)) as [|Hr]; [done|]. destruct Hne. apply passes_like; [done|].
  intros e He. split; [done|]. unfold as_is. apply (delta_other (Child n r sub) r); [done|]. intros <-. apply Hr.
  apply list_elem_of_fmap. by exists e.
Qed.

Section collapse.
Context (bs : list link) (ch : change) (acc : list change).
Context (Hrels : NoDup (map ex_rel (bs ≫= exists_of))).
Context (Hfrom : ∀ c, c ∈ acc → ∃ b, b ∈ bs ∧ outcome (before b ch) (after b ch) ch [c]).
Context (Hto : ∀ b, b ∈ bs → before b ch || after b ch = true →
  ∃ c, c ∈ acc ∧ outcome (before b ch) (after b ch) ch [c]).

Lemma existsb_elem (f : link → bool) b : b ∈ bs → f b = true → existsb f bs = true.
Proof. intros Hb Hf. apply existsb_exists. exists b. split; [by apply list_elem_of_In|done]. Qed.

Lemma existsb_none (f : link → bool) : (∀ b, b ∈ bs → f b = false) → existsb f bs = false.
Proof.
  intros H. destruct (existsb f bs) eqn:E; [|done]. apply existsb_exists in E as (b & Hb & Hf).
  apply list_elem_of_In in Hb. by rewrite (H b Hb) in Hf.
Qed.

#[local] Abbreviation any_before := (existsb (λ b, before b ch) bs).
#[local] Abbreviation any_after := (existsb (λ b, after b ch) bs).

(** What a change that came back says of its branch. *)
Lemma back_add n : Add n ∈ acc → change_type_of ch ≠ TAdd →
  ∃ b, b ∈ bs ∧ before b ch = false ∧ after b ch = true ∧ looks_like (gated_change ch) n ∧ change_type_of ch ≠ TRemove.
Proof.
  intros Ha Ht. destruct (Hfrom _ Ha) as (b & Hb & Ho). exists b. split; [done|].
  destruct (before b ch), (after b ch); cbn in Ho.
  - destruct Ho as (c & [= <-] & Hs). by destruct ch.
  - by destruct Ho as (n' & [=] & _).
  - by destruct Ho as (n' & [= ->] & Hg & Hr).
  - done.
Qed.

Lemma back_remove n : Remove n ∈ acc → change_type_of ch ≠ TRemove →
  ∃ b, b ∈ bs ∧ before b ch = true ∧ after b ch = false ∧ leaves_as ch n.
Proof.
  intros Ha Ht. destruct (Hfrom _ Ha) as (b & Hb & Ho). exists b. split; [done|].
  destruct (before b ch), (after b ch); cbn in Ho.
  - destruct Ho as (c & [= <-] & Hs). by destruct ch.
  - by destruct Ho as (n' & [= ->] & Hl).
  - by destruct Ho as (n' & [=] & _).
  - done.
Qed.

Lemma back_same c : c ∈ acc → change_type_of c ≠ TAdd → change_type_of c ≠ TRemove →
  ∃ b, b ∈ bs ∧ before b ch = true ∧ after b ch = true ∧ same ch c.
Proof.
  intros Ha H1 H2. destruct (Hfrom _ Ha) as (b & Hb & Ho). exists b. split; [done|].
  destruct (before b ch), (after b ch); cbn in Ho.
  - by destruct Ho as (c' & [= <-] & Hs).
  - by destruct Ho as (n' & [= ->] & _).
  - by destruct Ho as (n' & [= ->] & _).
  - done.
Qed.

Lemma no_add : first_of (λ c, match c with Add n => Some n | _ => None end) acc = None → ∀ n, Add n ∉ acc.
Proof. intros H n Hn. by pose proof (first_of_None _ acc _ H Hn). Qed.

Lemma no_remove : first_of (λ c, match c with Remove n => Some n | _ => None end) acc = None → ∀ n, Remove n ∉ acc.
Proof. intros H n Hn. by pose proof (first_of_None _ acc _ H Hn). Qed.

(** Without the change itself among what came back, no branch kept it. *)
Lemma none_kept b :
  (∀ c, c ∈ acc → ¬ same ch c) → b ∈ bs → before b ch = true → after b ch = true → False.
Proof.
  intros Hn Hb H1 H2. destruct (Hto b Hb) as (c & Hc & Ho); [by rewrite H1|]. rewrite H1, H2 in Ho.
  destruct Ho as (c' & [= <-] & Hs). by apply (Hn c).
Qed.

Lemma was_iff_remove :
  (∀ c, c ∈ acc → ¬ same ch c) → any_before = true ↔ ∃ n b, Remove n ∈ acc ∧ b ∈ bs ∧ before b ch = true.
Proof.
  intros Hn. split.
  - intros (b & Hb%list_elem_of_In & H1)%existsb_exists. destruct (Hto b Hb) as (c & Hc & Ho); [by rewrite H1|].
    rewrite H1 in Ho. destruct (after b ch); destruct Ho as (x & [= ->] & Hs); [by destruct (Hn _ Hc)|]. by exists x, b.
  - intros (n & b & _ & Hb & H1). by apply (existsb_elem _ b).
Qed.

Lemma is_iff_add :
  (∀ c, c ∈ acc → ¬ same ch c) → any_after = true ↔ ∃ n b, Add n ∈ acc ∧ b ∈ bs ∧ after b ch = true.
Proof.
  intros Hn. split.
  - intros (b & Hb%list_elem_of_In & H1)%existsb_exists. destruct (Hto b Hb) as (c & Hc & Ho); [by rewrite H1, orb_true_r|].
    rewrite H1 in Ho. destruct (before b ch); destruct Ho as (x & [= ->] & Hs); [by destruct (Hn _ Hc)|]. by exists x, b.
  - intros (n & b & _ & Hb & H1). by apply (existsb_elem _ b).
Qed.

(** Nothing any_before kept: an addition, a removal, or both at once. *)
Lemma collapse_split (add remove : option node) :
  add = first_of (λ c, match c with Add n => Some n | _ => None end) acc →
  remove = first_of (λ c, match c with Remove n => Some n | _ => None end) acc →
  change_type_of ch ≠ TAdd → change_type_of ch ≠ TRemove → (∀ c, c ∈ acc → ¬ same ch c) →
  match add, remove with
  | Some n, Some old => any_before = true ∧ any_after = true ∧ looks_like (gated_change ch) n ∧ leaves_as ch old ∧
      ∃ b1 b2, b1 ∈ bs ∧ b2 ∈ bs ∧ before b1 ch = false ∧ after b1 ch = true ∧ before b2 ch = true ∧ after b2 ch = false
  | Some n, None => any_before = false ∧ any_after = true ∧ looks_like (gated_change ch) n
  | None, Some old => any_before = true ∧ any_after = false ∧ leaves_as ch old
  | None, None => any_before = false ∧ any_after = false
  end.
Proof.
  intros -> -> Ht1 Ht2 Hn. pose proof (was_iff_remove Hn) as Hw. pose proof (is_iff_add Hn) as Hi.
  assert (any_before = false ↔ ¬ any_before = true) as Hwf by (destruct any_before; intuition congruence).
  assert (any_after = false ↔ ¬ any_after = true) as Hif by (destruct any_after; intuition congruence).
  destruct (first_of (λ c, match c with Add n => Some n | _ => None end) acc) as [n|] eqn:Ea;
    destruct (first_of (λ c, match c with Remove n => Some n | _ => None end) acc) as [old|] eqn:Er.
  all: try (apply first_of_Some in Ea as ([x| | |] & Hx & [= ->]);
    destruct (back_add _ Hx Ht1) as (b1 & Hb1 & Hbb1 & Hba1 & Hg1 & _)).
  all: try (apply first_of_Some in Er as ([|y| |] & Hy & [= ->]);
    destruct (back_remove _ Hy Ht2) as (b2 & Hb2 & Hbb2 & Hba2 & Hl2)).
  - split_and!; [apply Hw; eauto|apply Hi; eauto|done..|]. exists b1, b2. by split_and!.
  - split_and!; [|apply Hi; eauto|done]. apply Hwf. rewrite Hw. intros (z & _ & Hz & _). by apply (no_remove Er z).
  - split_and!; [apply Hw; eauto| |done]. apply Hif. rewrite Hi. intros (z & _ & Hz & _). by apply (no_add Ea z).
  - split; [apply Hwf; rewrite Hw; intros (z & _ & Hz & _); by apply (no_remove Er z)|].
    apply Hif. rewrite Hi. intros (z & _ & Hz & _). by apply (no_add Ea z).
Qed.

(** An addition can only stay one, or be dropped; likewise a removal. *)
Lemma collapse_add : change_type_of ch = TAdd →
  outcome any_before any_after ch
    (match first_of (λ c, match c with Add n => Some n | _ => None end) acc with Some n => [Add n] | None => [] end).
Proof.
  intros Ht. assert (∀ b, before b ch = false) as Hb by (by destruct ch).
  rewrite (existsb_none (λ b, before b ch)) by auto.
  destruct (first_of _ acc) as [x|] eqn:Ea.
  - apply first_of_Some in Ea as ([y| | |] & Hx & [= ->]). destruct (Hfrom _ Hx) as (b & Hbs & Ho).
    rewrite Hb in Ho. destruct (after b ch) eqn:E; [|done]. rewrite (existsb_elem _ b); [|done|done].
    destruct Ho as (n & [= <-] & Hg & Hr). by exists x.
  - rewrite existsb_none; [done|]. intros b Hbs. destruct (after b ch) eqn:E; [|done].
    destruct (Hto b Hbs) as (c & Hc & Ho); [by rewrite E, orb_true_r|]. rewrite Hb, E in Ho.
    destruct Ho as (n & [= ->] & _). by destruct (no_add Ea n).
Qed.

Lemma collapse_remove : change_type_of ch = TRemove →
  outcome any_before any_after ch
    (match first_of (λ c, match c with Remove n => Some n | _ => None end) acc with Some n => [Remove n] | None => [] end).
Proof.
  intros Ht. assert (∀ b, after b ch = false) as Ha by (by destruct ch).
  rewrite (existsb_none (λ b, after b ch)) by auto.
  destruct (first_of _ acc) as [x|] eqn:Er.
  - apply first_of_Some in Er as ([|y| |] & Hx & [= ->]). destruct (Hfrom _ Hx) as (b & Hbs & Ho).
    rewrite Ha in Ho. destruct (before b ch) eqn:E; [|done]. rewrite (existsb_elem _ b); [|done|done].
    destruct Ho as (n & [= <-] & Hl). by exists x.
  - rewrite existsb_none; [done|]. intros b Hbs. destruct (before b ch) eqn:E; [|done].
    destruct (Hto b Hbs) as (c & Hc & Ho); [by rewrite E|]. rewrite Ha, E in Ho.
    destruct Ho as (n & [= ->] & _). by destruct (no_remove Er n).
Qed.

(** A kept change stands for all that came back. *)
Lemma collapse_kept c : c ∈ acc → change_type_of c ≠ TAdd → change_type_of c ≠ TRemove →
  outcome any_before any_after ch [c].
Proof.
  intros Hc H1 H2. destruct (back_same c Hc H1 H2) as (b & Hb & Hbb & Hba & Hs).
  rewrite (existsb_elem _ b), (existsb_elem (λ b, after b ch) b) by done. by exists c.
Qed.

Lemma collapse_outcome : outcome any_before any_after ch (collapse_accumulated acc (change_type_of ch)).
Proof.
  unfold collapse_accumulated. destruct (change_type_of ch) eqn:Ht; [by apply collapse_add|by apply collapse_remove|..].
  - destruct (first_of (λ c, match c with Edit _ _ => Some c | _ => None end) acc) as [e|] eqn:Ee.
    { apply first_of_Some in Ee as (c & Hc & Hf). destruct c; try done. injection Hf as <-. by apply collapse_kept. }
    pose proof (collapse_split _ _ eq_refl eq_refl) as Hsp. rewrite Ht in Hsp. specialize (Hsp ltac:(done) ltac:(done)).
    assert (∀ c, c ∈ acc → ¬ same ch c) as Hn.
    { intros c Hc Hs. pose proof (first_of_None _ acc c Ee Hc) as Hf. destruct ch, c; done. }
    specialize (Hsp Hn).
    destruct (first_of (λ c, match c with Add n => Some n | _ => None end) acc) as [n|];
      destruct (first_of (λ c, match c with Remove n => Some n | _ => None end) acc) as [old|].
    + destruct Hsp as (-> & -> & Hg & Hl & _). exists (Edit n old). split; [done|]. by destruct ch.
    + destruct Hsp as (-> & -> & Hg). exists n. by rewrite Ht.
    + destruct Hsp as (-> & -> & Hl). by exists old.
    + by destruct Hsp as [-> ->].
  - destruct (first_of (λ c, match c with Child _ _ _ => Some c | _ => None end) acc) as [e|] eqn:Ee.
    { apply first_of_Some in Ee as (c & Hc & Hf). destruct c; try done. injection Hf as <-. by apply collapse_kept. }
    pose proof (collapse_split _ _ eq_refl eq_refl) as Hsp. rewrite Ht in Hsp. specialize (Hsp ltac:(done) ltac:(done)).
    assert (∀ c, c ∈ acc → ¬ same ch c) as Hn.
    { intros c Hc Hs. pose proof (first_of_None _ acc c Ee Hc) as Hf. destruct ch, c; done. }
    specialize (Hsp Hn).
    destruct (first_of (λ c, match c with Add n => Some n | _ => None end) acc) as [n|];
      destruct (first_of (λ c, match c with Remove n => Some n | _ => None end) acc) as [old|].
    + exfalso. destruct Hsp as (_ & _ & _ & _ & b1 & b2 & Hb1 & Hb2 & H1 & H2 & H3 & H4).
      pose proof (flip_reads b1 ch Ht ltac:(congruence)) as Hr1. pose proof (flip_reads b2 ch Ht ltac:(congruence)) as Hr2.
      destruct ch as [| | |x r sub]; try done. rewrite (rels_disjoint bs b1 b2 r) in H1 by done. congruence.
    + destruct Hsp as (-> & -> & Hg). exists n. by rewrite Ht.
    + destruct Hsp as (-> & -> & Hl). by exists old.
    + by destruct Hsp as [-> ->].
Qed.
End collapse.

(** ** The whole chain *)

(** A walk that leaves the state as it was, and whose changes come out at the end
    of the chain. *)
Definition walks (at_end b a : bool) (ch : change) (st : ChainSt) (res : option walk_result) : Prop :=
  ∃ back log, res = Some (st, back, log) ∧
    if at_end then back = [] ∧ outcome b a ch log.*1 else log = [] ∧ outcome b a ch back.

Lemma walks_nothing at_end b a ch st : outcome b a ch [] → walks at_end b a ch st (Some (st, [], [])).
Proof. intros H. exists [], []. split; [done|]. by destruct at_end. Qed.

Lemma outcome_nil b a ch : outcome b a ch [] → b = false ∧ a = false.
Proof. destruct b, a; cbn; [by intros (? & ? & _)|by intros (? & ? & _)|by intros (? & ? & _)|done]. Qed.

Lemma walks_next next at_end b a ch c' st res :
  outcome b a ch [c'] → settled b a ch next → walks at_end (before next c') (after next c') c' st res →
  walks at_end (b && before next ch) (a && after next ch) ch st res.
Proof.
  intros Hm Hs (back & log & -> & Hw). exists back, log. split; [done|].
  destruct at_end; destruct Hw as [-> Ho]; (split; [done|]); by eapply outcome_compose.
Qed.

(** What a chain needs of its links and of the state. *)
Record ready (l : link) (st : ChainSt) : Prop := {
  rd_wired : wired l;
  rd_rels : NoDup (rels_of l);
  rd_ids : NoDup (map ex_id (exists_of l));
  rd_idle : ∀ e, e ∈ exists_of l → ex_id e ∉ cs_in_push st
}.

Definition pushes (l : link) : Prop :=
  ∀ ch st, ready l st → decidable l ch → walks (ends l) (before l ch) (after l ch) ch st (chain_push l ch st).

Lemma settled_other b a ch next : (∀ r, match ch with Child _ r' _ => r' = r | _ => False end → r ∉ rels_of next ∨ (b = true → a = true)) → settled b a ch next.
Proof.
  intros H -> ->. destruct ch as [| | |n r sub]; try done. destruct (H r eq_refl) as [|Hba]; [done|]. by specialize (Hba eq_refl).
Qed.

Lemma push_filter p next : pushes next → pushes (LFilter p next).
Proof.
  intros IH ch st [Hw Hr Hi Hd] Hdec.
  assert (ready next st) as Hrd by (split; done).
  assert (decidable next ch) as Hdn.
  { eapply decidable_sub; [| |exact Hdec]; [done|]. intros x Hx. by right. }
  assert (∀ n, defined (LFilter p next) n → eval p (node_row n) = Some (holds p (node_row n))) as He.
  { intros n [H _]. cbn [preds_of] in H. apply Forall_cons in H as [[b Hb] _]. unfold holds. by rewrite Hb. }
  assert (∀ b a c', outcome b a ch [c'] → settled b a ch next →
    walks (ends next) (b && before next ch) (a && after next ch) ch st (chain_push next c' st)) as Hgo.
  { intros b a c' Hm Hset. eapply walks_next; [done..|]. apply IH; [done|]. by eapply decidable_mid. }
  cbn [chain_push ends]. destruct ch as [n|n|n old|n r sub].
  - rewrite (He n) by apply Hdec. cbn [mbind option_bind before after passes].
    destruct (holds p (node_row n)); [|by apply walks_nothing].
    apply (Hgo false true (Add n)); [exists n; split_and!; [done|apply looks_like_refl|done]|done].
  - rewrite (He n) by apply Hdec. cbn [mbind option_bind before after passes].
    destruct (holds p (node_row n)); [|by apply walks_nothing].
    apply (Hgo true false (Remove n)); [exists n; split; [done|apply looks_like_refl]|by intros].
  - rewrite (He n), (He old) by apply Hdec. cbn [mbind option_bind before after passes].
    destruct (holds p (node_row old)), (holds p (node_row n)).
    + apply (Hgo true true (Edit n old)); [exists (Edit n old); by split|by intros].
    + apply (Hgo true false (Remove old)); [exists old; split; [done|apply looks_like_refl]|by intros].
    + apply (Hgo false true (Add n)); [exists n; split_and!; [done|apply looks_like_refl|done]|by intros].
    + by apply walks_nothing.
  - rewrite (He n) by apply Hdec. cbn [mbind option_bind before after passes].
    destruct (holds p (node_row n)); [|by apply walks_nothing].
    apply (Hgo true true (Child n r sub)); [exists (Child n r sub); by split|by intros].
Qed.

Lemma with_in_push_restore st id :
  id ∉ cs_in_push st →
  with_in_push (with_in_push st ({[id]} ∪ cs_in_push st)) (({[id]} ∪ cs_in_push st) ∖ {[id]}) = st.
Proof. intros H. destruct st as [c p]. unfold with_in_push. cbn in *. f_equal. set_solver. Qed.

Lemma push_exists e next : pushes next → pushes (LExists e next).
Proof.
  intros IH ch st [Hw Hr Hi Hd] Hdec. cbn [chain_push ends].
  assert (ex_id e ∉ cs_in_push st) as He by (apply Hd; cbn; by left).
  rewrite bool_decide_eq_false_2 by done. set (st1 := with_in_push st _).
  cbn [rels_of exists_of map] in Hr, Hi. apply NoDup_cons in Hr as [Hre Hr], Hi as [Hie Hi].
  assert (ready next st1) as Hrd.
  { split; [done..|]. intros e' He'. cbn. rewrite not_elem_of_union, not_elem_of_singleton. split.
    - intros Heq. apply Hie. rewrite <-Heq. apply list_elem_of_fmap. by exists e'.
    - apply Hd. by right. }
  assert (decidable next ch) as Hdn.
  { eapply decidable_sub; [| |exact Hdec]; [|done]. intros x Hx. by right. }
  rewrite before_exists, after_exists.
  assert (walks (ends next) (gate_before e ch && before next ch) (gate_after e ch && after next ch) ch st1
    (exists_push (chain_push next) e ch st1)) as (back & log & -> & Hwk).
  { destruct (exists_push_gate e (chain_push next) st1 next ch Hdec) as [[-> Ho]|(c' & -> & Ho & Hset)].
    - apply walks_nothing. by destruct (outcome_nil _ _ _ Ho) as [-> ->].
    - assert (settled (gate_before e ch) (gate_after e ch) ch next) as Hset'.
      { intros H1 H2. specialize (Hset H1 H2). destruct ch as [| | |n r sub]; try done. by subst r. }
      eapply walks_next; [done..|]. apply IH; [done|]. by eapply decidable_mid. }
  cbn [mbind option_bind]. exists back, log. split; [|done]. do 3 f_equal.
  unfold st1. cbn [cs_in_push with_in_push]. by apply with_in_push_restore.
Qed.

(** The branches of a fan, one after the other. *)
Lemma fan_pushes bs ch st :
  Forall pushes bs → foldr (λ b P, ends b = false ∧ wired b ∧ P) True bs →
  NoDup (map ex_rel (bs ≫= exists_of)) → NoDup (map ex_id (bs ≫= exists_of)) →
  (∀ e, e ∈ bs ≫= exists_of → ex_id e ∉ cs_in_push st) →
  (∀ b, b ∈ bs → decidable b ch) →
  let ch' := rebuild_change (materialize_change_preserving_node ch) in
  same ch ch' →
  ∃ acc, fan_branches (λ b st, chain_push b ch' st) bs st = Some (st, acc, []) ∧
    (∀ c, c ∈ acc → ∃ b, b ∈ bs ∧ outcome (before b ch) (after b ch) ch [c]) ∧
    (∀ b, b ∈ bs → before b ch || after b ch = true → ∃ c, c ∈ acc ∧ outcome (before b ch) (after b ch) ch [c]).
Proof.
  intros Hall Hw Hr Hi Hd Hdec ch' Hs.
  induction Hall as [|b bs Hb _ IH]; cbn [fan_branches].
  { exists []. split_and!; [done|..]; [intros c Hc|intros b Hb]; by (apply elem_of_nil in Hc || apply elem_of_nil in Hb). }
  fold (fan_branches (λ b st, chain_push b ch' st)). cbn [foldr] in Hw. destruct Hw as (He & Hwb & Hw).
  cbn in Hr, Hi. rewrite map_app, NoDup_app in Hr. rewrite map_app, NoDup_app in Hi.
  destruct Hr as (Hrb & _ & Hr), Hi as (Hib & _ & Hi).
  destruct (Hb ch' st) as (back & log & -> & Hwk).
  { split; [done..|]. intros e Hee. apply Hd. cbn. apply elem_of_app. by left. }
  { eapply decidable_same; [done|]. apply Hdec. by left. }
  rewrite He in Hwk. destruct Hwk as [-> Ho]. cbn [mbind option_bind].
  destruct (same_before b ch ch' Hs) as [Hsb Hsa]. rewrite Hsb, Hsa in Ho. apply (outcome_same _ _ ch) in Ho; [|done].
  destruct IH as (acc & -> & H1 & H2); [done|done|done| | |].
  { intros e Hee. apply Hd. cbn. apply elem_of_app. by right. }
  { intros b' Hb'. apply Hdec. by right. }
  cbn [mbind option_bind]. exists (back ++ acc). split; [done|].
  assert ((∀ c, c ∈ back → outcome (before b ch) (after b ch) ch [c]) ∧
    (before b ch || after b ch = true → ∃ c, c ∈ back ∧ outcome (before b ch) (after b ch) ch [c])) as [Hf Ht].
  { destruct (before b ch), (after b ch); cbn [outcome] in Ho.
    - destruct Ho as (c & -> & Hc). split; [intros x Hx%list_elem_of_singleton; subst x|intros _]; [by exists c|].
      exists c. split; [by left|by exists c].
    - destruct Ho as (n & -> & Hc). split; [intros x Hx%list_elem_of_singleton; subst x|intros _]; [by exists n|].
      exists (Remove n). split; [by left|by exists n].
    - destruct Ho as (n & -> & Hc). split; [intros x Hx%list_elem_of_singleton; subst x|intros _]; [by exists n|].
      exists (Add n). split; [by left|by exists n].
    - subst back. split; [intros c Hc; by apply elem_of_nil in Hc|done]. }
  split.
  - intros c [Hc|Hc]%elem_of_app; [exists b; split; [by left|auto]|].
    destruct (H1 c Hc) as (b' & Hb' & Ho'). exists b'. split; [by right|done].
  - intros b' [->|Hb']%elem_of_cons Hba.
    + destruct (Ht Hba) as (c & Hc & Hoc). exists c. split; [apply elem_of_app; by left|done].
    + destruct (H2 b' Hb' Hba) as (c & Hc & Hoc). exists c. split; [apply elem_of_app; by right|done].
Qed.

Lemma push_each_outcome (push : change → ChainSt → option walk_result) at_end next b a ch cs st :
  outcome b a ch cs → settled b a ch next →
  (∀ c, outcome b a ch [c] → walks at_end (before next c) (after next c) c st (push c st)) →
  walks at_end (b && before next ch) (a && after next ch) ch st (push_each push cs st).
Proof.
  intros Ho Hset Hp.
  assert (∀ c, cs = [c] → walks at_end (b && before next ch) (a && after next ch) ch st (push_each push cs st)) as Hone.
  { intros c ->. destruct (walks_next next at_end b a ch c st (push c st)) as (back & log & Hr & Hw); [done..|by apply Hp|].
    exists back, log. split; [|done]. cbn [push_each]. rewrite Hr. cbn. by rewrite !app_nil_r. }
  destruct b, a; cbn [outcome] in Ho.
  - destruct Ho as (c & -> & _). by apply (Hone c).
  - destruct Ho as (n & -> & _). by apply (Hone (Remove n)).
  - destruct Ho as (n & -> & _). by apply (Hone (Add n)).
  - subst cs. cbn [push_each]. by apply walks_nothing.
Qed.

Lemma same_owned ch : same ch (rebuild_change (materialize_change_preserving_node ch)).
Proof.
  assert (∀ c, materialize_change (rebuild_change (materialize_change c)) = materialize_change c) as Hm.
  { induction c as [n|n|n old|n r sub IH]; cbn [materialize_change rebuild_change]; rewrite ?materialize_rebuild_node; [done..|].
    rewrite IH. destruct n. done. }
  destruct ch as [n|n|n old|n r sub]; cbn [materialize_change_preserving_node materialize_change rebuild_change same].
  - apply looks_like_rebuild.
  - apply looks_like_rebuild.
  - split; apply looks_like_rebuild.
  - split_and!; [apply looks_like_rebuild|done|apply Hm].
Qed.

(** A fan asks its branches and then what follows them. *)
Lemma before_fan bs next ch :
  before (LFanOut bs next) ch = existsb (λ b, before b ch) bs && match next with Some c => before c ch | None => true end.
Proof.
  destruct ch; cbn [before passes]; [|by destruct next..]. rewrite existsb_none; [done|]. done.
Qed.

Lemma after_fan bs next ch :
  after (LFanOut bs next) ch = existsb (λ b, after b ch) bs && match next with Some c => after c ch | None => true end.
Proof.
  destruct ch; cbn [after passes]; [by destruct next| |by destruct next..]. rewrite existsb_none; [done|]. done.
Qed.

(** The branch a child flips is the only one, and no later link reads what it did. *)
Lemma settled_fan bs next ch :
  (∀ r, r ∈ map ex_rel (bs ≫= exists_of) → r ∉ rels_of next) →
  settled (existsb (λ b, before b ch) bs) (existsb (λ b, after b ch) bs) ch next.
Proof.
  intros Hd Hb Ha. destruct ch as [| | |n r sub]; try done.
  apply existsb_exists in Hb as (b & Hb%list_elem_of_In & Hbb). apply Hd.
  assert (after b (Child n r sub) = false) as Hba.
  { destruct (after b (Child n r sub)) eqn:E; [|done]. by rewrite (existsb_elem bs (λ b, after b (Child n r sub)) b) in Ha. }
  pose proof (flip_reads b (Child n r sub) eq_refl ltac:(congruence)) as Hr. cbn in Hr.
  apply list_elem_of_fmap in Hr as (e & -> & He). apply list_elem_of_fmap. exists e. split; [done|].
  apply list_elem_of_bind. by exists b.
Qed.

Lemma push_fan bs next :
  Forall pushes bs → (∀ c, next = Some c → pushes c) → pushes (LFanOut bs next).
Proof.
  intros Hbs Hnext ch st [Hw Hr Hi Hd] Hdec. cbn [wired rels_of exists_of] in *. destruct Hw as [Hw Hwn].
  unfold rels_of in Hr. cbn [exists_of] in Hr. rewrite map_app, NoDup_app in Hr. rewrite map_app, NoDup_app in Hi.
  destruct Hr as (Hrb & Hrdis & Hrn), Hi as (Hib & Hid & Hin).
  assert (∀ b, b ∈ bs → decidable b ch) as Hdb.
  { intros b Hb. eapply decidable_sub; [| |exact Hdec]; intros x Hx; cbn; apply elem_of_app; left;
      apply list_elem_of_bind; by exists b. }
  destruct (fan_pushes bs ch st) as (acc & Hf & Hfrom & Hto); [done..| |done|apply same_owned|].
  { intros e He. apply Hd. apply elem_of_app. by left. }
  cbn [chain_push ends]. rewrite Hf. cbn [mbind option_bind]. clear Hf.
  pose proof (collapse_outcome bs ch acc Hrb Hfrom Hto) as Hc. rewrite before_fan, after_fan.
  destruct next as [c|]; cbn [mbind option_bind].
  2: { rewrite !andb_true_r. exists (collapse_accumulated acc (change_type_of ch)), []. done. }
  assert (ready c st) as Hrd.
  { split; [done..|]. intros e He. apply Hd. apply elem_of_app. by right. }
  assert (decidable c ch) as Hdc.
  { eapply decidable_sub; [| |exact Hdec]; intros x Hx; cbn; apply elem_of_app; by right. }
  pose proof (settled_fan bs c ch Hrdis) as Hset.
  destruct (push_each_outcome (chain_push c) (ends c) c _ _ ch _ st Hc Hset) as (back & log & -> & Hwk).
  { intros x Hx. apply (Hnext c eq_refl); [done|]. by eapply decidable_mid. }
  cbn [mbind option_bind app]. by exists back, log.
Qed.

Lemma outcome_self ch : outcome (before LFanIn ch) (after LFanIn ch) ch [ch].
Proof.
  destruct ch as [n|n|n old|n r sub]; cbn [before after passes outcome].
  - exists n. split_and!; [done|apply looks_like_refl|done].
  - exists n. split; [done|apply looks_like_refl].
  - exists (Edit n old). split; [done|apply (same_refl (Edit n old))].
  - exists (Child n r sub). split; [done|apply (same_refl (Child n r sub))].
Qed.

Lemma chain_push_spec l : pushes l.
Proof.
  induction l as [p next IH|e next IH|bs next IHbs IHnext| |] using link_nested_ind.
  - by apply push_filter.
  - by apply push_exists.
  - by apply push_fan.
  - intros ch st _ _. exists [ch], []. split; [done|]. split; [done|apply outcome_self].
  - intros ch st _ _. exists [], [(ch, st)]. split; [done|]. split; [done|apply outcome_self].
Qed.

(** [C22] A chain of filters, [EXISTS] gates and [OR] fans between a FilterStart and
    its FilterEnd lets a change out as what it is for the rows the condition selects:
    nothing when the row satisfies it neither before nor after, an addition when it
    begins to, a removal (with the node as the consumer knew it) when it ceases to,
    the change itself when it still does; once, however many branches of a fan pass
    it, with the caches and the in-push marks of every gate left as they were and
    no assertion failing. *)
Theorem chain_push_exact (l : link) (ch : change) (st : ChainSt) :
  ready l st → ends l = true → decidable l ch →
  ∃ log, chain_push l ch st = Some (st, [], log) ∧ outcome (before l ch) (after l ch) ch log.*1.
Proof.
  intros Hr He Hd. destruct (chain_push_spec l ch st Hr Hd) as (back & log & -> & Hw).
  rewrite He in Hw. destruct Hw as [-> Ho]. by exists log.
Qed.

(** [C25] A fetch through a FilterStart keeps, in order, exactly the upstream nodes
    that satisfy the chain's condition, whatever the size caches of its gates
    remember of nodes with the same join key, and leaves every one of those caches
    empty: no count outlives the fetch it was made for. *)
Theorem chain_fetch_exact (l : link) (upstream : list node) (st : ChainSt) :
  NoDup (map ex_id (exists_of l)) →
  Forall (defined l) upstream →
  (∀ e n n', e ∈ exists_of l → n ∈ upstream → n' ∈ upstream →
     exists_cache_key e n = exists_cache_key e n' → fetch_exists e n = fetch_exists e n') →
  (∀ e, e ∈ exists_of l → default [] (cs_cache st !! ex_id e) = []) →
  ∃ st', filter_start_fetch l upstream st = Some (List.filter (passes as_is l) upstream, st') ∧
    cs_in_push st' = cs_in_push st ∧ ∀ e, e ∈ exists_of l → default [] (cs_cache st' !! ex_id e) = [].
Proof.
  intros Hids Hdef Hkey Hc. rewrite Forall_forall in Hdef.
  destruct (filter_nodes_spec l (λ n, n ∈ upstream) Hids Hkey Hdef upstream st) as (st1 & Hf & Hp).
  { by apply Forall_forall. }
  { intros e key b n He Ha. by rewrite (Hc e He) in Ha. }
  unfold filter_start_fetch. rewrite Hf. cbn [mbind option_bind].
  destruct (end_filter_spec l st1) as (H1 & _ & H3). exists (end_filter l st1). split_and!; [done|congruence|done].
Qed.

(** A present key column, and either a related row or a null in the second column. *)
Definition ex_gate_link : ExistsLink := exists_new 9 3 [0] false [1].
Definition ex_chain : link :=
  LFilter (PIsNull 0 true)
    (LFanOut [LExists ex_gate_link LFanIn; LFilter (PIsNull 1 false) LFanIn] (Some LFilterEnd)).
Definition ex_leaf : node := Node [Bool true] [].
Definition ex_parent (v : value) (children : list node) : node := Node [Bool true; v] [(3, λ _, children)].
Definition ex_filled : change := Child (ex_parent (Bool false) [ex_leaf]) 3 (Add ex_leaf).
Definition ex_chain_st : ChainSt := MkChainSt ∅ {[4]}.

Lemma ex_defined v children : defined ex_chain (ex_parent v children).
Proof. split; repeat constructor; by eexists. Qed.

Lemma chain_push_exact_witness :
  ∃ log, chain_push ex_chain ex_filled ex_chain_st = Some (ex_chain_st, [], log) ∧
    outcome (before ex_chain ex_filled) (after ex_chain ex_filled) ex_filled log.*1.
Proof.
  apply (chain_push_exact ex_chain ex_filled ex_chain_st).
  - split.
    + split; [|exact I]. split; [reflexivity|]. split; [exact I|]. split; [reflexivity|]. split; [exact I|exact I].
    + apply NoDup_singleton.
    + apply NoDup_singleton.
    + intros e He. apply list_elem_of_singleton in He as ->. set_solver.
  - reflexivity.
  - split; [apply ex_defined|]. constructor; [|constructor]. intros _. apply Z.leb_le. reflexivity.
Defined.

Example ex_filled_adds : before ex_chain ex_filled = false ∧ after ex_chain ex_filled = true.
Proof. by vm_compute. Qed.

Definition ex_nodes : list node :=
  [ex_parent (Bool false) [ex_leaf]; ex_parent Null [ex_leaf]; ex_parent (Bool true) [ex_leaf]].

Lemma chain_fetch_exact_witness :
  ∃ st', filter_start_fetch ex_chain ex_nodes ex_chain_st = Some (List.filter (passes as_is ex_chain) ex_nodes, st') ∧
    cs_in_push st' = cs_in_push ex_chain_st ∧
    ∀ e, e ∈ exists_of ex_chain → default [] (cs_cache st' !! ex_id e) = [].
Proof.
  apply (chain_fetch_exact ex_chain ex_nodes ex_chain_st).
  - apply NoDup_singleton.
  - unfold ex_nodes. do 3 (constructor; [apply ex_defined|]). constructor.
  - intros e n n' He Hn Hn' _. apply list_elem_of_singleton in He as ->.
    assert (∀ m, m ∈ ex_nodes → fetch_exists ex_gate_link m = Some true) as Hm.
    { intros m Hm. unfold ex_nodes in Hm. rewrite !elem_of_cons, elem_of_nil in Hm.
      destruct Hm as [->|[->|[->|[]]]]; reflexivity. }
    by rewrite (Hm n Hn), (Hm n' Hn').
  - intros e _. reflexivity.
Defined.
