(* ===== verification/JoinUtil.v ===== *)
(** * Comparing join keys ([rust/src/op/join_util.rs])

    Two rows join when their key columns are pairwise equal, null never being
    equal to anything; an edit keeps its key when the columns compare equal, null
    to null included; and the flipped join groups rows by a canonical key, which is
    the same for two keys exactly when they are equal column by column. *)

From stdpp Require Import base list numbers option sets.
From Stdlib Require Import ZArith Lia Strings.Byte.
From S2P Require Import Prelude Values Rows Change Overlay Partition.

(** The [n]th column of one key goes with the [n]th of the other; the longer
    one is cut. *)
Definition is_join_match (parent : row) (parent_key : list nat) (child : row) (child_key : list nat) : option bool :=
  try_all (λ k : nat * nat, v ← parent !! k.1; w ← child !! k.2; values_equal v w) (zip parent_key child_key).

Definition row_equals_for_compound_key (a b : row) (key : list nat) : option bool :=
  try_all (λ c, v ← a !! c; w ← b !! c; o ← compare_values v w; Some (is_eq o)) key.

Inductive CanonVal : Type :=
  | CvAbsent
  | CvNull
  | CvBool (b : bool)
  | CvInt (i : Z)
  | CvFloat (bits : Z)
  | CvStr (s : list byte)
  | CvJson (s : list byte).

#[export] Instance CanonVal_eq_dec : EqDecision CanonVal.
Proof. solve_decision. Defined.

(** [CanonVal::of], and [of_value] on a borrowed cell. *)
Definition canon_of (v : value) : CanonVal :=
  match v with
  | Absent => CvAbsent
  | Null => CvNull
  | Bool b => CvBool b
  | Int i => CvInt i
  | Float f => match float_int_class f with Some i => CvInt i | None => CvFloat f end
  | Str s => CvStr s
  | Json s => CvJson s
  end.

Abbreviation CanonKey := (list CanonVal).

Definition canonical_key (r : row) (key : list nat) : option CanonKey := mapM (λ c, canon_of <$> r !! c) key.

Definition canonical_key_of_constraint (c : Constraint) : CanonKey := map (λ e, canon_of e.2) c.

(** ** Canonical values are classes of identical values *)

Definition canon_class (c : CanonVal) : value_class :=
  match c with
  | CvAbsent => ClAbsent
  | CvNull => ClNull
  | CvBool b => ClBool b
  | CvInt i => ClInt i
  | CvFloat f => ClFloat f
  | CvStr s => ClStr s
  | CvJson s => ClJson s
  end.

Lemma canon_of_identical v w : canon_of v = canon_of w ↔ values_identical v w = true.
Proof.
  rewrite <-class_of_identical.
  assert (∀ u, canon_class (canon_of u) = class_of u) as H.
  { intros [| |b|i|f|s|s]; try done. cbn. by destruct (float_int_class f). }
  rewrite <-!H. split; [by intros ->|].
  destruct (canon_of v), (canon_of w); cbn; congruence.
Qed.

(** Of a value that is there, join equality is identity. *)
Lemma canon_of_equal v w :
  present v = true → values_equal v w = Some true ↔ canon_of v = canon_of w.
Proof.
  intros Hv. rewrite canon_of_identical, values_identical_eq, is_eq_true, values_equal_true. split; [naive_solver|].
  intros H. split; [done|]. by destruct v, w.
Qed.

Lemma canonical_key_mapM (r : row) (key : list nat) :
  canonical_key r key = (λ vs, map canon_of vs) <$> mapM (λ c, r !! c) key.
Proof.
  unfold canonical_key. induction key as [|c key IH]; [done|]. cbn [mapM].
  destruct (r !! c) as [v|]; [|done]. cbn [fmap option_fmap option_map mbind option_bind]. rewrite IH.
  by destruct (mapM (λ c, r !! c) key).
Qed.

(** ** Joining rows *)

Definition joins (parent : row) (parent_key : list nat) (child : row) (child_key : list nat) : bool :=
  bool_decide (is_join_match parent parent_key child child_key = Some true).

Lemma try_all_ext {A} (f g : A → option bool) l : (∀ x, f x = g x) → try_all f l = try_all g l.
Proof. intros H. induction l as [|x l IH]; [done|]. cbn. by rewrite H, IH. Qed.

Lemma is_join_match_sym a ka b kb : is_join_match a ka b kb = is_join_match b kb a ka.
Proof.
  unfold is_join_match. revert kb. induction ka as [|x ka IH]; intros [|y kb]; [done..|]. cbn [zip zip_with try_all fst snd].
  assert ((v ← a !! x; w ← b !! y; values_equal v w) = (v ← b !! y; w ← a !! x; values_equal v w)) as ->.
  { destruct (a !! x), (b !! y); cbn; [apply values_equal_sym|done..]. }
  unfold zip in IH. by rewrite IH.
Qed.

Lemma joins_sym a ka b kb : joins a ka b kb = joins b kb a ka.
Proof. unfold joins. by rewrite is_join_match_sym. Qed.

Lemma joins_true a ka b kb :
  joins a ka b kb = true ↔
  Forall (λ k : nat * nat, ∃ v w, a !! k.1 = Some v ∧ b !! k.2 = Some w ∧ values_equal v w = Some true) (zip ka kb).
Proof.
  unfold joins, is_join_match. rewrite bool_decide_eq_true, try_all_true. apply Forall_iff. intros [x y]. cbn.
  destruct (a !! x) as [v|], (b !! y) as [w|]; cbn; naive_solver.
Qed.

Lemma joins_matches a ka b kb : length ka = length kb → joins a ka b kb = true ↔ join_matches a b ka kb.
Proof.
  intros Hl. rewrite joins_true. unfold join_matches. revert kb Hl.
  induction ka as [|x ka IH]; intros [|y kb] Hl; [by split; intros; constructor|done|done|].
  cbn [zip zip_with]. fold (zip ka kb).
  assert (∀ v w, values_equal v w = Some true ↔ values_equal w v = Some true) as Hs by (intros; by rewrite values_equal_sym).
  rewrite Forall_cons, Forall2_cons. specialize (IH kb ltac:(cbn in Hl; lia)). cbn [fst snd]. naive_solver.
Qed.

(** The constraint made of one row selects the rows that join with it. *)
Lemma join_constraint (r : row) (from_key to_key : list nat) :
  length from_key = length to_key → Forall (λ f, f < length r) from_key →
  ∃ oc, build_join_constraint r from_key to_key = Some oc ∧
    ∀ to_row, match oc with Some c => cmatch to_row c | None => false end = joins r from_key to_row to_key.
Proof.
  intros Hl Hf. destruct (build_join_constraint_spec r from_key to_key Hl Hf) as (oc & Hoc & H).
  exists oc. split; [done|]. intros to_row. apply eq_bool_prop_intro. rewrite !Is_true_true, joins_matches, <-H by done.
  destruct oc as [c|]; [|done]. unfold cmatch. by rewrite bool_decide_eq_true.
Qed.

(** Rows that join with one row join with the same rows. *)
Lemma joins_trans a b ka c kc r :
  length ka = length kc → joins a ka c kc = true → joins b ka c kc = true → joins a ka r kc = joins b ka r kc.
Proof.
  intros Hl Ha Hb. unfold joins. f_equal. apply bool_decide_ext. unfold is_join_match.
  rewrite joins_true in Ha, Hb. f_equiv. revert kc Hl Ha Hb.
  induction ka as [|x ka IH]; intros [|y kc] Hl Ha Hb; try done. cbn [zip zip_with try_all] in *.
  apply Forall_cons in Ha as [(v & w & Hv & Hw & Hvw) Ha], Hb as [(v' & w' & Hv' & Hw' & Hvw') Hb]. cbn [fst snd] in *.
  rewrite Hw in Hw'. injection Hw' as <-. rewrite Hv, Hv'. cbn [mbind option_bind].
  assert (values_equal v v' = Some true) as He.
  { rewrite (values_equal_l v w v') by done. by rewrite values_equal_sym. }
  assert (∀ u, values_equal v u = values_equal v' u) as Hu by (intros u; by apply values_equal_l).
  fold (zip ka kc). destruct (r !! y) as [u|]; cbn; [|done]. rewrite Hu, (IH kc) by (cbn in Hl; auto with lia). done.
Qed.

(** An edit that keeps the key keeps the rows it joins with. *)
Lemma values_equal_kept v w u : compare_values w u = Some Eq → values_equal v w = values_equal v u.
Proof.
  intros Hc. destruct (present w) eqn:Hp.
  - rewrite (values_equal_sym v w), (values_equal_sym v u). apply values_equal_l. apply values_equal_true.
    split; [done|]. by destruct w, u; cbn in *; simplify_eq; naive_solver.
  - by destruct w, u.
Qed.

Lemma is_join_match_kept p pk old new ck :
  row_equals_for_compound_key old new ck = Some true → is_join_match p pk old ck = is_join_match p pk new ck.
Proof.
  unfold row_equals_for_compound_key, is_join_match. rewrite try_all_true. revert ck.
  induction pk as [|x pk IH]; intros [|y ck] Hk; [done..|]. cbn [zip zip_with try_all fst snd].
  apply Forall_cons in Hk as [Hk Hks]. destruct (old !! y) as [w|]; [|done]. destruct (new !! y) as [u|]; [|done].
  cbn in Hk. destruct (compare_values w u) as [o|] eqn:Ho; [|done]. injection Hk as Hk. apply is_eq_true in Hk as ->.
  fold (zip pk ck). rewrite (IH ck Hks). destruct (p !! x) as [v|]; [|done]. cbn. by rewrite (values_equal_kept v w u).
Qed.

(** Two constraints some row matches are compatible. *)
Lemma compatible_of_match p k rc :
  cmatch p k = true → cmatch p rc = true → constraints_are_compatible k rc = Some true.
Proof.
  unfold cmatch. rewrite !bool_decide_eq_true. unfold constraint_matches, constraints_are_compatible. rewrite !try_all_true.
  intros Hk Hrc. eapply Forall_impl; [exact Hk|]. intros [col v] Hv. cbn [fst snd] in *.
  destruct (assoc rc col) as [vb|] eqn:Ha; [|done]. apply assoc_Some_elem in Ha. rewrite Forall_forall in Hrc.
  specialize (Hrc _ Ha). cbn [fst snd] in Hrc. destruct (p !! col) as [w|]; [|done]. cbn in *.
  by rewrite <-(values_equal_l w v vb).
Qed.
