(* ===== verification/Join.v ===== *)
(** * The hierarchical join ([rust/src/graph.rs])

    A join gives every parent row a relationship: the child rows with the parent's
    key.  A change of a child is pushed once per matching parent, and a consumer
    may fetch through the join between two of them: it must find the parents it has
    not heard of yet as they were.  The join keeps the change in flight and the
    parent it is at ([js_overlay], [js_position]), and a relationship read while
    they are set is pulled back to the state before the change.

    The parent and the child are functions from requests to nodes, which already
    show the change.  A relationship is read when its node is handed on, by the
    consumer the node is handed to: its rows are those of the state of that moment,
    and a panic while reading it is a panic of the push.  [deadline i] is the answer
    of the push deadline at its [i]-th poll. *)

From stdpp Require Import base list numbers option sorting gmap sets strings.
From Stdlib Require Import ZArith Lia Strings.Byte.
From S2P Require Import Prelude Values Rows Change Connections Overlay Errors Storage Partition JoinUtil Take Cap.

Record JoinOp := MkJoin {
  jn_parent : nat;
  jn_child : nat;
  jn_parent_key : list nat;
  jn_child_key : list nat;
  jn_rel_slot : nat;
  jn_output : option OutEdge
}.

(** What the arena holds below a join's child: the limiters a removed parent's
    partition is evicted from. *)
Inductive child_chain : Type :=
  | ChTake (tk : TakeOp) (input : child_chain)
  | ChCap (cp : CapOp) (input : child_chain)
  | ChSkip (input : child_chain)
  | ChFilterStart (input : child_chain)
  | ChFilterEnd (start : child_chain)
  | ChOther.

(** What a push changes: the change in flight, the parent it is at, the graph's
    parked error and the operators' storage slots. *)
Record JoinSt (St : Type) := MkJoinSt {
  js_overlay : option source_change;
  js_position : option row;
  js_error : option RindleError;
  js_stores : gmap nat St
}.

Arguments MkJoinSt {_} _ _ _ _.
Arguments js_overlay {_} _.
Arguments js_position {_} _.
Arguments js_error {_} _.
Arguments js_stores {_} _.

Definition join_park {St} (s : JoinSt St) (err : RindleError) : JoinSt St :=
  MkJoinSt (js_overlay s) (js_position s) (Some (default err (js_error s))) (js_stores s).

Definition with_overlay {St} (s : JoinSt St) (o : option source_change) : JoinSt St :=
  MkJoinSt o (js_position s) (js_error s) (js_stores s).

Definition with_position {St} (s : JoinSt St) (p : option row) : JoinSt St :=
  MkJoinSt (js_overlay s) p (js_error s) (js_stores s).

Definition with_stores {St} (s : JoinSt St) (m : gmap nat St) : JoinSt St :=
  MkJoinSt (js_overlay s) (js_position s) (js_error s) m.

(** [InprogressGuard]. *)
Definition clear_inprogress {St} (s : JoinSt St) : JoinSt St :=
  MkJoinSt None None (js_error s) (js_stores s).

(** ** The splice of a child in flight *)

Section splice.
Context (child_pk : list nat) (child_sort : Sort).

(** [position]: the first node with the primary key of [r]. *)
Fixpoint pk_position (ns : list node) (r : row) : option (option nat) :=
  match ns with
  | [] => Some None
  | n :: ns =>
      b ← same_pk (node_row n) r child_pk;
      if (b : bool) then Some (Some 0)
      else i ← pk_position ns r; Some (option_map S i)
  end.

Definition readd_if_absent (ns : list node) (r : row) : option (list node) :=
  i ← pk_position ns r;
  Some (match i with Some _ => ns | None => ns ++ [leaf_node r] end).

Definition suppress (ns : list node) (r : row) : option (list node) :=
  i ← pk_position ns r;
  Some (match i with Some i => delete i ns | None => ns end).

(** [sort_by] with [compare_rows]. *)
Definition node_le (a b : node) : Prop := row_cmp child_sort (node_row a) (node_row b) ≠ Gt.

#[export] Instance node_le_dec a b : Decision (node_le a b).
Proof. unfold node_le. apply _. Defined.

Definition sort_nodes (ns : list node) : list node := merge_sort node_le ns.

Definition splice_join_overlay_pre (base : list node) (overlay : source_change) : option (list node) :=
  ns ← match overlay with
       | SAdd r => suppress base r
       | SRemove r => readd_if_absent base r
       | SEdit r old => ns ← suppress base r; readd_if_absent ns old
       end;
  Some (sort_nodes ns).
End splice.

Section join.
Context {St : Type} `{!Storage St}.
Context (parent_fetch child_fetch : FetchRequest → list node).
Context (below : child_chain).
Context (parent_primary_key : list nat) (parent_sort : Sort).
Context (child_pk : list nat) (child_sort : Sort).
Context (validate_changes : bool) (deadline : nat → bool).
Context (j : JoinOp).
#[local] Abbreviation state := (JoinSt St).

(** What was pushed downstream: the edge, the change, the state meanwhile. *)
Abbreviation join_log := (list (OutEdge * change * JoinSt St)).

(** ** Fetch *)

Definition join_overlay_for (s : state) (parent_row : row) : option (option source_change) :=
  match js_overlay s, js_position s with
  | Some overlay, Some position =>
      m ← is_join_match parent_row (jn_parent_key j) (source_row overlay) (jn_child_key j);
      Some (if (m : bool) && is_gt (row_cmp parent_sort parent_row position) then Some overlay else None)
  | _, _ => Some None
  end.

(** The relationship's thunk, drained in [s]. *)
Definition child_rel (s : state) (pr : row) : option (list node) :=
  c ← build_join_constraint pr (jn_parent_key j) (jn_child_key j);
  let base := match c with Some c => child_fetch (fetch_with_constraint c) | None => [] end in
  ov ← join_overlay_for s pr;
  match ov with
  | Some ov => splice_join_overlay_pre child_pk child_sort base ov
  | None => Some base
  end.

Definition process_parent_node (s : state) (n : node) : option node :=
  children ← child_rel s (node_row n);
  let 'Node r rels := n in
  Some (Node r (rels ++ [(jn_rel_slot j, λ _, children)])).

Definition join_fetch (s : state) (req : FetchRequest) : option (list node) :=
  mapM (process_parent_node s) (parent_fetch req).

(** ** Eviction *)

Definition covers_partition (pk : option (list nat)) (c : Constraint) : bool :=
  match pk with Some pk => constraint_matches_partition_key c pk | None => false end.

(** [None] is a storage slot that is gone. *)
Fixpoint evict_child_partitions (n : child_chain) (c : Constraint) (stores : gmap nat St) : option (gmap nat St) :=
  match n with
  | ChTake tk input =>
      stores ← (if covers_partition (tk_partition_key tk) c then
                  st ← stores !! tk_storage tk;
                  Some (<[tk_storage tk := ts_store (evict_partition tk (MkTakeSt st None None) c)]> stores)
                else Some stores);
      evict_child_partitions input c stores
  | ChCap cp input =>
      stores ← (if covers_partition (cp_partition_key cp) c then
                  st ← stores !! cp_storage cp;
                  Some (<[cp_storage cp := cap_evict_partition cp st c]> stores)
                else Some stores);
      evict_child_partitions input c stores
  | ChSkip input | ChFilterStart input | ChFilterEnd input => evict_child_partitions input c stores
  | ChOther => Some stores
  end.

(** ** Push *)

Definition join_deadline_error : RindleError := PushDeadlineExceeded "join child fan-out"%string.

(** The fan-out, from the [i]-th poll of the deadline. *)
Fixpoint join_fan_out (out : OutEdge) (owned : owned_change) (i : nat) (parents : list node) (s : state) :
    option (state * join_log) :=
  match parents with
  | [] => Some (s, [])
  | pnode :: parents =>
      if deadline i then Some (join_park s join_deadline_error, [])
      else
        let s := with_position s (Some (node_row pnode)) in
        pn ← process_parent_node s pnode;
        '(s', log) ← join_fan_out out owned (S i) parents s;
        Some (s', (out, Child pn (jn_rel_slot j) (rebuild_change owned), s) :: log)
  end.

Definition push_child_change (s : state) (ch : change) : option (state * join_log) :=
  out ← jn_output j;
  c ← build_join_constraint (primary_row ch) (jn_child_key j) (jn_parent_key j);
  match c with
  | None => Some (s, [])
  | Some c =>
      let owned := materialize_change_edit_old_row_only ch in
      let s := with_overlay s (for_child_change ch) in
      '(s, log) ← join_fan_out out owned 0 (parent_fetch (fetch_with_constraint c)) s;
      Some (clear_inprogress s, log)
  end.

(** An edit that changes the join key is refused when changes are validated. *)
Definition key_edit_ok (ch : change) (key : list nat) : option bool :=
  match ch with
  | Edit n old =>
      same ← row_equals_for_compound_key (node_row old) (node_row n) key;
      Some ((same : bool) || negb validate_changes)
  | _ => Some true
  end.

Definition join_push (s : state) (ch : change) (port : Port) : option (state * join_log) :=
  out ← jn_output j;
  match port with
  | JoinParent =>
      match ch with
      | Add n => pn ← process_parent_node s n; Some (s, [(out, Add pn, s)])
      | Remove n =>
          pn ← process_parent_node s n;
          let log := [(out, Remove pn, s)] in
          if bool_decide (parent_primary_key = jn_parent_key j) then
            c ← build_join_constraint (node_row n) (jn_parent_key j) (jn_child_key j);
            match c with
            | Some c => stores ← evict_child_partitions below c (js_stores s); Some (with_stores s stores, log)
            | None => Some (s, log)
            end
          else Some (s, log)
      | Edit n old =>
          ok ← key_edit_ok ch (jn_parent_key j);
          if (ok : bool) then
            pn ← process_parent_node s n;
            po ← process_parent_node s old;
            Some (s, [(out, Edit pn po, s)])
          else Some (join_park s (ConsistencyViolation "parent edit changed the join key"%string), [])
      | Child n rel child =>
          pn ← process_parent_node s n;
          Some (s, [(out, Child pn rel child, s)])
      end
  | JoinChild =>
      ok ← key_edit_ok ch (jn_child_key j);
      if (ok : bool) then push_child_change s ch
      else Some (join_park s (ConsistencyViolation "child edit changed the join key"%string), [])
  | Single => None
  end.
End join.
