(* ===== verification/JoinFacts.v ===== *)
(** * What a join shows

    A join means the tree of parents with the child rows that have their key.
    Every change a join emits takes a consumer that holds the tree of before to the
    tree of after, and during the fan-out of a child change a fetch through the
    join shows exactly what the consumer has been told so far. *)

From stdpp Require Import base list numbers option sorting gmap sets strings.
From Stdlib Require Import ZArith Lia Strings.Byte.
From S2P Require Import Prelude Values Rows BTree BTreeFacts BTreeCursor Change Connections Overlay Errors Push MemorySourceFacts SourceFetch Storage Partition JoinUtil Take Cap Join.

#[local] Open Scope nat_scope.

(** ** Undoing the change in flight *)

Section splice.
Context (child_pk : list nat) (child_sort : Sort).
#[local] Abbreviation cmp := (row_cmp child_sort).

(** The primary key tells the rows apart that the order tells apart. *)
Definition pk_tells (l : list row) : Prop :=
  ∀ a b, a ∈ l → b ∈ l → same_pk a b child_pk = Some (is_eq (cmp a b)).

Lemma pk_tells_sub l l' : l' ⊆ l → pk_tells l → pk_tells l'.
Proof. intros Hs H a b Ha Hb. apply H; auto. Qed.

Lemma suppress_rows ns r :
  (∀ n, n ∈ ns → same_pk (node_row n) r child_pk = Some (is_eq (cmp (node_row n) r))) →
  ∃ ns', suppress child_pk ns r = Some ns' ∧ map node_row ns' = sl_delete cmp r (map node_row ns).
Proof.
  unfold suppress. intros H.
  assert (∃ i, pk_position child_pk ns r = Some i ∧
    map node_row (match i with Some i => delete i ns | None => ns end) = sl_delete cmp r (map node_row ns)) as (i & -> & Hi);
    [|by eexists].
  induction ns as [|n ns IH]; cbn [pk_position]; [by exists None|]. rewrite H by (by left). cbn [mbind option_bind].
  destruct IH as (i & Hp & Hi); [intros n' Hn'; apply H; by right|]. cbn [map sl_delete].
  destruct (cmp (node_row n) r); cbn [is_eq]; [by exists (Some 0)|..]; rewrite Hp; cbn [mbind option_bind];
    exists (option_map S i); (split; [done|]); destruct i; cbn; by rewrite <-Hi.
Qed.

Lemma readd_rows ns r :
  (∀ n, n ∈ ns → same_pk (node_row n) r child_pk = Some false) →
  readd_if_absent child_pk ns r = Some (ns ++ [leaf_node r]).
Proof.
  unfold readd_if_absent. intros H. assert (pk_position child_pk ns r = Some None) as ->; [|done].
  induction ns as [|n ns IH]; [done|]. cbn [pk_position]. rewrite H by (by left). cbn [mbind option_bind].
  rewrite IH; [done|]. intros n' Hn'. apply H. by right.
Qed.

Lemma sort_rows ns l : ssorted cmp l → map node_row ns ≡ₚ l → map node_row (sort_nodes child_sort ns) = l.
Proof.
  intros Hs Hp. unfold sort_nodes.
  assert (Hperm : map node_row (merge_sort (node_le child_sort) ns) ≡ₚ l).
  { rewrite <-Hp. apply Permutation_map, merge_sort_Permutation. }
  apply (StronglySorted_unique_strong (λ a b, cmp a b ≠ Gt)); [| | |done].
  - intros x y Hx Hy H1 H2. rewrite Hperm in Hx. apply (ssorted_tie cmp l); [done..|].
    pose proof (cmp_opp (cmp := row_cmp child_sort) y x) as Ho. destruct (cmp x y), (cmp y x); done.
  - assert (StronglySorted (node_le child_sort) (merge_sort (node_le child_sort) ns)) as H.
    { apply Sorted_StronglySorted; [|apply Sorted_merge_sort].
      - intros a b c. unfold node_le. apply (cmp_ngt_trans (row_cmp child_sort)).
      - intros a b. unfold node_le. pose proof (cmp_opp (cmp := row_cmp child_sort) (node_row a) (node_row b)) as Ho.
        destruct (cmp (node_row a) (node_row b)); rewrite Ho; cbn; auto. }
    clear Hperm. induction H as [|n ns' _ IH Hn]; cbn [map]; constructor; [done|]. by apply Forall_map.
  - induction Hs as [|x l' Hs IH Hx]; [constructor|]. clear -Hs Hx. revert x Hx.
    induction Hs as [|y l' Hs IH Hy]; intros x Hx.
    + by constructor; [constructor|].
    + constructor; [by apply IH|]. eapply Forall_impl; [exact Hx|]. intros z Hz. cbn in *. by rewrite Hz.
Qed.

Lemma sl_delete_insert r l : sl_find cmp r l = None → sl_delete cmp r (sl_insert cmp r l) = l.
Proof.
  induction l as [|x l IH]; cbn [sl_insert sl_delete sl_find]; [by rewrite cmp_refl|].
  destruct (cmp x r) eqn:E; simpl; intros Hf; [done| |].
  - by rewrite E, IH.
  - by rewrite cmp_refl.
Qed.

Lemma sl_insert_self r l : r ∈ sl_insert cmp r l.
Proof. induction l as [|x l IH]; cbn [sl_insert]; [by left|]. destruct (cmp x r); [by left|by right|by left]. Qed.

(** The splice of the rows after a change gives the rows before it. *)
Lemma splice_undoes X base overlay :
  ssorted cmp X → change_valid cmp overlay X → map node_row base = apply_source_change cmp overlay X →
  pk_tells X → pk_tells (apply_source_change cmp overlay X) →
  ∃ ns, splice_join_overlay_pre child_pk child_sort base overlay = Some ns ∧ map node_row ns = X.
Proof.
  intros Hs Hv Hb H0 H1. unfold splice_join_overlay_pre.
  assert (∀ n r, n ∈ base → r ∈ apply_source_change cmp overlay X →
    same_pk (node_row n) r child_pk = Some (is_eq (cmp (node_row n) r))) as Hin.
  { intros n r Hn Hr. apply H1; [|done]. rewrite <-Hb. by apply list_elem_of_fmap_2. }
  assert (∀ old ns, old ∈ X → map node_row ns = sl_delete cmp old X →
    ∃ ns', readd_if_absent child_pk ns old = Some ns' ∧ map node_row (sort_nodes child_sort ns') = X) as Hgone.
  { intros old ns Ho Hns. exists (ns ++ [leaf_node old]). split.
    - apply readd_rows. intros n Hn. assert (node_row n ∈ sl_delete cmp old X) as Hx by (rewrite <-Hns; by apply list_elem_of_fmap_2).
      apply (sl_delete_iff cmp) in Hx as [Hx Hne]; [|done]. rewrite H0 by done. by destruct (cmp (node_row n) old).
    - apply sort_rows; [done|]. rewrite map_app, Hns. cbn. rewrite Permutation_app_comm. by apply (sl_delete_perm cmp). }
  destruct overlay as [r|r|r old]; cbn [apply_source_change change_valid] in *.
  - destruct (suppress_rows base r) as (ns & -> & Hns).
    { intros n Hn. apply Hin; [done|]. by apply sl_insert_self. }
    cbn [mbind option_bind]. eexists. split; [done|]. apply sort_rows; [done|]. by rewrite Hns, Hb, sl_delete_insert.
  - destruct (Hgone r base) as (ns & -> & Hns); [done..|]. by eexists.
  - destruct Hv as [Ho Hf]. destruct (suppress_rows base r) as (ns & -> & Hns).
    { intros n Hn. apply Hin; [done|]. by apply sl_insert_self. }
    cbn [mbind option_bind]. rewrite Hb, sl_delete_insert in Hns by done.
    destruct (Hgone old ns) as (ns' & -> & Hns'); [done..|]. by eexists.
Qed.
End splice.

(** ** The tree a join shows *)

Section join.
Context {St : Type} `{!Storage St}.
Context (parent_fetch child_fetch : FetchRequest → list node) (below : child_chain).
Context (parent_primary_key : list nat) (parent_sort : Sort) (child_pk : list nat) (child_sort : Sort).
Context (validate : bool) (deadline : nat → bool) (j : JoinOp).
#[local] Abbreviation pcmp := (row_cmp parent_sort).
#[local] Abbreviation ccmp := (row_cmp child_sort).
#[local] Abbreviation state := (JoinSt St).
#[local] Abbreviation pkey := (jn_parent_key j).
#[local] Abbreviation ckey := (jn_child_key j).
#[local] Abbreviation slot := (jn_rel_slot j).

(** The children of a parent row among [C]. *)
Definition children (C : list row) (p : row) : list row := keep (λ c, joins p pkey c ckey) C.

(** What a consumer holds: a row with its children, per parent. *)
Definition shown_tree := list (row * list row).
Definition tree_of (f : row → list row) (P : list row) : shown_tree := map (λ p, (p, f p)) P.
Definition tree_cmp (a b : row * list row) : comparison := pcmp a.1 b.1.

(** The rows of a relationship of a node. *)
Definition slot_rows (n : node) : list row :=
  let 'Node _ rels := n in
  rels ≫= λ r : nat * (unit → list node), if r.1 =? slot then map node_row (r.2 tt) else [].

Definition entry_of (n : node) : row * list row := (node_row n, slot_rows n).

(** A consumer applies a change of the join to its tree. *)
Definition show (T : shown_tree) (ch : change) : shown_tree :=
  match ch with
  | Add n => sl_insert tree_cmp (entry_of n) T
  | Remove n => sl_delete tree_cmp (entry_of n) T
  | Edit n old => sl_insert tree_cmp (entry_of n) (sl_delete tree_cmp (entry_of old) T)
  | Child n rel sub =>
      if rel =? slot then
        map (λ e : row * list row,
          if is_eq (pcmp e.1 (node_row n))
          then (e.1, match for_child_change sub with Some sc => apply_source_change ccmp sc e.2 | None => e.2 end)
          else e) T
      else T
  end.

(** What a fetch of all parents shows. *)
Definition join_reads (s : state) : option shown_tree :=
  ns ← join_fetch parent_fetch child_fetch parent_sort child_pk child_sort j s fetch_all; Some (map entry_of ns).

#[local] Abbreviation drained := (@child_rel St child_fetch parent_sort child_pk child_sort j).
#[local] Abbreviation process := (@process_parent_node St child_fetch parent_sort child_pk child_sort j).
#[local] Abbreviation pushed :=
  (@join_push St _ parent_fetch child_fetch below parent_primary_key parent_sort child_pk child_sort validate deadline j).

(** ** Wiring *)

Context (out : OutEdge) (Hout : jn_output j = Some out).
Context (Hkeys : length pkey = length ckey).

(** The child shows [C]. *)
Context (C : list row).
Context (Hchild : ∀ c, map node_row (child_fetch (fetch_with_constraint c)) = keep (λ r, cmatch r c) C).

Definition has_key (r : row) (key : list nat) : Prop := Forall (λ f, f < length r) key.

Lemma base_rows p c :
  has_key p pkey → build_join_constraint p pkey ckey = Some c →
  map node_row (match c with Some c => child_fetch (fetch_with_constraint c) | None => [] end) = children C p.
Proof.
  intros Hp Hc. destruct (join_constraint p pkey ckey Hkeys Hp) as (oc & Hoc & H). rewrite Hc in Hoc. injection Hoc as <-.
  unfold children. destruct c as [c|].
  - rewrite Hchild. apply keep_ext. intros r _. apply H.
  - rewrite keep_none; [done|]. apply Forall_forall. intros r _. symmetry. apply H.
Qed.

Lemma rel_at_rest s p :
  js_overlay s = None ∨ js_position s = None → has_key p pkey →
  ∃ ns, drained s p = Some ns ∧ map node_row ns = children C p.
Proof.
  intros Hs Hp. destruct (join_constraint p pkey ckey Hkeys Hp) as (oc & Hoc & _).
  unfold child_rel. rewrite Hoc. cbn [mbind option_bind].
  assert (join_overlay_for parent_sort j s p = Some None) as ->.
  { unfold join_overlay_for. by destruct Hs as [->| ->]; [|destruct (js_overlay s)]. }
  eexists. split; [done|]. by apply base_rows.
Qed.

(** A node whose relationship slot is still free. *)
Definition fresh_slot (n : node) : Prop := let 'Node _ rels := n in slot ∉ rels.*1.

Lemma entry_appended n cs :
  fresh_slot n →
  entry_of (let 'Node r rels := n in Node r (rels ++ [(slot, λ _, cs)])) = (node_row n, map node_row cs).
Proof.
  destruct n as [r rels]. cbn [node_row fresh_slot]. intros Hf. unfold entry_of. cbn [node_row slot_rows]. f_equal.
  rewrite bind_app. cbn. rewrite Nat.eqb_refl, app_nil_r.
  assert ((rels ≫= λ r : nat * (unit → list node), if r.1 =? slot then map node_row (r.2 tt) else []) = []) as ->; [|done].
  induction rels as [|[s' th] rels IH]; [done|]. cbn in *. rewrite not_elem_of_cons in Hf. destruct Hf as [Hne Hf].
  destruct (Nat.eqb_spec s' slot); [done|]. cbn. by apply IH.
Qed.

Lemma process_entry s n ns :
  fresh_slot n → drained s (node_row n) = Some ns →
  ∃ pn, process s n = Some pn ∧ entry_of pn = (node_row n, map node_row ns) ∧ node_row pn = node_row n.
Proof.
  intros Hf Hr. unfold process_parent_node. rewrite Hr. cbn [mbind option_bind]. pose proof (entry_appended n ns Hf) as He.
  destruct n as [r rels]. by eexists.
Qed.

(** ** A parent change *)

Lemma tree_insert C' r P : tree_of (children C') (sl_insert pcmp r P) = sl_insert tree_cmp (r, children C' r) (tree_of (children C') P).
Proof.
  induction P as [|x P IH]; [done|]. unfold tree_of in *. cbn [sl_insert map]. unfold tree_cmp at 1. cbn [fst].
  destruct (pcmp x r); cbn [map]; [done|by rewrite IH|done].
Qed.

Lemma tree_delete C' r v P : tree_of (children C') (sl_delete pcmp r P) = sl_delete tree_cmp (r, v) (tree_of (children C') P).
Proof.
  induction P as [|x P IH]; [done|]. unfold tree_of in *. cbn [sl_delete map]. unfold tree_cmp at 1. cbn [fst].
  destruct (pcmp x r); cbn [map]; [done|by rewrite IH|by rewrite IH].
Qed.

(** The nodes of a parent change have their keys, and the slot free. *)
Definition parent_ok (ch : change) : Prop :=
  let node_ok n := has_key (node_row n) pkey ∧ fresh_slot n in
  match ch with
  | Add n | Remove n => node_ok n
  | Edit n old => node_ok n ∧ node_ok old
  | Child n rel sub => node_ok n ∧ rel ≠ slot
  end.

(** The partition of the row is evicted below the join when its key is the primary
    key of the parent. *)
Definition evicted (s : state) (ch : change) (s' : state) : Prop :=
  match ch with
  | Remove n =>
      if bool_decide (parent_primary_key = pkey) then
        match build_join_constraint (node_row n) pkey ckey with
        | Some (Some c) => ∃ stores, evict_child_partitions below c (js_stores s) = Some stores ∧ s' = with_stores s stores
        | _ => s' = s
        end
      else s' = s
  | _ => s' = s
  end.

Lemma process_at_rest s n :
  js_overlay s = None → has_key (node_row n) pkey ∧ fresh_slot n →
  ∃ pn, process s n = Some pn ∧ entry_of pn = (node_row n, children C (node_row n)) ∧ node_row pn = node_row n.
Proof.
  intros Hs [Hk Hf]. destruct (rel_at_rest s (node_row n)) as (ns & Hr & Hc); [by left|done|].
  destruct (process_entry s n ns Hf Hr) as (pn & Hp & He & Hrow). exists pn. by rewrite <-Hc.
Qed.

Lemma parent_push s ch P sc :
  js_overlay s = None → parent_ok ch →
  key_edit_ok validate ch pkey = Some true →
  match ch with
  | Remove n => bool_decide (parent_primary_key = pkey) = true → ∀ c, build_join_constraint (node_row n) pkey ckey = Some (Some c) →
      is_Some (evict_child_partitions below c (js_stores s))
  | _ => True
  end →
  for_child_change ch = sc →
  ∃ s' ch', pushed s ch JoinParent = Some (s', [(out, ch', s)]) ∧ change_type_of ch' = change_type_of ch ∧
    show (tree_of (children C) P) ch' = tree_of (children C) (match sc with Some sc => apply_source_change pcmp sc P | None => P end) ∧
    evicted s ch s'.
Proof.
  intros Hs Hok Hkey Hev <-. unfold join_push. rewrite Hout. cbn [mbind option_bind].
  destruct ch as [n|n|n old|n rel sub]; cbn [parent_ok] in Hok.
  - destruct (process_at_rest s n Hs Hok) as (pn & -> & He & _). cbn [mbind option_bind].
    exists s, (Add pn). split_and!; [done|done| |done]. cbn [show for_child_change apply_source_change].
    by rewrite He, tree_insert.
  - destruct (process_at_rest s n Hs Hok) as (pn & -> & He & _). cbn [mbind option_bind].
    assert (∃ s', (if bool_decide (parent_primary_key = pkey) then
        c ← build_join_constraint (node_row n) pkey ckey;
        match c with
        | Some c => stores ← evict_child_partitions below c (js_stores s); Some (with_stores s stores, [(out, Remove pn, s)])
        | None => Some (s, [(out, Remove pn, s)])
        end else Some (s, [(out, Remove pn, s)])) = Some (s', [(out, Remove pn, s)]) ∧ evicted s (Remove n) s') as (s' & Hr & Hes).
    { unfold evicted. destruct (bool_decide _); [|by exists s].
      destruct (join_constraint (node_row n) pkey ckey Hkeys (proj1 Hok)) as (oc & Hoc & _). rewrite Hoc in *. cbn [mbind option_bind].
      destruct oc as [c|]; [|by exists s]. destruct (Hev eq_refl c eq_refl) as [stores Hst]. rewrite Hst. cbn [mbind option_bind].
      eexists. split; [done|]. by eexists. }
    exists s', (Remove pn). split_and!; [done|done| |done]. cbn [show for_child_change apply_source_change].
    by rewrite He, (tree_delete C (node_row n) (children C (node_row n))).
  - rewrite Hkey. cbn [mbind option_bind].
    destruct (process_at_rest s n Hs (proj1 Hok)) as (pn & -> & He & _), (process_at_rest s old Hs (proj2 Hok)) as (po & -> & Heo & _).
    cbn [mbind option_bind]. exists s, (Edit pn po). split_and!; [done|done| |done].
    cbn [show for_child_change apply_source_change].
    by rewrite He, Heo, tree_insert, (tree_delete C (node_row old) (children C (node_row old))).
  - destruct (process_at_rest s n Hs (proj1 Hok)) as (pn & -> & He & _). cbn [mbind option_bind].
    exists s, (Child pn rel sub). split_and!; [done|done| |done]. cbn [show for_child_change].
    by destruct (Nat.eqb_spec rel slot); [destruct (proj2 Hok)|].
Qed.

(** ** A child change *)

Section child_change.
Context (C0 : list row) (P : list node) (ch : change).
Context (HC : C = match for_child_change ch with Some sc => apply_source_change ccmp sc C0 | None => C0 end).
Context (Hsorted : ssorted ccmp C0).
Context (Hvalid : match for_child_change ch with Some sc => change_valid ccmp sc C0 | None => True end).
Context (Hpk0 : pk_tells child_pk child_sort C0) (Hpk : pk_tells child_pk child_sort C).
Context (HP : ssorted pcmp (map node_row P)).
Context (Hparent : ∀ c, parent_fetch (fetch_with_constraint c) = List.filter (λ n, cmatch (node_row n) c) P).
Context (Hall : parent_fetch fetch_all = P).
#[local] Abbreviation key_row := (primary_row ch).
Context (Hnodes : ∀ n, n ∈ P → has_key (node_row n) pkey ∧ fresh_slot n ∧ is_Some (is_join_match (node_row n) pkey key_row ckey)).
Context (Hkr : has_key key_row ckey).
Context (Hkept : match ch with Edit n old => row_equals_for_compound_key (node_row old) (node_row n) ckey = Some true | _ => True end).
Context (Hdeadline : ∀ i, deadline i = false).
Context (s : state) (Hidle : js_overlay s = None ∧ js_position s = None).

#[local] Abbreviation hit p := (joins p pkey key_row ckey).
#[local] Abbreviation matching := (List.filter (λ n, hit (node_row n)) P).

Definition applied (l : list row) : list row :=
  match for_child_change ch with Some sc => apply_source_change ccmp sc l | None => l end.

(** A change of a child is one of its parents' children, and of nothing else. *)
Lemma children_change p :
  children C p = (if hit p then applied (children C0 p) else children C0 p) ∧
  ssorted ccmp (children C0 p) ∧
  (hit p = true → match for_child_change ch with Some sc => change_valid ccmp sc (children C0 p) | None => True end).
Proof.
  unfold applied, children. rewrite HC. split_and!; [|by apply keep_sorted|].
  - destruct ch as [n|n|n old|n r sub]; cbn [for_child_change primary_row] in *; [| | |by destruct (joins _ _ _ _)];
      rewrite (filter_push_keep ccmp) by done; cbn [filter_push].
    + by destruct (joins _ _ _ _).
    + by destruct (joins _ _ _ _).
    + assert (joins p pkey (node_row old) ckey = joins p pkey (node_row n) ckey) as -> by (unfold joins; by erewrite is_join_match_kept).
      by destruct (joins _ _ _ _).
  - intros Hh. destruct ch as [n|n|n old|n r sub]; cbn [for_child_change primary_row change_valid] in *; [| | |done].
    + apply (sl_find_None ccmp). intros x [_ Hx]%list_elem_of_filter. by apply (sl_find_None ccmp) with C0.
    + apply list_elem_of_filter. split; [by rewrite Hh|done].
    + destruct Hvalid as [Ho Hf].
      assert (joins p pkey (node_row old) ckey = true) as Hjo by (rewrite <-Hh; unfold joins; by erewrite is_join_match_kept).
      split; [apply list_elem_of_filter; split; [by rewrite Hjo|done]|].
      apply (sl_find_None ccmp). intros x Hx. apply (sl_delete_iff ccmp) in Hx as [[_ Hx]%list_elem_of_filter Hne]; [|by apply keep_sorted].
      apply (sl_find_None ccmp) with (sl_delete ccmp (node_row old) C0); [done|]. by apply (sl_delete_iff ccmp).
Qed.

#[local] Abbreviation in_flight pos := (with_position (with_overlay s (for_child_change ch)) (Some pos)).

(** A relationship read while the change is at the parent [pos]. *)
Lemma rel_during pos p :
  has_key p pkey → is_Some (is_join_match p pkey key_row ckey) →
  ∃ ns, drained (in_flight pos) p = Some ns ∧ map node_row ns = children (if hit p && is_gt (pcmp p pos) then C0 else C) p.
Proof.
  intros Hp [m Hm]. pose proof (children_change p) as Hcc. unfold applied in Hcc.
  pose proof (λ q, rel_at_rest (in_flight pos) q) as Hrest. destruct (for_child_change ch) as [sc|] eqn:Hsc.
  2: { destruct (Hrest p) as (ns & Hr & Hc); [by left|done|]. exists ns.
       split; [done|]. rewrite Hc, HC. by destruct (_ && _). }
  assert (source_row sc = key_row) as Hrow by (destruct ch; cbn in Hsc; congruence || (injection Hsc as <-; done)).
  destruct (join_constraint p pkey ckey Hkeys Hp) as (oc & Hoc & _).
  unfold child_rel. rewrite Hoc. cbn [mbind option_bind].
  unfold join_overlay_for. cbn [js_overlay js_position with_position with_overlay]. rewrite Hrow, Hm. cbn [mbind option_bind].
  assert (hit p = m) as -> by (unfold joins; rewrite Hm; by destruct m).
  destruct (m && is_gt (pcmp p pos)) eqn:Hg; [|eexists; split; [done|]; by apply base_rows].
  apply andb_true_iff in Hg as [-> _].
  destruct Hcc as (Hch & Hso & Hva).
  assert (hit p = true) as Hh by (unfold joins; rewrite Hm; done). rewrite Hh in Hch.
  apply splice_undoes; [done|by apply Hva| | |].
  - rewrite <-Hch. by apply base_rows.
  - eapply pk_tells_sub; [|exact Hpk0]. intros x [_ Hx]%list_elem_of_filter. done.
  - rewrite <-Hch. eapply pk_tells_sub; [|exact Hpk]. intros x [_ Hx]%list_elem_of_filter. done.
Qed.

(** What a fetch of all parents shows meanwhile. *)
Lemma reads_entries st f :
  (∀ n, n ∈ P → ∃ ns, drained st (node_row n) = Some ns ∧ map node_row ns = f (node_row n)) →
  join_reads st = Some (tree_of f (map node_row P)).
Proof.
  intros H. unfold join_reads, join_fetch. rewrite Hall.
  assert (∃ pns, mapM (process st) P = Some pns ∧ map entry_of pns = tree_of f (map node_row P)) as (pns & -> & He);
    [|cbn; by rewrite He].
  clear -H Hnodes. induction P as [|n ns IH]; [by exists []|].
  destruct (H n) as (cs & Hr & Hc); [by left|]. destruct (Hnodes n) as (_ & Hf & _); [by left|].
  destruct (process_entry st n cs Hf Hr) as (pn & Hp & He & _).
  destruct IH as (pns & Hm & Hpns); [intros n' Hn'; apply Hnodes; by right|intros n' Hn'; apply H; by right|].
  exists (pn :: pns). cbn [mapM]. rewrite Hp. cbn [mbind option_bind]. rewrite Hm. split; [done|].
  unfold tree_of in *. cbn [map]. by rewrite He, Hc, Hpns.
Qed.

Lemma reads_during pos :
  join_reads (in_flight pos) =
    Some (tree_of (λ p, children (if hit p && is_gt (pcmp p pos) then C0 else C) p) (map node_row P)).
Proof. apply reads_entries. intros n Hn. destruct (Hnodes n Hn) as (Hk & _ & Hm). by apply rel_during. Qed.

(** The fan-out: a change for every matching parent, in order, each pushed with the
    join at that parent. *)
Definition delivered (m : node) (e : OutEdge * change * state) : Prop :=
  ∃ pn, e = (out, Child pn slot (rebuild_change (materialize_change_edit_old_row_only ch)), in_flight (node_row m)) ∧
    node_row pn = node_row m.

Lemma join_fan_out_spec i ms pos :
  (∀ m, m ∈ ms → m ∈ P) →
  ∃ log pos', join_fan_out child_fetch parent_sort child_pk child_sort deadline j out
      (materialize_change_edit_old_row_only ch) i ms (with_position (with_overlay s (for_child_change ch)) pos) =
    Some (with_position (with_overlay s (for_child_change ch)) pos', log) ∧ Forall2 delivered ms log.
Proof.
  revert i pos. induction ms as [|m ms IH]; intros i pos Hin; cbn [join_fan_out]; [by exists [], pos|].
  rewrite Hdeadline. destruct (Hnodes m) as (Hk & Hf & Hm); [apply Hin; by left|].
  destruct (rel_during (node_row m) (node_row m) Hk Hm) as (ns & Hr & _).
  destruct (process_entry (in_flight (node_row m)) m ns Hf Hr) as (pn & Hp & _ & Hrow).
  change (with_position (with_position ?x _) ?y) with (with_position x y). rewrite Hp. cbn [mbind option_bind].
  destruct (IH (S i) (Some (node_row m))) as (log & pos' & -> & Hd); [intros x Hx; apply Hin; by right|].
  cbn [mbind option_bind]. eexists _, pos'. split; [done|]. constructor; [by exists pn|done].
Qed.

(** ** The consumer's tree *)

#[local] Abbreviation changes log := (map (λ e : OutEdge * change * state, e.1.2) log).

Lemma rebuilt_row_change :
  for_child_change (rebuild_change (materialize_change_edit_old_row_only ch)) = for_child_change ch.
Proof. by destruct ch as [[r l]|[r l]|[r l] [r' l']|n r sub]. Qed.

Definition deliver (p : row) (l : list row) (m : node) : list row := if is_eq (pcmp p (node_row m)) then applied l else l.

(** A change of [ch] under the parent [m]. *)
Definition tells (m : node) (c : change) : Prop :=
  ∃ pn sub, c = Child pn slot sub ∧ node_row pn = node_row m ∧ for_child_change sub = for_child_change ch.

Lemma show_told ms cs f rows :
  Forall2 tells ms cs → foldl show (tree_of f rows) cs = tree_of (λ p, foldl (deliver p) (f p) ms) rows.
Proof.
  intros H. revert f. induction H as [|m c ms cs (pn & sub & -> & Hrow & Hsub) _ IH]; intros f; [done|]. cbn [foldl show].
  rewrite Nat.eqb_refl, Hsub, Hrow.
  assert (map (λ e : row * list row, if is_eq (pcmp e.1 (node_row m))
      then (e.1, match for_child_change ch with Some sc => apply_source_change ccmp sc e.2 | None => e.2 end) else e)
    (tree_of f rows) = tree_of (λ p, deliver p (f p) m) rows) as ->; [|by rewrite IH].
  unfold tree_of. rewrite map_map. apply map_ext. intros p. cbn [fst snd]. unfold deliver, applied. by destruct (is_eq _).
Qed.

Lemma show_delivered ms log f rows :
  Forall2 delivered ms log →
  foldl show (tree_of f rows) (changes log) = tree_of (λ p, foldl (deliver p) (f p) ms) rows.
Proof.
  intros H. apply show_told. induction H as [|m e ms log (pn & -> & Hrow) _ IH]; cbn [map fst snd]; constructor; [|done].
  eexists pn, _. split_and!; [done|done|apply rebuilt_row_change].
Qed.

Lemma deliver_once p l ms :
  ssorted pcmp (map node_row ms) →
  foldl (deliver p) l ms = if existsb (λ m, is_eq (pcmp p (node_row m))) ms then applied l else l.
Proof.
  revert l. induction ms as [|m ms IH]; intros l Hs; [done|]. cbn [map] in Hs. apply StronglySorted_inv in Hs as [Hs Hm].
  cbn [foldl existsb]. rewrite IH by done. unfold deliver. destruct (is_eq (pcmp p (node_row m))) eqn:E; cbn [orb]; [|done].
  destruct (existsb _ ms) eqn:Ex; [|done]. exfalso. apply existsb_exists in Ex as (m' & Hin & He).
  apply is_eq_true in E, He. rewrite Forall_forall in Hm. specialize (Hm (node_row m')). rewrite <-(cmp_eq_l p) in Hm by done.
  rewrite He in Hm. by discriminate Hm; apply list_elem_of_fmap_2, list_elem_of_In.
Qed.

Lemma matching_sorted : ssorted pcmp (map node_row matching).
Proof.
  assert (map node_row matching = keep (λ p, hit p) (map node_row P)) as ->; [|by apply keep_sorted].
  clear. induction P as [|n ns IH]; [done|]. cbn [List.filter map]. rewrite keep_cons. destruct (joins _ _ _ _); cbn [map]; by rewrite IH.
Qed.

(** Up to a parent, the changes so far reached exactly the matching parents that do
    not come after it. *)
Lemma reached_before ms1 m ms2 n :
  matching = ms1 ++ m :: ms2 → n ∈ P →
  existsb (λ m, is_eq (pcmp (node_row n) (node_row m))) (ms1 ++ [m]) =
    hit (node_row n) && negb (is_gt (pcmp (node_row n) (node_row m))).
Proof.
  intros Hm Hn. pose proof matching_sorted as Hs. rewrite Hm, map_app in Hs. apply StronglySorted_app in Hs as (Hs12 & _ & Hs2).
  cbn [map] in *. apply StronglySorted_inv in Hs2 as [_ Hs2]. rewrite Forall_forall in Hs2.
  assert (∀ x, x ∈ ms1 ++ [m] → pcmp (node_row x) (node_row m) ≠ Gt) as Hle.
  { intros x [Hx|Hx]%elem_of_app.
    - rewrite (Hs12 (node_row x) (node_row m)); [done|by apply list_elem_of_fmap_2|by left].
    - apply list_elem_of_singleton in Hx as ->. by rewrite cmp_refl. }
  apply eq_bool_prop_intro. rewrite !Is_true_true, andb_true_iff, negb_true_iff. split.
  - intros (x & Hx%list_elem_of_In & He)%existsb_exists. apply is_eq_true in He.
    assert (x ∈ matching) as Hxm by (rewrite Hm; set_solver). apply list_elem_of_In, filter_In in Hxm as [Hxp%list_elem_of_In Hh].
    assert (node_row n = node_row x) as ->.
    { by apply (ssorted_tie pcmp (map node_row P)); [|apply list_elem_of_fmap_2..|]. }
    split; [done|]. specialize (Hle x Hx). by destruct (pcmp _ _).
  - intros [Hh Hg]. assert (n ∈ matching) as Hnm by (apply list_elem_of_In, filter_In; split; [by apply list_elem_of_In|done]).
    apply existsb_exists. exists n. split; [|by rewrite cmp_refl]. apply list_elem_of_In. rewrite Hm in Hnm.
    apply elem_of_app in Hnm as [Hnm|[->|Hnm]%elem_of_cons]; [set_solver..|]. exfalso.
    specialize (Hs2 (node_row n) ltac:(by apply list_elem_of_fmap_2)). apply (cmp_lt_gt pcmp) in Hs2. by rewrite Hs2 in Hg.
Qed.

Lemma reached_all n : n ∈ P → existsb (λ m, is_eq (pcmp (node_row n) (node_row m))) matching = hit (node_row n).
Proof.
  intros Hn. apply eq_bool_prop_intro. rewrite !Is_true_true. split.
  - intros (x & Hx & He)%existsb_exists. apply is_eq_true in He. apply filter_In in Hx as [Hxp%list_elem_of_In Hh].
    rewrite (ssorted_tie pcmp (map node_row P) (node_row n) (node_row x)); [done|done|by apply list_elem_of_fmap_2..|done].
  - intros Hh. apply existsb_exists. exists n. split; [apply filter_In; split; [by apply list_elem_of_In|done]|by rewrite cmp_refl].
Qed.

Lemma tree_ext f g : (∀ n, n ∈ P → f (node_row n) = g (node_row n)) → tree_of f (map node_row P) = tree_of g (map node_row P).
Proof.
  intros H. unfold tree_of. rewrite !map_map. apply map_ext_in. intros n Hn%list_elem_of_In. by rewrite H.
Qed.

Lemma matching_in m : m ∈ matching → m ∈ P.
Proof. intros Hm%list_elem_of_In. apply filter_In in Hm as [Hm _]. by apply list_elem_of_In. Qed.

(** A deadline that passes at the [d]-th poll ends the fan-out there. *)
Lemma fan_out_deadline d i ms pos :
  (∀ m, m ∈ ms → m ∈ P) → d < length ms → (∀ k, k < d → deadline (i + k) = false) → deadline (i + d) = true →
  ∃ log pos', join_fan_out child_fetch parent_sort child_pk child_sort deadline j out
      (materialize_change_edit_old_row_only ch) i ms (with_position (with_overlay s (for_child_change ch)) pos) =
    Some (join_park (with_position (with_overlay s (for_child_change ch)) pos') join_deadline_error, log) ∧
    Forall2 delivered (take d ms) log.
Proof.
  revert i d pos. induction ms as [|m ms IH]; intros i d pos Hin Hd Hno Hyes; [cbn in Hd; lia|]. cbn [join_fan_out].
  destruct d as [|d].
  { rewrite Nat.add_0_r in Hyes. rewrite Hyes. by exists [], pos. }
  pose proof (Hno 0 ltac:(lia)) as Hi. rewrite Nat.add_0_r in Hi. rewrite Hi.
  destruct (Hnodes m) as (Hk & Hf & Hm); [apply Hin; by left|].
  destruct (rel_during (node_row m) (node_row m) Hk Hm) as (ns & Hr & _).
  destruct (process_entry (in_flight (node_row m)) m ns Hf Hr) as (pn & Hp & _ & Hrow).
  change (with_position (with_position ?x _) ?y) with (with_position x y). rewrite Hp. cbn [mbind option_bind].
  destruct (IH (S i) d (Some (node_row m))) as (log & pos' & -> & Hdel); [intros x Hx; apply Hin; by right|cbn in Hd; lia| |by rewrite Nat.add_succ_comm|].
  { intros k Hk'. rewrite Nat.add_succ_comm. apply Hno. lia. }
  cbn [mbind option_bind]. eexists _, pos'. split; [done|]. cbn [take]. constructor; [by exists pn|done].
Qed.

Lemma parents_of_key oc :
  build_join_constraint key_row ckey pkey = Some oc →
  match oc with Some c => parent_fetch (fetch_with_constraint c) | None => [] end = matching.
Proof.
  intros Hc. destruct (join_constraint key_row ckey pkey (eq_sym Hkeys) Hkr) as (oc' & Hoc' & Hoc).
  rewrite Hc in Hoc'. injection Hoc' as <-.
  assert (∀ n, match oc with Some c => cmatch (node_row n) c | None => false end = hit (node_row n)) as Hhit
    by (intros n; by rewrite Hoc, joins_sym).
  destruct oc as [c|]; [rewrite Hparent; by apply List.filter_ext|].
  rewrite (List.filter_ext _ _ (λ n, eq_sym (Hhit n))). clear. by induction P.
Qed.

Lemma child_push :
  ∃ log, pushed s ch JoinChild = Some (s, log) ∧ Forall2 delivered matching log ∧
    (∀ k e, log !! k = Some e → join_reads e.2 =
       Some (foldl show (tree_of (children C0) (map node_row P)) (changes (take (S k) log)))) ∧
    foldl show (tree_of (children C0) (map node_row P)) (changes log) = tree_of (children C) (map node_row P).
Proof.
  unfold join_push. rewrite Hout. cbn [mbind option_bind].
  assert (key_edit_ok validate ch ckey = Some true) as ->.
  { destruct ch; try done. cbn [key_edit_ok]. by rewrite Hkept. }
  cbn [mbind option_bind]. unfold push_child_change. rewrite Hout. cbn [mbind option_bind].
  destruct (join_constraint key_row ckey pkey (eq_sym Hkeys) Hkr) as (oc & Hoc & _). rewrite Hoc. cbn [mbind option_bind].
  pose proof (parents_of_key oc Hoc) as Hms.
  assert (∃ log, match oc with
      | Some c =>
          '(s, log) ← join_fan_out child_fetch parent_sort child_pk child_sort deadline j out
            (materialize_change_edit_old_row_only ch) 0 (parent_fetch (fetch_with_constraint c))
            (with_overlay s (for_child_change ch));
          Some (clear_inprogress s, log)
      | None => Some (s, [])
      end = Some (s, log) ∧ Forall2 delivered matching log) as (log & Hp & Hd).
  { destruct oc as [c|]; [|exists []; by rewrite <-Hms]. rewrite Hms.
    destruct (join_fan_out_spec 0 matching (js_position s)) as (log & pos' & Hf & Hd); [apply matching_in|].
    exists log. split; [|done].
    assert (with_overlay s (for_child_change ch) = with_position (with_overlay s (for_child_change ch)) (js_position s)) as -> by done.
    rewrite Hf. cbn [mbind option_bind]. do 2 f_equal. clear -Hidle. destruct s as [o q e st]. by destruct Hidle as [[= ->] [= ->]]. }
  exists log. split_and!; [by destruct oc|done|..].
  - intros k e He. destruct (Forall2_lookup_r _ _ _ _ _ Hd He) as (m & Hm & pn & -> & Hrow). cbn [snd].
    rewrite reads_during. f_equal. rewrite (show_delivered (take (S k) matching)) by (by apply Forall2_take).
    apply tree_ext. intros n Hn. symmetry.
    assert (matching = take k matching ++ m :: drop (S k) matching) as Hsplit by (by rewrite take_drop_middle).
    assert (take (S k) matching = take k matching ++ [m]) as Htake by (by apply take_S_r).
    rewrite deliver_once, Htake, (reached_before _ _ _ n Hsplit Hn).
    2: { pose proof matching_sorted as Hs. rewrite <-(take_drop (S k) matching), map_app in Hs. by apply StronglySorted_app in Hs as (_ & ? & _). }
    destruct (children_change (node_row n)) as [Hch _]. destruct (joins _ _ _ _) eqn:Hh; cbn [andb]; [|by rewrite Hch].
    by destruct (is_gt _); cbn [negb].
  - rewrite (show_delivered matching) by done. apply tree_ext. intros n Hn.
    rewrite deliver_once, reached_all by (done || apply matching_sorted). symmetry. apply children_change.
Qed.

Lemma child_push_deadline d :
  d < length matching → (∀ k, k < d → deadline k = false) → deadline d = true →
  ∃ log, pushed s ch JoinChild = Some (join_park s join_deadline_error, log) ∧ Forall2 delivered (take d matching) log.
Proof.
  intros Hd Hno Hyes. unfold join_push. rewrite Hout. cbn [mbind option_bind].
  assert (key_edit_ok validate ch ckey = Some true) as ->.
  { destruct ch; try done. cbn [key_edit_ok]. by rewrite Hkept. }
  cbn [mbind option_bind]. unfold push_child_change. rewrite Hout. cbn [mbind option_bind].
  destruct (join_constraint key_row ckey pkey (eq_sym Hkeys) Hkr) as (oc & Hoc & _). rewrite Hoc. cbn [mbind option_bind].
  pose proof (parents_of_key oc Hoc) as Hms. destruct oc as [c|]; [|rewrite <-Hms in Hd; cbn in Hd; lia]. rewrite Hms.
  destruct (fan_out_deadline d 0 matching (js_position s)) as (log & pos' & Hf & Hdel); [apply matching_in|done..|].
  exists log. split; [|done].
  assert (with_overlay s (for_child_change ch) = with_position (with_overlay s (for_child_change ch)) (js_position s)) as -> by done.
  rewrite Hf. cbn [mbind option_bind]. do 2 f_equal. clear -Hidle. destruct s as [o q e st]. by destruct Hidle as [[= ->] [= ->]].
Qed.
End child_change.

(** A key edit is refused, on either side. *)
Lemma key_edit_refused s n old (port : Port) :
  validate = true →
  row_equals_for_compound_key (node_row old) (node_row n) (match port with JoinParent => pkey | _ => ckey end) = Some false →
  port ≠ Single →
  pushed s (Edit n old) port =
    Some (join_park s (ConsistencyViolation
      (match port with JoinParent => "parent edit changed the join key" | _ => "child edit changed the join key" end)%string), []).
Proof.
  intros Hv Hk Hp. unfold join_push. rewrite Hout. cbn [mbind option_bind key_edit_ok].
  destruct port; [done|..]; rewrite Hk; cbn [mbind option_bind]; by rewrite Hv.
Qed.
End join.

(** ** What a join promises *)

Section promises.
Context {St : Type} `{!Storage St}.
Context (parent_fetch child_fetch : FetchRequest → list node) (below : child_chain).
Context (parent_primary_key : list nat) (parent_sort : Sort) (child_pk : list nat) (child_sort : Sort).
Context (validate : bool) (deadline : nat → bool) (j : JoinOp).

(** The join is wired, and its child shows the rows [C]. *)
Record join_wired (out : OutEdge) (C : list row) : Prop := {
  jw_output : jn_output j = Some out;
  jw_keys : length (jn_parent_key j) = length (jn_child_key j);
  jw_child c : map node_row (child_fetch (fetch_with_constraint c)) = keep (λ r, cmatch r c) C
}.

(** A change [ch] of the child, which had the rows [C0] in the order of its schema, the
    one the splice sorts by; the parent has
    the nodes [P] in its order, their key columns comparable with the child's. *)
Record child_change_ready (C0 C : list row) (P : list node) (ch : change) : Prop := {
  cr_rows : C = match for_child_change ch with Some sc => apply_source_change (row_cmp child_sort) sc C0 | None => C0 end;
  cr_sorted : ssorted (row_cmp child_sort) C0;
  cr_valid : match for_child_change ch with Some sc => change_valid (row_cmp child_sort) sc C0 | None => True end;
  cr_pk0 : pk_tells child_pk child_sort C0;
  cr_pk : pk_tells child_pk child_sort C;
  cr_parents : ssorted (row_cmp parent_sort) (map node_row P);
  cr_parent c : parent_fetch (fetch_with_constraint c) = List.filter (λ n, cmatch (node_row n) c) P;
  cr_all : parent_fetch fetch_all = P;
  cr_nodes n : n ∈ P → has_key (node_row n) (jn_parent_key j) ∧ fresh_slot j n ∧
    is_Some (is_join_match (node_row n) (jn_parent_key j) (primary_row ch) (jn_child_key j));
  cr_key : has_key (primary_row ch) (jn_child_key j);
  cr_kept : match ch with
            | Edit n old => row_equals_for_compound_key (node_row old) (node_row n) (jn_child_key j) = Some true
            | _ => True
            end
}.

Definition idle (s : JoinSt St) : Prop := js_overlay s = None ∧ js_position s = None.

(** The parents the changed child has. *)
Definition hit_parents (P : list node) (ch : change) : list node :=
  List.filter (λ n, joins (node_row n) (jn_parent_key j) (primary_row ch) (jn_child_key j)) P.

#[local] Abbreviation pushed :=
  (@join_push St _ parent_fetch child_fetch below parent_primary_key parent_sort child_pk child_sort validate deadline j).
#[local] Abbreviation reads := (@join_reads St parent_fetch child_fetch parent_sort child_pk child_sort j).
#[local] Abbreviation shown := (show parent_sort child_sort j).
#[local] Abbreviation tree C P := (tree_of (children j C) P).
#[local] Abbreviation changes log := (map (λ e : OutEdge * change * JoinSt St, e.1.2) log).

(** [C26] A change of a child reaches every parent that has it, once and in order,
    and takes the consumer's tree of parents with their children from before the
    change to after it; and whenever the consumer fetches through the join in
    between, it reads exactly the tree it has been told so far: parents already
    delivered with the change, later ones without.  The join is idle again
    afterwards. *)
Theorem join_child_push_tracks (out : OutEdge) (C0 C : list row) (P : list node) (ch : change) (s : JoinSt St) :
  join_wired out C → child_change_ready C0 C P ch → (∀ i, deadline i = false) → idle s →
  ∃ log, pushed s ch JoinChild = Some (s, log) ∧
    Forall2 (λ m e, e.1.1 = out ∧ ∃ pn, node_row pn = node_row m ∧
      e.1.2 = Child pn (jn_rel_slot j) (rebuild_change (materialize_change_edit_old_row_only ch))) (hit_parents P ch) log ∧
    (∀ k e, log !! k = Some e → reads e.2 = Some (foldl shown (tree C0 (map node_row P)) (changes (take (S k) log)))) ∧
    foldl shown (tree C0 (map node_row P)) (changes log) = tree C (map node_row P).
Proof.
  intros [Ho Hk Hc] [] Hd Hi.
  destruct (child_push parent_fetch child_fetch below parent_primary_key parent_sort child_pk child_sort validate deadline j
    out Ho Hk C Hc C0 P ch) with (s := s) as (log & Hp & Hdel & Hr & Hf); try done.
  exists log. split_and!; [done| |done..]. eapply Forall2_impl; [exact Hdel|]. intros m e (pn & -> & Hrow). split; [done|]. by exists pn.
Qed.

(** A change of a parent goes on with the children attached, takes the
    consumer's tree to the tree of the changed parents, and leaves the join as it
    was, except that a parent that left takes its limited child partition with it
    when the join key is its primary key. *)
Theorem join_parent_push_maintains (out : OutEdge) (C P : list row) (ch : change) (s : JoinSt St) :
  join_wired out C → idle s → parent_ok j ch → key_edit_ok validate ch (jn_parent_key j) = Some true →
  match ch with
  | Remove n => ∀ c, build_join_constraint (node_row n) (jn_parent_key j) (jn_child_key j) = Some (Some c) →
      is_Some (evict_child_partitions below c (js_stores s))
  | _ => True
  end →
  ∃ s' ch', pushed s ch JoinParent = Some (s', [(out, ch', s)]) ∧ change_type_of ch' = change_type_of ch ∧
    shown (tree C P) ch' =
      tree C (match for_child_change ch with Some sc => apply_source_change (row_cmp parent_sort) sc P | None => P end) ∧
    evicted below parent_primary_key j s ch s'.
Proof.
  intros [Ho Hk Hc] [Hi _] Hok Hkey Hev.
  apply (parent_push parent_fetch child_fetch below parent_primary_key parent_sort child_pk child_sort validate deadline j
    out Ho Hk C Hc s ch P _ Hi Hok Hkey); [|done].
  by destruct ch.
Qed.

(** The errors of a join: an expired deadline ends the fan-out of a child
    change after the parents already delivered and parks its error, with nothing
    left in flight; an edit of the join key is refused, on either side, when changes
    are validated.  An error parked before stays. *)
Theorem join_push_errors (out : OutEdge) (C0 C : list row) (P : list node) (ch : change) (s : JoinSt St) (d : nat) :
  join_wired out C → child_change_ready C0 C P ch → idle s →
  d < length (hit_parents P ch) → (∀ k, k < d → deadline k = false) → deadline d = true →
  (∃ log, pushed s ch JoinChild = Some (join_park s join_deadline_error, log) ∧
    Forall2 (λ m e, ∃ pn, node_row pn = node_row m ∧
      e.1.2 = Child pn (jn_rel_slot j) (rebuild_change (materialize_change_edit_old_row_only ch))) (take d (hit_parents P ch)) log) ∧
  ∀ n old port, validate = true → port ≠ Single →
    row_equals_for_compound_key (node_row old) (node_row n)
      (match port with JoinParent => jn_parent_key j | _ => jn_child_key j end) = Some false →
    ∃ kind, pushed s (Edit n old) port = Some (join_park s (ConsistencyViolation kind), []).
Proof.
  intros [Ho Hk Hc] [] Hi Hd Hno Hyes. split.
  - destruct (child_push_deadline parent_fetch child_fetch below parent_primary_key parent_sort child_pk child_sort validate deadline j
      out Ho Hk C Hc C0 P ch) with (s := s) (d := d) as (log & Hp & Hdel); try done.
    exists log. split; [done|]. eapply Forall2_impl; [exact Hdel|]. intros m e (pn & -> & Hrow). by exists pn.
  - intros n old port Hv Hport Hrow. eexists. by eapply key_edit_refused.
Qed.
End promises.

(** ** Two tables *)

Definition ex_table (rows : list row) (req : FetchRequest) : list node :=
  map leaf_node (match req_constraint req with Some c => keep (λ r, cmatch r c) rows | None => rows end).

Lemma ex_table_rows rows c : map node_row (ex_table rows (fetch_with_constraint c)) = keep (λ r, cmatch r c) rows.
Proof. unfold ex_table. cbn. rewrite map_map. apply map_id. Qed.

Lemma ex_table_nodes rows c :
  ex_table rows (fetch_with_constraint c) = List.filter (λ n, cmatch (node_row n) c) (map leaf_node rows).
Proof.
  unfold ex_table. cbn. induction rows as [|r rows IH]; [done|]. rewrite keep_cons. cbn [map List.filter node_row leaf_node].
  destruct (cmatch r c); cbn [map]; by rewrite <-IH.
Qed.

Definition ex_jrow (id k : Z) : row := [Int (i64_of_Z id); Int (i64_of_Z k)].
Definition ex_join : JoinOp := MkJoin 0 1 [1] [1] 5 (Some (MkEdge 2 Single)).
Definition ex_jsort : Sort := [(0, true)].
Definition ex_parents : list row := [ex_jrow 1 7; ex_jrow 2 8; ex_jrow 3 7].
Definition ex_before : list row := [ex_jrow 10 7; ex_jrow 12 8].
Definition ex_after : list row := [ex_jrow 10 7; ex_jrow 11 7; ex_jrow 12 8].
Definition ex_child_add : change := Add (leaf_node (ex_jrow 11 7)).
Definition ex_idle : JoinSt MemoryStorage := MkJoinSt None None None ∅.

Lemma ex_pk_tells l : Forall (λ a, Forall (λ b, same_pk a b [0] = Some (is_eq (row_cmp ex_jsort a b))) l) l → pk_tells [0] ex_jsort l.
Proof. intros H a b Ha Hb. rewrite Forall_forall in H. specialize (H a Ha). rewrite Forall_forall in H. by apply H. Qed.

Lemma ex_wired : join_wired (ex_table ex_after) ex_join (MkEdge 2 Single) ex_after.
Proof. split; [reflexivity..|]. intros c. apply ex_table_rows. Qed.

Lemma ex_ready : child_change_ready (ex_table ex_parents) ex_jsort [0] ex_jsort ex_join ex_before ex_after
  (map leaf_node ex_parents) ex_child_add.
Proof.
  split.
  - reflexivity.
  - repeat constructor.
  - reflexivity.
  - apply ex_pk_tells. repeat constructor.
  - apply ex_pk_tells. repeat constructor.
  - repeat constructor.
  - intros c. apply ex_table_nodes.
  - reflexivity.
  - intros n Hn. apply list_elem_of_fmap in Hn as (r & -> & Hr). unfold ex_parents in Hr.
    rewrite !elem_of_cons, elem_of_nil in Hr. destruct Hr as [->|[->|[->|[]]]];
      (split; [repeat constructor|]; split; [apply not_elem_of_nil|by eexists]).
  - repeat constructor.
  - exact I.
Qed.

Lemma join_child_push_tracks_witness :
  ∃ log, join_push (ex_table ex_parents) (ex_table ex_after) ChOther [0] ex_jsort [0] ex_jsort true (λ _, false) ex_join ex_idle
      ex_child_add JoinChild = Some (ex_idle, log) ∧
    Forall2 (λ m e, e.1.1 = MkEdge 2 Single ∧ ∃ pn, node_row pn = node_row m ∧
      e.1.2 = Child pn 5 (rebuild_change (materialize_change_edit_old_row_only ex_child_add)))
      (hit_parents ex_join (map leaf_node ex_parents) ex_child_add) log ∧
    (∀ k e, log !! k = Some e →
       join_reads (ex_table ex_parents) (ex_table ex_after) ex_jsort [0] ex_jsort ex_join e.2 =
       Some (foldl (show ex_jsort ex_jsort ex_join) (tree_of (children ex_join ex_before) ex_parents)
         (map (λ e : OutEdge * change * JoinSt MemoryStorage, e.1.2) (take (S k) log)))) ∧
    foldl (show ex_jsort ex_jsort ex_join) (tree_of (children ex_join ex_before) ex_parents)
      (map (λ e : OutEdge * change * JoinSt MemoryStorage, e.1.2) log) = tree_of (children ex_join ex_after) ex_parents.
Proof.
  apply (join_child_push_tracks (ex_table ex_parents) (ex_table ex_after) ChOther [0] ex_jsort [0] ex_jsort true (λ _, false)
    ex_join (MkEdge 2 Single) ex_before ex_after (map leaf_node ex_parents) ex_child_add ex_idle).
  - exact ex_wired.
  - exact ex_ready.
  - intros i. reflexivity.
  - split; reflexivity.
Defined.

Lemma join_parent_push_maintains_witness :
  ∃ s' ch', join_push (ex_table ex_parents) (ex_table ex_after) ChOther [0] ex_jsort [0] ex_jsort true (λ _, false) ex_join ex_idle
      (Add (leaf_node (ex_jrow 4 8))) JoinParent = Some (s', [(MkEdge 2 Single, ch', ex_idle)]) ∧
    change_type_of ch' = TAdd ∧
    show ex_jsort ex_jsort ex_join (tree_of (children ex_join ex_after) ex_parents) ch' =
      tree_of (children ex_join ex_after) (apply_source_change (row_cmp ex_jsort) (SAdd (ex_jrow 4 8)) ex_parents) ∧
    evicted ChOther [0] ex_join ex_idle (Add (leaf_node (ex_jrow 4 8))) s'.
Proof.
  apply (join_parent_push_maintains (ex_table ex_parents) (ex_table ex_after) ChOther [0] ex_jsort [0] ex_jsort true (λ _, false)
    ex_join (MkEdge 2 Single) ex_after ex_parents (Add (leaf_node (ex_jrow 4 8))) ex_idle).
  - exact ex_wired.
  - split; reflexivity.
  - split; [repeat constructor|apply not_elem_of_nil].
  - reflexivity.
  - exact I.
Defined.

Lemma join_push_errors_witness :
  (∃ log, join_push (ex_table ex_parents) (ex_table ex_after) ChOther [0] ex_jsort [0] ex_jsort true (λ i, i =? 1) ex_join ex_idle
      ex_child_add JoinChild = Some (join_park ex_idle join_deadline_error, log) ∧
    Forall2 (λ m e, ∃ pn, node_row pn = node_row m ∧
      e.1.2 = Child pn 5 (rebuild_change (materialize_change_edit_old_row_only ex_child_add)))
      (take 1 (hit_parents ex_join (map leaf_node ex_parents) ex_child_add)) log) ∧
  ∀ n old port, true = true → port ≠ Single →
    row_equals_for_compound_key (node_row old) (node_row n) (match port with JoinParent => [1] | _ => [1] end) = Some false →
    ∃ kind, join_push (ex_table ex_parents) (ex_table ex_after) ChOther [0] ex_jsort [0] ex_jsort true (λ i, i =? 1) ex_join ex_idle
      (Edit n old) port = Some (join_park ex_idle (ConsistencyViolation kind), []).
Proof.
  apply (join_push_errors (ex_table ex_parents) (ex_table ex_after) ChOther [0] ex_jsort [0] ex_jsort true (λ i, i =? 1)
    ex_join (MkEdge 2 Single) ex_before ex_after (map leaf_node ex_parents) ex_child_add ex_idle 1).
  - exact ex_wired.
  - exact ex_ready.
  - split; reflexivity.
  - apply Nat.ltb_lt. reflexivity.
  - intros [|k] Hk; [reflexivity|lia].
  - reflexivity.
Defined.
