(* ===== verification/NodeMerge.v ===== *)
(** * The k-way merge of node streams ([rust/src/op/merge.rs])

    The heap of [Merge], over nodes: two heads with tied rows are ordered by the
    stream they come from, so an entry of the heap is a node with the index of its
    stream.  With a primary key to deduplicate by, a node whose row has the key of
    the row yielded last is dropped: of rows carried by several streams the first
    stream's node is kept. *)

From stdpp Require Import base list numbers option sorting sets.
From Stdlib Require Import ZArith Lia.
From S2P Require Import Prelude Values Rows Change Overlay Merge.

#[local] Open Scope nat_scope.

Definition node_cmp (sort : Sort) (reverse : bool) (a b : node * nat) : comparison :=
  then_cmp (compare_rows_rev sort reverse (node_row a.1) (node_row b.1)) (Nat.compare a.2 b.2).

(** The streams, every node with the index of its stream. *)
Definition indexed (ss : list (list node)) : list (list (node * nat)) :=
  imap (λ i s, map (λ n, (n, i)) s) ss.

(** [next] until it is exhausted: [dedup_pk] and [last_pk] of the iterator. *)
Fixpoint merge_nodes_drain (sort : Sort) (reverse : bool) (dedup_pk : option (list nat)) (fuel : nat) (last_pk : option row)
    (m : MergeSorted (node * nat)) : option (list node) :=
  match fuel with
  | O => None
  | S fuel =>
      '(r, m) ← merge_next (node_cmp sort reverse) m;
      match r with
      | None => Some []
      | Some (n, _) =>
          dup ← match dedup_pk, last_pk with
                | Some pk, Some last => same_pk (node_row n) last pk
                | _, _ => Some false
                end;
          if (dup : bool) then merge_nodes_drain sort reverse dedup_pk fuel last_pk m
          else
            l ← merge_nodes_drain sort reverse dedup_pk fuel
                  (match dedup_pk with Some _ => Some (node_row n) | None => last_pk end) m;
            Some (n :: l)
      end
  end.

Definition merge_node_streams (ss : list (list node)) (sort : Sort) (reverse : bool) (dedup_pk : option (list nat)) :
    option (list node) :=
  merge_nodes_drain sort reverse dedup_pk (S (length (concat ss))) None (MkMerge (indexed ss) [] false).

(** ** Order *)

#[export] Instance nat_compare_total : TotalCmp Nat.compare.
Proof.
  split; intros *; rewrite ?Nat.compare_refl, ?Nat.compare_eq_iff, ?Nat.compare_lt_iff; [done| |by intros ->|lia].
  apply Nat.compare_antisym.
Qed.

#[export] Instance node_cmp_total sort reverse : TotalCmp (node_cmp sort reverse).
Proof.
  apply total_cmp_then.
  - apply (total_cmp_key (λ a : node * nat, node_row a.1) (compare_rows_rev sort reverse)).
  - apply (total_cmp_key (λ a : node * nat, a.2) Nat.compare).
Qed.

Lemma indexed_elem ss n i : (n, i) ∈ concat (indexed ss) ↔ ∃ s, ss !! i = Some s ∧ n ∈ s.
Proof.
  unfold indexed. rewrite list_elem_of_In, in_concat. setoid_rewrite <-list_elem_of_In. split.
  - intros (l & Hl & Hin). apply elem_of_lookup_imap in Hl as (k & s & -> & Hs).
    apply list_elem_of_fmap in Hin as (n' & [= <- <-] & Hn). by exists s.
  - intros (s & Hs & Hn). exists (map (λ n, (n, i)) s). split; [|by apply (list_elem_of_fmap_2 (λ n, (n, i)))].
    apply elem_of_lookup_imap. by exists i, s.
Qed.

Lemma indexed_fst ss : map fst (concat (indexed ss)) = concat ss.
Proof.
  unfold indexed.
  assert (∀ f : nat → list node → list (node * nat), (∀ i s, map fst (f i s) = s) → map fst (concat (imap f ss)) = concat ss) as H.
  { clear. induction ss as [|s ss IH]; intros f Hf; [done|]. rewrite imap_cons. cbn [concat]. rewrite map_app, Hf, IH; [done|].
    intros i s'. apply Hf. }
  apply H. intros i s. rewrite map_map. apply map_id.
Qed.

(** ** Dropping the rows seen last *)

Fixpoint dedup_adjacent (dedup_pk : option (list nat)) (last_pk : option row) (ns : list node) : option (list node) :=
  match ns with
  | [] => Some []
  | n :: ns =>
      dup ← match dedup_pk, last_pk with
            | Some pk, Some last => same_pk (node_row n) last pk
            | _, _ => Some false
            end;
      if (dup : bool) then dedup_adjacent dedup_pk last_pk ns
      else
        l ← dedup_adjacent dedup_pk (match dedup_pk with Some _ => Some (node_row n) | None => last_pk end) ns;
        Some (n :: l)
  end.

Lemma merge_nodes_drain_dedup sort reverse pk fuel last m out :
  merge_drain (node_cmp sort reverse) fuel m = Some out →
  merge_nodes_drain sort reverse pk fuel last m = dedup_adjacent pk last (map fst out).
Proof.
  revert last m out. induction fuel as [|fuel IH]; intros last m out H; [done|]. cbn [merge_drain merge_nodes_drain] in *.
  destruct (merge_next (node_cmp sort reverse) m) as [[[[n i]|] m']|]; cbn [mbind option_bind] in *; [| |done].
  - destruct (merge_drain (node_cmp sort reverse) fuel m') as [l|] eqn:Hl; [|done]. injection H as <-. cbn [map fst dedup_adjacent].
    destruct (match pk, last with Some pk, Some last => same_pk (node_row n) last pk | _, _ => Some false end) as [b|]; [|done].
    cbn [mbind option_bind]. destruct b; [by apply IH|]. by rewrite (IH _ m' l).
  - by injection H as <-.
Qed.

(** Streams in order, merged: the nodes of all of them, in order of their rows and
    then of their streams, without the repeated rows. *)
Lemma merge_node_streams_spec ss sort reverse pk :
  Forall (StronglySorted (λ a b, compare_rows_rev sort reverse (node_row a) (node_row b) ≠ Gt)) ss →
  ∃ out, merge_node_streams ss sort reverse pk = dedup_adjacent pk None (map fst out) ∧
    StronglySorted (λ a b, node_cmp sort reverse a b ≠ Gt) out ∧ out ≡ₚ concat (indexed ss).
Proof.
  intros Hs. destruct (merge_streams_spec (node_cmp sort reverse) (indexed ss)) as (out & Hm & Hso & Hp).
  { apply Forall_forall. intros l Hl. unfold indexed in Hl. apply elem_of_lookup_imap in Hl as (i & s & -> & Hi).
    rewrite Forall_forall in Hs. specialize (Hs s ltac:(by eapply list_elem_of_lookup_2)).
    clear Hi. induction Hs as [|n ns _ IH Hn]; cbn [map]; constructor; [done|]. apply Forall_map. eapply Forall_impl; [exact Hn|].
    intros n' H. unfold rle, node_cmp. cbn [fst snd] in *. rewrite Nat.compare_refl. by destruct (compare_rows_rev _ _ _ _). }
  exists out. split_and!; [|done|done]. unfold merge_node_streams. apply merge_nodes_drain_dedup.
  unfold merge_streams in Hm. rewrite <-(indexed_fst ss), length_map. done.
Qed.

Lemma dedup_none ns : dedup_adjacent None None ns = Some ns.
Proof. induction ns as [|n ns IH]; [done|]. cbn [dedup_adjacent mbind option_bind]. by rewrite IH. Qed.
