(* ===== verification/FlippedJoin.v ===== *)
(** * The flipped join ([rust/src/op/flipped_join.rs])

    The inner join that answers an [EXISTS]: it fetches the children first, asks
    the parent for the rows with one of their keys, in batches, and keeps those
    that have a child.  A change of a child that is a parent's only one makes the
    parent appear or disappear; otherwise it is a change of the parent's
    relationship.

    The parent and the child are functions from requests to nodes, as for [Join];
    a relationship is read when its node is handed on. *)

From stdpp Require Import base list numbers option sorting sets strings.
From Stdlib Require Import ZArith Lia.
From S2P Require Import Prelude Values Rows BTree Change Connections Overlay Errors JoinUtil Join NodeMerge.

#[local] Open Scope nat_scope.

Definition DEFAULT_CHUNK_SIZE : nat := 256.

Record FlippedOp := MkFlipped {
  fj_parent : nat;
  fj_child : nat;
  fj_parent_key : list nat;
  fj_child_key : list nat;
  fj_rel_slot : nat;
  fj_chunk_size : nat;
  fj_output : option OutEdge
}.

Definition flipped_new (parent child : nat) (parent_key child_key : list nat) (rel_slot : nat) : FlippedOp :=
  MkFlipped parent child parent_key child_key rel_slot DEFAULT_CHUNK_SIZE None.

Definition with_chunk_size (f : FlippedOp) (n : nat) : FlippedOp :=
  MkFlipped (fj_parent f) (fj_child f) (fj_parent_key f) (fj_child_key f) (fj_rel_slot f) n (fj_output f).

(** ** The splice of a child in flight, towards the state after it *)

Section splice.
Context (parent_row : row) (parent_key child_key child_pk : list nat) (child_sort : Sort).

Definition add_if_matches (ns : list node) (r : row) : option (list node) :=
  m ← is_join_match parent_row parent_key r child_key;
  if (m : bool) then readd_if_absent child_pk ns r else Some ns.

(** [retain] of the nodes without the key of [r]. *)
Fixpoint retain_other (ns : list node) (r : row) : option (list node) :=
  match ns with
  | [] => Some []
  | n :: ns =>
      b ← same_pk (node_row n) r child_pk;
      l ← retain_other ns r;
      Some (if (b : bool) then l else n :: l)
  end.

Definition splice_join_overlay (base : list node) (overlay : source_change) : option (list node) :=
  ns ← match overlay with
       | SAdd r => add_if_matches base r
       | SRemove r => retain_other base r
       | SEdit r old => ns ← retain_other base old; add_if_matches ns r
       end;
  Some (sort_nodes child_sort ns).
End splice.

Section flipped.
Context (parent_fetch child_fetch : FetchRequest → list node).
Context (parent_sort : Sort) (child_pk : list nat) (child_sort : Sort) (deadline : nat → bool) (f : FlippedOp).

(** [Graph::attach_child_rel], with this join's keys and slot. *)
Definition attach_child_rel (n : node) (overlay : option source_change) : option node :=
  c ← build_join_constraint (node_row n) (fj_parent_key f) (fj_child_key f);
  let base := match c with Some c => child_fetch (fetch_with_constraint c) | None => [] end in
  children ← match overlay with
             | None => Some base
             | Some ov => splice_join_overlay (node_row n) (fj_parent_key f) (fj_child_key f) child_pk child_sort base ov
             end;
  let 'Node r rels := n in
  Some (Node r (rels ++ [(fj_rel_slot f, λ _, children)])).

(** ** Fetch *)

(** The request's parent-key columns, as child-key columns. *)
Fixpoint translate_columns (c : Constraint) : option Constraint :=
  match c with
  | [] => Some []
  | (col, v) :: c =>
      match list_find (λ pk, pk = col) (fj_parent_key f) with
      | Some (i, _) =>
          ck ← fj_child_key f !! i;
          out ← translate_columns c;
          Some ((ck, v) :: out)
      | None => translate_columns c
      end
  end.

Definition translate_constraint (c : option Constraint) : option (option Constraint) :=
  match c with
  | None => Some None
  | Some c => out ← translate_columns c; Some (match out with [] => None | _ => Some out end)
  end.

(** The batch of parent constraints the children make, without repetition, and the
    keys seen. *)
Fixpoint build_batch (rc : option Constraint) (children : list node) (seen : list CanonKey) (batch : MultiConstraint) :
    option (list CanonKey * MultiConstraint) :=
  match children with
  | [] => Some (seen, batch)
  | child :: children =>
      c ← build_join_constraint (node_row child) (fj_child_key f) (fj_parent_key f);
      match c with
      | None => build_batch rc children seen batch
      | Some c =>
          ok ← match rc with Some rc => constraints_are_compatible c rc | None => Some true end;
          if negb ok then build_batch rc children seen batch
          else
            let k := canonical_key_of_constraint c in
            if bool_decide (k ∈ seen) then build_batch rc children seen batch
            else build_batch rc children (k :: seen) (batch ++ [c])
      end
  end.

Definition parent_batch_req (req : FetchRequest) (batch : MultiConstraint) : FetchRequest :=
  MkFetch (req_constraint req) (multi_constraints req ++ [batch]) (start req) (req_reverse req).

(** Keeps the parents whose key some child has. *)
Fixpoint attach_seen (seen : list CanonKey) (ns : list node) : option (list node) :=
  match ns with
  | [] => Some []
  | n :: ns =>
      k ← canonical_key (node_row n) (fj_parent_key f);
      if bool_decide (k ∈ seen) then
        pn ← attach_child_rel n None;
        out ← attach_seen seen ns;
        Some (pn :: out)
      else attach_seen seen ns
  end.

(** [chunks] panics on a size of zero. *)
Definition fetch_batched (req : FetchRequest) (children : list node) : option (list node) :=
  '(seen, batch) ← build_batch (req_constraint req) children [] [];
  match batch with
  | [] => Some []
  | _ =>
      parents ← (if length batch <=? fj_chunk_size f then Some (parent_fetch (parent_batch_req req batch))
                 else if fj_chunk_size f =? 0 then None
                 else merge_node_streams
                        (map (λ window, parent_fetch (parent_batch_req req window)) (chunks (fj_chunk_size f) batch))
                        parent_sort (req_reverse req) None);
      attach_seen seen parents
  end.

Definition flipped_fetch (req : FetchRequest) : option (list node) :=
  cc ← translate_constraint (req_constraint req);
  fetch_batched req (child_fetch (MkFetch cc [] None false)).

(** ** Push *)

(** What was pushed downstream, and the error the graph has parked. *)
Abbreviation flipped_log := (list (OutEdge * change)).

(** The loop stops at the first other child. *)
Fixpoint some_other (ns : list node) (changed_child : row) : option bool :=
  match ns with
  | [] => Some false
  | n :: ns =>
      same ← row_equals_for_compound_key (node_row n) changed_child child_pk;
      if (same : bool) then some_other ns changed_child else Some true
  end.

Definition parent_has_other_child (parent_row changed_child : row) : option bool :=
  c ← build_join_constraint parent_row (fj_parent_key f) (fj_child_key f);
  match c with
  | None => Some false
  | Some c => some_other (child_fetch (fetch_with_constraint c)) changed_child
  end.

Definition has_related_child (parent_row : row) : option bool :=
  c ← build_join_constraint parent_row (fj_parent_key f) (fj_child_key f);
  Some (match c with
        | Some c => match child_fetch (fetch_with_constraint c) with [] => false | _ => true end
        | None => false
        end).

Definition flip (n : node) : option node := attach_child_rel n None.

Definition parent_with_only_child (n : node) (child_row : row) : node :=
  let 'Node r rels := n in Node r (rels ++ [(fj_rel_slot f, λ _, [leaf_node child_row])]).

Definition flipped_deadline_error : RindleError := PushDeadlineExceeded "flipped-join child fan-out"%string.

(** The fan-out, from the [i]-th poll of the deadline; [exists_] stays set. *)
Fixpoint flipped_fan_out (out : OutEdge) (key_row : row) (is_add : bool) (overlay : option source_change) (owned : owned_change)
    (i : nat) (parents : list node) (exists_ : bool) (err : option RindleError) : option (option RindleError * flipped_log) :=
  match parents with
  | [] => Some (err, [])
  | pnode :: parents =>
      if deadline i then Some (Some (default flipped_deadline_error err), [])
      else
        exists_ ← (if exists_ then Some true else parent_has_other_child (node_row pnode) key_row);
        if (exists_ : bool) then
          pn ← attach_child_rel pnode overlay;
          '(err, log) ← flipped_fan_out out key_row is_add overlay owned (S i) parents exists_ err;
          Some (err, (out, Child pn (fj_rel_slot f) (rebuild_change owned)) :: log)
        else
          let pn := parent_with_only_child pnode key_row in
          '(err, log) ← flipped_fan_out out key_row is_add overlay owned (S i) parents exists_ err;
          Some (err, (out, if (is_add : bool) then Add pn else Remove pn) :: log)
  end.

Definition flipped_push_child_change (ch : change) (exists_pre : bool) (err : option RindleError) :
    option (option RindleError * flipped_log) :=
  out ← fj_output f;
  let key_row := primary_row ch in
  c ← build_join_constraint key_row (fj_child_key f) (fj_parent_key f);
  match c with
  | None => Some (err, [])
  | Some c =>
      let overlay := for_child_change ch in
      let is_add := match ch with Add _ => true | _ => false end in
      let owned := materialize_change ch in
      flipped_fan_out out key_row is_add overlay owned 0 (parent_fetch (fetch_with_constraint c)) exists_pre err
  end.

(** A key edit fails the [assert!]. *)
Definition flipped_push_child (ch : change) (err : option RindleError) : option (option RindleError * flipped_log) :=
  match ch with
  | Add _ | Remove _ => flipped_push_child_change ch false err
  | Edit n old =>
      same ← row_equals_for_compound_key (node_row old) (node_row n) (fj_child_key f);
      if (same : bool) then flipped_push_child_change ch true err else None
  | Child _ _ _ => flipped_push_child_change ch true err
  end.

Definition flipped_push_parent (ch : change) (err : option RindleError) : option (option RindleError * flipped_log) :=
  out ← fj_output f;
  match ch with
  | Add n =>
      b ← has_related_child (node_row n);
      if (b : bool) then pn ← flip n; Some (err, [(out, Add pn)]) else Some (err, [])
  | Remove n =>
      b ← has_related_child (node_row n);
      if (b : bool) then pn ← flip n; Some (err, [(out, Remove pn)]) else Some (err, [])
  | Edit n old =>
      same ← row_equals_for_compound_key (node_row old) (node_row n) (fj_parent_key f);
      if (same : bool) then
        b ← has_related_child (node_row n);
        if (b : bool) then pn ← flip n; po ← flip old; Some (err, [(out, Edit pn po)]) else Some (err, [])
      else None
  | Child n rel child =>
      b ← has_related_child (node_row n);
      if (b : bool) then pn ← flip n; Some (err, [(out, Child pn rel child)]) else Some (err, [])
  end.

Definition flipped_push (ch : change) (port : Port) (err : option RindleError) : option (option RindleError * flipped_log) :=
  match port with
  | JoinChild => flipped_push_child ch err
  | JoinParent => flipped_push_parent ch err
  | Single => None
  end.
End flipped.
