(* ===== verification/FlippedFacts.v ===== *)
(** * What a flipped join shows

    A flipped join means the tree of the parents that have a child, with their
    children.  A fetch yields exactly these parents, whether the batch of keys fits
    one request or is split and merged; and the changes of a push take a consumer
    from the tree of before to the tree of after. *)

From stdpp Require Import base list numbers option sorting sets strings.
From Stdlib Require Import ZArith Lia Strings.Byte.
From S2P Require Import Prelude Values Rows BTree BTreeFacts BTreeCursor Change Connections Overlay Merge Errors Push MemorySourceFacts SourceFetch Storage Partition JoinUtil Take Cap Join JoinFacts NodeMerge FlippedJoin.

#[local] Open Scope nat_scope.

(** The hierarchical join of the same inputs. *)
Definition join_of (f : FlippedOp) : JoinOp :=
  MkJoin (fj_parent f) (fj_child f) (fj_parent_key f) (fj_child_key f) (fj_rel_slot f) (fj_output f).

Section flipped.
Context (parent_fetch child_fetch : FetchRequest → list node).
Context (parent_sort : Sort) (child_pk : list nat) (child_sort : Sort) (deadline : nat → bool) (f : FlippedOp).
#[local] Abbreviation pcmp := (row_cmp parent_sort).
#[local] Abbreviation ccmp := (row_cmp child_sort).
#[local] Abbreviation pkey := (fj_parent_key f).
#[local] Abbreviation ckey := (fj_child_key f).
#[local] Abbreviation slot := (fj_rel_slot f).
#[local] Abbreviation j := (join_of f).
#[local] Abbreviation entry := (entry_of j).
#[local] Abbreviation attach := (attach_child_rel child_fetch child_pk child_sort f).

Context (out : OutEdge) (Hout : fj_output f = Some out).
Context (Hkeys : length pkey = length ckey).
Context (C : list row).
Context (Hchild : ∀ c, map node_row (child_fetch (fetch_with_constraint c)) = keep (λ r, cmatch r c) C).

(** A parent with a child in [C']. *)
Definition related (C' : list row) (p : row) : bool := negb (bool_decide (children j C' p = [])).

(** What the consumer holds: the related parents, with their children. *)
Definition related_tree (C' : list row) (rows : list row) : shown_tree := tree_of (children j C') (keep (related C') rows).

(** Without a change in flight the relationship is attached as by [Join]. *)
Lemma attach_plain n :
  has_key (node_row n) pkey → fresh_slot j n →
  ∃ pn, attach n None = Some pn ∧ entry pn = (node_row n, children j C (node_row n)) ∧ node_row pn = node_row n.
Proof.
  intros Hk Hf.
  destruct (process_at_rest child_fetch parent_sort child_pk child_sort j Hkeys C Hchild
    (MkJoinSt (St := MemoryStorage) None None None ∅) n) as (pn & Hp & He & Hr); [done..|].
  exists pn. split; [|done]. rewrite <-Hp. unfold attach_child_rel, process_parent_node, child_rel. cbn [jn_parent_key jn_child_key join_of].
  destruct (build_join_constraint (node_row n) pkey ckey) as [c|]; [|done]. by destruct n.
Qed.

Lemma has_related n :
  has_key n pkey → has_related_child child_fetch f n = Some (related C n).
Proof.
  intros Hk. destruct (join_constraint n pkey ckey Hkeys Hk) as (oc & Hoc & _).
  pose proof (base_rows child_fetch j Hkeys C Hchild n oc Hk Hoc) as Hb.
  unfold has_related_child. rewrite Hoc. cbn [mbind option_bind]. f_equal. unfold related. rewrite <-Hb.
  destruct oc as [c|]; [|done]. destruct (child_fetch (fetch_with_constraint c)); [done|].
  symmetry. apply negb_true_iff. by apply bool_decide_eq_false.
Qed.

(** ** Fetch: the batch *)

Section fetch.
Context (req : FetchRequest) (P : list node).

(** What the parent answers without the batch, in the order of the request, and
    with one. *)
Context (HP : StronglySorted (λ a b, compare_rows_rev parent_sort (req_reverse req) (node_row a) (node_row b) = Lt) P).
Context (Hparent : ∀ batch, batch ≠ [] →
  parent_fetch (parent_batch_req req batch) = List.filter (λ n, existsb (cmatch (node_row n)) batch) P).
Context (Hreq : ∀ n, n ∈ P → match req_constraint req with Some rc => cmatch (node_row n) rc = true | None => True end).

(** The keys of the parents, of the children and of the request are comparable. *)
Context (Hnodes : ∀ n, n ∈ P → has_key (node_row n) pkey ∧ fresh_slot j n).
Context (Hrows : ∀ c, c ∈ C → has_key c ckey).
Context (Htyped : ∀ c k v, c ∈ C → build_join_constraint c ckey pkey = Some (Some k) → req_constraint req = Some v →
  is_Some (constraints_are_compatible k v)).

(** The constraint of a child matches the parents it joins with. *)
Lemma child_constraint c oc p :
  c ∈ C → build_join_constraint c ckey pkey = Some oc →
  match oc with Some k => cmatch p k | None => false end = joins p pkey c ckey.
Proof.
  intros Hc Hoc. destruct (join_constraint c ckey pkey (eq_sym Hkeys) (Hrows c Hc)) as (oc' & Hoc' & H).
  rewrite Hoc in Hoc'. injection Hoc' as <-. by rewrite H, joins_sym.
Qed.

(** Constraints with one canonical key match the same rows. *)
Lemma canonical_same k k' p :
  k.*1 = k'.*1 → canonical_key_of_constraint k = canonical_key_of_constraint k' → cmatch p k = cmatch p k'.
Proof.
  intros Hcols Hkeys'. unfold cmatch. apply bool_decide_ext. unfold constraint_matches. rewrite !try_all_true.
  revert k' Hcols Hkeys'. induction k as [|[col v] k IH]; intros [|[col' v'] k'] Hcols Hk; try done.
  cbn in Hcols, Hk. injection Hcols as -> Hcols. injection Hk as Hv Hk. rewrite !Forall_cons, (IH k') by done. f_equiv. cbn.
  destruct (p !! col') as [w|]; cbn; [|done]. apply canon_of_identical in Hv. rewrite values_identical_eq, is_eq_true in Hv.
  rewrite !values_equal_true. rewrite (cmp_eq_r compare_predicate_values w v v') by done.
  split; intros (H1 & H2 & H3 & H4); (split; [done|]).
  - assert (compare_predicate_values v v' = Eq) by done. destruct v, v'; cbn in *; naive_solver.
  - assert (compare_predicate_values v v' = Eq) by done. destruct v, v'; cbn in *; naive_solver.
Qed.

Lemma constraint_columns r from_key to_key k :
  length from_key = length to_key → build_join_constraint r from_key to_key = Some (Some k) → k.*1 = to_key.
Proof.
  revert to_key k. induction from_key as [|x fk IH]; intros [|y tk] k Hl H; simplify_eq/=; [done|].
  destruct (r !! x) as [v|]; [|done]. cbn in H. destruct (is_null v); [done|].
  destruct (build_join_constraint r fk tk) as [[rest|]|] eqn:E; simplify_eq/=. f_equal. apply IH; [lia|done].
Qed.

(** A row that matches a constraint on the key columns has its canonical key. *)
Lemma matching_key p k : k.*1 = pkey → cmatch p k = true → canonical_key p pkey = Some (canonical_key_of_constraint k).
Proof.
  intros <- Hm. unfold cmatch in Hm. apply bool_decide_eq_true in Hm. unfold constraint_matches in Hm. apply try_all_true in Hm.
  unfold canonical_key, canonical_key_of_constraint. induction Hm as [|[col v] k Hv _ IH]; [done|]. cbn [fmap list_fmap map mapM fst snd].
  cbn [fst snd] in Hv. destruct (p !! col) as [w|]; cbn [mbind option_bind] in Hv; [|done].
  assert (canon_of w = canon_of v) as Hc.
  { apply canon_of_equal; [|done]. by apply values_equal_true in Hv as (? & _). }
  cbn [fmap option_fmap option_map mbind option_bind]. change (list_fmap (nat * value)%type nat fst k) with (k.*1). rewrite IH. cbn. by rewrite Hc.
Qed.

Definition batch_ok (seen : list CanonKey) (batch : MultiConstraint) : Prop :=
  Forall (λ k : Constraint, k.*1 = pkey) batch ∧ NoDup (map canonical_key_of_constraint batch) ∧
  ∀ x, x ∈ seen ↔ x ∈ map canonical_key_of_constraint batch.

Lemma build_batch_spec children seen batch :
  Forall (λ n, node_row n ∈ C) children → batch_ok seen batch →
  ∃ seen' batch', build_batch f (req_constraint req) children seen batch = Some (seen', batch') ∧ batch_ok seen' batch' ∧
    ∀ n, n ∈ P → existsb (cmatch (node_row n)) batch' =
      existsb (cmatch (node_row n)) batch || existsb (λ c, joins (node_row n) pkey (node_row c) ckey) children.
Proof.
  intros Hc. revert seen batch. induction Hc as [|c children Hc _ IH]; intros seen batch Hok; cbn [build_batch existsb].
  { exists seen, batch. split_and!; [done|done|]. intros n _. by rewrite orb_false_r. }
  destruct (join_constraint (node_row c) ckey pkey (eq_sym Hkeys) (Hrows _ Hc)) as (oc & Hoc & _). rewrite Hoc. cbn [mbind option_bind].
  pose proof (λ p, child_constraint (node_row c) oc p Hc Hoc) as Hm.
  destruct oc as [k|].
  2: { destruct (IH seen batch Hok) as (s' & b' & Hb & Hok' & Hex). exists s', b'. split_and!; [done|done|]. intros n Hn.
       by rewrite Hex, <-Hm. }
  assert (is_Some (match req_constraint req with Some rc => constraints_are_compatible k rc | None => Some true end)) as [ok Hcompat].
  { destruct (req_constraint req) as [rc|] eqn:Hrc; [|by eexists]. by eapply Htyped. }
  rewrite Hcompat. cbn [mbind option_bind]. destruct ok; cbn [negb].
  2: { destruct (IH seen batch Hok) as (s' & b' & Hb & Hok' & Hex). exists s', b'. split_and!; [done|done|]. intros n Hn.
       rewrite Hex, <-Hm by done. destruct (cmatch (node_row n) k) eqn:Hk; [|done]. exfalso.
       specialize (Hreq n Hn). destruct (req_constraint req) as [rc|]; [|done].
       by rewrite (compatible_of_match (node_row n)) in Hcompat. }
  pose proof (constraint_columns _ _ _ _ (eq_sym Hkeys) Hoc) as Hcols. destruct Hok as (Hco & Hnd & Hseen).
  case_bool_decide as Hin.
  - destruct (IH seen batch) as (s' & b' & Hb & Hok' & Hex); [done|]. exists s', b'. split_and!; [done|done|]. intros n Hn.
    rewrite Hex, <-Hm by done. destruct (cmatch (node_row n) k) eqn:Hk; cbn [orb]; [|done].
    assert (existsb (cmatch (node_row n)) batch = true) as ->; [|done].
    apply Hseen, list_elem_of_fmap in Hin as (k' & Hkk & Hin). apply existsb_exists. exists k'. split; [by apply list_elem_of_In|].
    rewrite Forall_forall in Hco. rewrite <-Hk. symmetry. apply canonical_same; [|done]. by rewrite Hcols, Hco.
  - destruct (IH (canonical_key_of_constraint k :: seen) (batch ++ [k])) as (s' & b' & Hb & Hok' & Hex).
    { split_and!; [by apply Forall_app; split; [|constructor]| |].
      - rewrite map_app. apply NoDup_app. split_and!; [done| |apply NoDup_singleton].
        intros x Hx Hx'. apply list_elem_of_singleton in Hx' as ->. by apply Hin, Hseen.
      - intros x. rewrite map_app, elem_of_cons, elem_of_app, Hseen. cbn [map]. rewrite list_elem_of_singleton. tauto. }
    exists s', b'. split_and!; [done|done|]. intros n Hn. rewrite Hex, existsb_app, <-Hm by done. cbn [existsb].
    by rewrite orb_false_r, orb_assoc.
Qed.

(** ** Fetch: the children *)

Lemma translate_spec rc :
  ∃ cc, translate_columns f rc = Some cc ∧
    ∀ p c, cmatch p rc = true → joins p pkey c ckey = true → cmatch c cc = true.
Proof.
  induction rc as [|[col v] rc (cc & Hcc & IH)]; cbn [translate_columns]; [by exists []|]. rewrite Hcc.
  assert (∀ p, cmatch p ((col, v) :: rc) = true → cmatch p rc = true ∧ ∃ w, p !! col = Some w ∧ values_equal w v = Some true) as Hcons.
  { intros p. unfold cmatch. rewrite !bool_decide_eq_true. unfold constraint_matches. rewrite !try_all_true, Forall_cons. cbn [fst snd].
    intros [Hv Hr]. split; [done|]. destruct (p !! col) as [w|]; cbn in Hv; [|done]. by exists w. }
  destruct (list_find (λ pk, pk = col) pkey) as [[i x]|] eqn:Hf.
  2: { exists cc. split; [done|]. intros p c Hp. apply IH. by apply Hcons. }
  apply list_find_Some in Hf as (Hi & -> & _). destruct (lookup_lt_is_Some_2 ckey i) as [ck Hck].
  { rewrite <-Hkeys. by eapply lookup_lt_Some. }
  rewrite Hck. cbn [mbind option_bind]. exists ((ck, v) :: cc). split; [done|]. intros p c Hp Hj.
  destruct (Hcons p Hp) as (Hp' & w & Hw & Hwv). specialize (IH p c Hp' Hj). unfold cmatch in *.
  rewrite bool_decide_eq_true in IH |- *. unfold constraint_matches in *. rewrite try_all_true in IH |- *. constructor; [|done].
  apply joins_true in Hj. rewrite Forall_forall in Hj. destruct (Hj (col, ck)) as (w' & u & Hw' & Hu & Hwu).
  { apply list_elem_of_lookup. exists i. by rewrite lookup_zip_with, Hi, Hck. }
  cbn [fst snd] in *. rewrite Hw in Hw'. injection Hw' as <-. rewrite Hu. cbn.
  rewrite values_equal_sym in Hwu. by rewrite (values_equal_l u w v).
Qed.

Context (Hchildren : map node_row (child_fetch fetch_all) = C).

(** The children fetched: rows of [C], among them every one of a parent. *)
Lemma children_fetched :
  ∃ cc, translate_constraint f (req_constraint req) = Some cc ∧
    Forall (λ n, node_row n ∈ C) (child_fetch (MkFetch cc [] None false)) ∧
    ∀ n, n ∈ P → existsb (λ c, joins (node_row n) pkey (node_row c) ckey) (child_fetch (MkFetch cc [] None false)) =
      related C (node_row n).
Proof.
  assert (∀ n, related C (node_row n) = existsb (λ c, joins (node_row n) pkey c ckey) C) as Hrel.
  { intros n. unfold related, children. cbn [jn_parent_key jn_child_key join_of]. clear. induction C as [|c l IH]; [done|].
    rewrite keep_cons. cbn [existsb]. by destruct (joins _ _ _ _). }
  assert (∀ cc, (cc = None ∨ ∃ c, cc = Some c ∧ (∀ n c', n ∈ P → joins (node_row n) pkey c' ckey = true → cmatch c' c = true)) →
    Forall (λ n, node_row n ∈ C) (child_fetch (MkFetch cc [] None false)) ∧
    ∀ n, n ∈ P → existsb (λ c, joins (node_row n) pkey (node_row c) ckey) (child_fetch (MkFetch cc [] None false)) =
      related C (node_row n)) as Hgo.
  { intros cc Hcc.
    assert (∀ n l, existsb (λ c, joins (node_row n) pkey (node_row c) ckey) l =
      existsb (λ c, joins (node_row n) pkey c ckey) (map node_row l)) as Hmap by (intros n l; induction l as [|x l IH]; [done|]; cbn [existsb map]; by rewrite IH).
    destruct Hcc as [->|(c & -> & Hm)].
    - change (MkFetch None [] None false) with fetch_all. split; [|intros n _; by rewrite Hmap, Hchildren, Hrel].
      apply Forall_forall. intros n Hn. rewrite <-Hchildren. by apply list_elem_of_fmap_2.
    - change (MkFetch (Some c) [] None false) with (fetch_with_constraint c). split.
      + apply Forall_forall. intros n Hn. assert (node_row n ∈ keep (λ r, cmatch r c) C) as H by (rewrite <-Hchild; by apply list_elem_of_fmap_2).
        by apply list_elem_of_filter in H as [_ H].
      + intros n Hn. rewrite Hmap, Hchild, Hrel. clear -Hm Hn. induction C as [|x l IH]; [done|]. rewrite keep_cons. cbn [existsb].
        destruct (cmatch x c) eqn:E; cbn [existsb]; rewrite IH; [done|].
        destruct (joins (node_row n) pkey x ckey) eqn:Hj; [|done]. by rewrite (Hm n x Hn Hj) in E. }
  destruct (req_constraint req) as [rc|] eqn:Hrc; cbn [translate_constraint]; [|exists None; split; [done|by apply Hgo; left]].
  destruct (translate_spec rc) as (cc & Hcc & Hm). rewrite Hcc. cbn [mbind option_bind]. eexists. split; [done|]. apply Hgo.
  destruct cc as [|e cc]; [by left|]. right. eexists. split; [done|]. intros n c Hn Hj. apply (Hm (node_row n)); [|done].
  exact (Hreq n Hn).
Qed.

(** ** Fetch: the parents *)

Lemma attach_seen_spec seen ns :
  (∀ n, n ∈ ns → has_key (node_row n) pkey ∧ fresh_slot j n ∧ ∃ k, canonical_key (node_row n) pkey = Some k ∧ k ∈ seen) →
  ∃ pns, attach_seen child_fetch child_pk child_sort f seen ns = Some pns ∧
    map entry pns = map (λ n, (node_row n, children j C (node_row n))) ns.
Proof.
  induction ns as [|n ns IH]; intros H; cbn [attach_seen]; [by exists []|].
  destruct (H n) as (Hk & Hf & k & -> & Hin); [by left|]. cbn [mbind option_bind]. rewrite bool_decide_eq_true_2 by done.
  destruct (attach_plain n Hk Hf) as (pn & -> & He & _). cbn [mbind option_bind].
  destruct IH as (pns & -> & Hp); [intros n' Hn'; apply H; by right|]. cbn [mbind option_bind].
  exists (pn :: pns). split; [done|]. cbn [map]. by rewrite He, Hp.
Qed.

#[local] Abbreviation by_window w := (List.filter (λ n, existsb (cmatch (node_row n)) w) P).

(** A parent answers at most one of the windows the batch is cut into. *)
Lemma windows_split ws :
  NoDup (map canonical_key_of_constraint (concat ws)) → Forall (λ k : Constraint, k.*1 = pkey) (concat ws) →
  concat (map (λ w, by_window w) ws) ≡ₚ by_window (concat ws).
Proof.
  clear Hparent HP. induction ws as [|w ws IH]; cbn [concat map]; intros Hnd Hcols.
  { clear. by induction P as [|n ns IH]; [|exact IH]. }
  rewrite map_app, NoDup_app in Hnd. destruct Hnd as (Hnw & Hdis & Hnd). apply Forall_app in Hcols as [Hw Hcols].
  rewrite IH by done.
  assert (∀ n k k', k ∈ w → k' ∈ concat ws → cmatch (node_row n) k = true → cmatch (node_row n) k' = true → False) as Hno.
  { intros n k k' Hk Hk' Hm Hm'. rewrite Forall_forall in Hw. rewrite Forall_forall in Hcols.
    pose proof (matching_key _ k (Hw k Hk) Hm) as H1. pose proof (matching_key _ k' (Hcols k' Hk') Hm') as H2. rewrite H1 in H2.
    injection H2 as H2. apply (Hdis (canonical_key_of_constraint k)); [by apply list_elem_of_fmap_2|]. rewrite H2. by apply list_elem_of_fmap_2. }
  clear -Hno. induction P as [|n ns IHn]; [done|]. cbn [List.filter]. rewrite existsb_app.
  destruct (existsb (cmatch (node_row n)) w) eqn:E1, (existsb (cmatch (node_row n)) (concat ws)) eqn:E2; cbn [orb app].
  - exfalso. apply existsb_exists in E1 as (k & Hk%list_elem_of_In & Hm), E2 as (k' & Hk'%list_elem_of_In & Hm'). by apply (Hno n k k').
  - by rewrite IHn.
  - by rewrite <-IHn, Permutation_middle.
  - done.
Qed.

Lemma merged_windows ws :
  Forall (λ w, w ≠ []) ws →
  NoDup (map canonical_key_of_constraint (concat ws)) → Forall (λ k : Constraint, k.*1 = pkey) (concat ws) →
  merge_node_streams (map (λ w, parent_fetch (parent_batch_req req w)) ws) parent_sort (req_reverse req) None = Some (by_window (concat ws)).
Proof.
  intros Hne Hnd Hcols. set (R := λ a b, compare_rows_rev parent_sort (req_reverse req) (node_row a) (node_row b) ≠ Gt).
  assert (∀ w, StronglySorted R (by_window w)) as Hs.
  { intros w. pose proof HP as Hs. clear -Hs. induction Hs as [|n ns _ IH Hn]; cbn [List.filter]; [constructor|]. destruct (existsb _ _); [|done].
    constructor; [done|]. apply Forall_forall. intros x Hx. apply list_elem_of_In, filter_In in Hx as [Hx _].
    rewrite Forall_forall in Hn. unfold R. rewrite Hn; [done|]. by apply list_elem_of_In. }
  assert (map (λ w, parent_fetch (parent_batch_req req w)) ws = map (λ w, by_window w) ws) as ->.
  { apply map_ext_in. intros w Hw%list_elem_of_In. apply Hparent. rewrite Forall_forall in Hne. by apply Hne. }
  destruct (merge_node_streams_spec (map (λ w, by_window w) ws) parent_sort (req_reverse req) None) as (outs & -> & Hso & Hp).
  { apply Forall_forall. intros l Hl. apply list_elem_of_fmap in Hl as (w & -> & _). apply Hs. }
  rewrite dedup_none. f_equal.
  assert (map fst outs ≡ₚ by_window (concat ws)) as Hperm.
  { rewrite Hp, indexed_fst. by apply windows_split. }
  apply (StronglySorted_unique_strong R); [| |apply Hs|done].
  - intros x y Hx Hy H1 H2. rewrite Hperm in Hx. apply list_elem_of_In, filter_In in Hx as [Hx _], Hy as [Hy _].
    apply list_elem_of_In in Hx, Hy. pose proof (cmp_opp (cmp := compare_rows_rev parent_sort (req_reverse req)) (node_row y) (node_row x)) as Ho.
    assert (compare_rows_rev parent_sort (req_reverse req) (node_row x) (node_row y) = Eq) as He.
    { unfold R in *. by destruct (compare_rows_rev _ _ (node_row x) _), (compare_rows_rev _ _ (node_row y) _). }
    pose proof HP as Hs'. clear -Hs' Hx Hy He. induction Hs' as [|n ns _ IH Hn]; [by apply elem_of_nil in Hx|]. rewrite Forall_forall in Hn.
    apply elem_of_cons in Hx as [->|Hx], Hy as [->|Hy]; [done| | |by apply IH].
    + specialize (Hn y Hy). congruence.
    + specialize (Hn x Hx). rewrite (cmp_opp (cmp := compare_rows_rev parent_sort (req_reverse req)) (node_row x)), He in Hn. done.
  - clear -Hso. induction Hso as [|a l _ IH Ha]; cbn [map]; constructor; [done|]. apply Forall_map. eapply Forall_impl; [exact Ha|].
    intros b. unfold node_cmp, R. cbn. by destruct (compare_rows_rev _ _ _ _).
Qed.

(** A fetch yields the parents of the request that have a child, in order, with
    their children, whatever the size of the chunks. *)
Lemma fetch_exact :
  0 < fj_chunk_size f →
  ∃ pns, flipped_fetch parent_fetch child_fetch parent_sort child_pk child_sort f req = Some pns ∧
    map entry pns = map (λ n, (node_row n, children j C (node_row n))) (List.filter (λ n, related C (node_row n)) P).
Proof.
  intros Hchunk. unfold flipped_fetch. destruct children_fetched as (cc & -> & Hin & Hrel). cbn [mbind option_bind].
  unfold fetch_batched. destruct (build_batch_spec _ [] [] Hin) as (seen & batch & -> & (Hcols & Hnd & Hseen) & Hex).
  { split_and!; [constructor|constructor|done]. }
  cbn [mbind option_bind].
  assert (List.filter (λ n, related C (node_row n)) P = by_window batch) as ->.
  { clear -Hex Hrel. induction P as [|n ns IH]; [done|]. cbn [List.filter].
    rewrite Hex, Hrel, IH by (by left || (intros; apply Hex || apply Hrel; by right)). done. }
  assert (∃ pns, attach_seen child_fetch child_pk child_sort f seen (by_window batch) = Some pns ∧
    map entry pns = map (λ n, (node_row n, children j C (node_row n))) (by_window batch)) as (pns & Ha & He).
  { apply attach_seen_spec. intros n Hn. apply list_elem_of_In, filter_In in Hn as [Hn Hm]. apply list_elem_of_In in Hn.
    destruct (Hnodes n Hn) as [Hk Hf]. split_and!; [done|done|]. apply existsb_exists in Hm as (k & Hk'%list_elem_of_In & Hm).
    rewrite Forall_forall in Hcols. exists (canonical_key_of_constraint k). split; [by apply matching_key; [apply Hcols|]|].
    apply Hseen. by apply list_elem_of_fmap_2. }
  destruct batch as [|k batch].
  { exists []. split; [done|]. clear. by induction P. }
  destruct (Nat.leb_spec (length (k :: batch)) (fj_chunk_size f)).
  - rewrite Hparent by done. cbn [mbind option_bind]. by exists pns.
  - destruct (Nat.eqb_spec (fj_chunk_size f) 0); [lia|]. rewrite merged_windows; rewrite ?chunks_concat by done; [|try done..].
    + cbn [mbind option_bind]. by exists pns.
    + eapply Forall_impl; [by apply chunks_sizes|]. intros w Hw. cbn beta in *. destruct w; [cbn in Hw; lia|done].
Qed.
End fetch.

(** ** A child change *)

(** The primary key tells the rows apart, by either comparison. *)
Definition key_tells (l : list row) : Prop :=
  ∀ a b, a ∈ l → b ∈ l → same_pk a b child_pk = Some (is_eq (ccmp a b)) ∧
    row_equals_for_compound_key a b child_pk = Some (is_eq (ccmp a b)).

Section child_change.
Context (C0 : list row) (P : list node) (ch : change).
Context (HC : C = match for_child_change ch with Some sc => apply_source_change ccmp sc C0 | None => C0 end).
Context (Hsorted : ssorted ccmp C0).
Context (Hvalid : match for_child_change ch with Some sc => change_valid ccmp sc C0 | None => True end).
Context (Hpk0 : key_tells C0) (Hpk : key_tells C).
Context (HP : ssorted pcmp (map node_row P)).
Context (Hparent : ∀ c, parent_fetch (fetch_with_constraint c) = List.filter (λ n, cmatch (node_row n) c) P).
#[local] Abbreviation key_row := (primary_row ch).
Context (Hnodes : ∀ n, n ∈ P → has_key (node_row n) pkey ∧ fresh_slot j n ∧ is_Some (is_join_match (node_row n) pkey key_row ckey)).
Context (Hkr : has_key key_row ckey).
Context (Hkept : match ch with
                 | Edit n old => row_equals_for_compound_key (node_row old) (node_row n) ckey = Some true ∧
                     is_Some (same_pk (node_row n) (node_row old) child_pk)
                 | Child n _ _ => node_row n ∈ C
                 | _ => True
                 end).
Context (Hdeadline : ∀ i, deadline i = false).

#[local] Abbreviation hit p := (joins p pkey key_row ckey).
#[local] Abbreviation matching := (List.filter (λ n, hit (node_row n)) P).
#[local] Abbreviation told := (foldl (show parent_sort child_sort j)).

Lemma children_kept p :
  children j C p = (if hit p then applied child_sort ch (children j C0 p) else children j C0 p) ∧
  ssorted ccmp (children j C0 p) ∧
  (hit p = true → match for_child_change ch with Some sc => change_valid ccmp sc (children j C0 p) | None => True end).
Proof.
  apply (children_change child_sort j C C0 P ch HC Hsorted Hvalid); [done|done|]. by destruct ch; [..|destruct Hkept|].
Qed.

Lemma siblings C' p q : hit p = true → hit q = true → children j C' p = children j C' q.
Proof. intros Hp Hq. apply keep_ext. intros r _. by apply (joins_trans p q pkey key_row). Qed.

Lemma children_elem C' c p : c ∈ children j C' p ↔ c ∈ C' ∧ joins p pkey c ckey = true.
Proof. unfold children, keep. rewrite list_elem_of_filter, Is_true_true. cbn. tauto. Qed.

(** ** The relationship of a delivered parent *)

Lemma C_sorted : ssorted ccmp C.
Proof.
  rewrite HC. destruct (for_child_change ch) as [[r|r|r old]|]; cbn [apply_source_change]; [| | |done].
  - by apply (sl_insert_sorted ccmp).
  - by apply (sl_delete_sorted ccmp).
  - by apply (sl_insert_sorted ccmp), (sl_delete_sorted ccmp).
Qed.

Lemma pk_position_found ns r :
  (∀ n, n ∈ ns → is_Some (same_pk (node_row n) r child_pk)) → (∃ n, n ∈ ns ∧ same_pk (node_row n) r child_pk = Some true) →
  readd_if_absent child_pk ns r = Some ns.
Proof.
  intros Ht (n & Hn & Hs). unfold readd_if_absent. assert (∃ i, pk_position child_pk ns r = Some (Some i)) as [i ->]; [|done].
  induction ns as [|x ns IH]; [by apply elem_of_nil in Hn|]. cbn [pk_position].
  destruct (Ht x) as [b Hb]; [by left|]. rewrite Hb. cbn [mbind option_bind]. destruct b; [by exists 0|].
  apply elem_of_cons in Hn as [->|Hn]; [congruence|]. destruct IH as [i ->]; [intros y Hy; apply Ht; by right|done|]. by exists (S i).
Qed.

Lemma retain_rows ns r :
  (∀ n, n ∈ ns → is_Some (same_pk (node_row n) r child_pk)) →
  retain_other child_pk ns r = Some (List.filter (λ n, negb (bool_decide (same_pk (node_row n) r child_pk = Some true))) ns).
Proof.
  induction ns as [|x ns IH]; intros Ht; [done|]. cbn [retain_other List.filter]. destruct (Ht x) as [b Hb]; [by left|]. rewrite Hb.
  cbn [mbind option_bind]. rewrite IH by (intros; apply Ht; by right). cbn [mbind option_bind]. by destruct b.
Qed.

Lemma filter_all {A} (g : A → bool) l : (∀ x, x ∈ l → g x = true) → List.filter g l = l.
Proof.
  induction l as [|x l IH]; intros H; [done|]. cbn [List.filter]. rewrite H by (by left). f_equal. apply IH. intros y Hy. apply H. by right.
Qed.

Lemma filter_but_one (g : row → bool) r l :
  NoDup l → r ∈ l → (∀ x, x ∈ l → g x = false ↔ x = r) → r :: List.filter g l ≡ₚ l.
Proof.
  intros Hnd. induction Hnd as [|x l Hx Hnd IH]; intros Hr Hg; [by apply elem_of_nil in Hr|]. cbn [List.filter].
  destruct (decide (x = r)) as [->|Hne].
  - rewrite (proj2 (Hg r ltac:(by left)) eq_refl). rewrite filter_all; [done|]. intros y Hy.
    destruct (g y) eqn:E; [done|]. apply Hg in E as ->; [done|by right].
  - destruct (g x) eqn:E; [|by apply Hg in E; [|by left]]. rewrite Permutation_swap, IH; [done| |].
    + by apply elem_of_cons in Hr as [->|].
    + intros y Hy. apply Hg. by right.
Qed.

(** The splice towards the state after the change finds it already there. *)
Lemma splice_after p base sc :
  hit p = true → is_join_match p pkey key_row ckey = Some true → for_child_change ch = Some sc → map node_row base = children j C p →
  ∃ ns, splice_join_overlay p pkey ckey child_pk child_sort base sc = Some ns ∧ map node_row ns = children j C p.
Proof.
  intros Hh Hm Hsc Hb. destruct (children_kept p) as (Hch & Hso & Hva). rewrite Hh in Hch. unfold applied in Hch.
  specialize (Hva Hh). rewrite Hsc in Hva, Hch.
  assert (ssorted ccmp (children j C p)) as Hcs by (apply (keep_sorted ccmp), C_sorted).
  assert (∀ n, n ∈ base → node_row n ∈ children j C p) as Hrow by (intros n Hn; rewrite <-Hb; by apply list_elem_of_fmap_2).
  assert (∀ ns, map node_row ns = children j C p → map node_row (sort_nodes child_sort ns) = children j C p) as Hsame.
  { intros ns Hns. apply sort_rows; [done|by rewrite Hns]. }
  assert (∀ r, r ∈ children j C p → ∃ n, n ∈ base ∧ node_row n = r) as Hback.
  { intros r Hr. rewrite <-Hb in Hr. apply list_elem_of_fmap in Hr as (n & -> & Hn). by exists n. }
  assert (∀ a b, a ∈ children j C p → b ∈ children j C p → same_pk a b child_pk = Some (is_eq (ccmp a b))) as HinC.
  { intros a b [Ha _]%children_elem [Hb' _]%children_elem. by apply Hpk. }
  assert (∀ a b, a ∈ children j C0 p → b ∈ children j C0 p → same_pk a b child_pk = Some (is_eq (ccmp a b))) as HinC0.
  { intros a b [Ha _]%children_elem [Hb' _]%children_elem. by apply Hpk0. }
  clear HC. destruct ch as [n|n|n old|n r sub]; cbn [for_child_change] in Hsc; simplify_eq; cbn [primary_row apply_source_change change_valid] in *;
    unfold splice_join_overlay, add_if_matches.
  - assert (node_row n ∈ children j C p) as Hin by (rewrite Hch; apply sl_insert_self).
    rewrite Hm. cbn [mbind option_bind]. rewrite pk_position_found; [cbn [mbind option_bind]; eexists; split; [done|by apply Hsame]| |].
    + intros x Hx. rewrite HinC by auto. by eexists.
    + destruct (Hback _ Hin) as (x & Hx & Hxr). exists x. split; [done|]. rewrite Hxr, HinC by done. by rewrite cmp_refl.
  - assert (∀ x, x ∈ base → same_pk (node_row x) (node_row n) child_pk = Some false) as Hno.
    { intros x Hx%Hrow. rewrite Hch in Hx. apply (sl_delete_iff ccmp) in Hx as [Hx Hne]; [|done]. rewrite HinC0 by done. by destruct (ccmp _ _). }
    rewrite retain_rows by (intros x Hx; rewrite Hno by done; by eexists). cbn [mbind option_bind].
    rewrite filter_all by (intros x Hx; by rewrite Hno). eexists. split; [done|by apply Hsame].
  - destruct Hva as [Ho Hf]. destruct Hkept as [_ Hpks].
    assert (node_row n ∈ children j C p) as Hin by (rewrite Hch; apply sl_insert_self).
    assert (∀ x, x ∈ base → node_row x = node_row n ∨ same_pk (node_row x) (node_row old) child_pk = Some false) as Hno.
    { intros x Hx%Hrow. rewrite Hch in Hx. apply (sl_insert_elem ccmp) in Hx as [->|Hx]; [by left|]. right.
      apply (sl_delete_iff ccmp) in Hx as [Hx Hne]; [|done]. rewrite HinC0 by done. by destruct (ccmp _ _). }
    rewrite retain_rows.
    2: { intros x Hx. destruct (Hno x Hx) as [->| ->]; [done|by eexists]. }
    cbn [mbind option_bind]. rewrite Hm. cbn [mbind option_bind]. set (kept := List.filter _ base).
    assert (∀ x, x ∈ kept → x ∈ base) as Hsub.
    { intros x Hx%list_elem_of_In. apply filter_In in Hx as [Hx _]. by apply list_elem_of_In. }
    destruct (decide (same_pk (node_row n) (node_row old) child_pk = Some true)) as [Hsame'|Hdiff].
    + assert (∀ x, x ∈ kept → same_pk (node_row x) (node_row n) child_pk = Some false) as Hnone.
      { intros x Hx. rewrite HinC by auto. assert (ccmp (node_row x) (node_row n) ≠ Eq) as Hne; [|by destruct (ccmp _ _)].
        intros He. apply (ssorted_tie ccmp (children j C p)) in He; [|done|auto|done].
        apply list_elem_of_In, filter_In in Hx as [_ Hx]. rewrite He, bool_decide_eq_true_2 in Hx by done. done. }
      rewrite (readd_rows child_pk kept _ Hnone). eexists. split; [done|]. apply sort_rows; [done|].
      rewrite map_app, Permutation_app_comm. cbn [map leaf_node node_row app].
      assert (map node_row kept = List.filter (λ r, negb (bool_decide (same_pk r (node_row old) child_pk = Some true))) (map node_row base)) as ->.
      { unfold kept. clear. induction base as [|x l IH]; [done|]. cbn [List.filter map]. destruct (negb _); cbn [map]; by rewrite IH. }
      rewrite Hb. apply filter_but_one; [by apply (ssorted_NoDup ccmp)|done|]. intros x Hx. rewrite negb_false_iff, bool_decide_eq_true. split.
      * intros Hs. destruct (Hback x Hx) as (y & Hy & <-). destruct (Hno y Hy) as [?|Hf']; [done|]. congruence.
      * by intros ->.
    + assert (kept = base) as ->.
      { apply filter_all. intros x Hx. apply negb_true_iff, bool_decide_eq_false. destruct (Hno x Hx) as [->| ->]; done. }
      rewrite pk_position_found; [eexists; split; [done|by apply Hsame]|..].
      * intros x Hx. rewrite HinC by auto. by eexists.
      * destruct (Hback _ Hin) as (x & Hx & Hxr). exists x. split; [done|]. rewrite Hxr, HinC by done. by rewrite cmp_refl.
Qed.

Lemma attach_after n :
  n ∈ matching →
  ∃ pn, attach n (for_child_change ch) = Some pn ∧ entry pn = (node_row n, children j C (node_row n)) ∧ node_row pn = node_row n.
Proof.
  intros Hn. apply list_elem_of_In, filter_In in Hn as [Hn%list_elem_of_In Hh]. destruct (Hnodes n Hn) as (Hk & Hf & m & Hm).
  assert (m = true) as -> by (unfold joins in Hh; rewrite Hm in Hh; by destruct m).
  destruct (join_constraint (node_row n) pkey ckey Hkeys Hk) as (oc & Hoc & _). unfold attach_child_rel. rewrite Hoc. cbn [mbind option_bind].
  pose proof (base_rows child_fetch j Hkeys C Hchild (node_row n) oc Hk Hoc) as Hb.
  assert (∃ cs, match for_child_change ch with
      | Some ov => splice_join_overlay (node_row n) pkey ckey child_pk child_sort
          (match oc with Some c => child_fetch (fetch_with_constraint c) | None => [] end) ov
      | None => Some (match oc with Some c => child_fetch (fetch_with_constraint c) | None => [] end)
      end = Some cs ∧ map node_row cs = children j C (node_row n)) as (cs & Hcs & Hrows).
  { pose proof (splice_after (node_row n)) as Hsp. destruct (for_child_change ch) as [sc|]; [by eapply Hsp|by eexists]. }
  destruct (for_child_change ch); rewrite Hcs; cbn [mbind option_bind];
    pose proof (entry_appended j n cs Hf) as He; rewrite Hrows in He; destruct n as [r rels]; by eexists.
Qed.

(** A child other than the changed one. *)
Definition other (p : row) : bool := existsb (λ c, negb (is_eq (ccmp c key_row))) (children j C p).

Lemma has_other p :
  match ch with Add _ | Remove _ => True | _ => False end → has_key p pkey →
  parent_has_other_child child_fetch child_pk f p key_row = Some (other p).
Proof.
  intros Hch Hk. unfold parent_has_other_child. destruct (join_constraint p pkey ckey Hkeys Hk) as (oc & Hoc & _). rewrite Hoc. cbn [mbind option_bind].
  pose proof (base_rows child_fetch j Hkeys C Hchild p oc Hk Hoc) as Hb. unfold other. rewrite <-Hb.
  assert (∀ c, c ∈ children j C p → row_equals_for_compound_key c key_row child_pk = Some (is_eq (ccmp c key_row))) as He.
  { intros c [Hc _]%children_elem. clear Hb. destruct ch as [n|n|n old|n r sub]; [| |done..]; cbn [for_child_change apply_source_change primary_row change_valid] in *.
    - apply Hpk; [done|]. rewrite HC. apply sl_insert_self.
    - apply Hpk0; [|done]. rewrite HC in Hc. by apply (sl_delete_elem ccmp) in Hc. }
  destruct oc as [c|]; [|done]. rewrite <-Hb in He. clear -He.
  induction (child_fetch (fetch_with_constraint c)) as [|x l IH]; [done|]. cbn [some_other map existsb]. rewrite He by (by left). cbn [mbind option_bind].
  destruct (is_eq _); cbn [negb orb]; [|done]. apply IH. intros y Hy. apply He. by right.
Qed.

(** ** The fan-out *)

#[local] Abbreviation added := (match ch with Add _ => true | _ => false end).

(** What goes out for a parent: a change of its relationship, or that it appears or
    disappears. *)
Definition told_by (stays : bool) (m : node) (e : OutEdge * change) : Prop :=
  e.1 = out ∧
  if stays then tells j ch m e.2
  else e.2 = (if added then Add else Remove) (parent_with_only_child f m key_row).

Lemma fan_out_told stays i ms exists_ err :
  (∀ m, m ∈ ms → m ∈ matching) → (exists_ = true → stays = true) →
  (exists_ = false → ∀ m, m ∈ ms → parent_has_other_child child_fetch child_pk f (node_row m) key_row = Some stays) →
  ∃ log, flipped_fan_out child_fetch child_pk child_sort deadline f out key_row added (for_child_change ch) (materialize_change ch)
      i ms exists_ err = Some (err, log) ∧ Forall2 (told_by stays) ms log.
Proof.
  revert i exists_. induction ms as [|m ms IH]; intros i exists_ Hin He Ho; cbn [flipped_fan_out]; [by exists []|].
  rewrite Hdeadline.
  assert ((if exists_ then Some true else parent_has_other_child child_fetch child_pk f (node_row m) key_row) = Some stays) as ->.
  { destruct exists_; [by rewrite He|]. apply Ho; [done|by left]. }
  cbn [mbind option_bind]. destruct (IH (S i) stays) as (log & Hf & Ht).
  { intros x Hx. apply Hin. by right. }
  { done. }
  { intros Hs x Hx. apply Ho; [|by right]. destruct exists_; [|done]. by rewrite He in Hs. }
  destruct stays.
  - destruct (attach_after m) as (pn & Ha & _ & Hrow); [apply Hin; by left|]. rewrite Ha. cbn [mbind option_bind]. rewrite Hf. cbn [mbind option_bind].
    eexists. split; [done|]. constructor; [|done]. split; [done|]. eexists pn, _. split_and!; [done|done|].
    clear. by destruct ch as [[r l]|[r l]|[r l] [r' l']|n r sub].
  - rewrite Hf. cbn [mbind option_bind]. eexists. split; [done|]. constructor; [|done]. split; [done|]. by destruct ch.
Qed.

(** Whether the parents of the changed child have one before and after. *)
Lemma related_iff C' p : related C' p = true ↔ ∃ c, c ∈ children j C' p.
Proof.
  unfold related. rewrite negb_true_iff, bool_decide_eq_false. destruct (children j C' p) as [|c l]; split; try done.
  - intros (c & Hc). by apply elem_of_nil in Hc.
  - intros _. exists c. by left.
Qed.

Lemma related_false C' p : related C' p = false ↔ children j C' p = [].
Proof. unfold related. by rewrite negb_false_iff, bool_decide_eq_true. Qed.

Lemma related_miss p : hit p = false → related C p = related C0 p.
Proof. intros Hh. destruct (children_kept p) as (Hch & _). rewrite Hh in Hch. unfold related. by rewrite Hch. Qed.

Lemma related_hit p :
  hit p = true →
  match ch with
  | Add _ => related C p = true ∧ related C0 p = other p
  | Remove _ => related C0 p = true ∧ related C p = other p
  | _ => related C0 p = true ∧ related C p = true
  end.
Proof.
  intros Hh. destruct (children_kept p) as (Hch & Hso & Hva). rewrite Hh in Hch. specialize (Hva Hh). unfold applied in Hch. unfold other.
  assert (∀ c, c ∈ C → joins p pkey c ckey = true → related C p = true) as HinC.
  { intros c Hc Hj. apply related_iff. exists c. by apply children_elem. }
  destruct ch as [n|n|n old|n r sub]; cbn [for_child_change apply_source_change primary_row change_valid] in *.
  - split; [apply related_iff; exists (node_row n); rewrite Hch; apply sl_insert_self|].
    apply eq_bool_prop_intro. rewrite !Is_true_true, related_iff, existsb_exists. setoid_rewrite <-list_elem_of_In. rewrite Hch.
    setoid_rewrite (sl_insert_perm ccmp (node_row n) _ Hva). setoid_rewrite elem_of_cons. split.
    + intros (c & Hc). exists c. split; [by right|]. pose proof (proj1 (sl_find_None ccmp _ _) Hva c Hc) as Hne. by destruct (ccmp c _).
    + intros (c & [->|Hc] & Hne); [by rewrite cmp_refl in Hne|by exists c].
  - split; [apply related_iff; by exists (node_row n)|].
    apply eq_bool_prop_intro. rewrite !Is_true_true, related_iff, existsb_exists. setoid_rewrite <-list_elem_of_In. rewrite Hch.
    split; [|naive_solver]. intros (c & Hc). exists c. split; [done|]. apply (sl_delete_iff ccmp) in Hc as [_ Hne]; [|done]. by destruct (ccmp _ _).
  - destruct Hva as [Ho _]. split; [apply related_iff; by exists (node_row old)|]. apply related_iff. exists (node_row n). rewrite Hch. apply sl_insert_self.
  - assert (related C p = true) as H by (by eapply HinC). split; [|done]. unfold related in *. by rewrite <-Hch.
Qed.

(** ** The consumer's tree *)

Lemma keep_insert (g : row → bool) r l :
  ssorted pcmp l → r ∈ l → sl_insert pcmp r (keep g l) = keep (λ x, g x || is_eq (pcmp x r)) l.
Proof.
  intros Hs. induction Hs as [|x l Hs IH Hx]; intros Hr; [by apply elem_of_nil in Hr|]. rewrite Forall_forall in Hx.
  rewrite !keep_cons. apply elem_of_cons in Hr as [->|Hr].
  - rewrite cmp_refl. cbn [is_eq]. rewrite orb_true_r.
    assert (keep (λ y, g y || is_eq (pcmp y x)) l = keep g l) as ->.
    { apply keep_ext. intros y Hy. rewrite (cmp_lt_gt pcmp x y) by auto. apply orb_false_r. }
    assert (Forall (λ y, pcmp x y = Lt) (keep g l)) as Ha.
    { apply Forall_forall. intros y [_ Hy]%list_elem_of_filter. auto. }
    destruct (g x); cbn [sl_insert]; [by rewrite cmp_refl|]. destruct Ha as [|y l' Hy]; [done|]. cbn [sl_insert].
    by rewrite (cmp_lt_gt pcmp x y).
  - rewrite (Hx r Hr), <-IH by done. cbn [is_eq]. rewrite orb_false_r. destruct (g x); [|done]. cbn [sl_insert]. by rewrite (Hx r Hr).
Qed.

Lemma keep_delete (g : row → bool) r l :
  ssorted pcmp l → sl_delete pcmp r (keep g l) = keep (λ x, g x && negb (is_eq (pcmp x r))) l.
Proof.
  intros Hs. apply (ssorted_perm_eq pcmp); [by apply (sl_delete_sorted pcmp), (keep_sorted pcmp)|by apply (keep_sorted pcmp)|].
  apply NoDup_Permutation; [by apply (ssorted_NoDup pcmp), (sl_delete_sorted pcmp), (keep_sorted pcmp)|by apply (ssorted_NoDup pcmp), (keep_sorted pcmp)|].
  intros x. rewrite (sl_delete_iff pcmp) by (by apply (keep_sorted pcmp)). unfold keep. rewrite !list_elem_of_filter, !Is_true_true, andb_true_iff, negb_true_iff.
  destruct (pcmp x r); cbn; naive_solver.
Qed.

Lemma Forall2_in {A B} (R Q : A → B → Prop) l k :
  Forall2 R l k → (∀ x y, x ∈ l → R x y → Q x y) → Forall2 Q l k.
Proof.
  intros H HQ. induction H as [|x y l k Hxy _ IH]; constructor; [apply HQ; [by left|done]|]. apply IH. intros a b Ha. apply HQ. by right.
Qed.

#[local] Abbreviation reach ms p := (existsb (λ m, is_eq (pcmp p (node_row m))) ms).

Lemma told_adds ms log g rows :
  ssorted pcmp rows → (∀ m, m ∈ ms → node_row m ∈ rows) →
  Forall2 (λ m e, ∃ n, e = Add n ∧ entry n = (node_row m, children j C (node_row m))) ms log →
  told (tree_of (children j C) (keep g rows)) log = tree_of (children j C) (keep (λ p, g p || reach ms p) rows).
Proof.
  intros Hs Hin H. revert g Hin. induction H as [|m c ms cs (n & -> & He) _ IH]; intros g Hin; cbn [foldl existsb].
  { f_equal. apply keep_ext. intros p _. by rewrite orb_false_r. }
  cbn [show]. rewrite He, <-tree_insert, keep_insert by (done || (apply Hin; by left)). rewrite IH by (intros x Hx; apply Hin; by right).
  f_equal. apply keep_ext. intros p _. by rewrite orb_assoc.
Qed.

Lemma told_removes ms log g C' rows :
  ssorted pcmp rows → Forall2 (λ m e, ∃ n, e = Remove n ∧ (entry n).1 = node_row m) ms log →
  told (tree_of (children j C') (keep g rows)) log = tree_of (children j C') (keep (λ p, g p && negb (reach ms p)) rows).
Proof.
  intros Hs H. revert g. induction H as [|m c ms cs (n & -> & He) _ IH]; intros g; cbn [foldl existsb].
  { f_equal. apply keep_ext. intros p _. by rewrite andb_true_r. }
  cbn [show]. destruct (entry n) as [r v]. cbn [fst] in He. subst r.
  rewrite <-(tree_delete parent_sort j C' (node_row m) v), keep_delete by done. rewrite IH.
  f_equal. apply keep_ext. intros p _. by rewrite negb_orb, andb_assoc.
Qed.

Lemma kept_rows (g h : row → bool) : (∀ n, n ∈ P → g (node_row n) = h (node_row n)) → keep g (map node_row P) = keep h (map node_row P).
Proof. intros H. apply keep_ext. intros r Hr. apply list_elem_of_fmap in Hr as (n & -> & Hn). by apply H. Qed.

#[local] Abbreviation push_child := (flipped_push_child parent_fetch child_fetch child_pk child_sort deadline f).

(** The parents of the changed child all have another child, or none has. *)
Lemma child_pushed err :
  ∃ stays log, push_child ch err = Some (err, log) ∧ Forall2 (told_by stays) matching log ∧
    (stays = false → match ch with Add _ | Remove _ => True | _ => False end) ∧
    ∀ m, m ∈ matching → related C0 (node_row m) = (stays || negb added) ∧ related C (node_row m) = (stays || added).
Proof.
  set (pre := match ch with Add _ | Remove _ => false | _ => true end).
  assert (push_child ch err = flipped_push_child_change parent_fetch child_fetch child_pk child_sort deadline f ch pre err) as ->.
  { unfold pre, flipped_push_child. destruct ch; try done. by rewrite (proj1 Hkept). }
  unfold flipped_push_child_change. rewrite Hout. cbn [mbind option_bind].
  destruct (join_constraint key_row ckey pkey (eq_sym Hkeys) Hkr) as (oc & Hoc & _). rewrite Hoc. cbn [mbind option_bind].
  pose proof (parents_of_key parent_fetch j Hkeys P ch Hparent Hkr oc Hoc) as Hms. cbn [jn_parent_key jn_child_key join_of] in Hms.
  set (stays := pre || match matching with [] => true | m :: _ => other (node_row m) end).
  assert (∀ m, m ∈ matching → pre = false → other (node_row m) = stays) as Hsame.
  { intros m Hm ->. unfold stays. cbn [orb]. destruct matching as [|x l] eqn:E; [by apply elem_of_nil in Hm|]. unfold other.
    assert (∀ y, y ∈ matching → hit (node_row y) = true) as Hh by (intros y Hy%list_elem_of_In; by apply filter_In in Hy as [_ Hy]).
    rewrite E in Hh. by rewrite (siblings C (node_row m) (node_row x)) by (by apply Hh; first [done|left]). }
  destruct (fan_out_told stays 0 matching pre err) as (log & Hf & Ht); [done|by unfold stays; intros ->|..].
  { intros Hp m Hm. rewrite has_other; [by rewrite Hsame| |].
    - unfold pre in Hp. by destruct ch.
    - apply list_elem_of_In, filter_In in Hm as [Hm%list_elem_of_In _]. by apply Hnodes. }
  exists stays, log. split_and!; [|done|by unfold stays, pre; destruct ch|].
  - destruct oc as [c|]; [by rewrite Hms|]. rewrite <-Hms in Ht. by inversion Ht.
  - intros m Hm. pose proof (Hsame m Hm) as Ho. apply list_elem_of_In, filter_In in Hm as [_ Hh]. pose proof (related_hit (node_row m) Hh) as Hr.
    unfold pre, stays in *. destruct ch; cbn [orb negb] in *; rewrite ?orb_false_r, ?orb_true_r.
    + destruct Hr as [-> ->]. by rewrite Ho.
    + destruct Hr as [-> ->]. by rewrite Ho.
    + done.
    + done.
Qed.

(** What goes out for a parent says whether it appears, disappears or stays. *)
Definition fate (m : node) (e : OutEdge * change) : Prop :=
  e.1 = out ∧ primary_row e.2 = node_row m ∧
  change_type_of e.2 = match related C0 (node_row m), related C (node_row m) with
                       | false, true => TAdd
                       | true, false => TRemove
                       | _, _ => TChild
                       end.

Lemma flipped_child_told err :
  ∃ log, push_child ch err = Some (err, log) ∧ Forall2 fate matching log ∧
    told (related_tree C0 (map node_row P)) (map snd log) = related_tree C (map node_row P).
Proof.
  destruct (child_pushed err) as (stays & log & Hp & Ht & Hst & Hrel). exists log. split; [done|].
  assert (∀ m, m ∈ matching → fresh_slot j m ∧ hit (node_row m) = true ∧ node_row m ∈ map node_row P) as Hm.
  { intros m Hm%list_elem_of_In. apply filter_In in Hm as [Hm%list_elem_of_In Hh]. split_and!; [by apply Hnodes|done|by apply list_elem_of_fmap_2]. }
  assert (∀ n, n ∈ P → related C (node_row n) = if hit (node_row n) then stays || added else related C0 (node_row n)) as HrC.
  { intros n Hn. destruct (hit (node_row n)) eqn:Hh; [|by apply related_miss]. apply Hrel. apply list_elem_of_In, filter_In. split; [by apply list_elem_of_In|done]. }
  assert (∀ n, n ∈ P → hit (node_row n) = true → related C0 (node_row n) = stays || negb added) as HrC0.
  { intros n Hn Hh. apply Hrel. apply list_elem_of_In, filter_In. split; [by apply list_elem_of_In|done]. }
  split.
  - apply Forall2_same_length_lookup_2; [by eapply Forall2_length|]. intros i m e Hmi He.
    pose proof (Forall2_lookup_lr _ _ _ _ _ _ Ht Hmi He) as [Ho Htb]. destruct (Hrel m) as [H0 H1]; [by eapply list_elem_of_lookup_2|].
    unfold fate. rewrite H0, H1. split; [done|]. destruct stays; cbn [orb].
    + destruct Htb as (pn & sub & -> & Hrow & _). done.
    + rewrite Htb. destruct m as [r rels]. by destruct added.
  - unfold related_tree.
    assert (∀ f1 f2 g, (∀ n, n ∈ P → g (node_row n) = true → f1 (node_row n) = f2 (node_row n)) →
      tree_of f1 (keep g (map node_row P)) = tree_of f2 (keep g (map node_row P))) as Hext.
    { intros f1 f2 g H. apply map_ext_in. intros r Hr%list_elem_of_In. apply list_elem_of_filter in Hr as [Hg Hr]. apply Is_true_true in Hg.
      apply list_elem_of_fmap in Hr as (n & -> & Hn). by rewrite H. }
    assert (∀ n, n ∈ P → reach matching (node_row n) = hit (node_row n)) as Hreach by (by apply (reached_all parent_sort j)).
    destruct stays; cbn [orb] in *.
    + rewrite (kept_rows (related C0) (related C)) by (intros n Hn; rewrite HrC by done; destruct (hit _) eqn:E; auto).
      rewrite (show_told parent_sort child_sort j ch matching).
      2: { apply Forall2_fmap_r. eapply Forall2_impl; [exact Ht|]. by intros m e [_ H]. }
      apply Hext. intros n Hn _. rewrite (deliver_once parent_sort child_sort ch) by (by apply (matching_sorted parent_sort j)).
      cbn [jn_parent_key jn_child_key join_of]. rewrite Hreach by done. symmetry. apply children_kept.
    + assert (∀ p, hit p = false → children j C0 p = children j C p) as Hmiss.
      { intros p Hh. destruct (children_kept p) as [-> _]. by rewrite Hh. }
      assert (∀ p, hit p = true → children j C p = applied child_sort ch (children j C0 p)) as Hhit.
      { intros p Hh. destruct (children_kept p) as [-> _]. by rewrite Hh. }
      assert (∀ m, m ∈ matching → entry (parent_with_only_child f m key_row) = (node_row m, [key_row])) as Hentry.
      { intros m (Hf & _)%Hm. pose proof (entry_appended j m [leaf_node key_row] Hf) as He. by destruct m. }
      assert (added = true → applied child_sort ch [] = [key_row]) as Hone by (clear; by destruct ch).
      unfold told_by in Ht. destruct added; cbn [negb] in *.
      * rewrite (Hext _ (children j C)).
        2: { intros x Hx Hr. apply Hmiss. destruct (hit (node_row x)) eqn:E; [|done]. by rewrite HrC0 in Hr. }
        rewrite (told_adds matching); [|done|intros m Hm'; by destruct (Hm m Hm') as (_ & _ & H)|].
        { f_equal. apply kept_rows. intros x Hx. rewrite Hreach, HrC by done. destruct (hit _); [by rewrite orb_true_r|by rewrite orb_false_r]. }
        apply Forall2_fmap_r. apply (Forall2_in _ _ _ _ Ht). intros m e Hin [_ He]. unfold compose. rewrite He. eexists. split; [done|].
        destruct (Hm m Hin) as (_ & Hh & _), (Hrel m Hin) as [H0 _]. apply related_false in H0. by rewrite Hentry, Hhit, H0, Hone.
      * rewrite (told_removes matching); [|done|].
        { rewrite (kept_rows _ (related C)).
          - apply Hext. intros x Hx Hr. apply Hmiss. rewrite HrC in Hr by done. by destruct (hit _).
          - intros x Hx. rewrite Hreach, HrC by done. destruct (hit _); [by rewrite andb_false_r|by rewrite andb_true_r]. }
        apply Forall2_fmap_r. apply (Forall2_in _ _ _ _ Ht). intros m e Hin [_ He]. unfold compose. rewrite He. eexists. split; [done|]. by rewrite Hentry.
Qed.
End child_change.

(** ** A parent change *)

Lemma related_kept old n :
  row_equals_for_compound_key old n pkey = Some true → related C old = related C n.
Proof.
  intros Hk. unfold related. repeat f_equal. apply bool_decide_ext. assert (children j C old = children j C n) as ->; [|done].
  apply keep_ext. intros c _. rewrite !(joins_sym _ _ c). unfold joins. cbn [jn_parent_key jn_child_key join_of].
  by rewrite (is_join_match_kept c ckey old n pkey).
Qed.

Lemma flip_entry n :
  has_key (node_row n) pkey ∧ fresh_slot j n →
  has_related_child child_fetch f (node_row n) = Some (related C (node_row n)) ∧
  ∃ pn, flip child_fetch child_pk child_sort f n = Some pn ∧ entry pn = (node_row n, children j C (node_row n)) ∧ node_row pn = node_row n.
Proof. intros [Hk Hf]. split; [by apply has_related|]. by apply attach_plain. Qed.

Lemma flipped_parent_told ch P err :
  parent_ok j ch → ssorted pcmp P →
  match for_child_change ch with Some sc => change_valid pcmp sc P | None => True end →
  match ch with Edit n old => row_equals_for_compound_key (node_row old) (node_row n) pkey = Some true | _ => True end →
  ∃ log, flipped_push_parent child_fetch child_pk child_sort f ch err = Some (err, log) ∧
    Forall (λ e, e.1 = out ∧ change_type_of e.2 = change_type_of ch ∧ primary_row e.2 = primary_row ch) log ∧
    length log = (if related C (primary_row ch) then 1 else 0) ∧
    foldl (show parent_sort child_sort j) (related_tree C P) (map snd log) =
      related_tree C (match for_child_change ch with Some sc => apply_source_change pcmp sc P | None => P end).
Proof.
  intros Hok Hs Hv Hkey. unfold flipped_push_parent. rewrite Hout. cbn [mbind option_bind]. unfold related_tree.
  pose proof (λ sc, filter_push_keep pcmp (related C) sc P Hs) as Hkeep.
  destruct ch as [n|n|n old|n rel sub]; cbn [parent_ok for_child_change primary_row change_valid] in *.
  - destruct (flip_entry n Hok) as (-> & pn & -> & He & Hr). cbn [mbind option_bind]. rewrite (Hkeep (SAdd _)) by done. cbn [filter_push].
    destruct (related C (node_row n)); (eexists; split; [done|]; split_and!; [by repeat constructor|done|]); [|done].
    cbn [map foldl snd show apply_source_change]. by rewrite He, tree_insert.
  - destruct (flip_entry n Hok) as (-> & pn & -> & He & Hr). cbn [mbind option_bind]. rewrite (Hkeep (SRemove _)) by done. cbn [filter_push].
    destruct (related C (node_row n)); (eexists; split; [done|]; split_and!; [by repeat constructor|done|]); [|done].
    cbn [map foldl snd show apply_source_change]. by rewrite He, (tree_delete parent_sort j C (node_row n) (children j C (node_row n))).
  - rewrite Hkey. cbn [mbind option_bind].
    destruct (flip_entry n (proj1 Hok)) as (-> & pn & -> & He & Hr), (flip_entry old (proj2 Hok)) as (_ & po & -> & Heo & _). cbn [mbind option_bind].
    rewrite (Hkeep (SEdit _ _)) by done. cbn [filter_push]. rewrite (related_kept (node_row old) (node_row n)) by done.
    destruct (related C (node_row n)); cbn [andb]; (eexists; split; [done|]; split_and!; [by repeat constructor|done|]); [|done].
    cbn [map foldl snd show apply_source_change].
    by rewrite He, Heo, tree_insert, (tree_delete parent_sort j C (node_row old) (children j C (node_row old))).
  - destruct (flip_entry n (proj1 Hok)) as (-> & pn & -> & He & Hr). cbn [mbind option_bind].
    destruct (related C (node_row n)); (eexists; split; [done|]; split_and!; [by repeat constructor|done|]); [|done].
    cbn [map foldl snd show]. cbn [jn_rel_slot join_of]. by destruct (Nat.eqb_spec rel slot); [destruct (proj2 Hok)|].
Qed.
End flipped.

(** ** What a flipped join promises *)

Section promises.
Context (parent_fetch child_fetch : FetchRequest → list node).
Context (parent_sort : Sort) (child_pk : list nat) (child_sort : Sort) (deadline : nat → bool) (f : FlippedOp).
#[local] Abbreviation j := (join_of f).

(** [P] is what the parent answers a request with: in the order asked for, and with
    a batch the rows that match one of its constraints.  The children have their
    keys, comparable with the request's. *)
Record flipped_fetch_ready (req : FetchRequest) (C : list row) (P : list node) : Prop := {
  ff_chunk : 0 < fj_chunk_size f;
  ff_sorted : StronglySorted (λ a b, compare_rows_rev parent_sort (req_reverse req) (node_row a) (node_row b) = Lt) P;
  ff_batch batch : batch ≠ [] →
    parent_fetch (parent_batch_req req batch) = List.filter (λ n, existsb (cmatch (node_row n)) batch) P;
  ff_matches n : n ∈ P → match req_constraint req with Some rc => cmatch (node_row n) rc = true | None => True end;
  ff_nodes n : n ∈ P → has_key (node_row n) (fj_parent_key f) ∧ fresh_slot j n;
  ff_children : map node_row (child_fetch fetch_all) = C;
  ff_rows c : c ∈ C → has_key c (fj_child_key f);
  ff_typed c k v : c ∈ C → build_join_constraint c (fj_child_key f) (fj_parent_key f) = Some (Some k) →
    req_constraint req = Some v → is_Some (constraints_are_compatible k v)
}.

(** [C27] A fetch of a flipped join yields, in the order of the request, exactly the
    parents the request asks for that have a child, each with its children; the size
    of the chunks the batch of keys is cut into, and with it whether the answers are
    merged, makes no difference. *)
Theorem flipped_fetch_exact (out : OutEdge) (req : FetchRequest) (C : list row) (P : list node) :
  join_wired child_fetch j out C → flipped_fetch_ready req C P →
  ∃ pns, flipped_fetch parent_fetch child_fetch parent_sort child_pk child_sort f req = Some pns ∧
    map (entry_of j) pns =
      map (λ n, (node_row n, children j C (node_row n))) (List.filter (λ n, negb (bool_decide (children j C (node_row n) = []))) P).
Proof.
  intros [Ho Hk Hc] []. by apply (fetch_exact parent_fetch child_fetch parent_sort child_pk child_sort (λ _, false) f Hk C Hc req P).
Qed.

(** The primary key tells the children apart, also as a compound key; an edit keeps
    the join key, and a change below a child leaves it in place. *)
Record flipped_change_ready (C0 C : list row) (P : list node) (ch : change) : Prop := {
  fc_change : child_change_ready parent_fetch parent_sort child_pk child_sort j C0 C P ch;
  fc_keys0 : key_tells child_pk child_sort C0;
  fc_keys : key_tells child_pk child_sort C;
  fc_kept : match ch with
            | Edit n old => is_Some (same_pk (node_row n) (node_row old) child_pk)
            | Child n _ _ => node_row n ∈ C
            | _ => True
            end
}.

#[local] Abbreviation pushed := (flipped_push parent_fetch child_fetch child_pk child_sort deadline f).
#[local] Abbreviation shown := (foldl (show parent_sort child_sort j)).

(** [C28] A change of a child goes to each of its parents once, in order: the parent
    appears with its first child, disappears with its last, and otherwise has a
    change of its relationship; together they take the consumer's tree of the
    parents that have a child from before the change to after it. *)
Theorem flipped_child_push_maintains (out : OutEdge) (C0 C : list row) (P : list node) (ch : change) (err : option RindleError) :
  join_wired child_fetch j out C → flipped_change_ready C0 C P ch → (∀ i, deadline i = false) →
  ∃ log, pushed ch JoinChild err = Some (err, log) ∧
    Forall2 (λ m e, e.1 = out ∧ primary_row e.2 = node_row m ∧
      change_type_of e.2 = match related f C0 (node_row m), related f C (node_row m) with
                           | false, true => TAdd
                           | true, false => TRemove
                           | _, _ => TChild
                           end) (hit_parents j P ch) log ∧
    shown (related_tree f C0 (map node_row P)) (map snd log) = related_tree f C (map node_row P).
Proof.
  intros [Ho Hk Hc] [[] H0 H1 Hkept] Hd. cbn [flipped_push].
  apply (flipped_child_told parent_fetch child_fetch parent_sort child_pk child_sort deadline f out Ho Hk C Hc C0 P ch); try done.
  by destruct ch.
Qed.

(** A change of a parent passes exactly when the parent has a child, with the
    children attached, and takes the consumer's tree of the parents that have a child
    to that of the changed parents. *)
Theorem flipped_parent_push_maintains (out : OutEdge) (C P : list row) (ch : change) (err : option RindleError) :
  join_wired child_fetch j out C → parent_ok j ch → ssorted (row_cmp parent_sort) P →
  match for_child_change ch with Some sc => change_valid (row_cmp parent_sort) sc P | None => True end →
  match ch with
  | Edit n old => row_equals_for_compound_key (node_row old) (node_row n) (fj_parent_key f) = Some true
  | _ => True
  end →
  ∃ log, pushed ch JoinParent err = Some (err, log) ∧
    Forall (λ e, e.1 = out ∧ change_type_of e.2 = change_type_of ch ∧ primary_row e.2 = primary_row ch) log ∧
    length log = (if related f C (primary_row ch) then 1 else 0) ∧
    shown (related_tree f C P) (map snd log) =
      related_tree f C (match for_child_change ch with Some sc => apply_source_change (row_cmp parent_sort) sc P | None => P end).
Proof.
  intros [Ho Hk Hc] Hok Hs Hv Hkey. cbn [flipped_push].
  by apply (flipped_parent_told child_fetch parent_sort child_pk child_sort f out Ho Hk C Hc ch P err).
Qed.
End promises.

(** ** Two tables *)

Definition ex_source (rows : list row) (req : FetchRequest) : list node :=
  map leaf_node (keep (λ r, match req_constraint req with Some c => cmatch r c | None => true end &&
    forallb (existsb (cmatch r)) (multi_constraints req)) rows).

Lemma ex_source_nodes rows c :
  ex_source rows (fetch_with_constraint c) = List.filter (λ n, cmatch (node_row n) c) (map leaf_node rows).
Proof.
  unfold ex_source. cbn. induction rows as [|r rows IH]; [done|]. rewrite keep_cons, andb_true_r. cbn [map List.filter node_row leaf_node].
  destruct (cmatch r c); cbn [map]; by rewrite <-IH.
Qed.

Lemma ex_source_rows rows c : map node_row (ex_source rows (fetch_with_constraint c)) = keep (λ r, cmatch r c) rows.
Proof.
  unfold ex_source. rewrite map_map. cbn. rewrite map_id. apply keep_ext. intros r _. apply andb_true_r.
Qed.

Lemma ex_source_batch rows batch :
  ex_source rows (parent_batch_req fetch_all batch) = List.filter (λ n, existsb (cmatch (node_row n)) batch) (map leaf_node rows).
Proof.
  unfold ex_source, parent_batch_req. cbn [req_constraint multi_constraints fetch_all app forallb andb].
  induction rows as [|r rows IH]; [done|]. rewrite keep_cons, andb_true_r. cbn [map List.filter node_row leaf_node].
  destruct (existsb (cmatch r) batch); cbn [map]; by rewrite <-IH.
Qed.

Definition ex_flipped : FlippedOp := with_chunk_size (MkFlipped 0 1 [1] [1] 5 256 (Some (MkEdge 2 Single))) 1.

Lemma ex_flipped_wired rows : join_wired (ex_source rows) (join_of ex_flipped) (MkEdge 2 Single) rows.
Proof. split; [reflexivity..|]. intros c. apply ex_source_rows. Qed.

Lemma ex_key_tells l :
  Forall (λ a, Forall (λ b, same_pk a b [0] = Some (is_eq (row_cmp ex_jsort a b)) ∧
    row_equals_for_compound_key a b [0] = Some (is_eq (row_cmp ex_jsort a b))) l) l → key_tells [0] ex_jsort l.
Proof. intros H a b Ha Hb. rewrite Forall_forall in H. specialize (H a Ha). rewrite Forall_forall in H. by apply H. Qed.

Lemma ex_parent_nodes n : n ∈ map leaf_node ex_parents → has_key (node_row n) [1] ∧ fresh_slot (join_of ex_flipped) n.
Proof.
  intros Hn. apply list_elem_of_fmap in Hn as (r & -> & Hr). unfold ex_parents in Hr.
  rewrite !elem_of_cons, elem_of_nil in Hr. destruct Hr as [->|[->|[->|[]]]]; (split; [repeat constructor|apply not_elem_of_nil]).
Qed.

(** The first child of two parents, after one of another. *)
Definition ex_one : list row := [ex_jrow 12 8].
Definition ex_two : list row := [ex_jrow 11 7; ex_jrow 12 8].

Lemma flipped_fetch_exact_witness :
  ∃ pns, flipped_fetch (ex_source ex_parents) (ex_source ex_after) ex_jsort [0] ex_jsort ex_flipped fetch_all = Some pns ∧
    map (entry_of (join_of ex_flipped)) pns =
      map (λ n, (node_row n, children (join_of ex_flipped) ex_after (node_row n)))
        (List.filter (λ n, negb (bool_decide (children (join_of ex_flipped) ex_after (node_row n) = []))) (map leaf_node ex_parents)).
Proof.
  apply (flipped_fetch_exact (ex_source ex_parents) (ex_source ex_after) ex_jsort [0] ex_jsort ex_flipped (MkEdge 2 Single)).
  - apply ex_flipped_wired.
  - split.
    + apply Nat.ltb_lt. reflexivity.
    + repeat constructor.
    + intros batch _. apply ex_source_batch.
    + intros n _. exact I.
    + apply ex_parent_nodes.
    + reflexivity.
    + intros c Hc. unfold ex_after in Hc. rewrite !elem_of_cons, elem_of_nil in Hc. destruct Hc as [->|[->|[->|[]]]]; repeat constructor.
    + intros c k v _ _ Hv. discriminate Hv.
Defined.

Lemma flipped_child_push_maintains_witness :
  ∃ log, flipped_push (ex_source ex_parents) (ex_source ex_two) [0] ex_jsort (λ _, false) ex_flipped ex_child_add JoinChild None = Some (None, log) ∧
    Forall2 (λ m e, e.1 = MkEdge 2 Single ∧ primary_row e.2 = node_row m ∧
      change_type_of e.2 = match related ex_flipped ex_one (node_row m), related ex_flipped ex_two (node_row m) with
                           | false, true => TAdd
                           | true, false => TRemove
                           | _, _ => TChild
                           end) (hit_parents (join_of ex_flipped) (map leaf_node ex_parents) ex_child_add) log ∧
    foldl (show ex_jsort ex_jsort (join_of ex_flipped)) (related_tree ex_flipped ex_one (map node_row (map leaf_node ex_parents))) (map snd log) =
      related_tree ex_flipped ex_two (map node_row (map leaf_node ex_parents)).
Proof.
  apply (flipped_child_push_maintains (ex_source ex_parents) (ex_source ex_two) ex_jsort [0] ex_jsort (λ _, false) ex_flipped).
  - apply ex_flipped_wired.
  - split; [split|..].
    + reflexivity.
    + repeat constructor.
    + reflexivity.
    + apply ex_pk_tells. repeat constructor.
    + apply ex_pk_tells. repeat constructor.
    + repeat constructor.
    + intros c. apply ex_source_nodes.
    + reflexivity.
    + intros n Hn. destruct (ex_parent_nodes n Hn) as [Hk Hf]. split; [exact Hk|]. split; [exact Hf|].
      apply list_elem_of_fmap in Hn as (r & -> & Hr). unfold ex_parents in Hr.
      rewrite !elem_of_cons, elem_of_nil in Hr. destruct Hr as [->|[->|[->|[]]]]; by eexists.
    + repeat constructor.
    + exact I.
    + apply ex_key_tells. repeat constructor.
    + apply ex_key_tells. repeat constructor.
    + exact I.
  - intros i. reflexivity.
Defined.

Lemma flipped_parent_push_maintains_witness :
  ∃ log, flipped_push (ex_source ex_parents) (ex_source ex_two) [0] ex_jsort (λ _, false) ex_flipped (Add (leaf_node (ex_jrow 4 8))) JoinParent None =
      Some (None, log) ∧
    Forall (λ e, e.1 = MkEdge 2 Single ∧ change_type_of e.2 = TAdd ∧ primary_row e.2 = ex_jrow 4 8) log ∧
    length log = (if related ex_flipped ex_two (ex_jrow 4 8) then 1 else 0) ∧
    foldl (show ex_jsort ex_jsort (join_of ex_flipped)) (related_tree ex_flipped ex_two ex_parents) (map snd log) =
      related_tree ex_flipped ex_two (apply_source_change (row_cmp ex_jsort) (SAdd (ex_jrow 4 8)) ex_parents).
Proof.
  apply (flipped_parent_push_maintains (ex_source ex_parents) (ex_source ex_two) ex_jsort [0] ex_jsort (λ _, false) ex_flipped).
  - apply ex_flipped_wired.
  - split; [repeat constructor|apply not_elem_of_nil].
  - repeat constructor.
  - reflexivity.
  - exact I.
Defined.
