(* ===== verification/Union.v ===== *)
(** * The union OR fan ([rust/src/op/union.rs])

    The fan of an [OR] with a flipped branch.  [UnionFanOut] hands a change to every
    branch; [UnionFanIn] collects what the branches push, materialised, and lets one
    change out.  A fetch merges the branches and drops the rows seen twice.  A change
    a branch pushes while no broadcast runs is checked against the other branches.

    A branch is a function from a change to the changes its tail pushes, and from a
    request to the nodes it answers with. *)

From stdpp Require Import base list numbers option strings.
From Stdlib Require Import ZArith Lia.
From S2P Require Import Prelude Values Rows Schema Change Connections Overlay NodeMerge.

#[local] Open Scope nat_scope.

(** ** The collapse of what the branches push *)

Abbreviation owned_rels := (list (nat * list owned_node)).

Definition merge_owned_rels (left right : owned_rels) : owned_rels :=
  foldl (λ left r, if existsb (λ l : nat * list owned_node, l.1 =? r.1) left then left else left ++ [r]) left right.

Definition owned_row (n : owned_node) : row := let 'ONode r _ := n in r.
Definition owned_rels_of (n : owned_node) : owned_rels := let 'ONode _ rels := n in rels.

Definition with_merged_rels (n : owned_node) (right : owned_rels) : owned_node :=
  ONode (owned_row n) (merge_owned_rels (owned_rels_of n) right).

Definition merge_node_into (slot : option owned_node) (incoming : owned_node) : option owned_node :=
  match slot with
  | Some existing => Some (with_merged_rels existing (owned_rels_of incoming))
  | None => Some incoming
  end.

Definition merge_edit_into (slot : option (owned_node * owned_node)) (n old : owned_node) : option (owned_node * owned_node) :=
  match slot with
  | Some (en, eo) => Some (with_merged_rels en (owned_rels_of n), with_merged_rels eo (owned_rels_of old))
  | None => Some (n, old)
  end.

(** [unreachable!] is [None]. *)
Definition merge_child_into (slot : option owned_change) (incoming : owned_change) : option (option owned_change) :=
  match slot with
  | Some (OChild existing rel sub) =>
      Some (Some (match incoming with
                  | OChild inc _ _ => OChild (with_merged_rels existing (owned_rels_of inc)) rel sub
                  | _ => OChild existing rel sub
                  end))
  | Some _ => None
  | None => Some (Some incoming)
  end.

(** The slots from [i] on, [k] of them. *)
Fixpoint fill_slots (i k : nat) (rels : owned_rels) : owned_rels :=
  match k with
  | O => rels
  | S k => fill_slots (S i) k (if existsb (λ l : nat * list owned_node, l.1 =? i) rels then rels else rels ++ [(i, [])])
  end.

Definition add_empty_relationships (c : owned_change) (schema : Schema) : owned_change :=
  let fill n := ONode (owned_row n) (fill_slots 0 (length (relationships schema)) (owned_rels_of n)) in
  match relationships schema with
  | [] => c
  | _ =>
      match c with
      | OAdd n => OAdd (fill n)
      | ORemove n => ORemove (fill n)
      | OEdit n old => OEdit (fill n) (fill old)
      | OChild _ _ _ => c
      end
  end.

(** One change per type. *)
Record collapse := MkCollapse {
  co_add : option owned_node;
  co_remove : option owned_node;
  co_edit : option (owned_node * owned_node);
  co_child : option owned_change
}.

Definition collapse_step (k : collapse) (c : owned_change) : option collapse :=
  match c with
  | OAdd n => Some (MkCollapse (merge_node_into (co_add k) n) (co_remove k) (co_edit k) (co_child k))
  | ORemove n => Some (MkCollapse (co_add k) (merge_node_into (co_remove k) n) (co_edit k) (co_child k))
  | OEdit n old => Some (MkCollapse (co_add k) (co_remove k) (merge_edit_into (co_edit k) n old) (co_child k))
  | OChild _ _ _ => ch ← merge_child_into (co_child k) c; Some (MkCollapse (co_add k) (co_remove k) (co_edit k) ch)
  end.

Fixpoint collapse_all (k : collapse) (acc : list owned_change) : option collapse :=
  match acc with
  | [] => Some k
  | c :: acc => k ← collapse_step k c; collapse_all k acc
  end.

Definition survivor (add remove : option owned_node) : option owned_change :=
  match add, remove with
  | Some a, _ => Some (OAdd a)
  | None, Some r => Some (ORemove r)
  | None, None => None
  end.

(** What the collapsed changes become, by the type of the broadcast change. *)
Definition collapse_emit (k : collapse) (fan_out_type : change_type) (schema : Schema) : option owned_change :=
  let wrap c := add_empty_relationships c schema in
  match fan_out_type with
  | TRemove => wrap <$> (ORemove <$> co_remove k)
  | TAdd => wrap <$> (OAdd <$> co_add k)
  | TEdit =>
      wrap <$>
      match co_edit k with
      | Some (en, eo) =>
          Some (OEdit (match co_add k with Some a => with_merged_rels en (owned_rels_of a) | None => en end)
                      (match co_remove k with Some r => with_merged_rels eo (owned_rels_of r) | None => eo end))
      | None =>
          match co_add k, co_remove k with
          | Some a, Some r => Some (OEdit a r)
          | add, remove => survivor add remove
          end
      end
  | TChild =>
      match co_child k with
      | Some c => Some c
      | None => wrap <$> survivor (co_add k) (co_remove k)
      end
  end.

Definition push_accumulated_changes (acc : list owned_change) (fan_out_type : change_type) (schema : Schema) :
    option (option owned_change) :=
  match acc with
  | [] => Some None
  | _ => k ← collapse_all (MkCollapse None None None None) acc; Some (collapse_emit k fan_out_type schema)
  end.

(** ** The operators *)

Record UnionFanOut := MkUnionFanOut {
  uo_input : nat;
  uo_outputs : list OutEdge;
  uo_fan_in : option nat
}.

Definition union_fan_out_new (input : nat) : UnionFanOut := MkUnionFanOut input [] None.

Definition union_set_fan (u : UnionFanOut) (branches : list OutEdge) (fan_in : nat) : UnionFanOut :=
  MkUnionFanOut (uo_input u) branches (Some fan_in).

Record UnionFanIn := MkUnionFanIn {
  ui_fan_out : nat;
  ui_inputs : list nat;
  ui_branch_constraints : list Constraint;
  ui_schema : Schema;
  ui_output : option OutEdge
}.

(** What a push changes. *)
Record UnionSt := MkUnionSt {
  us_started : bool;
  us_accumulated : list owned_change
}.

(** The two [assert!]s. *)
Definition union_fan_in_new (fan_out : nat) (inputs : list nat) (branch_constraints : list Constraint) (schema : Schema) :
    option (UnionFanIn * UnionSt) :=
  if bool_decide (schema_sort schema = []) then None
  else if length inputs =? length branch_constraints
       then Some (MkUnionFanIn fan_out inputs branch_constraints schema None, MkUnionSt false [])
       else None.

Definition union_set_output (u : UnionFanIn) (edge : OutEdge) : UnionFanIn :=
  MkUnionFanIn (ui_fan_out u) (ui_inputs u) (ui_branch_constraints u) (ui_schema u) (Some edge).

Section union.
Context (fetch : nat → FetchRequest → list node).

Definition union_fan_out_fetch (u : UnionFanOut) (req : FetchRequest) : list node := fetch (uo_input u) req.

Context (u : UnionFanIn).

(** ** Fetch *)

Definition fetch_branch (input : nat) (branch_constraint : Constraint) (req : FetchRequest) : option (list node) :=
  match branch_constraint with
  | [] => Some (fetch input req)
  | _ =>
      ok ← match req_constraint req with
           | Some c => constraints_are_compatible c branch_constraint
           | None => Some true
           end;
      Some (if negb ok then []
            else fetch input (MkFetch (Some (merge_constraints (req_constraint req) branch_constraint))
                                (multi_constraints req) (start req) (req_reverse req)))
  end.

Definition union_fetch (req : FetchRequest) : option (list node) :=
  streams ← mapM (λ b : nat * Constraint, fetch_branch b.1 b.2 req) (zip (ui_inputs u) (ui_branch_constraints u));
  merge_node_streams streams (schema_sort (ui_schema u)) (req_reverse req) (Some (schema_pk (ui_schema u))).

(** ** Push *)

(** What was pushed downstream. *)
Abbreviation union_log := (list (OutEdge * change)).

Definition fan_out_started (st : UnionSt) : option UnionSt :=
  if us_started st then None else Some (MkUnionSt true (us_accumulated st)).

Definition pk_constraint (r : row) : option Constraint := mapM (λ c, v ← r !! c; Some (c, v)) (schema_pk (ui_schema u)).

(** The branches that yield the row. *)
Definition branches_with (c : Constraint) : nat :=
  length (List.filter (λ i, match fetch i (fetch_with_constraint c) with [] => false | _ => true end) (ui_inputs u)).

Definition push_internal_change (ch : change) : option union_log :=
  out ← ui_output u;
  forward ← match ch with
            | Child _ _ _ | Edit _ _ => Some true
            | Add n => c ← pk_constraint (node_row n); Some (branches_with c =? 1)
            | Remove n => c ← pk_constraint (node_row n); Some (branches_with c =? 0)
            end;
  Some (if (forward : bool) then [(out, ch)] else []).

Definition union_push (st : UnionSt) (ch : change) : option (UnionSt * union_log) :=
  if us_started st
  then Some (MkUnionSt (us_started st) (us_accumulated st ++ [materialize_change_preserving_node ch]), [])
  else log ← push_internal_change ch; Some (st, log).

Definition fan_out_done (st : UnionSt) (fan_out_type : change_type) : option (UnionSt * union_log) :=
  let st' := MkUnionSt false [] in
  match ui_inputs u with
  | [] => Some (st', [])
  | _ =>
      collapsed ← push_accumulated_changes (us_accumulated st) fan_out_type (ui_schema u);
      match collapsed with
      | Some c => out ← ui_output u; Some (st', [(out, rebuild_change c)])
      | None => Some (st', [])
      end
  end.

(** The changes a branch's tail pushes, one after another. *)
Fixpoint union_push_all (st : UnionSt) (cs : list change) : option (UnionSt * union_log) :=
  match cs with
  | [] => Some (st, [])
  | c :: cs =>
      '(st, log) ← union_push st c;
      '(st, log') ← union_push_all st cs;
      Some (st, log ++ log')
  end.

(** [UnionFanOut::push]: [branch] is what the tail of the branch behind an edge pushes
    into the fan-in. *)
Definition union_fan_out_push (o : UnionFanOut) (branch : OutEdge → change → list change) (ch : change) (st : UnionSt) :
    option (UnionSt * union_log) :=
  _ ← uo_fan_in o;
  st ← fan_out_started st;
  let owned := materialize_change_preserving_node ch in
  '(st, log) ← union_push_all st (uo_outputs o ≫= λ e, branch e (rebuild_change owned));
  '(st, log') ← fan_out_done st (change_type_of ch);
  Some (st, log ++ log').
End union.
