(* ===== verification/UnionFacts.v ===== *)
(** * What a union fan shows

    A broadcast comes out, once, as what the change is for the rows that some branch
    lets through, its relationships merged from the branches and complete; a change
    pushed by one branch alone passes exactly when it changes that set; a fetch
    yields its rows once and in order. *)

From stdpp Require Import base list numbers option sorting sets strings.
From Stdlib Require Import ZArith Lia.
From S2P Require Import Prelude Values Rows Schema BTree BTreeFacts BTreeCursor Change Connections Overlay Merge Push MemorySourceFacts SourceFetch JoinUtil NodeMerge Union.

#[local] Open Scope nat_scope.

(** ** Relationships *)

Definition rel_slot_of (n : owned_node) (s : nat) : option (list owned_node) := assoc (owned_rels_of n) s.

(** The first of the nodes that have the slot. *)
Definition first_rel (ns : list owned_node) (s : nat) : option (list owned_node) := head (omap (λ n, rel_slot_of n s) ns).

Lemma first_rel_cons n ns s : first_rel (n :: ns) s = match rel_slot_of n s with Some x => Some x | None => first_rel ns s end.
Proof. unfold first_rel. cbn [omap list_omap]. by destruct (rel_slot_of n s). Qed.

Lemma first_rel_app ns ns' s : first_rel (ns ++ ns') s = match first_rel ns s with Some x => Some x | None => first_rel ns' s end.
Proof. induction ns as [|n ns IH]; [done|]. cbn [app]. rewrite !first_rel_cons, IH. by destruct (rel_slot_of n s). Qed.

Lemma assoc_app {A} (l l' : list (nat * A)) s : assoc (l ++ l') s = match assoc l s with Some x => Some x | None => assoc l' s end.
Proof. induction l as [|[k v] l IH]; [done|]. cbn. by case_decide. Qed.

Lemma has_slot {A} (l : list (nat * A)) s : existsb (λ x : nat * A, x.1 =? s) l = match assoc l s with Some _ => true | None => false end.
Proof.
  induction l as [|[k v] l IH]; [done|]. cbn [existsb assoc fst]. rewrite IH.
  destruct (Nat.eqb_spec k s); [by rewrite decide_True|by rewrite decide_False].
Qed.

(** The left relationship wins. *)
Lemma merge_owned_rels_lookup left right s :
  assoc (merge_owned_rels left right) s = match assoc left s with Some x => Some x | None => assoc right s end.
Proof.
  unfold merge_owned_rels. revert left. induction right as [|[k v] right IH]; intros left; cbn [foldl fst].
  { cbn. by destruct (assoc left s). }
  rewrite IH, has_slot. cbn [assoc]. destruct (assoc left k) as [x|] eqn:E.
  - destruct (assoc left s) as [y|] eqn:E'; [done|]. case_decide as Hk; [|done]. subst. congruence.
  - rewrite assoc_app. destruct (assoc left s) as [y|] eqn:E'; [done|]. cbn. by case_decide.
Qed.

Lemma fill_slots_lookup i k rels s :
  assoc (fill_slots i k rels) s =
    match assoc rels s with Some x => Some x | None => if decide (i ≤ s < i + k) then Some [] else None end.
Proof.
  revert i rels. induction k as [|k IH]; intros i rels; cbn [fill_slots].
  { destruct (assoc rels s); [done|]. rewrite decide_False; [done|lia]. }
  rewrite IH, has_slot. destruct (assoc rels i) as [x|] eqn:E.
  - destruct (assoc rels s) as [y|] eqn:E'; [done|]. destruct (decide (s = i)) as [->|]; [congruence|]. do 2 case_decide; done || lia.
  - rewrite assoc_app. destruct (assoc rels s) as [y|]; [done|]. cbn. destruct (decide (i = s)) as [->|].
    + rewrite decide_True; [done|lia].
    + do 2 case_decide; done || lia.
Qed.

Lemma merge_all slot ns :
  foldl merge_node_into slot ns =
    match slot, ns with
    | None, [] => None
    | None, n :: ns => Some (foldl (λ n m, with_merged_rels n (owned_rels_of m)) n ns)
    | Some n, ns => Some (foldl (λ n m, with_merged_rels n (owned_rels_of m)) n ns)
    end.
Proof.
  assert (∀ ns n, foldl merge_node_into (Some n) ns = Some (foldl (λ n m, with_merged_rels n (owned_rels_of m)) n ns)) as H.
  { clear. induction ns as [|m ns IH]; intros n; [done|]. cbn [foldl merge_node_into]. apply IH. }
  destruct slot as [n|]; [apply H|]. destruct ns as [|n ns]; [done|]. apply H.
Qed.

Lemma merged_row n ns : owned_row (foldl (λ n m, with_merged_rels n (owned_rels_of m)) n ns) = owned_row n.
Proof. revert n. induction ns as [|m ns IH]; intros n; [done|]. cbn [foldl]. by rewrite IH. Qed.

Lemma merged_rels n ns s : rel_slot_of (foldl (λ n m, with_merged_rels n (owned_rels_of m)) n ns) s = first_rel (n :: ns) s.
Proof.
  revert n. induction ns as [|m ns IH]; intros n; [cbn [foldl]; rewrite first_rel_cons; by destruct (rel_slot_of n s)|].
  cbn [foldl]. rewrite IH, !first_rel_cons. unfold rel_slot_of at 1. cbn [owned_rels_of with_merged_rels].
  rewrite merge_owned_rels_lookup. fold (rel_slot_of n s) (rel_slot_of m s). by destruct (rel_slot_of n s).
Qed.

(** ** The collapse: one change per type *)

Definition adds (acc : list owned_change) : list owned_node := omap (λ c, match c with OAdd n => Some n | _ => None end) acc.
Definition removes (acc : list owned_change) : list owned_node := omap (λ c, match c with ORemove n => Some n | _ => None end) acc.
Definition edits (acc : list owned_change) : list (owned_node * owned_node) :=
  omap (λ c, match c with OEdit n old => Some (n, old) | _ => None end) acc.
Definition childs (acc : list owned_change) : list owned_change :=
  omap (λ c, match c with OChild _ _ _ => Some c | _ => None end) acc.

Lemma merge_edits slot es :
  foldl (λ slot (e : owned_node * owned_node), merge_edit_into slot e.1 e.2) slot es =
    match slot, es with
    | None, [] => None
    | None, (n, o) :: es => Some (foldl (λ n m, with_merged_rels n (owned_rels_of m)) n es.*1,
                                  foldl (λ n m, with_merged_rels n (owned_rels_of m)) o es.*2)
    | Some (n, o), es => Some (foldl (λ n m, with_merged_rels n (owned_rels_of m)) n es.*1,
                               foldl (λ n m, with_merged_rels n (owned_rels_of m)) o es.*2)
    end.
Proof.
  assert (∀ es n o, foldl (λ slot (e : owned_node * owned_node), merge_edit_into slot e.1 e.2) (Some (n, o)) es =
    Some (foldl (λ n m, with_merged_rels n (owned_rels_of m)) n es.*1, foldl (λ n m, with_merged_rels n (owned_rels_of m)) o es.*2)) as H.
  { clear. induction es as [|[m p] es IH]; intros n o; [done|]. cbn [foldl merge_edit_into fst snd]. apply IH. }
  destruct slot as [[n o]|]; [apply H|]. destruct es as [|[n o] es]; [done|]. apply H.
Qed.

(** The child kept is the first, with more relationships at its node. *)
Definition is_first_child (cs : list owned_change) (c : owned_change) : Prop :=
  match cs, c with
  | OChild n rel sub :: _, OChild n' rel' sub' => owned_row n' = owned_row n ∧ rel' = rel ∧ sub' = sub
  | _, _ => False
  end.

Lemma collapse_all_spec k acc :
  (∀ c, co_child k = Some c → ∃ n rel sub, c = OChild n rel sub) →
  ∃ k', collapse_all k acc = Some k' ∧ co_add k' = foldl merge_node_into (co_add k) (adds acc) ∧
    co_remove k' = foldl merge_node_into (co_remove k) (removes acc) ∧
    co_edit k' = foldl (λ slot (e : owned_node * owned_node), merge_edit_into slot e.1 e.2) (co_edit k) (edits acc) ∧
    match co_child k' with
    | Some c => is_first_child (from_option (λ c, [c]) [] (co_child k) ++ childs acc) c
    | None => co_child k = None ∧ childs acc = []
    end.
Proof.
  revert k. induction acc as [|c acc IH]; intros k Hk; cbn [collapse_all].
  { exists k. split_and!; [done..|]. destruct (co_child k) as [c|] eqn:E; [|done].
    destruct (Hk c eq_refl) as (n & rel & sub & ->). done. }
  destruct c as [n|n|n old|n rel sub]; cbn [collapse_step mbind option_bind].
  1-3: match goal with |- context [collapse_all ?x _] => destruct (IH x Hk) as (k' & -> & H); by exists k' end.
  destruct (co_child k) as [c|] eqn:E; cbn [merge_child_into mbind option_bind].
  - destruct (Hk c eq_refl) as (n' & rel' & sub' & ->). cbn [mbind option_bind].
    match goal with |- context [collapse_all ?x acc] => destruct (IH x) as (k' & -> & Ha & Hr & He & Hc) end; [intros c [= <-]; eauto|].
    exists k'. split_and!; [done..|]. cbn [co_child from_option app is_first_child] in *. destruct (co_child k') as [[]|]; naive_solver.
  - match goal with |- context [collapse_all ?x acc] => destruct (IH x) as (k' & -> & Ha & Hr & He & Hc) end; [intros c [= <-]; eauto|].
    exists k'. split_and!; [done..|]. cbn [co_child from_option app] in *. destruct (co_child k') as [c|]; [|by destruct Hc]. exact Hc.
Qed.

(** ** What becomes of a change *)

(** The same change of the same rows. *)
Definition kept_as (ch c' : change) : Prop :=
  match ch, c' with
  | Add n, Add n' | Remove n, Remove n' => node_row n' = node_row n
  | Edit n old, Edit n' old' => node_row n' = node_row n ∧ node_row old' = node_row old
  | Child n r sub, Child n' r' sub' => node_row n' = node_row n ∧ r' = r ∧ materialize_change sub' = materialize_change sub
  | _, _ => False
  end.

Definition row_before (ch : change) : row := match ch with Edit _ old => node_row old | _ => primary_row ch end.

(** What goes out for a change of a row let through before, after, both or neither. *)
Definition row_outcome (b a : bool) (ch : change) (outs : list change) : Prop :=
  match b, a with
  | true, true => ∃ c', outs = [c'] ∧ kept_as ch c'
  | false, true => ∃ n', outs = [Add n'] ∧ node_row n' = primary_row ch
  | true, false => ∃ n', outs = [Remove n'] ∧ node_row n' = row_before ch
  | false, false => outs = []
  end.

(** The nodes the branches pushed for the row after the change, and for the row
    before it. *)
Definition news (acc : list owned_change) : list owned_node := (edits acc).*1 ++ adds acc.
Definition olds (acc : list owned_change) : list owned_node := (edits acc).*2 ++ removes acc.

(** A node has all the relationships of the schema: those the nodes [ns] have, the
    first that has one deciding, and empty ones. *)
Definition full (schema : Schema) (ns : list owned_node) (n : node) : Prop :=
  ∀ s, s < length (relationships schema) → rel_slot_of (materialize_node n) s = Some (default [] (first_rel ns s)).

Definition rels_merged (schema : Schema) (acc : list owned_change) (c : change) : Prop :=
  match c with
  | Add n => full schema (news acc) n
  | Remove n => full schema (olds acc) n
  | Edit n old => full schema (news acc) n ∧ full schema (olds acc) old
  | Child _ _ _ => True
  end.

Lemma rebuilt_row n : node_row (rebuild_node n) = owned_row n.
Proof. by destruct n. Qed.

Lemma materialized_row n : owned_row (materialize_node n) = node_row n.
Proof. by destruct n. Qed.

Lemma trim_materialized c : trim_path (materialize_change c) = materialize_change c.
Proof. induction c as [n|n|n old|n rel sub IH]; cbn; by rewrite ?IH. Qed.

Definition fill (schema : Schema) (n : owned_node) : owned_node :=
  ONode (owned_row n) (fill_slots 0 (length (relationships schema)) (owned_rels_of n)).

Lemma add_empty_fill c schema :
  add_empty_relationships c schema =
    match c with
    | OAdd n => OAdd (fill schema n)
    | ORemove n => ORemove (fill schema n)
    | OEdit n old => OEdit (fill schema n) (fill schema old)
    | OChild _ _ _ => c
    end.
Proof.
  unfold add_empty_relationships, fill. destruct (relationships schema); [|by destruct c].
  destruct c as [[]|[]|[] []|]; done.
Qed.

Lemma fill_full schema ns n :
  (∀ s, rel_slot_of n s = first_rel ns s) → full schema ns (rebuild_node (fill schema n)) ∧ node_row (rebuild_node (fill schema n)) = owned_row n.
Proof.
  intros H. split; [|by rewrite rebuilt_row]. intros s Hs. rewrite materialize_rebuild_node. unfold rel_slot_of, fill. cbn [owned_rels_of].
  rewrite fill_slots_lookup. specialize (H s). unfold rel_slot_of in H. rewrite H. destruct (first_rel ns s); [done|]. rewrite decide_True; [done|lia].
Qed.

(** The collapse, read off the changes pushed. *)
Section collapse.
Context (acc : list owned_change) (schema : Schema) (ty : change_type).

Definition head_node (ns : list owned_node) : option owned_node :=
  match ns with [] => None | n :: ns => Some (foldl (λ n m, with_merged_rels n (owned_rels_of m)) n ns) end.

Lemma head_node_spec ns n :
  head_node ns = Some n → (∀ s, rel_slot_of n s = first_rel ns s) ∧ ∃ m, head ns = Some m ∧ owned_row n = owned_row m.
Proof.
  destruct ns as [|m ns]; [done|]. cbn [head_node]. intros [= <-]. split; [apply merged_rels|]. exists m. split; [done|]. apply merged_row.
Qed.

Lemma push_accumulated_collapse :
  ∃ child, push_accumulated_changes acc ty schema =
    Some (collapse_emit (MkCollapse (head_node (adds acc)) (head_node (removes acc))
      (match edits acc with
       | [] => None
       | e :: es => Some (foldl (λ n m, with_merged_rels n (owned_rels_of m)) e.1 es.*1,
                          foldl (λ n m, with_merged_rels n (owned_rels_of m)) e.2 es.*2)
       end) child) ty schema) ∧
    match child with Some c => is_first_child (childs acc) c | None => childs acc = [] end.
Proof.
  unfold push_accumulated_changes.
  destruct (collapse_all_spec (MkCollapse None None None None) acc) as ([a r e ch] & Hk & Ha & Hr & He & Hc); [done|].
  cbn [co_add co_remove co_edit co_child from_option app] in *. exists ch. split; [|by destruct ch; [|destruct Hc]].
  rewrite merge_all in Ha, Hr. rewrite merge_edits in He. subst.
  destruct acc as [|c acc']; [|rewrite Hk; cbn [mbind option_bind]; do 3 f_equal; by destruct (edits _) as [|[]]].
  cbn in *. destruct ch; [done|]. by destruct ty.
Qed.
End collapse.

(** ** The broadcast *)

Section broadcast.
Context (schema : Schema) (ch ch' : change) (branch : OutEdge → change → list change) (before after : OutEdge → bool).

Definition is_child (c : change) : bool := match c with Child _ _ _ => true | _ => false end.
Definition is_edit (c : change) : bool := match c with Edit _ _ => true | _ => false end.

Context (Htype : match ch with Add _ => ∀ e, before e = false | Remove _ => ∀ e, after e = false | _ => True end).

#[local] Abbreviation pushed es := (map materialize_change_preserving_node (es ≫= λ e, branch e ch')).
#[local] Abbreviation both es := (existsb (λ e, before e && after e) es).
#[local] Abbreviation ups es := (existsb (λ e, negb (before e) && after e) es).
#[local] Abbreviation downs es := (existsb (λ e, before e && negb (after e)) es).

Lemma any_before es : existsb before es = both es || downs es.
Proof. induction es as [|e es IH]; [done|]. cbn. rewrite IH. by destruct (before e), (after e), (both es), (downs es). Qed.

Lemma any_after es : existsb after es = both es || ups es.
Proof. induction es as [|e es IH]; [done|]. cbn. rewrite IH. by destruct (before e), (after e), (both es), (ups es). Qed.

(** What was pushed of every type. *)
Lemma pushed_kinds es :
  (∀ e, e ∈ es → row_outcome (before e) (after e) ch (branch e ch')) →
  match adds (pushed es) with [] => ups es = false | n :: _ => ups es = true ∧ owned_row n = primary_row ch end ∧
  match removes (pushed es) with [] => downs es = false | n :: _ => downs es = true ∧ owned_row n = row_before ch end ∧
  match edits (pushed es) with
  | [] => is_edit ch = true → both es = false
  | (n, o) :: _ => both es = true ∧ is_edit ch = true ∧ owned_row n = primary_row ch ∧ owned_row o = row_before ch
  end ∧
  match childs (pushed es) with
  | [] => is_child ch = true → both es = false
  | c :: _ => both es = true ∧ kept_as ch (rebuild_change c)
  end.
Proof.
  induction es as [|e es IH]; intros H; [done|]. destruct IH as (Ha & Hr & He & Hc); [intros x Hx; apply H; by right|].
  specialize (H e ltac:(by left)). rewrite bind_cons, map_app. cbn [existsb]. set (rest := pushed es) in *.
  destruct (before e) eqn:Hb, (after e) eqn:Haf; cbn [row_outcome negb andb orb] in *.
  - destruct H as (c' & -> & Hk). cbn [map app].
    destruct ch as [n|n|n old|n r sub], c' as [n'|n'|n' old'|n' r' sub']; cbn [kept_as is_edit is_child] in *; try done.
    + by rewrite Htype in Hb.
    + by rewrite Htype in Haf.
    + split; [exact Ha|]. split; [exact Hr|]. cbn. rewrite !materialized_row. destruct Hk. split; [done|].
      fold (childs rest). by destruct (childs rest); [|destruct Hc].
    + destruct Hk as (Hrow & -> & Hsub). split; [exact Ha|]. split; [exact Hr|]. split.
      * change (edits (_ :: rest)) with (edits rest). by destruct (edits rest) as [|[]]; [|naive_solver].
      * cbn. split; [done|]. rewrite rebuilt_row, materialized_row. split_and!; [done|done|].
        pose proof (materialize_rebuild (materialize_change sub')) as [-> _]. by rewrite trim_materialized.
  - destruct H as (n' & -> & Hrow). cbn [map app materialize_change_preserving_node materialize_change]. split; [exact Ha|]. split; [|split; [exact He|exact Hc]].
    cbn. by rewrite materialized_row.
  - destruct H as (n' & -> & Hrow). cbn [map app materialize_change_preserving_node materialize_change]. split; [|split; [exact Hr|split; [exact He|exact Hc]]].
    cbn. by rewrite materialized_row.
  - rewrite H. by split_and!.
Qed.

(** No child is let through by one branch and no longer by another: at most one gate
    looks at it. *)
Definition no_crossing (es : list OutEdge) : Prop := is_child ch = true → ups es = true → downs es = true → both es = true.

Lemma with_merged_spec n ns m ms :
  (∀ s, rel_slot_of n s = first_rel ns s) → (∀ s, rel_slot_of m s = first_rel ms s) →
  ∀ s, rel_slot_of (with_merged_rels n (owned_rels_of m)) s = first_rel (ns ++ ms) s.
Proof.
  intros Hn Hm s. rewrite first_rel_app, <-Hn, <-Hm. unfold rel_slot_of. cbn [owned_rels_of with_merged_rels].
  apply merge_owned_rels_lookup.
Qed.

(** The node of a side of the row: the edits' nodes before the others. *)
Lemma side_node ns ms n m :
  (∀ s, rel_slot_of n s = first_rel ns s) → head_node ms = m →
  ∀ s, rel_slot_of (match m with Some a => with_merged_rels n (owned_rels_of a) | None => n end) s = first_rel (ns ++ ms) s.
Proof.
  intros Hn <- s. destruct (head_node ms) as [a|] eqn:E.
  - apply with_merged_spec; [done|]. by apply head_node_spec.
  - destruct ms; [|done]. by rewrite app_nil_r.
Qed.

Lemma one_sided es :
  match change_type_of ch with
  | TAdd => both es = false ∧ downs es = false
  | TRemove => both es = false ∧ ups es = false
  | _ => True
  end.
Proof.
  destruct ch; cbn [change_type_of]; [| |done..]; induction es as [|e es [IH1 IH2]]; cbn; rewrite ?Htype, ?IH1, ?IH2; split; try done;
    by destruct (before e).
Qed.

Lemma kept_edit n' o' :
  is_edit ch = true → node_row n' = primary_row ch → node_row o' = row_before ch → kept_as ch (Edit n' o').
Proof. by destruct ch. Qed.

Lemma kept_first_child cs c :
  is_first_child cs c → match cs with c0 :: _ => kept_as ch (rebuild_change c0) | [] => False end → kept_as ch (rebuild_change c).
Proof.
  destruct cs as [|[] ], c as [|?|? ?|n' rel' sub']; try done. cbn [is_first_child rebuild_change]. intros (Hr & -> & ->).
  destruct ch; try done. cbn [kept_as]. by rewrite !rebuilt_row, Hr.
Qed.

Lemma type_kind : is_edit ch = (match change_type_of ch with TEdit => true | _ => false end) ∧
  is_child ch = (match change_type_of ch with TChild => true | _ => false end).
Proof. by destruct ch. Qed.

(** What the collapse has for the row after the change, or before it. *)
Definition side (acc : list owned_change) (ns pushed_ns : list owned_node) (any : bool) (r : row) : Prop :=
  match head_node ns with
  | Some n => any = true ∧ (∀ s, rel_slot_of n s = first_rel ns s) ∧ owned_row n = r ∧
      (edits acc = [] → full schema pushed_ns (rebuild_node (fill schema n)))
  | None => any = false
  end.

Lemma side_of acc ns pushed_ns any r :
  match ns with [] => any = false | n :: _ => any = true ∧ owned_row n = r end → (edits acc = [] → pushed_ns = ns) →
  side acc ns pushed_ns any r.
Proof.
  intros H Hns. unfold side. destruct (head_node ns) as [n|] eqn:E; [|by destruct ns].
  destruct (head_node_spec ns n E) as (Hrel & m & Hm & Hr). destruct ns as [|n0 ns]; [done|]. destruct H as [-> <-]. injection Hm as ->.
  split_and!; [done|done|done|]. intros He. rewrite Hns by done. by apply fill_full.
Qed.

Lemma union_collapse_outcome es :
  (∀ e, e ∈ es → row_outcome (before e) (after e) ch (branch e ch')) → no_crossing es →
  ∃ r, push_accumulated_changes (pushed es) (change_type_of ch) schema = Some r ∧
    row_outcome (existsb before es) (existsb after es) ch (option_list (rebuild_change <$> r)) ∧
    Forall (rels_merged schema (pushed es)) (option_list (rebuild_change <$> r)).
Proof.
  intros Hes Hcross. destruct (pushed_kinds es Hes) as (Ha & Hr & He & Hc).
  destruct (push_accumulated_collapse (pushed es) schema (change_type_of ch)) as (child & Hp & Hchild).
  eexists. split; [exact Hp|]. clear Hp. rewrite any_before, any_after. set (acc := pushed es) in *. unfold collapse_emit. cbn [co_add co_remove co_edit co_child].
  assert (side acc (adds acc) (news acc) (ups es) (primary_row ch)) as Hnew by (apply side_of; [exact Ha|unfold news; by intros ->]).
  assert (side acc (removes acc) (olds acc) (downs es) (row_before ch)) as Hold by (apply side_of; [exact Hr|unfold olds; by intros ->]).
  assert (is_edit ch = false → edits acc = []) as Hned.
  { intros Hn. destruct (edits acc) as [|[]]; [done|]. destruct He as (_ & He & _). congruence. }
  pose proof (one_sided es) as Hside. destruct type_kind as [Hke Hkc]. unfold no_crossing in Hcross. unfold side in *. clear Ha Hr.
  destruct (change_type_of ch); rewrite ?Hkc in *.
  - destruct Hside as [-> ->]. cbn [orb]. destruct (head_node (adds acc)) as [n|]; [|by rewrite Hnew]. destruct Hnew as (-> & _ & Hrow & Hf).
    cbn [fmap option_fmap option_map]. rewrite add_empty_fill. cbn [rebuild_change option_list row_outcome].
    split; [|by constructor; [apply Hf, Hned|]]. eexists. split; [done|]. by rewrite rebuilt_row.
  - destruct Hside as [-> ->]. cbn [orb]. destruct (head_node (removes acc)) as [n|]; [|by rewrite Hold]. destruct Hold as (-> & _ & Hrow & Hf).
    cbn [fmap option_fmap option_map]. rewrite add_empty_fill. cbn [rebuild_change option_list row_outcome].
    split; [|by constructor; [apply Hf, Hned|]]. eexists. split; [done|]. by rewrite rebuilt_row.
  - unfold news, olds in *. destruct (edits acc) as [|[n0 o0] l] eqn:E.
    + rewrite He by done. cbn [orb].
      destruct (head_node (adds acc)) as [n|], (head_node (removes acc)) as [o|]; cbn [survivor fmap option_fmap option_map];
        rewrite ?add_empty_fill; cbn [rebuild_change option_list].
      * destruct Hnew as (-> & _ & Hnr & Hnf), Hold as (-> & _ & Hor & Hof). cbn [row_outcome].
        split; [|constructor; [split; unfold news, olds; rewrite E; [by apply Hnf|by apply Hof]|constructor]].
        eexists. split; [done|]. apply kept_edit; [done|by rewrite rebuilt_row..].
      * destruct Hnew as (-> & _ & Hnr & Hnf). rewrite Hold. cbn [row_outcome].
        split; [eexists; split; [done|by rewrite rebuilt_row]|]. constructor; [|done]. cbn. unfold news. rewrite E. by apply Hnf.
      * destruct Hold as (-> & _ & Hor & Hof). rewrite Hnew. cbn [row_outcome].
        split; [eexists; split; [done|by rewrite rebuilt_row]|]. constructor; [|done]. cbn. unfold olds. rewrite E. by apply Hof.
      * by rewrite Hnew, Hold.
    + destruct He as (-> & _ & Hrow & Horow). cbn [orb fst snd fmap option_fmap option_map]. rewrite add_empty_fill. cbn [rebuild_change option_list row_outcome].
      split.
      * eexists. split; [done|]. apply kept_edit; [done|..]; rewrite rebuilt_row; cbn [fill owned_row];
          [destruct (head_node (adds acc))|destruct (head_node (removes acc))]; cbn [with_merged_rels owned_row]; by rewrite merged_row.
      * constructor; [|constructor]. split; unfold news, olds; rewrite E; apply fill_full; (apply side_node; [apply merged_rels|done]).
  - destruct child as [c|].
    + destruct (childs acc) as [|c0 l] eqn:E; [done|]. destruct Hc as (-> & Hk). cbn [orb option_list fmap option_fmap option_map row_outcome].
      split; [eexists; split; [done|by eapply kept_first_child]|]. constructor; [|constructor]. by destruct c0, c.
    + rewrite Hchild in Hc. rewrite Hc by done. specialize (Hcross eq_refl). cbn [orb] in *.
      destruct (head_node (adds acc)) as [n|], (head_node (removes acc)) as [o|]; cbn [survivor fmap option_fmap option_map];
        rewrite ?add_empty_fill; cbn [rebuild_change option_list].
      * destruct Hnew as (Hu & _), Hold as (Hd & _). by specialize (Hcross Hu Hd); rewrite Hc in Hcross.
      * destruct Hnew as (-> & _ & Hnr & Hnf). rewrite Hold. split; [eexists; split; [done|by rewrite rebuilt_row]|]. constructor; [|done].
        by apply Hnf, Hned.
      * destruct Hold as (-> & _ & Hor & Hof). rewrite Hnew. split; [eexists; split; [done|by rewrite rebuilt_row]|]. constructor; [|done].
        by apply Hof, Hned.
      * by rewrite Hnew, Hold.
Qed.
End broadcast.

(** ** Fetch *)

(** A row matches the constraint, if there is one. *)
Definition asked (c : option Constraint) (r : row) : bool := match c with Some c => cmatch r c | None => true end.

Lemma StronglySorted_map_rows (R : row → row → Prop) ns :
  StronglySorted R (map node_row ns) → StronglySorted (λ a b, R (node_row a) (node_row b)) ns.
Proof.
  induction ns as [|n ns IH]; cbn [map]; intros H; [constructor|]. apply StronglySorted_inv in H as [H Hn].
  constructor; [by apply IH|]. rewrite Forall_forall in Hn. apply Forall_forall. intros m Hm. apply Hn. by apply list_elem_of_fmap_2.
Qed.

Lemma ssorted_weak (cmp : row → row → comparison) l : ssorted cmp l → StronglySorted (λ a b, cmp a b ≠ Gt) l.
Proof.
  intros H. induction H as [|x l _ IH Hx]; constructor; [done|]. eapply Forall_impl; [exact Hx|]. intros y Hy. cbn beta in *. by rewrite Hy.
Qed.

Section fetch.
Context (fetch : nat → FetchRequest → list node) (u : UnionFanIn) (req : FetchRequest).
#[local] Abbreviation cmp := (compare_rows_rev (schema_sort (ui_schema u)) (req_reverse req)).

(** The rows the request asks for but for its constraint, in order, and the
    condition of every branch. *)
Context (L : list row) (sel : nat → row → bool).
Context (HL : ssorted cmp L).
Context (Hfetch : ∀ i c, i ∈ ui_inputs u →
  map node_row (fetch i (MkFetch c (multi_constraints req) (start req) (req_reverse req))) = keep (λ r, asked c r && sel i r) L).
Context (Hnecessary : ∀ i bc r, (i, bc) ∈ zip (ui_inputs u) (ui_branch_constraints u) → r ∈ L → sel i r = true → cmatch r bc = true).
Context (Htyped : ∀ bc c, bc ∈ ui_branch_constraints u → req_constraint req = Some c → is_Some (constraints_are_compatible c bc) ∧ NoDup bc.*1).
Context (Hpk : ∀ a b, a ∈ L → b ∈ L → same_pk a b (schema_pk (ui_schema u)) = Some (is_eq (cmp a b))).

(** A branch constraint narrows the scan of the branch, not its result. *)
Lemma fetch_branch_rows i bc :
  (i, bc) ∈ zip (ui_inputs u) (ui_branch_constraints u) →
  ∃ ns, fetch_branch fetch i bc req = Some ns ∧ map node_row ns = keep (λ r, asked (req_constraint req) r && sel i r) L.
Proof.
  intros Hin. pose proof (elem_of_zip_l _ _ _ _ Hin) as Hi. pose proof (elem_of_zip_r _ _ _ _ Hin) as Hbc.
  assert (req = MkFetch (req_constraint req) (multi_constraints req) (start req) (req_reverse req)) as Hreq by (by destruct req).
  unfold fetch_branch. destruct bc as [|b bc]; [eexists; split; [by rewrite Hreq at 1|]; by apply Hfetch|].
  destruct (req_constraint req) as [c|] eqn:Hc; cbn [mbind option_bind].
  - destruct (Htyped (b :: bc) c Hbc eq_refl) as ([ok Hok] & Hnd). rewrite Hok. cbn [mbind option_bind]. eexists. split; [done|].
    destruct ok; cbn [negb].
    + rewrite Hfetch by done. apply keep_ext. intros r Hr. cbn [asked]. destruct (sel i r) eqn:Hs; [|by rewrite !andb_false_r]. rewrite !andb_true_r.
      pose proof (Hnecessary _ _ _ Hin Hr Hs) as Hm. destruct (merge_constraints_spec c (b :: bc) r Hnd Hok) as [Hmc _].
      unfold cmatch in *. apply bool_decide_eq_true in Hm. apply bool_decide_ext. tauto.
    + symmetry. apply keep_none. apply Forall_forall. intros r Hr. cbn [asked]. destruct (cmatch r c) eqn:Hm; [|done].
      destruct (sel i r) eqn:Hs; [|done]. by rewrite (compatible_of_match r _ _ Hm (Hnecessary _ _ _ Hin Hr Hs)) in Hok.
  - eexists. split; [done|]. cbn [merge_constraints negb]. rewrite Hfetch by done. apply keep_ext. intros r Hr. cbn [asked].
    destruct (sel i r) eqn:Hs; [|by rewrite andb_false_r]. by rewrite (Hnecessary _ _ _ Hin Hr Hs).
Qed.

Lemma union_dedup_sorted last ns :
  StronglySorted (λ a b, cmp a b ≠ Gt) (map node_row ns) → (∀ n, n ∈ ns → node_row n ∈ L) →
  match last with Some l => l ∈ L ∧ ∀ n, n ∈ ns → cmp l (node_row n) ≠ Gt | None => True end →
  ∃ out, dedup_adjacent (Some (schema_pk (ui_schema u))) last ns = Some out ∧ ssorted cmp (map node_row out) ∧
    ∀ r, r ∈ map node_row out ↔ r ∈ map node_row ns ∧ last ≠ Some r.
Proof.
  revert last. induction ns as [|n ns IH]; intros last Hs Hin Hlast; cbn [dedup_adjacent].
  { exists []. split_and!; [done|constructor|]. intros r. cbn [map]. rewrite !elem_of_nil. tauto. }
  cbn [map] in Hs. apply StronglySorted_inv in Hs as [Hs Hn]. rewrite Forall_forall in Hn.
  assert (∀ m, m ∈ ns → cmp (node_row n) (node_row m) ≠ Gt) as Hle by (intros m Hm; apply Hn; by apply list_elem_of_fmap_2).
  pose proof (Hin n ltac:(by left)) as HnL.
  destruct (match last with Some l => is_eq (cmp l (node_row n)) | None => false end) eqn:Hd.
  - destruct last as [l|]; [|done]. destruct Hlast as [HlL Hl]. apply is_eq_true in Hd.
    assert (l = node_row n) as -> by (by apply (ssorted_tie cmp L)).
    rewrite Hpk, cmp_refl by done. cbn [is_eq mbind option_bind].
    destruct (IH (Some (node_row n))) as (out & -> & Hso & Hel); [done|intros; apply Hin; by right|done|].
    exists out. split_and!; [done|done|]. intros r. rewrite Hel. cbn [map]. rewrite elem_of_cons. split; [naive_solver|].
    intros [[->|?] ?]; naive_solver.
  - assert (match last with Some l => same_pk (node_row n) l (schema_pk (ui_schema u)) | None => Some false end = Some false) as Hdup.
    { destruct last as [l|]; [|done]. destruct Hlast as [HlL Hl]. rewrite Hpk by done.
      rewrite (cmp_opp (cmp := cmp) l). by destruct (cmp l (node_row n)). }
    rewrite Hdup. cbn [mbind option_bind]. destruct (IH (Some (node_row n))) as (out & -> & Hso & Hel); [done|intros; apply Hin; by right|done|].
    cbn [mbind option_bind]. exists (n :: out). cbn [map]. split_and!; [done| |].
    + constructor; [done|]. apply Forall_forall. intros r Hr. apply Hel in Hr as [Hr Hne]. specialize (Hn r Hr).
      destruct (cmp (node_row n) r) eqn:E; [|done|done]. destruct Hne. f_equal. apply (ssorted_tie cmp L); [done..| |done].
      apply list_elem_of_fmap in Hr as (m & -> & Hm). apply Hin. by right.
    + intros r. rewrite !elem_of_cons, Hel. split.
      * intros [->|[Hr Hne]].
        -- split; [by left|]. intros ->. by rewrite cmp_refl in Hd.
        -- split; [by right|]. intros ->. destruct Hlast as [HlL Hl].
           assert (cmp r (node_row n) = Lt) as Hlt by (specialize (Hl n ltac:(by left)); by destruct (cmp r (node_row n))).
           specialize (Hn r Hr). by apply (cmp_lt_gt cmp) in Hlt.
      * intros [[->|Hr] Hne]; [by left|]. destruct (decide (r = node_row n)) as [->|]; [by left|]. right. split; [done|]. congruence.
Qed.

Lemma union_rows :
  length (ui_inputs u) = length (ui_branch_constraints u) →
  ∃ ns, union_fetch fetch u req = Some ns ∧
    map node_row ns = keep (λ r, asked (req_constraint req) r && existsb (λ i, sel i r) (ui_inputs u)) L.
Proof.
  intros Hlen. unfold union_fetch.
  assert (∃ ss, mapM (λ b : nat * Constraint, fetch_branch fetch b.1 b.2 req) (zip (ui_inputs u) (ui_branch_constraints u)) = Some ss ∧
    Forall2 (λ i ns, map node_row ns = keep (λ r, asked (req_constraint req) r && sel i r) L) (ui_inputs u) ss) as (ss & -> & Hss).
  { pose proof fetch_branch_rows as Hb. clear -Hb Hlen. revert Hlen Hb. generalize (ui_branch_constraints u).
    induction (ui_inputs u) as [|i ids IH]; intros [|bc bcs] Hlen Hb; try done; [by exists []|].
    cbn [zip zip_with] in *. fold (zip ids bcs) in *. destruct (Hb i bc) as (ns & Hns & Hr); [by left|].
    destruct (IH bcs) as (ss & Hm & Hf); [cbn in Hlen; lia|intros; apply Hb; by right|].
    exists (ns :: ss). cbn [mapM fst snd]. rewrite Hns. cbn [mbind option_bind]. rewrite Hm. split; [done|]. by constructor. }
  cbn [mbind option_bind].
  destruct (merge_node_streams_spec ss (schema_sort (ui_schema u)) (req_reverse req) (Some (schema_pk (ui_schema u)))) as (out & -> & Hso & Hp).
  { apply Forall_forall. intros ns [k Hns]%list_elem_of_lookup. destruct (Forall2_lookup_r _ _ _ _ _ Hss Hns) as (i & _ & Hr).
    apply (StronglySorted_map_rows (λ a b, cmp a b ≠ Gt)). rewrite Hr. apply ssorted_weak. by apply (keep_sorted cmp). }
  assert (∀ r, r ∈ map node_row (map fst out) ↔ r ∈ L ∧ asked (req_constraint req) r = true ∧ existsb (λ i, sel i r) (ui_inputs u) = true) as Hrows.
  { intros r. assert (map fst out ≡ₚ concat ss) as Hperm by (by rewrite Hp, indexed_fst). rewrite Hperm.
    assert (r ∈ map node_row (concat ss) ↔ ∃ ns, ns ∈ ss ∧ r ∈ map node_row ns) as ->.
    { split.
      - intros (n & -> & Hn)%list_elem_of_fmap. apply list_elem_of_In, in_concat in Hn as (ns & H1%list_elem_of_In & H2%list_elem_of_In).
        exists ns. split; [done|by apply list_elem_of_fmap_2].
      - intros (ns & Hns & (n & -> & Hn)%list_elem_of_fmap). apply list_elem_of_fmap_2, list_elem_of_In, in_concat.
        exists ns. by rewrite <-!list_elem_of_In. }
    rewrite existsb_exists. setoid_rewrite <-list_elem_of_In. split.
    - intros (ns & [k Hns]%list_elem_of_lookup & Hr). destruct (Forall2_lookup_r _ _ _ _ _ Hss Hns) as (i & Hi & Hrows). rewrite Hrows in Hr.
      apply list_elem_of_filter in Hr as [Hr HrL]. apply Is_true_true, andb_true_iff in Hr as [Ha Hsel]. split_and!; [done|done|].
      exists i. split; [by eapply list_elem_of_lookup_2|done].
    - intros (HrL & Ha & i & [k Hi]%list_elem_of_lookup & Hsel). destruct (Forall2_lookup_l _ _ _ _ _ Hss Hi) as (ns & Hns & Hrows).
      exists ns. split; [by eapply list_elem_of_lookup_2|]. rewrite Hrows. apply list_elem_of_filter. split; [by rewrite Ha, Hsel|done]. }
  assert (StronglySorted (λ a b, cmp a b ≠ Gt) (map node_row (map fst out))) as Hsorted.
  { clear -Hso. induction Hso as [|a l _ IH Ha]; cbn [map]; constructor; [done|]. rewrite map_map. apply Forall_map. eapply Forall_impl; [exact Ha|].
    intros b. unfold node_cmp. cbn. by destruct (compare_rows_rev _ _ _ _). }
  destruct (union_dedup_sorted None (map fst out)) as (ns & -> & Hs & Hel); [done| |done|].
  { intros n Hn. apply Hrows. by apply list_elem_of_fmap_2. }
  exists ns. split; [done|]. apply (ssorted_perm_eq cmp); [done|by apply (keep_sorted cmp)|].
  apply NoDup_Permutation; [by apply (ssorted_NoDup cmp)|by apply (ssorted_NoDup cmp), (keep_sorted cmp)|].
  intros r. rewrite Hel, Hrows. unfold keep. rewrite list_elem_of_filter, Is_true_true, andb_true_iff. naive_solver.
Qed.
End fetch.

(** ** What a union promises *)

Section promises.
Context (fetch : nat → FetchRequest → list node) (u : UnionFanIn).
#[local] Abbreviation idle := (MkUnionSt false []).

(** What the shared source has for a request, and which of it every branch keeps. *)
Record union_fetch_ready (req : FetchRequest) (L : list row) (sel : nat → row → bool) : Prop := {
  uf_sorted : ssorted (compare_rows_rev (schema_sort (ui_schema u)) (req_reverse req)) L;
  uf_fetch i c : i ∈ ui_inputs u →
    map node_row (fetch i (MkFetch c (multi_constraints req) (start req) (req_reverse req))) = keep (λ r, asked c r && sel i r) L;
  uf_necessary i bc r : (i, bc) ∈ zip (ui_inputs u) (ui_branch_constraints u) → r ∈ L → sel i r = true → cmatch r bc = true;
  uf_typed bc c : bc ∈ ui_branch_constraints u → req_constraint req = Some c →
    is_Some (constraints_are_compatible c bc) ∧ NoDup bc.*1;
  uf_pk a b : a ∈ L → b ∈ L →
    same_pk a b (schema_pk (ui_schema u)) = Some (is_eq (compare_rows_rev (schema_sort (ui_schema u)) (req_reverse req) a b));
  uf_branches : length (ui_inputs u) = length (ui_branch_constraints u)
}.

(** [C30] A fetch of a union yields, in the order of the request and once each, the
    rows it asks for that some branch keeps; the equalities pushed down to a branch
    narrow what it scans and never what comes out. *)
Theorem union_fetch_exact (req : FetchRequest) (L : list row) (sel : nat → row → bool) :
  union_fetch_ready req L sel →
  ∃ ns, union_fetch fetch u req = Some ns ∧
    map node_row ns = keep (λ r, asked (req_constraint req) r && existsb (λ i, sel i r) (ui_inputs u)) L.
Proof. intros []. by apply union_rows. Qed.

Lemma push_all_started st cs :
  us_started st = true →
  union_push_all fetch u st cs = Some (MkUnionSt true (us_accumulated st ++ map materialize_change_preserving_node cs), []).
Proof.
  revert st. induction cs as [|c cs IH]; intros [started acc] Hs; cbn in Hs; subst; cbn [union_push_all]; [cbn; by rewrite app_nil_r|].
  unfold union_push. cbn [us_started us_accumulated mbind option_bind]. rewrite IH by done. cbn. by rewrite <-app_assoc.
Qed.


(** A change that one branch pushes on its own passes exactly when it changes
    what the union shows: an addition when no other branch has the row, a removal
    when none has it still; edits and changes below a row always pass. *)
Theorem union_internal_exact (out : OutEdge) (others : list nat) (pusher : nat) (has : nat → bool) (ch : change) (c : Constraint) :
  ui_output u = Some out → ui_inputs u ≡ₚ pusher :: others →
  pk_constraint u (primary_row ch) = Some c →
  (∀ i, i ∈ ui_inputs u → fetch i (fetch_with_constraint c) = [] ↔ has i = false) →
  has pusher = (match ch with Remove _ => false | _ => true end) →
  union_push fetch u idle ch = Some (idle,
    match ch with
    | Add _ | Remove _ => if existsb has others then [] else [(out, ch)]
    | _ => [(out, ch)]
    end).
Proof.
  intros Hout Hin Hc Hhas Hp. unfold union_push. cbn [us_started]. unfold push_internal_change. rewrite Hout. cbn [mbind option_bind].
  assert (∀ l, (∀ i, i ∈ l → i ∈ ui_inputs u) →
    length (List.filter (λ i, match fetch i (fetch_with_constraint c) with [] => false | _ => true end) l) =
    length (List.filter has l)) as Hlen.
  { induction l as [|i l IH]; intros Hl; [done|]. cbn [List.filter]. specialize (Hhas i (Hl i ltac:(by left))).
    specialize (IH (λ x Hx, Hl x ltac:(by right))).
    destruct (fetch i (fetch_with_constraint c)), (has i); cbn [length]; rewrite ?IH; intuition congruence. }
  assert (branches_with fetch u c = (if has pusher then 1 else 0) + length (List.filter has others)) as Hcount.
  { unfold branches_with. rewrite Hlen by done. rewrite (Permutation_length (l' := List.filter has (pusher :: others))).
    - cbn [List.filter]. by destruct (has pusher).
    - clear -Hin. induction Hin as [|x l l' _ IH|x y l|]; cbn [List.filter]; [done| | |by etrans].
      + by destruct (has x); rewrite IH.
      + destruct (has x), (has y); [apply perm_swap|done..]. }
  assert (existsb has others = negb (length (List.filter has others) =? 0)) as ->.
  { clear. induction others as [|i l IH]; [done|]. cbn [existsb List.filter]. by destruct (has i). }
  destruct ch as [n|n|n old|n r sub]; cbn [primary_row] in Hc; rewrite ?Hc; cbn [mbind option_bind]; rewrite ?Hcount, ?Hp; [| |done..].
  - cbn [Nat.add]. destruct (length _) as [|k]; done.
  - cbn [Nat.add]. destruct (length _) as [|k]; done.
Qed.
End promises.

(** ** Three branches over one table *)

Definition ex_ucell (z : Z) : value := Int (i64_of_Z z).
Definition ex_urow (id k : Z) : row := [ex_ucell id; ex_ucell k].
Definition ex_uschema : Schema := with_relationships (schema_new [[]; []] [0] [(0, true)]) [rel_new []; rel_new []].
Definition ex_union : UnionFanIn :=
  MkUnionFanIn 1 [2; 3] [[]; [(1, ex_ucell 7)]] ex_uschema (Some (MkEdge 4 Single)).
Definition ex_urows : list row := [ex_urow 1 7; ex_urow 2 8; ex_urow 3 9].

(** The second branch keeps the rows with 7, the first those of the first two rows. *)
Definition ex_usel (i : nat) (r : row) : bool :=
  if i =? 2 then bool_decide (r !! 0 ≠ Some (ex_ucell 3)) else cmatch r [(1, ex_ucell 7)].
Definition ex_ufetch (i : nat) (req : FetchRequest) : list node :=
  map leaf_node (keep (λ r, asked (req_constraint req) r && ex_usel i r) ex_urows).

Lemma union_fetch_exact_witness :
  ∃ ns, union_fetch ex_ufetch ex_union fetch_all = Some ns ∧
    map node_row ns = keep (λ r, asked None r && existsb (λ i, ex_usel i r) [2; 3]) ex_urows.
Proof.
  apply (union_fetch_exact ex_ufetch ex_union fetch_all ex_urows ex_usel). split.
  - repeat constructor.
  - intros i c _. unfold ex_ufetch. rewrite map_map. cbn. rewrite map_id. reflexivity.
  - intros i bc r Hin _ Hs. cbn in Hin. rewrite !elem_of_cons, elem_of_nil in Hin.
    destruct Hin as [Hin|[Hin|[]]]; injection Hin as -> ->; [reflexivity|exact Hs].
  - intros bc c _ Hc. discriminate Hc.
  - intros a b Ha Hb. unfold ex_urows in Ha, Hb. rewrite !elem_of_cons, elem_of_nil in Ha, Hb.
    destruct Ha as [->|[->|[->|[]]]], Hb as [->|[->|[->|[]]]]; vm_compute; reflexivity.
  - reflexivity.
Defined.

(** An edit that one branch sees as an addition, another as a removal. *)
Definition ex_ufan : UnionFanOut := union_set_fan (union_fan_out_new 0) [MkEdge 2 Single; MkEdge 3 Single] 5.
Definition ex_unode (id k : Z) (rels : list nat) : node := Node (ex_urow id k) (map (λ s, (s, λ _, [])) rels).
Definition ex_uedit : change := Edit (ex_unode 1 8 [0]) (ex_unode 1 7 [1]).
Definition ex_ubranch (e : OutEdge) (_ : change) : list change :=
  if edge_node e =? 2 then [Add (ex_unode 1 8 [0])] else [Remove (ex_unode 1 7 [1])].


Lemma union_internal_exact_witness :
  union_push ex_ufetch ex_union (MkUnionSt false []) (Add (ex_unode 1 7 [0])) = Some (MkUnionSt false [], []).
Proof.
  apply (union_internal_exact ex_ufetch ex_union (MkEdge 4 Single) [3] 2 (λ _, true) (Add (ex_unode 1 7 [0])) [(0, ex_ucell 1)]).
  - reflexivity.
  - reflexivity.
  - reflexivity.
  - intros i Hi. cbn in Hi. rewrite !elem_of_cons, elem_of_nil in Hi.
    destruct Hi as [->|[->|[]]]; (split; intros H; [vm_compute in H; discriminate H|discriminate H]).
  - reflexivity.
Defined.
