(* ===== verification/F64.v ===== *)
(** * [f64] arithmetic

    The sums and quotients of an aggregate.  A float is kept by its bits ([Values]);
    it is read as a sign, a significand and an exponent, computed with by the
    Standard Library's executable specification of binary floating-point ([SpecFloat],
    here at 53 bits of precision and exponents below 1024, rounding to nearest even),
    and written back.  Every NaN that arithmetic gives is written as one quiet NaN:
    which one Rust gives is not specified. *)

From stdpp Require Import base list numbers.
From Stdlib Require Import ZArith Lia Floats.SpecFloat.
From S2P Require Import Prelude Values.

#[local] Open Scope Z_scope.

Definition f64_to_spec (x : f64) : spec_float :=
  let s := f64_is_sign_negative x in
  let frac := f64_frac x in
  if f64_exp x =? 2047 then (if frac =? 0 then S754_infinity s else S754_nan)
  else
    let m := if f64_exp x =? 0 then frac else frac + 2 ^ 52 in
    let e := if f64_exp x =? 0 then -1074 else f64_exp x - 1075 in
    match m with
    | Z.pos m => S754_finite s m e
    | _ => S754_zero s
    end.

Definition f64_sign_bit (s : bool) : Z := if s then 2 ^ 63 else 0.

Definition f64_of_spec (x : spec_float) : f64 :=
  f64_of_bits
    match x with
    | S754_zero s => f64_sign_bit s
    | S754_infinity s => f64_sign_bit s + 2047 * 2 ^ 52
    | S754_nan => 4095 * 2 ^ 51
    | S754_finite s m e =>
        f64_sign_bit s +
        (if Z.pos m <? 2 ^ 52 then Z.pos m else (e + 1075) * 2 ^ 52 + (Z.pos m - 2 ^ 52))
    end.

Definition f64_add (x y : f64) : f64 := f64_of_spec (SFadd 53 1024 (f64_to_spec x) (f64_to_spec y)).
Definition f64_mul (x y : f64) : f64 := f64_of_spec (SFmul 53 1024 (f64_to_spec x) (f64_to_spec y)).
Definition f64_div (x y : f64) : f64 := f64_of_spec (SFdiv 53 1024 (f64_to_spec x) (f64_to_spec y)).

(** [as f64] of an integer: the nearest float. *)
Definition f64_of_int (z : Z) : f64 := f64_of_spec (binary_normalize 53 1024 z 0 false).

(** [==] of floats. *)
Definition f64_eqb (x y : f64) : bool := SFeqb (f64_to_spec x) (f64_to_spec y).

Definition f64_zero : f64 := f64_of_bits 0.

(** Reading and writing agree, but for the bits of a NaN. *)
Lemma f64_spec_roundtrip (x : f64) : f64_is_nan x = false → f64_of_spec (f64_to_spec x) = x.
Proof.
  intros Hn. pose proof (f64_is_wf x) as Hx. unfold f64_wf in Hx.
  pose proof (f64_bits_split x) as Hb. pose proof (f64_frac_bound x) as Hf. pose proof (f64_exp_bound x) as He.
  assert (f64_Z x = f64_sign_bit (f64_is_sign_negative x) + (f64_exp x * 2 ^ 52 + f64_frac x)) as Hsplit.
  { rewrite <-Hb. unfold f64_bits, f64_sign_bit, f64_is_sign_negative. destruct (Z.leb_spec (2 ^ 63) x).
    - rewrite (Z.mod_eq x (2 ^ 63)) by lia. assert (x / 2 ^ 63 = 1) by (symmetry; apply (Z.div_unique x (2 ^ 63) 1 (x - 2 ^ 63)); lia). lia.
    - rewrite Z.mod_small; lia. }
  rewrite <-(f64_of_bits_bits x) at 2. unfold f64_of_spec. f_equal. rewrite Hsplit. unfold f64_to_spec, f64_is_nan in *.
  destruct (Z.eqb_spec (f64_exp x) 2047) as [E|E]; cbn [andb] in Hn.
  - destruct (Z.eqb_spec (f64_frac x) 0) as [F|F]; [|done]. rewrite E, F. lia.
  - destruct (Z.eqb_spec (f64_exp x) 0) as [Z0|Z0].
    + rewrite Z0. destruct (f64_frac x) as [|m|m] eqn:F; [lia| |lia]. destruct (Z.ltb_spec (Z.pos m) (2 ^ 52)); lia.
    + destruct (f64_frac x + 2 ^ 52) as [|m|m] eqn:F; [lia| |lia]. destruct (Z.ltb_spec (Z.pos m) (2 ^ 52)); lia.
Qed.

Lemma SFeqb_trans x y z : SFeqb x y = true → SFeqb y z = true → SFeqb x z = true.
Proof.
  assert (∀ m m' , Pos.compare_cont Eq m m' = Eq → m = m') as Hp by (intros m m'; apply Pos.compare_eq).
  unfold SFeqb, SFcompare. intros H1 H2.
  destruct x as [?|[]| |[] m e], y as [?|[]| |[] m' e'], z as [?|[]| |[] m'' e'']; try done.
  all: destruct (Z.compare_spec e e') as [->| |], (Z.compare_spec e' e'') as [->| |]; try done.
  all: destruct (Pos.compare_cont Eq m m') eqn:E1; [|done..]; destruct (Pos.compare_cont Eq m' m'') eqn:E2; [|done..].
  all: apply Hp in E1 as ->, E2 as ->; change (Pos.compare_cont Eq m'' m'') with (m'' ?= m'')%positive; by rewrite Pos.compare_refl.
Qed.

Lemma f64_eqb_trans x y z : f64_eqb x y = true → f64_eqb y z = true → f64_eqb x z = true.
Proof. apply SFeqb_trans. Qed.
