(* ===== verification/Reduce.v ===== *)
(** * Aggregates ([rust/src/op/reduce.rs])

    [count], [sum] and [avg] of the whole input or of every group, kept up to date
    from a fixed-size accumulator per group.  A global aggregate is one row that is
    never removed; a grouped one has a row per group, which appears and disappears
    with the group.  The eager regime folds the whole input on a fetch; the lazy one
    folds a group when it is first asked for, and ignores changes of groups it has
    not folded.

    The input is a function from requests to nodes.  The counters wrap at the width
    of [i64], the integer sum at that of [i128]. *)

From stdpp Require Import base list numbers option sorting gmap sets strings.
From Stdlib Require Import ZArith Lia Strings.Byte.
From S2P Require Import Prelude Values F64 Rows Schema BTree Change Connections Overlay Storage Partition Join.

#[local] Open Scope Z_scope.

Inductive AggSpec := Count | Sum (c : nat) | Avg (c : nat).

Definition agg_col_name (s : AggSpec) : name :=
  match s with
  | Count => [x63; x6f; x75; x6e; x74]
  | Sum _ => [x73; x75; x6d]
  | Avg _ => [x61; x76; x67]
  end%byte.

Definition output_type (s : AggSpec) (input : Schema) : ValueType :=
  match s with
  | Count | Avg _ => VTNumber
  | Sum c => match column_types input !! c with Some VTInt => VTInt | _ => VTNumber end
  end.

(** ** Accumulators *)

Definition i128_wrap (x : Z) : Z := (x + 2 ^ 127) mod 2 ^ 128 - 2 ^ 127.

Definition acc_zero : ReduceAcc := MkAcc 0 f64_zero 0 0.

Definition acc_delta (acc : ReduceAcc) (v : value) (sign : Z) : ReduceAcc :=
  match v with
  | Int i => MkAcc (i128_wrap (int_sum acc + i128_wrap (sign * i))) (float_sum acc) (i64_wrap (non_null acc + sign)) (float_count acc)
  | Float f =>
      MkAcc (int_sum acc) (f64_add (float_sum acc) (f64_mul (f64_of_int sign) f))
        (i64_wrap (non_null acc + sign)) (i64_wrap (float_count acc + sign))
  | Null | Absent => acc
  | Bool _ | Str _ | Json _ => MkAcc (int_sum acc) (float_sum acc) (i64_wrap (non_null acc + sign)) (float_count acc)
  end.

(** The error carries the total. *)
Definition sum_value (a : ReduceAcc) : Z + value :=
  if non_null a =? 0 then inr Null
  else if float_count a =? 0 then if i64_inb (int_sum a) then inr (Int (i64_of_Z (int_sum a))) else inl (int_sum a)
  else inr (Float (f64_add (f64_of_int (int_sum a)) (float_sum a))).

Definition avg_value (a : ReduceAcc) : value :=
  if non_null a =? 0 then Null
  else Float (f64_div (f64_add (f64_of_int (int_sum a)) (float_sum a)) (f64_of_int (non_null a))).

Definition agg_val_eq (a b : value) : bool :=
  match a, b with
  | Null, Null | Absent, Absent => true
  | Bool x, Bool y => bool_decide (x = y)
  | Int x, Int y => x =? y
  | Float x, Float y => f64_eqb x y
  | Str x, Str y | Json x, Json y => bool_decide (x = y)
  | _, _ => false
  end.

Definition agg_rows_equal (a b : row) : bool :=
  (length a =? length b)%nat && forallb (λ p : value * value, agg_val_eq p.1 p.2) (zip a b).

(** ** The operator *)

Record ReduceOp := MkReduce {
  rd_input : nat;
  rd_storage : nat;
  rd_aggs : list AggSpec;
  rd_partition_key : option (list nat);
  rd_eager : bool;
  rd_schema : Schema;
  rd_output : option OutEdge
}.

Definition global_agg (input storage : nat) (spec : AggSpec) : ReduceOp :=
  MkReduce input storage [spec] None true (schema_new [agg_col_name spec] [] []) None.

(** The [assert_eq!] on the arity is the outer [None]. *)
Definition grouped_agg (input storage : nat) (partition_key : list nat) (key_cols : list name) (spec : AggSpec) : option ReduceOp :=
  if (length partition_key =? length key_cols)%nat then
    let ids := seq 0 (length partition_key) in
    Some (MkReduce input storage [spec] (Some partition_key) true
      (schema_new (key_cols ++ [agg_col_name spec]) ids (map (λ i, (i, true)) ids)) None)
  else None.

Definition lazy (rd : ReduceOp) : ReduceOp :=
  MkReduce (rd_input rd) (rd_storage rd) (rd_aggs rd) (rd_partition_key rd) false (rd_schema rd) (rd_output rd).

Definition with_input_types (rd : ReduceOp) (input : Schema) : ReduceOp :=
  let s := rd_schema rd in
  let keys := match rd_partition_key rd with
              | Some pk => map (λ c, default VTNumber (column_types input !! c)) pk
              | None => []
              end in
  let types := keys ++ map (λ a, output_type a input) (rd_aggs rd) in
  MkReduce (rd_input rd) (rd_storage rd) (rd_aggs rd) (rd_partition_key rd) (rd_eager rd)
    (MkSchema (columns s) types (schema_pk s) (schema_sort s) (relationships s) (singular s) (projection s)) (rd_output rd).

Definition reduce_prefix : list byte := [x72; x65; x64; x75; x63; x65]%byte.

Definition GLOBAL_KEY : storage_key := reduce_prefix.

Definition group_key (vals : list value) : storage_key := encode_state_key reduce_prefix vals.

(** What a push changes: the storage slot, the count of groups whose sum is out of
    range. *)
Record ReduceSt (St : Type) := MkReduceSt { rs_store : St; rs_overflowed : Z }.

Arguments MkReduceSt {_} _ _.
Arguments rs_store {_} _.
Arguments rs_overflowed {_} _.

#[export] Instance byte_countable : Countable byte := inj_countable Byte.to_N Byte.of_N Byte.of_to_N.

Section reduce.
Context {St : Type} `{!Storage St}.
Context (input_fetch : FetchRequest → list node).
Context (rd : ReduceOp).
#[local] Abbreviation state := (ReduceSt St).

(** What was pushed downstream: the edge, the change, the state meanwhile. *)
Abbreviation reduce_log := (list (OutEdge * change * ReduceSt St)).

Definition group_vals (r : row) : option (list value) :=
  match rd_partition_key rd with
  | None => Some []
  | Some pk => mapM (λ c, r !! c) pk
  end.

Definition group_vals_from_constraint (c : Constraint) (k : nat) : list value :=
  map (λ i, default Null (assoc c i)) (seq 0 k).

(** [expect]: not on a global reducer. *)
Definition input_constraint (vals : list value) : option Constraint :=
  pk ← rd_partition_key rd; Some (zip pk vals).

Definition new_accs : list ReduceAcc := omap (λ s, match s with Count => None | _ => Some acc_zero end) (rd_aggs rd).

Fixpoint acc_apply_specs (specs : list AggSpec) (accs : list ReduceAcc) (r : row) (sign : Z) : option (list ReduceAcc) :=
  match specs with
  | [] => Some accs
  | Count :: specs => acc_apply_specs specs accs r sign
  | (Sum c | Avg c) :: specs =>
      match accs with
      | a :: accs =>
          v ← r !! c;
          rest ← acc_apply_specs specs accs r sign;
          Some (acc_delta a v sign :: rest)
      | [] => None
      end
  end.

Definition acc_apply (accs : list ReduceAcc) (r : row) (sign : Z) : option (list ReduceAcc) := acc_apply_specs (rd_aggs rd) accs r sign.

(** The outer [None] is [unreachable!]. *)
Definition read_at (s : state) (key : storage_key) : option (option (Z * list ReduceAcc)) :=
  match st_get key (rs_store s) with
  | None => Some None
  | Some (SvReduce count accs) => Some (Some (count, accs))
  | Some _ => None
  end.

Fixpoint out_of_range_specs (specs : list AggSpec) (accs : list ReduceAcc) : option bool :=
  match specs with
  | [] => Some false
  | Count :: specs => out_of_range_specs specs accs
  | Sum _ :: specs =>
      match accs with
      | a :: accs =>
          if (0 <? non_null a) && (float_count a =? 0) && negb (i64_inb (int_sum a)) then Some true
          else out_of_range_specs specs accs
      | [] => None
      end
  | Avg _ :: specs => out_of_range_specs specs (tail accs)
  end.

Definition sum_total_out_of_range (accs : list ReduceAcc) : option bool := out_of_range_specs (rd_aggs rd) accs.

Definition overflow_count (s : state) : Z := rs_overflowed s.

Definition track_overflow (s : state) (old new : option (list ReduceAcc)) : option state :=
  was ← match old with Some a => sum_total_out_of_range a | None => Some false end;
  now ← match new with Some a => sum_total_out_of_range a | None => Some false end;
  Some (MkReduceSt (rs_store s)
    match was, now with
    | false, true => i64_wrap (rs_overflowed s + 1)
    | true, false => i64_wrap (rs_overflowed s - 1)
    | _, _ => rs_overflowed s
    end).

Definition write_at (s : state) (key : storage_key) (count : Z) (accs : list ReduceAcc) : option state :=
  old ← read_at s key;
  s ← track_overflow s (snd <$> old) (Some accs);
  Some (MkReduceSt (st_set key (SvReduce count accs) (rs_store s)) (rs_overflowed s)).

Definition del_at (s : state) (key : storage_key) : option state :=
  old ← read_at s key;
  s ← track_overflow s (snd <$> old) None;
  Some (MkReduceSt (st_del key (rs_store s)) (rs_overflowed s)).

Fixpoint agg_cells (specs : list AggSpec) (count : Z) (accs : list ReduceAcc) : option row :=
  match specs with
  | [] => Some []
  | Count :: specs => rest ← agg_cells specs count accs; Some (Int (i64_of_Z count) :: rest)
  | Sum _ :: specs =>
      match accs with
      | a :: accs => rest ← agg_cells specs count accs; Some (match sum_value a with inr v => v | inl _ => Null end :: rest)
      | [] => None
      end
  | Avg _ :: specs =>
      match accs with
      | a :: accs => rest ← agg_cells specs count accs; Some (avg_value a :: rest)
      | [] => None
      end
  end.

Definition agg_row (vals : list value) (count : Z) (accs : list ReduceAcc) : option row :=
  cells ← agg_cells (rd_aggs rd) count accs; Some (vals ++ cells).

(** ** Fetch *)

Fixpoint fold_nodes (ns : list node) (count : Z) (accs : list ReduceAcc) : option (Z * list ReduceAcc) :=
  match ns with
  | [] => Some (count, accs)
  | n :: ns =>
      accs ← acc_apply accs (node_row n) 1;
      fold_nodes ns (i64_wrap (count + 1)) accs
  end.

Definition fold_input (req : FetchRequest) : option (Z * list ReduceAcc) := fold_nodes (input_fetch req) 0 new_accs.

(** The state of a key, folded from the input when there is none. *)
Definition read_or_fold (s : state) (key : storage_key) (req : FetchRequest) : option (Z * list ReduceAcc * state) :=
  old ← read_at s key;
  match old with
  | Some st => Some (st, s)
  | None =>
      '(count, accs) ← fold_input req;
      s ← write_at s key count accs;
      Some ((count, accs), s)
  end.

Definition fetch_one_group (s : state) (vals : list value) : option (list node * state) :=
  c ← input_constraint vals;
  '((count, accs), s) ← read_or_fold s (group_key vals) (fetch_with_constraint c);
  if 0 <? count then r ← agg_row vals count accs; Some ([leaf_node r], s) else Some ([], s).

(** The groups of the whole input. *)
Abbreviation groups := (gmap storage_key (list value * Z * list ReduceAcc)).

Definition group_node (m : groups) (n : node) : option groups :=
  vals ← group_vals (node_row n);
  let '(vs, count, accs) := default (vals, 0, new_accs) (m !! group_key vals) in
  accs ← acc_apply accs (node_row n) 1;
  Some (<[group_key vals := (vs, i64_wrap (count + 1), accs)]> m).

Fixpoint group_nodes (m : groups) (ns : list node) : option groups :=
  match ns with
  | [] => Some m
  | n :: ns => m ← group_node m n; group_nodes m ns
  end.

Fixpoint write_groups (s : state) (gs : list (storage_key * (list value * Z * list ReduceAcc))) : option (list row * state) :=
  match gs with
  | [] => Some ([], s)
  | (key, (vals, count, accs)) :: gs =>
      s ← write_at s key count accs;
      r ← agg_row vals count accs;
      '(rows, s) ← write_groups s gs;
      Some (r :: rows, s)
  end.

Definition fetch_groups (s : state) : option (list node * state) :=
  m ← group_nodes ∅ (input_fetch fetch_all);
  '(rows, s) ← write_groups s (map_to_list m);
  Some (sort_nodes (schema_sort (rd_schema rd)) (map leaf_node rows), s).

Definition reduce_fetch (s : state) (req : FetchRequest) : option (list node * state) :=
  match rd_partition_key rd with
  | None =>
      '((count, accs), s) ← read_or_fold s GLOBAL_KEY fetch_all;
      r ← agg_row [] count accs;
      Some ([leaf_node r], s)
  | Some pk =>
      let k := length pk in
      match if rd_eager rd then None else req_constraint req with
      | Some c =>
          if constraint_matches_partition_key c (seq 0 k) then fetch_one_group s (group_vals_from_constraint c k)
          else fetch_groups s
      | None => fetch_groups s
      end
  end.

(** ** Push *)

(** An edit goes out unless the row is the same. *)
Definition push_moved (out : OutEdge) (s : state) (old_row new_row : row) : reduce_log :=
  if agg_rows_equal old_row new_row then [] else [(out, Edit (leaf_node new_row) (leaf_node old_row), s)].

Definition push_global (s : state) (out : OutEdge) (ch : change) : option (state * reduce_log) :=
  st ← read_at s GLOBAL_KEY;
  match st, ch with
  | None, _ | _, Child _ _ _ => Some (s, [])
  | Some (count, accs), _ =>
      old_row ← agg_row [] count accs;
      '(new_count, new_accs) ←
        match ch with
        | Add n => accs ← acc_apply accs (node_row n) 1; Some (i64_wrap (count + 1), accs)
        | Remove n => accs ← acc_apply accs (node_row n) (-1); Some (i64_wrap (count - 1), accs)
        | Edit n old =>
            accs ← acc_apply accs (node_row old) (-1);
            accs ← acc_apply accs (node_row n) 1;
            Some (count, accs)
        | Child _ _ _ => None
        end;
      new_row ← agg_row [] new_count new_accs;
      s ← write_at s GLOBAL_KEY new_count new_accs;
      Some (s, push_moved out s old_row new_row)
  end.

Definition grouped_delta (s : state) (out : OutEdge) (r : row) (delta : Z) : option (state * reduce_log) :=
  vals ← group_vals r;
  let key := group_key vals in
  st ← read_at s key;
  match st with
  | None =>
      if rd_eager rd && (0 <? delta) then
        accs ← acc_apply new_accs r 1;
        born ← agg_row vals delta accs;
        s ← write_at s key delta accs;
        Some (s, [(out, Add (leaf_node born), s)])
      else Some (s, [])
  | Some (old_count, old_accs) =>
      let new_count := Z.max (i64_wrap (old_count + delta)) 0 in
      new_accs ← acc_apply old_accs r delta;
      match 0 <? old_count, 0 <? new_count with
      | false, true =>
          born ← agg_row vals new_count new_accs;
          s ← write_at s key new_count new_accs;
          Some (s, [(out, Add (leaf_node born), s)])
      | true, true =>
          old_row ← agg_row vals old_count old_accs;
          new_row ← agg_row vals new_count new_accs;
          s ← write_at s key new_count new_accs;
          Some (s, push_moved out s old_row new_row)
      | true, false =>
          old_row ← agg_row vals old_count old_accs;
          s ← (if rd_eager rd then del_at s key else write_at s key new_count new_accs);
          Some (s, [(out, Remove (leaf_node old_row), s)])
      | false, false => s ← write_at s key new_count new_accs; Some (s, [])
      end
  end.

Definition grouped_edit (s : state) (out : OutEdge) (old_in new_in : row) : option (state * reduce_log) :=
  vals ← group_vals new_in;
  let key := group_key vals in
  st ← read_at s key;
  match st with
  | None => Some (s, [])
  | Some (count, old_accs) =>
      accs ← acc_apply old_accs old_in (-1);
      new_accs ← acc_apply accs new_in 1;
      old_row ← agg_row vals count old_accs;
      new_row ← agg_row vals count new_accs;
      s ← write_at s key count new_accs;
      Some (s, push_moved out s old_row new_row)
  end.

Definition reduce_push (s : state) (ch : change) : option (state * reduce_log) :=
  out ← rd_output rd;
  match rd_partition_key rd with
  | None => push_global s out ch
  | Some _ =>
      match ch with
      | Add n => grouped_delta s out (node_row n) 1
      | Remove n => grouped_delta s out (node_row n) (-1)
      | Edit n old => grouped_edit s out (node_row old) (node_row n)
      | Child _ _ _ => Some (s, [])
      end
  end.
End reduce.
