(* ===== verification/ReduceFacts.v ===== *)
(** * What an aggregate shows

    A count, sum or average of integer columns, of the whole input or by group, is at
    any time that of the rows of the input: after the fold that hydrates it and after
    every change, and the changes it pushes take a consumer from the old rows to the
    new ones.  A sum counts as out of range exactly while the total of its group is. *)

From stdpp Require Import base list numbers option sorting gmap sets strings.
From Stdlib Require Import ZArith Lia Strings.Byte.
From S2P Require Import Prelude Values F64 Rows Schema BTree BTreeFacts BTreeCursor Change Connections Overlay Push MemorySourceFacts SourceFetch OrdMap Storage Partition Join JoinFacts Reduce.

#[local] Open Scope Z_scope.

(** ** Totals *)

Definition total (f : row → Z) (L : list row) : Z := foldr (λ r z, f r + z) 0 L.

Lemma total_perm f L L' : L ≡ₚ L' → total f L = total f L'.
Proof. induction 1; unfold total in *; cbn [foldr]; lia. Qed.

Lemma total_bound (f : row → Z) (b : Z) (L : list row) : 0 ≤ b → (∀ r, r ∈ L → - b ≤ f r ≤ b) → - (b * Z.of_nat (length L)) ≤ total f L ≤ b * Z.of_nat (length L).
Proof.
  intros Hb. induction L as [|r L IH]; intros H; cbn [total foldr length]; [lia|].
  pose proof (H r ltac:(by left)). specialize (IH (λ x Hx, H x ltac:(by right))). unfold total in IH. nia.
Qed.

Definition cell_int (c : nat) (r : row) : Z := match r !! c with Some (Int i) => i | _ => 0 end.
Definition cell_present (c : nat) (r : row) : Z := match r !! c with Some Null | Some Absent | None => 0 | Some _ => 1 end.

(** The accumulator of a column without floats. *)
Definition acc_of (c : nat) (L : list row) : ReduceAcc := MkAcc (total (cell_int c) L) f64_zero (total (cell_present c) L) 0.

Definition summed (s : AggSpec) : option nat := match s with Count => None | Sum c | Avg c => Some c end.
Definition accs_of (specs : list AggSpec) (L : list row) : list ReduceAcc := map (λ c, acc_of c L) (omap summed specs).

(** The summed cells of a row are there, and not floats. *)
Definition exact (specs : list AggSpec) (r : row) : Prop :=
  Forall (λ c, match r !! c with Some (Float _) | None => False | Some _ => True end) (omap summed specs).

(** Few enough rows for the counters. *)
Definition fits (L : list row) : Prop := Z.of_nat (length L) < 2 ^ 62.

Lemma i128_wrap_id x : - 2 ^ 127 ≤ x < 2 ^ 127 → i128_wrap x = x.
Proof. intros. unfold i128_wrap. rewrite Z.mod_small; lia. Qed.

Lemma wrap_small x : - 2 ^ 63 ≤ x < 2 ^ 63 → i64_wrap x = x.
Proof. intros. unfold i64_wrap. rewrite Z.mod_small; lia. Qed.

Lemma cell_int_bound c r : - 2 ^ 63 ≤ cell_int c r ≤ 2 ^ 63.
Proof.
  unfold cell_int. destruct (r !! c) as [[| | |i| | |]|]; try lia. pose proof (i64_is_wf i) as Hi. unfold i64_wf, i64_min, i64_max in Hi. lia.
Qed.

Lemma cell_present_bound c r : 0 ≤ cell_present c r ≤ 1.
Proof. unfold cell_present. destruct (r !! c) as [[]|]; lia. Qed.

Lemma int_total_bound c L : fits L → - 2 ^ 125 ≤ total (cell_int c) L ≤ 2 ^ 125.
Proof.
  intros HL. unfold fits in HL. pose proof (total_bound (cell_int c) (2 ^ 63) L ltac:(lia) (λ r _, cell_int_bound c r)). nia.
Qed.

Lemma present_total_bound c L : 0 ≤ total (cell_present c) L ≤ Z.of_nat (length L).
Proof.
  induction L as [|r L IH]; cbn [total foldr length]; [lia|]. pose proof (cell_present_bound c r). unfold total in IH. lia.
Qed.

Lemma acc_of_cons c r L :
  acc_of c (r :: L) = MkAcc (cell_int c r + int_sum (acc_of c L)) f64_zero (cell_present c r + non_null (acc_of c L)) 0.
Proof. done. Qed.

Lemma acc_of_bounds c L :
  fits L → - 2 ^ 125 ≤ int_sum (acc_of c L) ≤ 2 ^ 125 ∧ 0 ≤ non_null (acc_of c L) < 2 ^ 62 ∧ float_sum (acc_of c L) = f64_zero ∧ float_count (acc_of c L) = 0.
Proof.
  intros HL. pose proof (int_total_bound c L HL). pose proof (present_total_bound c L). unfold fits in HL. cbn. split_and!; done || lia.
Qed.

(** What a cell adds to an accumulator, or takes away. *)
Lemma acc_moves a c r v sign :
  r !! c = Some v → (∀ f, v ≠ Float f) → (sign = 1 ∨ sign = -1) →
  - 2 ^ 125 ≤ int_sum a ≤ 2 ^ 125 → 0 ≤ non_null a + sign * cell_present c r < 2 ^ 63 →
  acc_delta a v sign = MkAcc (int_sum a + sign * cell_int c r) (float_sum a) (non_null a + sign * cell_present c r) (float_count a).
Proof.
  intros Hv Hf Hs Hi Hp. unfold cell_int, cell_present in *. rewrite Hv in *. destruct a as [is' fs nn fc]. cbn [int_sum non_null float_sum float_count] in *.
  destruct v as [| |b|i|f|s|s]; cbn [acc_delta int_sum float_sum non_null float_count] in *; [..|by destruct (Hf f)| |].
  1-2: f_equal; lia.
  1,3,4: rewrite wrap_small by lia; f_equal; lia.
  pose proof (i64_is_wf i) as Hw. unfold i64_wf, i64_min, i64_max in Hw. rewrite (i128_wrap_id (sign * i)), i128_wrap_id, wrap_small by lia. f_equal; lia.
Qed.

Lemma acc_add c r v L :
  fits (r :: L) → r !! c = Some v → (∀ f, v ≠ Float f) → acc_delta (acc_of c L) v 1 = acc_of c (r :: L).
Proof.
  intros HL Hv Hf. assert (fits L) as HL' by (unfold fits in *; cbn [length] in HL; lia).
  destruct (acc_of_bounds c L HL') as (Hi & Hp & Hfs & Hfc). pose proof (cell_present_bound c r).
  rewrite (acc_moves _ c r), acc_of_cons, Hfs, Hfc by (done || lia || by left). f_equal; lia.
Qed.

Lemma acc_remove c r v L :
  fits (r :: L) → r !! c = Some v → (∀ f, v ≠ Float f) → acc_delta (acc_of c (r :: L)) v (-1) = acc_of c L.
Proof.
  intros HL Hv Hf. assert (fits L) as HL' by (unfold fits in *; cbn [length] in HL; lia).
  destruct (acc_of_bounds c L HL') as (Hi & Hp & Hfs & Hfc), (acc_of_bounds c (r :: L) HL) as (Hi' & Hp' & _ & _).
  rewrite acc_of_cons in *. cbn [int_sum non_null] in *.
  rewrite (acc_moves _ c r) by (done || (by right) || (cbn [int_sum non_null]; lia)). cbn [int_sum float_sum non_null float_count].
  destruct (acc_of c L) as [is' fs nn fc]. cbn [int_sum float_sum non_null float_count] in *. subst. f_equal; lia.
Qed.

Lemma fits_perm L L' : L ≡ₚ L' → fits L → fits L'.
Proof. intros H. unfold fits. by rewrite H. Qed.

Lemma fits_sub L L' : (length L' ≤ length L)%nat → fits L → fits L'.
Proof. unfold fits. lia. Qed.

Lemma accs_perm specs L L' : L ≡ₚ L' → accs_of specs L = accs_of specs L'.
Proof. intros H. apply map_ext. intros c. unfold acc_of. by rewrite !(total_perm _ L L'). Qed.

Lemma apply_specs specs (r : row) sign (f g : nat → ReduceAcc) :
  (∀ c v, c ∈ omap summed specs → r !! c = Some v → acc_delta (f c) v sign = g c) →
  Forall (λ c, is_Some (r !! c)) (omap summed specs) →
  acc_apply_specs specs (map f (omap summed specs)) r sign = Some (map g (omap summed specs)).
Proof.
  induction specs as [|s specs IH]; intros Hd Hc; [done|].
  destruct s as [|c|c]; cbn [omap list_omap summed map acc_apply_specs] in *; [by apply IH|..];
    apply Forall_cons in Hc as [[v Hv] Hc]; rewrite Hv; cbn [mbind option_bind];
    (rewrite IH; [|intros c' v' Hc'; apply Hd; by right|done]); cbn [mbind option_bind]; by rewrite (Hd c v) by (done || by left).
Qed.

Lemma exact_cells specs r : exact specs r → Forall (λ c, is_Some (r !! c)) (omap summed specs).
Proof. intros H. eapply Forall_impl; [exact H|]. intros c Hc. cbn beta in *. by destruct (r !! c). Qed.

Lemma exact_not_float specs r c v f : exact specs r → c ∈ omap summed specs → r !! c = Some v → v ≠ Float f.
Proof.
  intros H Hc Hv ->. unfold exact in H. rewrite Forall_forall in H. specialize (H c Hc). by rewrite Hv in H.
Qed.

Lemma apply_add specs r L :
  exact specs r → fits (r :: L) → acc_apply_specs specs (accs_of specs L) r 1 = Some (accs_of specs (r :: L)).
Proof.
  intros He HL. apply apply_specs; [|by apply exact_cells]. intros c v Hc Hv. apply acc_add; [done|done|].
  intros f. by apply (exact_not_float specs r c v f).
Qed.

Lemma apply_remove specs r L :
  exact specs r → fits (r :: L) → acc_apply_specs specs (accs_of specs (r :: L)) r (-1) = Some (accs_of specs L).
Proof.
  intros He HL. apply apply_specs; [|by apply exact_cells]. intros c v Hc Hv. apply acc_remove; [done|done|].
  intros f. by apply (exact_not_float specs r c v f).
Qed.

(** ** The cells of an aggregate *)

(** SQL's [count], [sum] and [avg] of the rows [L]; a sum out of range is [Null]. *)
Definition agg_cell (L : list row) (s : AggSpec) : value :=
  match s with
  | Count => Int (i64_of_Z (Z.of_nat (length L)))
  | Sum c =>
      if total (cell_present c) L =? 0 then Null
      else if i64_inb (total (cell_int c) L) then Int (i64_of_Z (total (cell_int c) L)) else Null
  | Avg c =>
      if total (cell_present c) L =? 0 then Null
      else Float (f64_div (f64_add (f64_of_int (total (cell_int c) L)) f64_zero) (f64_of_int (total (cell_present c) L)))
  end.

Lemma agg_cells_of specs L : agg_cells specs (Z.of_nat (length L)) (accs_of specs L) = Some (map (agg_cell L) specs).
Proof.
  induction specs as [|s specs IH]; [done|]. unfold accs_of in *.
  destruct s as [|c|c]; cbn [omap list_omap summed map agg_cells agg_cell]; rewrite IH; cbn [mbind option_bind]; do 2 f_equal.
  - unfold sum_value, acc_of. cbn [non_null float_count int_sum]. destruct (_ =? 0); [done|]. cbn. by destruct (i64_inb _).
Qed.

(** Whether the total of a sum is out of range. *)
Definition out_of_range (specs : list AggSpec) (L : list row) : bool :=
  existsb (λ s, match s with Sum c => (0 <? total (cell_present c) L) && negb (i64_inb (total (cell_int c) L)) | _ => false end) specs.

Lemma out_of_range_of specs L : out_of_range_specs specs (accs_of specs L) = Some (out_of_range specs L).
Proof.
  induction specs as [|s specs IH]; [done|]. unfold accs_of, out_of_range in *.
  destruct s as [|c|c]; cbn [omap list_omap summed map out_of_range_specs existsb orb tail]; [done| |done].
  cbn [acc_of non_null float_count int_sum]. rewrite IH. change (0 =? 0) with true. rewrite andb_true_r. by destruct (_ && _).
Qed.

Lemma out_of_range_nil specs : out_of_range specs [] = false.
Proof. induction specs as [|[] specs IH]; [done|..]; by rewrite <-IH. Qed.

Lemma new_accs_of rd : new_accs rd = accs_of (rd_aggs rd) [].
Proof. unfold new_accs, accs_of. induction (rd_aggs rd) as [|[] specs IH]; [done|..]; cbn; by rewrite ?IH. Qed.

(** ** The same row, but for the sign of a zero *)

Definition cell_same (v w : value) : Prop := v = w ∨ agg_val_eq v w = true.
Definition row_same (a b : row) : Prop := Forall2 cell_same a b.

Lemma row_same_refl a : row_same a a.
Proof. apply Forall2_same_length_lookup. split; [done|]. intros i x y Hx Hy. left. congruence. Qed.

Lemma rows_equal_same a b : agg_rows_equal a b = true → row_same a b.
Proof.
  unfold agg_rows_equal. intros [Hl%Nat.eqb_eq Hf]%andb_true_iff. unfold row_same. revert b Hl Hf.
  induction a as [|v a IH]; intros [|w b] Hl Hf; try done; constructor; cbn in Hf; apply andb_true_iff in Hf as [Hv Hf].
  - by right.
  - apply IH; [by injection Hl|done].
Qed.

Lemma agg_val_eq_trans u v w : agg_val_eq u v = true → agg_val_eq v w = true → agg_val_eq u w = true.
Proof.
  destruct u, v, w; cbn [agg_val_eq]; try done; rewrite ?bool_decide_eq_true, ?Z.eqb_eq; try congruence. apply f64_eqb_trans.
Qed.

Lemma row_same_trans a b c : row_same a b → row_same b c → row_same a c.
Proof.
  intros H. revert c. induction H as [|u v a b Huv _ IH]; intros c Hc; inversion Hc as [|? w ? c' Hvw Hc']; subst; constructor; [|by apply IH].
  destruct Huv as [->|Huv], Hvw as [->|Hvw]; [by left|by right..|]. right. by eapply agg_val_eq_trans.
Qed.

Lemma rows_equal_tails a x y : agg_rows_equal (a ++ x) (a ++ y) = true → row_same x y.
Proof.
  intros H%rows_equal_same. induction a as [|v a IH]; [done|]. inversion H; subst. by apply IH.
Qed.

(** ** The state *)

Lemma wrap_step a b : i64_wrap (i64_wrap a + b) = i64_wrap (a + b).
Proof.
  unfold i64_wrap. f_equal. replace ((a + 2 ^ 63) mod 2 ^ 64 - 2 ^ 63 + b + 2 ^ 63) with ((a + 2 ^ 63) mod 2 ^ 64 + b) by lia.
  rewrite Z.add_mod_idemp_l by lia. f_equal. lia.
Qed.

(** Two tests that differ at one element at most. *)
Lemma count_change {A} `{!EqDecision A} (f g : A → bool) (K : list A) (x : A) :
  NoDup K → x ∈ K → (∀ y, y ≠ x → g y = f y) →
  Z.of_nat (length (List.filter g K)) = Z.of_nat (length (List.filter f K)) + (if g x then 1 else 0) - (if f x then 1 else 0).
Proof.
  intros Hnd Hx Hfg. induction Hnd as [|y K Hy Hnd IH]; [by apply elem_of_nil in Hx|]. cbn [List.filter].
  destruct (decide (y = x)) as [->|Hne].
  - assert (List.filter g K = List.filter f K) as ->.
    { apply filter_ext_in. intros z Hz. apply Hfg. intros ->. by apply Hy, list_elem_of_In. }
    destruct (g x), (f x); cbn [length]; lia.
  - apply elem_of_cons in Hx as [->|Hx]; [done|]. specialize (IH Hx). rewrite (Hfg y) by done. destruct (f y); cbn [length]; lia.
Qed.

Section groups.
Context {St : Type} `{!Storage St} (store_ok : St → Prop) `{!StorageLaws St store_ok}.
Context (input_fetch : FetchRequest → list node) (rd : ReduceOp).
#[local] Abbreviation state := (ReduceSt St).
#[local] Abbreviation specs := (rd_aggs rd).

(** Whether the sum of a stored group is out of range. *)
Definition over (s : state) (k : storage_key) : bool :=
  match st_get k (rs_store s) with Some (SvReduce _ accs) => default false (out_of_range_specs specs accs) | _ => false end.

(** The counter of sums out of range counts the stored groups that have one. *)
Definition overflow_ok (s : state) : Prop :=
  ∀ K, NoDup K → (∀ k, st_get k (rs_store s) ≠ None → k ∈ K) →
    rs_overflowed s = i64_wrap (Z.of_nat (length (List.filter (over s) K))).

Definition shape_ok (s : state) : Prop :=
  store_ok (rs_store s) ∧ overflow_ok s ∧ ∀ k v, st_get k (rs_store s) = Some v → ∃ n X, v = SvReduce n (accs_of specs X).

(** The store after a key is set or deleted, and what is counted then. *)
Lemma moved_shape s key (store' : St) (v : option StorageValue) :
  shape_ok s → store_ok store' → (∀ k, st_get k store' = if decide (k = key) then v else st_get k (rs_store s)) →
  (∀ w, v = Some w → ∃ n X, w = SvReduce n (accs_of specs X)) →
  let now := match v with Some (SvReduce _ accs) => default false (out_of_range_specs specs accs) | _ => false end in
  shape_ok (MkReduceSt store' (match over s key, now with
                               | false, true => i64_wrap (rs_overflowed s + 1)
                               | true, false => i64_wrap (rs_overflowed s - 1)
                               | _, _ => rs_overflowed s
                               end)).
Proof.
  intros (Hs & Ho & Hsh) Hs' Hget Hv now. split; [done|]. split.
  2: { cbn [rs_store]. intros k w. rewrite Hget. case_decide; [apply Hv|apply Hsh]. }
  intros K Hnd HK. cbn [rs_overflowed rs_store] in *.
  set (s' := MkReduceSt store' _) in *. set (K' := if decide (key ∈ K) then K else key :: K).
  assert (NoDup K' ∧ key ∈ K') as [Hnd' Hk'].
  { unfold K'. case_decide; [done|]. split; [by constructor|by left]. }
  assert (∀ k, st_get k (rs_store s) ≠ None → k ∈ K') as Hcover.
  { intros k Hk. destruct (decide (k = key)) as [->|Hne]; [done|]. assert (k ∈ K) as HkK by (apply HK; rewrite Hget; by rewrite decide_False).
    unfold K'. case_decide; [done|by right]. }
  assert (∀ y, y ≠ key → over s' y = over s y) as Hother.
  { intros y Hy. unfold over. cbn [rs_store s']. by rewrite Hget, decide_False. }
  assert (over s' key = now) as Hnow by (unfold over; cbn [rs_store s']; by rewrite Hget, decide_True).
  assert (length (List.filter (over s') K) = length (List.filter (over s') K')) as ->.
  { unfold K'. case_decide as Hin; [done|]. cbn [List.filter]. rewrite Hnow. unfold now.
    assert (v = None) as ->; [|done]. destruct v as [w|]; [|done]. destruct Hin. apply HK. rewrite Hget, decide_True; done. }
  rewrite (count_change (over s) (over s') K' key) by done. specialize (Ho K' Hnd' Hcover). rewrite Hnow.
  destruct (over s key), now; rewrite Ho, <-?Z.add_opp_r, ?wrap_step; f_equal; lia.
Qed.

Lemma read_shape s key :
  shape_ok s → ∃ old, read_at s key = Some old ∧
    match old with
    | Some (n, accs) => st_get key (rs_store s) = Some (SvReduce n accs) ∧ ∃ X, accs = accs_of specs X
    | None => st_get key (rs_store s) = None
    end ∧ (match old with Some (_, accs) => sum_total_out_of_range rd accs | None => Some false end) = Some (over s key).
Proof.
  intros (Hs & Ho & Hsh). unfold read_at, over. destruct (st_get key (rs_store s)) as [v|] eqn:E; [|by exists None].
  destruct (Hsh _ _ E) as (n & X & ->). eexists. split; [done|]. split; [split; [done|by eexists]|].
  unfold sum_total_out_of_range. by rewrite out_of_range_of.
Qed.

Lemma write_at_ok s key n X :
  shape_ok s →
  ∃ s', write_at rd s key n (accs_of specs X) = Some s' ∧ shape_ok s' ∧
    ∀ k, st_get k (rs_store s') = if decide (k = key) then Some (SvReduce n (accs_of specs X)) else st_get k (rs_store s).
Proof.
  intros Hs. destruct (read_shape s key Hs) as (old & Hr & Hold & Hwas). unfold write_at, track_overflow. rewrite Hr. cbn [mbind option_bind].
  assert ((match snd <$> old with Some a => sum_total_out_of_range rd a | None => Some false end) = Some (over s key)) as ->
    by (by destruct old as [[]|]).
  unfold sum_total_out_of_range. rewrite out_of_range_of. cbn [mbind option_bind]. eexists. split; [done|]. cbn [rs_store rs_overflowed].
  destruct Hs as (Hok & Ho & Hsh).
  pose proof (moved_shape s key (st_set key (SvReduce n (accs_of specs X)) (rs_store s)) (Some (SvReduce n (accs_of specs X)))
    ltac:(done) ltac:(by apply stl_set_ok) (λ k, stl_get_set key k _ _ Hok) ltac:(intros w [= <-]; eauto)) as Hm.
  cbv beta iota zeta in Hm. rewrite out_of_range_of in Hm. split; [exact Hm|]. intros k. by rewrite stl_get_set.
Qed.

Lemma del_at_ok s key :
  shape_ok s →
  ∃ s', del_at rd s key = Some s' ∧ shape_ok s' ∧
    ∀ k, st_get k (rs_store s') = if decide (k = key) then None else st_get k (rs_store s).
Proof.
  intros Hs. destruct (read_shape s key Hs) as (old & Hr & Hold & Hwas). unfold del_at, track_overflow. rewrite Hr. cbn [mbind option_bind].
  assert ((match snd <$> old with Some a => sum_total_out_of_range rd a | None => Some false end) = Some (over s key)) as ->
    by (by destruct old as [[]|]).
  cbn [mbind option_bind]. eexists. split; [done|]. cbn [rs_store rs_overflowed].
  destruct Hs as (Hok & Ho & Hsh).
  pose proof (moved_shape s key (st_del key (rs_store s)) None
    ltac:(done) ltac:(by apply stl_del_ok) (λ k, stl_get_del key k _ Hok) ltac:(done)) as Hm.
  split; [exact Hm|]. intros k. by rewrite stl_get_del.
Qed.

(** ** Groups *)

Definition gv (r : row) : list value := default [] (group_vals rd r).
Definition gkey (r : row) : storage_key := group_key (gv r).
Definition by_key (L : list row) (k : storage_key) : list row := keep (λ r, bool_decide (gkey r = k)) L.

Lemma by_key_elem L k r : r ∈ by_key L k ↔ r ∈ L ∧ gkey r = k.
Proof. unfold by_key, keep. rewrite list_elem_of_filter, Is_true_true, bool_decide_eq_true. tauto. Qed.

Lemma by_key_perm L L' k : L ≡ₚ L' → by_key L k ≡ₚ by_key L' k.
Proof. intros H. unfold by_key, keep. by rewrite H. Qed.

Lemma by_key_cons r L k : by_key (r :: L) k = if decide (gkey r = k) then r :: by_key L k else by_key L k.
Proof. unfold by_key. rewrite keep_cons. case_bool_decide; by case_decide. Qed.

Lemma by_key_length L k : (length (by_key L k) ≤ length L)%nat.
Proof. induction L as [|r L IH]; [done|]. rewrite by_key_cons. case_decide; cbn [length]; lia. Qed.

(** The eager regime deletes the state of a group that dies. *)
Definition reaps : bool := rd_eager rd && match rd_partition_key rd with Some _ => true | None => false end.

(** Every stored group is folded; an eager reducer stores them all and no other. *)
Definition stored (L : list row) (k : storage_key) (v : option StorageValue) : Prop :=
  match v with
  | None => reaps = true → by_key L k = []
  | Some v => v = SvReduce (Z.of_nat (length (by_key L k))) (accs_of specs (by_key L k)) ∧ (reaps = true → by_key L k ≠ [])
  end.

Definition state_ok (s : state) (L : list row) : Prop := shape_ok s ∧ ∀ k, stored L k (st_get k (rs_store s)).

Lemma stored_perm L L' k v : by_key L k ≡ₚ by_key L' k → stored L k v → stored L' k v.
Proof.
  intros H. destruct v as [v|]; cbn [stored].
  - rewrite (accs_perm specs _ _ H), (Permutation_length H). intros [-> Hne]. split; [done|].
    intros Hr Hn. apply Hne; [done|]. rewrite Hn in H. by apply Permutation_nil_r in H.
  - intros Hv Hr. rewrite Hv in H by done. by apply Permutation_nil_l in H.
Qed.

Lemma agg_cell_perm L L' sp : L ≡ₚ L' → agg_cell L sp = agg_cell L' sp.
Proof. intros H. destruct sp; cbn [agg_cell]; by rewrite ?(total_perm _ L L'), ?H by done. Qed.

(** The row of the group of [r], but for the sign of a zero. *)
Definition group_row (L : list row) (r o : row) : Prop :=
  ∃ cells, o = gv r ++ cells ∧ row_same cells (map (agg_cell (by_key L (gkey r))) specs).

Lemma group_row_perm L L' r o : by_key L (gkey r) ≡ₚ by_key L' (gkey r) → group_row L r o → group_row L' r o.
Proof.
  intros H (cells & -> & Hc). exists cells. split; [done|].
  assert (map (agg_cell (by_key L' (gkey r))) specs = map (agg_cell (by_key L (gkey r))) specs) as ->; [|done].
  apply map_ext. intros sp. symmetry. by apply agg_cell_perm.
Qed.

Lemma agg_row_group L r : agg_row rd (gv r) (Z.of_nat (length (by_key L (gkey r)))) (accs_of specs (by_key L (gkey r))) =
  Some (gv r ++ map (agg_cell (by_key L (gkey r))) specs).
Proof. unfold agg_row. by rewrite agg_cells_of. Qed.

(** ** The consumer *)

#[local] Abbreviation cmp := (row_cmp (schema_sort (rd_schema rd))).

(** The rows that ever are: their group columns are there, tell the groups apart as
    the order of the output does, and their summed cells are exact. *)
Context (U : row → Prop).
Context (Hvals : ∀ r, U r → is_Some (group_vals rd r)).
Context (Hkeys : ∀ r r', U r → U r' → gkey r = gkey r' → gv r = gv r').
Context (Horder : ∀ r r' x y, U r → U r' → cmp (gv r ++ x) (gv r' ++ y) = Eq ↔ gv r = gv r').
Context (Hexact : ∀ r, U r → exact specs r).

Definition known (s : state) (r : row) : Prop := st_get (gkey r) (rs_store s) ≠ None.

(** A consumer holds the rows of the stored groups. *)
Definition shows (T : list row) (s : state) (L : list row) : Prop :=
  ssorted cmp T ∧ (∀ o, o ∈ T → ∃ r, r ∈ L ∧ known s r ∧ group_row L r o) ∧
  (∀ r, r ∈ L → known s r → ∃ o, o ∈ T ∧ group_row L r o).

Lemma group_tie L r r' o x : U r → U r' → group_row L r o → cmp o (gv r' ++ x) = Eq ↔ gkey r = gkey r'.
Proof.
  intros H H' (cells & -> & _). rewrite Horder by done. split; [by unfold gkey; intros ->|by apply Hkeys].
Qed.

(** The rows of the group of [r] are replaced by [born], if any. *)
Lemma shows_replace T T' s s' L L' r (born : option row) :
  shows T s L → (∀ x, x ∈ L → U x) → (∀ x, x ∈ L' → U x) → U r → ssorted cmp T' →
  (∀ k, k ≠ gkey r → by_key L k ≡ₚ by_key L' k ∧ st_get k (rs_store s') = st_get k (rs_store s)) →
  (∀ o, o ∈ T' ↔ born = Some o ∨ (o ∈ T ∧ cmp o (gv r) ≠ Eq)) →
  match born with
  | Some o => by_key L' (gkey r) ≠ [] ∧ known s' r ∧ group_row L' r o
  | None => by_key L' (gkey r) = [] ∨ ¬ known s' r
  end →
  shows T' s' L'.
Proof.
  intros (Hs & Hto & Hfrom) HL HL' Hr Hs' Hother Helem Hborn.
  assert (∀ x o, x ∈ L → group_row L x o → cmp o (gv r) = Eq ↔ gkey x = gkey r) as Htie.
  { intros x o Hx Ho. rewrite <-(app_nil_r (gv r)). apply (group_tie L); auto. }
  assert (∀ x, gkey x ≠ gkey r → x ∈ L ↔ x ∈ L') as Hmem.
  { intros x Hx. destruct (Hother (gkey x) Hx) as [Hp _].
    assert (x ∈ by_key L (gkey x) ↔ x ∈ by_key L' (gkey x)) as H by (by rewrite Hp). rewrite !by_key_elem in H. tauto. }
  assert (∀ x y, gkey x = gkey y → known s' x ↔ known s' y) as Hkn by (unfold known; by intros x y ->).
  split; [done|]. split.
  - intros o [->|[Ho Hne]]%Helem.
    + destruct Hborn as (Hg & Hk & Hrow). destruct (by_key L' (gkey r)) as [|x l] eqn:E; [done|].
      assert (x ∈ by_key L' (gkey r)) as Hx by (rewrite E; by left). apply by_key_elem in Hx as [Hx Hkx]. exists x. split; [done|].
      split; [by apply (Hkn x r)|]. destruct Hrow as (cells & -> & Hc). exists cells. rewrite Hkx. split; [|done].
      f_equal. symmetry. apply Hkeys; auto.
    + destruct (Hto o Ho) as (x & Hx & Hk & Hrow). assert (gkey x ≠ gkey r) as Hne'.
      { intros E. apply Hne. by apply (Htie x o). }
      destruct (Hother _ Hne') as [Hp Hst]. exists x. split; [by apply Hmem|]. split; [by unfold known; rewrite Hst|].
      by eapply group_row_perm.
  - intros x Hx Hk. destruct (decide (gkey x = gkey r)) as [E|Hne'].
    + assert (by_key L' (gkey r) ≠ []) as Hg.
      { intros Hn. assert (x ∈ by_key L' (gkey r)) as H by (by apply by_key_elem). by rewrite Hn in H; apply elem_of_nil in H. }
      destruct born as [o|]; [|destruct Hborn as [?|Hb]; [done|]; by destruct Hb; apply (Hkn x r)].
      exists o. split; [apply Helem; by left|]. destruct Hborn as (_ & _ & cells & -> & Hc). exists cells. rewrite E. split; [|done].
      f_equal. apply Hkeys; auto.
    + destruct (Hother _ Hne') as [Hp Hst]. destruct (Hfrom x) as (o & Ho & Hrow); [by apply Hmem|by unfold known in *; rewrite <-Hst|].
      exists o. split; [|by eapply group_row_perm]. apply Helem. right. split; [done|]. intros Hc. apply Hne'. apply (Htie x o); [by apply Hmem|done|done].
Qed.
(** ** What a push tells *)

#[local] Abbreviation log := (list (OutEdge * change * state)).

Definition consume (T : list row) (l : log) : list row :=
  foldl (λ T e, match for_child_change e.1.2 with Some sc => apply_source_change cmp sc T | None => T end) T l.

(** A change that the rows of the consumer allow, up to what its order sees. *)
Definition fitting (T : list row) (ch : change) : Prop :=
  match ch with
  | Add n => sl_find cmp (node_row n) T = None
  | Remove n => sl_find cmp (node_row n) T ≠ None
  | Edit n old => sl_find cmp (node_row old) T ≠ None ∧ cmp (node_row n) (node_row old) = Eq
  | Child _ _ _ => False
  end.

(** At most one change, after the state is written. *)
Definition told (out : OutEdge) (T : list row) (s' : state) (l : log) : Prop :=
  l = [] ∨ ∃ ch, l = [(out, ch, s')] ∧ fitting T ch.

Lemma same_group_tie r x y : U r → cmp (gv r ++ x) (gv r ++ y) = Eq.
Proof. intros H. by apply Horder. Qed.

Lemma tie_as r x o : U r → cmp o (gv r ++ x) = cmp o (gv r).
Proof.
  intros H. apply cmp_eq_r; [apply _|]. pose proof (same_group_tie r x [] H) as E. by rewrite app_nil_r in E.
Qed.

Lemma shown_tie T s L r o : shows T s L → (∀ x, x ∈ L → U x) → U r → o ∈ T → cmp o (gv r) = Eq → known s r ∧ by_key L (gkey r) ≠ [].
Proof.
  intros (_ & Hto & _) HL Hr Ho He. destruct (Hto o Ho) as (x & Hx & Hk & Hrow).
  assert (gkey x = gkey r) as E by (apply (group_tie L x r o []); rewrite ?app_nil_r; auto).
  split; [by unfold known in *; rewrite <-E|]. intros Hn. assert (x ∈ by_key L (gkey r)) as H by (by apply by_key_elem).
  by rewrite Hn in H; apply elem_of_nil in H.
Qed.

Lemma shown_row T s L r : shows T s L → (∀ x, x ∈ L → U x) → U r → known s r → by_key L (gkey r) ≠ [] → ∃ o, o ∈ T ∧ group_row L r o.
Proof.
  intros (_ & _ & Hfrom) HL Hr Hk Hg. destruct (by_key L (gkey r)) as [|x l] eqn:E; [done|].
  assert (x ∈ by_key L (gkey r)) as [Hx Hkx]%by_key_elem by (rewrite E; by left).
  destruct (Hfrom x Hx) as (o & Ho & cells & -> & Hc); [by unfold known in *; rewrite Hkx|].
  exists (gv x ++ cells). split; [done|]. exists cells. rewrite <-Hkx. split; [|done]. f_equal. apply Hkeys; auto.
Qed.

(** The group of one row moves, and with it what a consumer shows. *)
Section move.
Context (T : list row) (s s' : state) (L L' : list row) (r : row) (out : OutEdge).
Context (Hshows : shows T s L) (HL : ∀ x, x ∈ L → U x) (HL' : ∀ x, x ∈ L' → U x) (Hr : U r).
Context (Hother : ∀ k, k ≠ gkey r → by_key L k ≡ₚ by_key L' k ∧ st_get k (rs_store s') = st_get k (rs_store s)).
#[local] Abbreviation cells X := (map (agg_cell (by_key X (gkey r))) specs).

Lemma cells_row X : group_row X r (gv r ++ cells X).
Proof. eexists. split; [done|]. apply row_same_refl. Qed.

Lemma tied_row c : sl_find cmp (gv r ++ c) T ≠ None ↔ known s r ∧ by_key L (gkey r) ≠ [].
Proof.
  split.
  - destruct (sl_find cmp (gv r ++ c) T) as [o|] eqn:E; [|done]. intros _. apply sl_find_Some in E as [Ho He]; [|apply _].
    rewrite tie_as in He by done. by eapply shown_tie.
  - intros [Hk Hg] Hn. destruct (shown_row T s L r) as (o & Ho & x & -> & _); [done..|].
    rewrite sl_find_None in Hn. apply (Hn _ Ho). by apply same_group_tie.
Qed.

Lemma move_silent : ¬ known s r → ¬ known s' r → shows T s' L'.
Proof.
  intros Hk Hk'. apply (shows_replace T T s s' L L' r None); try done; [by destruct Hshows| |by right].
  intros o. split; [|by intros [|[? _]]]. intros Ho. right. split; [done|]. intros He. by destruct (shown_tie T s L r o).
Qed.

Lemma move_born :
  ¬ (known s r ∧ by_key L (gkey r) ≠ []) → known s' r → by_key L' (gkey r) ≠ [] →
  let l := [(out, Add (leaf_node (gv r ++ cells L')), s')] in
  shows (consume T l) s' L' ∧ told out T s' l.
Proof.
  intros Hk Hk' Hg l. assert (sl_find cmp (gv r ++ cells L') T = None) as Hf.
  { destruct (sl_find cmp (gv r ++ cells L') T) eqn:E; [|done]. destruct Hk. apply (tied_row (cells L')). by rewrite E. }
  split; [|right; eexists; by split].
  assert (ssorted cmp T) as HT by (by destruct Hshows).
  cbn [consume foldl l fst snd for_child_change apply_source_change node_row leaf_node].
  apply (shows_replace T _ s s' L L' r (Some (gv r ++ cells L'))); try done; [by apply sl_insert_sorted; [apply _|]| |].
  - intros o. rewrite (sl_insert_perm _ _ _ Hf), elem_of_cons. split.
    + intros [->|Ho]; [by left|]. right. split; [done|]. intros He. destruct Hk. by eapply shown_tie.
    + intros [[= ->]|[? _]]; [by left|by right].
  - split_and!; [done|done|apply cells_row].
Qed.

Lemma move_died :
  known s r → by_key L (gkey r) ≠ [] → by_key L' (gkey r) = [] →
  let l := [(out, Remove (leaf_node (gv r ++ cells L)), s')] in
  shows (consume T l) s' L' ∧ told out T s' l.
Proof.
  intros Hk Hg Hg' l. assert (ssorted cmp T) as HT by (by destruct Hshows).
  split; [|right; eexists; split; [done|]; by apply tied_row].
  cbn [consume foldl l fst snd for_child_change apply_source_change node_row leaf_node].
  apply (shows_replace T _ s s' L L' r None); try done; [by apply sl_delete_sorted; [apply _|]| |by left].
  intros o. rewrite sl_delete_iff, tie_as by (done || apply _). naive_solver.
Qed.

Lemma move_changed :
  known s r → known s' r → by_key L (gkey r) ≠ [] → by_key L' (gkey r) ≠ [] →
  let l := push_moved out s' (gv r ++ cells L) (gv r ++ cells L') in
  shows (consume T l) s' L' ∧ told out T s' l.
Proof.
  intros Hk Hk' Hg Hg' l. assert (ssorted cmp T) as HT by (by destruct Hshows). unfold l, push_moved.
  destruct (agg_rows_equal _ _) eqn:E.
  - split; [|by left]. apply rows_equal_tails in E. destruct (shown_row T s L r) as (o & Ho & x & -> & Hx); [done..|].
    apply (shows_replace T T s s' L L' r (Some (gv r ++ x))); try done.
    + intros o. split; [|by intros [[= <-]|[? _]]]. intros Ho'. destruct (decide (cmp o (gv r) = Eq)) as [He|He]; [left|by right].
      f_equal. apply (ssorted_tie cmp T); [done..|]. rewrite <-(tie_as r x o), cmp_opp in He by done. by destruct (cmp _ o).
    + split_and!; [done|done|]. exists x. split; [done|]. by eapply row_same_trans.
  - split; [|right; eexists; split; [done|]; split; [by apply tied_row|by apply same_group_tie]].
    cbn [consume foldl l fst snd for_child_change apply_source_change node_row leaf_node].
    assert (sl_find cmp (gv r ++ cells L') (sl_delete cmp (gv r ++ cells L) T) = None) as Hf.
    { apply sl_find_None. intros y. rewrite sl_delete_iff, !tie_as by (done || apply _). tauto. }
    apply (shows_replace T _ s s' L L' r (Some (gv r ++ cells L'))); try done.
    + by apply sl_insert_sorted, sl_delete_sorted; [apply _..|].
    + intros o. rewrite (sl_insert_perm _ _ _ Hf), elem_of_cons, sl_delete_iff, tie_as by (done || apply _). naive_solver.
    + split_and!; [done|done|apply cells_row].
Qed.
End move.
(** ** A push *)

(** What the input did. *)
Definition moves (ch : change) (L L' : list row) : Prop :=
  match ch with
  | Add n => L' ≡ₚ node_row n :: L
  | Remove n => L ≡ₚ node_row n :: L'
  | Edit n old => ∃ M, L ≡ₚ node_row old :: M ∧ L' ≡ₚ node_row n :: M ∧ gkey (node_row n) = gkey (node_row old)
  | Child _ _ _ => L' ≡ₚ L
  end.

Definition others (r : row) (L L' : list row) : Prop := ∀ k, k ≠ gkey r → by_key L k ≡ₚ by_key L' k.

Lemma others_cons r L L' : L' ≡ₚ r :: L → others r L L' ∧ by_key L' (gkey r) ≡ₚ r :: by_key L (gkey r).
Proof.
  intros H. split.
  - intros k Hk. rewrite (by_key_perm _ _ k H), by_key_cons. by case_decide.
  - rewrite (by_key_perm _ _ _ H), by_key_cons. by case_decide.
Qed.

Lemma others_sym r L L' : others r L L' → others r L' L.
Proof. intros H k Hk. symmetry. by apply H. Qed.

Lemma others_stored s L L' r k : others r L L' → k ≠ gkey r → stored L k (st_get k (rs_store s)) → stored L' k (st_get k (rs_store s)).
Proof. intros H Hk. apply stored_perm. by apply H. Qed.

Lemma write_group s L L' r :
  state_ok s L → others r L L' → (reaps = true → by_key L' (gkey r) ≠ []) →
  ∃ s', write_at rd s (gkey r) (Z.of_nat (length (by_key L' (gkey r)))) (accs_of specs (by_key L' (gkey r))) = Some s' ∧
    state_ok s' L' ∧ known s' r ∧ ∀ k, k ≠ gkey r → st_get k (rs_store s') = st_get k (rs_store s).
Proof.
  intros [Hs Hst] Ho Hne. destruct (write_at_ok s (gkey r) (Z.of_nat (length (by_key L' (gkey r)))) (by_key L' (gkey r)) Hs) as (s' & -> & Hs' & Hget).
  exists s'. split_and!; [done| |by unfold known; rewrite Hget, decide_True|intros k Hk; by rewrite Hget, decide_False].
  split; [done|]. intros k. rewrite Hget. case_decide as Hk; [by subst|]. by eapply others_stored.
Qed.

Lemma delete_group s L L' r :
  state_ok s L → others r L L' → by_key L' (gkey r) = [] →
  ∃ s', del_at rd s (gkey r) = Some s' ∧ state_ok s' L' ∧ ∀ k, k ≠ gkey r → st_get k (rs_store s') = st_get k (rs_store s).
Proof.
  intros [Hs Hst] Ho Hn. destruct (del_at_ok s (gkey r) Hs) as (s' & -> & Hs' & Hget).
  exists s'. split_and!; [done| |intros k Hk; by rewrite Hget, decide_False].
  split; [done|]. intros k. rewrite Hget. case_decide as Hk; [by subst; intros _|]. by eapply others_stored.
Qed.

Lemma group_vals_gv r : U r → group_vals rd r = Some (gv r).
Proof. intros H. unfold gv. by destruct (Hvals r H) as [v ->]. Qed.

(** One row more or less in its group. *)
Lemma group_step L L' r delta :
  (delta = 1 ∧ L' ≡ₚ r :: L) ∨ (delta = -1 ∧ L ≡ₚ r :: L') → U r → fits L → fits L' →
  others r L L' ∧ acc_apply rd (accs_of specs (by_key L (gkey r))) r delta = Some (accs_of specs (by_key L' (gkey r))) ∧
  Z.of_nat (length (by_key L (gkey r))) + delta = Z.of_nat (length (by_key L' (gkey r))).
Proof.
  intros H Hr HL HL'. pose proof (by_key_length L (gkey r)). pose proof (by_key_length L' (gkey r)).
  destruct H as [[-> H]|[-> H]]; destruct (others_cons _ _ _ H) as [Ho Hp].
  - split_and!; [done| |by rewrite Hp; cbn [length]; lia]. rewrite (accs_perm specs _ _ Hp). apply apply_add; [by apply Hexact|].
    eapply fits_perm; [exact Hp|]. by eapply fits_sub.
  - split_and!; [by apply others_sym| |by rewrite Hp; cbn [length]; lia]. rewrite (accs_perm specs _ _ Hp). apply apply_remove; [by apply Hexact|].
    eapply fits_perm; [exact Hp|]. by eapply fits_sub.
Qed.

Definition push_result (T : list row) (L' : list row) (out : OutEdge) (res : option (state * log)) : Prop :=
  ∃ s' l, res = Some (s', l) ∧ state_ok s' L' ∧ shows (consume T l) s' L' ∧ told out T s' l.

Lemma read_at_get s k : shape_ok s →
  read_at s k = Some match st_get k (rs_store s) with Some (SvReduce n accs) => Some (n, accs) | _ => None end.
Proof.
  intros (_ & _ & Hsh). unfold read_at. destruct (st_get k (rs_store s)) as [v|] eqn:E; [|done]. by destruct (Hsh k v E) as (n & X & ->).
Qed.

Lemma no_rows (l : list row) : l = [] → (0 <? Z.of_nat (length l)) = false.
Proof. by intros ->. Qed.

Lemma some_rows (l : list row) : l ≠ [] → (0 <? Z.of_nat (length l)) = true.
Proof. intros H. destruct l; [done|]. apply Z.ltb_lt. cbn [length]. lia. Qed.

Lemma delta_ok s T L L' r delta out :
  is_Some (rd_partition_key rd) → (delta = 1 ∧ L' ≡ₚ r :: L) ∨ (delta = -1 ∧ L ≡ₚ r :: L') →
  state_ok s L → shows T s L → (∀ x, x ∈ L → U x) → (∀ x, x ∈ L' → U x) → U r → fits L → fits L' →
  push_result T L' out (grouped_delta rd s out r delta).
Proof.
  intros [pk Hpk] Hd Hok Hsh HL HL' Hr HfL HfL'. destruct (group_step L L' r delta Hd Hr HfL HfL') as (Ho & Hacc & Hlen).
  pose proof Hok as [Hs Hst]. specialize (Hst (gkey r)). unfold grouped_delta. rewrite group_vals_gv by done. cbn [mbind option_bind].
  fold (gkey r). rewrite read_at_get by done. pose proof (agg_row_group L r) as Hold. pose proof (agg_row_group L' r) as Hnew.
  pose proof (move_born T s) as Hborn. pose proof (move_died T s) as Hdied. pose proof (move_changed T s) as Hchanged.
  assert (delta = 1 → by_key L' (gkey r) ≠ []) as Hadded by (intros -> E; rewrite E in Hlen; cbn [length] in Hlen; lia).
  destruct (st_get (gkey r) (rs_store s)) as [v|] eqn:Eg; cbn [mbind option_bind]; cbn [stored] in Hst.
  - destruct Hst as [-> Hreaps]. rewrite Hacc. cbn [mbind option_bind].
    assert (known s r) as Hk by (unfold known; by rewrite Eg).
    rewrite wrap_small by (unfold fits in *; pose proof (by_key_length L' (gkey r)); lia). rewrite Hlen, Z.max_l by lia.
    pose proof (write_group s L L' r Hok Ho) as Hwrite. unfold reaps in Hwrite. rewrite Hpk, andb_true_r in Hwrite.
    destruct (decide (by_key L (gkey r) = [])) as [G|G], (decide (by_key L' (gkey r) = [])) as [G'|G'].
    + rewrite G, G' in Hlen. cbn [length] in Hlen. lia.
    + rewrite (no_rows _ G), (some_rows _ G'), Hnew. destruct (Hwrite (λ _, G')) as (s' & -> & Hok' & Hk' & Hframe). cbn [mbind option_bind].
      eexists _, _. split; [done|]. split; [done|]. apply (Hborn s' L L' r out); try done; [|tauto]. intros k Hk2. split; [by apply Ho|by apply Hframe].
    + rewrite (some_rows _ G), (no_rows _ G'), Hold. cbn [mbind option_bind].
      assert (∃ s', (if rd_eager rd then del_at rd s (gkey r)
                     else write_at rd s (gkey r) (Z.of_nat (length (by_key L' (gkey r)))) (accs_of specs (by_key L' (gkey r)))) = Some s' ∧
        state_ok s' L' ∧ ∀ k, k ≠ gkey r → st_get k (rs_store s') = st_get k (rs_store s)) as (s' & -> & Hok' & Hframe).
      { destruct (rd_eager rd).
        - destruct (delete_group s L L' r Hok Ho G') as (s' & ? & ? & ?). by exists s'.
        - destruct Hwrite as (s' & ? & ? & _ & ?); [done|]. by exists s'. }
      cbn [mbind option_bind].
      eexists _, _. split; [done|]. split; [done|]. apply (Hdied s' L L' r out); try done. intros k Hk2. split; [by apply Ho|by apply Hframe].
    + rewrite (some_rows _ G), (some_rows _ G'), Hold, Hnew. destruct (Hwrite (λ _, G')) as (s' & -> & Hok' & Hk' & Hframe). cbn [mbind option_bind].
      eexists _, _. split; [done|]. split; [done|]. apply (Hchanged s' L L' r out); try done. intros k Hk2. split; [by apply Ho|by apply Hframe].
  - assert (¬ known s r) as Hk by (unfold known; rewrite Eg; tauto).
    destruct (rd_eager rd) eqn:Ee; cbn [andb].
    + assert (by_key L (gkey r) = []) as G by (apply Hst; unfold reaps; by rewrite Ee, Hpk).
      rewrite G in Hlen, Hacc. cbn [length] in Hlen. destruct Hd as [[-> Hp]|[-> Hp]]; [|lia]. change (0 <? 1) with true. cbv iota.
      rewrite new_accs_of, Hacc. cbn [mbind option_bind]. change 1 with (0 + 1). replace (0 + 1) with (Z.of_nat (length (by_key L' (gkey r)))) by lia. rewrite Hnew.
      destruct (write_group s L L' r Hok Ho (λ _, Hadded eq_refl)) as (s' & -> & Hok' & Hk' & Hframe). cbn [mbind option_bind].
      eexists _, _. split; [done|]. split; [done|]. apply (Hborn s' L L' r out); try done; [|tauto|by apply Hadded]. intros k Hk2. split; [by apply Ho|by apply Hframe].
    + eexists _, _. split; [done|]. split.
      * destruct Hok as [_ Hst']. split; [done|]. intros k. destruct (decide (k = gkey r)) as [->|Hne]; [|by eapply others_stored].
        rewrite Eg. cbn [stored]. unfold reaps. by rewrite Ee.
      * split; [|by left]. apply (move_silent T s s L L' r); try done. intros k Hk2. split; [by apply Ho|done].
Qed.

Lemma edit_ok s T L L' M r old out :
  L ≡ₚ old :: M → L' ≡ₚ r :: M → gkey r = gkey old →
  state_ok s L → shows T s L → (∀ x, x ∈ L → U x) → (∀ x, x ∈ L' → U x) → fits L →
  push_result T L' out (grouped_edit rd s out old r).
Proof.
  intros HM HM' Hkey Hok Hsh HL HL' HfL. assert (U r) as Hr by (apply HL'; rewrite HM'; by left). assert (U old) as Hro by (apply HL; rewrite HM; by left).
  destruct (others_cons _ _ _ HM) as [Ho1 Hp1], (others_cons _ _ _ HM') as [Ho2 Hp2]. rewrite <-Hkey in Hp1.
  assert (others r L L') as Ho by (intros k Hk; rewrite <-(Ho2 k) by done; rewrite (Ho1 k) by congruence; done).
  pose proof Hok as [Hs Hst]. specialize (Hst (gkey r)). unfold grouped_edit. rewrite group_vals_gv by done. cbn [mbind option_bind].
  fold (gkey r). rewrite read_at_get by done. pose proof (agg_row_group L r) as Hold. pose proof (agg_row_group L' r) as Hnew.
  assert (length (by_key L (gkey r)) = length (by_key L' (gkey r))) as Hlen by (by rewrite Hp1, Hp2).
  assert (by_key L (gkey r) ≠ [] ∧ by_key L' (gkey r) ≠ []) as [G G'].
  { split; intros E; rewrite E in *; [by apply Permutation_nil_l in Hp1|by apply Permutation_nil_l in Hp2]. }
  destruct (st_get (gkey r) (rs_store s)) as [v|] eqn:Eg; cbn [mbind option_bind]; cbn [stored] in Hst.
  - destruct Hst as [-> Hreaps]. assert (fits (by_key L (gkey r))) as Hf by (eapply fits_sub; [apply by_key_length|done]).
    unfold acc_apply. rewrite (accs_perm specs _ _ Hp1), apply_remove by (by apply Hexact || by eapply fits_perm). cbn [mbind option_bind].
    rewrite apply_add; [|by apply Hexact|unfold fits in *; by rewrite <-Hp2, <-Hlen]. cbn [mbind option_bind].
    rewrite <-(accs_perm specs _ _ Hp1), <-(accs_perm specs _ _ Hp2), Hold. cbn [mbind option_bind]. rewrite Hlen, Hnew. cbn [mbind option_bind].
    destruct (write_group s L L' r Hok Ho (λ _, G')) as (s' & -> & Hok' & Hk' & Hframe). cbn [mbind option_bind].
    eexists _, _. split; [done|]. split; [done|]. apply (move_changed T s s' L L' r out); try done; [|by unfold known; rewrite Eg].
    intros k Hk2. split; [by apply Ho|by apply Hframe].
  - eexists _, _. split; [done|]. split.
    + destruct Hok as [_ Hst']. split; [done|]. intros k. destruct (decide (k = gkey r)) as [->|Hne]; [|by eapply others_stored].
      rewrite Eg. cbn [stored]. intros Hr'. by destruct G; apply Hst.
    + split; [|by left]. apply (move_silent T s s L L' r); try done; [|unfold known; rewrite Eg; tauto..]. intros k Hk2. split; [by apply Ho|done].
Qed.

Lemma state_perm s L L' : L ≡ₚ L' → state_ok s L → state_ok s L'.
Proof. intros H [Hs Hst]. split; [done|]. intros k. eapply stored_perm; [|apply Hst]. by apply by_key_perm. Qed.

Lemma shows_perm T s L L' : L ≡ₚ L' → shows T s L → shows T s L'.
Proof.
  intros H (Hs & Hto & Hfrom). split_and!; [done|..].
  - intros o Ho. destruct (Hto o Ho) as (r & Hr & Hk & Hrow). exists r. split_and!; [by rewrite <-H|done|]. eapply group_row_perm; [|done]. by apply by_key_perm.
  - intros r Hr Hk. destruct (Hfrom r) as (o & Ho & Hrow); [by rewrite H|done|]. exists o. split; [done|]. eapply group_row_perm; [|done]. by apply by_key_perm.
Qed.

Lemma push_grouped s T L L' ch out :
  is_Some (rd_partition_key rd) → rd_output rd = Some out → moves ch L L' →
  state_ok s L → shows T s L → (∀ x, x ∈ L → U x) → (∀ x, x ∈ L' → U x) → fits L → fits L' →
  push_result T L' out (reduce_push rd s ch).
Proof.
  intros [pk Hpk] Hout Hm Hok Hsh HL HL' HfL HfL'. unfold reduce_push. rewrite Hout, Hpk. cbn [mbind option_bind].
  destruct ch as [n|n|n old|n rel sub]; cbn [moves] in Hm.
  - apply (delta_ok s T L); try done; [tauto|]. apply HL'. rewrite Hm. by left.
  - apply (delta_ok s T L); try done; [tauto|]. apply HL. rewrite Hm. by left.
  - destruct Hm as (M & HM & HM' & Hkey). by apply (edit_ok s T L L' M).
  - eexists _, _. split; [done|]. symmetry in Hm. split; [by eapply state_perm|]. split; [by eapply shows_perm|by left].
Qed.
(** ** Folding the input *)

(** The groups of [X], as the fold of a fetch collects them. *)
Definition groups_of (m : gmap storage_key (list value * Z * list ReduceAcc)) (X : list row) : Prop :=
  ∀ k, match m !! k with
       | None => by_key X k = []
       | Some (vs, n, accs) =>
           (∃ r, r ∈ X ∧ gkey r = k ∧ gv r = vs) ∧ n = Z.of_nat (length (by_key X k)) ∧ accs = accs_of specs (by_key X k)
       end.

Lemma groups_perm m X X' : X ≡ₚ X' → groups_of m X → groups_of m X'.
Proof.
  intros H Hm k. specialize (Hm k). pose proof (by_key_perm X X' k H) as Hp. destruct (m !! k) as [[[vs n] accs]|].
  - rewrite <-(accs_perm specs _ _ Hp), <-(Permutation_length Hp). destruct Hm as ((r & Hr & ?) & ? & ?). split_and!; [|done..].
    exists r. by rewrite <-H.
  - rewrite Hm in Hp. by apply Permutation_nil_l in Hp.
Qed.

Lemma group_node_ok m X n :
  groups_of m X → U (node_row n) → (∀ x, x ∈ X → U x) → fits (node_row n :: X) →
  ∃ m', group_node rd m n = Some m' ∧ groups_of m' (node_row n :: X).
Proof.
  intros Hm Hn HX HL. unfold group_node. rewrite group_vals_gv by done. cbn [mbind option_bind]. fold (gkey (node_row n)). set (r := node_row n) in *.
  assert (fits X) as HfX by (eapply fits_sub; [|exact HL]; cbn; lia).
  destruct (group_step X (r :: X) r 1 ltac:(by left) Hn HfX HL) as (Ho & Hacc & Hlen).
  pose proof (Hm (gkey r)) as Hk. rewrite by_key_cons, decide_True in Hacc, Hlen by done.
  assert (default (gv r, 0, new_accs rd) (m !! gkey r) = (gv r, Z.of_nat (length (by_key X (gkey r))), accs_of specs (by_key X (gkey r)))) as ->.
  { destruct (m !! gkey r) as [[[vs c] accs]|]; cbn [default from_option].
    - destruct Hk as ((x & Hx & Hkx & <-) & -> & ->). by rewrite (Hkeys x r) by auto.
    - by rewrite Hk, new_accs_of. }
  rewrite Hacc. cbn [mbind option_bind]. eexists. split; [done|]. intros k. rewrite lookup_insert. case_decide as E.
  - subst k. rewrite by_key_cons, decide_True by done. split_and!; [|rewrite wrap_small; [done|]|done].
    + exists r. split; [by left|done].
    + pose proof (by_key_length X (gkey r)). unfold fits in *. lia.
  - pose proof (Hm k) as Hk'. rewrite by_key_cons, decide_False by done. destruct (m !! k) as [[[vs c] accs]|]; [|done].
    destruct Hk' as ((x & Hx & ?) & ? & ?). split_and!; [|done..]. exists x. split; [by right|done].
Qed.

Lemma group_nodes_ok ns m X :
  groups_of m X → (∀ x, x ∈ map node_row ns ++ X → U x) → fits (map node_row ns ++ X) →
  ∃ m', group_nodes rd m ns = Some m' ∧ groups_of m' (map node_row ns ++ X).
Proof.
  revert m X. induction ns as [|n ns IH]; intros m X Hm HU HL; [by exists m|]. cbn [map app group_nodes] in *.
  assert (map node_row ns ++ node_row n :: X ≡ₚ node_row n :: map node_row ns ++ X) as Hp by (symmetry; apply Permutation_middle).
  destruct (group_node_ok m X n Hm) as (m1 & -> & Hm1).
  { apply HU. by left. }
  { intros x Hx. apply HU. right. apply elem_of_app. by right. }
  { eapply fits_sub; [|exact HL]. cbn [length]. rewrite length_app. lia. }
  cbn [mbind option_bind]. destruct (IH m1 _ Hm1) as (m' & -> & Hm').
  { intros x. rewrite Hp. apply HU. }
  { by eapply fits_perm. }
  exists m'. split; [done|]. by eapply groups_perm.
Qed.

Lemma write_groups_ok gs s :
  NoDup gs.*1 → shape_ok s → (∀ k vs n accs, (k, (vs, n, accs)) ∈ gs → ∃ X, n = Z.of_nat (length X) ∧ accs = accs_of specs X) →
  ∃ rows s', write_groups rd s gs = Some (rows, s') ∧ shape_ok s' ∧
    (∀ k, k ∉ gs.*1 → st_get k (rs_store s') = st_get k (rs_store s)) ∧
    (∀ k vs n accs, (k, (vs, n, accs)) ∈ gs → st_get k (rs_store s') = Some (SvReduce n accs)) ∧
    Forall2 (λ g o, agg_row rd g.2.1.1 g.2.1.2 g.2.2 = Some o) gs rows.
Proof.
  revert s. induction gs as [|[k [[vs n] accs]] gs IH]; intros s Hnd Hs Hgs; cbn [write_groups].
  { exists [], s. split_and!; try done. by intros k vs n accs H%elem_of_nil. }
  destruct (Hgs k vs n accs ltac:(by left)) as (X & -> & ->). apply NoDup_cons in Hnd as [Hk Hnd]. cbn [fst] in Hk.
  destruct (write_at_ok s k (Z.of_nat (length X)) X Hs) as (s1 & -> & Hs1 & Hget). cbn [mbind option_bind].
  assert (∃ o, agg_row rd vs (Z.of_nat (length X)) (accs_of specs X) = Some o) as [o Ho] by (unfold agg_row; rewrite agg_cells_of; by eexists).
  rewrite Ho. cbn [mbind option_bind].
  destruct (IH s1 Hnd Hs1) as (rows & s' & -> & Hs' & Hout & Hin & Hrows); [intros; eapply Hgs; by right|]. cbn [mbind option_bind].
  exists (o :: rows), s'. split_and!; [done|done|..].
  - intros k' Hk'. cbn [fmap list_fmap fst] in Hk'. apply not_elem_of_cons in Hk' as [Hne Hk']. rewrite Hout by done. by rewrite Hget, decide_False.
  - intros k' vs' n' accs' [[= -> -> -> ->]|Hg]%elem_of_cons; [|by eapply Hin]. rewrite Hout by done. by rewrite Hget, decide_True.
  - by constructor.
Qed.

(** Rows that do not tie, in order. *)
Lemma sorted_of (l : list row) : NoDup l → (∀ x y, x ∈ l → y ∈ l → cmp x y = Eq → x = y) → ∃ l', ssorted cmp l' ∧ l ≡ₚ l'.
Proof.
  induction 1 as [|x l Hx Hnd IH]; intros Ht; [by exists []; split; [constructor|]|].
  destruct IH as (l' & Hs & Hp); [intros a b Ha Hb He; apply Ht; [by right|by right|done]|]. exists (sl_insert cmp x l'). split; [by apply sl_insert_sorted; [apply _|]|].
  assert (sl_find cmp x l' = None) as Hn.
  { apply sl_find_None. intros y Hy He. rewrite <-Hp in Hy. assert (y = x) as -> by (apply Ht; [by right|by left|done]). done. }
  rewrite (sl_insert_perm cmp x l' Hn). by constructor.
Qed.

Lemma sort_leaves rows T : ssorted cmp T → rows ≡ₚ T → sort_nodes (schema_sort (rd_schema rd)) (map leaf_node rows) = map leaf_node T.
Proof.
  intros HT Hp. set (ns := sort_nodes _ _).
  assert (map node_row (map leaf_node rows) = rows) as Hrows by (rewrite map_map; apply map_id).
  rewrite <-(sort_rows (schema_sort (rd_schema rd)) (map leaf_node rows) T HT) by (by rewrite Hrows). fold ns.
  rewrite map_map. rewrite <-(map_id ns) at 1. apply map_ext_in. intros n Hn%list_elem_of_In. unfold ns, sort_nodes in Hn.
  rewrite merge_sort_Permutation in Hn. by apply list_elem_of_fmap in Hn as (r & -> & _).
Qed.

(** What was folded before is what the input holds. *)
Definition folded (s : state) (L : list row) : Prop :=
  shape_ok s ∧ ∀ k v, st_get k (rs_store s) = Some v → stored L k (Some v).

Lemma state_folded s L : state_ok s L → folded s L.
Proof. intros [Hs Hst]. split; [done|]. intros k v Hv. specialize (Hst k). by rewrite Hv in Hst. Qed.

(** Exactly the rows of the groups, in order. *)
Definition select_groups (L T : list row) : Prop :=
  ssorted cmp T ∧ ∀ o, o ∈ T ↔ ∃ r, r ∈ L ∧ o = gv r ++ map (agg_cell (by_key L (gkey r))) specs.

Lemma fetch_groups_ok s L :
  folded s L → map node_row (input_fetch fetch_all) ≡ₚ L → (∀ x, x ∈ L → U x) → fits L →
  ∃ T s', fetch_groups input_fetch rd s = Some (map leaf_node T, s') ∧ state_ok s' L ∧ select_groups L T ∧ ∀ r, r ∈ L → known s' r.
Proof.
  intros [Hs Hf] HL HU Hfit. unfold fetch_groups.
  destruct (group_nodes_ok (input_fetch fetch_all) ∅ []) as (m & -> & Hm); [done|rewrite app_nil_r..|].
  { intros x. rewrite HL. apply HU. } { by eapply fits_perm. }
  rewrite app_nil_r in Hm. apply (groups_perm _ _ _ HL) in Hm. cbn [mbind option_bind].
  assert (∀ k vs n accs, (k, (vs, n, accs)) ∈ map_to_list m →
    (∃ r, r ∈ L ∧ gkey r = k ∧ gv r = vs) ∧ n = Z.of_nat (length (by_key L k)) ∧ accs = accs_of specs (by_key L k)) as Hin.
  { intros k vs n accs H%elem_of_map_to_list. specialize (Hm k). by rewrite H in Hm. }
  destruct (write_groups_ok (map_to_list m) s) as (rows & s' & -> & Hs' & Hout & Hget & Hrows); [apply NoDup_fst_map_to_list|done| |].
  { intros k vs n accs H. destruct (Hin _ _ _ _ H) as (_ & -> & ->). eauto. }
  cbn [mbind option_bind].
  assert (∀ k, k ∉ (map_to_list m).*1 → by_key L k = []) as Hno.
  { intros k Hk. specialize (Hm k). destruct (m !! k) as [g|] eqn:E; [|done]. destruct Hk. apply list_elem_of_fmap. exists (k, g). split; [done|]. by apply elem_of_map_to_list. }
  assert (∀ k, (∃ g, (k, g) ∈ map_to_list m) ∨ k ∉ (map_to_list m).*1) as Hdec.
  { intros k. destruct (m !! k) as [g|] eqn:E; [left; exists g; by apply elem_of_map_to_list|right].
    intros ([k' g] & Hk & H%elem_of_map_to_list)%list_elem_of_fmap. cbn [fst] in Hk. subst k'. by rewrite E in H. }
  assert (∀ r, r ∈ L → ∃ vs n accs, (gkey r, (vs, n, accs)) ∈ map_to_list m ∧ vs = gv r) as Hall.
  { intros r Hr. destruct (Hdec (gkey r)) as [[[[vs n] accs] Hg]|Hn].
    - exists vs, n, accs. split; [done|]. destruct (Hin _ _ _ _ Hg) as ((x & Hx & Hk & <-) & _). apply Hkeys; auto.
    - apply Hno in Hn. assert (r ∈ by_key L (gkey r)) as H by (by apply by_key_elem). by rewrite Hn in H; apply elem_of_nil in H. }
  assert (∀ o, o ∈ rows ↔ ∃ r, r ∈ L ∧ o = gv r ++ map (agg_cell (by_key L (gkey r))) specs) as Hmem.
  { intros o. split.
    - intros [i Hi]%list_elem_of_lookup. destruct (Forall2_lookup_r _ _ _ _ _ Hrows Hi) as ([k [[vs n] accs]] & Hg & Ho). cbn [fst snd] in Ho.
      apply list_elem_of_lookup_2 in Hg. destruct (Hin _ _ _ _ Hg) as ((r & Hr & <- & <-) & -> & ->). exists r. split; [done|].
      rewrite agg_row_group in Ho. by injection Ho.
    - intros (r & Hr & ->). destruct (Hall r Hr) as (vs & n & accs & Hg & ->). destruct (Hin _ _ _ _ Hg) as (_ & -> & ->).
      apply list_elem_of_lookup in Hg as [i Hg]. destruct (Forall2_lookup_l _ _ _ _ _ Hrows Hg) as (o & Ho & Hrow). cbn [fst snd] in Hrow.
      rewrite agg_row_group in Hrow. injection Hrow as <-. by eapply list_elem_of_lookup_2. }
  assert (∀ x y, x ∈ rows → y ∈ rows → cmp x y = Eq → x = y) as Htie.
  { intros x y (r & Hr & ->)%Hmem (r' & Hr' & ->)%Hmem He. rewrite Horder in He by auto.
    assert (gkey r = gkey r') as E by (unfold gkey; by rewrite He). by rewrite He, E. }
  assert (NoDup rows) as Hnd.
  { apply NoDup_alt. intros i j o Hi Hj.
    destruct (Forall2_lookup_r _ _ _ _ _ Hrows Hi) as ([k [[vs n] accs]] & Hg & Ho), (Forall2_lookup_r _ _ _ _ _ Hrows Hj) as ([k' [[vs' n'] accs']] & Hg' & Ho').
    cbn [fst snd] in Ho, Ho'. pose proof (list_elem_of_lookup_2 _ _ _ Hg) as Hm1. pose proof (list_elem_of_lookup_2 _ _ _ Hg') as Hm2.
    destruct (Hin _ _ _ _ Hm1) as ((r & Hr & <- & <-) & -> & ->), (Hin _ _ _ _ Hm2) as ((r' & Hr' & <- & <-) & -> & ->).
    rewrite agg_row_group in Ho, Ho'. injection Ho as <-. injection Ho' as E.
    assert (gv r' = gv r) as Ev. { eapply Horder; [auto..|]. rewrite E. by apply cmp_refl. }
    eapply (NoDup_lookup (map_to_list m).*1 i j (gkey r)); [apply NoDup_fst_map_to_list|..]; rewrite list_lookup_fmap, ?Hg, ?Hg'; [done|].
    cbn. unfold gkey. by rewrite Ev. }
  destruct (sorted_of rows Hnd Htie) as (T & HT & Hp). exists T, s'. split_and!.
  - by rewrite (sort_leaves rows T).
  - split; [done|]. intros k. destruct (Hdec k) as [[[[vs n] accs] Hg]|Hn].
    + rewrite (Hget _ _ _ _ Hg). destruct (Hin _ _ _ _ Hg) as ((r & Hr & <- & <-) & -> & ->). split; [done|]. intros _ E.
      assert (r ∈ by_key L (gkey r)) as H by (by apply by_key_elem). by rewrite E in H; apply elem_of_nil in H.
    + rewrite (Hout k Hn). destruct (st_get k (rs_store s)) as [v|] eqn:E; [by apply Hf|]. intros _. by apply Hno.
  - split; [done|]. intros o. by rewrite <-Hp.
  - intros r Hr. destruct (Hall r Hr) as (vs & n & accs & Hg & _). unfold known. by rewrite (Hget _ _ _ _ Hg).
Qed.
Lemma select_shows s L T : select_groups L T → (∀ r, r ∈ L → known s r) → shows T s L.
Proof.
  intros [Hs HT] Hk. split; [done|]. split.
  - intros o (r & Hr & ->)%HT. exists r. split_and!; [done|by apply Hk|]. eexists. split; [done|apply row_same_refl].
  - intros r Hr _. eexists. split; [apply HT; by exists r|]. eexists. split; [done|apply row_same_refl].
Qed.

(** Folding a range of the input. *)
Lemma fold_nodes_ok ns X :
  (∀ x, x ∈ map node_row ns → exact specs x) → fits (map node_row ns ++ X) →
  fold_nodes rd ns (Z.of_nat (length X)) (accs_of specs X) =
    Some (Z.of_nat (length (map node_row ns ++ X)), accs_of specs (map node_row ns ++ X)).
Proof.
  revert X. induction ns as [|n ns IH]; intros X He HL; [done|]. cbn [map app fold_nodes] in *. set (r := node_row n) in *.
  assert (map node_row ns ++ r :: X ≡ₚ r :: map node_row ns ++ X) as Hp by (symmetry; apply Permutation_middle).
  assert (fits (r :: X)) as Hf by (eapply fits_sub; [|exact HL]; cbn [length]; rewrite length_app; lia).
  unfold acc_apply. rewrite apply_add by (done || apply He; by left). cbn [mbind option_bind].
  rewrite wrap_small by (unfold fits in Hf; cbn [length] in Hf; lia). replace (Z.of_nat (length X) + 1) with (Z.of_nat (length (r :: X))) by (cbn [length]; lia).
  rewrite IH; [|intros x Hx; apply He; by right|by eapply fits_perm]. by rewrite (accs_perm specs _ _ Hp), Hp.
Qed.

Lemma fold_input_ok req G :
  map node_row (input_fetch req) ≡ₚ G → (∀ x, x ∈ G → exact specs x) → fits G →
  fold_input input_fetch rd req = Some (Z.of_nat (length G), accs_of specs G).
Proof.
  intros Hp He HL. unfold fold_input. rewrite new_accs_of. change 0 with (Z.of_nat (length (@nil row))).
  rewrite fold_nodes_ok, app_nil_r; [by rewrite (accs_perm specs _ _ Hp), Hp|..].
  - intros x. rewrite Hp. apply He.
  - rewrite app_nil_r. by eapply fits_perm.
Qed.

(** The state of one group, folded if need be. *)
Lemma read_or_fold_ok s L k req :
  state_ok s L → reaps = false → map node_row (input_fetch req) ≡ₚ by_key L k → (∀ x, x ∈ L → U x) → fits L →
  ∃ s', read_or_fold input_fetch rd s k req = Some (Z.of_nat (length (by_key L k)), accs_of specs (by_key L k), s') ∧
    state_ok s' L ∧ st_get k (rs_store s') ≠ None ∧ ∀ k', k' ≠ k → st_get k' (rs_store s') = st_get k' (rs_store s).
Proof.
  intros [Hs Hst] Hr Hp HU HL. unfold read_or_fold. rewrite read_at_get by done. pose proof (Hst k) as Hk.
  destruct (st_get k (rs_store s)) as [v|] eqn:E; cbn [mbind option_bind].
  - destruct Hk as [-> _]. exists s. split_and!; [done|done| |done]. by rewrite E.
  - rewrite (fold_input_ok req (by_key L k)); [|done|intros x Hx; apply by_key_elem in Hx as [Hx _]; auto|].
    2: { eapply fits_sub; [|exact HL]. apply by_key_length. }
    cbn [mbind option_bind]. destruct (write_at_ok s k (Z.of_nat (length (by_key L k))) (by_key L k) Hs) as (s' & -> & Hs' & Hget).
    cbn [mbind option_bind]. exists s'. split_and!; [done| |by rewrite Hget, decide_True|intros k' Hk'; by rewrite Hget, decide_False].
    split; [done|]. intros k'. rewrite Hget. case_decide as E'; [|apply Hst]. subst k'. split; [done|]. by rewrite Hr.
Qed.

(** One group of the lazy regime, asked for by its columns. *)
Lemma fetch_one_group_ok s L vals r c :
  reaps = false → input_constraint rd vals = Some c →
  map node_row (input_fetch (fetch_with_constraint c)) ≡ₚ by_key L (group_key vals) →
  gv r = vals → state_ok s L → (∀ x, x ∈ L → U x) → fits L →
  ∃ s', fetch_one_group input_fetch rd s vals =
      Some (if bool_decide (by_key L (gkey r) = []) then [] else [leaf_node (gv r ++ map (agg_cell (by_key L (gkey r))) specs)], s') ∧
    state_ok s' L ∧ known s' r ∧ ∀ k, k ≠ gkey r → st_get k (rs_store s') = st_get k (rs_store s).
Proof.
  intros Hreaps Hc Hp Hgv Hok HU HL. subst vals. fold (gkey r) in Hp. unfold fetch_one_group. rewrite Hc. cbn [mbind option_bind]. fold (gkey r).
  destruct (read_or_fold_ok s L (gkey r) _ Hok Hreaps Hp HU HL) as (s' & -> & Hok' & Hk & Hframe). cbn [mbind option_bind].
  exists s'. split; [|done]. case_bool_decide as G; [by rewrite (no_rows _ G)|]. by rewrite (some_rows _ G), agg_row_group.
Qed.

(** ** The counter of sums out of range *)

(** The groups of an eager reducer whose sum is out of range. *)
Definition overflowing (L : list row) : nat := length (List.filter (λ k, out_of_range specs (by_key L k)) (remove_dups (map gkey L))).

Lemma reaps_known s L r : state_ok s L → reaps = true → r ∈ L → known s r.
Proof.
  intros [_ Hst] Hr HrL Hn. specialize (Hst (gkey r)). rewrite Hn in Hst. specialize (Hst Hr).
  assert (r ∈ by_key L (gkey r)) as H by (by apply by_key_elem). by rewrite Hst in H; apply elem_of_nil in H.
Qed.

Lemma overflow_exact s L : state_ok s L → reaps = true → fits L → overflow_count s = Z.of_nat (overflowing L).
Proof.
  intros [(Hs & Ho & Hsh) Hst] Hr HL. unfold overflow_count, overflowing.
  assert (∀ k, over s k = out_of_range specs (by_key L k)) as Hover.
  { intros k. unfold over. specialize (Hst k). destruct (st_get k (rs_store s)) as [v|] eqn:E.
    - destruct Hst as [-> _]. by rewrite out_of_range_of.
    - by rewrite (Hst Hr), out_of_range_nil. }
  set (K := remove_dups (map gkey L)).
  assert (length (List.filter (over s) K) ≤ length L)%nat as Hlen.
  { transitivity (length K); [apply filter_length_le|]. rewrite <-(length_map gkey L). unfold K. generalize (map gkey L). intros l.
    induction l as [|k l IH]; [done|]. cbn [remove_dups]. case_decide; cbn [length]; lia. }
  rewrite (Ho K).
  - rewrite wrap_small by (unfold fits in HL; lia). do 2 f_equal. apply filter_ext_in. intros k _. apply Hover.
  - apply NoDup_remove_dups.
  - intros k Hk. apply elem_of_remove_dups. specialize (Hst k). destruct (st_get k (rs_store s)) as [v|]; [|done]. destruct Hst as [_ Hne].
    specialize (Hne Hr). destruct (by_key L k) as [|r l] eqn:El; [done|].
    assert (r ∈ by_key L k) as [HrL <-]%by_key_elem by (rewrite El; by left). apply list_elem_of_In, in_map, list_elem_of_In, HrL.
Qed.
(** ** A global aggregate *)

Section global.
Context (Hpk : rd_partition_key rd = None) (Hsort : schema_sort (rd_schema rd) = []).

(** A consumer holds the one row, once it is folded. *)
Definition shows_total (T : list row) (s : state) (L : list row) : Prop :=
  st_get GLOBAL_KEY (rs_store s) ≠ None → ∃ o, T = [o] ∧ row_same o (map (agg_cell L) specs).

Lemma one_group r : gkey r = GLOBAL_KEY.
Proof. unfold gkey, gv, group_vals. by rewrite Hpk. Qed.

Lemma all_rows L : by_key L GLOBAL_KEY = L.
Proof. induction L as [|r L IH]; [done|]. by rewrite by_key_cons, one_group, decide_True, IH. Qed.

Lemma no_reap : reaps = false.
Proof. unfold reaps. rewrite Hpk. apply andb_false_r. Qed.

Lemma never_tells (x y : row) : cmp x y = Eq.
Proof. by rewrite Hsort. Qed.

Lemma fetch_total s L req :
  state_ok s L → map node_row (input_fetch fetch_all) ≡ₚ L → (∀ x, x ∈ L → U x) → fits L →
  ∃ s', reduce_fetch input_fetch rd s req = Some ([leaf_node (map (agg_cell L) specs)], s') ∧ state_ok s' L ∧
    shows_total [map (agg_cell L) specs] s' L ∧ st_get GLOBAL_KEY (rs_store s') ≠ None.
Proof.
  intros Hok Hp HU HL. unfold reduce_fetch. rewrite Hpk.
  destruct (read_or_fold_ok s L GLOBAL_KEY fetch_all Hok no_reap) as (s' & -> & Hok' & Hk & _); [by rewrite all_rows|done|done|].
  cbn [mbind option_bind]. rewrite all_rows. unfold agg_row. rewrite agg_cells_of. cbn [mbind option_bind app].
  exists s'. split_and!; [done|done| |done]. intros _. eexists. split; [done|apply row_same_refl].
Qed.

Lemma total_step ch L L' accs n :
  moves ch L L' → (∀ x, x ∈ L → U x) → (∀ x, x ∈ L' → U x) → fits L → fits L' → for_child_change ch ≠ None →
  n = Z.of_nat (length L) → accs = accs_of specs L →
  match ch with
  | Add n' => accs ← acc_apply rd accs (node_row n') 1; Some (i64_wrap (n + 1), accs)
  | Remove n' => accs ← acc_apply rd accs (node_row n') (-1); Some (i64_wrap (n - 1), accs)
  | Edit n' old => accs ← acc_apply rd accs (node_row old) (-1); accs ← acc_apply rd accs (node_row n') 1; Some (n, accs)
  | Child _ _ _ => None
  end = Some (Z.of_nat (length L'), accs_of specs L').
Proof.
  intros Hm HU HU' HL HL' Hc -> ->. unfold acc_apply. destruct ch as [n|n|n old|n rel sub]; cbn [moves for_child_change] in *; [..|done].
  - rewrite apply_add; [|apply Hexact, HU'; rewrite Hm; by left|by eapply fits_perm]. cbn [mbind option_bind]. unfold fits in HL.
    rewrite wrap_small by lia. rewrite (accs_perm specs _ _ Hm), Hm. cbn [length]. do 2 f_equal. lia.
  - rewrite (accs_perm specs _ _ Hm), apply_remove; [|apply Hexact, HU; rewrite Hm; by left|by eapply fits_perm]. cbn [mbind option_bind]. unfold fits in HL.
    rewrite wrap_small by lia. rewrite Hm. cbn [length]. do 2 f_equal. lia.
  - destruct Hm as (M & HM & HM' & _). rewrite (accs_perm specs _ _ HM), apply_remove; [|apply Hexact, HU; rewrite HM; by left|by eapply fits_perm].
    cbn [mbind option_bind]. rewrite apply_add; [|apply Hexact, HU'; rewrite HM'; by left|by eapply fits_perm]. cbn [mbind option_bind].
    by rewrite (accs_perm specs _ _ HM'), HM, HM'.
Qed.

Lemma stored_other L L' k v : k ≠ GLOBAL_KEY → stored L k v → stored L' k v.
Proof.
  intros Hk. apply stored_perm. assert (∀ X, by_key X k = []) as Hno; [|by rewrite !Hno].
  intros X. induction X as [|r X IH]; [done|]. rewrite by_key_cons, one_group. by rewrite decide_False.
Qed.

Lemma global_kept s L L' : state_ok s L → (st_get GLOBAL_KEY (rs_store s) = None ∨ L ≡ₚ L') → state_ok s L'.
Proof.
  intros [Hs Hst] H. split; [done|]. intros k. destruct (decide (k = GLOBAL_KEY)) as [->|Hk]; [|by eapply stored_other].
  destruct H as [Hn|Hp]; [|eapply stored_perm; [by apply by_key_perm|apply Hst]]. rewrite Hn. by intros Hr; rewrite no_reap in Hr.
Qed.

Lemma push_total s T L L' ch out :
  rd_output rd = Some out → moves ch L L' → state_ok s L → shows_total T s L →
  (∀ x, x ∈ L → U x) → (∀ x, x ∈ L' → U x) → fits L → fits L' →
  ∃ s' l, reduce_push rd s ch = Some (s', l) ∧ state_ok s' L' ∧ shows_total (consume T l) s' L' ∧ told out T s' l ∧
    (st_get GLOBAL_KEY (rs_store s) ≠ None → st_get GLOBAL_KEY (rs_store s') ≠ None).
Proof.
  intros Hout Hm Hok Hsh HU HU' HL HL'. unfold reduce_push. rewrite Hout, Hpk. cbn [mbind option_bind]. unfold push_global.
  pose proof Hok as [Hs Hst]. pose proof (Hst GLOBAL_KEY) as Hk. rewrite read_at_get by done.
  unfold shows_total in Hsh. destruct (st_get GLOBAL_KEY (rs_store s)) as [v|] eqn:E; cbn [mbind option_bind stored] in *.
  2: { exists s, []. split_and!; [done|by eapply global_kept; eauto| |by left|by rewrite E]. by unfold shows_total; rewrite E. }
  destruct Hk as [-> _]. rewrite all_rows in *. destruct Hsh as (o & -> & Ho); [done|].
  assert (∀ X, agg_row rd [] (Z.of_nat (length X)) (accs_of specs X) = Some (map (agg_cell X) specs)) as Hrow.
  { intros X. unfold agg_row. by rewrite agg_cells_of. }
  destruct (decide (for_child_change ch = None)) as [Hc|Hc].
  { destruct ch as [| | |n rel sub]; try done. cbn [moves] in Hm. exists s, []. split_and!; [done|eapply global_kept; [done|by right]| |by left|by rewrite E].
    unfold shows_total. rewrite E. intros _. exists o. split; [done|].
    assert (map (agg_cell L') specs = map (agg_cell L) specs) as ->; [|done]. apply map_ext. intros sp. by apply agg_cell_perm. }
  pose proof (total_step ch L L' _ _ Hm HU HU' HL HL' Hc eq_refl eq_refl) as Hstep.
  destruct (write_at_ok s GLOBAL_KEY (Z.of_nat (length L')) L' Hs) as (s' & Hw & Hs' & Hget).
  assert (state_ok s' L') as Hok'.
  { split; [done|]. intros k. rewrite Hget. case_decide as Hk; [subst k; cbn [stored]; rewrite all_rows, no_reap; done|by eapply stored_other]. }
  exists s', (push_moved out s' (map (agg_cell L) specs) (map (agg_cell L') specs)). split.
  { destruct ch as [n|n|n old|n rel sub]; [| | |done]; rewrite Hrow; cbn [mbind option_bind]; rewrite Hstep; cbn [mbind option_bind]; by rewrite Hrow, ?Hw; cbn [mbind option_bind]; rewrite ?Hw. }
  split; [done|]. rewrite Hget, decide_True by done. unfold push_moved. destruct (agg_rows_equal _ _) eqn:Eq.
  - split; [|split; [by left|done]]. intros _. exists o. split; [done|]. eapply row_same_trans; [done|]. by apply rows_equal_same.
  - split; [|split; [right; eexists; split; [done|]; split; [|by apply never_tells]|done]].
    + intros _. cbn [consume foldl fst snd for_child_change apply_source_change node_row leaf_node sl_delete]. rewrite never_tells.
      cbn [sl_insert]. eexists. split; [done|apply row_same_refl].
    + cbn [node_row leaf_node sl_find]. by rewrite never_tells.
Qed.
End global.
End groups.

Section fresh.
Context {St : Type} `{!Storage St} (store_ok : St → Prop) `{!StorageLaws St store_ok} (rd : ReduceOp).

(** Nothing folded yet. *)
Lemma fresh_folded (store : St) L : store_ok store → (∀ k, st_get k store = None) → folded store_ok rd (MkReduceSt store 0) L.
Proof.
  intros Hs Hn. split; [|by intros k v; cbn [rs_store]; rewrite Hn]. split; [done|]. split; [|by intros k v; cbn [rs_store]; rewrite Hn].
  intros K _ _. assert (List.filter (over rd (MkReduceSt store 0)) K = []) as ->; [|done].
  induction K as [|k K IH]; [done|]. cbn [List.filter]. unfold over at 1. cbn [rs_store]. by rewrite Hn.
Qed.

Lemma fresh_state (store : St) L : store_ok store → (∀ k, st_get k store = None) → reaps rd = false → state_ok store_ok rd (MkReduceSt store 0) L.
Proof.
  intros Hs Hn Hr. split; [by apply (fresh_folded store L)|]. intros k. cbn [rs_store]. rewrite Hn. by intros Hr'; rewrite Hr' in Hr.
Qed.
End fresh.

(** ** What an aggregate promises *)

(** Input rows that an aggregate follows: their group columns are there, tell the
    groups apart as the order of the output does, and their summed cells are no
    floats. *)
Record reducible (rd : ReduceOp) (U : row → Prop) : Prop := {
  rr_group : ∀ r, U r → is_Some (group_vals rd r);
  rr_key : ∀ r r', U r → U r' → gkey rd r = gkey rd r' → gv rd r = gv rd r';
  rr_order : ∀ r r' x y, U r → U r' →
    row_cmp (schema_sort (rd_schema rd)) (gv rd r ++ x) (gv rd r' ++ y) = Eq ↔ gv rd r = gv rd r';
  rr_exact : ∀ r, U r → exact (rd_aggs rd) r
}.

Section promises.
Context {St : Type} `{!Storage St} (store_ok : St → Prop) `{!StorageLaws St store_ok}.
Context (input_fetch : FetchRequest → list node) (rd : ReduceOp) (U : row → Prop) (HU : reducible rd U).

Lemma eager_reaps pk : rd_partition_key rd = Some pk → rd_eager rd = true → reaps rd = true.
Proof. intros Hpk He. unfold reaps. by rewrite Hpk, He. Qed.

(** [C31] The fetch of a [GROUP BY] answers exactly one row per group of the input, its
    group columns and then its aggregates ([count], [sum], [avg], a sum out of range
    as null), in the order of the output; afterwards the state holds the group's
    rows and totals of every group, and the overflow counter the number of groups whose
    sum is out of range. *)
Theorem reduce_fetch_exact (pk : list nat) (req : FetchRequest) (s : ReduceSt St) (L : list row) :
  rd_partition_key rd = Some pk → rd_eager rd = true → folded store_ok rd s L →
  map node_row (input_fetch fetch_all) ≡ₚ L → (∀ x, x ∈ L → U x) → fits L →
  ∃ T s', reduce_fetch input_fetch rd s req = Some (map leaf_node T, s') ∧ select_groups rd L T ∧
    state_ok store_ok rd s' L ∧ shows rd T s' L ∧ overflow_count s' = Z.of_nat (overflowing rd L).
Proof.
  intros Hpk He Hf Hin HL Hfit. destruct HU as [Hv Hk Ho Hx].
  destruct (fetch_groups_ok store_ok input_fetch rd U Hv Hk Ho Hx s L Hf Hin HL Hfit) as (T & s' & Hfetch & Hok & Hsel & Hkn).
  exists T, s'. split_and!; [|done|done|by apply select_shows|by eapply overflow_exact; [..|by eapply eager_reaps|]].
  unfold reduce_fetch. by rewrite Hpk, He.
Qed.

(** [C32] Every change of the input of a [GROUP BY], applied to the state and to the rows
    a consumer shows, leaves the state and the rows of the changed input: a push
    cannot fail, sends at most one change, one the consumer's rows allow, after the
    state is written, and the consumer that applies it holds the row of every
    folded group, the aggregates those of its rows (but for the sign of a zero); the
    overflow counter of an eager reducer stays the number of groups out of range. *)
Theorem reduce_push_maintains (out : OutEdge) (ch : change) (s : ReduceSt St) (T L L' : list row) :
  is_Some (rd_partition_key rd) → rd_output rd = Some out → moves rd ch L L' →
  state_ok store_ok rd s L → shows rd T s L → (∀ x, x ∈ L → U x) → (∀ x, x ∈ L' → U x) → fits L → fits L' →
  ∃ s' l, reduce_push rd s ch = Some (s', l) ∧ state_ok store_ok rd s' L' ∧ shows rd (consume rd T l) s' L' ∧ told rd out T s' l ∧
    (rd_eager rd = true → overflow_count s' = Z.of_nat (overflowing rd L')).
Proof.
  intros [pk Hpk] Hout Hm Hok Hsh HL HL' Hf Hf'. destruct HU as [Hv Hk Ho Hx].
  destruct (push_grouped store_ok rd U Hv Hk Ho Hx s T L L' ch out) as (s' & l & Hp & Hok' & Hsh' & Ht); try done.
  exists s', l. split_and!; try done. intros He. by eapply overflow_exact; [..|by eapply eager_reaps|].
Qed.

(** A lazy [GROUP BY] asked for one group answers the row of that group alone, none
    when the group is empty, folding it the first time; the state stays that of the
    input, with the group known from then on and no other group touched. *)
Theorem reduce_lazy_fetch_exact (pk : list nat) (c : Constraint) (start : option Start) (s : ReduceSt St) (L : list row) (r : row) :
  rd_partition_key rd = Some pk → rd_eager rd = false →
  constraint_matches_partition_key c (seq 0 (length pk)) = true →
  gv rd r = group_vals_from_constraint c (length pk) →
  map node_row (input_fetch (fetch_with_constraint (zip pk (gv rd r)))) ≡ₚ by_key rd L (gkey rd r) →
  state_ok store_ok rd s L → (∀ x, x ∈ L → U x) → fits L →
  ∃ s', reduce_fetch input_fetch rd s (MkFetch (Some c) [] start false) =
      Some (if bool_decide (by_key rd L (gkey rd r) = []) then []
            else [leaf_node (gv rd r ++ map (agg_cell (by_key rd L (gkey rd r))) (rd_aggs rd))], s') ∧
    state_ok store_ok rd s' L ∧ known rd s' r ∧
    ∀ k, k ≠ gkey rd r → st_get k (rs_store s') = st_get k (rs_store s).
Proof.
  intros Hpk He Hc Hgv Hin Hok HL Hf. destruct HU as [Hv Hk Ho Hx].
  unfold reduce_fetch. rewrite Hpk, He. cbn [req_constraint]. rewrite Hc, <-Hgv.
  eapply fetch_one_group_ok; try done; [unfold reaps; by rewrite He|unfold input_constraint; by rewrite Hpk].
Qed.

(** A global aggregate is one row that is always there: a fetch answers the
    aggregates of the whole input, of no row too, and every change of the input then
    takes the consumer's one row to the aggregates of the changed input. *)
Theorem reduce_total_maintains (out : OutEdge) (req : FetchRequest) (ch : change) (s : ReduceSt St) (L L' : list row) :
  rd_partition_key rd = None → schema_sort (rd_schema rd) = [] → rd_output rd = Some out →
  state_ok store_ok rd s L → map node_row (input_fetch fetch_all) ≡ₚ L → moves rd ch L L' →
  (∀ x, x ∈ L → U x) → (∀ x, x ∈ L' → U x) → fits L → fits L' →
  ∃ s1 s2 l o, reduce_fetch input_fetch rd s req = Some ([leaf_node (map (agg_cell L) (rd_aggs rd))], s1) ∧
    reduce_push rd s1 ch = Some (s2, l) ∧ state_ok store_ok rd s2 L' ∧
    consume rd [map (agg_cell L) (rd_aggs rd)] l = [o] ∧ row_same o (map (agg_cell L') (rd_aggs rd)) ∧
    told rd out [map (agg_cell L) (rd_aggs rd)] s2 l.
Proof.
  intros Hpk Hsort Hout Hok Hin Hm HL HL' Hf Hf'. destruct HU as [Hv Hk Ho Hx].
  destruct (fetch_total store_ok input_fetch rd U Hx Hpk s L req Hok Hin HL Hf) as (s1 & Hfetch & Hok1 & Hsh & Hkn).
  destruct (push_total store_ok rd U Hx Hpk Hsort s1 [map (agg_cell L) (rd_aggs rd)] L L' ch out) as (s2 & l & Hp & Hok2 & Hsh2 & Ht & Hkn2); try done.
  destruct (Hsh2 (Hkn2 Hkn)) as (o & Ho' & Hrow). by exists s1, s2, l, o.
Qed.
End promises.

(** ** Concrete runs *)

Definition ex_redge : OutEdge := MkEdge 3 Single.

(** [sum(amount) GROUP BY group] of rows of an id, a group and an amount. *)
Definition ex_reduce (eager : bool) : ReduceOp :=
  MkReduce 0 5 [Sum 2] (Some [1%nat]) eager (schema_new [[x67]; [x73]]%byte [0%nat] [(0%nat, true)]) (Some ex_redge).

Definition ex_total : ReduceOp := MkReduce 0 5 [Count; Sum 2] None true (schema_new [[x63]; [x73]]%byte [] []) (Some ex_redge).

Definition ex_rrow (i g n : Z) : row := [Int (i64_of_Z i); Int (i64_of_Z g); Int (i64_of_Z n)].
Definition ex_amounts (r : row) : Prop := ∃ i g n, r = [Int i; Int g; Int n].

Lemma ex_row_amounts i g n : ex_amounts (ex_rrow i g n).
Proof. unfold ex_rrow. by eexists _, _, _. Qed.

(** Group 8 sums to more than an integer holds. *)
Definition ex_rows : list row := [ex_rrow 1 7 10; ex_rrow 2 8 (2 ^ 63 - 1); ex_rrow 3 7 20; ex_rrow 4 8 1].
Definition ex_rows' : list row := [ex_rrow 1 7 10; ex_rrow 2 8 (2 ^ 63 - 1); ex_rrow 3 7 20].
Definition ex_rinput (L : list row) (req : FetchRequest) : list node :=
  map leaf_node (keep (λ r, match req_constraint req with Some c => cmatch r c | None => true end) L).
Definition ex_fresh : ReduceSt MemoryStorage := MkReduceSt memory_storage_new 0.

#[local] Abbreviation mem_ok := (λ s : MemoryStorage, om_sorted bytes_cmp (ms_data s)).

Lemma ex_all L : map node_row (ex_rinput L fetch_all) ≡ₚ L.
Proof. unfold ex_rinput. cbn [req_constraint fetch_all]. rewrite map_map, map_id, keep_all; [done|]. by apply Forall_true. Qed.

Lemma ex_reducible eager : reducible (ex_reduce eager) ex_amounts.
Proof.
  assert (∀ i g n, gv (ex_reduce eager) [Int i; Int g; Int n] = [Int g]) as Hgv by done.
  split.
  - intros r (i & g & n & ->). by eexists.
  - intros r r' (i & g & n & ->) (i' & g' & n' & ->). unfold gkey. rewrite !Hgv. intros [H _]%app_inv_head%encode_values_inj%Forall2_cons.
    cbn [values_identical] in H. apply Z.eqb_eq in H. by rewrite (i64_eq _ _ H).
  - intros r r' x y (i & g & n & ->) (i' & g' & n' & ->). rewrite !Hgv.
    assert (row_cmp (schema_sort (rd_schema (ex_reduce eager))) ([Int g] ++ x) ([Int g'] ++ y) = then_cmp (Z.compare g g') Eq) as -> by done.
    destruct (Z.compare_spec g g') as [E|E|E]; cbn [then_cmp].
    + by rewrite (i64_eq _ _ E).
    + split; [done|]. intros [= ->]. lia.
    + split; [done|]. intros [= ->]. lia.
  - intros r (i & g & n & ->). by repeat constructor.
Qed.

Lemma ex_total_reducible : reducible ex_total ex_amounts.
Proof.
  split.
  - by eexists.
  - done.
  - by intros.
  - intros r (i & g & n & ->). by repeat constructor.
Qed.

Lemma ex_all_amounts L : Forall (λ r, ∃ i g n, r = ex_rrow i g n) L → ∀ x, x ∈ L → ex_amounts x.
Proof. rewrite Forall_forall. intros H x Hx. destruct (H x Hx) as (i & g & n & ->). apply ex_row_amounts. Qed.

Lemma ex_rows_amounts x : x ∈ ex_rows → ex_amounts x.
Proof. apply ex_all_amounts. repeat constructor; by eexists _, _, _. Qed.

Lemma ex_rows_amounts' x : x ∈ ex_rows' → ex_amounts x.
Proof. apply ex_all_amounts. repeat constructor; by eexists _, _, _. Qed.

Lemma ex_fresh_folded eager L : folded mem_ok (ex_reduce eager) ex_fresh L.
Proof. apply (fresh_folded mem_ok); [constructor|done]. Qed.

Lemma ex_hydrated : ∃ T s, reduce_fetch (ex_rinput ex_rows) (ex_reduce true) ex_fresh fetch_all = Some (map leaf_node T, s) ∧
  state_ok mem_ok (ex_reduce true) s ex_rows ∧ shows (ex_reduce true) T s ex_rows.
Proof.
  destruct (ex_reducible true) as [Hv Hk Ho Hx].
  destruct (fetch_groups_ok mem_ok (ex_rinput ex_rows) (ex_reduce true) ex_amounts Hv Hk Ho Hx ex_fresh ex_rows) as (T & s & Hf & Hok & Hsel & Hkn);
    [apply ex_fresh_folded|apply ex_all|apply ex_rows_amounts|done|]. exists T, s. split_and!; [done|done|by apply select_shows].
Qed.

Lemma reduce_fetch_exact_witness :
  ∃ T s', reduce_fetch (ex_rinput ex_rows) (ex_reduce true) ex_fresh fetch_all = Some (map leaf_node T, s') ∧
    T = [[Int (i64_of_Z 7); Int (i64_of_Z 30)]; [Int (i64_of_Z 8); Null]] ∧
    select_groups (ex_reduce true) ex_rows T ∧ state_ok mem_ok (ex_reduce true) s' ex_rows ∧ shows (ex_reduce true) T s' ex_rows ∧
    overflow_count s' = 1.
Proof.
  destruct (reduce_fetch_exact mem_ok (ex_rinput ex_rows) (ex_reduce true) ex_amounts (ex_reducible true) [1%nat] fetch_all ex_fresh ex_rows)
    as (T & s' & Hf & Hsel & Hok & Hsh & Ho); [done|done|apply ex_fresh_folded|apply ex_all|apply ex_rows_amounts|by vm_compute|].
  exists T, s'. split; [exact Hf|]. split; [|split; [exact Hsel|split; [exact Hok|split; [exact Hsh|rewrite Ho; by vm_compute]]]].
  revert Hf. vm_compute. intros H. injection H as Hn _. destruct T as [|a [|b [|c T]]]; try discriminate Hn. by injection Hn as -> ->.
Defined.

Lemma reduce_push_maintains_witness :
  ∃ T s s' l, reduce_push (ex_reduce true) s (Remove (leaf_node (ex_rrow 4 8 1))) = Some (s', l) ∧
    state_ok mem_ok (ex_reduce true) s ex_rows ∧ shows (ex_reduce true) T s ex_rows ∧
    state_ok mem_ok (ex_reduce true) s' ex_rows' ∧ shows (ex_reduce true) (consume (ex_reduce true) T l) s' ex_rows' ∧
    overflow_count s' = 0.
Proof.
  destruct ex_hydrated as (T & s & _ & Hok & Hsh).
  destruct (reduce_push_maintains mem_ok (ex_reduce true) ex_amounts (ex_reducible true) ex_redge (Remove (leaf_node (ex_rrow 4 8 1))) s T ex_rows ex_rows')
    as (s' & l & Hp & Hok' & Hsh' & _ & Ho);
    [by eexists|done| |exact Hok|exact Hsh|apply ex_rows_amounts|apply ex_rows_amounts'|by vm_compute|by vm_compute|].
  - cbn [moves node_row leaf_node]. unfold ex_rows, ex_rows'. symmetry. apply (Permutation_cons_append [_; _; _]).
  - exists T, s, s', l. do 5 (split; [assumption|]). rewrite (Ho eq_refl). by vm_compute.
Defined.

Lemma reduce_lazy_fetch_exact_witness :
  ∃ s', reduce_fetch (ex_rinput ex_rows) (ex_reduce false) ex_fresh (MkFetch (Some [(0%nat, Int (i64_of_Z 7))]) [] None false) =
      Some ([leaf_node [Int (i64_of_Z 7); Int (i64_of_Z 30)]], s') ∧
    state_ok mem_ok (ex_reduce false) s' ex_rows.
Proof.
  destruct (reduce_lazy_fetch_exact mem_ok (ex_rinput ex_rows) (ex_reduce false) ex_amounts (ex_reducible false) [1%nat]
    [(0%nat, Int (i64_of_Z 7))] None ex_fresh ex_rows (ex_rrow 1 7 10)) as (s' & Hf & Hok & _).
  - done.
  - done.
  - done.
  - done.
  - vm_compute. done.
  - apply (fresh_state mem_ok); [constructor|done|done].
  - apply ex_rows_amounts.
  - done.
  - exists s'. split; [|exact Hok]. rewrite Hf. do 2 f_equal.
Defined.

Lemma reduce_total_maintains_witness :
  ∃ s1 s2 l o, reduce_fetch (ex_rinput ex_rows') ex_total ex_fresh fetch_all =
      Some ([leaf_node [Int (i64_of_Z 3); Null]], s1) ∧
    reduce_push ex_total s1 (Remove (leaf_node (ex_rrow 2 8 (2 ^ 63 - 1)))) = Some (s2, l) ∧
    consume ex_total [[Int (i64_of_Z 3); Null]] l = [o] ∧ row_same o [Int (i64_of_Z 2); Int (i64_of_Z 30)].
Proof.
  destruct (reduce_total_maintains mem_ok (ex_rinput ex_rows') ex_total ex_amounts ex_total_reducible ex_redge fetch_all
    (Remove (leaf_node (ex_rrow 2 8 (2 ^ 63 - 1)))) ex_fresh ex_rows' [ex_rrow 1 7 10; ex_rrow 3 7 20]) as (s1 & s2 & l & o & Hf & Hp & _ & Hc & Hrow & _).
  - done.
  - done.
  - done.
  - apply (fresh_state mem_ok); [constructor|done|done].
  - apply ex_all.
  - cbn [moves node_row leaf_node]. apply Permutation_swap.
  - apply ex_rows_amounts'.
  - intros x Hx. apply ex_rows_amounts'. rewrite !elem_of_cons, elem_of_nil in Hx. unfold ex_rows'. rewrite !elem_of_cons. tauto.
  - done.
  - done.
  - by exists s1, s2, l, o.
Defined.

(** ** Floats *)

Definition ex_float_rows : list row := [[Int (i64_of_Z 1); Float (f64_of_int (10 ^ 17))]; [Int (i64_of_Z 2); Float (f64_of_int 1)]].
Definition ex_float_sum : ReduceOp := MkReduce 0 5 [Sum 1] None true (schema_new [[x73]%byte] [] []) (Some ex_redge).

