(* ===== verification/Ast.v ===== *)
(** * The query as it arrives ([rust/src/ast.rs])

    The tree of a query: a table, a condition with subqueries, relationships, an
    order, a start and a limit.  Names are their UTF-8 bytes.  Conditions and queries
    are mutually nested, so the file ends with their joint induction principle and a
    view of a condition as a formula over its leaves and subqueries. *)

From stdpp Require Import base list numbers option.
From Stdlib Require Import ZArith Strings.Byte.
From S2P Require Import Prelude Values Schema.

Inductive Dir := Asc | Desc.

Inductive Op :=
  | OpEq | OpNe | OpLt | OpLe | OpGt | OpGe | OpIs | OpIsNot
  | OpLike | OpNotLike | OpILike | OpNotILike | OpIn | OpNotIn.

Inductive Lit :=
  | LitNull
  | LitBool (b : bool)
  | LitInt (i : i64)
  | LitNumber (n : f64)
  | LitStr (s : list byte)
  | LitArray (items : list Lit).

Inductive ValuePosition := PosLiteral (v : Lit) | PosColumn (n : name).

Record SimpleCondition := MkSimple { sc_op : Op; sc_left : ValuePosition; sc_right : ValuePosition }.

Inductive ExistsOp := Exists_ | NotExists.
Inductive System := Permissions | Client | TestSystem.

Record Correlation := MkCorrelation { parent_field : list name; child_field : list name }.

Record OrderPart := MkOrder { op_field : name; op_dir : Dir }.

(** The row is a [BTreeMap]: in the order of its names. *)
Record Bound := MkBound { bound_row : list (name * Lit); exclusive : bool }.

Inductive Aggregate := AggCount | AggSum (n : name) | AggAvg (n : name).

Inductive Condition :=
  | Simple (c : SimpleCondition)
  | And (conditions : list Condition)
  | Or (conditions : list Condition)
  | CorrelatedSub (c : CsqCondition)
with CsqCondition :=
  | MkCsqCond (related : CorrelatedSubquery) (op : ExistsOp) (flip scalar : option bool) (plan_id : option Z)
with CorrelatedSubquery :=
  | MkCsq (correlation : Correlation) (subquery : Ast) (system : option System)
with Ast :=
  | MkAst (schema : option name) (table : name) (alias : option name) (select : option (list name))
      (where_ : option Condition) (related : list CorrelatedSubquery) (start : option Bound) (limit : option Z)
      (one : bool) (aggregate : option Aggregate) (aggregate_precomputed : bool) (group_by : list name)
      (having : option Condition) (order_by : list OrderPart).

Definition csqc_related (c : CsqCondition) : CorrelatedSubquery := let 'MkCsqCond r _ _ _ _ := c in r.
Definition csqc_flip (c : CsqCondition) : option bool := let 'MkCsqCond _ _ f _ _ := c in f.
Definition csq_correlation (c : CorrelatedSubquery) : Correlation := let 'MkCsq k _ _ := c in k.
Definition csq_subquery (c : CorrelatedSubquery) : Ast := let 'MkCsq _ a _ := c in a.

Definition ast_table (a : Ast) : name := let 'MkAst _ t _ _ _ _ _ _ _ _ _ _ _ _ := a in t.
Definition ast_alias (a : Ast) : option name := let 'MkAst _ _ n _ _ _ _ _ _ _ _ _ _ _ := a in n.
Definition ast_select (a : Ast) : option (list name) := let 'MkAst _ _ _ s _ _ _ _ _ _ _ _ _ _ := a in s.
Definition ast_where (a : Ast) : option Condition := let 'MkAst _ _ _ _ w _ _ _ _ _ _ _ _ _ := a in w.
Definition ast_related (a : Ast) : list CorrelatedSubquery := let 'MkAst _ _ _ _ _ r _ _ _ _ _ _ _ _ := a in r.
Definition ast_start (a : Ast) : option Bound := let 'MkAst _ _ _ _ _ _ s _ _ _ _ _ _ _ := a in s.
Definition ast_limit (a : Ast) : option Z := let 'MkAst _ _ _ _ _ _ _ l _ _ _ _ _ _ := a in l.
Definition ast_aggregate (a : Ast) : option Aggregate := let 'MkAst _ _ _ _ _ _ _ _ _ g _ _ _ _ := a in g.
Definition ast_group_by (a : Ast) : list name := let 'MkAst _ _ _ _ _ _ _ _ _ _ _ g _ _ := a in g.
Definition ast_having (a : Ast) : option Condition := let 'MkAst _ _ _ _ _ _ _ _ _ _ _ _ h _ := a in h.
Definition ast_order_by (a : Ast) : list OrderPart := let 'MkAst _ _ _ _ _ _ _ _ _ _ _ _ _ o := a in o.

(** [Ast::new]. *)
Definition ast_new (table : name) : Ast :=
  MkAst None table None None None [] None None false None false [] None [].

Definition with_where (a : Ast) (w : option Condition) : Ast :=
  let 'MkAst s t n sel _ r st l o g p gb h ob := a in MkAst s t n sel w r st l o g p gb h ob.

Definition with_alias (a : Ast) (n : option name) : Ast :=
  let 'MkAst s t _ sel w r st l o g p gb h ob := a in MkAst s t n sel w r st l o g p gb h ob.

(** ** Induction *)

Section ast_ind.
Context (P : Ast → Prop) (Q : Condition → Prop).
Context (Hsimple : ∀ c, Q (Simple c)).
Context (Hand : ∀ cs, Forall Q cs → Q (And cs)).
Context (Hor : ∀ cs, Forall Q cs → Q (Or cs)).
Context (Hsub : ∀ k a sys op f s p, P a → Q (CorrelatedSub (MkCsqCond (MkCsq k a sys) op f s p))).
Context (Hast : ∀ s t n sel w r st l o g p gb h ob,
  match w with Some c => Q c | None => True end → Forall (λ c, P (csq_subquery c)) r →
  P (MkAst s t n sel w r st l o g p gb h ob)).

Fixpoint ast_induction (a : Ast) : P a :=
  match a with
  | MkAst s t n sel w r st l o g p gb h ob =>
      Hast s t n sel w r st l o g p gb h ob
        (match w with Some c => condition_induction c | None => I end)
        ((fix go r : Forall (λ c, P (csq_subquery c)) r :=
            match r with
            | [] => List.Forall_nil _
            | MkCsq k a sys :: r => @List.Forall_cons _ (λ c, P (csq_subquery c)) (MkCsq k a sys) r (ast_induction a) (go r)
            end) r)
  end
with condition_induction (c : Condition) : Q c :=
  let go := fix go cs : Forall Q cs :=
    match cs with [] => List.Forall_nil _ | c :: cs => @List.Forall_cons _ Q c cs (condition_induction c) (go cs) end in
  match c with
  | Simple c => Hsimple c
  | And cs => Hand cs (go cs)
  | Or cs => Hor cs (go cs)
  | CorrelatedSub (MkCsqCond (MkCsq k a sys) op f s p) => Hsub k a sys op f s p (ast_induction a)
  end.
End ast_ind.

(** The induction on conditions alone. *)
Lemma condition_ind' (Q : Condition → Prop) :
  (∀ c, Q (Simple c)) → (∀ cs, Forall Q cs → Q (And cs)) → (∀ cs, Forall Q cs → Q (Or cs)) → (∀ c, Q (CorrelatedSub c)) →
  ∀ c, Q c.
Proof.
  intros H1 H2 H3 H4. apply (condition_induction (λ _, True) Q); auto.
Qed.

(** ** What a condition says

    The truth of a condition, given that of its leaves and subqueries: an empty
    [And] is true, an empty [Or] false. *)
Fixpoint holds (leaf : SimpleCondition → bool) (gate : CsqCondition → bool) (c : Condition) : bool :=
  match c with
  | Simple s => leaf s
  | And cs => forallb (holds leaf gate) cs
  | Or cs => existsb (holds leaf gate) cs
  | CorrelatedSub c => gate c
  end.

Definition holds_where (leaf : SimpleCondition → bool) (gate : CsqCondition → bool) (w : option Condition) : bool :=
  match w with Some c => holds leaf gate c | None => true end.
