(* ===== verification/Builder.v ===== *)
(** * The passes of the builder over the query ([rust/src/builder.rs])

    Before it is lowered, a query gets its orders completed by the primary keys; the
    condition of the frame being built is flattened, its subqueries get aliases of
    their own, and the leaf conditions the source can apply are split off.  The
    subqueries that remain name the relationship slots of the frame. *)

From stdpp Require Import base numbers option list sorting.
From Stdlib Require Import ZArith Lia Strings.Byte.
From S2P Require Import Prelude Values Schema Partition PkCodec Ast.

(** ** Orders *)

Fixpoint add_primary_keys (pk : list name) (order_by : list OrderPart) : list OrderPart :=
  match pk with
  | [] => order_by
  | c :: pk =>
      add_primary_keys pk
        (if existsb (λ o, bool_decide (op_field o = c)) order_by then order_by else order_by ++ [MkOrder c Asc])
  end.

Fixpoint complete_ordering (get_pk : name → list name) (a : Ast) : Ast :=
  match a with
  | MkAst s t n sel w r st l o g p gb h ob =>
      MkAst s t n sel
        (match w with Some c => Some (complete_ordering_in_condition get_pk c) | None => None end)
        (map (λ c, match c with MkCsq k a sys => MkCsq k (complete_ordering get_pk a) sys end) r)
        st l o g p gb h (add_primary_keys (get_pk t) ob)
  end
with complete_ordering_in_condition (get_pk : name → list name) (c : Condition) : Condition :=
  match c with
  | Simple _ => c
  | CorrelatedSub (MkCsqCond (MkCsq k a sys) op f s p) => CorrelatedSub (MkCsqCond (MkCsq k (complete_ordering get_pk a) sys) op f s p)
  | And cs => And (map (complete_ordering_in_condition get_pk) cs)
  | Or cs => Or (map (complete_ordering_in_condition get_pk) cs)
  end.

(** ** The shape of a condition *)

Definition rebuild (is_and : bool) (flat : list Condition) : option Condition :=
  match flat with
  | [] => None
  | [c] => Some c
  | _ => Some (if is_and then And flat else Or flat)
  end.

(** A child with the operator of its parent is spliced, one level deep. *)
Fixpoint flatten_condition (c : Condition) : option Condition :=
  match c with
  | Simple _ | CorrelatedSub _ => Some c
  | And cs =>
      rebuild true (flat_map (λ c,
        match c with
        | And kids => flat_map (λ k, option_list (flatten_condition k)) kids
        | _ => option_list (flatten_condition c)
        end) cs)
  | Or cs =>
      rebuild false (flat_map (λ c,
        match c with
        | Or kids => flat_map (λ k, option_list (flatten_condition k)) kids
        | _ => option_list (flatten_condition c)
        end) cs)
  end.

(** [format!("{base}_{n}")], the base of no alias being empty. *)
Definition numbered_alias (base : option name) (n : Z) : name := default [] base ++ [x5f] ++ integer_text n.

Fixpoint uniquify_condition_aliases (c : Condition) (next_alias : Z) : Condition * Z :=
  let go := fix go cs n :=
    match cs with
    | [] => ([], n)
    | c :: cs =>
        let '(c, n) := uniquify_condition_aliases c n in
        let '(cs, n) := go cs n in
        (c :: cs, n)
    end in
  match c with
  | Simple _ => (c, next_alias)
  | CorrelatedSub (MkCsqCond (MkCsq k a sys) op f s p) =>
      (CorrelatedSub (MkCsqCond (MkCsq k (with_alias a (Some (numbered_alias (ast_alias a) next_alias))) sys) op f s p),
       (next_alias + 1) mod 2 ^ 32)%Z
  | And cs => let '(cs, n) := go cs next_alias in (And cs, n)
  | Or cs => let '(cs, n) := go cs next_alias in (Or cs, n)
  end.

Definition normalize_pipeline_ast (a : Ast) : Ast :=
  match ast_where a with
  | None => a
  | Some w =>
      match flatten_condition w with
      | None => with_where a None
      | Some (And _ | Or _) as flattened =>
          with_where a ((λ c, (uniquify_condition_aliases c 0).1) <$> flattened)
      | flattened => with_where a flattened
      end
  end.

(** The condition without its subqueries, and whether one was removed; [None] inside
    an [Or] collapses it. *)
Fixpoint transform_condition (c : Condition) : option Condition * bool :=
  let go := fix go (is_or : bool) cs :=
    match cs with
    | [] => Some ([], false)
    | c :: cs =>
        match transform_condition c with
        | (None, r) => if is_or then None else '(ts, r') ← go is_or cs; Some (ts, r || r')
        | (Some t, r) => '(ts, r') ← go is_or cs; Some (t :: ts, r || r')
        end
    end in
  match c with
  | Simple _ => (Some c, false)
  | CorrelatedSub _ => (None, true)
  | And cs => match go false cs with Some (ts, r) => (Some (And ts), r) | None => (None, true) end
  | Or cs => match go true cs with Some (ts, r) => (Some (Or ts), r) | None => (None, true) end
  end.

Definition transform_filters (filters : option Condition) : option Condition * bool :=
  match filters with Some c => transform_condition c | None => (None, false) end.

(** ** Subqueries *)

Fixpoint gather_csq (c : Condition) : list CsqCondition :=
  match c with
  | CorrelatedSub c => [c]
  | And cs | Or cs => flat_map gather_csq cs
  | Simple _ => []
  end.

Definition gather_csq_conditions (w : option Condition) : list CsqCondition :=
  match w with Some c => gather_csq c | None => [] end.

Definition push_unique_name (names : list name) (alias : option name) : list name :=
  match alias with
  | Some a => if bool_decide (a ∈ names) then names else names ++ [a]
  | None => names
  end.

Definition csq_alias (c : CsqCondition) : option name := ast_alias (csq_subquery (csqc_related c)).

Definition query_local_slot_names (normalized : Ast) : list name :=
  let names := foldl (λ names c, push_unique_name names (ast_alias (csq_subquery c))) [] (ast_related normalized) in
  foldl (λ names c,
      if bool_decide (ast_limit (csq_subquery (csqc_related c)) = Some 0%Z) then names else push_unique_name names (csq_alias c))
    names (gather_csq_conditions (ast_where normalized)).

Fixpoint has_subquery (under_or : bool) (c : Condition) : bool :=
  match c with
  | CorrelatedSub _ => under_or
  | Simple _ => false
  | And cs => existsb (has_subquery under_or) cs
  | Or cs => existsb (has_subquery true) cs
  end.

Definition has_subquery_under_or (c : Condition) : bool := has_subquery false c.

Fixpoint condition_has_flipped_subquery (c : Condition) : bool :=
  match c with
  | CorrelatedSub c => bool_decide (csqc_flip c = Some true)
  | Simple _ => false
  | And cs | Or cs => existsb condition_has_flipped_subquery cs
  end.

(** The last of the relationships with an alias, at the place of the first. *)
Definition dedup_related_by_alias (related : list CorrelatedSubquery) : list CorrelatedSubquery :=
  (foldl (λ acc c,
      let alias := default [] (ast_alias (csq_subquery c)) in
      match position (λ a, bool_decide (a = alias)) acc.1 with
      | Some i => (acc.1, <[i := c]> acc.2)
      | None => (acc.1 ++ [alias], acc.2 ++ [c])
      end) ([], []) related).2.

(** ** Orders: theorems *)

Definition covers (pk : list name) (order_by : list OrderPart) : Prop := ∀ c, c ∈ pk → ∃ o, o ∈ order_by ∧ op_field o = c.

Lemma order_present ob c : existsb (λ o, bool_decide (op_field o = c)) ob = true ↔ ∃ o, o ∈ ob ∧ op_field o = c.
Proof.
  rewrite existsb_exists. setoid_rewrite bool_decide_eq_true. by setoid_rewrite list_elem_of_In.
Qed.

(** What is appended: the missing columns of the key, ascending, in the order of the
    key. *)
Lemma add_primary_keys_spec pk ob :
  ∃ l, add_primary_keys pk ob = ob ++ map (λ c, MkOrder c Asc) l ∧ covers pk (add_primary_keys pk ob) ∧
    l `sublist_of` pk ∧ NoDup l ∧ (∀ c, c ∈ l → ¬ ∃ o, o ∈ ob ∧ op_field o = c).
Proof.
  revert ob. induction pk as [|c pk IH]; intros ob.
  { exists []. rewrite app_nil_r. split_and!; [done|by intros c ?%elem_of_nil|done|constructor|by intros c ?%elem_of_nil]. }
  cbn [add_primary_keys]. destruct (existsb _ ob) eqn:E.
  - destruct (IH ob) as (l & -> & Hc & Hs & Hnd & Hn). exists l. split_and!; [done| |by constructor|done|done].
    intros c' [->|Hc']%elem_of_cons; [|by apply Hc]. apply order_present in E as (o & Ho & He).
    exists o. split; [|done]. apply elem_of_app. by left.
  - destruct (IH (ob ++ [MkOrder c Asc])) as (l & Heq & Hc & Hs & Hnd & Hn). rewrite Heq in Hc |- *. exists (c :: l). split_and!.
    + cbn [map]. by rewrite <-app_assoc.
    + intros c' [->|Hc']%elem_of_cons; [|by apply Hc]. exists (MkOrder c Asc). split; [|done].
      rewrite !elem_of_app. left. right. by left.
    + by constructor.
    + constructor; [|done]. intros Hl. apply (Hn c Hl). exists (MkOrder c Asc). split; [|done]. apply elem_of_app. right. by left.
    + intros c' [->|Hc']%elem_of_cons Hex.
      * apply order_present in Hex. by rewrite Hex in E.
      * apply (Hn c' Hc'). destruct Hex as (o & Ho & He). exists o. split; [|done]. apply elem_of_app. by left.
Qed.

Lemma add_primary_keys_covered pk ob : covers pk ob → add_primary_keys pk ob = ob.
Proof.
  induction pk as [|c pk IH]; intros H; [done|]. cbn [add_primary_keys].
  assert (existsb (λ o, bool_decide (op_field o = c)) ob = true) as -> by (apply order_present, H; by left).
  apply IH. intros c' Hc'. apply H. by right.
Qed.

(** Every query of the tree: the relationships and the subqueries of the conditions. *)
Section every.
Context (f : Ast → Prop).

Fixpoint every_query (a : Ast) : Prop :=
  f a ∧
  match a with
  | MkAst _ _ _ _ w r _ _ _ _ _ _ _ _ =>
      match w with Some c => every_query_in c | None => True end ∧
      (fix go r := match r with [] => True | MkCsq _ a _ :: r => every_query a ∧ go r end) r
  end
with every_query_in (c : Condition) : Prop :=
  match c with
  | Simple _ => True
  | CorrelatedSub (MkCsqCond (MkCsq _ a _) _ _ _ _) => every_query a
  | And cs | Or cs => (fix go cs := match cs with [] => True | c :: cs => every_query_in c ∧ go cs end) cs
  end.
End every.
