(* ===== verification/BuilderFacts.v ===== *)
(** * What the passes over a query keep ([rust/src/builder.rs])

    Completing the orders reaches every query of the tree, keeps what was there and
    settles; flattening keeps the meaning of a condition without empty connectives and
    the order of its subqueries; the new aliases are pairwise different; the filters
    split off are a weakening of the condition, and the condition itself when nothing
    was removed. *)

From stdpp Require Import base numbers option list sorting.
From Stdlib Require Import ZArith Lia Strings.Byte.
From S2P Require Import Prelude Values Schema Partition PkCodec Ast Builder.

#[local] Open Scope Z_scope.

(** ** Orders *)

Lemma every_related (f : Ast → Prop) a :
  every_query f a ↔ f a ∧ match ast_where a with Some c => every_query_in f c | None => True end ∧
    Forall (λ c, every_query f (csq_subquery c)) (ast_related a).
Proof.
  destruct a as [s t n sel w r st l o g p gb h ob]. cbn [every_query ast_where ast_related].
  assert ((fix go r := match r with [] => True | MkCsq _ a _ :: r => every_query f a ∧ go r end) r ↔
    Forall (λ c, every_query f (csq_subquery c)) r) as ->; [|done].
  induction r as [|[k a sys] r IH]; [by split; [constructor|]|]. by rewrite Forall_cons, IH.
Qed.

Lemma every_in_list (f : Ast → Prop) cs :
  (fix go cs := match cs with [] => True | c :: cs => every_query_in f c ∧ go cs end) cs ↔ Forall (every_query_in f) cs.
Proof. induction cs as [|c cs IH]; [by split; [constructor|]|]. by rewrite Forall_cons, IH. Qed.

Section orders.
Context (get_pk : name → list name).
#[local] Abbreviation covered := (λ a, covers (get_pk (ast_table a)) (ast_order_by a)).

Lemma completes : (∀ a, every_query covered (complete_ordering get_pk a)) ∧ (∀ c, every_query_in covered (complete_ordering_in_condition get_pk c)).
Proof.
  assert (∀ cs, Forall (λ c, every_query_in covered (complete_ordering_in_condition get_pk c)) cs →
    Forall (every_query_in covered) (map (complete_ordering_in_condition get_pk) cs)) as Hlist by (intros cs H; by apply Forall_map).
  set (P := λ a, every_query covered (complete_ordering get_pk a)).
  set (Q := λ c, every_query_in covered (complete_ordering_in_condition get_pk c)).
  split; [refine (ast_induction P Q _ _ _ _ _)|refine (condition_induction P Q _ _ _ _ _)]; unfold P, Q in *.
  all: try (intros; cbn [complete_ordering_in_condition every_query_in]; by rewrite ?every_in_list; auto).
  all: intros s t n sel w r st l o g p gb h ob Hw Hr; apply every_related; cbn [complete_ordering ast_table ast_order_by ast_where ast_related];
    (split; [by destruct (add_primary_keys_spec (get_pk t) ob) as (? & _ & ? & _)|split; [by destruct w|]]);
    apply Forall_map; (eapply Forall_impl; [exact Hr|]); by intros [k a sys].
Qed.

Lemma completed :
  (∀ a, every_query covered a → complete_ordering get_pk a = a) ∧
  (∀ c, every_query_in covered c → complete_ordering_in_condition get_pk c = c).
Proof.
  assert (∀ cs, Forall (λ c, every_query_in covered c → complete_ordering_in_condition get_pk c = c) cs →
    Forall (every_query_in covered) cs → map (complete_ordering_in_condition get_pk) cs = cs) as Hlist.
  { intros cs H1 H2. rewrite <-(map_id cs) at 2. apply map_ext_in. intros c Hc%list_elem_of_In. rewrite Forall_forall in H1, H2. auto. }
  set (P := λ a, every_query covered a → complete_ordering get_pk a = a).
  set (Q := λ c, every_query_in covered c → complete_ordering_in_condition get_pk c = c).
  split; [refine (ast_induction P Q _ _ _ _ _)|refine (condition_induction P Q _ _ _ _ _)]; unfold P, Q in *.
  all: try (intros; cbn [complete_ordering_in_condition every_query_in] in *; done).
  all: try (intros cs H1; cbn [complete_ordering_in_condition every_query_in]; rewrite every_in_list; intros H2; by rewrite Hlist).
  all: try (intros k a sys op f s p H1 H2; cbn [complete_ordering_in_condition every_query_in] in *; by rewrite H1).
  all: intros s t n sel w r st l o g p gb h ob Hw Hr (Hc & Hw' & Hr')%every_related; cbn [complete_ordering ast_table ast_order_by ast_where ast_related] in *;
    rewrite (add_primary_keys_covered _ _ Hc); f_equal; [destruct w; [by rewrite Hw|done]|];
    rewrite <-(map_id r) at 2; apply map_ext_in; intros [k a sys] Hc'%list_elem_of_In; rewrite Forall_forall in Hr, Hr';
    specialize (Hr _ Hc'); specialize (Hr' _ Hc'); cbn [csq_subquery] in *; by rewrite Hr.
Qed.

(** [C34] Completing the orders of a query reaches every query of its tree, the
    relationships and the subqueries of the conditions: each then orders by its whole
    primary key.  The order that was there comes first, unchanged, then the missing
    columns of the key, ascending; a completed query is left as it is. *)
Theorem complete_ordering_completes (a : Ast) :
  every_query covered (complete_ordering get_pk a) ∧
  complete_ordering get_pk (complete_ordering get_pk a) = complete_ordering get_pk a ∧
  ∃ l, ast_order_by (complete_ordering get_pk a) = ast_order_by a ++ map (λ c, MkOrder c Asc) l ∧
    l `sublist_of` get_pk (ast_table a) ∧ NoDup l ∧ (∀ c, c ∈ l → ¬ ∃ o, o ∈ ast_order_by a ∧ op_field o = c).
Proof.
  destruct completes as [Ha _]. split; [apply Ha|]. split; [apply completed, Ha|].
  destruct a as [s t n sel w r st l o g p gb h ob]. cbn [complete_ordering ast_order_by ast_table].
  destruct (add_primary_keys_spec (get_pk t) ob) as (l' & ? & _ & ? & ? & ?). by exists l'.
Qed.
End orders.

(** ** Flattening *)

(** No connective is empty. *)
Fixpoint populated (c : Condition) : bool :=
  match c with
  | And cs | Or cs => match cs with [] => false | _ => forallb populated cs end
  | _ => true
  end.

(** No connective has fewer than two children. *)
Fixpoint branching (c : Condition) : bool :=
  match c with
  | And cs | Or cs => (2 <=? length cs)%nat && forallb branching cs
  | _ => true
  end.

(** What flattening does to one condition. *)
Definition flattens (c : Condition) : Prop :=
  populated c = true → ∃ c', flatten_condition c = Some c' ∧ branching c' = true ∧ gather_csq c' = gather_csq c ∧
    ∀ leaf gate, holds leaf gate c' = holds leaf gate c.

Definition all_or_any {A} (is_and : bool) (f : A → bool) (cs : list A) : bool :=
  if is_and then forallb f cs else existsb f cs.

(** The list that takes the place of some conditions. *)
Definition replaces (is_and : bool) (flat cs : list Condition) : Prop :=
  forallb branching flat = true ∧ flat_map gather_csq flat = flat_map gather_csq cs ∧ (cs ≠ [] → flat ≠ []) ∧
  ∀ leaf gate, all_or_any is_and (holds leaf gate) flat =
    all_or_any is_and (holds leaf gate) cs.

Lemma replaces_app is_and f1 c1 f2 c2 : replaces is_and f1 c1 → replaces is_and f2 c2 → replaces is_and (f1 ++ f2) (c1 ++ c2).
Proof.
  intros (B1 & G1 & N1 & H1) (B2 & G2 & N2 & H2). split_and!.
  - by rewrite forallb_app, B1.
  - by rewrite !flat_map_app, G1, G2.
  - destruct c1, f1; cbn; naive_solver.
  - intros leaf gate. specialize (H1 leaf gate). specialize (H2 leaf gate). destruct is_and; cbn [all_or_any] in *.
    + by rewrite !forallb_app, H1, H2.
    + by rewrite !existsb_app, H1, H2.
Qed.

Lemma replaces_nil is_and : replaces is_and [] [].
Proof. by split_and!. Qed.

Lemma replaces_all is_and (F : Condition → list Condition) cs :
  (∀ c, c ∈ cs → replaces is_and (F c) [c]) → replaces is_and (flat_map F cs) cs.
Proof.
  induction cs as [|c cs IH]; intros H; [apply replaces_nil|]. cbn [flat_map]. apply (replaces_app is_and _ [c]).
  - apply H. by left.
  - apply IH. intros c' Hc'. apply H. by right.
Qed.

Lemma replaces_one is_and c : flattens c → populated c = true → replaces is_and (option_list (flatten_condition c)) [c].
Proof.
  intros H Hp. destruct (H Hp) as (c' & -> & Hb & Hg & Hh). cbn [option_list]. split_and!.
  - cbn. by rewrite Hb.
  - cbn. by rewrite Hg.
  - done.
  - intros leaf gate. destruct is_and; cbn; by rewrite Hh.
Qed.

(** A connective in the place of its children. *)
Lemma rebuild_replaces is_and flat cs :
  replaces is_and flat cs → cs ≠ [] →
  ∃ c', rebuild is_and flat = Some c' ∧ branching c' = true ∧ gather_csq c' = flat_map gather_csq cs ∧
    ∀ leaf gate, holds leaf gate c' = all_or_any is_and (holds leaf gate) cs.
Proof.
  intros (B & G & N & H) Hne. specialize (N Hne). destruct flat as [|c [|c2 flat]]; [done|..]; cbn [rebuild].
  - cbn in B, G. rewrite andb_true_r in B. rewrite app_nil_r in G. exists c. split_and!; [done|done|done|].
    intros leaf gate. rewrite <-H. destruct is_and; cbn; by rewrite ?andb_true_r, ?orb_false_r.
  - destruct is_and; (eexists; split_and!; [done|exact B|exact G|intros; apply H]).
Qed.

Lemma populated_all is_and cs c : c ∈ cs → populated (if is_and : bool then And cs else Or cs) = true → populated c = true ∧ cs ≠ [].
Proof.
  intros Hc H. destruct cs as [|c' cs]; [by apply elem_of_nil in Hc|]. split; [|done].
  assert (forallb populated (c' :: cs) = true) as Hf by (by destruct is_and).
  rewrite forallb_forall in Hf. apply Hf. by apply list_elem_of_In.
Qed.

Lemma spliced_child is_and kids :
  Forall flattens kids → populated (if is_and : bool then And kids else Or kids) = true →
  replaces is_and (flat_map (λ k, option_list (flatten_condition k)) kids) [if is_and then And kids else Or kids].
Proof.
  intros HF Hp. assert (replaces is_and (flat_map (λ k, option_list (flatten_condition k)) kids) kids) as (B & G & N & H).
  { apply replaces_all. intros k Hk. rewrite Forall_forall in HF. apply replaces_one; [by apply HF|]. by eapply populated_all. }
  split_and!; [done|..].
  - rewrite G. destruct is_and; cbn; by rewrite app_nil_r.
  - intros _. apply N. destruct kids; [by destruct is_and|done].
  - intros leaf gate. rewrite H. destruct is_and; cbn; by rewrite ?andb_true_r, ?orb_false_r.
Qed.

Lemma flatten_flattens c : flattens c ∧ match c with And kids | Or kids => Forall flattens kids | _ => True end.
Proof.
  induction c as [s|cs IH|cs IH|q] using condition_ind'.
  1,4: split; [|done]; intros _; eexists; split_and!; done.
  all: assert (Forall flattens cs) as HF by (eapply Forall_impl; [exact IH|]; by intros c [? _]); (split; [|done]); intros Hp;
    (assert (cs ≠ []) as Hne by (by destruct cs)); cbn [flatten_condition].
  - apply (rebuild_replaces true _ cs); [|done]. apply replaces_all. intros c Hc. rewrite Forall_forall in IH, HF.
    destruct (populated_all true cs c Hc Hp) as [Hpc _]. destruct (IH c Hc) as [Hf Hk].
    destruct c as [s|kids|kids|q]; try (by apply replaces_one). by apply (spliced_child true).
  - apply (rebuild_replaces false _ cs); [|done]. apply replaces_all. intros c Hc. rewrite Forall_forall in IH, HF.
    destruct (populated_all false cs c Hc Hp) as [Hpc _]. destruct (IH c Hc) as [Hf Hk].
    destruct c as [s|kids|kids|q]; try (by apply replaces_one). by apply (spliced_child false).
Qed.

(** ** Aliases *)

(** A test of subqueries that does not look at their alias. *)
Definition alias_blind (gate : CsqCondition → bool) : Prop :=
  ∀ k a n sys op f s p, gate (MkCsqCond (MkCsq k (with_alias a n) sys) op f s p) = gate (MkCsqCond (MkCsq k a sys) op f s p).

Definition u32_plus (n : Z) (i : nat) : Z := (n + Z.of_nat i) mod 2 ^ 32.

Definition numbered (n : Z) (i : nat) (c : CsqCondition) : option name := Some (numbered_alias (csq_alias c) (u32_plus n i)).

Definition uniquifies (c : Condition) : Prop :=
  ∀ n, 0 ≤ n < 2 ^ 32 → ∃ c', uniquify_condition_aliases c n = (c', u32_plus n (length (gather_csq c))) ∧
    map csq_alias (gather_csq c') = imap (numbered n) (gather_csq c) ∧ branching c' = branching c ∧
    ∀ leaf gate, alias_blind gate → holds leaf gate c' = holds leaf gate c.

Lemma u32_plus_0 n : 0 ≤ n < 2 ^ 32 → u32_plus n 0 = n.
Proof. intros H. unfold u32_plus. rewrite Z.add_0_r. by apply Z.mod_small. Qed.

Lemma u32_plus_plus n i j : u32_plus (u32_plus n i) j = u32_plus n (i + j).
Proof. unfold u32_plus. rewrite Z.add_mod_idemp_l by lia. f_equal. lia. Qed.

Lemma u32_plus_bound n i : 0 ≤ u32_plus n i < 2 ^ 32.
Proof. apply Z.mod_pos_bound. lia. Qed.

Lemma numbered_app n l1 l2 : imap (numbered n) (l1 ++ l2) = imap (numbered n) l1 ++ imap (numbered (u32_plus n (length l1))) l2.
Proof.
  rewrite imap_app. f_equal. apply imap_ext. intros i x _. cbn. unfold numbered. by rewrite u32_plus_plus.
Qed.

Definition uniquify_list := fix go (cs : list Condition) (n : Z) : list Condition * Z :=
  match cs with
  | [] => ([], n)
  | c :: cs =>
      let '(c, n) := uniquify_condition_aliases c n in
      let '(cs, n) := go cs n in
      (c :: cs, n)
  end.

Lemma uniquify_list_spec cs n :
  Forall uniquifies cs → 0 ≤ n < 2 ^ 32 → ∃ cs', uniquify_list cs n = (cs', u32_plus n (length (flat_map gather_csq cs))) ∧
    map csq_alias (flat_map gather_csq cs') = imap (numbered n) (flat_map gather_csq cs) ∧
    length cs' = length cs ∧ forallb branching cs' = forallb branching cs ∧
    ∀ is_and leaf gate, alias_blind gate → all_or_any is_and (holds leaf gate) cs' = all_or_any is_and (holds leaf gate) cs.
Proof.
  intros HF. revert n. induction HF as [|c cs Hc HF IH]; intros n Hn.
  { exists []. split_and!; try done. cbn [uniquify_list flat_map length]. by rewrite u32_plus_0. }
  cbn [uniquify_list flat_map]. destruct (Hc n Hn) as (c' & -> & Ha & Hb & Hh).
  destruct (IH (u32_plus n (length (gather_csq c))) (u32_plus_bound _ _)) as (cs' & -> & Has & Hl & Hbs & Hhs).
  exists (c' :: cs'). split_and!.
  - f_equal. by rewrite u32_plus_plus, length_app.
  - cbn [flat_map]. by rewrite map_app, Ha, Has, numbered_app.
  - cbn. by rewrite Hl.
  - cbn. by rewrite Hb, Hbs.
  - intros is_and leaf gate Hg. specialize (Hhs is_and leaf gate Hg). destruct is_and; cbn in *; by rewrite Hh, Hhs.
Qed.

Lemma uniquify_uniquifies c : uniquifies c.
Proof.
  induction c as [s|cs IH|cs IH|q] using condition_ind'; intros n Hn.
  - exists (Simple s). split_and!; try done. cbn [uniquify_condition_aliases gather_csq length]. by rewrite u32_plus_0.
  - destruct (uniquify_list_spec cs n IH Hn) as (cs' & Heq & Ha & Hl & Hb & Hh). exists (And cs'). split_and!.
    + cbn [uniquify_condition_aliases]. fold uniquify_list. by rewrite Heq.
    + done.
    + cbn [branching]. by rewrite Hl, Hb.
    + intros leaf gate Hg. by apply (Hh true).
  - destruct (uniquify_list_spec cs n IH Hn) as (cs' & Heq & Ha & Hl & Hb & Hh). exists (Or cs'). split_and!.
    + cbn [uniquify_condition_aliases]. fold uniquify_list. by rewrite Heq.
    + done.
    + cbn [branching]. by rewrite Hl, Hb.
    + intros leaf gate Hg. by apply (Hh false).
  - destruct q as [[k a sys] op f s p]. eexists. split_and!; [done| |done|].
    + cbn. unfold numbered, csq_alias. cbn. destruct a. cbn. by rewrite u32_plus_0.
    + intros leaf gate Hg. apply Hg.
Qed.

(** No digit is an underscore, so the number of an alias can be read back. *)
Lemma uint_text_plain u : x5f ∉ uint_text u.
Proof. induction u; cbn [uint_text]; rewrite ?not_elem_of_cons; try (split; [done|done]). by apply not_elem_of_nil. Qed.

Lemma app_last_sep {A} `{!EqDecision A} (l l' r r' : list A) (x : A) : x ∉ r → x ∉ r' → l ++ x :: r = l' ++ x :: r' → r = r'.
Proof.
  intros Hr Hr'. revert l'. induction l as [|y l IH]; intros [|y' l'] H; cbn in H; simplify_eq; [done|..].
  - destruct Hr. apply elem_of_app. right. by left.
  - destruct Hr'. apply elem_of_app. right. by left.
  - by eapply IH.
Qed.

Lemma numbered_alias_inj b b' n n' : 0 ≤ n → 0 ≤ n' → numbered_alias b n = numbered_alias b' n' → n = n'.
Proof.
  intros Hn Hn' H. unfold numbered_alias in H. cbn [app] in H. 
  assert (∀ z, 0 ≤ z → x5f ∉ integer_text z) as Hp.
  { intros z Hz. unfold integer_text. destruct (Z.to_int z) as [u|u] eqn:E; [apply uint_text_plain|].
    destruct z as [|p|p]; [done|done|lia]. }
  apply app_last_sep in H; [|by apply Hp..]. apply (integer_text_inj n n' [] []); [done|done|by rewrite !app_nil_r].
Qed.

Lemma numbered_nodup qs : Z.of_nat (length qs) ≤ 2 ^ 32 → NoDup (imap (numbered 0) qs).
Proof.
  intros Hl. apply NoDup_alt. intros i j x Hi Hj. rewrite list_lookup_imap in Hi, Hj.
  destruct (qs !! i) as [q|] eqn:Ei, (qs !! j) as [q'|] eqn:Ej; try done. cbn in Hi, Hj. injection Hi as <-. injection Hj as H.
  apply lookup_lt_Some in Ei, Ej. symmetry in H. apply numbered_alias_inj in H; [|apply u32_plus_bound..].
  unfold u32_plus in H. rewrite !Z.mod_small in H by lia. lia.
Qed.

Definition where_populated (w : option Condition) : bool := match w with Some c => populated c | None => true end.
Definition where_branching (w : option Condition) : bool := match w with Some c => branching c | None => true end.

(** [C35] Normalising a frame keeps the meaning of a condition without empty connectives,
    whatever its leaves say and its subqueries (their aliases apart), keeps the
    subqueries in their order, and leaves no connective with fewer than two children;
    the aliases of a condition that is a connective are pairwise different, the n-th
    being the old one with the number n. *)
Theorem normalize_keeps_meaning (a : Ast) :
  where_populated (ast_where a) = true → Z.of_nat (length (gather_csq_conditions (ast_where a))) ≤ 2 ^ 32 →
  let a' := normalize_pipeline_ast a in
  (∀ leaf gate, alias_blind gate → holds_where leaf gate (ast_where a') = holds_where leaf gate (ast_where a)) ∧
  where_branching (ast_where a') = true ∧
  map csq_alias (gather_csq_conditions (ast_where a')) =
    match ast_where a' with
    | Some (And _ | Or _) => imap (numbered 0) (gather_csq_conditions (ast_where a))
    | _ => map csq_alias (gather_csq_conditions (ast_where a))
    end ∧
  match ast_where a' with
  | Some (And _ | Or _) => NoDup (map csq_alias (gather_csq_conditions (ast_where a')))
  | _ => True
  end.
Proof.
  intros Hp Hl. unfold normalize_pipeline_ast. destruct (ast_where a) as [w|] eqn:Hw; [|by rewrite Hw].
  cbn [where_populated gather_csq_conditions] in *. destruct (flatten_flattens w) as [Hf _]. destruct (Hf Hp) as (c & -> & Hb & Hg & Hh).
  assert (∀ x, ast_where (with_where a x) = x) as Hww by (by destruct a).
  destruct (uniquify_uniquifies c 0) as (c' & Hu & Ha & Hb' & Hh'); [lia|].
  assert (match c with And _ | Or _ => True | _ => False end → match c' with And _ | Or _ => True | _ => False end) as Hk.
  { intros Hc. destruct c as [|cs|cs|]; try done; cbn [uniquify_condition_aliases] in Hu; fold uniquify_list in Hu;
      destruct (uniquify_list cs 0); by simplify_eq. }
  cbn zeta. destruct c as [s|cs|cs|q]; rewrite Hww; cbn [fmap option_fmap option_map];
    try (split_and!; [intros; apply Hh|done|by cbn [gather_csq_conditions]; rewrite Hg|done]).
  all: rewrite Hu; cbn [fst gather_csq_conditions holds_where where_branching]; rewrite Ha, Hg; specialize (Hk I);
    (split_and!; [intros leaf gate Hgate; by rewrite Hh' by done|by rewrite Hb'|by destruct c'|]);
    destruct c'; try done; by apply numbered_nodup.
Qed.


(** ** The conditions of the source *)

Fixpoint subquery_free (c : Condition) : bool :=
  match c with
  | Simple _ => true
  | And cs | Or cs => forallb subquery_free cs
  | CorrelatedSub _ => false
  end.

Definition transforms (c : Condition) : Prop :=
  let '(t, removed) := transform_condition c in
  removed = negb (subquery_free c) ∧ (removed = false → t = Some c) ∧
  match t with
  | Some t => subquery_free t = true ∧ ∀ leaf gate, holds leaf gate c = true → holds leaf gate t = true
  | None => removed = true
  end.

Definition transform_list := fix go (is_or : bool) (cs : list Condition) : option (list Condition * bool) :=
  match cs with
  | [] => Some ([], false)
  | c :: cs =>
      match transform_condition c with
      | (None, r) => if is_or then None else '(ts, r') ← go is_or cs; Some (ts, r || r')
      | (Some t, r) => '(ts, r') ← go is_or cs; Some (t :: ts, r || r')
      end
  end.

Lemma transform_list_spec is_or cs :
  Forall transforms cs →
  match transform_list is_or cs with
  | None => is_or = true ∧ forallb subquery_free cs = false
  | Some (ts, r) =>
      r = negb (forallb subquery_free cs) ∧ (r = false → ts = cs) ∧ forallb subquery_free ts = true ∧
      ∀ leaf gate, all_or_any (negb is_or) (holds leaf gate) cs = true → all_or_any (negb is_or) (holds leaf gate) ts = true
  end.
Proof.
  induction 1 as [|c cs Hc HF IH]; [by split_and!|]. cbn [transform_list]. unfold transforms in Hc.
  destruct (transform_condition c) as [t r]. destruct Hc as (Hr & Hsame & Ht). destruct t as [t|].
  - destruct Ht as [Hst Hw]. destruct (transform_list is_or cs) as [[ts r']|]; cbn [mbind option_bind].
    + destruct IH as (Hr' & Hsame' & Hts & Hw'). subst r r'. cbn [forallb]. split_and!.
      * by destruct (subquery_free c), (forallb _ cs).
      * intros [H1 H2]%orb_false_iff. rewrite Hsame' by done. apply Hsame in H1. by simplify_eq.
      * by rewrite Hst, Hts.
      * intros leaf gate. specialize (Hw leaf gate). specialize (Hw' leaf gate). destruct is_or; cbn in *.
        -- rewrite !orb_true_iff. naive_solver.
        -- rewrite !andb_true_iff. naive_solver.
    + destruct IH as [-> H]. split; [done|]. cbn. by rewrite H, andb_false_r.
  - subst r. destruct is_or; cbn [all_or_any negb] in *.
    + split; [done|]. cbn. by destruct (subquery_free c).
    + destruct (transform_list false cs) as [[ts r']|]; cbn [mbind option_bind]; [|by destruct IH].
      destruct IH as (Hr' & Hsame' & Hts & Hw'). assert (subquery_free c = false) as Hc by (by destruct (subquery_free c)).
      cbn [forallb]. rewrite Hc. split_and!; [done|done|done|].
      intros leaf gate [_ H]%andb_true_iff. by apply Hw'.
Qed.

Lemma transform_transforms c : transforms c.
Proof.
  induction c as [s|cs IH|cs IH|q] using condition_ind'; [by split_and!| | |by split_and!].
  - pose proof (transform_list_spec false cs IH) as H. unfold transforms. cbn [transform_condition]. fold transform_list.
    destruct (transform_list false cs) as [[ts r]|]; [|by destruct H]. destruct H as (-> & Hs & Ht & Hw). cbn [subquery_free].
    split_and!; [done|intros E; by rewrite Hs|done|]. intros leaf gate. apply Hw.
  - pose proof (transform_list_spec true cs IH) as H. unfold transforms. cbn [transform_condition]. fold transform_list.
    destruct (transform_list true cs) as [[ts r]|]; cbn [subquery_free].
    + destruct H as (-> & Hs & Ht & Hw). split_and!; [done|intros E; by rewrite Hs|done|]. intros leaf gate. apply Hw.
    + destruct H as [_ ->]. by split_and!.
Qed.

(** What the builder hands to the source is free of subqueries and true of every
    row the whole condition may keep, whatever its subqueries say; something was
    removed exactly when there was a subquery, and otherwise it is the condition. *)
Lemma transform_weakens (w : option Condition) :
  let '(t, removed) := transform_filters w in
  removed = match w with Some c => negb (subquery_free c) | None => false end ∧
  (removed = false → t = w) ∧ match t with Some t => subquery_free t = true | None => True end ∧
  ∀ leaf gate, holds_where leaf gate w = true → holds_where leaf gate t = true.
Proof.
  destruct w as [c|]; [|by split_and!]. pose proof (transform_transforms c) as H. unfold transforms in H. cbn [transform_filters].
  destruct (transform_condition c) as [[t|] r]; destruct H as (Hr & Hs & Ht); cbn [holds_where].
  - destruct Ht as [Ht Hw]. split_and!; [done|done|done|apply Hw].
  - by split_and!.
Qed.

(** ** Relationship slots *)

Lemma push_unique_spec names al :
  NoDup names → NoDup (push_unique_name names al) ∧ names `prefix_of` push_unique_name names al ∧
    ∀ n, n ∈ push_unique_name names al ↔ n ∈ names ∨ al = Some n.
Proof.
  intros Hnd. unfold push_unique_name. destruct al as [a|]; [case_bool_decide as Ha|].
  - split_and!; [done|done|]. intros n. split; [by left|]. by intros [|[= ->]].
  - split_and!; [|by exists [a]|].
    + apply NoDup_app. split_and!; [done| |by apply NoDup_singleton]. intros x Hx ->%list_elem_of_singleton. done.
    + intros n. rewrite elem_of_app, list_elem_of_singleton. naive_solver.
  - split_and!; [done|done|]. intros n. split; [by left|]. by intros [|[=]].
Qed.

Lemma push_unique_all {A} (f : A → option (option name)) (l : list A) names :
  NoDup names →
  let r := foldl (λ names x, match f x with Some al => push_unique_name names al | None => names end) names l in
  NoDup r ∧ names `prefix_of` r ∧ ∀ n, n ∈ r ↔ n ∈ names ∨ ∃ x, x ∈ l ∧ f x = Some (Some n).
Proof.
  revert names. induction l as [|x l IH]; intros names Hnd; cbn [foldl].
  { split_and!; [done|done|]. intros n. split; [by left|]. intros [|(y & Hy & _)]; [done|]. by apply elem_of_nil in Hy. }
  assert (NoDup (match f x with Some al => push_unique_name names al | None => names end) ∧
    names `prefix_of` match f x with Some al => push_unique_name names al | None => names end ∧
    ∀ n, n ∈ match f x with Some al => push_unique_name names al | None => names end ↔ n ∈ names ∨ f x = Some (Some n)) as (H1 & H2 & H3).
  { destruct (f x) as [al|].
    - destruct (push_unique_spec names al Hnd) as (? & ? & H). split_and!; [done|done|]. intros n. rewrite H. naive_solver.
    - split_and!; [done|done|]. intros n. naive_solver. }
  destruct (IH _ H1) as (H4 & H5 & H6). split_and!; [done|by etrans|]. intros n. rewrite H6, H3. setoid_rewrite elem_of_cons. naive_solver.
Qed.

(** The relationship slots of a frame are named without repetition: the aliases of
    the relationships, then those of the subqueries that are not limited to nothing;
    every such alias has exactly one slot and every slot comes from one. *)
Theorem slot_names_exact (a : Ast) :
  NoDup (query_local_slot_names a) ∧
  ∀ n, n ∈ query_local_slot_names a ↔
    (∃ c, c ∈ ast_related a ∧ ast_alias (csq_subquery c) = Some n) ∨
    (∃ c, c ∈ gather_csq_conditions (ast_where a) ∧ ast_limit (csq_subquery (csqc_related c)) ≠ Some 0 ∧ csq_alias c = Some n).
Proof.
  unfold query_local_slot_names.
  set (names := foldl _ [] (ast_related a)).
  destruct (push_unique_all (λ c, Some (ast_alias (csq_subquery c))) (ast_related a) []) as (H1 & _ & H3); [constructor|].
  change (foldl _ [] (ast_related a)) with names in H1, H3.
  destruct (push_unique_all (λ c, if bool_decide (ast_limit (csq_subquery (csqc_related c)) = Some 0) then None else Some (csq_alias c))
    (gather_csq_conditions (ast_where a)) names H1) as (H4 & _ & H6).
  assert (∀ l ns, foldl (λ names c, if bool_decide (ast_limit (csq_subquery (csqc_related c)) = Some 0) then names
      else push_unique_name names (csq_alias c)) ns l =
    foldl (λ names c, match (if bool_decide (ast_limit (csq_subquery (csqc_related c)) = Some 0) then None else Some (csq_alias c)) with
      Some al => push_unique_name names al | None => names end) ns l) as ->.
  { induction l as [|x l IH]; intros ns; [done|]. cbn [foldl]. rewrite IH. by case_bool_decide. }
  split; [done|]. intros n. rewrite H6, H3. split.
  - intros [[H|(c & Hc & He)]|(c & Hc & He)]; [by apply elem_of_nil in H|left|right].
    + exists c. split; [done|]. by injection He.
    + exists c. case_bool_decide as Hl; [done|]. injection He as He. done.
  - intros [(c & Hc & He)|(c & Hc & Hne & He)].
    + left. right. exists c. by rewrite He.
    + right. exists c. split; [done|]. rewrite bool_decide_eq_false_2 by done. by rewrite He.
Qed.

(** ** A concrete condition *)

Definition ex_leaf (n : name) : Condition := Simple (MkSimple OpEq (PosColumn n) (PosLiteral (LitBool true))).
Definition ex_exists (alias : name) : Condition :=
  CorrelatedSub (MkCsqCond (MkCsq (MkCorrelation [[x69]]%byte [[x70]]%byte) (with_alias (ast_new [x74]%byte) (Some alias)) None) Exists_ None None None).

(** [a and (exists c and (b or exists c))]. *)
Definition ex_condition : Condition := And [ex_leaf [x61]%byte; And [ex_exists [x63]%byte; Or [ex_leaf [x62]%byte; ex_exists [x63]%byte]]].

Lemma normalize_keeps_meaning_witness :
  let a := with_where (ast_new [x74]%byte) (Some ex_condition) in
  let a' := normalize_pipeline_ast a in
  where_branching (ast_where a') = true ∧
  map csq_alias (gather_csq_conditions (ast_where a')) = [Some [x63; x5f; x30]%byte; Some [x63; x5f; x31]%byte] ∧
  holds_where (λ _, true) (λ _, true) (ast_where a') = true.
Proof.
  destruct (normalize_keeps_meaning (with_where (ast_new [x74]%byte) (Some ex_condition))) as (H1 & H2 & H3 & _); [done|done|].
  cbv zeta. split; [exact H2|]. split; [rewrite H3; by vm_compute|]. rewrite (H1 (λ _, true) (λ _, true)); done.
Defined.
