(* ===== verification/Lowering.v ===== *)
(** * Lowering a frame's conditions ([rust/src/builder.rs])

    The leaf conditions become a predicate on rows, a condition for SQL, and an
    equality guard for the push index; an equality can also become a constraint of a
    fetch.  Orders, starts and correlation fields are resolved to columns, and the
    columns a frame reads are collected.  What cannot be lowered is an error.

    The text of a number that is no integer is a parameter: it is that of [Display]. *)

From stdpp Require Import base numbers option list sorting strings.
From Stdlib Require Import ZArith Lia Strings.Byte.
From S2P Require Import Prelude Values Rows Schema Change Predicate Partition PushIndex Connections Ast Builder.

Inductive BuildError :=
  | UnknownColumn (n : name)
  | Unsupported (why : string)
  | Invalid (why : string)
  | UnknownTable (n : name)
  | UnknownRelationship (n : name)
  | Int64ColumnUnsupported (table column : name).

(** [Result<_, BuildError>] and the [?] operator. *)
Abbreviation result A := (sum BuildError A).

Definition try_bind {A B} (x : result A) (f : A → result B) : result B :=
  match x with inl e => inl e | inr a => f a end.

Declare Scope build_scope.
Delimit Scope build_scope with build.
Notation "'try!' x := y 'in' z" := (try_bind y (λ x, z)) (at level 10, x name, y at level 200, z at level 200) : build_scope.
#[local] Open Scope build_scope.

(** [collect::<Result<Vec<_>, _>>]. *)
Fixpoint try_map {A B} (f : A → result B) (l : list A) : result (list B) :=
  match l with
  | [] => inr []
  | x :: l => try! y := f x in try! ys := try_map f l in inr (y :: ys)
  end.

(** A loop with [?] in its body. *)
Fixpoint try_for {A B} (f : B → A → result B) (acc : B) (l : list A) : result B :=
  match l with
  | [] => inr acc
  | x :: l => try! acc := f acc x in try_for f acc l
  end.

(** [ok_or_else]. *)
Definition ok_or {A} (x : option A) (e : BuildError) : result A := match x with Some a => inr a | None => inl e end.

(** [Result::ok]. *)
Definition ok {A} (x : result A) : option A := match x with inr a => Some a | inl _ => None end.

(** ** Literals *)

(** [n.fract() == 0.0], which no infinity and no NaN has. *)
Definition f64_integral (n : f64) : bool := f64_is_finite n && (f64_trunc_val n =? f64_val n)%Z.

Definition number_to_owned (n : f64) : value :=
  if f64_integral n && (- two_pow_63 <=? f64_val n)%Z && (f64_val n <? two_pow_63)%Z
  then Int (i64_of_Z (f64_val_as_i64 (f64_val n)))
  else Float n.

Definition lit_to_scalar (l : Lit) : result value :=
  match l with
  | LitNull => inr Null
  | LitBool b => inr (Bool b)
  | LitInt i => inr (Int i)
  | LitNumber n => inr (number_to_owned n)
  | LitStr s => inr (Str s)
  | LitArray _ => inl (Invalid "expected a scalar literal, found an array")
  end.

Definition is_lit_null (l : Lit) : bool := match l with LitNull => true | _ => false end.

(** ** One leaf *)

Definition lower_col_id (schema : Schema) (n : name) : result nat := ok_or (col_id schema n) (UnknownColumn n).

Definition like_pred (col : nat) (right : Lit) (negated : bool) : result CompiledPredicate :=
  match right with
  | LitStr pat => inr (PLike col (compile pat) negated)
  | _ => inl (Invalid "LIKE pattern must be a string literal")
  end.

Definition ilike_pred (col : nat) (right : Lit) (negated : bool) : result CompiledPredicate :=
  match right with
  | LitStr pat => inr (PLike col (compile_case_insensitive pat) negated)
  | _ => inl (Invalid "ILIKE pattern must be a string literal")
  end.

Definition in_pred (col : nat) (right : Lit) (negated : bool) : result CompiledPredicate :=
  match right with
  | LitArray elems => try! values := try_map lit_to_scalar elems in inr (PIn col values negated)
  | _ => inl (Invalid "IN / NOT IN requires an array literal")
  end.

(** [IS] and [IS NOT] are handled before: [unreachable!]. *)
Definition lower_op (op : Op) (col : nat) (right : Lit) : result CompiledPredicate :=
  let cmp o := try! v := lit_to_scalar right in inr (PCmp col o v) in
  match op with
  | OpEq => cmp CEq
  | OpNe => cmp CNe
  | OpLt => cmp CLt
  | OpLe => cmp CLe
  | OpGt => cmp CGt
  | OpGe => cmp CGe
  | OpLike => like_pred col right false
  | OpNotLike => like_pred col right true
  | OpILike => ilike_pred col right false
  | OpNotILike => ilike_pred col right true
  | OpIn => in_pred col right false
  | OpNotIn => in_pred col right true
  | OpIs | OpIsNot => inl (Unsupported "unreachable: IS / IS NOT handled before lower_op")
  end.

Definition same_class (a b : value) : bool :=
  match a, b with
  | Bool _, Bool _ | Int _, Int _ | Float _, Float _ | Str _, Str _ | Json _, Json _ => true
  | _, _ => false
  end.

Definition is_ordering (op : Op) : bool := match op with OpLt | OpLe | OpGt | OpGe => true | _ => false end.

Definition guard_ordering_const (op : Op) (lhs : value) (right : Lit) : result unit :=
  if is_ordering op then
    try! rhs := lit_to_scalar right in
    if same_class lhs rhs then inr tt else inl (Invalid "ordering comparison between mismatched literal types")
  else inr tt.

(** The probe is evaluated on a row of one cell, the one it reads. *)
Definition create_predicate (cond : SimpleCondition) (schema : Schema) : result CompiledPredicate :=
  match sc_right cond with
  | PosColumn _ => inl (Invalid "right-hand side of a condition must be a literal")
  | PosLiteral rlit =>
      match sc_op cond with
      | (OpIs | OpIsNot) as op =>
          let negated := match op with OpIsNot => true | _ => false end in
          try! rhs := lit_to_scalar rlit in
          match sc_left cond with
          | PosColumn n =>
              try! col := lower_col_id schema n in
              inr (if is_lit_null rlit then PIsNull col negated else PIs col rhs negated)
          | PosLiteral v => try! lhs := lit_to_scalar v in inr (PConst (xorb (values_identical lhs rhs) negated))
          end
      | op =>
          if is_lit_null rlit then inr (PConst false)
          else
            match sc_left cond with
            | PosLiteral v =>
                if is_lit_null v then inr (PConst false)
                else
                  try! lhs := lit_to_scalar v in
                  try! _ := guard_ordering_const op lhs rlit in
                  try! probe := lower_op op 0 rlit in
                  inr (PConst (default false (eval probe [lhs])))
            | PosColumn n => try! col := lower_col_id schema n in lower_op op col rlit
            end
      end
  end.

(** ** The predicate of a source connection *)

(** The rows have the columns of their table, where [eval] answers. *)
Fixpoint create_row_predicate (schema : Schema) (c : Condition) : result RowPredicate :=
  match c with
  | Simple sc => try! pred := create_predicate sc schema in inr (λ r, default false (eval pred r))
  | And cs => try! preds := try_map (create_row_predicate schema) cs in inr (λ r, forallb (λ p : RowPredicate, p r) preds)
  | Or cs => try! preds := try_map (create_row_predicate schema) cs in inr (λ r, existsb (λ p : RowPredicate, p r) preds)
  | CorrelatedSub _ => inl (Unsupported "correlated subquery in `where` (EXISTS not yet built)")
  end.

(** ** Guards *)

Definition dedup_guard_values (values : list value) : list value :=
  foldl (λ out v, if existsb (λ u, values_identical u v) out then out else out ++ [v]) [] values.

Definition extract_simple_guard (sc : SimpleCondition) (schema : Schema) : option PushGuard :=
  match sc_left sc, sc_right sc with
  | PosColumn n, PosLiteral rhs =>
      col ← col_id schema n;
      match sc_op sc with
      | OpEq =>
          if is_lit_null rhs then Some (MkGuard col [])
          else v ← ok (lit_to_scalar rhs); Some (MkGuard col [v])
      | OpIs => v ← ok (lit_to_scalar rhs); Some (MkGuard col [v])
      | OpIn =>
          match rhs with
          | LitArray elems => values ← ok (try_map lit_to_scalar elems); Some (MkGuard col (dedup_guard_values values))
          | _ => None
          end
      | _ => None
      end
  | _, _ => None
  end.

(** [min_by_key]: the first of the least. *)
Definition smallest_guard (best : option PushGuard) (g : PushGuard) : option PushGuard :=
  match best with
  | Some b => if (length (guard_values g) <? length (guard_values b))%nat then Some g else Some b
  | None => Some g
  end.

(** One branch of an [Or]: its column so far and the values of the branches. *)
Definition union_guard (acc : option nat * list value) (g : PushGuard) : option (option nat * list value) :=
  match guard_values g with
  | [] => Some acc
  | vs =>
      match acc.1 with
      | Some existing => if (existing =? guard_col g)%nat then Some (Some existing, acc.2 ++ vs) else None
      | None => Some (Some (guard_col g), acc.2 ++ vs)
      end
  end.

Fixpoint extract_push_guard (schema : Schema) (c : Condition) : option PushGuard :=
  match c with
  | Simple sc => extract_simple_guard sc schema
  | And cs => foldl smallest_guard None (flat_map (λ c, option_list (extract_push_guard schema c)) cs)
  | Or cs =>
      '(col, union) ← (fix go cs acc :=
        match cs with
        | [] => Some acc
        | c :: cs => g ← extract_push_guard schema c; acc ← union_guard acc g; go cs acc
        end) cs (None, []);
      Some (MkGuard (default 0 col) (dedup_guard_values union))
  | CorrelatedSub _ => None
  end.

(** ** Constraints *)

Definition simple_eq_constraint (sc : SimpleCondition) (schema : Schema) : Constraint :=
  match sc_op sc, sc_left sc, sc_right sc with
  | OpEq, PosColumn n, PosLiteral v =>
      if is_lit_null v then []
      else match col_id schema n, ok (lit_to_scalar v) with
           | Some col, Some v => [(col, v)]
           | _, _ => []
           end
  | _, _, _ => []
  end.

Definition add_constraint (out : Constraint) (p : nat * value) : Constraint :=
  if existsb (λ e : nat * value, (e.1 =? p.1)%nat) out then out else out ++ [p].

Definition retain_common (acc next : Constraint) : Constraint :=
  List.filter (λ p : nat * value, existsb (λ e : nat * value, (e.1 =? p.1)%nat && values_identical p.2 e.2) next) acc.

Fixpoint pushable_constraint (schema : Schema) (c : Condition) : Constraint :=
  match c with
  | Simple sc => simple_eq_constraint sc schema
  | And cs => foldl (λ out c, foldl add_constraint out (pushable_constraint schema c)) [] cs
  | Or [] => []
  | Or (c :: cs) =>
      foldl (λ acc c, match acc with [] => [] | _ => retain_common acc (pushable_constraint schema c) end)
        (pushable_constraint schema c) cs
  | CorrelatedSub _ => []
  end.

(** ** Columns *)

Definition resolve_sort (order_by : list OrderPart) (schema : Schema) : result Sort :=
  try! sort := try_for (λ sort o, try! c := lower_col_id schema (op_field o) in
                      inr (sort ++ [(c, match op_dir o with Asc => true | Desc => false end)])) [] order_by in
  inr (foldl (λ sort c, if existsb (λ e : nat * bool, (e.1 =? c)%nat) sort then sort else sort ++ [(c, true)])
         sort (schema_pk schema)).

Definition resolve_cols (names : list name) (schema : Schema) : result (list nat) := try_map (lower_col_id schema) names.

(** The row is filled by name; its other cells stay null. *)
Definition lower_start (bound : Bound) (schema : Schema) : result Start :=
  try! row := try_for (λ (row : row) e, try! v := lit_to_scalar e.2 in try! c := lower_col_id schema e.1 in inr (<[c := v]> row))
    (replicate (length (columns schema)) Null) (bound_row bound) in
  inr (MkStart row (if exclusive bound then After else At)).

Definition push_unique (cols : list nat) (c : nat) : list nat := if existsb (Nat.eqb c) cols then cols else cols ++ [c].

Definition add_names (schema : Schema) (cols : list nat) (names : list name) : result (list nat) :=
  try_for (λ cols n, try! c := lower_col_id schema n in inr (push_unique cols c)) cols names.

Definition compute_split_edit_keys (partition_key : option (list name)) (related : list CorrelatedSubquery)
    (csq_conditions : list CsqCondition) (schema : Schema) : result (list nat) :=
  try! cols := match partition_key with Some pk => add_names schema [] pk | None => inr [] end in
  try! cols := try_for (λ cols c, add_names schema cols (parent_field (csq_correlation (csqc_related c)))) cols csq_conditions in
  try_for (λ cols c, add_names schema cols (parent_field (csq_correlation c))) cols related.

Fixpoint where_leaf_columns (schema : Schema) (c : Condition) (out : list nat) : result (list nat) :=
  match c with
  | Simple sc =>
      try_for (λ out vp, match vp with
                         | PosColumn n => try! c := lower_col_id schema n in inr (push_unique out c)
                         | PosLiteral _ => inr out
                         end) out [sc_left sc; sc_right sc]
  | And cs | Or cs =>
      (fix go cs out := match cs with [] => inr out | c :: cs => try! out := where_leaf_columns schema c out in go cs out end) cs out
  | CorrelatedSub _ => inr out
  end.

Definition required_cols (ast : Ast) (schema : Schema) (sort : Sort) (split_edit_keys : list nat) : result (list nat) :=
  try! cols := match ast_select ast with
          | Some names => add_names schema [] names
          | None => inr (foldl push_unique [] (seq 0 (length (columns schema))))
          end in
  try! cols := match ast_where ast with Some w => where_leaf_columns schema w cols | None => inr cols end in
  let cols := foldl (λ cols e, push_unique cols e.1) cols sort in
  try! cols := match ast_start ast with Some b => add_names schema cols (map fst (bound_row b)) | None => inr cols end in
  inr (foldl push_unique cols split_edit_keys).

(** ** The filters of a connection *)

Section filters.
Context (f64_to_string : f64 → list byte).

Definition hex_digit (n : N) : byte := default x30 ([x30; x31; x32; x33; x34; x35; x36; x37; x38; x39; x61; x62; x63; x64; x65; x66] !! N.to_nat n).

(** A character beyond ASCII is pushed as it is, byte by byte. *)
Definition json_escape (c : byte) : list byte :=
  match c with
  | x22 => [x5c; x22]
  | x5c => [x5c; x5c]
  | x0a => [x5c; x6e]
  | x0d => [x5c; x72]
  | x09 => [x5c; x74]
  | c => if (Byte.to_N c <? 32)%N then [x5c; x75; x30; x30; hex_digit (Byte.to_N c / 16); hex_digit (Byte.to_N c mod 16)] else [c]
  end.

Definition json_quote (s : list byte) : list byte := x22 :: flat_map json_escape s ++ [x22].

(** [{n:.0}] writes an integral float exactly, and the sign of a zero. *)
Definition number_text (n : f64) : list byte :=
  if f64_integral n then
    if (f64_val n =? 0)%Z && f64_is_sign_negative n then [x2d; x30] else integer_text (f64_val n `quot` f64_unit)
  else f64_to_string n.

Fixpoint lit_to_json (l : Lit) : list byte :=
  match l with
  | LitNull => [x6e; x75; x6c; x6c]
  | LitBool true => [x74; x72; x75; x65]
  | LitBool false => [x66; x61; x6c; x73; x65]
  | LitInt i => integer_text i
  | LitNumber n => number_text n
  | LitStr s => json_quote s
  | LitArray items =>
      x5b :: (fix go first items :=
                match items with
                | [] => []
                | v :: items => (if first : bool then [] else [x2c]) ++ lit_to_json v ++ go false items
                end) true items ++ [x5d]
  end.

Definition lit_to_sql_value (l : Lit) : result value :=
  match l with LitArray _ => inr (Json (lit_to_json l)) | _ => lit_to_scalar l end.

Definition sql_op (op : Op) : SqlOp :=
  match op with
  | OpEq => SqlEq | OpNe => SqlNe | OpLt => SqlLt | OpLe => SqlLe | OpGt => SqlGt | OpGe => SqlGe
  | OpIs => SqlIs | OpIsNot => SqlIsNot | OpIn => SqlIn | OpNotIn => SqlNotIn
  | OpLike => SqlLike | OpNotLike => SqlNotLike | OpILike => SqlIlike | OpNotILike => SqlNotIlike
  end.

Definition value_position_to_sql_operand (v : ValuePosition) (schema : Schema) : result Operand :=
  match v with
  | PosColumn n => try! c := lower_col_id schema n in inr (Column c)
  | PosLiteral l => try! v := lit_to_sql_value l in inr (Literal v)
  end.

Definition create_simple_sql_condition (c : SimpleCondition) (schema : Schema) : result SqlCondition :=
  try! left := value_position_to_sql_operand (sc_left c) schema in
  try! right := match sc_right c with
           | PosLiteral _ => value_position_to_sql_operand (sc_right c) schema
           | PosColumn _ => inl (Invalid "right-hand side of a condition must be a literal")
           end in
  inr (SqlSimple left (sql_op (sc_op c)) right).

Fixpoint create_sql_condition (schema : Schema) (c : Condition) : result SqlCondition :=
  match c with
  | Simple sc => create_simple_sql_condition sc schema
  | And cs => try! cs := try_map (create_sql_condition schema) cs in inr (SqlAnd cs)
  | Or cs => try! cs := try_map (create_sql_condition schema) cs in inr (SqlOr cs)
  | CorrelatedSub _ => inl (Unsupported "correlated subquery in source SQL condition")
  end.

Definition presence_pred (cols : list nat) : RowPredicate := λ r, forallb (λ c, negb (is_absent (default Absent (r !! c)))) cols.

Definition build_connection_filters (where_clause : option Condition) (presence : option (list nat)) (schema : Schema) :
    result (option ConnectionFilters * bool) :=
  let '(stripped, removed) := transform_filters where_clause in
  let fully_applied := negb removed in
  match stripped with
  | None =>
      inr (match presence with
           | None => None
           | Some cols => Some (MkFilters (presence_pred cols) None fully_applied None None)
           end, fully_applied)
  | Some cond =>
      try! base := create_row_predicate schema cond in
      let predicate := match presence with
                       | None => base
                       | Some cols => λ r, presence_pred cols r && base r
                       end in
      try! sql := create_sql_condition schema cond in
      inr (Some (MkFilters predicate None fully_applied (Some sql) (extract_push_guard schema cond)), fully_applied)
  end.
End filters.
