(* ===== verification/LoweringFacts.v ===== *)
(** * What a lowered condition means ([rust/src/builder.rs])

    A leaf keeps a row exactly when the comparison it spells is true in SQL's sense;
    the predicate of a connection is the condition it was lowered from; its guard names
    a value of every row it accepts, its pushed equalities hold of every such row, and
    it reads no column that is not required.  The resolved order ends in the key. *)

From stdpp Require Import base numbers option list sorting strings.
From Stdlib Require Import ZArith Lia Strings.Byte.
From S2P Require Import Prelude Values Rows Schema Change Predicate Partition PushIndex Connections Overlay Push Ast Builder BuilderFacts Lowering.

#[local] Open Scope build_scope.

(** ** Errors *)

Lemma try_bind_inr {A B} (x : result A) (f : A → result B) b : try_bind x f = inr b ↔ ∃ a, x = inr a ∧ f a = inr b.
Proof. destruct x; cbn; naive_solver. Qed.

Lemma try_map_inr {A B} (f : A → result B) l ys : try_map f l = inr ys ↔ Forall2 (λ x y, f x = inr y) l ys.
Proof.
  revert ys. induction l as [|x l IH]; intros ys; cbn [try_map].
  - split; [by intros [= <-]; constructor|]. by inversion 1.
  - rewrite try_bind_inr. setoid_rewrite try_bind_inr. split.
    + intros (y & Hy & ys' & Hys & [= <-]). constructor; [done|]. by apply IH.
    + inversion 1 as [|? y ? ys' Hy Hys]; subst. exists y. split; [done|]. exists ys'. split; [by apply IH|done].
Qed.

Lemma ok_Some {A} (x : result A) a : ok x = Some a ↔ x = inr a.
Proof. destruct x; cbn; naive_solver. Qed.

Lemma position_spec {A} (p : A → bool) l i : Schema.position p l = Some i ↔
  (∃ x, l !! i = Some x ∧ p x = true) ∧ ∀ j x, j < i → l !! j = Some x → p x = false.
Proof.
  revert i. induction l as [|x l IH]; intros i; cbn [Schema.position].
  { split; [done|]. by intros [(? & [=] & _) _]. }
  destruct (p x) eqn:E.
  - split.
    + intros [= <-]. split; [by exists x|]. intros j y ?. lia.
    + intros [_ H]. destruct i as [|i]; [done|]. by rewrite (H 0 x) in E by (lia || done).
  - destruct i as [|i].
    + split; [by intros (? & ? & ?)%fmap_Some|]. intros [(y & [= <-] & Hy) _]. by rewrite E in Hy.
    + rewrite fmap_Some. setoid_rewrite IH. split.
      * intros (k & [(y & Hy & Hp) H] & [= <-]). split; [by exists y|]. intros [|j] z Hj Hz; [by injection Hz as <-|]. apply (H j); [lia|done].
      * intros [(y & Hy & Hp) H]. exists i. split; [|done]. split; [by exists y|]. intros j z Hj Hz. apply (H (S j)); [lia|done].
Qed.

Lemma col_id_spec s n i : col_id s n = Some i → columns s !! i = Some n.
Proof. intros [(x & Hx & Hp) _]%position_spec. apply bool_decide_eq_true in Hp. by subst. Qed.

Lemma lower_col_inr s n i : lower_col_id s n = inr i ↔ col_id s n = Some i.
Proof. unfold lower_col_id. destruct (col_id s n); cbn; naive_solver. Qed.

(** A row of the table. *)
Definition row_of (schema : Schema) (r : row) : Prop := length r = length (columns schema).

Lemma col_cell schema r n i : row_of schema r → col_id schema n = Some i → ∃ v, r !! i = Some v.
Proof. intros Hr Hi%col_id_spec%lookup_lt_Some. apply lookup_lt_is_Some_2. by rewrite Hr. Qed.

(** ** Numbers *)

(** A number is lowered to the integer it equals, when there is one among the 64-bit
    integers, and else stays a float; only [-0.0], which no integer ties with, becomes
    the integer zero. *)
Theorem number_to_owned_exact (n : f64) :
  number_to_owned n = match float_int_class n with
                      | Some i => Int (i64_of_Z i)
                      | None => if (f64_val n =? 0)%Z && f64_is_sign_negative n && f64_is_finite n then Int (i64_of_Z 0) else Float n
                      end.
Proof.
  unfold number_to_owned, f64_integral, float_int_class.
  destruct (f64_is_finite n) eqn:Hfin; cbn [andb orb negb]; [|by rewrite andb_false_r].
  destruct (Z.eqb_spec (f64_val n) 0) as [H0|H0]; cbn [andb].
  - assert (f64_trunc_val n = f64_val n) as -> by (unfold f64_trunc_val; rewrite H0; done). rewrite Z.eqb_refl, H0.
    cbn [andb orb negb]. change (- two_pow_63 <=? 0)%Z with true. change (0 <? two_pow_63)%Z with true. cbn [andb].
    by destruct (f64_is_sign_negative n).
  - destruct (f64_trunc_val n =? f64_val n)%Z; cbn [andb orb negb]; [|done].
    by destruct ((- two_pow_63 <=? f64_val n)%Z && (f64_val n <? two_pow_63)%Z).
Qed.

(** ** A leaf *)

Definition lit_of (l : Lit) : value := default Null (ok (lit_to_scalar l)).

Definition like_true (ci : bool) (v : value) (l : Lit) : Prop :=
  ∃ pat text, l = LitStr pat ∧ (v = Str text ∨ v = Json text) ∧ like ci pat text.

(** When SQL answers TRUE: [IS] also of nulls; no other comparison with a null is true,
    a null among the values of an [IN] being one that nothing equals. *)
Definition leaf_true (op : Op) (v : value) (l : Lit) : Prop :=
  match op with
  | OpIs => values_identical v (lit_of l) = true
  | OpIsNot => values_identical v (lit_of l) = false
  | _ =>
      v ≠ Null ∧ l ≠ LitNull ∧
      match op with
      | OpEq => compare_predicate_values v (lit_of l) = Eq
      | OpNe => compare_predicate_values v (lit_of l) ≠ Eq
      | OpLt => compare_predicate_values v (lit_of l) = Lt
      | OpLe => compare_predicate_values v (lit_of l) ≠ Gt
      | OpGt => compare_predicate_values v (lit_of l) = Gt
      | OpGe => compare_predicate_values v (lit_of l) ≠ Lt
      | OpIn => ∃ items e, l = LitArray items ∧ e ∈ items ∧ compare_predicate_values (lit_of e) v = Eq
      | OpNotIn => ∀ items e, l = LitArray items → e ∈ items → compare_predicate_values (lit_of e) v ≠ Eq
      | OpLike => like_true false v l
      | OpNotLike => ¬ like_true false v l
      | OpILike => like_true true v l
      | OpNotILike => ¬ like_true true v l
      | OpIs | OpIsNot => True
      end
  end.

(** What a side of a comparison stands for in a row. *)
Definition position_value (schema : Schema) (r : row) (p : ValuePosition) : option value :=
  match p with
  | PosColumn n => c ← col_id schema n; r !! c
  | PosLiteral l => ok (lit_to_scalar l)
  end.

Definition simple_true (schema : Schema) (r : row) (c : SimpleCondition) : Prop :=
  ∃ v l, position_value schema r (sc_left c) = Some v ∧ sc_right c = PosLiteral l ∧ leaf_true (sc_op c) v l.

Lemma scalar_lit l v : lit_to_scalar l = inr v → lit_of l = v ∧ (is_null v = true ↔ l = LitNull).
Proof.
  unfold lit_of. intros H. rewrite H. split; [done|]. destruct l; cbn in H; simplify_eq; try done.
  unfold number_to_owned. by destruct (_ && _).
Qed.

Lemma is_null_true v : is_null v = true ↔ v = Null.
Proof. by destruct v. Qed.

Lemma like_eval ci pat v :
  ∃ b, match v with Str t | Json t => matches (compile_with_case pat ci) t | _ => Some false end = Some b ∧
    (b = true ↔ like_true ci v (LitStr pat)).
Proof.
  assert (∀ t, ∃ b, matches (compile_with_case pat ci) t = Some b ∧ (b = true ↔ like ci pat t)) as Hm.
  { intros t. destruct (matches_spec (compile_with_case pat ci) t) as (b & Hb & Ht). exists b. split; [done|]. rewrite Ht.
    cbn [compile_with_case toks case_insensitive]. rewrite (compile_loop_spec ci (length pat)) by done. unfold then_like. cbn [flush].
    setoid_rewrite toks_match_nil. split; [by intros (? & t' & -> & -> & ?)|]. intros H. by exists [], t. }
  unfold like_true. destruct v as [| |x|x|x|t|t]; try (exists false; split; [done|]; split; [done|]; by intros (? & ? & _ & [?|?] & _)).
  - destruct (Hm t) as (b & -> & Hb). exists b. split; [done|]. rewrite Hb. split; [intros H; by exists pat, t; auto|].
    intros (p & t' & [= <-] & [[= <-]|[=]] & HL). done.
  - destruct (Hm t) as (b & -> & Hb). exists b. split; [done|]. rewrite Hb. split; [intros H; by exists pat, t; auto|].
    intros (p & t' & [= <-] & [[=]|[= <-]] & HL). done.
Qed.

Lemma contains_iff items set v :
  Forall2 (λ l w, lit_to_scalar l = inr w) items set →
  contains set v = true ↔ ∃ e, e ∈ items ∧ compare_predicate_values (lit_of e) v = Eq.
Proof.
  induction 1 as [|l w items set Hl _ IH]; cbn [contains existsb].
  { split; [done|]. by intros (e & He%elem_of_nil & _). }
  apply scalar_lit in Hl as [Hl _]. unfold contains in *. cbn [existsb]. rewrite orb_true_iff, IH, values_identical_eq, is_eq_true.
  setoid_rewrite elem_of_cons. split.
  - intros [H|(e & He & H)]; [exists l; rewrite Hl; auto|exists e; auto].
  - intros (e & [->|He] & H); [left; by rewrite <-Hl|right; eauto].
Qed.

(** A comparison other than [IS], read on a cell. *)
Lemma lower_op_true op col l p r v :
  lower_op op col l = inr p → l ≠ LitNull → r !! col = Some v → match op with OpIs | OpIsNot => False | _ => True end →
  ∃ b, eval p r = Some b ∧ (b = true ↔ leaf_true op v l).
Proof.
  intros Hp Hl Hv Hop.
  assert (∀ b q, eval p r = (if is_null v then Some false else Some b) → (is_null v = false → b = true ↔ q) →
    ∃ b, eval p r = Some b ∧ (b = true ↔ v ≠ Null ∧ l ≠ LitNull ∧ q)) as Hnull.
  { intros b q He Hb. rewrite He. destruct (is_null v) eqn:Hn.
    - exists false. split; [done|]. split; [done|]. apply is_null_true in Hn. naive_solver.
    - exists b. split; [done|]. rewrite Hb by done. split; [|tauto]. intros Hq. split_and!; [|done|done]. intros ->. done. }
  destruct op; try done; cbn [lower_op leaf_true] in *.
  1-6: apply try_bind_inr in Hp as (w & Hw & [= <-]); destruct (scalar_lit l w Hw) as [Hlw Hnw]; rewrite Hlw;
    assert (is_null w = false) as Hwn by (destruct (is_null w); [by destruct Hl; apply Hnw|done]);
    (eapply Hnull; [cbn [eval]; rewrite Hv; cbn [mbind option_bind]; rewrite ?Hwn; reflexivity|]); intros _;
    rewrite ?values_identical_eq; destruct (compare_predicate_values v w); cbn; naive_solver.
  - destruct l as [| | | |pat|]; cbn [like_pred] in Hp; simplify_eq. destruct (like_eval false pat v) as (b & Hb & Hiff).
    apply (Hnull b); [|done]. cbn [eval]. rewrite Hv. cbn [mbind option_bind]. unfold compile. rewrite Hb. cbn. by destruct b.
  - destruct l as [| | | |pat|]; cbn [like_pred] in Hp; simplify_eq. destruct (like_eval false pat v) as (b & Hb & Hiff).
    apply (Hnull (negb b)); [|by intros _; rewrite <-Hiff; destruct b]. cbn [eval]. rewrite Hv. cbn [mbind option_bind]. unfold compile. rewrite Hb. cbn. by destruct b.
  - destruct l as [| | | |pat|]; cbn [ilike_pred] in Hp; simplify_eq. destruct (like_eval true pat v) as (b & Hb & Hiff).
    apply (Hnull b); [|done]. cbn [eval]. rewrite Hv. cbn [mbind option_bind]. unfold compile_case_insensitive. rewrite Hb. cbn. by destruct b.
  - destruct l as [| | | |pat|]; cbn [ilike_pred] in Hp; simplify_eq. destruct (like_eval true pat v) as (b & Hb & Hiff).
    apply (Hnull (negb b)); [|by intros _; rewrite <-Hiff; destruct b]. cbn [eval]. rewrite Hv. cbn [mbind option_bind]. unfold compile_case_insensitive. rewrite Hb. cbn. by destruct b.
  - destruct l as [| | | | |items]; cbn [in_pred] in Hp; simplify_eq. apply try_bind_inr in Hp as (set & Hset%try_map_inr & [= <-]).
    eapply Hnull; [cbn [eval]; rewrite Hv; cbn [mbind option_bind]; reflexivity|]. intros _. rewrite xorb_false_r, (contains_iff items) by done.
    split; [intros (e & ? & ?); by exists items, e|intros (? & e & [= <-] & ? & ?); by exists e].
  - destruct l as [| | | | |items]; cbn [in_pred] in Hp; simplify_eq. apply try_bind_inr in Hp as (set & Hset%try_map_inr & [= <-]).
    eapply Hnull; [cbn [eval]; rewrite Hv; cbn [mbind option_bind]; reflexivity|]. intros _. rewrite xorb_true_r, negb_true_iff, <-not_true_iff_false, (contains_iff items) by done.
    split; [intros H ? e [= <-] He Hc; by apply H; exists e|intros H (e & He & Hc); by apply (H items e)].
Qed.

Lemma identical_null v : values_identical v Null = is_null v.
Proof. by destruct v. Qed.

Lemma leaf_null op v l : l = LitNull ∨ v = Null → match op with OpIs | OpIsNot => False | _ => True end → ¬ leaf_true op v l.
Proof. destruct op; cbn [leaf_true]; intros [->| ->] ?; try done; by intros (? & ? & ?). Qed.

Lemma is_null_lit l : is_lit_null l = true ↔ l = LitNull.
Proof. by destruct l. Qed.

Lemma predicate_correct cond schema p r :
  create_predicate cond schema = inr p → row_of schema r → ∃ b, eval p r = Some b ∧ (b = true ↔ simple_true schema r cond).
Proof.
  destruct cond as [op lhs rhs]. unfold create_predicate, simple_true. cbn [sc_right sc_left sc_op]. destruct rhs as [l|]; [|done].
  intros Hp Hr.
  assert (∀ Q : Prop, (∃ v l0, position_value schema r lhs = Some v ∧ PosLiteral l = PosLiteral l0 ∧ leaf_true op v l0) ↔
    ∃ v, position_value schema r lhs = Some v ∧ leaf_true op v l) as Heq by naive_solver.
  setoid_rewrite (Heq True). clear Heq.
  assert (∀ v, position_value schema r lhs = Some v → ∀ b, (b = true ↔ leaf_true op v l) →
    (b = true ↔ ∃ v, position_value schema r lhs = Some v ∧ leaf_true op v l)) as Hval.
  { intros v Hv b Hb. rewrite Hb, Hv. naive_solver. }
  destruct (match op with OpIs | OpIsNot => true | _ => false end) eqn:Eop.
  - (* IS and IS NOT *)
    assert (∃ neg : bool, (op = if neg then OpIsNot else OpIs) ∧
      (rhs0 ← ok (lit_to_scalar l); match lhs with
        | PosColumn n => col ← col_id schema n; Some (if is_lit_null l then PIsNull col neg else PIs col rhs0 neg)
        | PosLiteral v => w ← ok (lit_to_scalar v); Some (PConst (xorb (values_identical w rhs0) neg)) end) = Some p) as (neg & -> & Hp').
    { destruct op; try done; [exists false|exists true]; (split; [done|]);
        apply try_bind_inr in Hp as (w & -> & Hp); cbn [ok mbind option_bind]; destruct lhs as [v|n]; apply try_bind_inr in Hp as (x & Hx & [= <-]);
        [rewrite Hx|apply lower_col_inr in Hx as ->|rewrite Hx|apply lower_col_inr in Hx as ->]; done. }
    clear Hp. apply bind_Some in Hp' as (w & Hw%ok_Some & Hp'). destruct (scalar_lit l w Hw) as [Hlw Hnw].
    assert (∀ v, leaf_true (if neg then OpIsNot else OpIs) v l ↔ xorb (values_identical v w) neg = true) as Htrue.
    { intros v. destruct neg; cbn [leaf_true]; rewrite Hlw; by destruct (values_identical v w). }
    destruct lhs as [v|n]; apply bind_Some in Hp' as (x & Hx & [= <-]).
    + eexists. split; [done|]. apply (Hval x); [done|]. by rewrite Htrue.
    + destruct (col_cell schema r n x Hr Hx) as [v Hv]. assert (position_value schema r (PosColumn n) = Some v) as Hpos by (cbn; by rewrite Hx).
      destruct (is_lit_null l) eqn:Hl; cbn [eval]; rewrite Hv; cbn [mbind option_bind]; (eexists; split; [done|]; apply (Hval v); [done|]); rewrite Htrue; [|done].
      apply is_null_lit in Hl. subst l. cbn in Hw. simplify_eq. by rewrite identical_null.
  - assert (match op with OpIs | OpIsNot => False | _ => True end) as Hop by (by destruct op).
    assert ((if is_lit_null l then inr (PConst false) else
      match lhs with
      | PosLiteral v => if is_lit_null v then inr (PConst false) else
          try! w := lit_to_scalar v in try! _ := guard_ordering_const op w l in try! probe := lower_op op 0 l in
          inr (PConst (default false (eval probe [w])))
      | PosColumn n => try! col := lower_col_id schema n in lower_op op col l
      end) = inr p) as Hp' by (by destruct op). clear Hp.
    assert (∀ v, ¬ leaf_true op v l → ∃ b, eval (PConst false) r = Some b ∧ (b = true ↔ leaf_true op v l)) as Hfalse by (intros v Hv; by exists false).
    destruct (is_lit_null l) eqn:Hl; [apply is_null_lit in Hl; subst l; injection Hp' as <-; exists false; split; [done|]; split; [done|];
      intros (v & _ & Ht); by destruct (leaf_null op v LitNull (or_introl eq_refl) Hop)|].
    assert (l ≠ LitNull) as Hl' by (by intros ->).
    destruct lhs as [v|n].
    + destruct (is_lit_null v) eqn:Hv.
      { apply is_null_lit in Hv. subst v. injection Hp' as <-. exists false. split; [done|]. split; [done|].
        intros (v & [= <-] & Ht). by destruct (leaf_null op Null l (or_intror eq_refl) Hop). }
      apply try_bind_inr in Hp' as (w & Hw & Hp'). apply try_bind_inr in Hp' as (u & _ & Hp'). apply try_bind_inr in Hp' as (probe & Hprobe & [= <-]).
      destruct (lower_op_true op 0 l probe [w] w Hprobe Hl' eq_refl Hop) as (b & He & Hb). rewrite He. exists b. split; [done|].
      apply (Hval w); [|done]. cbn. by rewrite Hw.
    + apply try_bind_inr in Hp' as (col & Hcol%lower_col_inr & Hp'). destruct (col_cell schema r n col Hr Hcol) as [v Hv].
      destruct (lower_op_true op col l p r v Hp' Hl' Hv Hop) as (b & He & Hb). exists b. split; [done|]. apply (Hval v); [|done]. cbn. by rewrite Hcol.
Qed.


(** ** A tree of leaves *)

(** The truth of a leaf that can be lowered. *)
Definition leaf_holds (schema : Schema) (r : row) (c : SimpleCondition) : bool :=
  default false (p ← ok (create_predicate c schema); eval p r).

Lemma row_predicate_holds schema gate c f :
  create_row_predicate schema c = inr f → subquery_free c = true ∧ ∀ r, f r = holds (leaf_holds schema r) gate c.
Proof.
  assert (∀ cs fs, Forall (λ c, ∀ f, create_row_predicate schema c = inr f → subquery_free c = true ∧ ∀ r, f r = holds (leaf_holds schema r) gate c) cs →
    Forall2 (λ c f, create_row_predicate schema c = inr f) cs fs → forallb subquery_free cs = true ∧
    ∀ r is_and, all_or_any is_and (λ p : RowPredicate, p r) fs = all_or_any is_and (holds (leaf_holds schema r) gate) cs) as Hlist.
  { intros cs fs HF H. induction H as [|c1 f0 cs fs Hc _ IH]; [split; [done|]; by intros r []|].
    apply Forall_cons in HF as [Hf HF]. destruct (Hf f0 Hc) as [Hs Hh]. destruct (IH HF) as [Hss Hhs]. split; [cbn; by rewrite Hs, Hss|].
    intros r is_and. specialize (Hhs r is_and). destruct is_and; cbn in *; by rewrite Hh, Hhs. }
  revert f. induction c as [s|cs IH|cs IH|q] using condition_ind'; intros f; cbn [create_row_predicate]; [| | |done].
  - intros (p & Hp & [= <-])%try_bind_inr. split; [done|]. intros r. cbn [holds]. unfold leaf_holds. by rewrite Hp.
  - intros (fs & Hfs%try_map_inr & [= <-])%try_bind_inr. destruct (Hlist cs fs IH Hfs) as [Hs Hh]. split; [done|]. intros r. apply (Hh r true).
  - intros (fs & Hfs%try_map_inr & [= <-])%try_bind_inr. destruct (Hlist cs fs IH Hfs) as [Hs Hh]. split; [done|]. intros r. apply (Hh r false).
Qed.

(** ** Guards *)

Lemma identical_sym a b : values_identical a b = values_identical b a.
Proof.
  rewrite !values_identical_eq, (cmp_opp (cmp := compare_predicate_values) a b). by destruct (compare_predicate_values a b).
Qed.

Lemma identical_trans a b c : values_identical a b = true → values_identical b c = true → values_identical a c = true.
Proof.
  rewrite !values_identical_eq, !is_eq_true. intros H1 H2. by rewrite (cmp_eq_l a b c).
Qed.

Lemma identical_refl a : values_identical a a = true.
Proof. rewrite values_identical_eq, is_eq_true. apply cmp_refl. Qed.

Lemma dedup_spec values v : v ∈ values → ∃ u, u ∈ dedup_guard_values values ∧ values_identical u v = true.
Proof.
  assert (∀ vs out, (∀ u, u ∈ out → u ∈ foldl (λ out v, if existsb (λ u, values_identical u v) out then out else out ++ [v]) out vs) ∧
    ∀ v, v ∈ vs → ∃ u, u ∈ foldl (λ out v, if existsb (λ u, values_identical u v) out then out else out ++ [v]) out vs ∧ values_identical u v = true) as H.
  { induction vs as [|x vs IH]; intros out; cbn [foldl]; [split; [done|by intros ? ?%elem_of_nil]|].
    destruct (IH (if existsb (λ u, values_identical u x) out then out else out ++ [x])) as [Hk Hv]. split.
    - intros u Hu. apply Hk. destruct (existsb _ out); [done|]. apply elem_of_app. by left.
    - intros v' [->|Hv']%elem_of_cons; [|by apply Hv]. destruct (existsb _ out) eqn:E.
      + apply existsb_exists in E as (u & Hu%list_elem_of_In & He). exists u. split; [by apply Hk|done].
      + exists x. split; [|apply identical_refl]. apply Hk, elem_of_app. right. by left. }
  intros Hv. by destruct (H values []) as [_ Hw]; apply Hw.
Qed.

(** A value of the guard is in the guarded cell. *)
Definition guarded (g : PushGuard) (r : row) : Prop :=
  ∃ v w, r !! guard_col g = Some v ∧ w ∈ guard_values g ∧ values_identical w v = true.

Lemma simple_guard_sound schema r sc g : extract_simple_guard sc schema = Some g → leaf_holds schema r sc = true → guarded g r.
Proof.
  destruct sc as [op lhs rhs]. unfold extract_simple_guard, leaf_holds, create_predicate. cbn [sc_left sc_right sc_op].
  destruct lhs as [|n]; [done|]. destruct rhs as [l|]; [|done]. unfold lower_col_id.
  destruct (col_id schema n) as [col|] eqn:Ecol; [|done]. cbn [mbind option_bind ok_or].
  assert (∀ w v, r !! col = Some v → values_identical v w = true → guarded (MkGuard col [w]) r) as Hone.
  { intros w v Hv Hw. exists v, w. split; [done|]. split; [by left|]. by rewrite identical_sym. }
  destruct op; try done.
  - destruct (is_lit_null l); [by intros _ ?|]. cbn [try_bind lower_op]. destruct (lit_to_scalar l) as [|w] eqn:Hw; [done|].
    cbn [ok mbind option_bind try_bind eval]. intros [= <-]. destruct (r !! col) as [v|] eqn:Hv; [|done]. cbn [mbind option_bind].
    destruct (is_null v); [done|]. cbn. by apply Hone.
  - destruct (lit_to_scalar l) as [|w] eqn:Hw; [done|]. cbn [ok mbind option_bind try_bind]. intros [= <-].
    destruct (is_lit_null l) eqn:Hl; cbn [eval]; (destruct (r !! col) as [v|] eqn:Hv; [|done]); cbn [mbind option_bind default from_option]; rewrite xorb_false_r.
    + intros Hn. apply (Hone w v); [done|]. apply is_null_lit in Hl. subst l. cbn in Hw. simplify_eq. by rewrite identical_null.
    + by apply Hone.
  - destruct l as [| | | | |items]; try done. cbn [is_lit_null try_bind lower_op in_pred]. destruct (try_map lit_to_scalar items) as [|set] eqn:Hset; [done|].
    cbn [ok mbind option_bind try_bind eval]. intros [= <-]. destruct (r !! col) as [v|] eqn:Hv; [|done]. cbn [mbind option_bind].
    destruct (is_null v); [done|]. cbn [default from_option]. rewrite xorb_false_r. intros (u & Hu%list_elem_of_In & Huv)%existsb_exists.
    destruct (dedup_spec set u Hu) as (w & Hw & Hwu). exists v, w. split; [done|]. split; [done|]. by eapply identical_trans.
Qed.

Lemma smallest_guard_in gs best g : foldl smallest_guard best gs = Some g → best = Some g ∨ g ∈ gs.
Proof.
  revert best. induction gs as [|x gs IH]; intros best; cbn [foldl]; [by left|]. intros [H|H]%IH; [|right; by right].
  unfold smallest_guard in H. destruct best as [b|]; [destruct (_ <? _)|]; simplify_eq; [right; by left|by left|right; by left].
Qed.

Definition union_guards (schema : Schema) := fix go (cs : list Condition) (acc : option nat * list value) :=
  match cs with
  | [] => Some acc
  | c :: cs => g ← extract_push_guard schema c; acc ← union_guard acc g; go cs acc
  end.

Lemma union_guards_spec schema cs acc res :
  union_guards schema cs acc = Some res →
  acc.2 ⊆ res.2 ∧ (∀ k, acc.1 = Some k → res.1 = Some k) ∧
  ∀ c, c ∈ cs → ∃ g, extract_push_guard schema c = Some g ∧ (guard_values g ≠ [] → res.1 = Some (guard_col g) ∧ guard_values g ⊆ res.2).
Proof.
  revert acc. induction cs as [|c cs IH]; intros acc; cbn [union_guards].
  { intros [= <-]. split_and!; [done|done|by intros ? ?%elem_of_nil]. }
  destruct (extract_push_guard schema c) as [g|] eqn:Hg; [|done]. cbn [mbind option_bind].
  destruct (union_guard acc g) as [acc'|] eqn:Hu; [|done]. cbn [mbind option_bind]. intros (Hs & Hk & Hall)%IH.
  assert (acc.2 ⊆ acc'.2 ∧ (∀ k, acc.1 = Some k → acc'.1 = Some k) ∧
    (guard_values g ≠ [] → acc'.1 = Some (guard_col g) ∧ guard_values g ⊆ acc'.2)) as (Hs' & Hk' & Hg').
  { unfold union_guard in Hu. destruct (guard_values g) as [|v vs] eqn:Hv; [by simplify_eq|].
    destruct (acc.1) as [k|] eqn:Ek.
    - destruct (Nat.eqb_spec k (guard_col g)) as [->|]; [|done]. simplify_eq. cbn. split_and!; [|done|]; [by apply list_subseteq_app_l|].
      intros _. split; [done|]. by apply list_subseteq_app_r.
    - simplify_eq. cbn. split_and!; [by apply list_subseteq_app_l|done|]. intros _. split; [done|]. by apply list_subseteq_app_r. }
  split_and!; [by etrans|auto|]. intros c' [->|Hc']%elem_of_cons; [|by apply Hall].
  exists g. split; [done|]. intros Hne. destruct (Hg' Hne) as [Hc Hv]. split; [by apply Hk|by etrans].
Qed.

Lemma guard_sound schema r gate c g :
  extract_push_guard schema c = Some g → holds (leaf_holds schema r) gate c = true → guarded g r.
Proof.
  revert g. induction c as [s|cs IH|cs IH|q] using condition_ind'; intros g; cbn [extract_push_guard holds]; [| | |done].
  - apply simple_guard_sound.
  - rewrite forallb_forall. intros [[=]|Hg]%smallest_guard_in Hall.
    apply list_elem_of_In, in_flat_map in Hg as (c & Hc & Hg). destruct (extract_push_guard schema c) as [g'|] eqn:Eg; [|done].
    destruct Hg as [->|[]]. rewrite Forall_forall in IH. apply (IH c); [by apply list_elem_of_In|done|by apply Hall].
  - fold (union_guards schema). intros ([col u] & Hu & Hg)%bind_Some (c & Hc%list_elem_of_In & Hh)%existsb_exists. injection Hg as <-.
    destruct (union_guards_spec _ _ _ _ Hu) as (_ & _ & Hall). destruct (Hall c Hc) as (g' & Eg & Hg').
    rewrite Forall_forall in IH. destruct (IH c Hc g' Eg Hh) as (v & w & Hv & Hw & Hvw).
    destruct Hg' as [Hcol Hsub]; [by intros E; rewrite E in Hw; apply elem_of_nil in Hw|]. cbn [fst snd] in *.
    destruct (dedup_spec u w (Hsub w Hw)) as (w' & Hw' & Hww). exists v, w'. cbn [guard_col guard_values]. rewrite Hcol.
    split; [done|]. split; [done|]. by eapply identical_trans.
Qed.

(** ** Constraints *)

Lemma identical_equal v w : values_identical v w = true → present v = true → values_equal v w = Some true.
Proof.
  intros H Hv. apply values_equal_true. rewrite values_identical_eq, is_eq_true in H. split; [done|].
  by destruct v, w.
Qed.

Definition pair_holds (r : row) (e : nat * value) : Prop := ∃ v, r !! e.1 = Some v ∧ values_equal v e.2 = Some true.

Lemma pairs_match r cs : (∀ e, e ∈ cs → pair_holds r e) → constraint_matches r cs = Some true.
Proof.
  intros H. unfold constraint_matches. apply try_all_true, Forall_forall. intros e He. destruct (H e He) as (v & -> & Hv). by cbn.
Qed.

Lemma simple_eq_sound schema r sc e : e ∈ simple_eq_constraint sc schema → leaf_holds schema r sc = true → pair_holds r e.
Proof.
  destruct sc as [op lhs rhs]. unfold simple_eq_constraint, leaf_holds, create_predicate. cbn [sc_left sc_right sc_op].
  destruct op, lhs as [|n], rhs as [l|]; try (by intros ?%elem_of_nil). unfold lower_col_id.
  destruct (is_lit_null l) eqn:Hl; [by intros ?%elem_of_nil|]. destruct (col_id schema n) as [col|]; [|by intros ?%elem_of_nil].
  cbn [ok_or try_bind lower_op]. destruct (lit_to_scalar l) as [|w] eqn:Hw; [by intros ?%elem_of_nil|].
  cbn [ok try_bind mbind option_bind eval]. intros ->%list_elem_of_singleton. destruct (r !! col) as [v|] eqn:Hv; [|done]. cbn [mbind option_bind].
  destruct (is_null v) eqn:Hn; [done|]. cbn [default from_option]. intros Hi. exists v. split; [done|]. cbn [snd]. apply identical_equal; [done|].
  destruct v; try done. destruct l; cbn in Hw; simplify_eq; try done. unfold number_to_owned in Hi. by destruct (_ && _).
Qed.

Lemma add_constraints_in ps out e : e ∈ foldl add_constraint out ps → e ∈ out ∨ e ∈ ps.
Proof.
  revert out. induction ps as [|p ps IH]; intros out; cbn [foldl]; [by left|]. intros [H|H]%IH; [|right; by right].
  unfold add_constraint in H. destruct (existsb _ out); [by left|]. apply elem_of_app in H as [H|H]; [by left|].
  apply list_elem_of_singleton in H. subst. right. by left.
Qed.

Lemma and_constraints_in (f : Condition → Constraint) cs out e :
  e ∈ foldl (λ out c, foldl add_constraint out (f c)) out cs → e ∈ out ∨ ∃ c, c ∈ cs ∧ e ∈ f c.
Proof.
  revert out. induction cs as [|c cs IH]; intros out; cbn [foldl]; [by left|]. intros [H|(c' & Hc & H)]%IH.
  - apply add_constraints_in in H as [H|H]; [by left|]. right. exists c. split; [by left|done].
  - right. exists c'. split; [by right|done].
Qed.

Lemma or_constraints_in (f : Condition → Constraint) cs acc e :
  e ∈ foldl (λ acc c, match acc with [] => [] | _ => retain_common acc (f c) end) acc cs →
  e ∈ acc ∧ ∀ c, c ∈ cs → ∃ e', e' ∈ f c ∧ e'.1 = e.1 ∧ values_identical e.2 e'.2 = true.
Proof.
  revert acc. induction cs as [|c cs IH]; intros acc; cbn [foldl]; [intros H; split; [done|by intros ? ?%elem_of_nil]|].
  assert (match acc with [] => [] | _ => retain_common acc (f c) end = retain_common acc (f c)) as -> by (by destruct acc).
  intros [He Hall]%IH. unfold retain_common in He. apply list_elem_of_In, filter_In in He as [He Hm].
  apply existsb_exists in Hm as (e' & He' & [Hc%Nat.eqb_eq Hv]%andb_true_iff).
  split; [by apply list_elem_of_In|]. intros c' [->|Hc']%elem_of_cons; [|by apply Hall]. exists e'. split; [by apply list_elem_of_In|done].
Qed.

Lemma pushable_pairs schema r gate c e : e ∈ pushable_constraint schema c → holds (leaf_holds schema r) gate c = true → pair_holds r e.
Proof.
  revert e. induction c as [s|cs IH|cs IH|q] using condition_ind'; intros e; cbn [pushable_constraint holds]; [| | |by intros ?%elem_of_nil].
  - apply simple_eq_sound.
  - rewrite forallb_forall, Forall_forall in *. intros [H%elem_of_nil|(c & Hc & He)]%and_constraints_in Hall; [done|].
    apply (IH c Hc e He). by apply Hall, list_elem_of_In.
  - destruct cs as [|c0 cs]; [by intros ?%elem_of_nil|]. rewrite Forall_forall in IH. intros [He0 Hall]%or_constraints_in (c & Hc & Hh)%existsb_exists.
    apply list_elem_of_In in Hc. apply elem_of_cons in Hc as [->|Hc]; [by apply (IH c0); [left|..]|].
    destruct (Hall c Hc) as (e' & He' & Hcol & Hv). destruct (IH c ltac:(by right) e' He' Hh) as (v & Hr & Heq).
    exists v. rewrite <-Hcol. split; [done|]. apply values_equal_true in Heq as (H1 & _ & _ & H4). apply identical_equal; [|done].
    rewrite identical_sym. eapply identical_trans; [exact Hv|]. by rewrite identical_sym, values_identical_eq, is_eq_true.
Qed.

(** [C39] The constraint pushed into a fetch for a condition holds of every row of which
    the condition is true, whatever its subqueries say: pushing it loses no row. *)
Theorem pushable_constraint_sound (schema : Schema) (r : row) (gate : CsqCondition → bool) (c : Condition) :
  holds (leaf_holds schema r) gate c = true → constraint_matches r (pushable_constraint schema c) = Some true.
Proof. intros H. apply pairs_match. intros e He. by eapply pushable_pairs. Qed.

(** ** Columns *)

(** Two rows with the same cells in some columns. *)
Definition agree (cols : list nat) (r r' : row) : Prop := ∀ c, c ∈ cols → r !! c = r' !! c.

Lemma eval_agree p r r' : r !! predicate_col p = r' !! predicate_col p → eval p r = eval p r'.
Proof. destruct p; cbn [eval predicate_col]; intros H; by rewrite ?H. Qed.

Lemma lower_op_col op col l p : lower_op op col l = inr p → predicate_col p = col.
Proof.
  destruct op; cbn [lower_op]; try done; unfold like_pred, ilike_pred, in_pred; try (destruct l; try done; by intros [= <-]);
    try (by intros (w & _ & [= <-])%try_bind_inr).
  all: destruct l; try done; by intros (w & _ & [= <-])%try_bind_inr.
Qed.

(** A leaf reads the column it names, if any. *)
Lemma leaf_reads schema c r r' :
  (∀ n i, sc_left c = PosColumn n → col_id schema n = Some i → r !! i = r' !! i) → leaf_holds schema r c = leaf_holds schema r' c.
Proof.
  intros H. unfold leaf_holds. destruct (create_predicate c schema) as [|p] eqn:Hp; [done|]. cbn [ok mbind option_bind]. f_equal.
  assert ((∃ b, p = PConst b) ∨ ∃ n i, sc_left c = PosColumn n ∧ col_id schema n = Some i ∧ predicate_col p = i) as [[b ->]|(n & i & Hn & Hi & Hc)];
    [|done|apply eval_agree; rewrite Hc; by eapply H].
  clear H. destruct c as [op lhs rhs]. unfold create_predicate in Hp. cbn [sc_right sc_left sc_op] in *. destruct rhs as [l|]; [|done].
  assert (∀ k, match lhs with
      | PosLiteral v => if is_lit_null v then inr (PConst false) else
          try! w := lit_to_scalar v in try! _ := guard_ordering_const op w l in try! probe := lower_op op 0 l in
          inr (PConst (default false (eval probe [w])))
      | PosColumn n => try! col := lower_col_id schema n in lower_op op col l
      end = inr k → (∃ b, k = PConst b) ∨ ∃ n i, lhs = PosColumn n ∧ col_id schema n = Some i ∧ predicate_col k = i) as Hgen.
  { intros k. destruct lhs as [v|n].
    - destruct (is_lit_null v); [by intros [= <-]; left; eexists|]. intros (w & _ & (u & _ & (q & _ & [= <-])%try_bind_inr)%try_bind_inr)%try_bind_inr.
      left. by eexists.
    - intros (i & Hi%lower_col_inr & Hk%lower_op_col)%try_bind_inr. right. by exists n, i. }
  destruct op; try (destruct (is_lit_null l); [injection Hp as <-; left; by eexists|by apply Hgen]).
  all: apply try_bind_inr in Hp as (w & _ & Hp); destruct lhs as [v|n];
    [apply try_bind_inr in Hp as (x & _ & [= <-]); left; by eexists|];
    apply try_bind_inr in Hp as (i & Hi%lower_col_inr & [= <-]); right; exists n, i; (split; [done|]); (split; [done|]); by destruct (is_lit_null l).
Qed.

Lemma push_unique_in cols c : (∀ d, d ∈ push_unique cols c ↔ d ∈ cols ∨ d = c) ∧ (NoDup cols → NoDup (push_unique cols c)).
Proof.
  unfold push_unique. destruct (existsb (Nat.eqb c) cols) eqn:E.
  - apply existsb_exists in E as (d & Hd%list_elem_of_In & ->%Nat.eqb_eq). split; [|done]. intros d'. split; [by left|]. by intros [| ->].
  - assert (c ∉ cols) as Hc.
    { intros Hc. assert (existsb (Nat.eqb c) cols = true) as H; [|by rewrite H in E]. apply existsb_exists. exists c. split; [by apply list_elem_of_In|apply Nat.eqb_refl]. }
    split.
    + intros d. by rewrite elem_of_app, list_elem_of_singleton.
    + intros Hnd. apply NoDup_app. split_and!; [done| |by apply NoDup_singleton]. intros x Hx ->%list_elem_of_singleton. done.
Qed.

(** A loop that collects columns. *)
Definition collects (cols cols' : list nat) (P : nat → Prop) : Prop :=
  (∀ d, d ∈ cols' ↔ d ∈ cols ∨ P d) ∧ (NoDup cols → NoDup cols').

Lemma collects_refl cols : collects cols cols (λ _, False).
Proof. split; [|done]. intros d. tauto. Qed.

Lemma collects_trans cols1 cols2 cols3 P Q : collects cols1 cols2 P → collects cols2 cols3 Q → collects cols1 cols3 (λ d, P d ∨ Q d).
Proof. intros [H1 N1] [H2 N2]. split; [|auto]. intros d. rewrite H2, H1. tauto. Qed.

Lemma collects_ext cols cols' P Q : collects cols cols' P → (∀ d, P d ↔ Q d) → collects cols cols' Q.
Proof. intros [H N] HPQ. split; [|done]. intros d. by rewrite H, HPQ. Qed.

Lemma push_all_collects {A} (f : A → nat) l cols : collects cols (foldl (λ cols e, push_unique cols (f e)) cols l) (λ d, ∃ e, e ∈ l ∧ f e = d).
Proof.
  revert cols. induction l as [|x l IH]; intros cols; cbn [foldl].
  { eapply collects_ext; [apply collects_refl|]. intros d. split; [done|]. by intros (? & ?%elem_of_nil & _). }
  eapply collects_ext; [eapply collects_trans; [apply (push_unique_in cols (f x))|apply IH]|].
  intros d. cbn beta. setoid_rewrite elem_of_cons. naive_solver.
Qed.

Lemma add_names_collects schema ns cols cols' :
  add_names schema cols ns = inr cols' → collects cols cols' (λ d, ∃ n, n ∈ ns ∧ col_id schema n = Some d).
Proof.
  unfold add_names. revert cols. induction ns as [|n ns IH]; intros cols; cbn [try_for].
  { intros [= <-]. eapply collects_ext; [apply collects_refl|]. intros d. split; [done|]. by intros (? & ?%elem_of_nil & _). }
  intros (c1 & (c & Hc%lower_col_inr & [= <-])%try_bind_inr & Hns%IH)%try_bind_inr.
  eapply collects_ext; [eapply collects_trans; [apply (push_unique_in cols c)|exact Hns]|].
  intros d. cbn beta. setoid_rewrite elem_of_cons. split.
  - intros [->|(m & Hm & Hd)]; [by exists n; auto|by exists m; auto].
  - intros (m & [->|Hm] & Hd); [left; congruence|right; eauto].
Qed.

(** The columns a condition's leaves name. *)
Fixpoint names_column (schema : Schema) (d : nat) (c : Condition) : Prop :=
  match c with
  | Simple sc => ∃ n, (sc_left sc = PosColumn n ∨ sc_right sc = PosColumn n) ∧ col_id schema n = Some d
  | And cs | Or cs => (fix go cs := match cs with [] => False | c :: cs => names_column schema d c ∨ go cs end) cs
  | CorrelatedSub _ => False
  end.

Lemma names_in_list schema d cs :
  (fix go cs := match cs with [] => False | c :: cs => names_column schema d c ∨ go cs end) cs ↔ ∃ c, c ∈ cs ∧ names_column schema d c.
Proof.
  induction cs as [|c cs IH]; [split; [done|by intros (? & ?%elem_of_nil & _)]|]. rewrite IH. setoid_rewrite elem_of_cons. naive_solver.
Qed.

Lemma leaf_columns_collects schema c : ∀ out cols, where_leaf_columns schema c out = inr cols → collects out cols (λ d, names_column schema d c).
Proof.
  assert (∀ cs, Forall (λ c, ∀ out cols, where_leaf_columns schema c out = inr cols → collects out cols (λ d, names_column schema d c)) cs →
    ∀ out cols, (fix go cs out := match cs with [] => inr out | c :: cs => try! out := where_leaf_columns schema c out in go cs out end) cs out = inr cols →
    collects out cols (λ d, (fix go cs := match cs with [] => False | c :: cs => names_column schema d c ∨ go cs end) cs)) as Hlist.
  { induction 1 as [|c1 cs Hc _ IH]; intros out cols; [intros [= <-]; apply collects_refl|].
    intros (out1 & H1 & H2)%try_bind_inr. eapply collects_trans; [by apply Hc|by apply IH]. }
  induction c as [s|cs IH|cs IH|q] using condition_ind'; intros out cols; cbn [where_leaf_columns names_column]; [|by apply Hlist..|].
  - cbn [try_for]. intros (c1 & H1 & (c2 & H2 & [= <-])%try_bind_inr)%try_bind_inr.
    assert (∀ vp out out', match vp with PosColumn n => try! c := lower_col_id schema n in inr (push_unique out c) | PosLiteral _ => inr out end = inr out' →
      collects out out' (λ d, ∃ n, vp = PosColumn n ∧ col_id schema n = Some d)) as Hone.
    { intros [l|n] o o'; [intros [= <-]; eapply collects_ext; [apply collects_refl|]; naive_solver|].
      intros (k & Hk%lower_col_inr & [= <-])%try_bind_inr. eapply collects_ext; [apply (push_unique_in o k)|]. naive_solver. }
    eapply collects_ext; [eapply collects_trans; [apply (Hone _ _ _ H1)|apply (Hone _ _ _ H2)]|]. naive_solver.
  - intros [= <-]. apply collects_refl.
Qed.

Lemma holds_agree schema gate c r r' :
  (∀ d, names_column schema d c → r !! d = r' !! d) → holds (leaf_holds schema r) gate c = holds (leaf_holds schema r') gate c.
Proof.
  induction c as [s|cs IH|cs IH|q] using condition_ind'; cbn [holds names_column]; [| | |done].
  - intros H. apply leaf_reads. intros n i Hn Hi. apply H. exists n. auto.
  - intros H. induction IH as [|c cs Hc _ IH]; [done|]. cbn [forallb]. rewrite Hc by (intros; apply H; by left). rewrite IH; [done|]. intros; apply H; by right.
  - intros H. induction IH as [|c cs Hc _ IH]; [done|]. cbn [existsb]. rewrite Hc by (intros; apply H; by left). rewrite IH; [done|]. intros; apply H; by right.
Qed.

Lemma row_cmp_agree sort q r r' : (∀ e, e ∈ sort → r !! e.1 = r' !! e.1) → row_cmp sort r q = row_cmp sort r' q.
Proof.
  induction sort as [|[c asc] sort IH]; intros H; [done|]. cbn [row_cmp]. pose proof (H (c, asc) ltac:(by left)) as Hc. cbn [fst] in Hc. assert (cell r c = cell r' c) as -> by (unfold cell; by rewrite Hc).
  rewrite IH; [done|]. intros e He. apply H. by right.
Qed.

(** [C40] The required columns of a frame are all it reads, without repetition: the order,
    the correlation fields and the start are among them, and rows that agree on them
    are treated alike by the condition, whatever its subqueries say, and by the
    order. *)
Theorem required_cols_suffice (ast : Ast) (schema : Schema) (sort : Sort) (keys cols : list nat) :
  required_cols ast schema sort keys = inr cols →
  NoDup cols ∧ keys ⊆ cols ∧
  (∀ b n d, ast_start ast = Some b → n ∈ (bound_row b).*1 → col_id schema n = Some d → d ∈ cols) ∧
  (ast_select ast = None → ∀ d, d < length (columns schema) → d ∈ cols) ∧
  ∀ r r', agree cols r r' →
    (∀ q, row_cmp sort r q = row_cmp sort r' q) ∧
    ∀ gate, holds_where (leaf_holds schema r) gate (ast_where ast) = holds_where (leaf_holds schema r') gate (ast_where ast).
Proof.
  unfold required_cols. intros (c1 & H1 & (c2 & H2 & (c3 & H3 & [= <-])%try_bind_inr)%try_bind_inr)%try_bind_inr.
  assert (NoDup c1 ∧ (ast_select ast = None → ∀ d, d < length (columns schema) → d ∈ c1)) as [N1 S1].
  { destruct (ast_select ast) as [ns|]; [apply add_names_collects in H1 as [_ N1]; split; [apply N1; constructor|done]|].
    injection H1 as <-. destruct (push_all_collects (λ x, x) (seq 0 (length (columns schema))) []) as [E N]. split; [apply N; constructor|].
    intros _ d Hd. apply E. right. exists d. split; [|done]. apply elem_of_seq. lia. }
  assert (collects c1 c2 (λ d, match ast_where ast with Some w => names_column schema d w | None => False end)) as [E2 N2].
  { destruct (ast_where ast); [by apply leaf_columns_collects|]. injection H2 as <-. apply collects_refl. }
  destruct (push_all_collects fst sort c2) as [E3 N3]. cbn beta in *.
  set (cs := foldl _ c2 sort) in *. change (foldl (λ cols e, push_unique cols e.1) c2 sort) with cs in H3.
  assert (collects cs c3 (λ d, match ast_start ast with Some b => ∃ n, n ∈ map fst (bound_row b) ∧ col_id schema n = Some d | None => False end)) as [E4 N4].
  { destruct (ast_start ast); [by apply add_names_collects|]. injection H3 as <-. apply collects_refl. }
  destruct (push_all_collects (λ x, x) keys c3) as [E5 N5]. change (foldl (λ cols e, push_unique cols e) c3 keys) with (foldl push_unique c3 keys) in E5, N5.
  split_and!.
  - auto.
  - intros k Hk. apply E5. right. by exists k.
  - intros b n d Hb Hn Hd. apply E5. left. apply E4. right. rewrite Hb. by exists n.
  - intros Hsel d Hd. apply E5. left. apply E4. left. apply E3. left. apply E2. left. auto.
  - intros r r' Ha. split.
    + intros q. apply row_cmp_agree. intros e He. apply Ha, E5. left. apply E4. left. apply E3. right. by exists e.
    + intros gate. unfold holds_where. destruct (ast_where ast) as [w|] eqn:Ew; [|done]. apply holds_agree.
      intros d Hd. apply Ha, E5. left. apply E4. left. apply E3. left. apply E2. by right.
Qed.

(** ** Orders *)

Definition low_order (schema : Schema) (sort : Sort) (ob : list OrderPart) : result Sort :=
  try_for (λ sort o, try! c := lower_col_id schema (op_field o) in
                     inr (sort ++ [(c, match op_dir o with Asc => true | Desc => false end)])) sort ob.

Definition add_key (sort : Sort) (c : nat) : Sort :=
  if existsb (λ e : nat * bool, (e.1 =? c)%nat) sort then sort else sort ++ [(c, true)].

Lemma try_for_app {A B} (f : B → A → result B) acc l1 l2 : try_for f acc (l1 ++ l2) = try! acc := try_for f acc l1 in try_for f acc l2.
Proof. revert acc. induction l1 as [|x l1 IH]; intros acc; [done|]. cbn [app try_for]. destruct (f acc x); [done|]. apply IH. Qed.

Lemma key_present (sort : Sort) c : existsb (λ e : nat * bool, (e.1 =? c)%nat) sort = true ↔ ∃ asc, (c, asc) ∈ sort.
Proof.
  rewrite existsb_exists. setoid_rewrite Nat.eqb_eq. setoid_rewrite <-list_elem_of_In. split.
  - intros ([c' asc] & H & <-). by exists asc.
  - intros (asc & H). by exists (c, asc).
Qed.

Lemma add_keys_spec pk sort :
  ∃ l, foldl add_key sort pk = sort ++ map (λ c, (c, true)) l ∧ (∀ c, c ∈ l → c ∈ pk) ∧
    ∀ c, c ∈ pk → ∃ asc, (c, asc) ∈ foldl add_key sort pk.
Proof.
  revert sort. induction pk as [|c pk IH]; intros sort; cbn [foldl].
  { exists []. rewrite app_nil_r. split_and!; [done|done|by intros ? ?%elem_of_nil]. }
  destruct (IH (add_key sort c)) as (l & -> & Hl & Hin). unfold add_key in *. destruct (existsb _ sort) eqn:E.
  - exists l. split_and!; [done|intros; right; auto|]. intros c' [->|Hc']%elem_of_cons; [|auto].
    apply key_present in E as (asc & Hasc). exists asc. apply elem_of_app. by left.
  - exists (c :: l). rewrite <-app_assoc in Hin |- *. cbn [map app] in *. split_and!; [done|intros c' [->|]%elem_of_cons; [by left|right; auto]|].
    intros c' [->|Hc']%elem_of_cons; [|auto]. exists true. apply elem_of_app. right. by left.
Qed.

Lemma add_keys_present pk sort : (∀ c, c ∈ pk → ∃ asc, (c, asc) ∈ sort) → foldl add_key sort pk = sort.
Proof.
  induction pk as [|c pk IH]; intros H; [done|]. cbn [foldl]. unfold add_key at 2.
  assert (existsb (λ e : nat * bool, (e.1 =? c)%nat) sort = true) as -> by (apply key_present, H; by left).
  apply IH. intros; apply H; by right.
Qed.

Lemma low_order_parts schema ob acc base :
  low_order schema acc ob = inr base → ∃ b, base = acc ++ b ∧
    Forall2 (λ o e, col_id schema (op_field o) = Some e.1 ∧ e.2 = match op_dir o with Asc => true | Desc => false end) ob b.
Proof.
  unfold low_order. revert acc. induction ob as [|o ob IH]; intros acc; cbn [try_for].
  { intros [= <-]. exists []. by rewrite app_nil_r. }
  intros (s & (c & Hc%lower_col_inr & [= <-])%try_bind_inr & Hr)%try_bind_inr. destruct (IH _ Hr) as (b & -> & Hb).
  eexists (_ :: b). rewrite <-app_assoc. split; [done|]. by constructor.
Qed.

Lemma col_id_of schema n c : NoDup (columns schema) → columns schema !! c = Some n → col_id schema n = Some c.
Proof.
  intros Hnd Hc. apply position_spec. split; [exists n; split; [done|by apply bool_decide_eq_true]|].
  intros j x Hj Hx. apply bool_decide_eq_false. intros ->. pose proof (NoDup_lookup _ _ _ _ Hnd Hc Hx). lia.
Qed.

Lemma low_completed schema names pk ob base :
  NoDup (columns schema) → Forall2 (λ n c, columns schema !! c = Some n) names pk →
  low_order schema [] ob = inr base → low_order schema [] (add_primary_keys names ob) = inr (foldl add_key base pk).
Proof.
  intros Hnd HF. revert ob base. induction HF as [|n c names pk Hc _ IH]; intros ob base Hb; [done|]. cbn [add_primary_keys foldl].
  apply IH. destruct (low_order_parts _ _ _ _ Hb) as (b & -> & Hparts). cbn [app] in *. unfold add_key.
  assert (existsb (λ o, bool_decide (op_field o = n)) ob = existsb (λ e : nat * bool, (e.1 =? c)%nat) b) as ->.
  { clear -Hparts Hc Hnd. induction Hparts as [|o e ob b [Hid _] _ IH]; [done|]. cbn [existsb]. rewrite IH. f_equal.
    case_bool_decide as Hn.
    - subst n. rewrite (col_id_of schema (op_field o) c Hnd Hc) in Hid. injection Hid as <-. by rewrite Nat.eqb_refl.
    - destruct (Nat.eqb_spec e.1 c) as [He|]; [|done]. apply col_id_spec in Hid. rewrite He in Hid. congruence. }
  destruct (existsb _ b); [done|]. unfold low_order in *. rewrite try_for_app, Hb. cbn [try_bind try_for op_field op_dir].
  unfold lower_col_id. by rewrite (col_id_of schema n c Hnd Hc).
Qed.

(** A resolved order is that of the query, column by column, then the columns of
    the primary key that are missing, ascending, so that it always has the whole key;
    completing the query's order by name first changes nothing. *)
Theorem resolve_sort_completes (schema : Schema) (names : list name) (ob : list OrderPart) :
  NoDup (columns schema) → Forall2 (λ n c, columns schema !! c = Some n) names (schema_pk schema) →
  resolve_sort (add_primary_keys names ob) schema = resolve_sort ob schema ∧
  ∀ sort, resolve_sort ob schema = inr sort →
    (∀ c, c ∈ schema_pk schema → ∃ asc, (c, asc) ∈ sort) ∧
    ∃ base l, sort = base ++ map (λ c, (c, true)) l ∧ (∀ c, c ∈ l → c ∈ schema_pk schema) ∧
      Forall2 (λ o e, col_id schema (op_field o) = Some e.1 ∧ e.2 = match op_dir o with Asc => true | Desc => false end) ob base.
Proof.
  intros Hnd HF.
  assert (∀ ob, resolve_sort ob schema = try! sort := low_order schema [] ob in inr (foldl add_key sort (schema_pk schema))) as Hr by done.
  rewrite !Hr. split.
  - destruct (low_order schema [] ob) as [e|base] eqn:Hb; cbn [try_bind].
    + destruct (add_primary_keys_spec names ob) as (l & -> & _). unfold low_order in *. rewrite try_for_app. by rewrite Hb.
    + rewrite (low_completed schema names (schema_pk schema) ob base Hnd HF Hb). cbn [try_bind]. f_equal. apply add_keys_present.
      by destruct (add_keys_spec (schema_pk schema) base) as (? & _ & _ & ?).
  - intros sort (base & Hb & [= <-])%try_bind_inr. destruct (add_keys_spec (schema_pk schema) base) as (l & Heq & Hl & Hin).
    split; [done|]. destruct (low_order_parts _ _ _ _ Hb) as (b & -> & Hparts). cbn [app] in *. by exists b, l.
Qed.

(** ** The filters of a connection *)

Definition is_present (presence : option (list nat)) (r : row) : bool :=
  match presence with Some cols => presence_pred cols r | None => true end.

Lemma filters_sound f64_to_string w presence schema f full :
  build_connection_filters f64_to_string w presence schema = inr (Some f, full) →
  (∀ r gate, predicate f r = is_present presence r && holds_where (leaf_holds schema r) gate (transform_filters w).1) ∧
  full = negb (transform_filters w).2 ∧ pk_constraint f = None ∧
  ∀ g r, push_guard f = Some g → predicate f r = true → guarded g r.
Proof.
  unfold build_connection_filters. destruct (transform_filters w) as [[c|] removed].
  - intros (base & Hbase & (sql & _ & [= <- <-])%try_bind_inr)%try_bind_inr. cbn [predicate pk_constraint push_guard fst snd holds_where].
    assert (∀ r gate, match presence with None => base | Some cols => λ r, presence_pred cols r && base r end r =
      is_present presence r && holds (leaf_holds schema r) gate c) as Hp.
    { intros r gate. destruct (row_predicate_holds schema gate c base Hbase) as [_ Hh]. rewrite <-Hh. by destruct presence. }
    split_and!; [done|done|done|]. intros g r Hg Hr. rewrite (Hp r (λ _, true)) in Hr. apply andb_true_iff in Hr as [_ Hr]. by eapply guard_sound.
  - intros [= Hf <-]. destruct presence as [cols|]; [|done]. injection Hf as <-. split_and!; [|done|done|done].
    intros r gate. cbn. by rewrite andb_true_r.
Qed.

(** [C38] The filters of a connection accept exactly the rows that have the required
    columns and of which the subquery-free part of the condition is true; so they
    accept every such row of which the whole condition is true, whatever its
    subqueries say, and exactly those when they are reported to be fully applied.
    Their guard names a value of every row they accept. *)
Theorem connection_filters_sound (f64_to_string : f64 → list byte) (w : option Condition) (presence : option (list nat))
    (schema : Schema) (f : ConnectionFilters) (full : bool) :
  build_connection_filters f64_to_string w presence schema = inr (Some f, full) →
  (∀ r gate, is_present presence r = true → holds_where (leaf_holds schema r) gate w = true → predicate f r = true) ∧
  (full = true → ∀ r gate, predicate f r = is_present presence r && holds_where (leaf_holds schema r) gate w) ∧
  (full = true ↔ match w with Some c => subquery_free c = true | None => True end) ∧
  (∀ g r, push_guard f = Some g → predicate f r = true → guarded g r).
Proof.
  intros (Hp & Hfull & _ & Hg)%filters_sound. pose proof (transform_weakens w) as Hw. destruct (transform_filters w) as [t removed].
  destruct Hw as (Hr & Hs & _ & Hweak). cbn [fst snd] in *. subst full. split_and!; [| | |done].
  - intros r gate Hpres Hh. rewrite (Hp r gate), Hpres. cbn. by apply Hweak.
  - intros Hrem%negb_true_iff r gate. by rewrite (Hp r gate), (Hs Hrem).
  - rewrite Hr. destruct w as [c|]; [by destruct (subquery_free c)|done].
Qed.

(** A connection table whose filters were all built here meets what the push relies
    on: every predicate implies its guard, so pruning by guards loses no delivery. *)
Theorem built_guards_sound (f64_to_string : f64 → list byte) (t : ConnTable) :
  (∀ i conn f, conns t !! i = Some conn → filters conn = Some f →
    ∃ w presence schema full, build_connection_filters f64_to_string w presence schema = inr (Some f, full)) →
  guards_sound t.
Proof.
  intros H i conn f g r Hi Hf Hg Hr. destruct (H i conn f Hi Hf) as (w & pr & schema & full & (_ & _ & _ & Hs)%filters_sound).
  by apply (Hs g r).
Qed.

(** ** A concrete table *)

(** Columns [id], [name] and [age], the key the first. *)
Definition ex_people : Schema := schema_new [[x69; x64]; [x6e]; [x61]]%byte [0] [(0, true)].
Definition ex_person (id age : Z) (n : list byte) : row := [Int (i64_of_Z id); Str n; Int (i64_of_Z age)].

Definition ex_named (n : list byte) : Condition := Simple (MkSimple OpEq (PosColumn [x6e]%byte) (PosLiteral (LitStr n))).

(** [age >= 18.0 and (name = 'x' or name = 'y')]. *)
Definition ex_where : Condition :=
  And [Simple (MkSimple OpGe (PosColumn [x61]%byte) (PosLiteral (LitNumber (f64_of_bits 0x4032000000000000))));
       Or [ex_named [x78]%byte; ex_named [x79]%byte]].


Lemma pushable_constraint_sound_witness :
  constraint_matches (ex_person 1 20 [x78]%byte) (pushable_constraint ex_people (And [ex_where; ex_named [x78]%byte])) = Some true ∧
  pushable_constraint ex_people (And [ex_where; ex_named [x78]%byte]) = [(1, Str [x78]%byte)].
Proof. split; [apply (pushable_constraint_sound ex_people _ (λ _, false)); by vm_compute|by vm_compute]. Defined.

Lemma required_cols_suffice_witness :
  let a := with_where (MkAst None [x74]%byte None (Some [[x69; x64]%byte]) None [] None None false None false [] None []) (Some (ex_named [x78]%byte)) in
  ∃ cols, required_cols a ex_people [(0, true)] [] = inr cols ∧ cols = [0; 1] ∧ NoDup cols ∧
    holds_where (leaf_holds ex_people (ex_person 1 20 [x78]%byte)) (λ _, true) (ast_where a) =
    holds_where (leaf_holds ex_people [Int (i64_of_Z 1); Str [x78]%byte; Absent]) (λ _, true) (ast_where a).
Proof.
  intros a. exists [0; 1]. split; [by vm_compute|]. split; [done|].
  destruct (required_cols_suffice a ex_people [(0, true)] [] [0; 1]) as (Hnd & _ & _ & _ & Hag); [by vm_compute|]. split; [exact Hnd|].
  apply Hag. intros c [->|[->|Hc%elem_of_nil]%elem_of_cons]%elem_of_cons; done.
Defined.

Lemma resolve_sort_completes_witness :
  let ob := [MkOrder [x61]%byte Desc] in
  resolve_sort (add_primary_keys [[x69; x64]%byte] ob) ex_people = resolve_sort ob ex_people ∧
  resolve_sort ob ex_people = inr [(2, false); (0, true)] ∧ ∃ asc, (0, asc) ∈ [(2, false); (0, true)].
Proof.
  destruct (resolve_sort_completes ex_people [[x69; x64]%byte] [MkOrder [x61]%byte Desc]) as [H1 H2].
  - repeat (apply NoDup_cons; split; [rewrite ?not_elem_of_cons; repeat split; try discriminate; apply not_elem_of_nil|]). apply NoDup_nil_2.
  - repeat constructor.
  - split; [exact H1|]. split; [by vm_compute|]. apply (H2 [(2, false); (0, true)]); [by vm_compute|by left].
Defined.

Definition ex_filter : ConnectionFilters :=
  match build_connection_filters (λ _, []) (Some ex_where) None ex_people with
  | inr (Some f, _) => f
  | _ => MkFilters (λ _, true) None false None None
  end.

Lemma ex_built : build_connection_filters (λ _, []) (Some ex_where) None ex_people = inr (Some ex_filter, true).
Proof. reflexivity. Qed.

Lemma connection_filters_sound_witness :
  push_guard ex_filter = Some (MkGuard 1 [Str [x78]%byte; Str [x79]%byte]) ∧ predicate ex_filter (ex_person 1 20 [x78]%byte) = true ∧
  guarded (MkGuard 1 [Str [x78]%byte; Str [x79]%byte]) (ex_person 1 20 [x78]%byte).
Proof.
  destruct (connection_filters_sound (λ _, []) (Some ex_where) None ex_people ex_filter true ex_built) as (H1 & _ & _ & H4).
  assert (predicate ex_filter (ex_person 1 20 [x78]%byte) = true) as Hp by (apply (H1 _ (λ _, true)); by vm_compute).
  split; [reflexivity|]. split; [exact Hp|]. by apply H4.
Defined.

Definition ex_guard_table : ConnTable :=
  MkTable [MkConn [(0, true)] false [] (Some ex_filter) 0 None] [0%Z] [] (insert push_index_new 0 (push_guard ex_filter) []).

Lemma built_guards_sound_witness : guards_sound ex_guard_table.
Proof.
  apply (built_guards_sound (λ _, [])). intros i conn f Hi Hf.
  destruct i as [|i]; [|by destruct i]. injection Hi as <-. injection Hf as <-. exists (Some ex_where), None, ex_people, true. exact ex_built.
Defined.
